(* ===== verification/_CoqProject ===== *)
-Q . S2P
Prelude.v
MatchQueue.v
TimerWheel.v
Poller.v
Reactor.v
PeriodicTimer.v
Buffer.v
Codec.v
TcpConnection.v
Echo.v
AsyncWriter.v
EventLoop.v
EventLoopThread.v
Acceptor.v
Socket.v
Float32.v
Proto.v
BattleSim.v
LoopPool.v
TcpServer.v
Room.v
GameServer.v
System.v
Flow.v
Typing.v
Shutdown.v
Inline.v
Storage.v
Gateway.v
Bot.v
Bench.v
Cli.v
Report.v
Server.v
Process.v
Dial.v
