(* ===== verification/Prelude.v ===== *)
(** * A verification of MyGameServer

    MyGameServer ([src/]) is a server for two-player battles: a network library
    in the style of a reactor, a framing protocol, a hierarchical timer wheel,
    a lobby with sessions and matchmaking, battle rooms that simulate at 20 Hz,
    and asynchronous storage. This library models its C++ code as Rocq functions
    and state machines, and proves what makes each part correct.

    ** How the program works

    Threads are assigned roles. IO threads read bytes ([TcpConnection], [Buffer]),
    cut frames ([ProtobufCodec]) and find the handler ([Dispatcher]), which posts
    a task to the lobby. The lobby thread owns the sessions, the match queue, the
    timer wheel and the table of rooms ([GameServer]); a 100 ms timer drives the
    wheel. A room lives on one game thread ([Room]); its 50 ms timer steps the
    simulation ([BattleSim]) and broadcasts the changes. The storage thread runs
    the jobs the others enqueue ([AsyncWriter]). Threads meet only through the
    task queues of the event loops ([EventLoop]) and the storage queue.

    ** Files

    - [Prelude]: machine integers, undefined behaviour as a value ([res]), the
      iteration order of hash containers ([HashOrder]).
    - [MatchQueue]: [src/game/MatchQueue.h], refined to a FIFO list.
    - [TimerWheel]: [src/timer/TimerWheel.*], refined to a map of due ticks;
      programs over a wheel ([wprog]) are the interface its clients use.
    - [Poller]: [src/net/Channel.*], [EPollPoller.*] over a kernel given by a
      class with the laws of epoll_ctl(2).
    - [Reactor]: the objects inside [EventLoop]: constructor, destructor, polling
      and dispatch over the heap of channels the kernel points to.
    - [PeriodicTimer]: [src/timer/PeriodicTimer.*], timers as channels of a loop.
    - [Buffer]: [src/net/Buffer.*], refined to a byte queue.
    - [Codec]: [src/proto/ProtobufCodec.*], [Dispatcher.h], [MsgId.h], with a
      reference parser of byte strings.
    - [TcpConnection]: [src/net/TcpConnection.*], the byte streams in both
      directions and the shutdown protocol.
    - [Echo]: [examples/echo_server.cc], the callback on such a connection.
    - [AsyncWriter]: [src/storage/AsyncWriter.*], an interleaving machine.
    - [EventLoop]: [src/net/EventLoop.*], the functor queue and its wake-ups, an
      interleaving machine.
    - [EventLoopThread]: [src/net/EventLoopThread.*], the life of a loop's thread
      as an interleaving machine around that of [EventLoop].
    - [Acceptor]: [src/net/Acceptor.*], the edge-triggered accept loop over a
      kernel with the laws of accept(2).
    - [Socket]: [src/net/InetAddress.*], [Socket.*] and the life of the listening
      socket, over descriptors with the laws of socket(2), bind(2) and close(2).
    - [Float32]: IEEE binary32 arithmetic on [SpecFloat] and its order.
    - [Proto]: the messages of [src/proto/game.proto].
    - [BattleSim]: [src/game/BattleSim.*], one definition per phase of [step].
    - [LoopPool]: [src/net/EventLoopThreadPool.*].
    - [TcpServer]: [src/net/TcpServer.*], the connection table.
    - [Room]: [src/game/Room.*], with the client's view as specification.
    - [GameServer]: [src/game/GameServer.*], [Session.h]; every handler and timer
      callback, run against the wheel of [TimerWheel].
    - [System]: the composition of the lobby with the rooms through the functor
      queues of the loops, including the destructor of [GameServer].
    - [Flow]: what passes through lobby and rooms, against a policy ([Policy],
      [Laws]) that is given message by message.
    - [Typing]: the policy that says which messages clients can rely on.
    - [Shutdown]: what the destructor of [GameServer] waits for.
    - [Inline]: the server without game threads, where the rooms run inline on the
      lobby thread.
    - [Storage]: [src/storage/RedisClient.*], [MySqlStore.*] and the tasks of the
      storage thread, over hiredis and libmysqlclient as classes; [MemDB] is a
      small database that satisfies their laws.
    - [Gateway]: the constructor of [GameServer]: how connections, codec and
      dispatcher are joined to the handlers.
    - [Bot]: [examples/bot_client.cc], a client that plays.
    - [Dial]: the bot's socket, and what it writes to it.
    - [Bench]: [examples/bench_client.cc], the load generator.
    - [Cli]: what the four programs of [examples/] make of their arguments.
    - [Report]: the percentiles the load generator prints.
    - [Server]: the whole server as one machine over bytes, which joins
      [TcpServer], [TcpConnection], [Gateway], [System] and [Storage].
    - [Process]: [examples/game_server.cc] from [main] to the end of the process: the
      signal, the destructor of [GameServer] and the destruction of its members
      ([GameServer.h]) in reverse order, around the machine of [Server].

    Each file has a Module with the name of the class; state is a [Record] with
    the members' names, an operation is a function with the method's name. What
    a call does to the rest of the program (messages sent, system calls, tasks
    posted, callbacks) is a list of effects it returns.

    ** Modelling decisions

    - [uint16_t], [uint32_t], [uint64_t] are [Z] with the wrap-around written out
      where the code computes on them. Counters that only count up from 1
      (player, room, projectile and timer ids) are unbounded; the wheel's clock
      is taken to be below [2^62] ticks ([GameServer.in_time]).
    - [float] is binary32 with round to nearest and without contraction to fused
      operations. [std::hypot] is not required to be exact and is a class
      parameter ([Libm]); [BattleSim.libm64] is one implementation.
    - The order in which an [unordered_map] is walked is a class parameter
      ([HashOrder]) that may change from call to call; the theorems hold for
      every order.
    - Undefined behaviour and failed assertions ([front()] of an empty deque, an
      index past the end, [Buffer::retrieve] past the end) are [UB], and the
      theorems show that they are not reached.
    - The clock and the random numbers a handler reads are arguments.
    - The kernel (answers of [read], [write], [recv], [accept], readiness events,
      [epoll_ctl]), protobuf (serialising and parsing), hiredis and MySQL are
      parameters, with what the code relies on as hypotheses or laws of a class;
      each class has an instance, with which the witnesses evaluate.
    - Closures given to the wheel and tasks given to other threads are
      constructors ([GameServer.callback], [Room.action], [TcpConnection.task]);
      a function gives the body of each.
    - Loops are structural where they walk a list. Fuel is used where a loop
      consumes bytes or connections, and is their number: in [Codec.onMessage] the
      readable bytes and one more, enough because a frame takes at least six
      ([Codec.onMessage_loop_decode], [Codec.decode_loop_fuel]); in
      [Acceptor.handleRead] the backlog and one more; in [Bot.recvN] and in the
      send loops of [Bench] the missing or waiting bytes, since every call moves
      one at least ([Bot.recvN_spec], [Bench.send_loop_moves]); in
      [Bench.frame_loop] the readable bytes, where [None] is a loop that does not
      end ([Bench.frame_loop_decode] excludes it on legal streams).

    ** What is proved

    - Data structures: the match queue is a FIFO queue and never undefined; the
      wheel fires exactly the timers that are due, once, with callbacks that may
      add and cancel timers; the buffer is a byte queue.
    - Protocol: frames survive any cutting of the stream; any input is handled
      within bounds; an illegal frame ends the connection; typed messages reach
      their handlers.
    - Network: the output of a connection is a byte stream under partial and
      failed writes, its end comes after all of it, frames sent on one
      connection are dispatched in order on another, the kernel watches what
      channels ask for, no posted functor is forgotten, the connection table is
      exact.
    - Battle: players stay in the arena, [step] reports exactly the changes,
      projectiles live and die as reported, hit the first target on their way,
      the fire rate is bounded, the winner is the last survivor.
    - Room: a client that applies the snapshots it is sent has the state of the
      simulation; a battle ends at most once.
    - Lobby: an invariant ties sessions, connections, queue, rooms and timers
      together in every reachable state; disconnected sessions are kept for
      exactly 30 s; reconnection works exactly with the token; nobody waits for
      a match longer than 30 s; silent connections are kicked; rooms start with
      two connected players; results are recorded.
    - Composition: in every reachable state of lobby, rooms and queues the two
      sides agree on rooms and connections and every step is defined; the end of
      a battle is handled exactly once; a room does not outlive the session of a
      player; the destructor stops every room on its own loop and returns, and
      no task of a room is left to the lobby then.
      Without game threads the two sides agree after every single step, and every
      battle that ends is recorded.
    - Whole server: every run of the byte-level machine is a run of lobby and rooms
      over ordered channels: requests are handled in the order in which the bytes
      of a client encode them, and a client reads a prefix of what was sent to
      it. Every message sent is well typed.
    - Process: no storage task that was queued is lost at the end, because
      [writer_] is declared last and joined first; when the clients have left,
      every step of every thread through the destructors is defined, and the end
      is reached from every state on the way.
    - Threads and timers: the life of a loop thread is safe under every
      interleaving and ends; live timers are watched, and the kernel never points
      to a destroyed channel; the loop dispatches events only to channels that are
      alive, whatever callbacks do within the rules their owners keep; every
      connection that arrives is accepted; the listening socket is closed once.
    - Storage: jobs run once, in order, and all of them before the queue ends; a
      result adds one win, one loss and one point and nothing else, whatever
      characters the accounts have, and can be read back; without the servers
      storage does nothing; no null handle is used.
    - Clients: the bot sends whole frames, reads those of the server in order, knows
      the battle as the server has it, attacks the nearest enemy and is not kicked; the benchmark parses
      the stream as the codec does, writes whole frames and accounts for every
      connection, and its percentiles are samples, in order; a command line that
      gives every option is read back.
    - Deviations from the intention, each with a run or a theorem that shows it:
      NaN inputs make a player invulnerable, a draw never ends, a forfeit is not
      recorded, an abandoned match timeout cuts a later wait, a second login
      orphans a session, long timers fire early, idle inputs are not
      acknowledged, a posted send is written after [SHUT_WR], an early [quit] is
      lost and one from a signal handler may wait for the next event, a late
      reconnection is shown the finished battle, a match request during the
      shutdown is undefined, a client that is connected at the end makes the
      destructor of [TcpServer] use the loop of the lobby that is gone, a request
      that comes late uses destroyed members, an aborted connection strands those
      behind it, a stalled timer loses periods, an account with a NUL scores for
      another, recording twice counts twice; in the clients a time-out inside a
      frame desynchronises the bot, a failed send is forgotten and a wrapped
      length never ends in the benchmark.

    ** What is not modelled

    The Unity client (C#), the tests and the lines the programs print. System calls
    are labels or parameters, so their own effects (a file descriptor that runs
    out, a clock that jumps) appear only as answers. The accept step of [Server] is
    a connection the kernel hands over; the queue behind it is in [Acceptor].
    [Server] has at least one game thread, as [System]; the bytes in front
    of [Inline] would be those of [Gateway] again. In [Process] the signal sets the flag of the base loop at once (when the loop notices it is in
    [EventLoop]), and a member that is gone counts as used only where a handler
    reads or writes it. *)

From stdpp Require Import base gmap sets list strings relations.
From Stdlib Require Import ZArith Lia.

(** ** Machine integers

    The C++ code computes on [uint16_t], [uint32_t], [uint64_t] and [size_t];
    a value of such a type is a [Z], and the wrap-around of an arithmetic
    operation is written out with the functions below. *)

Declare Scope gs_scope.
Delimit Scope gs_scope with gs.

Definition u16 (z : Z) : Z := (z mod 2 ^ 16)%Z.

Definition u32 (z : Z) : Z := (z mod 2 ^ 32)%Z.

Definition u64 (z : Z) : Z := (z mod 2 ^ 64)%Z.

(** [static_cast<int>] of an unsigned 32-bit value (two's complement). *)
Definition i32_of_u32 (z : Z) : Z :=
  (if z <? 2 ^ 31 then z else z - 2 ^ 32)%Z.

(** ** Undefined behaviour as a value

    [front()] of an empty deque, a failed [assert] or a null dereference has
    no result in the model: a definition that may reach one returns [res]. *)

Inductive res (A : Type) : Type :=
  | Ok (a : A)
  | UB.
Arguments Ok {A} a.
Arguments UB {A}.

Lemma Ok_inj {A} (x y : A) : Ok x = Ok y -> x = y.
Proof. congruence. Qed.

Definition res_bind {A B} (m : res A) (k : A -> res B) : res B :=
  match m with Ok a => k a | UB => UB end.

Notation "'let!' x ':=' m 'in' k" := (res_bind m (fun x => k))
  (at level 10, x pattern, m at level 100, k at level 200) : gs_scope.

(** ** Iteration order of [std::unordered_map]

    The standard leaves the iteration order of a hash map unspecified: it
    depends on the hash, the bucket count and the insertion history. A loop
    [for (auto& [k, v] : m)] is modelled over the list [hash_order tag (dom m)],
    some permutation of the keys; [tag] tells the containers apart, since two
    maps with the same keys may be iterated in different orders. All theorems
    hold for every instance, and a transition relation picks an instance anew
    at each step, so that the order may change with the history of the map. *)

Inductive container : Type :=
  | CPlayers | CProjectiles | CConns | CSessions | CRooms.

Class HashOrder : Type := {
  hash_order : container -> gset Z -> list Z;
  hash_order_perm : forall c s, hash_order c s ≡ₚ elements s;
}.

(** The instance used to evaluate the model on concrete inputs. *)
Definition elements_order : HashOrder :=
  {| hash_order := fun _ s => elements s; hash_order_perm := fun _ s => Permutation_refl _ |}.

(** The instance that iterates backwards: a second one, to show that results
    do depend on the order in places. *)
Definition reverse_order : HashOrder :=
  {| hash_order := fun _ s => rev (elements s);
     hash_order_perm := fun _ s => symmetry (Permutation_rev (elements s)) |}.

(** ** Tactics *)

Create HintDb gs discriminated.

(** Case analysis on the scrutinee of a [match] or [if] of the goal. *)
Ltac dmatch :=
  match goal with
  | |- context [match ?x with _ => _ end] =>
      lazymatch x with
      | context [match _ with _ => _ end] => fail
      | _ => destruct x eqn:?
      end
  end.

(** The same in a hypothesis. *)
Ltac dmatch_in H :=
  match type of H with
  | context [match ?x with _ => _ end] =>
      lazymatch x with
      | context [match _ with _ => _ end] => fail
      | _ => destruct x eqn:?
      end
  end.

(** A computation that returned [Ok]: so did each of its parts. *)
Ltac ok_inv H :=
  repeat match type of H with
  | res_bind ?m _ = Ok _ => destruct m as [?|] eqn:?; cbn [res_bind] in H; [|discriminate H]
  | (let (_, _) := ?p in _) = Ok _ => destruct p as [? ?] eqn:?
  | (if ?b then _ else _) = Ok _ => destruct b eqn:?
  end.

(** [lia] with the equations of division and modulo. *)
Ltac zlia := Z.to_euclidean_division_equations; lia.

Ltac b2p :=
  repeat match goal with
  | H : (_ && _) = true |- _ => apply andb_true_iff in H; destruct H
  | H : (_ || _) = false |- _ => apply orb_false_iff in H; destruct H
  | H : negb _ = true |- _ => apply negb_true_iff in H
  | H : negb _ = false |- _ => apply negb_false_iff in H
  | H : bool_decide _ = true |- _ => apply bool_decide_eq_true in H
  | H : bool_decide _ = false |- _ => apply bool_decide_eq_false in H
  | H : (_ =? _)%Z = true |- _ => apply Z.eqb_eq in H
  | H : (_ =? _)%Z = false |- _ => apply Z.eqb_neq in H
  | H : (_ <? _)%Z = true |- _ => apply Z.ltb_lt in H
  | H : (_ <? _)%Z = false |- _ => apply Z.ltb_ge in H
  | H : (_ <=? _)%Z = true |- _ => apply Z.leb_le in H
  | H : (_ <=? _)%Z = false |- _ => apply Z.leb_gt in H
  | H : (_ <? _)%nat = true |- _ => apply Nat.ltb_lt in H
  | H : (_ <? _)%nat = false |- _ => apply Nat.ltb_ge in H
  end.

(** ** Lemmas on the hash order *)

Section HashOrderLemmas.
Context {HO : HashOrder}.

Lemma elem_of_hash_order c (s : gset Z) k : k ∈ hash_order c s <-> k ∈ s.
Proof. rewrite (hash_order_perm c s). apply elem_of_elements. Qed.

Lemma NoDup_hash_order c (s : gset Z) : NoDup (hash_order c s).
Proof. rewrite (hash_order_perm c s). apply NoDup_elements. Qed.

Lemma length_hash_order c (s : gset Z) : length (hash_order c s) = size s.
Proof. rewrite (hash_order_perm c s). reflexivity. Qed.

Lemma elem_of_hash_order_dom {V} c (m : gmap Z V) k :
  k ∈ hash_order c (dom m) <-> is_Some (m !! k).
Proof. rewrite elem_of_hash_order. apply elem_of_dom. Qed.

End HashOrderLemmas.

(** ** Lemmas on machine integers *)

Lemma u64_small z : (0 <= z < 2 ^ 64)%Z -> u64 z = z.
Proof. intros. unfold u64. apply Z.mod_small. lia. Qed.

Lemma u32_small z : (0 <= z < 2 ^ 32)%Z -> u32 z = z.
Proof. intros. unfold u32. apply Z.mod_small. lia. Qed.

Lemma u64_range z : (0 <= u64 z < 2 ^ 64)%Z.
Proof. unfold u64. apply Z.mod_pos_bound. lia. Qed.

Lemma u32_range z : (0 <= u32 z < 2 ^ 32)%Z.
Proof. unfold u32. apply Z.mod_pos_bound. lia. Qed.

(** ** Interleavings of two lists *)

Inductive interleaving {A} : list A -> list A -> list A -> Prop :=
  | interleaving_nil : interleaving [] [] []
  | interleaving_l x xs ys zs : interleaving xs ys zs -> interleaving (x :: xs) ys (x :: zs)
  | interleaving_r y xs ys zs : interleaving xs ys zs -> interleaving xs (y :: ys) (y :: zs).

#[export] Hint Constructors interleaving : gs.

Section Interleavings.
Context {A : Type}.
Implicit Types xs ys zs : list A.

Lemma interleaving_left xs : interleaving xs [] xs.
Proof. induction xs; auto with gs. Qed.

Lemma interleaving_right ys : interleaving [] ys ys.
Proof. induction ys; auto with gs. Qed.

Lemma interleaving_app xs1 ys1 zs1 xs2 ys2 zs2 :
  interleaving xs1 ys1 zs1 -> interleaving xs2 ys2 zs2 -> interleaving (xs1 ++ xs2) (ys1 ++ ys2) (zs1 ++ zs2).
Proof. induction 1; intros; simpl; auto with gs. Qed.

Lemma interleaving_only_left xs zs : interleaving xs [] zs -> zs = xs.
Proof. remember [] as ys. induction 1; [done| |done]. f_equal. auto. Qed.

Lemma interleaving_map_inv {B} (f : B -> A) (xs ys : list B) zs :
  interleaving (map f xs) (map f ys) zs -> exists ms, zs = map f ms /\ interleaving xs ys ms.
Proof.
  remember (map f xs) as xs'. remember (map f ys) as ys'. intros H. revert xs ys Heqxs' Heqys'.
  induction H as [|x xs1 ys1 zs H IH|y xs1 ys1 zs H IH]; intros xs ys Hx Hy.
  - destruct xs, ys; try done. exists []. auto with gs.
  - destruct xs as [|x0 xs]; [done|]. injection Hx as -> ->. destruct (IH xs ys) as (ms & -> & Hm); [done..|].
    exists (x0 :: ms). auto with gs.
  - destruct ys as [|y0 ys]; [done|]. injection Hy as -> ->. destruct (IH xs ys) as (ms & -> & Hm); [done..|].
    exists (y0 :: ms). auto with gs.
Qed.

End Interleavings.

Lemma prefix_map_inv {A B} (f : A -> B) (xs : list A) ys : ys `prefix_of` map f xs -> exists xs1, xs1 `prefix_of` xs /\ ys = map f xs1.
Proof.
  intros [zs Hz]. apply map_eq_app in Hz as (xs1 & xs2 & -> & <- & _). exists xs1. split; [by exists xs2|done].
Qed.
