(* ===== verification/MatchQueue.v ===== *)
(** * The match queue ([src/src/game/MatchQueue.h])

    A FIFO of waiting players: [order_] keeps the arrival order and [waiting_]
    the set of players that still wait. [remove] only takes a player out of
    the set; the entry left in [order_] is skipped when it reaches the front.

    The abstract state of a queue is the list [live] of the waiting players in
    the order in which [popPair] serves them. *)

From stdpp Require Import base gmap sets list.
From Stdlib Require Import ZArith Lia.
From S2P Require Import Prelude.

Module MatchQueue.

Record t : Type := mk {
  order_ : list Z;
  waiting_ : gset Z;
}.

Definition empty : t := mk [] ∅.

(** [if (!waiting_.insert(playerId).second) return false; ...] *)
Definition push (playerId : Z) (q : t) : bool * t :=
  if decide (playerId ∈ waiting_ q) then (false, q)
  else (true, mk (order_ q ++ [playerId]) ({[playerId]} ∪ waiting_ q)).

Definition remove (playerId : Z) (q : t) : t :=
  mk (order_ q) (waiting_ q ∖ {[playerId]}).

Definition contains (playerId : Z) (q : t) : bool :=
  bool_decide (playerId ∈ waiting_ q).

(** [while (!order_.empty() && !waiting_.count(order_.front())) pop_front();] *)
Fixpoint compact_order (w : gset Z) (o : list Z) : list Z :=
  match o with
  | [] => []
  | x :: o' => if decide (x ∈ w) then o else compact_order w o'
  end.

Definition compact (q : t) : t := mk (compact_order (waiting_ q) (order_ q)) (waiting_ q).

(** [front()] and [pop_front()] of an empty deque are undefined behaviour. *)
Definition takeFront (q : t) : res (Z * t) :=
  let q1 := compact q in
  match order_ q1 with
  | [] => UB
  | id :: o' => Ok (id, mk o' (waiting_ q1 ∖ {[id]}))
  end.

Definition popPair (q : t) : res (option (Z * Z) * t) :=
  let q1 := compact q in
  if (size (waiting_ q1) <? 2)%nat then Ok (None, q1)
  else
    (let! (a, q2) := takeFront q1 in
     let! (b, q3) := takeFront q2 in
     Ok (Some (a, b), q3))%gs.

(** ** The abstract queue *)

(** The waiting players in service order: an entry of [order_] counts when
    its player waits, and a player counts once, at his first entry. *)
Fixpoint live_order (w : gset Z) (o : list Z) : list Z :=
  match o with
  | [] => []
  | x :: o' => if decide (x ∈ w) then x :: live_order (w ∖ {[x]}) o' else live_order w o'
  end.

Definition live (q : t) : list Z := live_order (waiting_ q) (order_ q).

(** Every waiting player has an entry in [order_]. *)
Definition wf (q : t) : Prop := forall x, x ∈ waiting_ q -> x ∈ order_ q.

(** A player who left the queue but whose entry is still in [order_]. *)
Definition stale (x : Z) (q : t) : Prop := x ∈ order_ q /\ x ∉ waiting_ q.

(** ** The reference queue: a list without repetition, served from the front *)

Inductive op : Type := OPush (x : Z) | ORemove (x : Z) | OPop.

Inductive obs : Type := RPush (accepted : bool) | RRemove | RPop (pair : option (Z * Z)).

Definition exec (o : op) (q : t) : res (obs * t) :=
  match o with
  | OPush x => let (b, q') := push x q in Ok (RPush b, q')
  | ORemove x => Ok (RRemove, remove x q)
  | OPop => (let! (r, q') := popPair q in Ok (RPop r, q'))%gs
  end.

Fixpoint run (os : list op) (q : t) : res (list obs * t) :=
  match os with
  | [] => Ok ([], q)
  | o :: os' =>
      (let! (r, q1) := exec o q in
       let! (rs, q2) := run os' q1 in
       Ok (r :: rs, q2))%gs
  end.

Definition fifo_exec (o : op) (l : list Z) : obs * list Z :=
  match o with
  | OPush x => if decide (x ∈ l) then (RPush false, l) else (RPush true, l ++ [x])
  | ORemove x => (RRemove, filter (fun y => y <> x) l)
  | OPop => match l with
            | a :: b :: l' => (RPop (Some (a, b)), l')
            | _ => (RPop None, l)
            end
  end.

Fixpoint fifo_run (os : list op) (l : list Z) : list obs * list Z :=
  match os with
  | [] => ([], l)
  | o :: os' =>
      let (r, l1) := fifo_exec o l in
      let (rs, l2) := fifo_run os' l1 in (r :: rs, l2)
  end.

(** No player who was removed joins again ([gone]: the players removed so far). *)
Fixpoint no_requeue (gone : gset Z) (os : list op) : Prop :=
  match os with
  | [] => True
  | OPush x :: os' => x ∉ gone /\ no_requeue gone os'
  | ORemove x :: os' => no_requeue ({[x]} ∪ gone) os'
  | OPop :: os' => no_requeue gone os'
  end.

(** ** Lemmas *)

Lemma live_order_compact w o : live_order w (compact_order w o) = live_order w o.
Proof. induction o as [|x o IH]; simpl; [done|]. case_decide; simpl; [by rewrite decide_True|done]. Qed.

Lemma elem_of_live_order w o x : x ∈ live_order w o <-> x ∈ w /\ x ∈ o.
Proof.
  revert w. induction o as [|y o IH]; intros w; simpl; [set_solver|].
  case_decide as Hy; rewrite ?elem_of_cons, IH; [|set_solver].
  destruct (decide (x = y)); set_solver.
Qed.

Lemma NoDup_live_order w o : NoDup (live_order w o).
Proof.
  revert w. induction o as [|y o IH]; intros w; simpl; [constructor|].
  case_decide; [|done]. constructor; [rewrite elem_of_live_order; set_solver|done].
Qed.

Lemma live_order_not_in w o x : x ∉ o -> live_order w o = live_order (w ∖ {[x]}) o.
Proof.
  revert w. induction o as [|y o IH]; intros w Hx; simpl; [done|].
  apply not_elem_of_cons in Hx as [Hne Hx].
  destruct (decide (y ∈ w)) as [Hy|Hy].
  - rewrite decide_True by set_solver. f_equal. rewrite (IH _ Hx). f_equal. set_solver.
  - rewrite decide_False by set_solver. by apply IH.
Qed.

Lemma live_order_remove w o x :
  live_order (w ∖ {[x]}) o = filter (fun y => y <> x) (live_order w o).
Proof.
  revert w. induction o as [|y o IH]; intros w; simpl; [done|].
  destruct (decide (y = x)) as [->|Hne].
  - rewrite decide_False by set_solver. rewrite IH. case_decide; [|done].
    rewrite filter_cons_False by naive_solver.
    rewrite <- IH. f_equal. by rewrite IH, list_filter_filter_l.
  - destruct (decide (y ∈ w)) as [Hy|Hy].
    + rewrite decide_True by set_solver. rewrite filter_cons_True by done. f_equal.
      rewrite <- IH. f_equal. set_solver.
    + rewrite decide_False by set_solver. apply IH.
Qed.

Lemma live_order_length w o :
  (forall x, x ∈ w -> x ∈ o) -> length (live_order w o) = size w.
Proof.
  intros Hsub.
  rewrite <- (size_list_to_set (C := gset Z) (live_order w o)) by apply NoDup_live_order.
  f_equal. apply set_eq. intros x. rewrite elem_of_list_to_set, elem_of_live_order. naive_solver.
Qed.

Lemma live_order_app w o1 o2 :
  live_order w (o1 ++ o2) = live_order w o1 ++ live_order (w ∖ list_to_set o1) o2.
Proof.
  revert w. induction o1 as [|x o1 IH]; intros w; simpl.
  - f_equal. set_solver.
  - case_decide; simpl; rewrite IH.
    + do 3 f_equal. set_solver.
    + do 2 f_equal. set_solver.
Qed.

Lemma live_order_extend w o x :
  x ∉ o -> live_order ({[x]} ∪ w) o = live_order w o.
Proof.
  intros Hx. rewrite (live_order_not_in ({[x]} ∪ w) o x Hx), (live_order_not_in w o x Hx).
  f_equal. set_solver.
Qed.

(** The front entry after [compact] is the first live player. *)
Lemma compact_order_live w o :
  match compact_order w o with
  | [] => live_order w o = []
  | x :: o' => x ∈ w /\ live_order w o = x :: live_order (w ∖ {[x]}) o' /\ exists o0, o = o0 ++ x :: o'
  end.
Proof.
  induction o as [|y o IH]; simpl; [done|].
  destruct (decide (y ∈ w)) as [Hy|Hy].
  - split; [done|]. split; [done|]. by exists [].
  - destruct (compact_order w o) as [|z o']; [done|].
    destruct IH as (? & ? & o0 & ->). split; [done|]. split; [done|]. by exists (y :: o0).
Qed.

Lemma wf_compact q : wf q -> wf (compact q).
Proof.
  intros Hwf x Hx. apply (elem_of_live_order (waiting_ q)). simpl.
  rewrite live_order_compact. apply elem_of_live_order. auto.
Qed.

Lemma compact_order_idem w o : compact_order w (compact_order w o) = compact_order w o.
Proof.
  induction o as [|y o IH]; simpl; [done|].
  destruct (decide (y ∈ w)) eqn:E; [|done]. simpl. by rewrite E.
Qed.

(** [takeFront] serves the first live player when there is one. *)
Lemma takeFront_live q a l :
  wf q -> live q = a :: l ->
  exists q', takeFront q = Ok (a, q') /\ live q' = l /\ wf q' /\ waiting_ q' = waiting_ q ∖ {[a]}
             /\ exists o0, order_ q = o0 ++ a :: order_ q'.
Proof.
  intros Hwf Hl. unfold takeFront, live in *. simpl.
  pose proof (wf_compact q Hwf) as Hwc. unfold wf in Hwc; simpl in Hwc.
  pose proof (compact_order_live (waiting_ q) (order_ q)) as Hc.
  destruct (compact_order (waiting_ q) (order_ q)) as [|x o'] eqn:E; [congruence|].
  destruct Hc as (Hx & Hlive & Ho). rewrite Hlive in Hl. inv Hl.
  eexists. split; [done|]. simpl. split; [done|]. split; [|done].
  intros y Hy. simpl in *. apply elem_of_difference in Hy as [Hy1 Hy2].
  specialize (Hwc y Hy1). set_solver.
Qed.

Lemma compact_live q : live (compact q) = live q.
Proof. apply live_order_compact. Qed.

Lemma size_waiting_live q : wf q -> size (waiting_ q) = length (live q).
Proof. intros H. symmetry. by apply live_order_length. Qed.

(** [popPair] on every branch, in terms of the abstract queue. *)
Lemma popPair_live q :
  wf q ->
  exists r q', popPair q = Ok (r, q') /\ wf q' /\ (RPop r, live q') = fifo_exec OPop (live q)
               /\ exists o0, order_ q = o0 ++ order_ q'
                             /\ forall x, x ∈ live q -> x ∈ live q' \/ x ∈ o0.
Proof.
  intros Hwf. unfold popPair.
  pose proof (wf_compact q Hwf) as Hwc.
  pose proof (size_waiting_live _ Hwc) as Hsz. rewrite compact_live in Hsz.
  assert (exists o0, order_ q = o0 ++ order_ (compact q)) as [oc Hoc].
  { simpl. pose proof (compact_order_live (waiting_ q) (order_ q)) as Hc.
    destruct (compact_order _ _); [exists (order_ q); by rewrite app_nil_r|].
    naive_solver. }
  destruct (live q) as [|a [|b l]] eqn:El; simpl in Hsz; simpl fifo_exec.
  1-2: destruct (Nat.ltb_spec (size (waiting_ (compact q))) 2); [|simpl in *; lia];
       exists None, (compact q); rewrite compact_live, El; eauto 10.
  destruct (Nat.ltb_spec (size (waiting_ (compact q))) 2); [simpl in *; lia|].
  destruct (takeFront_live (compact q) a (b :: l)) as (q2 & -> & Hl2 & Hwf2 & _ & o2 & Ho2);
    [done|by rewrite compact_live|].
  destruct (takeFront_live q2 b l) as (q3 & Ht & Hl3 & Hwf3 & _ & o3 & Ho3); [done..|].
  simpl. rewrite Ht. simpl. exists (Some (a, b)), q3. rewrite Hl3. split_and!; try done.
  exists (oc ++ o2 ++ a :: o3 ++ [b]). split; [|set_solver].
  rewrite Hoc, Ho2, Ho3, <- !app_assoc. simpl. by rewrite <- app_assoc.
Qed.

(** [popPair] in terms of the set of waiting players. *)
Lemma popPair_waiting q :
  wf q ->
  exists r q', popPair q = Ok (r, q') /\ wf q' /\
    match r with
    | Some (a, b) => a <> b /\ a ∈ waiting_ q /\ b ∈ waiting_ q /\
        forall x, x ∈ waiting_ q' <-> x ∈ waiting_ q /\ x <> a /\ x <> b
    | None => (size (waiting_ q) < 2)%nat /\ forall x, x ∈ waiting_ q' <-> x ∈ waiting_ q
    end.
Proof.
  intros Hwf. destruct (popPair_live q Hwf) as (r & q' & Hpop & Hwf' & Hl & _). exists r, q'. split_and!; [done..|].
  assert (forall q x, wf q -> x ∈ live q <-> x ∈ waiting_ q) as Hin.
  { intros q0 x Hq0. unfold live. rewrite elem_of_live_order. split; [by intros []|]. auto. }
  pose proof (size_waiting_live q Hwf) as Hsz.
  pose proof (NoDup_live_order (waiting_ q) (order_ q)) as Hnd. fold (live q) in Hnd. unfold fifo_exec in Hl.
  destruct (live q) as [|a [|b l]] eqn:El; inv Hl.
  1-2: split; [simpl in Hsz; lia|]; intros x; rewrite <- !Hin by done; by rewrite H1, El.
  apply NoDup_cons in Hnd as [Ha Hnd]. apply NoDup_cons in Hnd as [Hb _].
  split_and!; [set_solver|apply Hin; [done|]; rewrite El; set_solver|apply Hin; [done|]; rewrite El; set_solver|].
  intros x. rewrite <- !Hin by done. rewrite El. set_solver.
Qed.

Lemma push_wf x q : wf q -> wf (snd (push x q)).
Proof. intros H. unfold push, wf in *. case_decide; simpl; [done|]. set_solver. Qed.

Lemma remove_wf x q : wf q -> wf (remove x q).
Proof. unfold wf, remove; simpl. set_solver. Qed.

Lemma push_live x q : wf q -> ~ stale x q -> (RPush (fst (push x q)), live (snd (push x q))) = fifo_exec (OPush x) (live q).
Proof.
  intros Hwf Hst. unfold push, live, stale in *. simpl.
  destruct (decide (x ∈ waiting_ q)) as [Hx|Hx]; simpl.
  - rewrite decide_True; [done|]. apply elem_of_live_order. auto.
  - assert (x ∉ order_ q) by tauto.
    rewrite decide_False by (rewrite elem_of_live_order; tauto).
    rewrite live_order_app, live_order_extend by done. simpl.
    rewrite decide_True by set_solver. done.
Qed.

Lemma exec_total o q :
  wf q -> exists r q', exec o q = Ok (r, q') /\ wf q' /\
    match r with RPop (Some (a, b)) => a <> b /\ a ∈ waiting_ q /\ b ∈ waiting_ q | _ => True end.
Proof.
  intros Hwf. destruct o as [x|x|]; simpl.
  - pose proof (push_wf x q Hwf). destruct (push x q) as [b q']. eauto 10.
  - exists RRemove, (remove x q). auto using remove_wf.
  - destruct (popPair_live q Hwf) as (r & q' & -> & Hwf' & Hl & _). simpl.
    exists (RPop r), q'. split_and!; [done..|].
    destruct r as [[a b]|]; [|done]. simpl in Hl.
    pose proof (NoDup_live_order (waiting_ q) (order_ q)) as Hnd.
    pose proof (elem_of_live_order (waiting_ q) (order_ q)) as Hin. fold (live q) in *.
    destruct (live q) as [|a' [|b' l]]; simplify_eq.
    apply NoDup_cons in Hnd as [Hnd _]. 
    split; [set_solver|]. split; apply Hin; set_solver.
Qed.

Definition tidy (gone : gset Z) (q : t) : Prop :=
  wf q /\ NoDup (order_ q) /\ forall x, stale x q -> x ∈ gone.

Lemma exec_fifo o os q gone :
  tidy gone q -> no_requeue gone (o :: os) ->
  exists q' gone', exec o q = Ok (fst (fifo_exec o (live q)), q') /\ live q' = snd (fifo_exec o (live q))
    /\ tidy gone' q' /\ no_requeue gone' os.
Proof.
  unfold tidy. intros (Hwf & Hnd & Hst) Hno. destruct o as [x|x|].
  - destruct Hno as [Hx Hno].
    assert (~ stale x q) as Hns by auto.
    pose proof (push_live x q Hwf Hns) as Hp. pose proof (push_wf x q Hwf) as Hw.
    unfold exec. destruct (push x q) as [b q'] eqn:E. rewrite <- Hp. simpl in *.
    exists q', gone. split_and!; try done; clear Hp; unfold push in E;
      destruct (decide (x ∈ waiting_ q)); injection E as <- <-; simpl; try done.
    + apply NoDup_app. split_and!; [done| |apply NoDup_singleton].
      intros y Hy ->%list_elem_of_singleton. apply Hns. by split.
    + intros y [Hy1 Hy2]. simpl in *. apply Hst. split; set_solver.
  - exists (remove x q), ({[x]} ∪ gone). simpl. split_and!; try done.
    + unfold live, remove; simpl. apply live_order_remove.
    + by apply remove_wf.
    + intros y [Hy1 Hy2]. simpl in *.
      destruct (decide (y = x)) as [->|]; [set_solver|].
      apply elem_of_union_r, Hst. split; [done|]. contradict Hy2. set_solver.
  - destruct (popPair_live q Hwf) as (r & q' & Hp & Hwf' & Hl & o0 & Ho & Hout).
    exists q', gone. rewrite <- Hl. simpl. rewrite Hp. simpl. split_and!; try done.
    + rewrite Ho in Hnd. by apply NoDup_app in Hnd as (_ & _ & ?).
    + intros x [Hx1 Hx2]. rewrite Ho in Hnd. apply NoDup_app in Hnd as (_ & Hdisj & _).
      destruct (decide (x ∈ waiting_ q)) as [Hw|Hw].
      * destruct (Hout x) as [Hx|Hx]; [by apply elem_of_live_order; auto| |by destruct (Hdisj x)].
        apply elem_of_live_order in Hx. tauto.
      * apply Hst. split; [rewrite Ho; set_solver|done].
Qed.

(** ** Properties *)

(** C29: The queue refines a first-in first-out queue. For every sequence of
    [push], [remove] and [popPair] calls in which no removed player joins
    again, the answers of the calls are those of a plain list served from the
    front, in particular no call reaches undefined behaviour. *)
Theorem matchqueue_refines_fifo (os : list op) (Hos : no_requeue ∅ os) :
  exists q', run os empty = Ok (fst (fifo_run os []), q') /\ live q' = snd (fifo_run os []).
Proof.
  change (@nil Z) with (live empty).
  assert (tidy ∅ empty) as Ht by (split_and!; [set_solver|constructor|intros x [H _]; inv H]).
  revert Ht Hos. generalize empty (∅ : gset Z). induction os as [|o os IH]; intros q gone Ht Hno; simpl.
  - eauto.
  - destruct (exec_fifo o os q gone Ht Hno) as (q1 & gone1 & -> & Hl & Ht1 & Hno1).
    destruct (IH q1 gone1 Ht1 Hno1) as (q2 & Hrun & Hl2). simpl.
    rewrite Hrun. simpl. destruct (fifo_exec o (live q)) as [r l1]. simpl in *. subst l1.
    destruct (fifo_run os (live q1)). eauto.
Qed.

Lemma matchqueue_refines_fifo_witness :
  exists q', run [OPush 1; OPush 2; ORemove 1; OPop; OPush 3; OPop] empty
             = Ok ([RPush true; RPush true; RRemove; RPop None; RPush true; RPop (Some (2, 3)%Z)], q')
             /\ live q' = [].
Proof. apply (matchqueue_refines_fifo [OPush 1; OPush 2; ORemove 1; OPop; OPush 3; OPop]). repeat split; set_solver. Defined.

(** Whatever the sequence of calls (a removed player may join again), no
    call is undefined behaviour ([takeFront] never sees an empty deque) and
    every pair handed out by a further [popPair] has two different players who
    were both waiting. *)
Theorem matchqueue_run_total (os : list op) :
  exists rs q, run os empty = Ok (rs, q) /\
    exists r q', popPair q = Ok (r, q') /\
      match r with
      | Some (a, b) => a <> b /\ contains a q = true /\ contains b q = true
                       /\ contains a q' = false /\ contains b q' = false
      | None => (size (waiting_ q) < 2)%nat
      end.
Proof.
  assert (exists rs q, run os empty = Ok (rs, q) /\ wf q) as (rs & q & Hr & Hwf).
  { assert (wf empty) as Hwf by set_solver. revert Hwf. generalize empty.
    induction os as [|o os IH]; intros q Hwf; simpl; [eauto|].
    destruct (exec_total o q Hwf) as (r & q1 & -> & Hwf1 & _). simpl.
    destruct (IH q1 Hwf1) as (rs & q2 & -> & Hwf2). simpl. eauto. }
  exists rs, q. split; [done|].
  destruct (popPair_live q Hwf) as (r & q' & Hp & Hwf' & Hl & _). exists r, q'. split; [done|].
  pose proof (size_waiting_live q Hwf) as Hsz.
  pose proof (NoDup_live_order (waiting_ q) (order_ q)) as Hnd.
  pose proof (elem_of_live_order (waiting_ q) (order_ q)) as Hin. fold (live q) in *.
  assert (forall x, x ∈ live q' <-> x ∈ waiting_ q') as Hin'.
  { intros x. unfold live. rewrite elem_of_live_order. naive_solver. }
  simpl in Hl. unfold contains.
  destruct (live q) as [|a [|b l]]; simplify_eq; [simpl in *; lia..|].
  apply NoDup_cons in Hnd as [Ha Hnd]. apply NoDup_cons in Hnd as [Hb _].
  rewrite !bool_decide_eq_true, !bool_decide_eq_false, <- !Hin'.
  split_and!; [set_solver|apply Hin; set_solver|apply Hin; set_solver|set_solver|set_solver].
Qed.

(** Joining again after a lazy removal takes the old place in the queue.
    When [playerId] left the queue but his entry is still in [order_] (after
    [o1]), [push] accepts him and he is served right after the waiting
    players of [o1], before everybody who joined after his first entry. *)
Theorem push_stale_keeps_old_place (playerId : Z) (q : t) (o1 o2 : list Z)
  (Hwf : wf q) (Hst : playerId ∉ waiting_ q)
  (Ho : order_ q = o1 ++ playerId :: o2) (Ho1 : playerId ∉ o1) :
  fst (push playerId q) = true /\
  let k := length (live_order (waiting_ q) o1) in
  live (snd (push playerId q)) = take k (live q) ++ playerId :: drop k (live q).
Proof.
  unfold push, live. rewrite decide_False by done. split; [done|]. simpl.
  rewrite Ho, <- app_assoc, !live_order_app, live_order_extend by done. simpl.
  set (w := waiting_ q) in *.
  rewrite (decide_True (P := playerId ∈ ({[playerId]} ∪ w) ∖ list_to_set o1)) by set_solver.
  rewrite (decide_False (P := playerId ∈ w ∖ list_to_set o1)) by set_solver.
  rewrite take_app_length, drop_app_length. simpl.
  rewrite decide_False by set_solver. rewrite app_nil_r. do 3 f_equal. set_solver.
Qed.

Lemma push_stale_keeps_old_place_witness :
  fst (push 1 (mk [1; 2; 3]%Z {[2%Z; 3%Z]})) = true
  /\ live (snd (push 1 (mk [1; 2; 3]%Z {[2%Z; 3%Z]}))) = [1; 2; 3]%Z.
Proof.
  destruct (push_stale_keeps_old_place 1 (mk [1; 2; 3]%Z {[2%Z; 3%Z]}) [] [2; 3]%Z) as [H1 H2];
    [unfold wf; set_solver|set_solver|reflexivity|set_solver|].
  split; [exact H1|]. rewrite H2. vm_compute. reflexivity.
Defined.

End MatchQueue.
