(* ===== verification/TimerWheel.v ===== *)
(** * The two-level timer wheel ([src/src/timer/TimerWheel.h], [TimerWheel.cc])

    Level 0 has 64 slots of one tick (100 ms), level 1 has 64 slots of 64
    ticks. Nodes are shared ([std::shared_ptr<Node>]) between [alive_] and a
    slot, and [cancel] marks the shared node: the model keeps the node objects
    in a heap [nodes], and [alive_] and the slots hold ids, which play the role
    of the pointers ([node->id] is unique, [nextId_] only grows).

    A callback may call [add] and [cancel] on the wheel it is fired from. The
    model is parametric in the type [CB] of callbacks and in their meaning, a
    program [wprog] over [add] and [cancel] that transforms the state [W] of
    the owner of the wheel.

    The specification is a finite map from timer ids to due ticks; a tick fires
    the due timers, in an unspecified order. *)

From stdpp Require Import base gmap sets list.
From Stdlib Require Import ZArith Lia.
From S2P Require Import Prelude.

Module TimerWheel.

Local Open Scope Z_scope.

Definition kTickMs : Z := 100.

Definition kSlots : Z := 64.

Record Node (CB : Type) : Type := mkNode {
  expiryTick : Z;
  cb : CB;
  canceled : bool;
}.
Arguments mkNode {CB} _ _ _.
Arguments expiryTick {CB} _.
Arguments cb {CB} _.
Arguments canceled {CB} _.

Record t (CB : Type) : Type := mk {
  nowTick_ : Z;
  remainderMs_ : Z;
  nextId_ : Z;
  l0_ : list (list Z);
  l1_ : list (list Z);
  alive_ : gset Z;
  nodes : gmap Z (Node CB);
}.
Arguments mk {CB} _ _ _ _ _ _ _.
Arguments nowTick_ {CB} _.
Arguments remainderMs_ {CB} _.
Arguments nextId_ {CB} _.
Arguments l0_ {CB} _.
Arguments l1_ {CB} _.
Arguments alive_ {CB} _.
Arguments nodes {CB} _.

Definition init {CB} : t CB :=
  mk 0 0 1 (replicate (Z.to_nat kSlots) []) (replicate (Z.to_nat kSlots) []) ∅ ∅.

(** What a callback does: calls of [add] and [cancel], then the new state of
    the owner. *)
Inductive wprog (CB W : Type) : Type :=
  | WRet (w : W)
  | WAdd (delayMs : Z) (c : CB) (k : Z -> wprog CB W)
  | WCancel (id : Z) (k : wprog CB W).
Arguments WRet {CB W} _.
Arguments WAdd {CB W} _ _ _.
Arguments WCancel {CB W} _ _.

Section Operations.
Context {CB : Type}.
Implicit Types tw : t CB.

Definition set_l0 (l : list (list Z)) tw : t CB :=
  mk (nowTick_ tw) (remainderMs_ tw) (nextId_ tw) l (l1_ tw) (alive_ tw) (nodes tw).

Definition set_l1 (l : list (list Z)) tw : t CB :=
  mk (nowTick_ tw) (remainderMs_ tw) (nextId_ tw) (l0_ tw) l (alive_ tw) (nodes tw).

Definition set_alive (a : gset Z) tw : t CB :=
  mk (nowTick_ tw) (remainderMs_ tw) (nextId_ tw) (l0_ tw) (l1_ tw) a (nodes tw).

Definition set_nodes (m : gmap Z (Node CB)) tw : t CB :=
  mk (nowTick_ tw) (remainderMs_ tw) (nextId_ tw) (l0_ tw) (l1_ tw) (alive_ tw) m.

(** [ls[i].push_back(id)] *)
Definition slot_push (i : Z) (id : Z) (ls : list (list Z)) : list (list Z) :=
  alter (fun s => s ++ [id]) (Z.to_nat i) ls.

Definition place (id : Z) tw : t CB :=
  match nodes tw !! id with
  | None => tw
  | Some n =>
      let diff := u64 (expiryTick n - nowTick_ tw) in
      if diff <? kSlots then
        set_l0 (slot_push (expiryTick n mod kSlots) id (l0_ tw)) tw
      else
        let n' := if diff >=? kSlots * kSlots
                  then mkNode (u64 (nowTick_ tw + kSlots * kSlots - 1)) (cb n) (canceled n)
                  else n in
        set_l1 (slot_push ((expiryTick n' / kSlots) mod kSlots) id (l1_ tw))
               (set_nodes (<[id := n']> (nodes tw)) tw)
  end.

Definition add (delayMs : Z) (c : CB) tw : Z * t CB :=
  let ticks0 := u64 (delayMs + kTickMs - 1) / kTickMs in
  let ticks := if ticks0 =? 0 then 1 else ticks0 in
  let id := nextId_ tw in
  let node := mkNode (u64 (nowTick_ tw + ticks)) c false in
  (id, place id (mk (nowTick_ tw) (remainderMs_ tw) (id + 1) (l0_ tw) (l1_ tw)
                    ({[id]} ∪ alive_ tw) (<[id := node]> (nodes tw)))).

Definition cancel (id : Z) tw : t CB :=
  if decide (id ∈ alive_ tw) then
    set_alive (alive_ tw ∖ {[id]})
      (set_nodes (alter (fun n => mkNode (expiryTick n) (cb n) true) id (nodes tw)) tw)
  else tw.

Fixpoint interp {W} (p : wprog CB W) tw : t CB * W :=
  match p with
  | WRet w => (tw, w)
  | WAdd d c k => let (id, tw') := add d c tw in interp (k id) tw'
  | WCancel id k => interp k (cancel id tw)
  end.

Section Fire.
Context {W : Type} (handler : CB -> W -> wprog CB W).

(** The loop of [fireSlot] over the nodes swapped out of the slot. *)
Fixpoint fire_pending (pending : list Z) (s : t CB * W) : t CB * W :=
  match pending with
  | [] => s
  | id :: rest =>
      let (tw, w) := s in
      match nodes tw !! id with
      | None => fire_pending rest s
      | Some n =>
          if canceled n then fire_pending rest s
          else fire_pending rest (interp (handler (cb n) w) (set_alive (alive_ tw ∖ {[id]}) tw))
      end
  end.

Definition fireSlot (i : Z) (s : t CB * W) : t CB * W :=
  let (tw, w) := s in
  let pending := default [] (l0_ tw !! Z.to_nat i) in
  fire_pending pending (set_l0 (<[Z.to_nat i := []]> (l0_ tw)) tw, w).

(** The loop of [advance] that hangs the nodes of a level-1 slot again. *)
Fixpoint cascade_nodes (l : list Z) tw : t CB :=
  match l with
  | [] => tw
  | id :: rest =>
      match nodes tw !! id with
      | None => cascade_nodes rest tw
      | Some n => if canceled n then cascade_nodes rest tw else cascade_nodes rest (place id tw)
      end
  end.

Definition cascade tw : t CB :=
  let i := Z.to_nat ((nowTick_ tw / kSlots) mod kSlots) in
  cascade_nodes (default [] (l1_ tw !! i)) (set_l1 (<[i := []]> (l1_ tw)) tw).

(** The body of the [for] loop of [advance]. *)
Definition tick (s : t CB * W) : t CB * W :=
  let (tw, w) := s in
  let tw1 := mk (u64 (nowTick_ tw + 1)) (remainderMs_ tw) (nextId_ tw) (l0_ tw) (l1_ tw)
                (alive_ tw) (nodes tw) in
  let tw2 := if nowTick_ tw1 mod kSlots =? 0 then cascade tw1 else tw1 in
  fireSlot (nowTick_ tw2 mod kSlots) (tw2, w).

Definition advance (elapsedMs : Z) (s : t CB * W) : t CB * W :=
  let (tw, w) := s in
  let r := u64 (remainderMs_ tw + elapsedMs) in
  let steps := r / kTickMs in
  let tw1 := mk (nowTick_ tw) (r mod kTickMs) (nextId_ tw) (l0_ tw) (l1_ tw)
                (alive_ tw) (nodes tw) in
  Nat.iter (Z.to_nat steps) tick (tw1, w).

End Fire.
End Operations.

(** ** Specification: a map from ids to due ticks *)

Record timers (CB : Type) : Type := mkTimers {
  t_now : Z;
  t_next : Z;
  t_due : gmap Z (Z * CB);
}.
Arguments mkTimers {CB} _ _ _.
Arguments t_now {CB} _.
Arguments t_next {CB} _.
Arguments t_due {CB} _.

(** The number of ticks a timer waits: the delay rounded up, at least one, and
    at most the range of the wheel. *)
Definition ticks_of (delayMs : Z) : Z :=
  Z.min (Z.max 1 (u64 (delayMs + 99) / 100)) 4095.

Section Spec.
Context {CB W : Type} (handler : CB -> W -> wprog CB W).
Implicit Types a : timers CB.

Definition spec_add (delayMs : Z) (c : CB) a : Z * timers CB :=
  (t_next a, mkTimers (t_now a) (t_next a + 1)
                      (<[t_next a := (t_now a + ticks_of delayMs, c)]> (t_due a))).

Definition spec_cancel (id : Z) a : timers CB := mkTimers (t_now a) (t_next a) (delete id (t_due a)).

Fixpoint spec_interp (p : wprog CB W) a : timers CB * W :=
  match p with
  | WRet w => (a, w)
  | WAdd d c k => let (id, a') := spec_add d c a in spec_interp (k id) a'
  | WCancel id k => spec_interp k (spec_cancel id a)
  end.

(** Fire the timers [l] in order; one that a previous callback cancelled is
    skipped. *)
Fixpoint spec_fire (l : list Z) (s : timers CB * W) : timers CB * W :=
  match l with
  | [] => s
  | id :: l' =>
      let (a, w) := s in
      match t_due a !! id with
      | None => spec_fire l' s
      | Some (_, c) => spec_fire l' (spec_interp (handler c w) (spec_cancel id a))
      end
  end.

Definition spec_tick (s s' : timers CB * W) : Prop :=
  exists l, NoDup l /\
    (forall id, id ∈ l <-> exists c, t_due s.1 !! id = Some (t_now s.1 + 1, c)) /\
    s' = spec_fire l (mkTimers (t_now s.1 + 1) (t_next s.1) (t_due s.1), s.2).

Definition spec_ticks (n : nat) : timers CB * W -> timers CB * W -> Prop :=
  nsteps spec_tick n.

End Spec.

(** The abstraction function. *)
Definition abs {CB} (tw : t CB) : timers CB :=
  mkTimers (nowTick_ tw) (nextId_ tw)
    (map_imap (fun id n => if decide (id ∈ alive_ tw) then Some (expiryTick n, cb n) else None)
              (nodes tw)).

(** ** Invariant

    [WF P0 P1 PP pend tw]: the nodes that are not cancelled satisfy [P0] when
    they hang in a level-0 slot, [P1] in a level-1 slot and [PP] when they
    were swapped out to the local list [pend]; no node hangs twice, and every
    alive node hangs somewhere. *)

Definition in_slot (ls : list (list Z)) (i : nat) (id : Z) : Prop :=
  exists s, ls !! i = Some s /\ id ∈ s.

Section Invariant.
Context {CB : Type}.

Record WF (P0 P1 : Z -> nat -> Prop) (PP : Z -> Z -> Prop) (pend : list Z) (tw : t CB) : Prop := mkWF {
  wf_len0 : length (l0_ tw) = 64%nat;
  wf_len1 : length (l1_ tw) = 64%nat;
  wf_fresh : forall id, is_Some (nodes tw !! id) -> id < nextId_ tw;
  wf_slot0 : forall i id, in_slot (l0_ tw) i id ->
    exists n, nodes tw !! id = Some n /\
      (canceled n = false -> id ∈ alive_ tw /\ P0 (expiryTick n) i);
  wf_slot1 : forall i id, in_slot (l1_ tw) i id ->
    exists n, nodes tw !! id = Some n /\
      (canceled n = false -> id ∈ alive_ tw /\ P1 (expiryTick n) i);
  wf_pend : forall id, id ∈ pend ->
    exists n, nodes tw !! id = Some n /\
      (canceled n = false -> id ∈ alive_ tw /\ PP id (expiryTick n));
  wf_alive : forall id, id ∈ alive_ tw ->
    (exists n, nodes tw !! id = Some n /\ canceled n = false) /\
    id ∈ pend ++ concat (l0_ tw) ++ concat (l1_ tw);
  wf_nodup : NoDup (pend ++ concat (l0_ tw) ++ concat (l1_ tw));
}.

End Invariant.

(** Where a timer due at tick [e] hangs, seen from tick [now]. *)
Definition at0 (now e : Z) (i : nat) : Prop :=
  now < e < now + 64 /\ Z.to_nat (e mod 64) = i.

Definition at1 (now e : Z) (i : nat) : Prop :=
  now / 64 < e / 64 <= now / 64 + 64 /\ Z.to_nat ((e / 64) mod 64) = i.

Definition Inv {CB} (tw : t CB) : Prop :=
  0 <= nowTick_ tw /\ 0 <= remainderMs_ tw < 100 /\
  WF (at0 (nowTick_ tw)) (at1 (nowTick_ tw)) (fun _ _ => False) [] tw.

(** The states an owner of a wheel can reach: calls of [add] and [cancel] (a
    [wprog]) and calls of [advance], as long as the tick counter has room. *)
Inductive reachable {CB W} (handler : CB -> W -> wprog CB W) : t CB * W -> Prop :=
  | reach_init w : reachable handler (init, w)
  | reach_calls p tw w : reachable handler (tw, w) -> reachable handler (interp p tw)
  | reach_advance ms tw w :
      reachable handler (tw, w) -> 0 <= ms -> remainderMs_ tw + ms < 2 ^ 64 ->
      nowTick_ tw + (remainderMs_ tw + ms) / 100 < 2 ^ 63 ->
      reachable handler (advance handler ms (tw, w)).

(** ** Lemmas on slots *)

Lemma concat_alter_snoc (ls : list (list Z)) i id :
  (i < length ls)%nat -> concat (alter (fun s => s ++ [id]) i ls) ≡ₚ id :: concat ls.
Proof.
  revert i. induction ls as [|s ls IH]; intros i Hi; simpl in *; [lia|].
  destruct i as [|i]; simpl.
  - rewrite <- app_assoc. simpl. symmetry. apply Permutation_middle.
  - change (list_alter (fun s => s ++ [id]) i ls) with (alter (fun s => s ++ [id]) i ls).
    rewrite IH by lia. symmetry. apply Permutation_middle.
Qed.

Lemma concat_insert_nil (ls : list (list Z)) i s :
  ls !! i = Some s -> s ++ concat (<[i := []]> ls) ≡ₚ concat ls.
Proof.
  revert i. induction ls as [|s' ls IH]; intros i Hi; simpl in *; [done|].
  destruct i as [|i]; simpl in *; simplify_eq; [done|].
  rewrite <- (IH i) by done. rewrite !app_assoc. by rewrite (Permutation_app_comm s s').
Qed.

Lemma in_slot_concat ls id : (exists i, in_slot ls i id) <-> id ∈ concat ls.
Proof.
  unfold in_slot. induction ls as [|s ls IH]; simpl.
  - split; [intros (i & ? & ? & _); done|intros H; inv H].
  - rewrite elem_of_app, <- IH. split.
    + intros ([|i] & s' & Hs & Hin); simpl in *; simplify_eq; eauto.
    + intros [Hin|(i & s' & Hs & Hin)]; [by exists 0%nat, s|by exists (S i), s'].
Qed.

Lemma in_slot_push z id ls i x :
  in_slot (slot_push z id ls) i x -> in_slot ls i x \/ (x = id /\ i = Z.to_nat z).
Proof.
  unfold slot_push, in_slot. intros (s & Hs & Hin).
  destruct (decide (i = Z.to_nat z)) as [->|Hne].
  - rewrite list_lookup_alter_eq in Hs. apply fmap_Some in Hs as (s0 & Hs0 & ->).
    apply elem_of_app in Hin as [Hin|Hin%list_elem_of_singleton]; [left; eauto|by right].
  - rewrite list_lookup_alter_ne in Hs by done. eauto.
Qed.

Lemma in_slot_insert_nil ls i j x : in_slot (<[i := []]> ls) j x -> in_slot ls j x /\ j <> i.
Proof.
  unfold in_slot. intros (s & Hs & Hin). destruct (decide (i = j)) as [->|Hne].
  - destruct (decide (j < length ls)%nat).
    + rewrite list_lookup_insert_eq in Hs by done. simplify_eq. inv Hin.
    + rewrite list_insert_ge in Hs by lia. apply lookup_lt_Some in Hs. lia.
  - rewrite list_lookup_insert_ne in Hs by done. eauto.
Qed.

(** ** Preservation of [WF] by each operation *)

Section Preservation.
Context {CB : Type}.
Implicit Types tw : t CB.

Lemma WF_mono P0 P1 PP Q0 Q1 QQ pend tw :
  WF P0 P1 PP pend tw ->
  (forall e i, P0 e i -> Q0 e i) -> (forall e i, P1 e i -> Q1 e i) ->
  (forall id e, id ∈ pend -> PP id e -> QQ id e) ->
  WF Q0 Q1 QQ pend tw.
Proof.
  intros [] H0 H1 HP. split; try done.
  - intros i id Hi. destruct (wf_slot2 i id Hi) as (n & ? & ?). exists n. naive_solver.
  - intros i id Hi. destruct (wf_slot3 i id Hi) as (n & ? & ?). exists n. naive_solver.
  - intros id Hi. destruct (wf_pend0 id Hi) as (n & ? & ?). exists n. naive_solver.
Qed.

(** A node taken from the local list and not hung again was cancelled. *)
Lemma WF_drop P0 P1 PP id pend tw n :
  WF P0 P1 PP (id :: pend) tw -> nodes tw !! id = Some n -> canceled n = true ->
  WF P0 P1 PP pend tw.
Proof.
  intros [] Hn Hc. split; try done.
  - intros x Hx. apply wf_pend0. set_solver.
  - intros x Hx. destruct (wf_alive0 x Hx) as [(n' & Hn' & Hc') Hin]. split; [eauto|].
    apply elem_of_cons in Hin as [->|Hin]; [congruence|done].
  - by inv wf_nodup0.
Qed.

(** Firing the head of the local list: it leaves [alive_]. *)
Lemma WF_fire P0 P1 PP id pend tw :
  WF P0 P1 PP (id :: pend) tw -> WF P0 P1 PP pend (set_alive (alive_ tw ∖ {[id]}) tw).
Proof.
  intros []. simpl in *. apply NoDup_cons in wf_nodup0 as [Hid Hnd]. split; simpl; try done.
  - intros i x Hx. destruct (wf_slot2 i x Hx) as (n & ? & Hn). exists n. split; [done|].
    intros Hc. destruct (Hn Hc). split; [|done].
    assert (x ∈ concat (l0_ tw)) by (apply in_slot_concat; eauto). set_solver.
  - intros i x Hx. destruct (wf_slot3 i x Hx) as (n & ? & Hn). exists n. split; [done|].
    intros Hc. destruct (Hn Hc). split; [|done].
    assert (x ∈ concat (l1_ tw)) by (apply in_slot_concat; eauto). set_solver.
  - intros x Hx. destruct (wf_pend0 x) as (n & ? & Hn); [set_solver|]. exists n. split; [done|].
    intros Hc. destruct (Hn Hc). split; [|done]. set_solver.
  - intros x Hx. apply elem_of_difference in Hx as [Hx Hne]. destruct (wf_alive0 x Hx) as [? Hin].
    split; [done|]. set_solver.
Qed.

(** Cancelling any timer. *)
Lemma WF_cancel P0 P1 PP pend tw id :
  WF P0 P1 PP pend tw -> WF P0 P1 PP pend (cancel id tw).
Proof.
  intros HWF. unfold cancel. case_decide as Hid; [|done]. destruct HWF.
  set (m := alter _ id (nodes tw)).
  assert (forall x n (Q : Prop), nodes tw !! x = Some n ->
            (canceled n = false -> x ∈ alive_ tw /\ Q) ->
            exists n', m !! x = Some n' /\ expiryTick n' = expiryTick n /\
              (canceled n' = false -> x ∈ alive_ tw ∖ {[id]} /\ Q)) as Hm.
  { intros x n Q Hn HQ. unfold m. destruct (decide (id = x)) as [->|Hne].
    - rewrite lookup_alter_eq, Hn. simpl. eexists. split; [done|]. split; [done|]. done.
    - rewrite lookup_alter_ne, Hn by done. exists n. split_and!; [done..|]. intros Hc.
      destruct (HQ Hc). split; [set_solver|done]. }
  split; simpl; try done.
  - intros x Hx. apply wf_fresh0. unfold m in Hx. rewrite lookup_alter_is_Some in Hx. done.
  - intros i x Hx. destruct (wf_slot2 i x Hx) as (n & Hn & HQ).
    destruct (Hm _ _ _ Hn HQ) as (n' & ? & He & ?). exists n'. rewrite He. done.
  - intros i x Hx. destruct (wf_slot3 i x Hx) as (n & Hn & HQ).
    destruct (Hm _ _ _ Hn HQ) as (n' & ? & He & ?). exists n'. rewrite He. done.
  - intros x Hx. destruct (wf_pend0 x Hx) as (n & Hn & HQ).
    destruct (Hm _ _ _ Hn HQ) as (n' & ? & He & ?). exists n'. rewrite He. done.
  - intros x Hx. apply elem_of_difference in Hx as [Hx Hne]. destruct (wf_alive0 x Hx) as [(n & Hn & Hc) Hin].
    split; [|done]. exists n. unfold m. rewrite lookup_alter_ne by set_solver. done.
Qed.

(** Hanging the head of the local list into a slot of either level. *)
Lemma WF_hang0 P0 P1 PP id pend tw n i :
  WF P0 P1 PP (id :: pend) tw -> nodes tw !! id = Some n -> 0 <= i < 64 ->
  P0 (expiryTick n) (Z.to_nat i) ->
  WF P0 P1 PP pend (set_l0 (slot_push i id (l0_ tw)) tw).
Proof.
  intros [] Hn Hi HP.
  assert (concat (slot_push i id (l0_ tw)) ≡ₚ id :: concat (l0_ tw)) as Hperm.
  { apply concat_alter_snoc. lia. }
  assert (id :: pend ++ concat (l0_ tw) ++ concat (l1_ tw)
          ≡ₚ pend ++ concat (slot_push i id (l0_ tw)) ++ concat (l1_ tw)) as Hperm2.
  { rewrite Hperm. simpl. by rewrite Permutation_middle. }
  split; simpl; try done.
  - unfold slot_push. by rewrite length_alter.
  - intros j x Hx. apply in_slot_push in Hx as [Hx|[-> ->]]; [auto|].
    exists n. split; [done|]. intros Hc. destruct (wf_pend0 id) as (n' & Hn' & H'); [set_solver|].
    simplify_eq. split; [|done]. by apply H'.
  - intros x Hx. apply wf_pend0. set_solver.
  - intros x Hx. destruct (wf_alive0 x Hx). split; [done|]. by rewrite <- Hperm2.
  - by rewrite <- Hperm2.
Qed.

Lemma WF_hang1 P0 P1 PP id pend tw n i :
  WF P0 P1 PP (id :: pend) tw -> nodes tw !! id = Some n -> 0 <= i < 64 ->
  P1 (expiryTick n) (Z.to_nat i) ->
  WF P0 P1 PP pend (set_l1 (slot_push i id (l1_ tw)) tw).
Proof.
  intros [] Hn Hi HP.
  assert (concat (slot_push i id (l1_ tw)) ≡ₚ id :: concat (l1_ tw)) as Hperm.
  { apply concat_alter_snoc. lia. }
  assert (id :: pend ++ concat (l0_ tw) ++ concat (l1_ tw)
          ≡ₚ pend ++ concat (l0_ tw) ++ concat (slot_push i id (l1_ tw))) as Hperm2.
  { rewrite Hperm, !app_assoc. by rewrite Permutation_middle. }
  split; simpl; try done.
  - unfold slot_push. by rewrite length_alter.
  - intros j x Hx. apply in_slot_push in Hx as [Hx|[-> ->]]; [auto|].
    exists n. split; [done|]. intros Hc. destruct (wf_pend0 id) as (n' & Hn' & H'); [set_solver|].
    simplify_eq. split; [|done]. by apply H'.
  - intros x Hx. apply wf_pend0. set_solver.
  - intros x Hx. destruct (wf_alive0 x Hx). split; [done|]. by rewrite <- Hperm2.
  - by rewrite <- Hperm2.
Qed.

(** A node that is only in the local list may be given another due tick. *)
Lemma WF_renode P0 P1 PP id pend tw n e :
  WF P0 P1 PP (id :: pend) tw -> nodes tw !! id = Some n -> PP id e ->
  WF P0 P1 PP (id :: pend) (set_nodes (<[id := mkNode e (cb n) (canceled n)]> (nodes tw)) tw).
Proof.
  intros [] Hn HP.
  assert (id ∉ pend ++ concat (l0_ tw) ++ concat (l1_ tw)) as Hid by (by inv wf_nodup0).
  split; simpl; try done.
  - intros x Hx. apply wf_fresh0. destruct (decide (id = x)) as [->|]; [by eexists|].
    by rewrite lookup_insert_ne in Hx.
  - intros i x Hx. assert (x ∈ concat (l0_ tw)) by (apply in_slot_concat; eauto).
    rewrite lookup_insert_ne by set_solver. auto.
  - intros i x Hx. assert (x ∈ concat (l1_ tw)) by (apply in_slot_concat; eauto).
    rewrite lookup_insert_ne by set_solver. auto.
  - intros x Hx. destruct (decide (id = x)) as [<-|Hne].
    + rewrite lookup_insert_eq. eexists. split; [done|]. simpl. intros Hc.
      destruct (wf_pend0 id) as (n' & Hn' & H'); [set_solver|]. simplify_eq. split; [|done]. by apply H'.
    + rewrite lookup_insert_ne by done. auto.
  - intros x Hx. destruct (wf_alive0 x Hx) as [(n' & Hn' & Hc) Hin]. split; [|done].
    destruct (decide (id = x)) as [<-|Hne].
    + rewrite lookup_insert_eq. eexists. split; [done|]. simpl. congruence.
    + rewrite lookup_insert_ne by done. eauto.
Qed.

(** A new alive node, held by the local list. *)
Lemma WF_new P0 P1 PP pend tw c e :
  WF P0 P1 PP pend tw ->
  WF P0 P1 (fun x e' => x = nextId_ tw \/ PP x e') (nextId_ tw :: pend)
     (mk (nowTick_ tw) (remainderMs_ tw) (nextId_ tw + 1) (l0_ tw) (l1_ tw)
         ({[nextId_ tw]} ∪ alive_ tw) (<[nextId_ tw := mkNode e c false]> (nodes tw))).
Proof.
  intros []. set (id := nextId_ tw) in *.
  assert (forall x n, nodes tw !! x = Some n -> id <> x) as Hne.
  { intros x n Hx Heq. assert (x < id) by (apply wf_fresh0; eauto). lia. }
  assert (id ∉ pend ++ concat (l0_ tw) ++ concat (l1_ tw)) as Hid.
  { rewrite !elem_of_app, <- !in_slot_concat. intros [H|[[i H]|[i H]]].
    - destruct (wf_pend0 id H) as (n & Hn & _). by eapply Hne.
    - destruct (wf_slot2 i id H) as (n & Hn & _). by eapply Hne.
    - destruct (wf_slot3 i id H) as (n & Hn & _). by eapply Hne. }
  split; simpl; try done.
  - intros x Hx. destruct (decide (id = x)) as [<-|]; [unfold id; lia|].
    rewrite lookup_insert_ne in Hx by done. specialize (wf_fresh0 x Hx). unfold id. lia.
  - intros i x Hx. destruct (wf_slot2 i x Hx) as (n & Hn & H'). exists n.
    rewrite lookup_insert_ne by eauto. split; [done|]. intros Hc. destruct (H' Hc). split; [set_solver|done].
  - intros i x Hx. destruct (wf_slot3 i x Hx) as (n & Hn & H'). exists n.
    rewrite lookup_insert_ne by eauto. split; [done|]. intros Hc. destruct (H' Hc). split; [set_solver|done].
  - intros x Hx. apply elem_of_cons in Hx as [->|Hx].
    + rewrite lookup_insert_eq. eexists. split; [done|]. intros _. split; [set_solver|by left].
    + destruct (wf_pend0 x Hx) as (n & Hn & H'). exists n.
      rewrite lookup_insert_ne by eauto. split; [done|]. intros Hc. destruct (H' Hc). split; [set_solver|by right].
  - intros x Hx. destruct (decide (id = x)) as [<-|Hx'].
    + rewrite lookup_insert_eq. split; [by eexists|]. set_solver.
    + rewrite lookup_insert_ne by done. destruct (wf_alive0 x) as [? Hin]; [set_solver|].
      split; [done|]. by apply elem_of_cons; right.
  - apply NoDup_cons. done.
Qed.

(** Swapping a level-0 or level-1 slot out to the local list. *)
Lemma WF_pop0 P0 P1 PP tw i s :
  WF P0 P1 PP [] tw -> l0_ tw !! i = Some s ->
  WF (fun e j => P0 e j /\ j <> i) P1 (fun _ e => P0 e i) s (set_l0 (<[i := []]> (l0_ tw)) tw).
Proof.
  intros [] Hs.
  assert (concat (l0_ tw) ++ concat (l1_ tw) ≡ₚ s ++ concat (<[i:=[]]> (l0_ tw)) ++ concat (l1_ tw)) as Hperm.
  { rewrite app_assoc. by rewrite concat_insert_nil. }
  split; simpl in *; try done.
  - by rewrite length_insert.
  - intros j x Hx. apply in_slot_insert_nil in Hx as [Hx Hj].
    destruct (wf_slot2 j x Hx) as (n & Hn & H'). exists n. naive_solver.
  - intros x Hx. destruct (wf_slot2 i x) as (n & Hn & H'); [by exists s|]. eauto.
  - intros x Hx. destruct (wf_alive0 x Hx) as [? Hin]. split; [done|]. by rewrite <- Hperm.
  - by rewrite <- Hperm.
Qed.

Lemma WF_pop1 P0 P1 PP tw i s :
  WF P0 P1 PP [] tw -> l1_ tw !! i = Some s ->
  WF P0 (fun e j => P1 e j /\ j <> i) (fun _ e => P1 e i) s (set_l1 (<[i := []]> (l1_ tw)) tw).
Proof.
  intros [] Hs.
  assert (concat (l0_ tw) ++ concat (l1_ tw) ≡ₚ s ++ concat (l0_ tw) ++ concat (<[i:=[]]> (l1_ tw))) as Hperm.
  { rewrite (Permutation_app_swap_app s). by rewrite concat_insert_nil. }
  split; simpl in *; try done.
  - by rewrite length_insert.
  - intros j x Hx. apply in_slot_insert_nil in Hx as [Hx Hj].
    destruct (wf_slot3 j x Hx) as (n & Hn & H'). exists n. naive_solver.
  - intros x Hx. destruct (wf_slot3 i x) as (n & Hn & H'); [by exists s|]. eauto.
  - intros x Hx. destruct (wf_alive0 x Hx) as [? Hin]. split; [done|]. by rewrite <- Hperm.
  - by rewrite <- Hperm.
Qed.

End Preservation.

(** ** Refinement *)

Section Refinement.
Context {CB : Type}.
Implicit Types tw : t CB.

Lemma lookup_abs tw id :
  t_due (abs tw) !! id =
  if decide (id ∈ alive_ tw) then (fun n => (expiryTick n, cb n)) <$> nodes tw !! id else None.
Proof.
  unfold abs; simpl. rewrite map_lookup_imap. destruct (nodes tw !! id); simpl; by case_decide.
Qed.

Lemma lookup_abs_due tw id :
  t_due (abs tw) !! id =
  map_imap (fun id n => if decide (id ∈ alive_ tw) then Some (expiryTick n, cb n) else None) (nodes tw) !! id.
Proof. done. Qed.

Lemma abs_ext tw a :
  nowTick_ tw = t_now a -> nextId_ tw = t_next a ->
  (forall id, t_due (abs tw) !! id = t_due a !! id) -> abs tw = a.
Proof.
  intros Hn Hx Hd. destruct a as [an ax ad]; simpl in *. subst. unfold abs in *. simpl in *. f_equal.
  by apply map_eq.
Qed.

(** What [place] does to the node, and that it hangs it. *)
Lemma place_spec P0 P1 PP id pend tw n :
  WF P0 P1 PP (id :: pend) tw -> nodes tw !! id = Some n ->
  0 <= nowTick_ tw < 2 ^ 63 -> nowTick_ tw <= expiryTick n < 2 ^ 64 ->
  let e' := Z.min (expiryTick n) (nowTick_ tw + 4095) in
  (expiryTick n - nowTick_ tw < 64 -> P0 (expiryTick n) (Z.to_nat (expiryTick n mod 64))) ->
  (64 <= expiryTick n - nowTick_ tw -> PP id e' /\ P1 e' (Z.to_nat ((e' / 64) mod 64))) ->
  WF P0 P1 PP pend (place id tw) /\
  nodes (place id tw) = <[id := mkNode e' (cb n) (canceled n)]> (nodes tw) /\
  alive_ (place id tw) = alive_ tw /\ nowTick_ (place id tw) = nowTick_ tw /\
  nextId_ (place id tw) = nextId_ tw /\ remainderMs_ (place id tw) = remainderMs_ tw.
Proof.
  intros HWF Hn Hnow He e' H0 H1. unfold place. rewrite Hn.
  rewrite u64_small by lia. unfold kSlots.
  assert (forall e'', e'' = e' -> <[id := n]> (nodes tw) = <[id := mkNode e'' (cb n) (canceled n)]> (nodes tw)
            \/ e'' <> expiryTick n) as Hsame.
  { intros e'' ->. destruct (decide (e' = expiryTick n)) as [->|]; [left|by right]. by destruct n. }
  destruct (Z.ltb_spec (expiryTick n - nowTick_ tw) 64) as [Hlt|Hge].
  - split; [|split; [|done]].
    + eapply WF_hang0; [done..| |by apply H0]. apply Z.mod_pos_bound. lia.
    + simpl. destruct (Hsame e' eq_refl) as [<-|Hne]; [by rewrite insert_id|unfold e' in Hne; lia].
  - destruct (H1 Hge) as [HPP HP1].
    set (n' := if _ >=? _ then _ else n).
    assert (n' = mkNode e' (cb n) (canceled n)) as ->.
    { unfold n'. rewrite Z.geb_leb. destruct (Z.leb_spec (64 * 64) (expiryTick n - nowTick_ tw)).
      - f_equal. rewrite u64_small by lia. unfold e'. lia.
      - destruct n; simpl in *. f_equal. unfold e'. lia. }
    split; [|done].
    refine (WF_hang1 _ _ _ _ _ _ (mkNode e' (cb n) (canceled n)) ((e' / 64) mod 64)
              (WF_renode _ _ _ _ _ _ _ e' HWF Hn HPP) _ _ HP1).
    + simpl. by rewrite lookup_insert_eq.
    + apply Z.mod_pos_bound. lia.
Qed.

(** The state of the wheel between two calls, while the timers [pend] of the
    current slot wait to be fired. *)
Definition Firing (pend : list Z) tw : Prop :=
  0 <= nowTick_ tw < 2 ^ 63 /\ 0 <= remainderMs_ tw < 100 /\
  WF (at0 (nowTick_ tw)) (at1 (nowTick_ tw)) (fun _ e => e = nowTick_ tw) pend tw.

Lemma add_refines pend tw d c :
  Firing pend tw ->
  Firing pend (snd (add d c tw)) /\
  fst (add d c tw) = fst (spec_add d c (abs tw)) /\
  abs (snd (add d c tw)) = snd (spec_add d c (abs tw)) /\
  nowTick_ (snd (add d c tw)) = nowTick_ tw /\ remainderMs_ (snd (add d c tw)) = remainderMs_ tw.
Proof.
  intros (Hnow & Hrem & HWF). unfold add, kTickMs. simpl.
  replace (d + 100 - 1) with (d + 99) by lia.
  set (tk := if _ =? 0 then _ else _).
  assert (tk = Z.max 1 (u64 (d + 99) / 100)) as Htk.
  { unfold tk. pose proof (u64_range (d + 99)). destruct (Z.eqb_spec (u64 (d + 99) / 100) 0); zlia. }
  assert (1 <= tk < 2 ^ 60) as Hb by (pose proof (u64_range (d + 99)); subst tk; zlia).
  rewrite (u64_small (nowTick_ tw + tk)) by lia.
  pose proof (WF_new _ _ _ _ _ c (nowTick_ tw + tk) HWF) as HN.
  set (tw0 := mk _ _ _ _ _ _ _) in *.
  destruct (place_spec _ _ _ _ _ tw0 (mkNode (nowTick_ tw + tk) c false) HN) as (H1 & H2 & H3 & H4 & H5 & H6);
    simpl in *; [by rewrite lookup_insert_eq|lia|lia| | |].
  - intros Hlt. split; [lia|done].
  - intros Hge. split; [by left|]. split; [zlia|done].
  - split_and!; try done.
    + split; [by rewrite H4|]. split; [by rewrite H6|]. rewrite H4.
      eapply WF_mono; [exact H1|done..|].
      intros x e Hx [->|?]; [|done]. destruct HN. simpl in *. apply NoDup_cons in wf_nodup0 as [Hx' _].
      set_solver.
    + apply abs_ext; [done..|]. intros x.
      rewrite lookup_abs, H2, H3, insert_insert_eq. simpl. unfold ticks_of. rewrite <- Htk.
      replace (Z.min (nowTick_ tw + tk) (nowTick_ tw + 4095)) with (nowTick_ tw + Z.min tk 4095) by lia.
      destruct (decide (nextId_ tw = x)) as [<-|Hne].
      * rewrite decide_True by set_solver. by rewrite !lookup_insert_eq.
      * rewrite !lookup_insert_ne, <- lookup_abs_due, lookup_abs by done. do 2 case_decide; set_solver.
Qed.

Lemma set_alive_abs tw id :
  abs (set_alive (alive_ tw ∖ {[id]}) tw) = spec_cancel id (abs tw).
Proof.
  apply abs_ext; [done..|]. intros x. rewrite lookup_abs. cbn [spec_cancel t_due set_alive alive_ nodes].
  destruct (decide (id = x)) as [<-|Hne].
  - rewrite decide_False by set_solver. by rewrite lookup_delete_eq.
  - rewrite lookup_delete_ne by done. rewrite lookup_abs. do 2 case_decide; set_solver.
Qed.

Lemma cancel_refines pend tw id :
  Firing pend tw ->
  Firing pend (cancel id tw) /\ abs (cancel id tw) = spec_cancel id (abs tw) /\
  nowTick_ (cancel id tw) = nowTick_ tw /\ remainderMs_ (cancel id tw) = remainderMs_ tw.
Proof.
  intros (Hnow & Hrem & HWF).
  assert (nowTick_ (cancel id tw) = nowTick_ tw /\ remainderMs_ (cancel id tw) = remainderMs_ tw) as [E1 E2].
  { unfold cancel. by case_decide. }
  split_and!; try done.
  - split; [by rewrite E1|]. split; [by rewrite E2|]. rewrite E1. by apply WF_cancel.
  - unfold cancel. case_decide as Hid.
    + rewrite <- set_alive_abs. apply abs_ext; [done..|]. intros x.
      rewrite !lookup_abs. cbn [set_alive set_nodes alive_ nodes]. destruct (decide (id = x)) as [<-|Hne].
      * by rewrite !decide_False by set_solver.
      * by rewrite lookup_alter_ne by done.
    + apply abs_ext; [done..|]. intros x. cbn [spec_cancel t_due].
      destruct (decide (id = x)) as [<-|Hne].
      * rewrite lookup_abs. by rewrite decide_False, lookup_delete_eq by done.
      * by rewrite lookup_delete_ne.
Qed.

Lemma interp_refines {W} (p : wprog CB W) pend tw :
  Firing pend tw ->
  Firing pend (fst (interp p tw)) /\
  spec_interp p (abs tw) = (abs (fst (interp p tw)), snd (interp p tw)) /\
  nowTick_ (fst (interp p tw)) = nowTick_ tw /\ remainderMs_ (fst (interp p tw)) = remainderMs_ tw.
Proof.
  revert tw. induction p as [w|d c k IH|id k IH]; intros tw HF; cbn [interp spec_interp].
  - done.
  - destruct (add_refines pend tw d c HF) as (HF' & Hid & Habs & Hn & Hr).
    destruct (add d c tw) as [id tw'], (spec_add d c (abs tw)) as [id' a']. simpl in *. subst.
    destruct (IH id' tw' HF') as (? & -> & -> & ->). done.
  - destruct (cancel_refines pend tw id HF) as (HF' & <- & Hn & Hr).
    destruct (IH _ HF') as (? & -> & -> & ->). done.
Qed.

(** ** Firing a slot *)

Lemma spec_interp_keeps_dead {W} (p : wprog CB W) a id :
  id < t_next a -> t_due a !! id = None ->
  id < t_next (fst (spec_interp p a)) /\ t_due (fst (spec_interp p a)) !! id = None.
Proof.
  revert a. induction p as [w|d c k IH|x k IH]; intros a Hid Hnone; simpl; [done| |].
  - apply IH; simpl; [lia|]. rewrite lookup_insert_ne by lia. done.
  - apply IH; simpl; [done|]. destruct (decide (x = id)) as [->|]; [by rewrite lookup_delete_eq|].
    by rewrite lookup_delete_ne.
Qed.

Section WithHandler.
Context {W : Type} (handler : CB -> W -> wprog CB W).

(** Ids that are not pending when firing starts may be left out. *)
Lemma spec_fire_filter (P : Z -> Prop) `{!forall x, Decision (P x)} l a w :
  (forall id, id ∈ l -> ~ P id -> id < t_next a /\ t_due a !! id = None) ->
  spec_fire handler l (a, w) = spec_fire handler (filter P l) (a, w).
Proof.
  revert a w. induction l as [|id l IH]; intros a w Hl; [done|].
  assert (forall a' w', (forall x, x ∈ l -> ~ P x -> x < t_next a' /\ t_due a' !! x = None) ->
            spec_fire handler l (a', w') = spec_fire handler (filter P l) (a', w')) as IH' by auto.
  destruct (decide (P id)) as [HP|HP].
  - rewrite filter_cons_True by done. simpl. destruct (t_due a !! id) as [[e c]|].
    + destruct (spec_interp (handler c w) (spec_cancel id a)) as [a' w'] eqn:E. apply IH'.
      intros x Hx HPx. destruct (Hl x) as [H1 H2]; [set_solver|done|].
      pose proof (spec_interp_keeps_dead (handler c w) (spec_cancel id a) x) as Hk.
      rewrite E in Hk. apply Hk; simpl; [done|]. rewrite lookup_delete_ne; [done|congruence].
    + apply IH'. intros x Hx. apply Hl. set_solver.
  - rewrite filter_cons_False by done. destruct (Hl id) as [_ Hn]; [set_solver|done|].
    simpl. rewrite Hn. apply IH'. intros x Hx. apply Hl. set_solver.
Qed.

Lemma fire_pending_refines pend tw w :
  Firing pend tw ->
  Firing [] (fst (fire_pending handler pend (tw, w))) /\
  spec_fire handler pend (abs tw, w) =
    (abs (fst (fire_pending handler pend (tw, w))), snd (fire_pending handler pend (tw, w))) /\
  nowTick_ (fst (fire_pending handler pend (tw, w))) = nowTick_ tw /\
  remainderMs_ (fst (fire_pending handler pend (tw, w))) = remainderMs_ tw.
Proof.
  revert tw w. induction pend as [|id pend IH]; intros tw w HF; [done|].
  cbn [fire_pending spec_fire].
  destruct HF as (Hnow & Hrem & HWF). pose proof HWF as [].
  destruct (wf_pend0 id) as (n & Hn & Hal); [set_solver|]. rewrite Hn.
  rewrite lookup_abs, Hn. destruct (canceled n) eqn:Hc.
  - rewrite decide_False.
    + apply IH. split; [done|]. split; [done|]. by eapply WF_drop.
    + intros Hin. destruct (wf_alive0 id Hin) as [(n' & ? & ?) _]. congruence.
  - rewrite decide_True by (by apply Hal). simpl.
    assert (Firing pend (set_alive (alive_ tw ∖ {[id]}) tw)) as HF1.
    { split; [done|]. split; [done|]. by apply WF_fire. }
    destruct (interp_refines (handler (cb n) w) pend _ HF1) as (HF2 & Hspec & Hn2 & Hr2).
    rewrite <- set_alive_abs, Hspec.
    destruct (interp (handler (cb n) w) (set_alive (alive_ tw ∖ {[id]}) tw)) as [tw2 w2]. simpl in *.
    destruct (IH tw2 w2 HF2) as (? & -> & Hn3 & Hr3). split_and!; [done..| |]; congruence.
Qed.

(** ** Cascading a level-1 slot *)

Lemma cascade_nodes_spec P1 l tw :
  let now := nowTick_ tw in
  0 <= now < 2 ^ 63 ->
  WF (fun e i => now <= e < now + 64 /\ Z.to_nat (e mod 64) = i) P1 (fun _ e => now <= e < now + 64) l tw ->
  WF (fun e i => now <= e < now + 64 /\ Z.to_nat (e mod 64) = i) P1 (fun _ e => now <= e < now + 64) []
     (cascade_nodes l tw) /\
  abs (cascade_nodes l tw) = abs tw /\ nowTick_ (cascade_nodes l tw) = now /\
  remainderMs_ (cascade_nodes l tw) = remainderMs_ tw.
Proof.
  revert tw. induction l as [|id l IH]; intros tw now Hnow HWF; [done|].
  cbn [cascade_nodes]. pose proof HWF as [].
  destruct (wf_pend0 id) as (n & Hn & Hal); [set_solver|]. rewrite Hn.
  destruct (canceled n) eqn:Hc.
  - apply IH; [done|]. by eapply WF_drop.
  - destruct (Hal eq_refl) as [_ He]. fold now in He.
    destruct (place_spec _ _ _ _ _ _ _ HWF Hn) as (H1 & H2 & H3 & H4 & H5 & H6); fold now; [lia..| | |].
    { intros _. done. }
    { intros. lia. }
    replace (Z.min (expiryTick n) (nowTick_ tw + 4095)) with (expiryTick n) in H2 by lia.
    rewrite insert_id in H2 by (by destruct n).
    destruct (IH (place id tw)) as (? & Habs & Hn' & Hr'); [by rewrite H4|by rewrite H4|].
    rewrite H4 in *. split_and!; [done| |done|congruence].
    rewrite Habs. apply abs_ext; [done..|]. intros x. by rewrite !lookup_abs, H2, H3.
Qed.

(** ** One tick *)

Lemma mod64_nat_inj e f : Z.to_nat (e mod 64) = Z.to_nat (f mod 64) -> e mod 64 = f mod 64.
Proof. intros H. apply Z2Nat.inj in H; [done|apply Z.mod_pos_bound; lia..]. Qed.

(** After [++nowTick_] and the cascade every timer that is due or will be due
    within 64 ticks hangs in its level-0 slot. *)
Definition Cascaded tw : Prop :=
  0 <= nowTick_ tw < 2 ^ 63 /\ 0 <= remainderMs_ tw < 100 /\
  WF (fun e i => nowTick_ tw <= e < nowTick_ tw + 64 /\ Z.to_nat (e mod 64) = i) (at1 (nowTick_ tw))
     (fun _ _ => False) [] tw.

Lemma cascade_phase tw :
  Inv tw -> nowTick_ tw + 1 < 2 ^ 63 ->
  let tw1 := mk (u64 (nowTick_ tw + 1)) (remainderMs_ tw) (nextId_ tw) (l0_ tw) (l1_ tw)
                (alive_ tw) (nodes tw) in
  let tw2 := if nowTick_ tw1 mod kSlots =? 0 then cascade tw1 else tw1 in
  Cascaded tw2 /\ nowTick_ tw2 = nowTick_ tw + 1 /\ remainderMs_ tw2 = remainderMs_ tw /\
  abs tw2 = mkTimers (nowTick_ tw + 1) (nextId_ tw) (t_due (abs tw)).
Proof.
  intros (Hnow & Hrem & HWF) Hlt tw1 tw2.
  assert (nowTick_ tw1 = nowTick_ tw + 1) as Hnow1 by (simpl; rewrite u64_small by lia; done).
  assert (abs tw1 = mkTimers (nowTick_ tw + 1) (nextId_ tw) (t_due (abs tw))) as Habs1.
  { apply abs_ext; [done..|]. done. }
  assert (WF (at0 (nowTick_ tw)) (at1 (nowTick_ tw)) (fun _ _ => False) [] tw1) as HWF1.
  { destruct HWF. split; done. }
  unfold tw2. rewrite Hnow1. unfold kSlots. destruct (Z.eqb_spec ((nowTick_ tw + 1) mod 64) 0) as [Hm|Hm].
  - unfold cascade. rewrite Hnow1. unfold kSlots. set (q := (nowTick_ tw + 1) / 64).
    assert (is_Some (l1_ tw1 !! Z.to_nat (q mod 64))) as [s Hs].
    { apply lookup_lt_is_Some. destruct HWF1. rewrite wf_len3.
      pose proof (Z.mod_pos_bound q 64). lia. }
    rewrite Hs. simpl default.
    assert (WF (fun e i => nowTick_ tw + 1 <= e < nowTick_ tw + 1 + 64 /\ Z.to_nat (e mod 64) = i)
               (fun e i => q <= e / 64 <= q + 63 /\ Z.to_nat ((e / 64) mod 64) = i)
               (fun _ _ => False) [] tw1) as HWF2.
    { eapply WF_mono; [exact HWF1|..].
      - intros e i [? ?]. split; [lia|done].
      - intros e i [? ?]. split; [unfold q; zlia|done].
      - done. }
    pose proof (WF_pop1 _ _ _ _ _ _ HWF2 Hs) as HWF3.
    destruct (cascade_nodes_spec (at1 (nowTick_ tw + 1)) s
                (set_l1 (<[Z.to_nat (q mod 64) := []]> (l1_ tw1)) tw1)) as (H1 & H2 & H3 & H4).
    + simpl. rewrite u64_small by lia. lia.
    + change (nowTick_ (set_l1 _ tw1)) with (nowTick_ tw1). rewrite Hnow1.
      eapply WF_mono; [exact HWF3|done|..].
      * intros e i [[? Hi] Hne]. split; [|done].
        assert (e / 64 <> q) by (intros Heq; apply Hne; rewrite <- Hi, Heq; done). fold q. lia.
      * intros _ e _ [? Hi%mod64_nat_inj]. unfold q in *. zlia.
    + change (nowTick_ (set_l1 _ tw1)) with (nowTick_ tw1) in *. rewrite Hnow1 in *.
      split_and!; [|done|done|]; [|by rewrite H2, <- Habs1].
      split; [rewrite H3; lia|]. split; [rewrite H4; done|]. rewrite H3.
      eapply WF_mono; [exact H1|done..|]. intros x e Hx. inv Hx.
  - split_and!; [|done..].
    split; [rewrite Hnow1; lia|]. split; [done|]. rewrite Hnow1.
    eapply WF_mono; [exact HWF1|..]; [| |done].
    + intros e i [? ?]. split; [lia|done].
    + intros e i [? ?]. split; [zlia|done].
Qed.

(** The live timers of the slot being fired are those that are due now. *)
Lemma firing_due s tw id :
  Firing s tw ->
  is_Some (t_due (abs tw) !! id) /\ id ∈ s <-> exists c, t_due (abs tw) !! id = Some (nowTick_ tw, c).
Proof.
  intros (_ & _ & HWF). pose proof HWF as []. rewrite lookup_abs. split.
  - intros [[x Hx] Hid]. destruct (wf_pend0 id Hid) as (n & Hn & Hal). rewrite Hn in *.
    case_decide as Ha; [|done]. simpl in *. simplify_eq.
    destruct (wf_alive0 id Ha) as [(n' & ? & Hc) _]. simplify_eq.
    destruct (Hal Hc) as [_ He]. exists (cb n). congruence.
  - intros (c & Hc). case_decide as Ha; [|done]. split; [eauto|].
    apply fmap_Some in Hc as (n & Hn & Heq). simplify_eq.
    destruct (wf_alive0 id Ha) as [(n' & Hn' & Hc') Hin]. simplify_eq.
    rewrite !elem_of_app in Hin. destruct Hin as [Hin|[Hin|Hin]]; [done|exfalso..].
    + apply in_slot_concat in Hin as [i Hi]. destruct (wf_slot2 i id Hi) as (? & ? & Hp). simplify_eq.
      destruct (Hp Hc') as [_ [Hx _]]. lia.
    + apply in_slot_concat in Hin as [i Hi]. destruct (wf_slot3 i id Hi) as (? & ? & Hp). simplify_eq.
      destruct (Hp Hc') as [_ [Hx _]]. zlia.
Qed.

Lemma tick_refines tw w :
  Inv tw -> nowTick_ tw + 1 < 2 ^ 63 ->
  let r := tick handler (tw, w) in
  Inv (fst r) /\ nowTick_ (fst r) = nowTick_ tw + 1 /\ remainderMs_ (fst r) = remainderMs_ tw /\
  spec_tick handler (abs tw, w) (abs (fst r), snd r).
Proof.
  intros HI Hlt r. destruct (cascade_phase tw HI Hlt) as ((Hnow & Hrem & HWF) & Hn2 & Hr2 & Habs2).
  cbv zeta in r. assert (r = tick handler (tw, w)) as Hr by done. clearbody r.
  unfold tick in Hr. set (tw2 := if _ =? _ then _ else _) in *.
  unfold fireSlot in Hr. unfold kSlots in *. rewrite Hn2 in *. set (now := nowTick_ tw + 1) in *.
  assert (is_Some (l0_ tw2 !! Z.to_nat (now mod 64))) as [s Hs].
  { apply lookup_lt_is_Some. destruct HWF. rewrite wf_len2. pose proof (Z.mod_pos_bound now 64). lia. }
  rewrite Hs in Hr. simpl default in Hr.
  pose proof (WF_pop0 _ _ _ _ _ _ HWF Hs) as HWF1.
  set (tw3 := set_l0 (<[Z.to_nat (now mod 64) := []]> (l0_ tw2)) tw2) in *.
  assert (abs tw3 = abs tw2) as Habs3 by (apply abs_ext; done).
  assert (nowTick_ tw3 = now) as Hn3 by done.
  assert (Firing s tw3) as HF.
  { split; [rewrite Hn3; lia|]. split; [done|]. rewrite Hn3. eapply WF_mono; [exact HWF1|..]; [| done|].
    - intros e j [[? Hj] Hne]. split; [|done].
      assert (e <> now) by (intros ->; done). lia.
    - intros _ e _ [? Hj%mod64_nat_inj]. zlia. }
  destruct (fire_pending_refines s tw3 w HF) as ((Hf1 & Hf2 & Hf3) & Hspec & Hn4 & Hr4).
  rewrite <- Hr in Hf1, Hf2, Hf3, Hspec, Hn4, Hr4. split_and!.
  - split; [lia|]. split; [done|]. eapply WF_mono; [exact Hf3|done..|]. intros x e Hx. inv Hx.
  - by rewrite Hn4.
  - by rewrite Hr4.
  - set (P := fun id => is_Some (t_due (abs tw3) !! id)).
    exists (filter P s). pose proof HF as (_ & _ & []).
    assert (forall id, id ∈ s -> ~ P id -> id < t_next (abs tw3) /\ t_due (abs tw3) !! id = None) as Hdead.
    { intros id Hid HP. split; [|by apply eq_None_not_Some]. apply wf_fresh0.
      destruct (wf_pend0 id Hid) as (n & ? & _). eauto. }
    split_and!.
    + apply NoDup_filter. by apply NoDup_app in wf_nodup0 as [? _].
    + intros id. rewrite list_elem_of_filter. cbn [fst]. change (t_now (abs tw) + 1) with now.
      change (t_due (abs tw)) with (t_due (mkTimers now (nextId_ tw) (t_due (abs tw)))).
      rewrite <- Habs2, <- Habs3. rewrite <- Hn3. by apply firing_due.
    + cbn [fst snd]. rewrite <- Hspec. change (t_now (abs tw) + 1) with now.
      change (t_next (abs tw)) with (nextId_ tw). rewrite <- Habs2, <- Habs3.
      by apply spec_fire_filter.
Qed.

Lemma ticks_refine n tw w :
  Inv tw -> nowTick_ tw + Z.of_nat n < 2 ^ 63 ->
  let r := Nat.iter n (tick handler) (tw, w) in
  Inv (fst r) /\ nowTick_ (fst r) = nowTick_ tw + Z.of_nat n /\ remainderMs_ (fst r) = remainderMs_ tw /\
  spec_ticks handler n (abs tw, w) (abs (fst r), snd r).
Proof.
  intros HI. induction n as [|n IH]; intros Hlt r.
  - split_and!; [done|simpl; lia|done|constructor].
  - destruct IH as (HI' & Hn' & Hr' & Hs'); [lia|].
    change r with (tick handler (Nat.iter n (tick handler) (tw, w))).
    destruct (Nat.iter n (tick handler) (tw, w)) as [tw' w']. cbn [fst snd] in *.
    destruct (tick_refines tw' w' HI') as (HI2 & Hn2 & Hr2 & Hs2); [lia|].
    split_and!; [done|lia|congruence|]. eapply nsteps_r; eauto.
Qed.

Lemma advance_refines elapsedMs tw w :
  Inv tw -> 0 <= elapsedMs -> remainderMs_ tw + elapsedMs < 2 ^ 64 ->
  let steps := (remainderMs_ tw + elapsedMs) / 100 in
  nowTick_ tw + steps < 2 ^ 63 ->
  let r := advance handler elapsedMs (tw, w) in
  Inv (fst r) /\ spec_ticks handler (Z.to_nat steps) (abs tw, w) (abs (fst r), snd r) /\
  nowTick_ (fst r) = nowTick_ tw + steps /\ remainderMs_ (fst r) = (remainderMs_ tw + elapsedMs) mod 100.
Proof.
  intros HI Hel Hov steps Hst r. destruct HI as (Hnow & Hrem & HWF).
  assert (r = advance handler elapsedMs (tw, w)) as Hr by done. clearbody r.
  unfold advance, kTickMs in Hr. rewrite u64_small in Hr by lia. fold steps in Hr.
  set (tw1 := mk _ _ _ _ _ _ _) in Hr.
  assert (0 <= steps) by (unfold steps; zlia).
  destruct (ticks_refine (Z.to_nat steps) tw1 w) as (H1 & H2 & H3 & H4).
  - split; [done|]. split; [simpl; zlia|]. destruct HWF; by split.
  - simpl. lia.
  - rewrite <- Hr in *. split_and!; try done. rewrite H2. simpl. lia.
Qed.

End WithHandler.
End Refinement.

Lemma Inv_Firing {CB} (tw : t CB) : Inv tw -> nowTick_ tw < 2 ^ 63 -> Firing [] tw.
Proof.
  intros (? & ? & HWF) ?. split; [lia|]. split; [done|]. eapply WF_mono; [exact HWF|done..].
Qed.

Lemma Firing_Inv {CB} (tw : t CB) : Firing [] tw -> Inv tw.
Proof.
  intros (? & ? & HWF). split; [lia|]. split; [done|]. eapply WF_mono; [exact HWF|done..|].
  intros x e Hx. inv Hx.
Qed.

(** Between ticks every timer is due in the future. *)
Lemma Inv_future {CB} (tw : t CB) id d c :
  Inv tw -> t_due (abs tw) !! id = Some (d, c) -> nowTick_ tw < d.
Proof.
  intros (Hnow & _ & HWF). rewrite lookup_abs. case_decide as Ha; [|done]. destruct HWF.
  destruct (wf_alive0 id Ha) as [(n & Hn & Hc) Hin]. rewrite Hn. intros [= <- _].
  rewrite app_nil_l, elem_of_app, <- !in_slot_concat in Hin. destruct Hin as [[i Hi]|[i Hi]].
  - destruct (wf_slot2 i id Hi) as (n' & Hn' & Hp). rewrite Hn in Hn'. inv Hn'.
    destruct (Hp Hc) as [_ [? _]]. lia.
  - destruct (wf_slot3 i id Hi) as (n' & Hn' & Hp). rewrite Hn in Hn'. inv Hn'.
    destruct (Hp Hc) as [_ [? _]]. zlia.
Qed.

Lemma wheel_Inv_init {CB} : Inv (@init CB).
Proof.
  assert (forall i id, ~ in_slot (replicate 64 []) i id) as Hno.
  { intros i id Hi. assert (id ∈ concat (replicate 64 ([] : list Z))) as Hc by (apply in_slot_concat; eauto).
    inv Hc. }
  split; [done|]. split; [done|]. split; simpl; try done.
  - intros id [n Hn]. by rewrite lookup_empty in Hn.
  - intros i id Hi. by destruct (Hno i id).
  - intros i id Hi. by destruct (Hno i id).
  - intros id Hid. inv Hid.
  - constructor.
Qed.

(** ** Callbacks that only record that they ran *)

Definition log_handler {CB} (c : CB) (log : list CB) : wprog CB (list CB) := WRet (log ++ [c]).

(** How often [c] ran. *)
Definition times_fired `{EqDecision CB} (c : CB) (log : list CB) : nat := length (filter (eq c) log).

Section Logging.
Context {CB : Type} `{EqDecision CB}.
Implicit Types (a : timers CB) (log : list CB).

Definition cbs_of a (l : list Z) : list CB := omap (fun id => snd <$> t_due a !! id) l.

Lemma cbs_of_cons a x l :
  cbs_of a (x :: l) = match t_due a !! x with Some (_, c) => c :: cbs_of a l | None => cbs_of a l end.
Proof. unfold cbs_of. simpl. by destruct (t_due a !! x) as [[]|]. Qed.

Lemma cbs_of_cancel x a l : x ∉ l -> cbs_of (spec_cancel x a) l = cbs_of a l.
Proof.
  unfold cbs_of. induction l as [|y l IH]; intros Hx; [done|]. simpl.
  apply not_elem_of_cons in Hx as [Hne Hx]. rewrite lookup_delete_ne by done. specialize (IH Hx).
  destruct (t_due a !! y); simpl; [by f_equal|done].
Qed.

Lemma spec_fire_log l a log :
  NoDup l -> (forall id, id ∈ l -> is_Some (t_due a !! id)) ->
  exists d, spec_fire log_handler l (a, log) = (mkTimers (t_now a) (t_next a) d, log ++ cbs_of a l) /\
    forall id, d !! id = if decide (id ∈ l) then None else t_due a !! id.
Proof.
  revert a log. induction l as [|x l IH]; intros a log Hnd Hl.
  - exists (t_due a). simpl. rewrite app_nil_r. by destruct a.
  - apply NoDup_cons in Hnd as [Hx Hnd]. destruct (Hl x) as [[e c] Hc]; [set_solver|].
    simpl. rewrite Hc. simpl.
    destruct (IH (spec_cancel x a) (log ++ [c])) as (d & Hs & Hd); [done| |].
    + intros id Hid. simpl. rewrite lookup_delete_ne by set_solver. apply Hl. set_solver.
    + exists d. rewrite Hs. split.
      * by rewrite <- app_assoc, cbs_of_cancel.
      * intros id. rewrite Hd. simpl. destruct (decide (id = x)) as [->|Hne].
        -- rewrite (decide_True (P := x ∈ x :: l)) by set_solver. case_decide; [done|]. apply lookup_delete_eq.
        -- rewrite lookup_delete_ne by done. do 2 case_decide; set_solver.
Qed.

(** [c] is the callback of the timer [id] and of no other. *)
Definition only a (id : Z) (c : CB) : Prop := forall x e, t_due a !! x = Some (e, c) -> x = id.

Lemma times_fired_app c log log' :
  times_fired c (log ++ log') = (times_fired c log + times_fired c log')%nat.
Proof. unfold times_fired. by rewrite filter_app, length_app. Qed.

Lemma times_fired_cbs a id e c l :
  NoDup l -> only a id c -> t_due a !! id = Some (e, c) ->
  times_fired c (cbs_of a l) = if decide (id ∈ l) then 1%nat else 0%nat.
Proof.
  intros Hnd Ho Hid. unfold times_fired. induction l as [|x l IH]; [done|].
  apply NoDup_cons in Hnd as [Hx Hnd]. specialize (IH Hnd). rewrite cbs_of_cons.
  destruct (decide (x = id)) as [->|Hne].
  - rewrite Hid. rewrite filter_cons_True by done. simpl. rewrite IH.
    rewrite decide_False by done. rewrite decide_True by set_solver. done.
  - rewrite (decide_ext (id ∈ x :: l) (id ∈ l)) by set_solver.
    destruct (t_due a !! x) as [[e' c']|] eqn:Hc'; [|done].
    rewrite filter_cons_False; [done|]. intros <-. apply Hne. by eapply Ho.
Qed.

Lemma times_fired_none a c l :
  (forall x e, t_due a !! x <> Some (e, c)) -> times_fired c (cbs_of a l) = 0%nat.
Proof.
  intros Ho. unfold times_fired. induction l as [|x l IH]; [done|]. rewrite cbs_of_cons.
  destruct (t_due a !! x) as [[e' c']|] eqn:Hc'; [|done].
  rewrite filter_cons_False; [done|]. intros <-. by eapply Ho.
Qed.

(** One tick of recording callbacks. *)
Lemma spec_tick_log a log a' log' :
  spec_tick log_handler (a, log) (a', log') ->
  t_now a' = t_now a + 1 /\
  (forall id, t_due a' !! id = match t_due a !! id with
                               | Some (e, c) => if e =? t_now a + 1 then None else Some (e, c)
                               | None => None end) /\
  exists l, NoDup l /\ log' = log ++ cbs_of a l /\
    forall id, id ∈ l <-> exists c, t_due a !! id = Some (t_now a + 1, c).
Proof.
  intros (l & Hnd & Hl & Heq). simpl in *.
  destruct (spec_fire_log l (mkTimers (t_now a + 1) (t_next a) (t_due a)) log) as (d & Hs & Hd); [done| |].
  { intros id Hid. simpl. apply Hl in Hid as [c ->]. by eexists. }
  rewrite Hs in Heq. simplify_eq. simpl in *. split; [done|]. split; [|by exists l].
  intros id. rewrite Hd. destruct (t_due a !! id) as [[e c]|] eqn:E.
  - destruct (Z.eqb_spec e (t_now a + 1)) as [->|Hne].
    + rewrite decide_True; [done|]. apply Hl. eauto.
    + rewrite decide_False; [done|]. intros [c' Hc']%Hl. congruence.
  - by case_decide.
Qed.

Lemma spec_ticks_none n a log a' log' c :
  (forall x e, t_due a !! x <> Some (e, c)) ->
  spec_ticks log_handler n (a, log) (a', log') -> times_fired c log' = times_fired c log.
Proof.
  revert a log. induction n as [|n IH]; intros a log Ho Hs; inversion Hs as [|? ? [a1 log1] ? Ht Hs']; simplify_eq; [done|].
  destruct (spec_tick_log _ _ _ _ Ht) as (_ & Hd & l & _ & -> & _).
  rewrite (IH a1 (log ++ cbs_of a l)); [|clear IH|done].
  { rewrite times_fired_app, times_fired_none by done. lia. }
  intros x e Hx. rewrite Hd in Hx. destruct (t_due a !! x) as [[e' c']|] eqn:E; [|done].
  destruct (e' =? _); simplify_eq. by eapply Ho.
Qed.

Lemma spec_ticks_fires n a log a' log' id e c :
  t_due a !! id = Some (e, c) -> only a id c -> t_now a < e ->
  spec_ticks log_handler n (a, log) (a', log') ->
  times_fired c log' = (times_fired c log + if (e - t_now a <=? Z.of_nat n)%Z then 1 else 0)%nat.
Proof.
  revert a log. induction n as [|n IH]; intros a log Hid Ho Hlt Hs;
    inversion Hs as [|? ? [a1 log1] ? Ht Hs']; simplify_eq.
  - destruct (Z.leb_spec (e - t_now a') (Z.of_nat 0)); [lia|]. lia.
  - destruct (spec_tick_log _ _ _ _ Ht) as (Hnow & Hd & l & Hnd & -> & Hl).
    pose proof (Hd id) as Hid1. rewrite Hid in Hid1.
    assert (only a1 id c) as Ho1.
    { intros x e' Hx. rewrite Hd in Hx. destruct (t_due a !! x) as [[e'' c'']|] eqn:E; [|done].
      destruct (e'' =? _); simplify_eq. by eapply Ho. }
    destruct (Z.eqb_spec e (t_now a + 1)) as [->|Hne].
    + erewrite spec_ticks_none; [|intros x e' Hx; pose proof (Ho1 _ _ Hx); simplify_eq; congruence|exact Hs'].
      rewrite times_fired_app, (times_fired_cbs _ _ _ _ _ Hnd Ho Hid), decide_True by (apply Hl; eauto).
      destruct (Z.leb_spec (t_now a + 1 - t_now a) (Z.of_nat (S n))); lia.
    + rewrite (IH _ _ Hid1 Ho1 ltac:(lia) Hs').
      rewrite times_fired_app, (times_fired_cbs _ _ _ _ _ Hnd Ho Hid), decide_False.
      * rewrite Hnow. destruct (Z.leb_spec (e - (t_now a + 1)) (Z.of_nat n)),
          (Z.leb_spec (e - t_now a) (Z.of_nat (S n))); lia.
      * intros [c' Hc']%Hl. congruence.
Qed.

Lemma ticks_of_range d : 1 <= ticks_of d <= 4095.
Proof. unfold ticks_of. lia. Qed.

(** The exact firing time of a timer, in milliseconds of [advance]. *)
Lemma add_then_advance (tw : t CB) d c ms :
  Inv tw -> (forall x e, t_due (abs tw) !! x <> Some (e, c)) ->
  0 <= ms < 2 ^ 32 -> nowTick_ tw < 2 ^ 62 ->
  times_fired c (snd (advance log_handler ms (snd (add d c tw), []))) =
  if ticks_of d * 100 <=? remainderMs_ tw + ms then 1%nat else 0%nat.
Proof.
  intros HI Ho Hms Hnow.
  destruct (add_refines [] tw d c) as (HF & _ & Habs & Hn & Hr); [apply Inv_Firing; [done|lia]|].
  destruct HI as (Hnow0 & Hrem & HWF).
  destruct (advance_refines log_handler ms (snd (add d c tw)) []) as (_ & Hs & _ & _);
    [by apply Firing_Inv|lia|rewrite Hr; lia|rewrite Hr, Hn; zlia|].
  rewrite Habs, Hr in Hs. unfold spec_add in Hs. cbn [snd] in Hs.
  destruct HWF.
  eapply (spec_ticks_fires _ _ _ _ _ (t_next (abs tw)) (t_now (abs tw) + ticks_of d) c) in Hs;
    cbn [t_due t_now] in *.
  - rewrite Hs. simpl. change (t_now (abs tw)) with (nowTick_ tw).
    pose proof (ticks_of_range d). rewrite Z2Nat.id by zlia. clear Hs.
    destruct (Z.leb_spec (nowTick_ tw + ticks_of d - nowTick_ tw) ((remainderMs_ tw + ms) / 100)),
      (Z.leb_spec (ticks_of d * 100) (remainderMs_ tw + ms)); zlia.
  - by rewrite lookup_insert_eq.
  - intros x e Hx. simpl in Hx. destruct (decide (t_next (abs tw) = x)) as [<-|Hne]; [done|].
    rewrite lookup_insert_ne in Hx by done. by apply Ho in Hx.
  - pose proof (ticks_of_range d). lia.
Qed.

End Logging.

Lemma reachable_Inv {CB W} (handler : CB -> W -> wprog CB W) s :
  reachable handler s -> Inv (fst s) /\ nowTick_ (fst s) < 2 ^ 63.
Proof.
  induction 1 as [w|p tw w _ [IH IHn]|ms tw w _ [IH IHn] H1 H2 H3].
  - split; [apply wheel_Inv_init|done].
  - destruct (interp_refines p [] tw) as (HF & _ & Hn & _); [by apply Inv_Firing|].
    split; [by apply Firing_Inv|]. rewrite Hn. done.
  - destruct (advance_refines handler ms tw w) as (HI & _ & Hn & _); [done..|].
    split; [done|]. rewrite Hn. done.
Qed.

(** ** Properties *)


(** A callback [0] that starts itself again, as the heartbeat sweep does, and
    any other number, which records itself. *)
Definition demo_handler (c : nat) (w : list nat) : wprog nat (list nat) :=
  match c with
  | O => WAdd 5000 O (fun _ => WRet (w ++ [O]))
  | S _ => WRet (w ++ [c])
  end.

Definition demo_calls : wprog nat (list nat) :=
  WAdd 5000 0%nat (fun _ => WAdd 7000 1%nat (fun _ => WRet [])).


(** A timer fires exactly once, and exactly when its delay (rounded up to
    whole ticks, at least one) has elapsed: after [add] of a delay up to
    409500 ms with a fresh callback [c], an [advance] by [ms] runs [c] once if
    the ticks are up and not at all otherwise. *)
Theorem timer_fires_exactly_once {CB W} `{EqDecision CB} (handler : CB -> W -> wprog CB W)
  (tw : t CB) (w : W) (delayMs ms : Z) (c : CB)
  (Hreach : reachable handler (tw, w)) (Hc : forall x e, t_due (abs tw) !! x <> Some (e, c))
  (Hd : 0 <= delayMs <= 409500) (Hms : 0 <= ms < 2 ^ 32) (Hnow : nowTick_ tw < 2 ^ 62) :
  times_fired c (snd (advance log_handler ms (snd (add delayMs c tw), []))) =
  if 100 * Z.max 1 ((delayMs + 99) / 100) <=? remainderMs_ tw + ms then 1%nat else 0%nat.
Proof.
  destruct (reachable_Inv handler _ Hreach) as [HI _]. simpl in HI.
  rewrite add_then_advance by done. unfold ticks_of. rewrite u64_small by lia.
  replace (Z.min (Z.max 1 ((delayMs + 99) / 100)) 4095 * 100)
    with (100 * Z.max 1 ((delayMs + 99) / 100)) by zlia. done.
Qed.

Lemma timer_fires_exactly_once_witness :
  times_fired 7%nat (snd (advance log_handler 29999 (snd (add 30000 7%nat init), []))) = 0%nat /\
  times_fired 7%nat (snd (advance log_handler 30000 (snd (add 30000 7%nat init), []))) = 1%nat.
Proof.
  split; (rewrite (timer_fires_exactly_once demo_handler init []);
    [reflexivity|constructor|intros x e; rewrite lookup_abs; done|lia|lia|vm_compute; reflexivity]).
Defined.

(** A cancelled timer never fires: after [add] and [cancel] of its id, no
    [advance] runs its callback. *)
Theorem canceled_timer_never_fires {CB W} `{EqDecision CB} (handler : CB -> W -> wprog CB W)
  (tw : t CB) (w : W) (delayMs ms : Z) (c : CB)
  (Hreach : reachable handler (tw, w)) (Hc : forall x e, t_due (abs tw) !! x <> Some (e, c))
  (Hms : 0 <= ms < 2 ^ 32) (Hnow : nowTick_ tw < 2 ^ 62) :
  let (id, tw') := add delayMs c tw in
  times_fired c (snd (advance log_handler ms (cancel id tw', []))) = 0%nat.
Proof.
  destruct (reachable_Inv handler _ Hreach) as [HI _]. simpl in HI. pose proof HI as (_ & Hrem & _).
  destruct (add_refines [] tw delayMs c) as (HF & Hid & Habs & Hn & Hr); [by apply Inv_Firing; [|lia]|].
  destruct (add delayMs c tw) as [id tw']. cbn [fst snd] in *. subst id.
  destruct (cancel_refines [] tw' (fst (spec_add delayMs c (abs tw))) HF) as (HF2 & Habs2 & Hn2 & Hr2).
  destruct (advance_refines log_handler ms (cancel (fst (spec_add delayMs c (abs tw))) tw') []) as (_ & Hs & _);
    [by apply Firing_Inv|lia|rewrite Hr2, Hr; lia|rewrite Hr2, Hr, Hn2, Hn; zlia|].
  eapply spec_ticks_none in Hs; [exact Hs|]. intros x e. rewrite Habs2, Habs. simpl.
  rewrite delete_insert_eq. destruct (decide (nextId_ tw = x)) as [<-|Hne].
  - by rewrite lookup_delete_eq.
  - rewrite lookup_delete_ne by done. apply Hc.
Qed.

Lemma canceled_timer_never_fires_witness :
  times_fired 7%nat (snd (advance log_handler 60000 (cancel 1 (snd (add 30000 7%nat init)), []))) = 0%nat.
Proof.
  apply (canceled_timer_never_fires demo_handler init [] 30000 60000 7%nat);
    [constructor|intros x e; rewrite lookup_abs; done|lia|vm_compute; reflexivity].
Defined.

(** A delay beyond the range of the wheel is cut to 4095 ticks and the
    timer fires early: [place] overwrites [expiryTick], so the cascade does
    not hang the node again by its remaining distance. *)
Theorem long_delay_fires_early {CB W} `{EqDecision CB} (handler : CB -> W -> wprog CB W)
  (tw : t CB) (w : W) (delayMs : Z) (c : CB)
  (Hreach : reachable handler (tw, w)) (Hc : forall x e, t_due (abs tw) !! x <> Some (e, c))
  (Hd : 409500 < delayMs < 2 ^ 64 - 99) (Hnow : nowTick_ tw < 2 ^ 62) :
  times_fired c (snd (advance log_handler 409500 (snd (add delayMs c tw), []))) = 1%nat.
Proof.
  destruct (reachable_Inv handler _ Hreach) as [HI _]. simpl in HI. pose proof HI as (_ & Hrem & _).
  rewrite add_then_advance by (done || lia).
  assert (ticks_of delayMs = 4095) as ->.
  { unfold ticks_of. rewrite u64_small by lia. zlia. }
  destruct (Z.leb_spec (4095 * 100) (remainderMs_ tw + 409500)); lia.
Qed.

Lemma long_delay_fires_early_witness :
  times_fired 7%nat (snd (advance log_handler 409500 (snd (add 3600000 7%nat init), []))) = 1%nat.
Proof.
  apply (long_delay_fires_early demo_handler init [] 3600000 7%nat);
    [constructor|intros x e; rewrite lookup_abs; done|lia|vm_compute; reflexivity].
Defined.

End TimerWheel.
