(* ===== verification/Poller.v ===== *)
(** * Event channels ([src/src/net/Channel.h], [Channel.cc], [EPollPoller.h],
    [EPollPoller.cc])

    A [Channel] keeps the events its owner wants of a file descriptor, and the
    poller carries them to the kernel with [epoll_ctl]. The kernel is a
    parameter ([Epoll]) with the laws of epoll_ctl(2) ([EpollLaws]). A channel
    is identified by its descriptor: a loop has at most one channel for each. *)

From stdpp Require Import base gmap sets list.
From Stdlib Require Import ZArith Lia.
From S2P Require Import Prelude.

Local Open Scope Z_scope.

(** ** The kernel *)

Inductive ctl_op : Type := EPOLL_CTL_ADD | EPOLL_CTL_MOD | EPOLL_CTL_DEL.

(** [epoll_ctl] answers whether it succeeded; [interest] is the interest list,
    the registered events by descriptor. *)
Class Epoll (K : Type) : Type := {
  epoll_ctl : ctl_op -> Z -> Z -> K -> bool * K;
  interest : K -> gmap Z Z;
}.

(** For a valid descriptor: [ADD] fails with [EEXIST] when it is registered,
    [MOD] and [DEL] fail with [ENOENT] when it is not; else they succeed. *)
Class EpollLaws (K : Type) `{Epoll K} : Prop := {
  ctl_add k fd ev : fst (epoll_ctl EPOLL_CTL_ADD fd ev k) = bool_decide (interest k !! fd = None) /\
    interest (snd (epoll_ctl EPOLL_CTL_ADD fd ev k)) =
    if decide (interest k !! fd = None) then <[fd := ev]> (interest k) else interest k;
  ctl_mod k fd ev : fst (epoll_ctl EPOLL_CTL_MOD fd ev k) = bool_decide (interest k !! fd <> None) /\
    interest (snd (epoll_ctl EPOLL_CTL_MOD fd ev k)) =
    if decide (interest k !! fd = None) then interest k else <[fd := ev]> (interest k);
  ctl_del k fd ev : fst (epoll_ctl EPOLL_CTL_DEL fd ev k) = bool_decide (interest k !! fd <> None) /\
    interest (snd (epoll_ctl EPOLL_CTL_DEL fd ev k)) = delete fd (interest k);
}.

(** ** Channel *)

Module Channel.

Definition EPOLLIN : Z := 1.
Definition EPOLLPRI : Z := 2.
Definition EPOLLOUT : Z := 4.
Definition EPOLLERR : Z := 8.
Definition EPOLLHUP : Z := 16.
Definition EPOLLRDHUP : Z := 8192.
Definition EPOLLET : Z := 2 ^ 31.

Record t : Type := mk {
  fd_ : Z;
  events_ : Z;
  revents_ : Z;
  index_ : Z;
}.

Definition make (fd : Z) : t := mk fd 0 0 (-1).

Definition set_events (ev : Z) (c : t) : t := mk (fd_ c) ev (revents_ c) (index_ c).

Definition setRevents (rev : Z) (c : t) : t := mk (fd_ c) (events_ c) rev (index_ c).

Definition setIndex (i : Z) (c : t) : t := mk (fd_ c) (events_ c) (revents_ c) i.

Definition isNoneEvent (c : t) : bool := events_ c =? 0.

Definition isWriting (ev : Z) : bool := negb (Z.land ev EPOLLOUT =? 0).

(** The new [events_] of the calls that end in [update()]. *)
Definition reading (ev : Z) : Z := Z.lor ev (Z.lor EPOLLIN (Z.lor EPOLLPRI EPOLLET)).

Definition writing (ev : Z) : Z := Z.lor ev EPOLLOUT.

Definition not_writing (ev : Z) : Z := Z.ldiff ev EPOLLOUT.

(** The callbacks [handleEvent] makes, in order. *)
Inductive callback : Type := CbClose | CbError | CbRead | CbWrite.

Definition has (rev mask : Z) : bool := negb (Z.land rev mask =? 0).

Definition handleEvent (rev : Z) : list callback :=
  if has rev EPOLLHUP && negb (has rev EPOLLIN) then [CbClose]
  else (if has rev EPOLLERR then [CbError] else []) ++
       (if has rev (Z.lor EPOLLIN (Z.lor EPOLLPRI EPOLLRDHUP)) then [CbRead] else []) ++
       (if has rev EPOLLOUT then [CbWrite] else []).

Lemma isWriting_writing ev : isWriting (writing ev) = true.
Proof.
  unfold isWriting, writing. destruct (Z.eqb_spec (Z.land (Z.lor ev EPOLLOUT) EPOLLOUT) 0) as [H|]; [|done].
  apply (f_equal (fun z => Z.testbit z 2)) in H. rewrite Z.land_spec, Z.lor_spec in H.
  change (Z.testbit EPOLLOUT 2) with true in H. by rewrite orb_true_r in H.
Qed.

Lemma isWriting_not_writing ev : isWriting (not_writing ev) = false.
Proof. unfold isWriting, not_writing. by rewrite Z.land_ldiff. Qed.

Lemma isWriting_reading ev : isWriting (reading ev) = isWriting ev.
Proof.
  unfold isWriting, reading. rewrite Z.land_lor_distr_l. change (Z.land (Z.lor _ _) EPOLLOUT) with 0.
  by rewrite Z.lor_0_r.
Qed.

End Channel.

(** ** EPollPoller *)

Module EPollPoller.
Import Channel.

Definition kNew : Z := -1.
Definition kAdded : Z := 1.
Definition kDeleted : Z := 2.

Definition kInitEventListSize : nat := 16.

(** [channels_] by descriptor, and the size of the vector [events_]. *)
Record t : Type := mkPoller {
  channels_ : gset Z;
  event_list_size : nat;
}.

Definition init : t := mkPoller ∅ kInitEventListSize.

Section Kernel.
Context {K : Type} {EK : Epoll K}.

(** A failed [epoll_ctl] is only printed: the second component counts the
    failures. *)
Definition update (op : ctl_op) (c : Channel.t) (k : K) : K * nat :=
  let (ok, k') := epoll_ctl op (fd_ c) (events_ c) k in
  (k', if ok then 0%nat else 1%nat).

Definition updateChannel (c : Channel.t) (p : t) (k : K) : Channel.t * t * K * nat :=
  let idx := index_ c in
  if (idx =? kNew) || (idx =? kDeleted) then
    let p' := mkPoller ({[fd_ c]} ∪ channels_ p) (event_list_size p) in
    let c' := setIndex kAdded c in
    let (k', n) := update EPOLL_CTL_ADD c' k in (c', p', k', n)
  else if isNoneEvent c then
    let (k', n) := update EPOLL_CTL_DEL c k in (setIndex kDeleted c, p, k', n)
  else
    let (k', n) := update EPOLL_CTL_MOD c k in (c, p, k', n).

Definition removeChannel (c : Channel.t) (p : t) (k : K) : Channel.t * t * K * nat :=
  let p' := mkPoller (channels_ p ∖ {[fd_ c]}) (event_list_size p) in
  if index_ c =? kAdded then
    let (k', n) := update EPOLL_CTL_DEL c k in (setIndex kNew c, p', k', n)
  else (setIndex kNew c, p', k, 0%nat).

(** [poll] after [epoll_wait] has returned [ready] (descriptor and events of
    each entry) or failed ([None]): the active channels and the new size. *)
Definition poll (ready : option (list (Z * Z))) (chans : gmap Z Channel.t) (p : t) : list Z * gmap Z Channel.t * t :=
  match ready with
  | None => ([], chans, p)
  | Some evs =>
      (map fst evs, foldl (fun m ev => alter (setRevents (snd ev)) (fst ev) m) chans evs,
       mkPoller (channels_ p)
         (if (length evs =? event_list_size p)%nat then event_list_size p * 2 else event_list_size p)%nat)
  end.

(** ** The channels of one loop *)

Inductive op : Type :=
  | EnableReading
  | EnableWriting
  | DisableWriting
  | DisableAll
  | Remove.

(** The calls of a channel's owner; all but [Remove] end in
    [Channel::update()]. *)
Definition call (o : op) (c : Channel.t) (p : t) (k : K) : Channel.t * t * K * nat :=
  match o with
  | EnableReading => updateChannel (set_events (reading (events_ c)) c) p k
  | EnableWriting => updateChannel (set_events (writing (events_ c)) c) p k
  | DisableWriting => updateChannel (set_events (not_writing (events_ c)) c) p k
  | DisableAll => updateChannel (set_events 0 c) p k
  | Remove => removeChannel c p k
  end.

Record loop : Type := mkLoop {
  chans : gmap Z Channel.t;
  poller : t;
  kernel : K;
  failures : nat;
}.

(** A call on the channel of a descriptor; a descriptor without a channel gets
    a new one (the constructor of [Channel]). *)
Definition step (fd : Z) (o : op) (l : loop) : loop :=
  let c := default (make fd) (chans l !! fd) in
  let '(c', p', k', n) := call o c (poller l) (kernel l) in
  mkLoop (<[fd := c']> (chans l)) p' k' (failures l + n).

Definition run (calls : list (Z * op)) (l : loop) : loop := foldl (fun l x => step (fst x) (snd x) l) l calls.

(** ** Specification

    What a descriptor's owner has asked for: the events, and whether the
    descriptor is registered. [update()] with no events withdraws a registered
    descriptor; in every other case it registers the events, also when there
    are none. *)

Definition spec_update (ev : Z) (reg : bool) : Z * bool := (ev, negb (reg && (ev =? 0))).

Definition spec_call (w : Z * bool) (o : op) : Z * bool :=
  let (ev, reg) := w in
  match o with
  | EnableReading => spec_update (reading ev) reg
  | EnableWriting => spec_update (writing ev) reg
  | DisableWriting => spec_update (not_writing ev) reg
  | DisableAll => spec_update 0 reg
  | Remove => (ev, false)
  end.

Definition calls_on (fd : Z) (calls : list (Z * op)) : list op := map snd (filter (fun x => fst x = fd) calls).

Definition wanted (fd : Z) (calls : list (Z * op)) : Z * bool := foldl spec_call (0, false) (calls_on fd calls).

Definition registered (w : Z * bool) : option Z := if snd w then Some (fst w) else None.

(** ** The invariant of a loop *)

Context {EL : EpollLaws K}.

(** One descriptor: its channel, its entry in [channels_] and the kernel's. *)
Definition agrees (fd : Z) (c : Channel.t) (p : t) (k : K) (w : Z * bool) : Prop :=
  fd_ c = fd /\ events_ c = fst w /\ interest k !! fd = registered w /\
  (index_ c = kAdded /\ snd w = true \/ (index_ c = kNew \/ index_ c = kDeleted) /\ snd w = false) /\
  (fd ∈ channels_ p <-> index_ c <> kNew).

Lemma updateChannel_spec fd c p k w ev :
  agrees fd c p k w ->
  exists c' p' k', updateChannel (set_events ev c) p k = (c', p', k', 0%nat) /\
    agrees fd c' p' k' (spec_update ev (snd w)) /\
    (forall fd', fd' <> fd -> interest k' !! fd' = interest k !! fd' /\ (fd' ∈ channels_ p' <-> fd' ∈ channels_ p)).
Proof.
  destruct c as [cfd cev crev ci], w as [wev reg]. unfold agrees, registered, updateChannel, update.
  simpl. intros (-> & -> & Hi & Hidx & Hch). destruct Hidx as [[-> ->]|[Hidx ->]]; simpl.
  - destruct (Z.eqb_spec ev 0) as [->|Hev]; cbn -[interest epoll_ctl].
    + destruct (ctl_del k fd 0) as [H1 H2]. destruct (epoll_ctl _ _ _ _) as [ok k']. simpl in *. subst ok.
      rewrite bool_decide_eq_true_2 by (by rewrite Hi). eexists _, _, _. split; [done|]. simpl. rewrite H2. split_and!; auto.
      * apply lookup_delete_eq.
      * by rewrite Hch.
      * intros fd' Hne. by rewrite lookup_delete_ne.
    + unfold isNoneEvent. simpl. rewrite (proj2 (Z.eqb_neq ev 0) Hev).
      destruct (ctl_mod k fd ev) as [H1 H2]. destruct (epoll_ctl _ _ _ _) as [ok k']. simpl in *. subst ok.
      rewrite bool_decide_eq_true_2 by (by rewrite Hi). eexists _, _, _. split; [reflexivity|]. simpl.
      rewrite H2, decide_False by (by rewrite Hi). split_and!; auto.
      * apply lookup_insert_eq.
      * intros fd' Hne. by rewrite lookup_insert_ne.
  - assert ((ci =? kNew) || (ci =? kDeleted) = true) as ->
      by (destruct Hidx as [-> | ->]; done).
    destruct (ctl_add k fd ev) as [H1 H2]. destruct (epoll_ctl _ _ _ _) as [ok k']. simpl in *. subst ok.
    rewrite bool_decide_eq_true_2 by done. eexists _, _, _. split; [done|]. simpl.
    rewrite H2, decide_True by done. split_and!; auto.
    + apply lookup_insert_eq.
    + split; [done|set_solver].
    + intros fd' Hne. rewrite lookup_insert_ne by done. split; [done|set_solver].
Qed.

Lemma removeChannel_spec fd c p k w :
  agrees fd c p k w ->
  exists c' p' k', removeChannel c p k = (c', p', k', 0%nat) /\ agrees fd c' p' k' (fst w, false) /\
    (forall fd', fd' <> fd -> interest k' !! fd' = interest k !! fd' /\ (fd' ∈ channels_ p' <-> fd' ∈ channels_ p)).
Proof.
  destruct c as [cfd cev crev ci], w as [wev reg]. unfold agrees, registered, removeChannel, update.
  simpl. intros (-> & -> & Hi & Hidx & Hch). destruct Hidx as [[-> ->]|[Hidx ->]]; simpl.
  - destruct (ctl_del k fd wev) as [H1 H2]. destruct (epoll_ctl _ _ _ _) as [ok k']. simpl in *. subst ok.
    rewrite bool_decide_eq_true_2 by (by rewrite Hi). eexists _, _, _. split; [done|]. simpl. rewrite H2.
    split_and!; auto; [apply lookup_delete_eq|set_solver|].
    intros fd' Hne. rewrite lookup_delete_ne by done. split; [done|set_solver].
  - assert (ci =? kAdded = false) as -> by (destruct Hidx as [-> | ->]; done).
    eexists _, _, _. split; [done|]. simpl. split_and!; auto; [set_solver|]. intros fd' Hne. split; [done|set_solver].
Qed.

Lemma call_spec fd o c p k w :
  agrees fd c p k w ->
  exists c' p' k', call o c p k = (c', p', k', 0%nat) /\ agrees fd c' p' k' (spec_call w o) /\
    (forall fd', fd' <> fd -> interest k' !! fd' = interest k !! fd' /\ (fd' ∈ channels_ p' <-> fd' ∈ channels_ p)).
Proof.
  intros Ha. pose proof Ha as (_ & Hev & _). destruct w as [ev reg]. simpl in Hev. subst ev.
  destruct o; simpl; [by apply (updateChannel_spec fd c p k (events_ c, reg))..|by apply (removeChannel_spec fd c p k (events_ c, reg))].
Qed.

Definition loop_inv (calls : list (Z * op)) (l : loop) : Prop :=
  failures l = 0%nat /\
  forall fd, agrees fd (default (make fd) (chans l !! fd)) (poller l) (kernel l) (wanted fd calls).

Lemma wanted_snoc fd calls x :
  wanted fd (calls ++ [x]) = if decide (fst x = fd) then spec_call (wanted fd calls) (snd x) else wanted fd calls.
Proof.
  unfold wanted, calls_on. rewrite filter_app, map_app, foldl_app. destruct (decide (fst x = fd)) as [H|H].
  - by rewrite filter_cons_True.
  - by rewrite filter_cons_False.
Qed.

Lemma loop_inv_step calls l fd o : loop_inv calls l -> loop_inv (calls ++ [(fd, o)]) (step fd o l).
Proof.
  intros [Hf Ha]. unfold step. destruct (call_spec fd o _ _ _ _ (Ha fd)) as (c' & p' & k' & -> & Hc & Hoth).
  split; [simpl; lia|]. intros fd'. rewrite wanted_snoc. simpl. destruct (decide (fd = fd')) as [<-|Hne].
  - by rewrite lookup_insert_eq.
  - rewrite lookup_insert_ne by done. destruct (Hoth fd' ltac:(done)) as [Hi Hch], (Ha fd') as (H1 & H2 & H3 & H4 & H5).
    split_and!; [done|done|by rewrite Hi|done|by rewrite Hch].
Qed.

Lemma loop_inv_run calls l :
  loop_inv [] l -> loop_inv calls (run calls l).
Proof.
  intros H0. induction calls as [|[fd o] calls IH] using rev_ind; [done|].
  unfold run. rewrite foldl_app. simpl. by apply loop_inv_step.
Qed.

(** The loop of a new [EventLoop] over a fresh epoll instance. *)
Definition fresh (k : K) : loop := mkLoop ∅ init k 0.

Lemma loop_inv_fresh k : interest k = ∅ -> loop_inv [] (fresh k).
Proof.
  intros Hk. split; [done|]. intros fd. unfold agrees. simpl. rewrite lookup_empty, Hk. simpl.
  split_and!; [done|done|apply lookup_empty|by right; split; [left|]|]. set_solver.
Qed.

End Kernel.

(** The interest list of a kernel that keeps exactly that. *)
#[global] Instance interest_list : Epoll (gmap Z Z) := {|
  epoll_ctl op fd ev k :=
    match op with
    | EPOLL_CTL_ADD => (bool_decide (k !! fd = None), if decide (k !! fd = None) then <[fd := ev]> k else k)
    | EPOLL_CTL_MOD => (bool_decide (k !! fd <> None), if decide (k !! fd = None) then k else <[fd := ev]> k)
    | EPOLL_CTL_DEL => (bool_decide (k !! fd <> None), delete fd k)
    end;
  interest k := k
|}.

#[global] Instance interest_list_laws : EpollLaws (gmap Z Z).
Proof. by split. Qed.

Lemma interest_empty : interest (∅ : gmap Z Z) = ∅.
Proof. reflexivity. Qed.



(** [disableAll()] on a channel whose descriptor is already withdrawn registers
    it again, without events: the kernel then still reports errors and hang-ups. *)
Lemma disableAll_again_registers fd :
  interest (kernel (run [(fd, EnableReading); (fd, DisableAll); (fd, DisableAll)] (fresh (∅ : gmap Z Z)))) !! fd = Some 0.
Proof.
  destruct (loop_inv_run [(fd, EnableReading); (fd, DisableAll); (fd, DisableAll)] _ (loop_inv_fresh (∅ : gmap Z Z) interest_empty))
    as [_ Ha]. destruct (Ha fd) as (_ & _ & -> & _). unfold wanted, calls_on.
  rewrite !filter_cons_True by done. done.
Qed.

End EPollPoller.
