(* ===== verification/Reactor.v ===== *)
(** * The loop and its channels ([src/src/net/EventLoop.cc], [Channel.cc], [EPollPoller.cc])

    [EventLoop.v] is about the threads around a loop; this file is about the
    objects inside it. The kernel keeps, for every registered descriptor, the
    address of its [Channel] ([ev.data.ptr]); [poll] writes to the channels it
    finds there and collects their addresses in [activeChannels_], and the loop
    then calls [handleEvent] through these addresses, one after the other, while
    the callbacks create, change and destroy channels. The model keeps the heap
    of live channels and makes every access to another address [UB].

    What the callbacks and functors do is up to their owners (connections,
    acceptor, timers): a [script] gives, for the n-th call the loop makes, the
    commands it issues. The rule all owners follow is [legal]: use your own live
    channels, remove a channel from the loop before destroying it, and leave the
    destruction of a channel that is active in this turn to a functor. *)

From stdpp Require Import base gmap sets list.
From Stdlib Require Import ZArith Lia.
From S2P Require Import Prelude Poller.

Local Open Scope Z_scope.

Module Reactor.

Import Channel EPollPoller.

Section Loop.
Context {K : Type} {EK : Epoll K} {EL : EpollLaws K}.

Notation ptr := Z.

(** [data] is the [data.ptr] of the registered descriptors; [counter] that of
    the eventfd; [calls] counts the callbacks and functors called so far. *)
Record t : Type := mkReactor {
  heap : gmap ptr Channel.t;
  poller_ : EPollPoller.t;
  kern : K;
  data : gmap Z ptr;
  wakeupFd_ : Z;
  wakeupChannel_ : ptr;
  counter : nat;
  activeChannels_ : list ptr;
  pendingFunctors_ : list nat;
  calls : nat;
  errors : nat;
}.

Definition set_heap (h : gmap ptr Channel.t) (s : t) : t :=
  mkReactor h (poller_ s) (kern s) (data s) (wakeupFd_ s) (wakeupChannel_ s) (counter s) (activeChannels_ s)
    (pendingFunctors_ s) (calls s) (errors s).

Definition set_active (l : list ptr) (s : t) : t :=
  mkReactor (heap s) (poller_ s) (kern s) (data s) (wakeupFd_ s) (wakeupChannel_ s) (counter s) l
    (pendingFunctors_ s) (calls s) (errors s).

Definition set_queue (n : nat) (l : list nat) (s : t) : t :=
  mkReactor (heap s) (poller_ s) (kern s) (data s) (wakeupFd_ s) (wakeupChannel_ s) n (activeChannels_ s) l
    (calls s) (errors s).

Definition count_call (s : t) : t :=
  mkReactor (heap s) (poller_ s) (kern s) (data s) (wakeupFd_ s) (wakeupChannel_ s) (counter s) (activeChannels_ s)
    (pendingFunctors_ s) (S (calls s)) (errors s).

Definition set_poller_size (n : nat) (s : t) : t :=
  mkReactor (heap s) (mkPoller (channels_ (poller_ s)) n) (kern s) (data s) (wakeupFd_ s) (wakeupChannel_ s) (counter s)
    (activeChannels_ s) (pendingFunctors_ s) (calls s) (errors s).

(** ** Accesses *)

Definition deref (p : ptr) (s : t) : res Channel.t := match heap s !! p with Some c => Ok c | None => UB end.

(** [ev.data.ptr = ch] of [EPollPoller::update], for the calls of a channel's
    owner: [EPOLL_CTL_ADD] (which fails for a descriptor that is registered),
    [EPOLL_CTL_MOD] and [EPOLL_CTL_DEL]. *)
Definition note_ptr (o : op) (p : ptr) (c : Channel.t) (ev : Z) (k : K) (d : gmap Z ptr) : gmap Z ptr :=
  match o with
  | Remove => if index_ c =? kAdded then delete (fd_ c) d else d
  | _ =>
      if (index_ c =? kNew) || (index_ c =? kDeleted) then
        (if decide (interest k !! fd_ c = None) then <[fd_ c := p]> d else d)
      else if ev =? 0 then delete (fd_ c) d
      else <[fd_ c := p]> d
  end.

(** [updateChannel] and [removeChannel], through the calls of a channel's owner. *)
Definition call_channel (p : ptr) (o : op) (s : t) : res t :=
  match deref p s with
  | UB => UB
  | Ok c =>
      let '(c', po, k', n) := call o c (poller_ s) (kern s) in
      Ok (mkReactor (<[p := c']> (heap s)) po k' (note_ptr o p c (events_ c') (kern s) (data s)) (wakeupFd_ s)
            (wakeupChannel_ s) (counter s) (activeChannels_ s) (pendingFunctors_ s) (calls s) (errors s + n))
  end.

Inductive cmd : Type :=
  | CNew (p : ptr) (fd : Z)
  | CCall (p : ptr) (o : op)
  | CDelete (p : ptr)
  | CQueue (f : nat).

Definition exec (x : cmd) (s : t) : res t :=
  match x with
  | CNew p fd => match heap s !! p with None => Ok (set_heap (<[p := make fd]> (heap s)) s) | Some _ => UB end
  | CCall p o => call_channel p o s
  | CDelete p => match deref p s with Ok _ => Ok (set_heap (delete p (heap s)) s) | UB => UB end
  | CQueue f => Ok (set_queue (S (counter s)) (pendingFunctors_ s ++ [f]) s)
  end.

(** What an owner may do; [functor] says that a functor runs, not a callback. A
    loop has at most one channel for a descriptor. *)
Definition legal (functor : bool) (x : cmd) (s : t) : bool :=
  match x with
  | CNew p fd => bool_decide (heap s !! p = None) && bool_decide (map_Forall (fun _ c => fd_ c <> fd) (heap s))
  | CCall p _ => bool_decide (is_Some (heap s !! p)) && negb (p =? wakeupChannel_ s)
  | CDelete p => (functor || bool_decide (p ∉ activeChannels_ s)) && negb (p =? wakeupChannel_ s) &&
      match heap s !! p with Some c => index_ c =? kNew | None => false end
  | CQueue _ => true
  end.

(** The rule without what is left to functors. *)
Definition careless (functor : bool) (x : cmd) (s : t) : bool := legal true x s.

Section Scripts.
Context (rule : bool -> cmd -> t -> bool) (script : nat -> list cmd).

Fixpoint issue (functor : bool) (xs : list cmd) (s : t) : res t :=
  match xs with
  | [] => Ok s
  | x :: xs => if rule functor x s then match exec x s with Ok s1 => issue functor xs s1 | UB => UB end
               else issue functor xs s
  end.

(** A callback of a channel: [handleWakeup] for the wake-up channel, which only
    has a read callback. *)
Definition callback_of (p : ptr) (cb : callback) (s : t) : res t :=
  if p =? wakeupChannel_ s then Ok (match cb with CbRead => set_queue 0 (pendingFunctors_ s) s | _ => s end)
  else issue false (script (calls s)) (count_call s).

(** [handleEvent] reads [revents_] again after every callback but [closeCb_]. *)
Definition test_event (p : ptr) (mask : Z) (cb : callback) (s : t) : res t :=
  match deref p s with
  | UB => UB
  | Ok c => if has (revents_ c) mask then callback_of p cb s else Ok s
  end.

Definition handleEvent (p : ptr) (s : t) : res t :=
  match deref p s with
  | UB => UB
  | Ok c =>
      if has (revents_ c) EPOLLHUP && negb (has (revents_ c) EPOLLIN) then callback_of p CbClose s
      else
        match test_event p EPOLLERR CbError s with
        | UB => UB
        | Ok s1 =>
            match test_event p (Z.lor EPOLLIN (Z.lor EPOLLPRI EPOLLRDHUP)) CbRead s1 with
            | UB => UB
            | Ok s2 => test_event p EPOLLOUT CbWrite s2
            end
        end
  end.

(** [poll] after [epoll_wait] has reported the descriptors [evs]. *)
Fixpoint fill (evs : list (Z * Z)) (s : t) : res t :=
  match evs with
  | [] => Ok s
  | (fd, ev) :: evs =>
      match data s !! fd with
      | None => UB
      | Some p =>
          match deref p s with
          | UB => UB
          | Ok c => fill evs (set_active (activeChannels_ s ++ [p]) (set_heap (<[p := setRevents ev c]> (heap s)) s))
          end
      end
  end.

Definition poll_loop (ready : option (list (Z * Z))) (s : t) : res t :=
  match ready with
  | None => Ok s
  | Some evs =>
      match fill evs s with
      | UB => UB
      | Ok s1 => Ok (if (length evs =? event_list_size (poller_ s1))%nat
                     then set_poller_size (event_list_size (poller_ s1) * 2) s1 else s1)
      end
  end.

Fixpoint dispatch (l : list ptr) (s : t) : res t :=
  match l with
  | [] => Ok s
  | p :: l => match handleEvent p s with Ok s1 => dispatch l s1 | UB => UB end
  end.

Fixpoint run_functors (l : list nat) (s : t) : res t :=
  match l with
  | [] => Ok s
  | _ :: l => match issue true (script (calls s)) (count_call s) with Ok s1 => run_functors l s1 | UB => UB end
  end.

(** [functors.swap(pendingFunctors_)], then the functors. *)
Definition doPendingFunctors (s : t) : res t := run_functors (pendingFunctors_ s) (set_queue (counter s) [] s).

(** One turn of the [while] of [loop()]. *)
Definition turn (ready : option (list (Z * Z))) (s : t) : res t :=
  match poll_loop ready (set_active [] s) with
  | UB => UB
  | Ok s1 =>
      match dispatch (activeChannels_ s1) s1 with
      | UB => UB
      | Ok s2 => doPendingFunctors s2
      end
  end.

(** Turns of a loop; [epoll_wait] only reports what is registered. *)
Inductive turns : t -> nat -> res t -> Prop :=
  | turns_none s : turns s 0 (Ok s)
  | turns_more s n ready s1 r :
      (forall evs, ready = Some evs -> Forall (fun x => is_Some (interest (kern s) !! fst x)) evs) ->
      turn ready s = Ok s1 -> turns s1 n r -> turns s (S n) r
  | turns_ub s n ready :
      (forall evs, ready = Some evs -> Forall (fun x => is_Some (interest (kern s) !! fst x)) evs) ->
      turn ready s = UB -> turns s (S n) UB.

End Scripts.

(** The constructor, on a new epoll instance and with the eventfd the kernel has
    given ([std::abort()] when it has not), and the destructor. *)
Definition construct (wakeupFd : Z) (p : ptr) (k : K) : option (res t) :=
  if wakeupFd <? 0 then None
  else Some (call_channel p EnableReading
               (mkReactor {[p := make wakeupFd]} init k ∅ wakeupFd p 0 [] [] 0 0)).

Definition destroy (s : t) : res t :=
  match call_channel (wakeupChannel_ s) DisableAll s with
  | UB => UB
  | Ok s1 => call_channel (wakeupChannel_ s1) Remove s1
  end.

(** ** The invariant *)

Definition owns (fd : Z) (s : t) : Prop := exists p c, heap s !! p = Some c /\ fd_ c = fd.

(** Every live channel agrees with the poller and the kernel about its
    descriptor, which is its alone; the kernel points to live channels; and while
    the loop is [up] the wake-up channel is watched. *)
Record RInv (up : bool) (s : t) : Prop := mkRInv {
  R_live : forall p c, heap s !! p = Some c ->
    exists w, agrees (fd_ c) c (poller_ s) (kern s) w /\ (snd w = true -> data s !! fd_ c = Some p);
  R_own : forall p c p' c', heap s !! p = Some c -> heap s !! p' = Some c' -> fd_ c = fd_ c' -> p = p';
  R_reg : forall fd, is_Some (interest (kern s) !! fd) -> exists p c, data s !! fd = Some p /\ heap s !! p = Some c /\ fd_ c = fd;
  R_idle : forall fd, ~ owns fd s -> fd ∉ channels_ (poller_ s);
  R_wake : up = true -> exists c, heap s !! wakeupChannel_ s = Some c /\ fd_ c = wakeupFd_ s /\ events_ c = reading 0 /\ index_ c = kAdded;
  R_errors : errors s = 0%nat;
}.

Definition same_channel (c c' : Channel.t) : Prop := fd_ c' = fd_ c /\ events_ c' = events_ c /\ index_ c' = index_ c.

Lemma RInv_revents up p c ev s :
  RInv up s -> heap s !! p = Some c -> RInv up (set_heap (<[p := setRevents ev c]> (heap s)) s).
Proof.
  intros [Hl Ho Hr Hi Hw He] Hp. set (h := <[p := _]> _).
  assert (forall q x, h !! q = Some x -> exists y, heap s !! q = Some y /\ same_channel y x) as Hb.
  { intros q x [[<- <-]|[_ Hx]]%lookup_insert_Some; [exists c; by repeat split|exists x; by repeat split]. }
  assert (forall q y, heap s !! q = Some y -> exists x, h !! q = Some x /\ same_channel y x) as Hf.
  { intros q y Hy. unfold h. destruct (decide (p = q)) as [<-|Hne].
    - rewrite Hp in Hy. injection Hy as <-. eexists. split; [apply lookup_insert_eq|by repeat split].
    - exists y. split; [by rewrite lookup_insert_ne|by repeat split]. }
  split; cbn [set_heap heap poller_ kern data wakeupChannel_ wakeupFd_ errors].
  - intros q x (y & Hy & E1 & E2 & E3)%Hb. destruct (Hl q y Hy) as (w & Ha & Hd). exists w. rewrite E1. split; [|exact Hd].
    unfold agrees in *. by rewrite E1, E2, E3.
  - intros q x q' x' (y & Hy & E1 & _)%Hb (y' & Hy' & E1' & _)%Hb. rewrite E1, E1'. by apply Ho.
  - intros fd (q & y & Hd & Hy & Hfd)%Hr. destruct (Hf q y Hy) as (x & Hx & E1 & _). exists q, x. by rewrite E1.
  - intros fd Hn. apply Hi. intros (q & y & Hy & Hfd). apply Hn. destruct (Hf q y Hy) as (x & Hx & E1 & _).
    exists q, x. split; [exact Hx|]. by rewrite E1.
  - intros Hup. destruct (Hw Hup) as (y & Hy & H1 & H2 & H3). destruct (Hf _ y Hy) as (x & Hx & E1 & E2 & E3). exists x.
    rewrite E1, E2, E3. done.
  - exact He.
Qed.

Lemma RInv_new up p fd s :
  RInv up s -> legal true (CNew p fd) s = true -> RInv up (set_heap (<[p := make fd]> (heap s)) s).
Proof.
  intros [Hl Ho Hr Hi Hw He] [Hp Hfd]%andb_true_iff. apply bool_decide_eq_true in Hp, Hfd.
  assert (~ owns fd s) as Hno by (intros (q & c & Hq & Hc); by apply (Hfd q c Hq)).
  assert (interest (kern s) !! fd = None) as Hint.
  { apply eq_None_not_Some. intros (q & c & _ & Hq & Hc)%Hr. apply Hno. by exists q, c. }
  split; cbn [set_heap heap poller_ kern data wakeupChannel_ wakeupFd_ errors].
  - intros q c [[<- <-]|[_ Hq]]%lookup_insert_Some; [|by apply Hl]. exists (0, false). split; [|done].
    unfold agrees. cbn. split_and!; try done; [by right; split; [left|]|]. split; [intros H; by destruct (Hi fd Hno)|done].
  - intros q c q' c' [[<- <-]|[_ Hq]]%lookup_insert_Some [[<- <-]|[_ Hq']]%lookup_insert_Some Hf; [done| | |by eapply Ho].
    + destruct Hno. exists q', c'. by rewrite <- Hf.
    + destruct Hno. by exists q, c.
  - intros f (q & c & Hd & Hq & Hc)%Hr. exists q, c. rewrite lookup_insert_ne by congruence. done.
  - intros f Hn. apply Hi. intros (q & c & Hq & Hc). apply Hn. exists q, c. cbn [set_heap heap].
    rewrite lookup_insert_ne by congruence. done.
  - intros Hup. destruct (Hw Hup) as (c & Hc & Hx). exists c. rewrite lookup_insert_ne by congruence. done.
  - exact He.
Qed.

Lemma RInv_delete up p s :
  RInv up s -> legal true (CDelete p) s = true -> RInv up (set_heap (delete p (heap s)) s).
Proof.
  intros [Hl Ho Hr Hi Hw He] Hx. cbn [legal] in Hx. apply andb_true_iff in Hx as [Hne Hx]. apply negb_true_iff, Z.eqb_neq in Hne.
  destruct (heap s !! p) as [c|] eqn:Hp; [|done]. apply Z.eqb_eq in Hx. destruct (Hl p c Hp) as (w & (_ & _ & Hint & Hidx & Hch) & _).
  assert (snd w = false) as Hw0 by (destruct Hidx as [[H _]|[_ H]]; [rewrite Hx in H; discriminate H|exact H]).
  unfold registered in Hint. rewrite Hw0 in Hint.
  split; cbn [set_heap heap poller_ kern data wakeupChannel_ wakeupFd_ errors].
  - intros q x [_ Hq]%lookup_delete_Some. by apply Hl.
  - intros q x q' x' [_ Hq]%lookup_delete_Some [_ Hq']%lookup_delete_Some. by eapply Ho.
  - intros fd Hs. destruct (Hr fd Hs) as (q & x & Hd & Hq & Hf). exists q, x. split; [exact Hd|]. split; [|exact Hf].
    rewrite lookup_delete_ne; [exact Hq|]. intros <-. rewrite Hp in Hq. injection Hq as <-. rewrite Hf in Hint. rewrite Hint in Hs. by destruct Hs.
  - intros fd Hn. destruct (decide (fd = fd_ c)) as [->|Hfd]; [by rewrite Hch, Hx; intros H; destruct H|].
    apply Hi. intros (q & x & Hq & Hf). apply Hn. exists q, x. cbn [set_heap heap]. split; [|exact Hf].
    rewrite lookup_delete_ne; [exact Hq|]. intros <-. rewrite Hp in Hq. congruence.
  - intros Hup. destruct (Hw Hup) as (x & Hx' & Hr'). exists x. rewrite lookup_delete_ne by congruence. done.
  - exact He.
Qed.

(** The pointer the kernel keeps, after a call. *)
Lemma note_ptr_spec p o c po k w d :
  agrees (fd_ c) c po k w -> (snd w = true -> d !! fd_ c = Some p) ->
  (snd (spec_call w o) = true -> note_ptr o p c (fst (spec_call w o)) k d !! fd_ c = Some p) /\
  (forall fd, fd <> fd_ c -> note_ptr o p c (fst (spec_call w o)) k d !! fd = d !! fd).
Proof.
  intros (_ & _ & Hint & Hidx & _) Hd. destruct w as [ev reg]. unfold registered in Hint. cbn [fst snd] in *.
  assert (forall ev', (snd (spec_update ev' reg) = true ->
            (if (index_ c =? kNew) || (index_ c =? kDeleted) then
               (if decide (interest k !! fd_ c = None) then <[fd_ c := p]> d else d)
             else if ev' =? 0 then delete (fd_ c) d else <[fd_ c := p]> d) !! fd_ c = Some p) /\
          (forall fd, fd <> fd_ c ->
            (if (index_ c =? kNew) || (index_ c =? kDeleted) then
               (if decide (interest k !! fd_ c = None) then <[fd_ c := p]> d else d)
             else if ev' =? 0 then delete (fd_ c) d else <[fd_ c := p]> d) !! fd = d !! fd)) as Hu.
  { intros ev'. unfold spec_update. cbn [snd]. destruct Hidx as [[-> ->]|[Hi ->]].
    - change ((kAdded =? kNew) || (kAdded =? kDeleted)) with false. cbn [andb]. destruct (ev' =? 0); split; try done.
      + intros fd Hne. by rewrite lookup_delete_ne.
      + intros _. apply lookup_insert_eq.
      + intros fd Hne. by rewrite lookup_insert_ne.
    - assert ((index_ c =? kNew) || (index_ c =? kDeleted) = true) as -> by (by destruct Hi as [-> | ->]).
      rewrite decide_True by exact Hint. split; [intros _; apply lookup_insert_eq|]. intros fd Hne. by rewrite lookup_insert_ne. }
  destruct o; cbn [spec_call note_ptr]; [apply Hu..|]. cbn [snd]. split; [done|]. intros fd Hne.
  destruct (index_ c =? kAdded); [by rewrite lookup_delete_ne|done].
Qed.

Lemma RInv_call up p o c s :
  RInv up s -> heap s !! p = Some c -> (up = true -> p <> wakeupChannel_ s) ->
  exists s', call_channel p o s = Ok s' /\ RInv up s' /\ wakeupChannel_ s' = wakeupChannel_ s /\ wakeupFd_ s' = wakeupFd_ s /\
    dom (heap s') = dom (heap s) /\ activeChannels_ s' = activeChannels_ s /\
    exists w c', agrees (fd_ c) c (poller_ s) (kern s) w /\ heap s' !! p = Some c' /\
      agrees (fd_ c) c' (poller_ s') (kern s') (spec_call w o).
Proof.
  intros [Hl Ho Hr Hi Hw He] Hp Hne. destruct (Hl p c Hp) as (w & Ha & Hd).
  destruct (call_spec (fd_ c) o c _ _ w Ha) as (c' & po & k' & Hcall & Ha' & Hoth). pose proof Ha' as (Hfd & Hev & Hint & _ & Hch).
  unfold call_channel, deref. rewrite Hp, Hcall, Hev. destruct (note_ptr_spec p o c _ _ w _ Ha Hd) as [Hn1 Hn2].
  set (d := note_ptr _ _ _ _ _ _) in *. eexists. split; [reflexivity|].
  assert (forall q x, q <> p -> heap s !! q = Some x -> fd_ x <> fd_ c) as Hdiff by (intros q x Hq Hx E; by destruct Hq; eapply Ho).
  split; [|split_and!; try done; [cbn; apply dom_insert_lookup_L; by eexists|exists w, c'; split; [exact Ha|]; split; [apply lookup_insert_eq|exact Ha']]].
  split; cbn [heap poller_ kern data wakeupChannel_ wakeupFd_ errors].
  - intros q x [[<- <-]|[Hq Hx]]%lookup_insert_Some.
    + exists (spec_call w o). rewrite Hfd. by split.
    + destruct (Hl q x Hx) as (v & (V1 & V2 & V3 & V4 & V5) & Hdv). exists v. destruct (Hoth (fd_ x)) as [O1 O2]; [by eapply Hdiff|].
      split; [unfold agrees; by rewrite O1, O2|]. rewrite Hn2 by (by eapply Hdiff). exact Hdv.
  - intros q x q' x' [[<- <-]|[Hq Hx]]%lookup_insert_Some [[<- <-]|[Hq' Hx']]%lookup_insert_Some; rewrite ?Hfd; [done| | |by eapply Ho].
    + intros E. by destruct (Hdiff q' x').
    + intros E. by destruct (Hdiff q x).
  - intros fd Hs. destruct (decide (fd = fd_ c)) as [->|Hf].
    + exists p, c'. rewrite Hint in Hs. unfold registered in Hs. split_and!; [|apply lookup_insert_eq|done]. apply Hn1.
      destruct (snd (spec_call w o)); [done|by destruct Hs].
    + destruct (Hoth fd Hf) as [O1 _]. rewrite O1 in Hs. destruct (Hr fd Hs) as (q & x & Hq & Hx & Hfx). exists q, x. rewrite Hn2 by done.
      split_and!; [done| |done]. rewrite lookup_insert_ne; [done|]. intros <-. congruence.
  - intros fd Hn. destruct (decide (fd = fd_ c)) as [->|Hf].
    + destruct Hn. exists p, c'. split; [apply lookup_insert_eq|exact Hfd].
    + destruct (Hoth fd Hf) as [_ O2]. rewrite O2. apply Hi. intros (q & x & Hx & Hfx). apply Hn. exists q, x. cbn [heap].
      split; [|exact Hfx]. rewrite lookup_insert_ne; [done|]. intros <-. congruence.
  - intros Hup. destruct (Hw Hup) as (x & Hx & Hrest). exists x. rewrite lookup_insert_ne by (by apply Hne). done.
  - lia.
Qed.

(** ** Turns *)

(** The active channels that were live still are. *)
Definition grows (s s' : t) : Prop :=
  activeChannels_ s' = activeChannels_ s /\
  forall p, p ∈ activeChannels_ s -> is_Some (heap s !! p) -> is_Some (heap s' !! p).

Lemma grows_trans s1 s2 s3 : grows s1 s2 -> grows s2 s3 -> grows s1 s3.
Proof. intros [E1 H1] [E2 H2]. split; [congruence|]. intros p Hp Hs. apply H2; [by rewrite E1|by apply H1]. Qed.

Lemma exec_legal functor x s :
  RInv true s -> legal functor x s = true ->
  exists s', exec x s = Ok s' /\ RInv true s' /\ (functor = false -> grows s s').
Proof.
  intros HI Hx. destruct x as [p fd|p o|p|f]; cbn [exec].
  - pose proof (RInv_new _ _ _ _ HI Hx) as HI'. cbn [legal] in Hx. apply andb_true_iff in Hx as [Hp%bool_decide_eq_true _]. rewrite Hp.
    eexists. split; [reflexivity|]. split; [exact HI'|]. intros _. split; [done|]. intros q _ Hq. cbn [set_heap heap].
    apply lookup_insert_is_Some'. by right.
  - cbn [legal] in Hx. apply andb_true_iff in Hx as [[c Hp]%bool_decide_eq_true Hne%negb_true_iff%Z.eqb_neq].
    destruct (RInv_call true p o c s HI Hp ltac:(done)) as (s' & Hs' & HI' & _ & _ & Hd & Hact & _). exists s'. split_and!; [done..|].
    intros _. split; [exact Hact|]. intros q _. by rewrite <- !elem_of_dom, Hd.
  - cbn [legal] in Hx. rewrite <- andb_assoc in Hx. apply andb_true_iff in Hx as [Hact Hx].
    pose proof (RInv_delete _ p _ HI Hx) as HI'. unfold deref. destruct (heap s !! p); [|by rewrite andb_false_r in Hx].
    eexists. split; [reflexivity|]. split; [exact HI'|]. intros ->. apply bool_decide_eq_true in Hact. split; [done|].
    intros q Hq Hs. cbn [set_heap heap]. rewrite lookup_delete_ne; [exact Hs|]. by intros <-.
  - eexists. split; [reflexivity|]. split; [by destruct HI|]. done.
Qed.

Section Safe.
Context (script : nat -> list cmd).

Lemma issue_legal functor xs s :
  RInv true s -> exists s', issue legal functor xs s = Ok s' /\ RInv true s' /\ (functor = false -> grows s s').
Proof.
  revert s. induction xs as [|x xs IH]; intros s HI; cbn [issue]; [exists s; by split_and!|].
  destruct (legal functor x s) eqn:Hx; [|by apply IH]. destruct (exec_legal functor x s HI Hx) as (s1 & -> & HI1 & G1).
  destruct (IH s1 HI1) as (s2 & -> & HI2 & G2). exists s2. split_and!; [done..|]. intros Hf. eapply grows_trans; [by apply G1|by apply G2].
Qed.

Lemma callback_legal p cb s :
  RInv true s -> exists s', callback_of legal script p cb s = Ok s' /\ RInv true s' /\ grows s s'.
Proof.
  intros HI. unfold callback_of. destruct (p =? _).
  - eexists. split; [reflexivity|]. destruct cb; (split; [by destruct HI|done]).
  - destruct (issue_legal false (script (calls s)) (count_call s)) as (s' & Hs & HI' & G); [by destruct HI|].
    exists s'. split_and!; [done..|]. by apply G.
Qed.

Lemma test_event_legal p mask cb s :
  RInv true s -> is_Some (heap s !! p) ->
  exists s', test_event legal script p mask cb s = Ok s' /\ RInv true s' /\ grows s s'.
Proof.
  intros HI [c Hp]. unfold test_event, deref. rewrite Hp. destruct (has _ _); [by apply callback_legal|]. exists s. by split_and!.
Qed.

Lemma handleEvent_legal p s :
  RInv true s -> p ∈ activeChannels_ s -> is_Some (heap s !! p) ->
  exists s', handleEvent legal script p s = Ok s' /\ RInv true s' /\ grows s s'.
Proof.
  intros HI Ha Hp. pose proof Hp as [c Hc]. unfold handleEvent, deref. rewrite Hc. destruct (_ && _); [by apply callback_legal|].
  destruct (test_event_legal p EPOLLERR CbError s HI Hp) as (s1 & -> & HI1 & G1). pose proof (proj2 G1 p Ha Hp) as Hp1.
  destruct (test_event_legal p (Z.lor EPOLLIN (Z.lor EPOLLPRI EPOLLRDHUP)) CbRead s1 HI1 Hp1) as (s2 & -> & HI2 & G2).
  pose proof (grows_trans _ _ _ G1 G2) as G12.
  destruct (test_event_legal p EPOLLOUT CbWrite s2 HI2) as (s3 & -> & HI3 & G3); [by apply G12|].
  exists s3. split_and!; [done..|]. by eapply grows_trans.
Qed.

Lemma dispatch_legal l s :
  RInv true s -> (forall p, p ∈ l -> p ∈ activeChannels_ s /\ is_Some (heap s !! p)) ->
  exists s', dispatch legal script l s = Ok s' /\ RInv true s'.
Proof.
  revert s. induction l as [|p l IH]; intros s HI Hl; cbn [dispatch]; [by exists s|].
  destruct (Hl p (list_elem_of_here _ _)) as [Ha Hp]. destruct (handleEvent_legal p s HI Ha Hp) as (s1 & -> & HI1 & Ea & G1).
  apply IH; [exact HI1|]. intros q Hq. destruct (Hl q) as [Hqa Hqs]; [by right|]. rewrite Ea. auto.
Qed.

Lemma run_functors_legal l s : RInv true s -> exists s', run_functors legal script l s = Ok s' /\ RInv true s'.
Proof.
  revert s. induction l as [|f l IH]; intros s HI; cbn [run_functors]; [by exists s|].
  destruct (issue_legal true (script (calls s)) (count_call s)) as (s1 & -> & HI1 & _); [by destruct HI|]. by apply IH.
Qed.

Lemma fill_legal evs s :
  RInv true s -> Forall (fun x => is_Some (interest (kern s) !! fst x)) evs ->
  (forall p, p ∈ activeChannels_ s -> is_Some (heap s !! p)) ->
  exists s', fill evs s = Ok s' /\ RInv true s' /\ (forall p, p ∈ activeChannels_ s' -> is_Some (heap s' !! p)).
Proof.
  revert s. induction evs as [|[fd ev] evs IH]; intros s HI Hev Ha; cbn [fill]; [by exists s|].
  apply Forall_cons in Hev as [Hfd Hev]. destruct (R_reg _ s HI fd Hfd) as (p & c & -> & Hp & _). unfold deref. rewrite Hp.
  pose proof (RInv_revents true p c ev s HI Hp) as HI'. apply IH; [by destruct HI'|exact Hev|].
  cbn [set_active set_heap activeChannels_ heap]. intros q [Hq| ->%list_elem_of_singleton]%elem_of_app; apply lookup_insert_is_Some';
    [right; by apply Ha|by left].
Qed.

Lemma turn_legal ready s :
  RInv true s -> (forall evs, ready = Some evs -> Forall (fun x => is_Some (interest (kern s) !! fst x)) evs) ->
  exists s', turn legal script ready s = Ok s' /\ RInv true s'.
Proof.
  intros HI Hr. unfold turn.
  assert (exists s1, poll_loop ready (set_active [] s) = Ok s1 /\ RInv true s1 /\
            forall p, p ∈ activeChannels_ s1 -> is_Some (heap s1 !! p)) as (s1 & -> & HI1 & Ha).
  { destruct ready as [evs|]; cbn [poll_loop].
    - destruct (fill_legal evs (set_active [] s)) as (s1 & -> & HI1 & Ha); [by destruct HI|by apply Hr|by intros p []%not_elem_of_nil|].
      eexists. split; [reflexivity|]. destruct (_ =? _)%nat; [|done]. split; [by destruct HI1|done].
    - eexists. split; [reflexivity|]. split; [by destruct HI|by intros p []%not_elem_of_nil]. }
  destruct (dispatch_legal (activeChannels_ s1) s1 HI1) as (s2 & -> & HI2); [auto|]. apply run_functors_legal. by destruct HI2.
Qed.

Lemma turns_legal s n r : turns legal script s n r -> RInv true s -> exists s', r = Ok s' /\ RInv true s'.
Proof.
  induction 1 as [s|s n ready s1 r Hr Ht _ IH|s n ready Hr Ht]; intros HI; [by eexists| |].
  - destruct (turn_legal ready s HI Hr) as (s1' & Ht' & HI1). rewrite Ht in Ht'. injection Ht' as <-. by apply IH.
  - destruct (turn_legal ready s HI Hr) as (s1' & Ht' & _). congruence.
Qed.

End Safe.

(** ** Construction and destruction *)

Lemma construct_inv fd p k :
  0 <= fd -> interest k = ∅ -> exists s, construct fd p k = Some (Ok s) /\ RInv true s.
Proof.
  intros Hfd Hk. unfold construct. rewrite (proj2 (Z.ltb_ge fd 0) Hfd).
  set (s0 := mkReactor _ _ _ _ _ _ _ _ _ _ _).
  assert (RInv false s0) as HI0.
  { split; cbn [s0 heap poller_ kern data errors init channels_]; try done.
    - intros q c [<- <-]%lookup_singleton_Some. exists (0, false). split; [|done]. unfold agrees. rewrite Hk. cbn.
      split_and!; try done. by right; split; [left|].
    - intros q c q' c' [<- <-]%lookup_singleton_Some [<- <-]%lookup_singleton_Some. done.
    - intros f. rewrite Hk. intros [? Hx]. by rewrite lookup_empty in Hx. }
  assert (heap s0 !! p = Some (make fd)) as Hp by apply lookup_singleton_eq.
  destruct (RInv_call false p EnableReading _ s0 HI0 Hp ltac:(done)) as (s & -> & HI & Hwc & Hwf & _ & _ & w & c' & Ha & Hc' & Ha').
  exists s. split; [reflexivity|]. destruct HI as [Hl Ho Hr Hi _ He]. split; try done. intros _. exists c'. rewrite Hwc, Hwf.
  destruct w as [ev reg], Ha as (_ & Hev & _ & Hidx & _). cbn in Hev, Hidx. subst ev.
  assert (reg = false) as -> by (by destruct Hidx as [[? _]|[_ ?]]). destruct Ha' as (Hf & He' & _ & [[Hx _]|[_ [=]]] & _). by split_and!.
Qed.

(** The destructor withdraws the wake-up descriptor. *)
Lemma destroy_inv s :
  RInv true s -> exists s', destroy s = Ok s' /\ RInv false s' /\ interest (kern s') !! wakeupFd_ s = None.
Proof.
  intros HI. destruct (R_wake true s HI eq_refl) as (c & Hc & Hfd & Hev & Hidx).
  assert (RInv false s) as HI0 by (by destruct HI). unfold destroy.
  destruct (RInv_call false _ DisableAll c s HI0 Hc ltac:(done)) as (s1 & -> & HI1 & Hw1 & _ & _ & _ & w & c1 & Ha & Hc1 & Ha1).
  rewrite <- Hw1 in Hc1.
  destruct (RInv_call false _ Remove c1 s1 HI1 Hc1 ltac:(done)) as (s2 & -> & HI2 & _ & _ & _ & _ & w2 & c2 & Ha2 & _ & Ha3).
  exists s2. split_and!; [done..|]. destruct Ha1 as (Hf1 & _), Ha3 as (_ & _ & Hint & _). rewrite Hf1, Hfd in Hint. rewrite Hint.
  by destruct w2.
Qed.

(** A loop that is constructed, gets channels before it runs ([setup]; the
    acceptor and the timers of the server are made there), and makes [n] turns. *)
Definition started (rule : bool -> cmd -> t -> bool) (setup : list cmd) (script : nat -> list cmd)
    (fd : Z) (p : ptr) (k : K) (n : nat) (r : res t) : Prop :=
  exists s s1, construct fd p k = Some (Ok s) /\ issue rule true setup s = Ok s1 /\ turns rule script s1 n r.

(** C35: The loop never follows a dangling pointer. Whatever the owners of channels
    do in callbacks and functors within the rules (use live channels, remove
    before destroying, destroy active channels only in functors), and whatever registered
    descriptors [epoll_wait] reports, every turn of the loop is defined: the
    addresses found in the kernel and those in [activeChannels_] are those of
    live channels, also after the callbacks of the same turn; no [epoll_ctl]
    fails; the eventfd stays registered for reading, so that a wake-up ends
    [epoll_wait]; and the destructor withdraws it. *)
Theorem loop_never_dangles (setup : list cmd) (script : nat -> list cmd) (fd : Z) (p : ptr) (k : K) n r
  (Hfd : 0 <= fd) (Hk : interest k = ∅) (Hrun : started legal setup script fd p k n r) :
  exists s, r = Ok s /\ errors s = 0%nat /\ interest (kern s) !! wakeupFd_ s = Some (reading 0) /\
    (forall f, is_Some (interest (kern s) !! f) -> exists q c, data s !! f = Some q /\ heap s !! q = Some c /\ fd_ c = f) /\
    exists s', destroy s = Ok s' /\ interest (kern s') !! wakeupFd_ s = None.
Proof.
  destruct Hrun as (s0 & s1 & Hs0 & Hs1 & Hturns). destruct (construct_inv fd p k Hfd Hk) as (s0' & Hs0' & HI0).
  assert (s0' = s0) as -> by congruence. destruct (issue_legal true setup s0 HI0) as (s1' & Hs1' & HI1 & _).
  assert (s1' = s1) as -> by congruence. destruct (turns_legal script _ _ _ Hturns HI1) as (s & -> & HI).
  destruct (destroy_inv s HI) as (s' & Hs' & _ & Hgone). exists s. split; [reflexivity|]. split; [apply HI|].
  split; [|split; [apply HI|by exists s']]. destruct (R_wake _ s HI eq_refl) as (c & Hc & Hf & Hev & Hidx).
  destruct (R_live _ s HI _ _ Hc) as (w & (_ & Hw & Hint & [[_ Hr]|[[Hx|Hx] _]] & _) & _); [|by rewrite Hidx in Hx..].
  rewrite Hf in Hint. rewrite Hint. unfold registered. by rewrite Hr, <- Hw, Hev.
Qed.

End Loop.

(** Two timers, at addresses 10 and 20 with descriptors 5 and 6. *)
Definition two_timers : list cmd := [CNew 10 5; CCall 10 EnableReading; CNew 20 6; CCall 20 EnableReading].

(** Both fire in the same turn. The callback of the first queues a functor that
    destroys the second, as [Room::endBattle] does with its ticker. *)
Definition queued_reset (n : nat) : list cmd :=
  match n with
  | 0%nat => [CQueue 7]
  | 2%nat => [CCall 20 DisableAll; CCall 20 Remove; CDelete 20]
  | _ => []
  end.

(** The same with the destruction in the callback. *)
Definition reset_at_once (n : nat) : list cmd :=
  match n with
  | 0%nat => [CCall 20 DisableAll; CCall 20 Remove; CDelete 20]
  | _ => []
  end.

Definition both_fire : option (list (Z * Z)) := Some [(5, EPOLLIN); (6, EPOLLIN)].

(** The loop with the two timers before its first turn. *)
Definition ready_loop : res (t (K := gmap Z Z)) :=
  match construct 3 1 (∅ : gmap Z Z) with Some (Ok s) => issue legal true two_timers s | _ => UB end.

Lemma ready_loop_Ok : exists s s1, construct 3 1 (∅ : gmap Z Z) = Some (Ok s) /\ issue legal true two_timers s = Ok s1 /\ ready_loop = Ok s1.
Proof.
  unfold ready_loop. destruct (construct_inv 3 1 (∅ : gmap Z Z) ltac:(lia) interest_empty) as (s & Hs & HI). rewrite Hs.
  destruct (issue_legal true two_timers s HI) as (s1 & Hs1 & _). exists s, s1. by rewrite Hs1.
Qed.

Lemma loop_never_dangles_witness :
  exists s1 s2 s, ready_loop = Ok s1 /\ turn legal queued_reset both_fire s1 = Ok s2 /\ heap s2 !! 20 = None /\
    turn legal queued_reset (Some [(5, EPOLLIN)]) s2 = Ok s /\ interest (kern s) !! 3 = Some (reading 0).
Proof.
  destruct ready_loop_Ok as (s0 & s1 & Hs0 & Hs1 & Hr). exists s1.
  pose (f := fun r : res (t (K := gmap Z Z)) => match r with
     | Ok s1 => match turn legal queued_reset both_fire s1 with
        | Ok s2 => match turn legal queued_reset (Some [(5, EPOLLIN)]) s2 with
           | Ok s => bool_decide (heap s2 !! 20 = None) && bool_decide (is_Some (interest (kern s1) !! 5)) &&
                     bool_decide (is_Some (interest (kern s1) !! 6)) && bool_decide (is_Some (interest (kern s2) !! 5)) &&
                     (wakeupFd_ s =? 3)
           | UB => false end
        | UB => false end
     | UB => false end).
  assert (f ready_loop = true) as Hf by (vm_compute; reflexivity). rewrite Hr in Hf. unfold f in Hf.
  destruct (turn legal queued_reset both_fire s1) as [s2|] eqn:E1; [|discriminate Hf].
  destruct (turn legal queued_reset (Some [(5, EPOLLIN)]) s2) as [s|] eqn:E2; [|discriminate Hf].
  rewrite !andb_true_iff, !bool_decide_eq_true in Hf. destruct Hf as [[[[Hh H5] H6] H5'] Hw]. apply Z.eqb_eq in Hw.
  exists s2, s. split_and!; [exact Hr|reflexivity|exact Hh|exact E2|].
  destruct (loop_never_dangles two_timers queued_reset 3 1 (∅ : gmap Z Z) 2 (Ok s) ltac:(lia) interest_empty)
    as (s' & Hs' & _ & Hint & _); [|injection Hs' as <-; rewrite Hw in Hint; exact Hint].
  exists s0, s1. split_and!; [exact Hs0|exact Hs1|]. eapply turns_more; [|exact E1|].
  { intros evs [= <-]. repeat constructor; assumption. }
  eapply turns_more; [|exact E2|apply turns_none]. intros evs [= <-]. repeat constructor; assumption.
Defined.

(** Why destruction is left to functors: with the ticker reset inside the
    callback, the loop calls [handleEvent] through the address of the destroyed
    channel when both were reported in the same turn. *)
Theorem reset_in_callback_dangles :
  exists s1, ready_loop = Ok s1 /\ turn careless reset_at_once both_fire s1 = UB.
Proof.
  destruct ready_loop_Ok as (s0 & s1 & Hs0 & Hs1 & Hr). exists s1. split; [exact Hr|].
  assert (match ready_loop with Ok s1 => match turn careless reset_at_once both_fire s1 with UB => true | Ok _ => false end | UB => false end = true)
    as Hf by (vm_compute; reflexivity).
  rewrite Hr in Hf. by destruct (turn careless reset_at_once both_fire s1).
Qed.

End Reactor.
