(* ===== verification/PeriodicTimer.v ===== *)
(** * Periodic timers ([src/src/timer/PeriodicTimer.h], [PeriodicTimer.cc])

    A [PeriodicTimer] is a [timerfd] with a channel of its own: the constructor
    arms the descriptor and registers the channel with the loop, the destructor
    withdraws the channel, destroys it and closes the descriptor. When the
    descriptor is readable the loop calls [handleRead], whose [read] returns how
    often the period has elapsed since the last one.

    The kernel keeps a raw pointer to the channel of every descriptor it
    watches ([epoll_event::data.ptr]), and the loop dereferences it: a channel
    must not be destroyed while its descriptor is watched. *)

From stdpp Require Import base gmap sets list.
From Stdlib Require Import ZArith Lia.
From S2P Require Import Prelude Poller.

Local Open Scope Z_scope.

Module PeriodicTimer.
Import Channel EPollPoller.

(** The [itimerspec] of the constructor: seconds and nanoseconds of the period;
    the first expiration comes after one period too. *)
Definition interval (intervalMs : Z) : Z * Z := (intervalMs / 1000, u64 (intervalMs mod 1000 * 1000000)).

Record t : Type := mk {
  timerfd_ : Z;
  it_interval : Z * Z;
  it_value : Z * Z;
}.

(** [handleRead]: the number of elapsed periods is read and not used; the
    callback runs once. *)
Definition handleRead {A} (cb : A -> A) (expirations : Z) (s : A) : A := cb s.

(** The callbacks of a run, one for each time the loop found the descriptor
    readable. *)
Definition fire {A} (cb : A -> A) (reads : list Z) (s : A) : A := foldl (fun s n => handleRead cb n s) s reads.

Section Loop.
Context {K : Type} {EK : Epoll K}.

(** The constructor, given the answer of [timerfd_create]; [None] is
    [std::abort()]. *)
Definition PeriodicTimer (fd intervalMs : Z) (l : loop (K := K)) : option (t * loop) :=
  if fd <? 0 then None
  else Some (mk fd (interval intervalMs) (interval intervalMs), step fd EnableReading l).

(** The destruction of a channel object. *)
Definition drop (fd : Z) (l : loop (K := K)) : loop := mkLoop (delete fd (chans l)) (poller l) (kernel l) (failures l).

(** The destructor: [disableAll], [removeChannel], [close]; the member
    [channel_] is destroyed afterwards. *)
Definition destroy (x : t) (l : loop (K := K)) : loop :=
  drop (timerfd_ x) (step (timerfd_ x) Remove (step (timerfd_ x) DisableAll l)).

(** ** The timers of one loop

    A loop with its timers by descriptor, among channels of other owners. *)

Inductive event : Type :=
  | ECreate (fd intervalMs : Z)
  | EDestroy (fd : Z)
  | EOther (fd : Z) (o : op).

(** [timerfd_create] returns a descriptor that is not open, hence one without a
    channel; the owner of a timer's channel is the timer. *)
Definition exec (e : event) (s : gmap Z t * loop (K := K)) : option (gmap Z t * loop) :=
  let (ts, l) := s in
  match e with
  | ECreate fd ms =>
      if decide (chans l !! fd = None) then
        match PeriodicTimer fd ms l with
        | Some (x, l') => Some (<[fd := x]> ts, l')
        | None => None
        end
      else None
  | EDestroy fd =>
      match ts !! fd with
      | Some x => Some (delete fd ts, destroy x l)
      | None => None
      end
  | EOther fd o => if decide (ts !! fd = None) then Some (ts, step fd o l) else None
  end.

Fixpoint run (es : list event) (s : gmap Z t * loop (K := K)) : option (gmap Z t * loop) :=
  match es with
  | [] => Some s
  | e :: es' => match exec e s with Some s' => run es' s' | None => None end
  end.

(** ** The invariant *)

Context {EL : EpollLaws K}.

Definition chan_of (l : loop (K := K)) (fd : Z) : Channel.t := default (make fd) (chans l !! fd).

(** Every descriptor agrees with what its owner wants ([w]), that of a timer is
    watched for reading, and what is watched has a channel. *)
Record Inv (ts : gmap Z t) (l : loop (K := K)) (w : Z -> Z * bool) : Prop := mkInv {
  inv_fail : failures l = 0%nat;
  inv_agrees : forall fd, agrees fd (chan_of l fd) (poller l) (kernel l) (w fd);
  inv_timer : forall fd x, ts !! fd = Some x -> timerfd_ x = fd /\ w fd = (reading 0, true);
  inv_live : forall fd, chans l !! fd = None -> w fd = (0, false);
}.

Lemma Inv_step ts l w fd o w' :
  Inv ts l w -> w' = spec_call (w fd) o -> (ts !! fd = None \/ w' = (reading 0, true)) ->
  Inv ts (step fd o l) (fun fd' => if decide (fd' = fd) then w' else w fd').
Proof.
  intros [Hf Ha Ht Hl] -> Hw. unfold step.
  destruct (call_spec fd o _ _ _ _ (Ha fd)) as (c' & p' & k' & E & Hc & Hoth). unfold chan_of in E. rewrite E.
  constructor; simpl; [lia| | |].
  - intros fd'. unfold chan_of. simpl. case_decide as Hd.
    + subst fd'. by rewrite lookup_insert_eq.
    + rewrite lookup_insert_ne by congruence. destruct (Hoth fd' Hd) as [Hi Hch], (Ha fd') as (H1 & H2 & H3 & H4 & H5).
      split_and!; [exact H1|exact H2|by rewrite Hi|exact H4|by rewrite Hch].
  - intros fd' x Hx. case_decide as Hd; [|by apply Ht]. subst fd'. split; [by apply (Ht fd)|].
    destruct Hw as [Hw|Hw]; [congruence|exact Hw].
  - intros fd' Hn. case_decide as Hd; [subst fd'; by rewrite lookup_insert_eq in Hn|].
    rewrite lookup_insert_ne in Hn by congruence. by apply Hl.
Qed.

Lemma Inv_drop ts l w fd :
  Inv ts l w -> index_ (chan_of l fd) = kNew -> w fd = (0, false) -> Inv (delete fd ts) (drop fd l) w.
Proof.
  intros [Hf Ha Ht Hl] Hidx Hw. constructor; simpl; [exact Hf| | |].
  - intros fd'. unfold chan_of, drop. simpl. destruct (decide (fd' = fd)) as [->|Hne].
    + rewrite lookup_delete_eq. destruct (Ha fd) as (_ & _ & H3 & _ & H5). rewrite Hw in H3 |- *. simpl.
      split_and!; [done|done|exact H3|by right; split; [left|]|]. rewrite Hidx in H5. exact H5.
    + rewrite lookup_delete_ne by done. apply Ha.
  - intros fd' x [_ Hx]%lookup_delete_Some. by apply Ht.
  - intros fd' Hn. destruct (decide (fd' = fd)) as [->|Hne]; [exact Hw|].
    rewrite lookup_delete_ne in Hn by done. by apply Hl.
Qed.

Lemma remove_index fd l : index_ (chan_of (step fd Remove l) fd) = kNew.
Proof.
  unfold step, chan_of, call, removeChannel. destruct (index_ _ =? kAdded).
  - destruct (update _ _ _) as [k' n]. simpl. by rewrite lookup_insert_eq.
  - simpl. by rewrite lookup_insert_eq.
Qed.

Lemma Inv_insert ts l w fd ms :
  Inv ts l w -> w fd = (reading 0, true) -> Inv (<[fd := mk fd (interval ms) (interval ms)]> ts) l w.
Proof.
  intros [Hf Ha Ht Hl] Hw. constructor; [done|done| |done].
  intros fd' x [[<- <-]|[_ Hx]]%lookup_insert_Some; [done|by apply Ht].
Qed.

Lemma Inv_delete ts l w fd : Inv ts l w -> Inv (delete fd ts) l w.
Proof. intros [Hf Ha Ht Hl]. constructor; [done|done| |done]. intros fd' x [_ Hx]%lookup_delete_Some. by apply Ht. Qed.

Lemma timers_Inv_exec e ts l w ts' l' :
  Inv ts l w -> exec e (ts, l) = Some (ts', l') -> exists w', Inv ts' l' w'.
Proof.
  intros HI. destruct e as [fd ms|fd|fd o]; simpl.
  - case_decide as Hn; [|done]. unfold PeriodicTimer. destruct (fd <? 0); [done|]. intros [= <- <-].
    pose proof (inv_live _ _ _ HI fd Hn) as Hw.
    eexists. eapply Inv_insert; [eapply Inv_step; [exact HI|reflexivity|]|].
    + right. by rewrite Hw.
    + simpl. rewrite decide_True by done. by rewrite Hw.
  - destruct (ts !! fd) as [x|] eqn:Hx; [|done]. intros [= <- <-].
    destruct (inv_timer _ _ _ HI fd x Hx) as [Hfd Hw]. unfold destroy. rewrite Hfd.
    pose proof (Inv_delete _ _ _ fd HI) as HI1.
    pose proof (Inv_step _ _ _ fd DisableAll (0, false) HI1) as HI2. rewrite Hw in HI2.
    specialize (HI2 eq_refl (or_introl (lookup_delete_eq ts fd))).
    pose proof (Inv_step _ _ _ fd Remove (0, false) HI2) as HI3. simpl in HI3. rewrite decide_True in HI3 by done.
    specialize (HI3 eq_refl (or_introl (lookup_delete_eq ts fd))).
    eexists. rewrite <- (delete_delete_eq ts fd). apply Inv_drop; [exact HI3|apply remove_index|].
    simpl. by rewrite decide_True.
  - case_decide as Hn; [|done]. intros [= <- <-]. eexists. eapply Inv_step; [exact HI|reflexivity|by left].
Qed.

Lemma timers_Inv_run es ts l w ts' l' :
  Inv ts l w -> run es (ts, l) = Some (ts', l') -> exists w', Inv ts' l' w'.
Proof.
  revert ts l w. induction es as [|e es IH]; intros ts l w HI; cbn [run]; [intros [= <- <-]; eauto|].
  destruct (exec e (ts, l)) as [[ts1 l1]|] eqn:E; [|done]. destruct (timers_Inv_exec _ _ _ _ _ _ HI E) as [w1 H1]. by apply IH with w1.
Qed.

Lemma Inv_fresh k : interest k = ∅ -> Inv ∅ (fresh k) (fun _ => (0, false)).
Proof.
  intros Hk. destruct (loop_inv_fresh k Hk) as [Hf Ha]. constructor; [exact Hf|exact Ha| |reflexivity].
  intros fd x Hx. by rewrite lookup_empty in Hx.
Qed.

Lemma live_channel ts l w fd ev : Inv ts l w -> interest (kernel l) !! fd = Some ev -> is_Some (chans l !! fd).
Proof.
  intros [_ Ha _ Hl] Hi. destruct (chans l !! fd) eqn:E; [eauto|]. destruct (Ha fd) as (_ & _ & H3 & _).
  rewrite (Hl fd E), Hi in H3. discriminate H3.
Qed.

End Loop.

(** ** Theorems *)

(** A loop with timers is sound. Whatever timers are created and destroyed
    on a loop, among any calls on the channels of other owners, and however the
    kernel reuses descriptors: no [epoll_ctl] fails, the kernel watches the
    descriptor of every live timer for reading, edge-triggered, and it never
    holds a pointer to a channel that has been destroyed. *)
Theorem timers_are_watched {K} `{EpollLaws K} (k : K) es ts l
    (Hk : interest k = ∅) (Hrun : run es (∅, fresh k) = Some (ts, l)) :
  failures l = 0%nat /\
  (forall fd x, ts !! fd = Some x -> interest (kernel l) !! fd = Some (reading 0)) /\
  (forall fd ev, interest (kernel l) !! fd = Some ev -> is_Some (chans l !! fd)).
Proof.
  destruct (timers_Inv_run _ _ _ _ _ _ (Inv_fresh k Hk) Hrun) as [w HI]. split; [apply (inv_fail _ _ _ HI)|]. split.
  - intros fd x Hx. destruct (inv_timer _ _ _ HI fd x Hx) as [_ Hw]. destruct (inv_agrees _ _ _ HI fd) as (_ & _ & -> & _).
    by rewrite Hw.
  - intros fd ev. by apply (live_channel _ _ _ _ _ HI).
Qed.

(** A timer among other channels, and its descriptor used again. *)
Definition life : list event :=
  [ECreate 5 50; EOther 6 EnableReading; ECreate 7 50; EDestroy 5; EOther 6 EnableWriting; ECreate 5 100].

Lemma timers_are_watched_witness :
  exists ts l, run life (∅, fresh (∅ : gmap Z Z)) = Some (ts, l) /\
    ts !! 5 = Some (mk 5 (0, 100000000) (0, 100000000)) /\
    failures l = 0%nat /\ interest (kernel l) !! 5 = Some (2 ^ 31 + 3) /\ is_Some (chans l !! 6).
Proof.
  destruct (run life (∅, fresh (∅ : gmap Z Z))) as [[ts l]|] eqn:E; [|vm_compute in E; discriminate E].
  destruct (timers_are_watched (∅ : gmap Z Z) life ts l interest_empty E) as (H1 & H2 & H3).
  vm_compute in E. injection E as <- <-. eexists _, _. split; [reflexivity|]. split; [reflexivity|].
  split; [exact H1|]. split; [eapply H2; reflexivity|eapply H3; vm_compute; reflexivity].
Defined.

(** The period is the one asked for, in a form [timerfd_settime] accepts. *)
Lemma interval_exact ms :
  0 <= ms -> let (s, ns) := interval ms in s * 1000000000 + ns = ms * 1000000 /\ 0 <= ns < 1000000000.
Proof.
  intros Hms. unfold interval. pose proof (Z.mod_pos_bound ms 1000). rewrite u64_small by lia.
  pose proof (Z.div_mod ms 1000). lia.
Qed.

(** A stalled loop loses time: the callback runs once per read, however many
    periods have passed, so a wheel driven by it falls behind by the others. *)
Theorem stalled_timer_loses_periods (reads : list Z) (ticks : Z) (Hreads : Forall (fun n => 1 <= n) reads) :
  fire (fun n => n + 1) reads ticks = ticks + Z.of_nat (length reads) /\
  fire (fun n => n + 1) reads ticks <= ticks + foldr Z.add 0 reads /\
  (Exists (fun n => 1 < n) reads -> fire (fun n => n + 1) reads ticks < ticks + foldr Z.add 0 reads).
Proof.
  assert (fire (fun n => n + 1) reads ticks = ticks + Z.of_nat (length reads)) as ->.
  { clear Hreads. revert ticks. induction reads as [|n ns IH]; intros t; [simpl; lia|].
    change (fire (fun n => n + 1) (n :: ns) t) with (fire (fun n => n + 1) ns (t + 1)). rewrite IH. simpl. lia. }
  split; [done|]. assert (Z.of_nat (length reads) <= foldr Z.add 0 reads) as Hle
    by (induction Hreads; simpl; lia).
  split; [lia|]. intros (n & Hin & Hn)%Exists_exists.
  apply list_elem_of_split in Hin as (l1 & l2 & ->). apply Forall_app in Hreads as [H1 H2].
  apply Forall_cons in H2 as [_ H2]. rewrite length_app, foldr_app. simpl.
  assert (Z.of_nat (length l2) <= foldr Z.add 0 l2) as Hl2 by (clear - H2; induction H2; simpl; lia).
  assert (forall z, Z.of_nat (length l1) + z <= foldr Z.add z l1) as Hl1 by (clear - H1; intros z; induction H1; simpl; lia).
  specialize (Hl1 (n + foldr Z.add 0 l2)). lia.
Qed.

End PeriodicTimer.
