(* ===== verification/Buffer.v ===== *)
(** * The connection buffer ([src/src/net/Buffer.h], [Buffer.cc])

    A contiguous [std::vector<char>] with a reader and a writer index:
    prependable | readable | writable. The abstract state is the byte string
    [readable] between the two indices. *)

From stdpp Require Import base gmap sets list.
From Stdlib Require Import ZArith Lia.
From Stdlib Require Import Strings.Byte.
From S2P Require Import Prelude.

Module Buffer.

Definition kCheapPrepend : nat := 8.

Definition kInitialSize : nat := 1024.

Record t : Type := mk {
  buffer_ : list byte;
  readerIndex_ : nat;
  writerIndex_ : nat;
}.

Definition init : t :=
  mk (replicate (kCheapPrepend + kInitialSize) x00) kCheapPrepend kCheapPrepend.

Definition readableBytes (b : t) : nat := writerIndex_ b - readerIndex_ b.

Definition writableBytes (b : t) : nat := length (buffer_ b) - writerIndex_ b.

(** The memory from the read position on. *)
Definition peek (b : t) : list byte := drop (readerIndex_ b) (buffer_ b).

Definition retrieveAll (b : t) : t := mk (buffer_ b) kCheapPrepend kCheapPrepend.

(** [assert(len <= readableBytes())] is part of the build: no [NDEBUG]. *)
Definition retrieve (len : nat) (b : t) : res t :=
  if (readableBytes b <? len)%nat then UB
  else if (len <? readableBytes b)%nat then
    Ok (mk (buffer_ b) (readerIndex_ b + len) (writerIndex_ b))
  else Ok (retrieveAll b).

Definition retrieveAllAsString (b : t) : list byte * t :=
  (take (readableBytes b) (peek b), retrieveAll b).

(** [std::copy] into the vector at position [pos]. *)
Definition write_at (pos : nat) (data : list byte) (v : list byte) : list byte :=
  take pos v ++ data ++ drop (pos + length data) v.

(** [std::vector::resize], value-initialising new elements. *)
Definition vector_resize (n : nat) (v : list byte) : list byte :=
  take n v ++ replicate (n - length v) x00.

Definition ensureWritable (len : nat) (b : t) : t :=
  if (len <=? writableBytes b)%nat then b
  else if (writableBytes b + readerIndex_ b - kCheapPrepend <? len)%nat then
    mk (vector_resize (writerIndex_ b + len) (buffer_ b)) (readerIndex_ b) (writerIndex_ b)
  else
    let readable := readableBytes b in
    mk (write_at kCheapPrepend (take readable (peek b)) (buffer_ b))
       kCheapPrepend (kCheapPrepend + readable).

Definition append (data : list byte) (b : t) : t :=
  let b1 := ensureWritable (length data) b in
  mk (write_at (writerIndex_ b1) data (buffer_ b1)) (readerIndex_ b1)
     (writerIndex_ b1 + length data).

(** Results of [readv] and [write]: an error number or the bytes transferred. *)
Inductive errno : Type := EAGAIN | EINTR | EOTHER.

Inductive read_result : Type :=
  | ReadErr (e : errno)
  | ReadOk (data : list byte).

Definition extrabuf_size : nat := Z.to_nat 65536.

(** [readv] fills the writable area first and [extrabuf] with the rest. The
    first component is the return value [n]. *)
Definition readFd (r : read_result) (b : t) : Z * option errno * t :=
  let writable := writableBytes b in
  match r with
  | ReadErr e => ((-1)%Z, Some e, b)
  | ReadOk data =>
      let n := length data in
      let b1 := mk (write_at (writerIndex_ b) (take writable data) (buffer_ b))
                   (readerIndex_ b) (writerIndex_ b) in
      if (n <=? writable)%nat then
        (Z.of_nat n, None, mk (buffer_ b1) (readerIndex_ b1) (writerIndex_ b1 + n))
      else
        (Z.of_nat n, None,
         append (drop writable data) (mk (buffer_ b1) (readerIndex_ b1) (length (buffer_ b1))))
  end.

(** The kernel never returns more than the two areas hold. *)
Definition read_fits (r : read_result) (b : t) : Prop :=
  match r with
  | ReadErr _ => True
  | ReadOk data => (length data <= writableBytes b + extrabuf_size)%nat
  end.

(** ** Invariant and abstraction *)

Definition wf (b : t) : Prop :=
  (kCheapPrepend <= readerIndex_ b <= writerIndex_ b)%nat /\
  (writerIndex_ b <= length (buffer_ b))%nat.

Definition readable (b : t) : list byte := take (readableBytes b) (peek b).

(** ** The reference: a byte queue *)

Inductive op : Type :=
  | OAppend (data : list byte)
  | ORetrieve (len : nat)
  | ORetrieveAll
  | ORead (r : read_result).

Definition exec (o : op) (b : t) : res t :=
  match o with
  | OAppend data => Ok (append data b)
  | ORetrieve len => retrieve len b
  | ORetrieveAll => Ok (retrieveAll b)
  | ORead r => let '(_, _, b') := readFd r b in Ok b'
  end.

Definition queue_exec (o : op) (l : list byte) : res (list byte) :=
  match o with
  | OAppend data => Ok (l ++ data)
  | ORetrieve len => if (length l <? len)%nat then UB else Ok (drop len l)
  | ORetrieveAll => Ok []
  | ORead (ReadOk data) => Ok (l ++ data)
  | ORead (ReadErr _) => Ok l
  end.

Fixpoint run (os : list op) (b : t) : res t :=
  match os with
  | [] => Ok b
  | o :: os' => (let! b1 := exec o b in run os' b1)%gs
  end.

Fixpoint queue_run (os : list op) (l : list byte) : res (list byte) :=
  match os with
  | [] => Ok l
  | o :: os' => (let! l1 := queue_exec o l in queue_run os' l1)%gs
  end.

(** ** Lemmas *)

Lemma length_write_at pos data v :
  (pos + length data <= length v)%nat -> length (write_at pos data v) = length v.
Proof. intros. unfold write_at. rewrite !length_app, length_take, length_drop. lia. Qed.

Lemma length_readable b : wf b -> length (readable b) = readableBytes b.
Proof.
  intros [H1 H2]. unfold readable, peek, readableBytes. rewrite length_take, length_drop. lia.
Qed.

Lemma wf_init_buffer : wf init.
Proof. unfold wf, init, kCheapPrepend; simpl. lia. Qed.

Lemma readable_init : readable init = [].
Proof. done. Qed.

Lemma wf_retrieveAll b : wf b -> wf (retrieveAll b).
Proof. intros [? ?]. unfold wf, retrieveAll; simpl. lia. Qed.

Lemma readable_retrieveAll b : readable (retrieveAll b) = [].
Proof. done. Qed.

(** The readable bytes, read off the vector by absolute position. *)
Lemma readable_slice b : readable b = drop (readerIndex_ b) (take (writerIndex_ b) (buffer_ b)).
Proof. unfold readable, peek, readableBytes. by rewrite skipn_firstn_comm. Qed.

(** Writing at the writer index appends to the readable bytes. *)
Lemma readable_write b data :
  wf b -> (writerIndex_ b + length data <= length (buffer_ b))%nat ->
  readable (mk (write_at (writerIndex_ b) data (buffer_ b)) (readerIndex_ b) (writerIndex_ b + length data))
  = readable b ++ data.
Proof.
  intros [H1 H2] Hfit. rewrite !readable_slice. simpl. unfold write_at.
  rewrite app_assoc.
  rewrite (take_app_le _ _ (writerIndex_ b + length data)) by (rewrite length_app, length_take; lia).
  rewrite take_ge by (rewrite length_app, length_take; lia).
  rewrite drop_app_le by (rewrite length_take; lia). done.
Qed.

Lemma ensureWritable_spec len b :
  wf b -> let b' := ensureWritable len b in
  wf b' /\ readable b' = readable b /\ (len <= writableBytes b')%nat /\
  (kCheapPrepend + readableBytes b + len <= length (buffer_ b) -> length (buffer_ b') = length (buffer_ b))%nat /\
  (length (buffer_ b') <= Nat.max (length (buffer_ b)) (kCheapPrepend + readableBytes b + 2 * len))%nat.
Proof.
  intros Hwf. pose proof Hwf as [H1 H2]. unfold ensureWritable.
  destruct (Nat.leb_spec len (writableBytes b)); [split_and!; try done; lia|].
  destruct (Nat.ltb_spec (writableBytes b + readerIndex_ b - kCheapPrepend) len) as [Hg|Hg].
  - unfold wf, writableBytes, vector_resize, readableBytes, kCheapPrepend in *; simpl.
    rewrite length_app, length_take, length_replicate. split_and!; try lia.
    rewrite !readable_slice. simpl.
    rewrite take_app_le by (rewrite length_take; lia). by rewrite take_take, Nat.min_l by lia.
  - assert (length (take (readableBytes b) (peek b)) = readableBytes b) as Hl by (by apply length_readable).
    unfold wf, writableBytes, readableBytes, kCheapPrepend in *; simpl.
    rewrite length_write_at by (rewrite Hl; lia).
    split_and!; try lia.
    rewrite readable_slice. simpl. unfold write_at. rewrite app_assoc.
    rewrite take_app_le by (rewrite length_app, length_take, Hl; lia).
    rewrite take_ge by (rewrite length_app, length_take, Hl; lia).
    rewrite drop_app_ge by (rewrite length_take; lia).
    rewrite length_take, Nat.min_l by lia. by rewrite Nat.sub_diag.
Qed.

Lemma append_spec data b :
  wf b -> wf (append data b) /\ readable (append data b) = readable b ++ data /\
  (kCheapPrepend + readableBytes b + length data <= length (buffer_ b) ->
   length (buffer_ (append data b)) = length (buffer_ b))%nat /\
  (length (buffer_ (append data b)) <=
   Nat.max (length (buffer_ b)) (kCheapPrepend + readableBytes b + 2 * length data))%nat.
Proof.
  intros Hwf. destruct (ensureWritable_spec (length data) b Hwf) as (Hwf1 & Hr1 & Hw1 & Hs1 & Hl1).
  unfold append. set (b1 := ensureWritable (length data) b) in *.
  pose proof Hwf1 as [H1 H2]. unfold writableBytes in Hw1.
  split_and!.
  - unfold wf; simpl. rewrite length_write_at by lia. lia.
  - rewrite readable_write by (done || lia). by rewrite Hr1.
  - simpl. rewrite length_write_at by lia. done.
  - simpl. rewrite length_write_at by lia. done.
Qed.

Lemma retrieve_spec len b :
  wf b -> (len <= readableBytes b)%nat ->
  exists b', retrieve len b = Ok b' /\ wf b' /\ readable b' = drop len (readable b).
Proof.
  intros Hwf Hlen. unfold retrieve.
  destruct (Nat.ltb_spec (readableBytes b) len); [lia|].
  pose proof Hwf as [H1 H2].
  destruct (Nat.ltb_spec len (readableBytes b)) as [Hlt|Hge].
  - eexists. split; [done|]. unfold readableBytes in *. split; [unfold wf; simpl; lia|].
    rewrite !readable_slice. simpl. by rewrite drop_drop.
  - eexists. split; [done|]. split; [by apply wf_retrieveAll|].
    rewrite readable_retrieveAll. symmetry. apply drop_ge. rewrite length_readable by done. lia.
Qed.

Lemma readFd_spec r b :
  wf b ->
  let '(n, err, b') := readFd r b in
  wf b' /\
  match r with
  | ReadErr e => n = (-1)%Z /\ err = Some e /\ b' = b
  | ReadOk data => n = Z.of_nat (length data) /\ err = None /\ readable b' = readable b ++ data
  end.
Proof.
  intros Hwf. pose proof Hwf as [H1 H2]. unfold readFd. destruct r as [e|data]; [done|].
  assert (length (take (writableBytes b) data) = Nat.min (writableBytes b) (length data)) as Hlt
    by apply length_take.
  destruct (Nat.leb_spec (length data) (writableBytes b)) as [Hfit|Hbig].
  - rewrite take_ge by lia. unfold writableBytes in *. split; [|split_and!; [done|done|]].
    + unfold wf; simpl. rewrite length_write_at by lia. lia.
    + simpl. rewrite readable_write; [done|done|lia].
  - simpl. set (b1 := mk _ _ _).
    assert (writerIndex_ b + length (take (writableBytes b) data) = length (buffer_ b))%nat as Hfill
      by (unfold writableBytes in *; lia).
    assert (wf b1) as Hwf1.
    { unfold wf, b1; simpl. rewrite !length_write_at by lia. lia. }
    assert (readable b1 = readable b ++ take (writableBytes b) data) as Hr1.
    { unfold b1. rewrite <- readable_write by (done || lia). f_equal. f_equal.
      rewrite length_write_at by lia. lia. }
    destruct (append_spec (drop (writableBytes b) data) b1 Hwf1) as (Hwf2 & Hr2 & _).
    split; [done|]. split_and!; [done|done|].
    rewrite Hr2, Hr1, <- app_assoc. by rewrite take_drop.
Qed.

Lemma exec_queue o b :
  wf b ->
  match exec o b with
  | Ok b' => wf b' /\ queue_exec o (readable b) = Ok (readable b')
  | UB => queue_exec o (readable b) = UB
  end.
Proof.
  intros Hwf. destruct o as [data|len| |r]; cbn [exec queue_exec].
  - destruct (append_spec data b Hwf) as (? & -> & _). done.
  - rewrite length_readable by done. destruct (Nat.ltb_spec (readableBytes b) len) as [Hlt|Hge].
    + unfold retrieve. by rewrite (proj2 (Nat.ltb_lt _ _) Hlt).
    + destruct (retrieve_spec len b Hwf Hge) as (b' & -> & ? & ->). done.
  - split; [by apply wf_retrieveAll|done].
  - pose proof (readFd_spec r b Hwf) as Hr. destruct (readFd r b) as [[n err] b'].
    destruct Hr as [Hwf' Hr]. split; [done|]. destruct r; destruct Hr as (_ & _ & ->); done.
Qed.

(** ** Properties *)

(** C30: The buffer refines a byte queue: for every sequence of [append],
    [retrieve], [retrieveAll] and [readFd] calls, whatever moves and
    reallocations happen inside, the readable bytes are those of a plain byte
    string, and an assertion fails exactly when more is retrieved than is
    there. *)
Theorem buffer_refines_byte_queue (os : list op) :
  match run os init with
  | Ok b => wf b /\ queue_run os [] = Ok (readable b)
  | UB => queue_run os [] = UB
  end.
Proof.
  change (@nil byte) with (readable init). generalize wf_init_buffer. generalize init.
  induction os as [|o os IH]; intros b Hwf; simpl; [done|].
  pose proof (exec_queue o b Hwf) as He. destruct (exec o b) as [b'|]; simpl.
  - destruct He as [Hwf' ->]. apply IH. done.
  - by rewrite He.
Qed.

(** [append] reallocates only when the readable bytes and the new data do
    not fit behind the prepend area, and then the new capacity is at most
    twice the new data beyond the readable bytes. *)
Theorem append_capacity (data : list byte) (b : t) (Hwf : wf b) :
  let cap := length (buffer_ b) in
  let cap' := length (buffer_ (append data b)) in
  if decide (kCheapPrepend + readableBytes b + length data <= cap)%nat then cap' = cap
  else (cap' <= Nat.max cap (kCheapPrepend + readableBytes b + 2 * length data))%nat.
Proof.
  destruct (append_spec data b Hwf) as (_ & _ & H1 & H2).
  intros cap cap'. destruct (decide _); [by apply H1|exact H2].
Qed.

Lemma append_capacity_witness :
  length (buffer_ (append (replicate 1000 x01) init)) = 1032%nat.
Proof. exact (append_capacity (replicate 1000 x01) init wf_init_buffer). Defined.

End Buffer.
