(* ===== verification/Codec.v ===== *)
(** * Framing and dispatch ([src/src/proto/ProtobufCodec.h], [ProtobufCodec.cc],
      [Dispatcher.h], [MsgId.h])

    A frame is [len(4B, big endian) | msgId(2B, big endian) | body], where
    [len] counts the id and the body. [onMessage] cuts the frames off the input
    buffer of a connection and hands them to the dispatcher. The body is what
    protobuf serialises: the codec treats it as bytes. *)

From stdpp Require Import base gmap sets list.
From Stdlib Require Import ZArith Lia.
From Stdlib Require Import Strings.Byte.
From S2P Require Import Prelude Buffer.

(** ** Message ids *)

Module MsgId.

Definition kEcho : Z := 1.
Definition kHeartbeat : Z := 2.
Definition kLoginReq : Z := 3.
Definition kLoginResp : Z := 4.
Definition kReconnectReq : Z := 5.
Definition kMatchReq : Z := 10.
Definition kEnterRoom : Z := 11.
Definition kPlayerInput : Z := 20.
Definition kStateSnapshot : Z := 21.
Definition kBattleEnd : Z := 22.
Definition kLeaderboardReq : Z := 30.
Definition kLeaderboardResp : Z := 31.

End MsgId.

Module Codec.

Local Open Scope Z_scope.

(** ** Integers in network byte order *)

Definition byte_val (b : byte) : Z := Z.of_N (Byte.to_N b).

Definition byte_of (z : Z) : byte :=
  match Byte.of_N (Z.to_N (z mod 256)) with Some b => b | None => x00 end.

(** Loading big-endian bytes: [memcpy] followed by [ntohl] or [ntohs]. *)
Definition be_load (bs : list byte) : Z := foldl (fun acc b => acc * 256 + byte_val b) 0 bs.

(** Storing the low [n] bytes: [htonl] or [htons] followed by [memcpy]. *)
Fixpoint be_store (n : nat) (z : Z) : list byte :=
  match n with
  | O => []
  | S n' => byte_of (Z.shiftr z (8 * Z.of_nat n')) :: be_store n' z
  end.

(** ** [ProtobufCodec] *)

Definition kHeaderLen : nat := 4.

Definition kIdLen : nat := 2.

Definition kMaxFrameLen : Z := 64 * 1024.

Definition frame : Type := Z * list byte.

Definition encode (msgId : Z) (body : list byte) : list byte :=
  be_store 4 (u32 (Z.of_nat (kIdLen + length body))) ++ be_store 2 (u16 msgId) ++ body.

(** What [onMessage] does to its surroundings: the calls of [cb_] in order,
    then possibly a call of [conn->shutdown()]. *)
Record outcome : Type := mkOutcome {
  dispatched : list frame;
  shut : bool;
  rest : Buffer.t;
}.

(** The [while] loop; [fuel] bounds the number of frames. *)
Fixpoint onMessage_loop (fuel : nat) (buf : Buffer.t) : res outcome :=
  match fuel with
  | O => Ok (mkOutcome [] false buf)
  | S fuel' =>
      if (Buffer.readableBytes buf <? kHeaderLen)%nat then Ok (mkOutcome [] false buf)
      else
        let len := be_load (take 4 (Buffer.peek buf)) in
        if (len <? Z.of_nat kIdLen) || (kMaxFrameLen <? len) then
          Ok (mkOutcome [] true (Buffer.retrieveAll buf))
        else if (Buffer.readableBytes buf <? kHeaderLen + Z.to_nat len)%nat then
          Ok (mkOutcome [] false buf)
        else
          let msgId := be_load (take 2 (drop kHeaderLen (Buffer.peek buf))) in
          let body := take (Z.to_nat len - kIdLen) (drop (kHeaderLen + kIdLen) (Buffer.peek buf)) in
          (let! buf' := Buffer.retrieve (kHeaderLen + Z.to_nat len) buf in
           let! o := onMessage_loop fuel' buf' in
           Ok (mkOutcome ((msgId, body) :: dispatched o) (shut o) (rest o)))%gs
  end.

(** Every frame takes at least six bytes, so the readable bytes are fuel
    enough. *)
Definition onMessage (buf : Buffer.t) : res outcome :=
  onMessage_loop (S (Buffer.readableBytes buf)) buf.

(** ** Reference: parsing a byte string *)

Fixpoint decode_loop (fuel : nat) (bs : list byte) : list frame * bool * list byte :=
  match fuel with
  | O => ([], false, bs)
  | S fuel' =>
      if (length bs <? 4)%nat then ([], false, bs)
      else
        let len := be_load (take 4 bs) in
        if (len <? 2) || (65536 <? len) then ([], true, [])
        else if (length bs <? 4 + Z.to_nat len)%nat then ([], false, bs)
        else
          let '(fs, s, r) := decode_loop fuel' (drop (4 + Z.to_nat len) bs) in
          ((be_load (take 2 (drop 4 bs)), take (Z.to_nat len - 2) (drop 6 bs)) :: fs, s, r)
  end.

Definition decode (bs : list byte) : list frame * bool * list byte := decode_loop (S (length bs)) bs.

(** Bytes arrive in chunks: each is appended to the input buffer and
    [onMessage] is called. *)
Fixpoint feed (chunks : list (list byte)) (buf : Buffer.t) : res outcome :=
  match chunks with
  | [] => Ok (mkOutcome [] false buf)
  | c :: chunks' =>
      (let! o1 := onMessage (Buffer.append c buf) in
       let! o2 := feed chunks' (rest o1) in
       Ok (mkOutcome (dispatched o1 ++ dispatched o2) (shut o1 || shut o2) (rest o2)))%gs
  end.

(** ** Lemmas on network byte order *)

Lemma byte_val_range b : 0 <= byte_val b < 256.
Proof. unfold byte_val. pose proof (Byte.to_N_bounded b). lia. Qed.

Lemma byte_val_of z : byte_val (byte_of z) = z mod 256.
Proof.
  unfold byte_val, byte_of. pose proof (Z.mod_pos_bound z 256).
  destruct (Byte.of_N (Z.to_N (z mod 256))) as [b|] eqn:E.
  - apply Byte.to_of_N in E. rewrite E. lia.
  - apply Byte.of_N_None_iff in E. lia.
Qed.

Lemma be_load_app xs ys : be_load (xs ++ ys) = be_load xs * 256 ^ Z.of_nat (length ys) + be_load ys.
Proof.
  unfold be_load. rewrite foldl_app. generalize (foldl (fun acc b => acc * 256 + byte_val b) 0 xs).
  intros a. revert a. induction ys as [|y ys IH]; intros a; cbn [foldl length]; [lia|].
  rewrite IH, (IH (0 * 256 + byte_val y)), Nat2Z.inj_succ, Z.pow_succ_r by lia. lia.
Qed.

Lemma be_load_cons x ys : be_load (x :: ys) = byte_val x * 256 ^ Z.of_nat (length ys) + be_load ys.
Proof. change (x :: ys) with ([x] ++ ys). rewrite be_load_app. unfold be_load at 1. simpl. lia. Qed.

Lemma length_be_store n z : length (be_store n z) = n.
Proof. induction n; simpl; congruence. Qed.

Lemma be_load_range bs : 0 <= be_load bs < 256 ^ Z.of_nat (length bs).
Proof.
  induction bs as [|b bs IH]; [done|]. rewrite be_load_cons. cbn [length].
  rewrite Nat2Z.inj_succ, Z.pow_succ_r by lia. pose proof (byte_val_range b). nia.
Qed.

Lemma be_load_store n z : be_load (be_store n z) = z mod 256 ^ Z.of_nat n.
Proof.
  induction n as [|n IH]; simpl be_store; [by rewrite Z.mod_1_r|].
  rewrite be_load_cons, IH, byte_val_of, length_be_store.
  rewrite Nat2Z.inj_succ, Z.pow_succ_r, Z.shiftr_div_pow2 by lia.
  replace (2 ^ (8 * Z.of_nat n)) with (256 ^ Z.of_nat n) by (rewrite Z.pow_mul_r by lia; done).
  set (p := 256 ^ Z.of_nat n). assert (0 < p) by (apply Z.pow_pos_nonneg; lia).
  rewrite (Z.mul_comm 256 p), Z.rem_mul_r by lia. lia.
Qed.

(** ** Lemmas on the reference parser *)

Lemma decode_loop_fuel n m bs :
  (length bs < n)%nat -> (length bs < m)%nat -> decode_loop n bs = decode_loop m bs.
Proof.
  revert m bs. induction n as [|n IH]; intros m bs Hn Hm; [lia|]. destruct m as [|m]; [lia|].
  cbn [decode_loop]. destruct (Nat.ltb_spec (length bs) 4); [done|].
  destruct (_ || _) eqn:E; [done|].
  destruct (Nat.ltb_spec (length bs) (4 + Z.to_nat (be_load (take 4 bs)))); [done|].
  rewrite (IH m); [done|rewrite length_drop; lia..].
Qed.

Lemma decode_eq bs :
  decode bs =
  if (length bs <? 4)%nat then ([], false, bs)
  else
    let len := be_load (take 4 bs) in
    if (len <? 2) || (65536 <? len) then ([], true, [])
    else if (length bs <? 4 + Z.to_nat len)%nat then ([], false, bs)
    else
      let '(fs, s, r) := decode (drop (4 + Z.to_nat len) bs) in
      ((be_load (take 2 (drop 4 bs)), take (Z.to_nat len - 2) (drop 6 bs)) :: fs, s, r).
Proof.
  unfold decode at 1. cbn [decode_loop]. destruct (Nat.ltb_spec (length bs) 4); [done|].
  destruct (_ || _) eqn:E; [done|].
  destruct (Nat.ltb_spec (length bs) (4 + Z.to_nat (be_load (take 4 bs)))); [done|].
  unfold decode. rewrite (decode_loop_fuel _ (S (length (drop (4 + Z.to_nat (be_load (take 4 bs))) bs))));
    [done|rewrite length_drop; lia..].
Qed.

(** Parsing a string in two parts: what the first part leaves over is parsed
    with the second; an illegal frame ends the parse. *)
Lemma decode_app xs ys :
  decode (xs ++ ys) =
  let '(f1, s1, r1) := decode xs in
  if s1 then (f1, true, [])
  else let '(f2, s2, r2) := decode (r1 ++ ys) in (f1 ++ f2, s2, r2).
Proof.
  remember (length xs) as n eqn:Hn. revert xs Hn.
  induction n as [n IH] using lt_wf_ind; intros xs ->.
  rewrite (decode_eq xs). destruct (Nat.ltb_spec (length xs) 4) as [H4|H4].
  { destruct (decode (xs ++ ys)) as [[? ?] ?]. done. }
  set (len := be_load (take 4 xs)). cbv zeta.
  destruct ((len <? 2) || (65536 <? len)) eqn:E.
  { rewrite decode_eq. rewrite length_app. destruct (Nat.ltb_spec (length xs + length ys) 4); [lia|].
    rewrite take_app_le by lia. fold len. cbv zeta. by rewrite E. }
  destruct (Nat.ltb_spec (length xs) (4 + Z.to_nat len)) as [Hh|Hh].
  { destruct (decode (xs ++ ys)) as [[? ?] ?]. done. }
  rewrite decode_eq. rewrite length_app. destruct (Nat.ltb_spec (length xs + length ys) 4); [lia|].
  rewrite take_app_le by lia. fold len. cbv zeta. rewrite E.
  destruct (Nat.ltb_spec (length xs + length ys) (4 + Z.to_nat len)); [lia|].
  rewrite drop_app_le by lia. rewrite (IH (length (drop (4 + Z.to_nat len) xs))); [|rewrite length_drop; lia|done].
  apply orb_false_iff in E as [E1 E2]. apply Z.ltb_ge in E1.
  rewrite !(drop_app_le _ _) by lia. rewrite !take_app_le by (rewrite length_drop; lia).
  destruct (decode (drop (4 + Z.to_nat len) xs)) as [[f1 s1] r1]. destruct s1; [done|].
  destruct (decode (r1 ++ ys)) as [[f2 s2] r2]. done.
Qed.

(** Everything the parser hands out is within the limits, and so is what it
    keeps. *)
Lemma decode_bounds bs :
  let '(fs, s, r) := decode bs in
  Forall (fun f => 0 <= fst f < 2 ^ 16 /\ Z.of_nat (length (snd f)) <= 65534) fs /\
  Z.of_nat (length r) < 4 + 65536.
Proof.
  remember (length bs) as n eqn:Hn. revert bs Hn.
  induction n as [n IH] using lt_wf_ind; intros bs ->.
  rewrite decode_eq. destruct (Nat.ltb_spec (length bs) 4) as [H4|H4]; [split; [constructor|lia]|].
  cbv zeta. set (len := be_load (take 4 bs)).
  destruct ((len <? 2) || (65536 <? len)) eqn:E; [split; [constructor|simpl; lia]|].
  apply orb_false_iff in E as [E1 E2]. apply Z.ltb_ge in E1, E2.
  destruct (Nat.ltb_spec (length bs) (4 + Z.to_nat len)) as [Hh|Hh]; [split; [constructor|lia]|].
  specialize (IH (length (drop (4 + Z.to_nat len) bs))).
  specialize (IH ltac:(rewrite length_drop; lia) _ eq_refl).
  destruct (decode (drop (4 + Z.to_nat len) bs)) as [[fs s] r]. destruct IH as [IH1 IH2].
  split; [|done]. constructor; [|done]. simpl. split.
  - pose proof (be_load_range (take 2 (drop 4 bs))) as Hr. rewrite length_take, length_drop in Hr.
    rewrite Nat.min_l in Hr by lia. exact Hr.
  - rewrite length_take. lia.
Qed.

Lemma decode_encode msgId body bs :
  0 <= msgId < 2 ^ 16 -> Z.of_nat (length body) <= 65534 ->
  decode (encode msgId body ++ bs) =
  let '(fs, s, r) := decode bs in ((msgId, body) :: fs, s, r).
Proof.
  intros Hid Hlen. unfold encode, kIdLen.
  set (h := be_store 4 _). set (i := be_store 2 _).
  assert (length h = 4%nat) as Hh by apply length_be_store.
  assert (length i = 2%nat) as Hi by apply length_be_store.
  assert (be_load h = Z.of_nat (2 + length body)) as Hbe.
  { unfold h. rewrite be_load_store, u32_small by lia. apply Z.mod_small. change (Z.of_nat 4) with 4. lia. }
  assert (be_load i = msgId) as Hbi.
  { unfold i. rewrite be_load_store. unfold u16. rewrite (Z.mod_small msgId) by lia.
    apply Z.mod_small. change (Z.of_nat 2) with 2. lia. }
  rewrite decode_eq, <- !app_assoc, !length_app, Hh, Hi.
  destruct (Nat.ltb_spec (4 + (2 + (length body + length bs))) 4); [lia|].
  rewrite take_app_le, take_ge by lia. rewrite Hbe. cbv zeta.
  destruct (Z.ltb_spec (Z.of_nat (2 + length body)) 2); [lia|].
  destruct (Z.ltb_spec 65536 (Z.of_nat (2 + length body))); [lia|]. simpl orb. cbv iota.
  rewrite Nat2Z.id.
  destruct (Nat.ltb_spec (4 + (2 + (length body + length bs))) (4 + (2 + length body))); [lia|].
  replace (4 + (2 + length body))%nat with (length (h ++ i ++ body)) by (rewrite !length_app; lia).
  replace (h ++ i ++ body ++ bs) with ((h ++ i ++ body) ++ bs) by (by rewrite <- !app_assoc).
  rewrite drop_app_length. rewrite <- !app_assoc.
  replace (drop 4 (h ++ i ++ body ++ bs)) with (i ++ body ++ bs) by (rewrite <- Hh; by rewrite drop_app_length).
  rewrite take_app_le, take_ge, Hbi by lia.
  replace (drop 6 (h ++ i ++ body ++ bs)) with (body ++ bs).
  - replace (2 + length body - 2)%nat with (length body) by lia. rewrite take_app_length.
    destruct (decode bs) as [[fs s] r]. done.
  - rewrite app_assoc, drop_app_ge by (rewrite length_app; lia). rewrite length_app, Hh, Hi. done.
Qed.

(** ** [onMessage] computes the reference parser on the readable bytes *)

Lemma peek_slice b i k :
  (i + k <= Buffer.readableBytes b)%nat ->
  take k (drop i (Buffer.peek b)) = take k (drop i (Buffer.readable b)).
Proof.
  intros H. unfold Buffer.readable. rewrite skipn_firstn_comm, take_take, Nat.min_l by lia. done.
Qed.

Lemma onMessage_loop_decode fuel b :
  Buffer.wf b ->
  exists o, onMessage_loop fuel b = Ok o /\ Buffer.wf (rest o) /\
    decode_loop fuel (Buffer.readable b) = (dispatched o, shut o, Buffer.readable (rest o)).
Proof.
  revert b. induction fuel as [|fuel IH]; intros b Hwf; cbn [onMessage_loop decode_loop]; [by eexists|].
  rewrite Buffer.length_readable by done. unfold kHeaderLen, kIdLen, kMaxFrameLen.
  destruct (Nat.ltb_spec (Buffer.readableBytes b) 4) as [|H4]; [by eexists|].
  pose proof (peek_slice b 0 4 H4) as Hp. rewrite !drop_0 in Hp. rewrite Hp.
  set (len := be_load (take 4 (Buffer.readable b))). change (Z.of_nat 2) with 2. change (64 * 1024) with 65536.
  destruct ((len <? 2) || (65536 <? len)) eqn:E.
  { eexists. split; [done|]. split; [by apply Buffer.wf_retrieveAll|done]. }
  apply orb_false_iff in E as [E1 E2]. apply Z.ltb_ge in E1.
  destruct (Nat.ltb_spec (Buffer.readableBytes b) (4 + Z.to_nat len)) as [|Hh]; [by eexists|].
  destruct (Buffer.retrieve_spec (4 + Z.to_nat len) b Hwf Hh) as (b' & -> & Hwf' & Hr). simpl.
  destruct (IH b' Hwf') as (o & -> & Hwo & Hd). simpl. rewrite Hr in Hd. simpl in Hd. rewrite Hd.
  eexists. split; [done|]. split; [done|]. simpl. rewrite <- !peek_slice by lia. done.
Qed.

Lemma onMessage_decode b :
  Buffer.wf b ->
  exists o, onMessage b = Ok o /\ Buffer.wf (rest o) /\
    decode (Buffer.readable b) = (dispatched o, shut o, Buffer.readable (rest o)).
Proof.
  intros Hwf. unfold onMessage, decode. rewrite <- (Buffer.length_readable b Hwf).
  by apply onMessage_loop_decode.
Qed.

Lemma feed_total chunks b :
  Buffer.wf b -> exists o, feed chunks b = Ok o /\ Buffer.wf (rest o).
Proof.
  revert b. induction chunks as [|c chunks IH]; intros b Hwf; simpl; [by eexists|].
  destruct (Buffer.append_spec c b Hwf) as (Hwf1 & _).
  destruct (onMessage_decode _ Hwf1) as (o1 & -> & Hwf2 & _). simpl.
  destruct (IH _ Hwf2) as (o2 & -> & Hwf3). simpl. by eexists.
Qed.

(** A stream without an illegal frame gives the same calls however it is cut. *)
Lemma feed_decode chunks b fs r :
  Buffer.wf b -> decode (Buffer.readable b ++ concat chunks) = (fs, false, r) ->
  decode (Buffer.readable b) = ([], false, Buffer.readable b) ->
  exists o, feed chunks b = Ok o /\ dispatched o = fs /\ shut o = false /\ Buffer.readable (rest o) = r.
Proof.
  revert b fs. induction chunks as [|c chunks IH]; intros b fs Hwf Hd Hres; simpl.
  { simpl in Hd. rewrite app_nil_r, Hres in Hd. injection Hd as <- <-. eexists. split; done. }
  destruct (Buffer.append_spec c b Hwf) as (Hwf1 & Hr1 & _).
  destruct (onMessage_decode _ Hwf1) as (o1 & -> & Hwf2 & Hd1). rewrite Hr1 in Hd1. simpl in *.
  rewrite app_assoc, decode_app, Hd1 in Hd. destruct (shut o1) eqn:Es; [done|].
  assert (decode (Buffer.readable (rest o1)) = ([], false, Buffer.readable (rest o1))) as Hres1.
  { pose proof (decode_app (Buffer.readable b ++ c) []) as Ha. rewrite app_nil_r, Hd1, app_nil_r in Ha.
    destruct (decode (Buffer.readable (rest o1))) as [[f2 s2] r2]. injection Ha as Hf Hs Hr.
    rewrite <- (app_nil_r (dispatched o1)) in Hf at 1. apply app_inv_head in Hf. congruence. }
  destruct (decode (Buffer.readable (rest o1) ++ concat chunks)) as [[f2 s2] r2] eqn:E2. simplify_eq.
  destruct (IH (rest o1) f2 Hwf2 E2 Hres1) as (o2 & -> & <- & Hs2 & <-). simpl.
  eexists. split; [done|]. simpl. rewrite Hs2. done.
Qed.

Lemma decode_encode_all (fs : list frame) bs :
  Forall (fun f => 0 <= fst f < 2 ^ 16 /\ Z.of_nat (length (snd f)) <= 65534) fs ->
  decode (concat (map (fun f => encode (fst f) (snd f)) fs) ++ bs) =
  let '(fs', s, r) := decode bs in (fs ++ fs', s, r).
Proof.
  induction 1 as [|[i body] fs [Hi Hb] _ IH]; cbn [map concat fst snd].
  - simpl app. by destruct (decode bs) as [[? ?] ?].
  - rewrite <- app_assoc, decode_encode by done. rewrite IH. by destruct (decode bs) as [[? ?] ?].
Qed.

(** An illegal length field. *)
Lemma decode_illegal (len : Z) (tail : list byte) :
  0 <= len < 2 \/ 65536 < len < 2 ^ 32 -> decode (be_store 4 len ++ tail) = ([], true, []).
Proof.
  intros Hlen. rewrite decode_eq, length_app, length_be_store. destruct (Nat.ltb_spec (4 + length tail) 4); [lia|].
  rewrite take_app_le, take_ge by (rewrite length_be_store; lia).
  rewrite be_load_store, Z.mod_small by (change (Z.of_nat 4) with 4; lia). cbv zeta.
  destruct (Z.ltb_spec len 2), (Z.ltb_spec 65536 len); simpl; done || lia.
Qed.

(** ** Properties *)

(** C8: Frames survive the byte stream: whatever the boundaries at which the
    stream of encoded frames is cut into chunks (sticky and half packets), the
    receiver hands exactly the sent frames to the callback, in order, keeps no
    byte and does not close the connection. *)
Theorem codec_roundtrip_any_chunking (fs : list frame) (chunks : list (list byte))
  (Hfs : Forall (fun f => 0 <= fst f < 2 ^ 16 /\ Z.of_nat (length (snd f)) <= 65534) fs)
  (Hcut : concat chunks = concat (map (fun f => encode (fst f) (snd f)) fs)) :
  exists o, feed chunks Buffer.init = Ok o /\
    dispatched o = fs /\ shut o = false /\ Buffer.readableBytes (rest o) = 0%nat.
Proof.
  destruct (feed_decode chunks Buffer.init fs []) as (o & Ho & Hd & Hs & Hr).
  - apply Buffer.wf_init_buffer.
  - rewrite Buffer.readable_init, Hcut. simpl app.
    rewrite <- (app_nil_r (concat (map _ _))), decode_encode_all by done. simpl. by rewrite app_nil_r.
  - done.
  - exists o. split_and!; [done..|].
    destruct (feed_total chunks Buffer.init Buffer.wf_init_buffer) as (o' & Ho' & Hwf). assert (o' = o) as -> by congruence.
    rewrite <- (Buffer.length_readable _ Hwf), Hr. done.
Qed.

Lemma codec_roundtrip_any_chunking_witness :
  exists o, feed [[x00; x00; x00]; [x05; x00; x02; x61; x62; x63; x00]; [x00; x00; x02; x00; x0a]] Buffer.init = Ok o /\
    dispatched o = [(2, [x61; x62; x63]); (10, [])] /\ shut o = false /\ Buffer.readableBytes (rest o) = 0%nat.
Proof.
  apply (codec_roundtrip_any_chunking [(2, [x61; x62; x63]); (10, [])]).
  - repeat constructor; simpl; lia.
  - vm_compute. reflexivity.
Defined.

(** Whatever bytes arrive, in whatever chunks, processing them always
    succeeds (no failed assertion, no read outside the readable bytes), every
    frame handed to the callback has a 16-bit id and a body of at most 65534
    bytes, and after each call less than one maximal frame is kept. *)
Theorem codec_safe_on_any_input (chunks : list (list byte)) (c : list byte) :
  exists o o', feed chunks Buffer.init = Ok o /\
    onMessage (Buffer.append c (rest o)) = Ok o' /\
    Forall (fun f => 0 <= fst f < 2 ^ 16 /\ Z.of_nat (length (snd f)) <= 65534) (dispatched o') /\
    Z.of_nat (Buffer.readableBytes (rest o')) < 65540.
Proof.
  destruct (feed_total chunks Buffer.init Buffer.wf_init_buffer) as (o & Ho & Hwf).
  destruct (Buffer.append_spec c (rest o) Hwf) as (Hwf1 & _).
  destruct (onMessage_decode _ Hwf1) as (o' & Ho' & Hwf2 & Hd).
  exists o, o'. pose proof (decode_bounds (Buffer.readable (Buffer.append c (rest o)))) as Hb.
  rewrite Hd in Hb. destruct Hb as [Hb1 Hb2]. split_and!; [done..|].
  rewrite <- (Buffer.length_readable _ Hwf2). lia.
Qed.

(** An illegal length field (below 2 or above 65536) closes the connection:
    the frames before it are handed out, then [shutdown] is called, and the
    rest of the buffer is dropped without being parsed. *)
Theorem illegal_frame_shuts_down (b : Buffer.t) (fs : list frame) (len : Z) (tail : list byte)
  (Hwf : Buffer.wf b)
  (Hfs : Forall (fun f => 0 <= fst f < 2 ^ 16 /\ Z.of_nat (length (snd f)) <= 65534) fs)
  (Hlen : 0 <= len < 2 \/ 65536 < len < 2 ^ 32)
  (Hb : Buffer.readable b = concat (map (fun f => encode (fst f) (snd f)) fs) ++ be_store 4 len ++ tail) :
  exists o, onMessage b = Ok o /\ dispatched o = fs /\ shut o = true /\ Buffer.readable (rest o) = [].
Proof.
  destruct (onMessage_decode b Hwf) as (o & Ho & _ & Hd). exists o.
  rewrite Hb, decode_encode_all, decode_illegal in Hd by done. simpl in Hd. rewrite app_nil_r in Hd.
  injection Hd as <- <- <-. done.
Qed.

Lemma illegal_frame_shuts_down_witness :
  exists o, onMessage (Buffer.append (encode 2 [x07] ++ be_store 4 65537 ++ encode 2 [x08]) Buffer.init) = Ok o /\
    dispatched o = [(2, [x07])] /\ shut o = true /\ Buffer.readable (rest o) = [].
Proof.
  apply (illegal_frame_shuts_down _ [(2, [x07])] 65537 (encode 2 [x08])).
  - apply Buffer.append_spec, Buffer.wf_init_buffer.
  - repeat constructor; simpl; lia.
  - lia.
  - vm_compute. reflexivity.
Defined.

(** After an illegal frame the connection still parses input: the codec
    keeps no error state, so bytes that arrive after the shutdown are cut into
    frames and dispatched again. *)
Theorem frames_dispatched_after_illegal_frame (len : Z) (f : frame)
  (Hlen : 0 <= len < 2 \/ 65536 < len < 2 ^ 32)
  (Hf : 0 <= fst f < 2 ^ 16 /\ Z.of_nat (length (snd f)) <= 65534) :
  exists o, feed [be_store 4 len; encode (fst f) (snd f)] Buffer.init = Ok o /\
    shut o = true /\ dispatched o = [f].
Proof.
  destruct (Buffer.append_spec (be_store 4 len) Buffer.init Buffer.wf_init_buffer) as (Hwf1 & Hr1 & _).
  destruct (onMessage_decode _ Hwf1) as (o1 & Ho1 & Hwf2 & Hd1).
  rewrite Hr1, Buffer.readable_init, app_nil_l in Hd1.
  rewrite <- (app_nil_r (be_store 4 len)), decode_illegal in Hd1 by done. injection Hd1 as Hf1 Hs1 Hrd1.
  destruct (Buffer.append_spec (encode (fst f) (snd f)) (rest o1) Hwf2) as (Hwf3 & Hr3 & _).
  destruct (onMessage_decode _ Hwf3) as (o2 & Ho2 & Hwf4 & Hd2).
  rewrite Hr3, <- Hrd1, app_nil_l in Hd2.
  rewrite <- (app_nil_r (encode _ _)), decode_encode in Hd2 by naive_solver.
  injection Hd2 as Hf2 Hs2 Hrd2.
  cbn [feed]. rewrite Ho1. cbn [res_bind]. rewrite Ho2. cbn [res_bind].
  eexists. split; [done|]. simpl. rewrite <- Hs1, <- Hf1, <- Hf2. by destruct f.
Qed.

Lemma frames_dispatched_after_illegal_frame_witness :
  exists o, feed [be_store 4 1; encode 3 [x0a]] Buffer.init = Ok o /\ shut o = true /\ dispatched o = [(3, [x0a])].
Proof. apply (frames_dispatched_after_illegal_frame 1 (3, [x0a])); simpl; lia. Defined.

End Codec.

(** ** The dispatcher

    [A] is the effect of a handler call. A registered handler parses the body
    and reads [defaultHandler_] when it is called, not when it is registered. *)

Module Dispatcher.

Section Dispatcher.
Context {A : Type}.

Record t : Type := mk {
  handlers_ : gmap Z (list byte -> option A);
  defaultHandler_ : option (Z -> A);
}.

Definition empty : t := mk ∅ None.

Definition registerHandler {M} (msgId : Z) (ParseFromArray : list byte -> option M) (h : M -> A) (d : t) : t :=
  mk (<[msgId := fun data => h <$> ParseFromArray data]> (handlers_ d)) (defaultHandler_ d).

Definition setDefaultHandler (h : Z -> A) (d : t) : t := mk (handlers_ d) (Some h).

Definition onRawMessage (d : t) (msgId : Z) (data : list byte) : option A :=
  match handlers_ d !! msgId with
  | Some raw =>
      match raw data with
      | Some a => Some a
      | None => match defaultHandler_ d with Some h => Some (h msgId) | None => None end
      end
  | None => match defaultHandler_ d with Some h => Some (h msgId) | None => None end
  end.

End Dispatcher.
Arguments t : clear implicits.

(** The frames of one [onMessage] call through the dispatcher. *)
Definition dispatch_all {A} (d : t A) (fs : list (Z * list byte)) : list A :=
  omap (fun f => onRawMessage d (fst f) (snd f)) fs.

Section Delivery.
Context {M A : Type} (SerializeToArray : M -> list byte) (ParseFromArray : list byte -> option M).

(** What the code relies on of protobuf: a message parses back from its
    serialisation. *)
Hypothesis parse_serialize : forall m, ParseFromArray (SerializeToArray m) = Some m.

(** Typed messages arrive: messages of type [M] sent under [msgId] over a
    stream cut into any chunks reach the handler registered for [msgId], parsed
    back, in the order in which they were sent. *)
Theorem typed_messages_delivered (d : t A) (msgId : Z) (h : M -> A) (ms : list M) (chunks : list (list byte))
  (Hid : (0 <= msgId < 2 ^ 16)%Z)
  (Hlen : Forall (fun m => (Z.of_nat (length (SerializeToArray m)) <= 65534)%Z) ms)
  (Hcut : concat chunks = concat (map (fun m => Codec.encode msgId (SerializeToArray m)) ms)) :
  exists o, Codec.feed chunks Buffer.init = Ok o /\ Codec.shut o = false /\
    dispatch_all (registerHandler msgId ParseFromArray h d) (Codec.dispatched o) = map h ms.
Proof.
  destruct (Codec.feed_decode chunks Buffer.init (map (fun m => (msgId, SerializeToArray m)) ms) [])
    as (o & Ho & Hd & Hs & _).
  - apply Buffer.wf_init_buffer.
  - rewrite Buffer.readable_init, Hcut. simpl app.
    replace (map (fun m => Codec.encode msgId (SerializeToArray m)) ms)
      with (map (fun f => Codec.encode (fst f) (snd f)) (map (fun m => (msgId, SerializeToArray m)) ms))
      by (by rewrite map_map).
    rewrite <- (app_nil_r (concat _)), Codec.decode_encode_all; [simpl; by rewrite app_nil_r|].
    apply Forall_map. eapply Forall_impl; [exact Hlen|]. done.
  - done.
  - exists o. split_and!; [done..|]. rewrite Hd. clear -parse_serialize. unfold dispatch_all.
    induction ms as [|m ms IH]; [done|]. simpl. unfold onRawMessage at 1. simpl.
    rewrite lookup_insert_eq, parse_serialize. simpl. f_equal. exact IH.
Qed.

End Delivery.

Lemma typed_messages_delivered_witness :
  exists o, Codec.feed [[x00; x00; x00; x03; x00]; [x03; x2a]] Buffer.init = Ok o /\ Codec.shut o = false /\
    dispatch_all (registerHandler 3 (fun bs => match bs with [b] => Some b | _ => None end) (fun b => [b]) empty)
      (Codec.dispatched o) = [[x2a]].
Proof.
  apply (typed_messages_delivered (fun b => [b]) (fun bs => match bs with [b] => Some b | _ => None end)
           (fun m => eq_refl) empty 3 (fun b => [b]) [x2a]).
  - lia.
  - repeat constructor; simpl; lia.
  - vm_compute. reflexivity.
Defined.

End Dispatcher.
