(* ===== verification/TcpConnection.v ===== *)
(** * TCP connections ([src/src/net/TcpConnection.h], [TcpConnection.cc])

    The members of a connection run on its IO loop, except [send] and
    [shutdown], which any thread may call and which then post a task to the
    loop. A member is a function of the state to the new state and the trace of
    what it did: system calls, calls on the loop and callbacks.

    The kernel is an argument: the answers of [read] and [write] are lists, and
    a socket whose list is used up answers [EAGAIN], which is how a
    non-blocking socket ends every loop of reads or writes. An answer of [write]
    is cut to the bytes of the call, more than which it never takes. The
    connection is modelled from [connectEstablished] on. The callbacks are set, as [TcpServer] does; the message callback is an argument that returns
    what it leaves in the input buffer and the calls it makes on the
    connection, on the loop's own thread. The test and the assignment of
    [state_] in [shutdown] are one step. *)

From stdpp Require Import base sets list.
From Stdlib Require Import ZArith Lia.
From Stdlib Require Import Strings.Byte.
From S2P Require Import Prelude Poller Buffer Codec.

Module TcpConnection.

Local Open Scope Z_scope.
Import Buffer(errno, EAGAIN, EINTR, EOTHER, read_result, ReadErr, ReadOk).

Inductive State : Type := kConnecting | kConnected | kDisconnecting | kDisconnected.

#[global] Instance State_eq_dec : EqDecision State.
Proof. solve_decision. Defined.

(** [events_] is the interest of [channel_]. *)
Record t : Type := mk {
  state_ : State;
  events_ : Z;
  inputBuffer_ : Buffer.t;
  outputBuffer_ : Buffer.t;
}.

(** The return value of [write] (if it is given that many bytes) and the
    [errno] after it. *)
Definition write_result : Type := Z * errno.

Definition returned (r : write_result) (data : list byte) : Z := Z.min (fst r) (Z.of_nat (length data)).

Inductive effect : Type :=
  | SendInLoop (msg : list byte)
  | Write (data : list byte) (n : Z)
  | Read (data : list byte)
  | ReadFailed
  | ShutWr
  | UpdateChannel (ev : Z)
  | RemoveChannel
  | ConnectionCb (connected : bool)
  | MessageCb (buf : Buffer.t)
  | Post (msg : list byte)
  | CloseCb.

Definition init : t := mk kConnecting 0 Buffer.init Buffer.init.

Definition set_state (st : State) (c : t) : t := mk st (events_ c) (inputBuffer_ c) (outputBuffer_ c).

Definition set_input (b : Buffer.t) (c : t) : t := mk (state_ c) (events_ c) b (outputBuffer_ c).

Definition set_output (b : Buffer.t) (c : t) : t := mk (state_ c) (events_ c) (inputBuffer_ c) b.

(** The calls on [channel_], which end in [loop_->updateChannel]. *)
Definition set_channel (ev : Z) (c : t) : t * list effect :=
  (mk (state_ c) ev (inputBuffer_ c) (outputBuffer_ c), [UpdateChannel ev]).

Definition enableReading (c : t) : t * list effect := set_channel (Channel.reading (events_ c)) c.

Definition enableWriting (c : t) : t * list effect := set_channel (Channel.writing (events_ c)) c.

Definition disableWriting (c : t) : t * list effect := set_channel (Channel.not_writing (events_ c)) c.

Definition disableAll (c : t) : t * list effect := set_channel 0 c.

Definition isWriting (c : t) : bool := Channel.isWriting (events_ c).

(** ** Members that run on the loop *)

Definition connectEstablished (c : t) : t * list effect :=
  let (c1, e1) := enableReading (set_state kConnected c) in
  (c1, e1 ++ [ConnectionCb true]).

Definition connectDestroyed (c : t) : t * list effect :=
  if decide (state_ c = kConnected) then
    let (c1, e1) := disableAll (set_state kDisconnected c) in
    (c1, e1 ++ [ConnectionCb false; RemoveChannel])
  else (c, [RemoveChannel]).

Definition handleClose (c : t) : t * list effect :=
  let (c1, e1) := disableAll (set_state kDisconnected c) in
  (c1, e1 ++ [ConnectionCb false; CloseCb]).

Definition handleError (c : t) : t * list effect := handleClose c.

Definition shutdownInLoop (c : t) : t * list effect :=
  (c, if isWriting c then [] else [ShutWr]).

(** The rest of [sendInLoop] after the direct write: what was not written goes
    to the output buffer. *)
Definition queue_output (remaining : list byte) (c : t) : t * list effect :=
  match remaining with
  | [] => (c, [])
  | _ =>
      let c1 := set_output (Buffer.append remaining (outputBuffer_ c)) c in
      if isWriting c1 then (c1, []) else enableWriting c1
  end.

(** [r] is the answer of [write], should it be called. *)
Definition sendInLoop (msg : list byte) (r : write_result) (c : t) : t * list effect :=
  if decide (state_ c = kDisconnected) then (c, [])
  else if negb (isWriting c) && (Buffer.readableBytes (outputBuffer_ c) =? 0)%nat then
    let nwrote := returned r msg in
    if 0 <=? nwrote then
      let (c1, e1) := queue_output (drop (Z.to_nat nwrote) msg) c in (c1, SendInLoop msg :: Write msg nwrote :: e1)
    else match snd r with
         | EOTHER => let (c1, e1) := handleError c in (c1, SendInLoop msg :: Write msg nwrote :: e1)
         | _ => let (c1, e1) := queue_output msg c in (c1, SendInLoop msg :: Write msg nwrote :: e1)
         end
  else let (c1, e1) := queue_output msg c in (c1, SendInLoop msg :: e1).

Inductive write_end : Type := Written | Full | Broken.

(** The loop of [handleWrite] over the answers of [write]. *)
Fixpoint write_loop (ws : list write_result) (b : Buffer.t) : res (write_end * Buffer.t * list effect) :=
  if (Buffer.readableBytes b =? 0)%nat then Ok (Written, b, [])
  else match ws with
       | [] => Ok (Full, b, [Write (Buffer.readable b) (-1)])
       | r :: ws' =>
           let n := returned r (Buffer.readable b) in
           let wr := Write (Buffer.readable b) n in
           if 0 <? n then
             (let! b1 := Buffer.retrieve (Z.to_nat n) b in
              let! (en, b2, e) := write_loop ws' b1 in
              Ok (en, b2, wr :: e))%gs
           else match snd r with
                | EAGAIN => Ok (Full, b, [wr])
                | EINTR => (let! (en, b2, e) := write_loop ws' b in Ok (en, b2, wr :: e))%gs
                | EOTHER => Ok (Broken, b, [wr])
                end
       end.

Definition handleWrite (ws : list write_result) (c : t) : res (t * list effect) :=
  if negb (isWriting c) then Ok (c, [])
  else
    (let! (en, b, e) := write_loop ws (outputBuffer_ c) in
     let c1 := set_output b c in
     Ok (match en with
         | Full => (c1, e)
         | Broken => let (c2, e2) := handleError c1 in (c2, e ++ e2)
         | Written =>
             let (c2, e2) := disableWriting c1 in
             if decide (state_ c2 = kDisconnecting) then
               let (c3, e3) := shutdownInLoop c2 in (c3, e ++ e2 ++ e3)
             else (c2, e ++ e2)
         end))%gs.

Inductive read_end : Type := Drained | PeerClosed | Failed.

(** The loop of [handleRead] over the answers of [readv]. *)
Fixpoint read_loop (rs : list read_result) (b : Buffer.t) : read_end * Buffer.t * list effect :=
  match rs with
  | [] => (Drained, b, [])
  | r :: rs' =>
      let '(n, savedErrno, b1) := Buffer.readFd r b in
      if 0 <? n then
        let '(en, b2, e) := read_loop rs' b1 in
        (en, b2, (match r with ReadOk data => [Read data] | ReadErr _ => [] end) ++ e)
      else if n =? 0 then (PeerClosed, b1, [])
      else match savedErrno with
           | Some EAGAIN => (Drained, b1, [])
           | Some EINTR => read_loop rs' b1
           | _ => (Failed, b1, [ReadFailed])
           end
  end.

(** What the message callback calls on the connection, and the answers of
    [write] to its sends. *)
Inductive call : Type := CallSend (msg : list byte) (r : write_result) | CallShutdown.

(** [send] and [shutdown] on the loop's own thread. *)
Definition exec_call (cl : call) (c : t) : t * list effect :=
  match cl with
  | CallSend msg r => if decide (state_ c = kConnected) then sendInLoop msg r c else (c, [])
  | CallShutdown =>
      if decide (state_ c = kConnected) then shutdownInLoop (set_state kDisconnecting c) else (c, [])
  end.

Fixpoint exec_calls (cls : list call) (c : t) : t * list effect :=
  match cls with
  | [] => (c, [])
  | cl :: cls' =>
      let (c1, e1) := exec_call cl c in
      let (c2, e2) := exec_calls cls' c1 in
      (c2, e1 ++ e2)
  end.

Section Callback.
Context (messageCb : Buffer.t -> Buffer.t * list call).

(** [messageCb_] when there is something to read. *)
Definition deliver (c : t) : t * list effect :=
  let b := inputBuffer_ c in
  if (0 <? Buffer.readableBytes b)%nat then
    let (b', cls) := messageCb b in
    let (c', e') := exec_calls cls (set_input b' c) in
    (c', MessageCb b :: e')
  else (c, []).

Definition handleRead (rs : list read_result) (c : t) : t * list effect :=
  let '(en, b, e1) := read_loop rs (inputBuffer_ c) in
  let c1 := set_input b c in
  match en with
  | Failed => let (c2, e2) := handleError c1 in (c2, e1 ++ e2)
  | Drained => let (c2, e2) := deliver c1 in (c2, e1 ++ e2)
  | PeerClosed =>
      let (c2, e2) := deliver c1 in
      let (c3, e3) := handleClose c2 in
      (c3, e1 ++ e2 ++ e3)
  end.

(** ** The connection on its loop *)

(** The tasks posted to the loop. *)
Inductive task : Type := TSend (msg : list byte) | TShutdown | TDestroy.

(** What happens to a connection: other threads call [send] and [shutdown]; [TcpServer] posts
    [connectDestroyed]; the loop runs the next task, or hands it the events the
    kernel reports. *)
Inductive event : Type :=
  | EvSend (msg : list byte)
  | EvShutdown
  | EvDestroy
  | EvTask (r : write_result)
  | EvReady (revents : Z) (rs : list read_result) (ws : list write_result).

Definition run_callback (rs : list read_result) (ws : list write_result) (cb : Channel.callback) (c : t)
  : res (t * list effect) :=
  match cb with
  | Channel.CbClose => Ok (handleClose c)
  | Channel.CbError => Ok (handleError c)
  | Channel.CbRead => Ok (handleRead rs c)
  | Channel.CbWrite => handleWrite ws c
  end.

Fixpoint run_callbacks (rs : list read_result) (ws : list write_result) (cbs : list Channel.callback) (c : t)
  : res (t * list effect) :=
  match cbs with
  | [] => Ok (c, [])
  | cb :: cbs' =>
      (let! (c1, e1) := run_callback rs ws cb c in
       let! (c2, e2) := run_callbacks rs ws cbs' c1 in
       Ok (c2, e1 ++ e2))%gs
  end.

Definition exec_task (tk : task) (r : write_result) (c : t) : t * list effect :=
  match tk with
  | TSend msg => sendInLoop msg r c
  | TShutdown => shutdownInLoop c
  | TDestroy => connectDestroyed c
  end.

(** A connection with the tasks waiting for it in its loop. *)
Notation conn := (t * list task)%type.

Definition exec (ev : event) (s : conn) : res (conn * list effect) :=
  let (c, ts) := s in
  match ev with
  | EvSend msg => Ok (if decide (state_ c = kConnected) then ((c, ts ++ [TSend msg]), [Post msg]) else ((c, ts), []))
  | EvShutdown =>
      Ok (if decide (state_ c = kConnected) then (set_state kDisconnecting c, ts ++ [TShutdown]) else (c, ts), [])
  | EvDestroy => Ok ((c, ts ++ [TDestroy]), [])
  | EvTask r =>
      match ts with
      | [] => Ok ((c, []), [])
      | tk :: ts' => let (c1, e) := exec_task tk r c in Ok ((c1, ts'), e)
      end
  | EvReady revents rs ws =>
      (let! (c1, e) := run_callbacks rs ws (Channel.handleEvent revents) c in Ok ((c1, ts), e))%gs
  end.

Fixpoint run (evs : list event) (s : conn) : res (conn * list effect) :=
  match evs with
  | [] => Ok (s, [])
  | ev :: evs' =>
      (let! (s1, e1) := exec ev s in
       let! (s2, e2) := run evs' s1 in
       Ok (s2, e1 ++ e2))%gs
  end.

End Callback.

Notation conn := (t * list task)%type.

(** The message callback [GameServer] sets: the codec on the input buffer. *)
Definition codecCb (b : Buffer.t) : Buffer.t * list call :=
  match Codec.onMessage b with
  | Ok o => (Codec.rest o, if Codec.shut o then [CallShutdown] else [])
  | UB => (b, [])
  end.

(** The connection after [connectEstablished]. *)
Definition established : conn := (fst (connectEstablished init), []).

(** ** Specification *)

(** The bytes a [write] put on the wire. *)
Definition written (e : effect) : list byte :=
  match e with Write data n => take (Z.to_nat n) data | _ => [] end.

Definition wire (tr : list effect) : list byte := flat_map written tr.

(** The messages handed to [sendInLoop] of a connection that is not closed. *)
Definition sent1 (e : effect) : list byte := match e with SendInLoop msg => msg | _ => [] end.

Definition sent (tr : list effect) : list byte := flat_map sent1 tr.

(** A closed connection: [connectionCb_] was told. *)
Definition closing (e : effect) : bool := match e with ConnectionCb b => negb b | _ => false end.

Definition closed (tr : list effect) : bool := existsb closing tr.

(** Before the connection is closed, [SHUT_WR] comes when everything is
    written; [w] and [s] are what was written and sent before [tr]. *)
Fixpoint fin_ok (w s : list byte) (tr : list effect) : Prop :=
  match tr with
  | [] => True
  | e :: tr' =>
      (e = ShutWr -> w = s) /\ (closing e = false -> fin_ok (w ++ written e) (s ++ sent1 e) tr')
  end.

(** What [send] on other threads accepted. *)
Definition posted (tr : list effect) : list byte :=
  flat_map (fun e => match e with Post msg => msg | _ => [] end) tr.

Definition pending (ts : list task) : list byte :=
  flat_map (fun tk => match tk with TSend msg => msg | _ => [] end) ts.

(** The bytes read from the socket. *)
Definition received (tr : list effect) : list byte :=
  flat_map (fun e => match e with Read data => data | _ => [] end) tr.

(** The frames the codec hands to the dispatcher. *)
Definition frames (tr : list effect) : list Codec.frame :=
  flat_map (fun e => match e with
                     | MessageCb b => match Codec.onMessage b with Ok o => Codec.dispatched o | UB => [] end
                     | _ => []
                     end) tr.

(** ** The output side *)

(** The invariant: [w] and [s] are what was written and sent so far. *)
Definition Out (c : t) (w s : list byte) : Prop :=
  Buffer.wf (outputBuffer_ c) /\ exists rest, s = w ++ rest /\
  if decide (state_ c = kDisconnected) then isWriting c = false
  else rest = Buffer.readable (outputBuffer_ c) /\ (isWriting c = true <-> rest <> []).

(** A piece of execution that keeps it. *)
Definition good (c : t) (e : list effect) (c' : t) : Prop :=
  forall w s, Out c w s ->
  Out c' (w ++ wire e) (s ++ sent e) /\
  if decide (state_ c = kDisconnected) then state_ c' = kDisconnected
  else fin_ok w s e /\ (state_ c' = kDisconnected -> closed e = true).

Lemma wire_app e1 e2 : wire (e1 ++ e2) = wire e1 ++ wire e2.
Proof. apply flat_map_app. Qed.

Lemma sent_app e1 e2 : sent (e1 ++ e2) = sent e1 ++ sent e2.
Proof. apply flat_map_app. Qed.

Lemma closed_app e1 e2 : closed (e1 ++ e2) = closed e1 || closed e2.
Proof. apply existsb_app. Qed.

Lemma fin_ok_app w s e1 e2 :
  fin_ok w s e1 -> (closed e1 = false -> fin_ok (w ++ wire e1) (s ++ sent e1) e2) -> fin_ok w s (e1 ++ e2).
Proof.
  revert w s. induction e1 as [|e e1 IH]; intros w s H1 H2.
  { simpl in H2. rewrite !app_nil_r in H2. by apply H2. }
  destruct H1 as [Hw H1]. split; [done|]. intros Hc. apply IH; [by apply H1|]. intros Hc1.
  rewrite <- !(assoc_L (++)). apply H2. simpl. by rewrite Hc.
Qed.

Lemma good_wf c e c' : (Buffer.wf (outputBuffer_ c) -> good c e c') -> good c e c'.
Proof. intros H w s Ho. by apply H; [apply Ho|]. Qed.

Lemma good_refl c : good c [] c.
Proof.
  intros w s H. simpl. rewrite !app_nil_r. split; [done|]. destruct (decide _); [done|]. by split.
Qed.

Lemma good_trans c1 e1 c2 e2 c3 : good c1 e1 c2 -> good c2 e2 c3 -> good c1 (e1 ++ e2) c3.
Proof.
  intros H1 H2 w s H. destruct (H1 w s H) as [Ho1 Hs1]. destruct (H2 _ _ Ho1) as [Ho2 Hs2].
  rewrite wire_app, sent_app, closed_app, !(assoc_L (++)). split; [done|].
  destruct (decide (state_ c1 = kDisconnected)) as [E1|E1].
  - rewrite decide_True in Hs2 by done. done.
  - destruct Hs1 as [Hf1 Hc1]. destruct (decide (state_ c2 = kDisconnected)) as [E2|E2].
    + rewrite (Hc1 E2). split; [|done]. apply fin_ok_app; [done|]. by rewrite (Hc1 E2).
    + destruct Hs2 as [Hf2 Hc2]. split; [by apply fin_ok_app|]. intros E3. rewrite (Hc2 E3). apply orb_true_r.
Qed.

(** Pieces that write nothing, send nothing and keep the output side. *)
Lemma good_quiet c e c' :
  outputBuffer_ c' = outputBuffer_ c -> state_ c' = state_ c -> isWriting c' = isWriting c ->
  wire e = [] -> sent e = [] -> (forall w s, fin_ok w s e) -> good c e c'.
Proof.
  intros Ho Hs Hw He1 He2 Hf w s. unfold Out. rewrite He1, He2, !app_nil_r, Ho, Hs, Hw. intros H. split; [done|].
  destruct (decide _); [done|]. by split; [|intros ?].
Qed.

Lemma good_handleClose c : good c (snd (handleClose c)) (fst (handleClose c)).
Proof.
  intros w s (Hwf & rest & Hs & Hr). simpl. rewrite !app_nil_r. split.
  - split; [done|]. exists rest. split; [done|]. by rewrite decide_True.
  - destruct (decide _); [done|]. by split_and!.
Qed.

Lemma readable_nil b : Buffer.wf b -> Buffer.readableBytes b = 0%nat <-> Buffer.readable b = [].
Proof. intros H. rewrite <- (Buffer.length_readable b H). apply nil_length_inv_iff || (split; [apply nil_length_inv|by intros ->]). Qed.

Lemma good_shutdownInLoop c : good c (snd (shutdownInLoop c)) c.
Proof.
  intros w s H. pose proof H as (Hwf & rest & Hs & Hr). unfold shutdownInLoop. simpl.
  destruct (isWriting c) eqn:Ew; simpl; rewrite !app_nil_r; (split; [done|]); destruct (decide _) as [|Hd]; try done.
  destruct Hr as [-> [_ Hr]]. split; [|done]. simpl. split; [|done]. intros _. rewrite Hs.
  destruct (Buffer.readable (outputBuffer_ c)); [by rewrite app_nil_r|]. by specialize (Hr ltac:(done)).
Qed.

(** [sendInLoop] after a direct write of [direct] of an open connection whose
    output is empty, or without one. *)
Lemma Out_queue_output c w s direct remaining :
  state_ c <> kDisconnected -> Out c w s -> (direct = [] \/ Buffer.readable (outputBuffer_ c) = []) ->
  Out (fst (queue_output remaining c)) (w ++ direct) (s ++ direct ++ remaining) /\
  state_ (fst (queue_output remaining c)) = state_ c /\
  wire (snd (queue_output remaining c)) = [] /\ sent (snd (queue_output remaining c)) = [] /\
  forall w s, fin_ok w s (snd (queue_output remaining c)).
Proof.
  intros Hst (Hwf & rest & -> & Hr) Hd. rewrite decide_False in Hr by done. destruct Hr as [-> Hw].
  assert (Buffer.readable (outputBuffer_ c) ++ direct = direct ++ Buffer.readable (outputBuffer_ c)) as Hcomm
    by (destruct Hd as [-> | ->]; by rewrite ?app_nil_r).
  destruct remaining as [|x rem].
  - simpl. split_and!; [|done..]. split; [done|]. exists (Buffer.readable (outputBuffer_ c)).
    rewrite decide_False by done. split; [|done]. by rewrite app_nil_r, <- !(assoc_L (++)), Hcomm.
  - unfold queue_output. set (c1 := set_output _ c). destruct (Buffer.append_spec (x :: rem) _ Hwf) as (Hwf1 & Hrd & _).
    assert (forall ev, Channel.isWriting ev = true ->
              Out (mk (state_ c) ev (inputBuffer_ c) (Buffer.append (x :: rem) (outputBuffer_ c)))
                (w ++ direct) ((w ++ Buffer.readable (outputBuffer_ c)) ++ direct ++ x :: rem)) as Hout.
    { intros ev Hev. split; [done|]. exists (Buffer.readable (outputBuffer_ c) ++ x :: rem). simpl.
      rewrite decide_False, Hrd by done. split_and!; [|done|].
      - rewrite <- !(assoc_L (++)). f_equal. rewrite !(assoc_L (++)). by rewrite Hcomm.
      - unfold isWriting. simpl. rewrite Hev. split; [|done]. intros _. by destruct (Buffer.readable _). }
    destruct (isWriting c1) eqn:E1; simpl; split_and!; try done; apply Hout; [done|apply Channel.isWriting_writing].
Qed.

(** A send that writes [direct] at once and queues the rest. *)
Lemma good_send c msg e0 direct remaining :
  state_ c <> kDisconnected -> msg = direct ++ remaining -> wire e0 = direct -> sent e0 = msg ->
  (forall w s, fin_ok w s e0) -> (direct = [] \/ Buffer.readable (outputBuffer_ c) = []) ->
  good c (e0 ++ snd (queue_output remaining c)) (fst (queue_output remaining c)).
Proof.
  intros Hd Hmsg Hw0 Hs0 Hf0 Hdir w s H.
  destruct (Out_queue_output c w s direct remaining Hd H Hdir) as (Ho & Hst & Hw & Hs & Hf).
  rewrite wire_app, sent_app, Hw, Hs, !app_nil_r, Hst, Hw0, Hs0, decide_False, Hmsg by done.
  split_and!; [done|by apply fin_ok_app|done].
Qed.

Lemma take_negative (n : Z) (l : list byte) : n < 0 -> take (Z.to_nat n) l = [].
Proof. intros. by replace (Z.to_nat n) with 0%nat by lia. Qed.

Lemma good_sendInLoop msg r c : good c (snd (sendInLoop msg r c)) (fst (sendInLoop msg r c)).
Proof.
  unfold sendInLoop. destruct (decide (state_ c = kDisconnected)) as [Hd|Hd]; [apply good_refl|].
  apply good_wf. intros Hwf. set (n := returned r msg).
  destruct (negb (isWriting c) && (Buffer.readableBytes (outputBuffer_ c) =? 0)%nat) eqn:E.
  - apply andb_prop in E as [_ E%Nat.eqb_eq%(readable_nil _ Hwf)].
    destruct (Z.leb_spec 0 n) as [Hn|Hn].
    + pose proof (good_send c msg [SendInLoop msg; Write msg n] (take (Z.to_nat n) msg) (drop (Z.to_nat n) msg)) as Hq.
      destruct (queue_output _ c) as [c1 e1]. apply Hq; [done|by rewrite take_drop|simpl; by rewrite app_nil_r..|done|by right].
    + pose proof (good_send c msg [SendInLoop msg; Write msg n] [] msg) as Hq.
      assert (good c (SendInLoop msg :: Write msg n :: snd (queue_output msg c)) (fst (queue_output msg c))) as Hq'.
      { apply Hq; try done; [by simpl; rewrite take_negative|by simpl; rewrite app_nil_r|by left]. }
      destruct (queue_output msg c) as [c1 e1]. destruct (snd r); [exact Hq'..|].
      intros w s (_ & rest & -> & _). simpl. rewrite decide_False, take_negative, !app_nil_r by done. split; [|done].
      split; [done|]. exists (rest ++ msg). rewrite (assoc_L (++)). split; [done|]. by rewrite decide_True.
  - pose proof (good_send c msg [SendInLoop msg] [] msg) as Hq.
    destruct (queue_output msg c) as [c1 e1]. apply Hq; try done; [by simpl; rewrite app_nil_r|by left].
Qed.

(** What the loop of [handleWrite] writes is cut off the output buffer. *)
Lemma write_loop_spec ws b :
  Buffer.wf b ->
  exists en b' e, write_loop ws b = Ok (en, b', e) /\ Buffer.wf b' /\
    Buffer.readable b = wire e ++ Buffer.readable b' /\ sent e = [] /\ (forall w s, fin_ok w s e) /\
    (en = Written -> Buffer.readable b' = []) /\ (en <> Written -> Buffer.readable b' <> []).
Proof.
  revert b. induction ws as [|r ws IH]; intros b Hwf; cbn [write_loop];
    destruct (Nat.eqb_spec (Buffer.readableBytes b) 0) as [E|E]; rewrite (readable_nil b Hwf) in E.
  1, 3: eexists _, _, _; split; [done|]; by split_and!.
  { eexists _, _, _. split; [done|]. by split_and!. }
  set (n := returned r (Buffer.readable b)). cbv zeta. destruct (Z.ltb_spec 0 n) as [Hn|Hn].
  - destruct (Buffer.retrieve_spec (Z.to_nat n) b Hwf) as (b1 & -> & Hwf1 & Hr1).
    { rewrite <- Buffer.length_readable by done. unfold n, returned. lia. }
    cbn [res_bind]. destruct (IH b1 Hwf1) as (en & b' & e & -> & Hwf' & Hs' & Hse & Hf & He).
    eexists _, _, _. split; [reflexivity|]. split_and!; try done; try apply He.
    change (Buffer.readable b = (take (Z.to_nat n) (Buffer.readable b) ++ wire e) ++ Buffer.readable b').
    by rewrite <- (assoc_L (++)), <- Hs', Hr1, take_drop.
  - assert (written (Write (Buffer.readable b) n) = []) as Hw0 by (simpl; by replace (Z.to_nat n) with 0%nat by lia).
    assert (wire [Write (Buffer.readable b) n] = []) as Hw1 by (unfold wire; cbn [flat_map]; by rewrite Hw0).
    destruct (snd r).
    + eexists _, _, _. split; [done|]. rewrite Hw1. by split_and!.
    + destruct (IH b Hwf) as (en & b' & e & -> & Hwf' & Hs' & Hse & Hf & He).
      eexists _, _, _. split; [reflexivity|]. unfold wire in *. cbn [flat_map]. rewrite Hw0. simpl app.
      split_and!; try done; apply He.
    + eexists _, _, _. split; [done|]. rewrite Hw1. by split_and!.
Qed.

(** A connection that was writing, after the loop wrote [e] of its output. *)
Lemma good_flush c e b ev :
  isWriting c = true -> Buffer.wf b -> Buffer.readable (outputBuffer_ c) = wire e ++ Buffer.readable b ->
  sent e = [] -> (forall w s, fin_ok w s e) -> (Channel.isWriting ev = true <-> Buffer.readable b <> []) ->
  good c e (mk (state_ c) ev (inputBuffer_ c) b).
Proof.
  intros Hw Hwf Hr Hse Hf Hev w s (_ & rest & -> & Ho). destruct (decide (state_ c = kDisconnected)); [congruence|].
  destruct Ho as [-> _]. rewrite Hse, app_nil_r. simpl. split; [|by split].
  split; [done|]. exists (Buffer.readable b). rewrite decide_False by done. by rewrite Hr, (assoc_L (++)).
Qed.

Lemma good_handleWrite ws c :
  Buffer.wf (outputBuffer_ c) -> exists c' e, handleWrite ws c = Ok (c', e) /\ good c e c'.
Proof.
  intros Hwf. unfold handleWrite. destruct (isWriting c) eqn:Ew; simpl; [|eexists _, _; split; [done|apply good_refl]].
  destruct (write_loop_spec ws (outputBuffer_ c) Hwf) as (en & b & e & -> & Hwf' & Hr & Hse & Hf & Hwr & Hfu). simpl.
  assert (en <> Written -> good c e (set_output b c)) as Hfull.
  { intros Hen. apply good_flush; try done. split; [by intros _; apply Hfu|done]. }
  destruct en.
  - assert (good c (e ++ [UpdateChannel (Channel.not_writing (events_ c))])
              (fst (disableWriting (set_output b c)))) as Hg.
    { apply (good_flush c _ b (Channel.not_writing (events_ c))); rewrite ?wire_app, ?sent_app, ?app_nil_r; try done.
      - intros w s. by apply fin_ok_app.
      - rewrite Channel.isWriting_not_writing, Hwr by done. done. }
    destruct (decide (state_ c = kDisconnecting)) as [Hd|Hd].
    + eexists _, _. split; [done|]. pose proof (good_trans _ _ _ _ _ Hg (good_shutdownInLoop _)) as H.
      rewrite <- (assoc_L (++)) in H. exact H.
    + eexists _, _. split; [done|exact Hg].
  - eexists _, _. split; [done|]. by apply Hfull.
  - eexists _, _. split; [done|]. eapply good_trans; [by apply Hfull|]. apply good_handleClose.
Qed.

(** ** The whole connection *)

Lemma good_input b c : good c [] (set_input b c).
Proof. by apply good_quiet. Qed.

Lemma good_disconnecting c : state_ c = kConnected -> good c [] (set_state kDisconnecting c).
Proof.
  intros Hc w s (Hwf & rest & Hs & Hr). rewrite Hc, decide_False in Hr by done. simpl. rewrite !app_nil_r, Hc. split.
  - split; [done|]. exists rest. split; [done|]. simpl. done.
  - by rewrite decide_False.
Qed.

Lemma good_exec_calls cls c : good c (snd (exec_calls cls c)) (fst (exec_calls cls c)).
Proof.
  revert c. induction cls as [|cl cls IH]; intros c; simpl; [apply good_refl|].
  assert (good c (snd (exec_call cl c)) (fst (exec_call cl c))) as H.
  { destruct cl as [msg r|]; simpl; destruct (decide (state_ c = kConnected)) as [Hc|Hc]; try apply good_refl.
    - apply good_sendInLoop.
    - apply (good_trans _ [] (set_state kDisconnecting c)); [by apply good_disconnecting|apply good_shutdownInLoop]. }
  destruct (exec_call cl c) as [c1 e1]. specialize (IH c1). destruct (exec_calls cls c1) as [c2 e2].
  by eapply good_trans.
Qed.

Lemma good_reads rs b c en b' e :
  read_loop rs b = (en, b', e) -> good c e (set_input b' c).
Proof.
  intros Hr. assert (wire e = [] /\ sent e = [] /\ forall w s, fin_ok w s e) as (H1 & H2 & H3); [|by apply good_quiet].
  revert b en b' e Hr. induction rs as [|r rs IH]; intros b en b' e Hr; simpl in Hr; [by inv Hr|].
  destruct (Buffer.readFd r b) as [[n er] b1]. destruct (0 <? n).
  - destruct (read_loop rs b1) as [[en1 b2] e1] eqn:Er. destruct (IH _ _ _ _ Er) as (H1 & H2 & H3). inv Hr.
    destruct r; simpl; split_and!; done.
  - destruct (n =? 0); [by inv Hr|]. destruct er as [[]|]; inv Hr; by eauto.
Qed.

Section WithCallback.
Context (messageCb : Buffer.t -> Buffer.t * list call).

Lemma good_deliver c : good c (snd (deliver messageCb c)) (fst (deliver messageCb c)).
Proof.
  unfold deliver. destruct (_ <? _)%nat; [|apply good_refl]. destruct (messageCb _) as [b' cls].
  pose proof (good_exec_calls cls (set_input b' c)) as H. destruct (exec_calls cls _) as [c' e'].
  apply (good_trans _ [MessageCb _] (set_input b' c)); [by apply good_quiet|exact H].
Qed.

Lemma good_handleRead rs c : good c (snd (handleRead messageCb rs c)) (fst (handleRead messageCb rs c)).
Proof.
  unfold handleRead. destruct (read_loop rs (inputBuffer_ c)) as [[en b] e1] eqn:Er. apply (good_reads _ _ c) in Er.
  pose proof (good_deliver (set_input b c)) as Hd. destruct en.
  - destruct (deliver _ _) as [c2 e2]. by eapply good_trans.
  - destruct (deliver _ _) as [c2 e2]. eapply good_trans; [exact Er|]. eapply good_trans; [exact Hd|]. apply good_handleClose.
  - eapply good_trans; [exact Er|]. apply good_handleClose.
Qed.

Lemma good_run_callbacks rs ws cbs c w s :
  Out c w s -> exists c' e, run_callbacks messageCb rs ws cbs c = Ok (c', e) /\ good c e c'.
Proof.
  revert c w s. induction cbs as [|cb cbs IH]; intros c w s Ho; simpl; [eexists _, _; split; [done|apply good_refl]|].
  assert (exists c1 e1, run_callback messageCb rs ws cb c = Ok (c1, e1) /\ good c e1 c1) as (c1 & e1 & -> & H1).
  { destruct cb; simpl; try (eexists _, _; split; [apply f_equal, surjective_pairing|]).
    - apply good_handleClose.
    - apply good_handleClose.
    - apply good_handleRead.
    - apply good_handleWrite, Ho. }
  simpl. destruct (H1 _ _ Ho) as [Ho1 _]. destruct (IH _ _ _ Ho1) as (c2 & e2 & -> & H2). simpl.
  eexists _, _. split; [done|]. by eapply good_trans.
Qed.

Lemma good_exec_task tk r c : good c (snd (exec_task tk r c)) (fst (exec_task tk r c)).
Proof.
  destruct tk; simpl.
  - apply good_sendInLoop.
  - apply good_shutdownInLoop.
  - unfold connectDestroyed. destruct (decide (state_ c = kConnected)) as [Hc|Hc]; [|by apply good_quiet].
    intros w s (Hwf & rest & Hs & Hr). simpl. rewrite !app_nil_r, Hc, decide_False by done.
    split; [|by split_and!]. split; [done|]. exists rest. split; [done|]. by rewrite decide_True.
Qed.

Lemma good_exec ev c ts w s :
  Out c w s -> exists c' ts' e, exec messageCb ev (c, ts) = Ok ((c', ts'), e) /\ good c e c'.
Proof.
  intros Ho. destruct ev as [msg| | |r|rev rs ws]; simpl.
  - destruct (decide _); eexists _, _, _; (split; [done|]); by apply good_quiet.
  - destruct (decide _) as [Hc|]; eexists _, _, _; (split; [done|]); [by apply good_disconnecting|apply good_refl].
  - eexists _, _, _; split; [done|]. apply good_refl.
  - destruct ts as [|tk ts]; [eexists _, _, _; split; [done|]; apply good_refl|].
    pose proof (good_exec_task tk r c) as H. destruct (exec_task tk r c). by eexists _, _, _.
  - destruct (good_run_callbacks rs ws (Channel.handleEvent rev) c w s Ho) as (c' & e & -> & H). by eexists _, _, _.
Qed.

Lemma good_run evs c ts w s :
  Out c w s -> exists c' ts' tr, run messageCb evs (c, ts) = Ok ((c', ts'), tr) /\ good c tr c'.
Proof.
  revert c ts w s. induction evs as [|ev evs IH]; intros c ts w s Ho; cbn [run].
  { eexists _, _, _. split; [done|apply good_refl]. }
  destruct (good_exec ev c ts w s Ho) as (c1 & ts1 & e1 & -> & H1). cbn [res_bind]. destruct (H1 _ _ Ho) as [Ho1 _].
  destruct (IH c1 ts1 _ _ Ho1) as (c2 & ts2 & e2 & -> & H2). cbn [res_bind]. eexists _, _, _. split; [done|]. by eapply good_trans.
Qed.

End WithCallback.

Lemma Out_established : Out (fst established) [] [].
Proof.
  split; [apply Buffer.wf_init_buffer|]. exists []. split; [done|]. simpl. rewrite Buffer.readable_init. split; [done|].
  by vm_compute.
Qed.

Lemma fin_ok_split w s tr1 tr2 :
  fin_ok w s (tr1 ++ ShutWr :: tr2) -> closed tr1 = false -> w ++ wire tr1 = s ++ sent tr1.
Proof.
  revert w s. induction tr1 as [|e tr1 IH]; intros w s; simpl.
  - intros [H _] _. rewrite !app_nil_r. by apply H.
  - intros [_ H] [Hc1 Hc2]%orb_false_elim. rewrite !(assoc_L (++)). by apply IH; [apply H|].
Qed.

(** ** Posted messages *)

(** A message callback that sends nothing, as the one of the game server. *)
Definition no_sends (messageCb : Buffer.t -> Buffer.t * list call) : Prop :=
  forall b, Forall (fun cl => cl = CallShutdown) (snd (messageCb b)).

Definition quiet (e : list effect) : Prop := sent e = [] /\ posted e = [].

Lemma quiet_app e1 e2 : quiet e1 -> quiet e2 -> quiet (e1 ++ e2).
Proof. intros [H1 H2] [H3 H4]. unfold quiet, sent, posted in *. rewrite !flat_map_app. by rewrite H1, H2, H3, H4. Qed.

Lemma quiet_reads rs b : quiet (snd (read_loop rs b)).
Proof.
  revert b. induction rs as [|r rs IH]; intros b; simpl; [done|]. destruct (Buffer.readFd r b) as [[n er] b1].
  specialize (IH b1). destruct (0 <? n).
  - destruct (read_loop rs b1) as [[en b2] e]. destruct r; exact IH.
  - destruct (n =? 0); [done|]. destruct er as [[]|]; done.
Qed.

Lemma quiet_writes ws b en b' e : write_loop ws b = Ok (en, b', e) -> quiet e.
Proof.
  revert b en b' e. induction ws as [|r ws IH]; intros b en b' e; cbn [write_loop]; destruct (_ =? _)%nat;
    try (intros H; apply Ok_inj in H; by inv H).
  cbv zeta. destruct (0 <? _).
  - destruct (Buffer.retrieve _ b) as [b1|]; cbn [res_bind]; [|done].
    destruct (write_loop ws b1) as [[[en1 b2] e1]|] eqn:E; cbn [res_bind]; [|done]. intros H. apply Ok_inj in H. inv H.
    apply IH in E. exact E.
  - destruct (snd r); try (intros H; apply Ok_inj in H; by inv H).
    destruct (write_loop ws b) as [[[en1 b2] e1]|] eqn:E; cbn [res_bind]; [|done]. intros H. apply Ok_inj in H. inv H.
    apply IH in E. exact E.
Qed.

Lemma quiet_queue_output rem c : quiet (snd (queue_output rem c)).
Proof. destruct rem; simpl; [done|]. by destruct (isWriting _). Qed.

Lemma sendInLoop_log msg r c :
  state_ c <> kDisconnected -> posted (snd (sendInLoop msg r c)) = [] /\ sent (snd (sendInLoop msg r c)) = msg.
Proof.
  intros Hd. unfold sendInLoop. rewrite decide_False by done.
  pose proof (quiet_queue_output msg c) as [H1 H2].
  pose proof (quiet_queue_output (drop (Z.to_nat (returned r msg)) msg) c) as [H3 H4].
  unfold sent, posted in *. destruct (negb _ && _); [destruct (0 <=? _); [|destruct (snd r)]|].
  all: repeat (destruct (queue_output _ c)); simpl in *; rewrite ?H1, ?H2, ?H3, ?H4, ?app_nil_r; done.
Qed.

Section Posted.
Context (messageCb : Buffer.t -> Buffer.t * list call) (Hcb : no_sends messageCb).

Lemma quiet_deliver c : quiet (snd (deliver messageCb c)).
Proof.
  unfold deliver. destruct (_ <? _)%nat; [|done]. specialize (Hcb (inputBuffer_ c)). destruct (messageCb _) as [b' cls].
  simpl in Hcb. generalize (set_input b' c). induction Hcb as [|cl cls -> _ IH]; intros c1; simpl; [done|].
  specialize (IH (fst (exec_call CallShutdown c1))). simpl in IH.
  assert (quiet (snd (exec_call CallShutdown c1))) as H.
  { simpl. destruct (decide _); [|done]. unfold shutdownInLoop. simpl. by destruct (isWriting _). }
  simpl in H. destruct (if decide (state_ c1 = kConnected) then _ else _) as [c2 e2]. simpl in *.
  destruct (exec_calls cls c2) as [c3 e3]. simpl in *. by apply (quiet_app (MessageCb _ :: e2) e3).
Qed.

Lemma quiet_run_callbacks rs ws cbs c c' e : run_callbacks messageCb rs ws cbs c = Ok (c', e) -> quiet e.
Proof.
  revert c e. induction cbs as [|cb cbs IH]; intros c e; cbn [run_callbacks]; [intros H; apply Ok_inj in H; by inv H|].
  destruct (run_callback messageCb rs ws cb c) as [[c1 e1]|] eqn:E1; cbn [res_bind]; [|done].
  destruct (run_callbacks messageCb rs ws cbs c1) as [[c2 e2]|] eqn:E2; cbn [res_bind]; [|done].
  intros H. apply Ok_inj in H. inv H. apply quiet_app; [|by eapply IH].
  destruct cb; simpl in E1; try (apply Ok_inj in E1; by inv E1).
  - apply Ok_inj in E1. unfold handleRead in E1. pose proof (quiet_reads rs (inputBuffer_ c)) as Hr.
    destruct (read_loop _ _) as [[en b] er]. pose proof (quiet_deliver (set_input b c)) as Hd.
    destruct en; simpl in E1; destruct (deliver _ _) as [c3 e3]; inv E1; repeat apply quiet_app; done.
  - unfold handleWrite in E1. destruct (isWriting c); simpl in E1; [|apply Ok_inj in E1; by inv E1].
    destruct (write_loop ws _) as [[[en b] ew]|] eqn:Ew; simpl in E1; [|done]. apply quiet_writes in Ew.
    apply Ok_inj in E1. destruct en; simpl in E1; try destruct (decide _); inv E1; try apply quiet_app; try done.
    unfold isWriting. simpl. by rewrite Channel.isWriting_not_writing.
Qed.

(** What was posted is what was handed to [sendInLoop] and what still waits. *)
Lemma posted_exec ev c ts c' ts' e :
  state_ c <> kDisconnected -> exec messageCb ev (c, ts) = Ok ((c', ts'), e) ->
  pending ts ++ posted e = sent e ++ pending ts'.
Proof.
  intros Hd. destruct ev as [msg| | |r|rev rs ws]; cbn [exec].
  - destruct (decide _); intros H; apply Ok_inj in H; inv H; simpl; rewrite ?app_nil_r; [|done].
    unfold pending. rewrite flat_map_app. simpl. by rewrite app_nil_r.
  - destruct (decide _); intros H; apply Ok_inj in H; inv H; simpl; rewrite ?app_nil_r; [|done].
    unfold pending. rewrite flat_map_app. simpl. by rewrite app_nil_r.
  - intros H. apply Ok_inj in H. inv H. simpl. unfold pending. rewrite flat_map_app. simpl. done.
  - destruct ts as [|tk ts]; [intros H; apply Ok_inj in H; by inv H|].
    destruct (exec_task tk r c) as [c1 e1] eqn:E. intros H. apply Ok_inj in H. inv H.
    assert (posted e = [] /\ sent e = match tk with TSend msg => msg | _ => [] end) as [-> ->]; [|by rewrite app_nil_r].
    destruct tk as [msg| |]; simpl in E.
    + pose proof (sendInLoop_log msg r c Hd) as H. rewrite E in H. exact H.
    + unfold shutdownInLoop in E. inv E. by destruct (isWriting _).
    + unfold connectDestroyed in E. destruct (decide _); by inv E.
  - destruct (run_callbacks messageCb rs ws _ c) as [[c1 e1]|] eqn:E; cbn [res_bind]; [|done].
    apply quiet_run_callbacks in E as [Hs Hp]. intros H. apply Ok_inj in H. inv H. by rewrite Hs, Hp, app_nil_r.
Qed.

Lemma posted_run evs c ts w s c' ts' tr :
  Out c w s -> state_ c <> kDisconnected -> run messageCb evs (c, ts) = Ok ((c', ts'), tr) -> closed tr = false ->
  pending ts ++ posted tr = sent tr ++ pending ts'.
Proof.
  revert c ts w s tr. induction evs as [|ev evs IH]; intros c ts w s tr Ho Hd; cbn [run].
  { intros H. apply Ok_inj in H. inv H. intros _. simpl. by rewrite app_nil_r. }
  destruct (good_exec messageCb ev c ts w s Ho) as (c1 & ts1 & e1 & E1 & Hg). rewrite E1. cbn [res_bind].
  destruct (Hg _ _ Ho) as [Ho1 Hc]. rewrite decide_False in Hc by done.
  destruct (run messageCb evs (c1, ts1)) as [[[c2 ts2] e2]|] eqn:E2; cbn [res_bind]; [|done].
  intros H. apply Ok_inj in H. inv H. rewrite closed_app. intros [Hc1 Hc2]%orb_false_elim.
  apply posted_exec in E1; [|done]. apply (IH _ _ _ _ _ Ho1) in E2; [|intros H; apply Hc in H; congruence|done].
  unfold posted in *. rewrite flat_map_app, sent_app, (assoc_L (++)), E1, <- !(assoc_L (++)), E2. done.
Qed.

End Posted.

(** ** The input side *)

Lemma received_app e1 e2 : received (e1 ++ e2) = received e1 ++ received e2.
Proof. apply flat_map_app. Qed.

Lemma frames_app e1 e2 : frames (e1 ++ e2) = frames e1 ++ frames e2.
Proof. apply flat_map_app. Qed.

Lemma read_loop_spec rs b en b' e :
  Buffer.wf b -> read_loop rs b = (en, b', e) ->
  Buffer.wf b' /\ Buffer.readable b' = Buffer.readable b ++ received e /\ frames e = [] /\ (en = Failed -> ReadFailed ∈ e).
Proof.
  revert b en b' e. induction rs as [|r rs IH]; intros b en b' e Hwf; simpl.
  { intros [= <- <- <-]. by rewrite app_nil_r. }
  pose proof (Buffer.readFd_spec r b Hwf) as Hs. destruct (Buffer.readFd r b) as [[n er] b1]. destruct Hs as [Hwf1 Hs].
  destruct r as [er'|data].
  - destruct Hs as (-> & -> & ->). simpl. destruct er'.
    + intros [= <- <- <-]. by rewrite app_nil_r.
    + by apply IH.
    + intros [= <- <- <-]. rewrite app_nil_r. split_and!; [done..|]. intros _. by constructor.
  - destruct Hs as (-> & -> & Hr). destruct (Z.ltb_spec 0 (Z.of_nat (length data))).
    + destruct (read_loop rs b1) as [[en1 b2] e1] eqn:E. intros [= <- <- <-].
      destruct (IH _ _ _ _ Hwf1 E) as (H1 & H2 & H3 & H4). split_and!; [done| |done|].
      * simpl. by rewrite H2, Hr, <- (assoc_L (++)).
      * intros Hf. constructor. by apply H4.
    + destruct data; [|simpl in *; lia]. simpl. intros [= <- <- <-]. by rewrite Hr, !app_nil_r.
Qed.

Lemma read_loop_frames rs b : frames (snd (read_loop rs b)) = [].
Proof.
  revert b. induction rs as [|r rs IH]; intros b; simpl; [done|]. destruct (Buffer.readFd r b) as [[n er] b1].
  specialize (IH b1). destruct (0 <? n).
  - destruct (read_loop rs b1) as [[en b2] e]. destruct r; exact IH.
  - destruct (n =? 0); [done|]. destruct er as [[]|]; done.
Qed.

(** A piece of execution that leaves the input side alone. *)
Definition same_input (c : t) (e : list effect) (c' : t) : Prop :=
  inputBuffer_ c' = inputBuffer_ c /\ received e = [] /\ frames e = [].

Lemma same_input_trans c1 e1 c2 e2 c3 : same_input c1 e1 c2 -> same_input c2 e2 c3 -> same_input c1 (e1 ++ e2) c3.
Proof.
  intros (H1 & H2 & H3) (H4 & H5 & H6). unfold same_input. rewrite received_app, frames_app, H2, H3, H5, H6. by rewrite H4.
Qed.

Lemma same_input_sendInLoop msg r c : same_input c (snd (sendInLoop msg r c)) (fst (sendInLoop msg r c)).
Proof.
  assert (forall rem, same_input c (snd (queue_output rem c)) (fst (queue_output rem c))) as Hq.
  { intros [|x rem]; simpl; [done|]. by destruct (isWriting _). }
  unfold sendInLoop. destruct (decide _); [done|].
  pose proof (Hq msg) as (H1 & H2 & H3). pose proof (Hq (drop (Z.to_nat (returned r msg)) msg)) as (H4 & H5 & H6).
  destruct (negb _ && _); [destruct (0 <=? _); [|destruct (snd r)]|].
  all: repeat (destruct (queue_output _ c)); simpl in *; done.
Qed.

Lemma same_input_exec_calls cls c : same_input c (snd (exec_calls cls c)) (fst (exec_calls cls c)).
Proof.
  revert c. induction cls as [|cl cls IH]; intros c; simpl; [done|].
  assert (same_input c (snd (exec_call cl c)) (fst (exec_call cl c))) as H.
  { destruct cl; simpl; destruct (decide _); try done; [apply same_input_sendInLoop|].
    unfold shutdownInLoop. simpl. by destruct (isWriting _). }
  destruct (exec_call cl c) as [c1 e1]. specialize (IH c1). destruct (exec_calls cls c1). by eapply same_input_trans.
Qed.

Lemma same_input_write_loop ws b en b' e : write_loop ws b = Ok (en, b', e) -> received e = [] /\ frames e = [].
Proof.
  revert b en b' e. induction ws as [|r ws IH]; intros b en b' e; cbn [write_loop]; destruct (_ =? _)%nat;
    try (intros H; apply Ok_inj in H; by inv H).
  cbv zeta. destruct (0 <? _).
  - destruct (Buffer.retrieve _ b) as [b1|]; cbn [res_bind]; [|done].
    destruct (write_loop ws b1) as [[[en1 b2] e1]|] eqn:E; cbn [res_bind]; [|done]. intros H. apply Ok_inj in H. inv H.
    by apply IH in E.
  - destruct (snd r); try (intros H; apply Ok_inj in H; by inv H).
    destruct (write_loop ws b) as [[[en1 b2] e1]|] eqn:E; cbn [res_bind]; [|done]. intros H. apply Ok_inj in H. inv H.
    by apply IH in E.
Qed.

Lemma same_input_handleWrite ws c c' e : handleWrite ws c = Ok (c', e) -> same_input c e c'.
Proof.
  unfold handleWrite. destruct (isWriting c); simpl; [|intros H; apply Ok_inj in H; by inv H].
  destruct (write_loop ws _) as [[[en b] ew]|] eqn:Ew; simpl; [|done]. apply same_input_write_loop in Ew as [H1 H2].
  assert (same_input c ew (set_output b c)) as H0 by done.
  intros H. apply Ok_inj in H. destruct en; simpl in H; try destruct (decide _); inv H; try done.
  all: eapply same_input_trans; [exact H0|]; try done.
  unfold isWriting. simpl. by rewrite Channel.isWriting_not_writing.
Qed.

(** The invariant: [bs] is what was read so far and [fs] the frames dispatched. *)
Definition Inp (c : t) (bs : list byte) (fs : list Codec.frame) : Prop :=
  Buffer.wf (inputBuffer_ c) /\ Codec.decode bs = (fs, false, Buffer.readable (inputBuffer_ c)).

(** A piece of execution that keeps it, as long as the frames are legal. *)
Definition good_in (c : t) (e : list effect) (c' : t) : Prop :=
  forall bs fs, Inp c bs fs -> ReadFailed ∉ e -> snd (fst (Codec.decode (bs ++ received e))) = false ->
  Inp c' (bs ++ received e) (fs ++ frames e).

Lemma legal_prefix xs ys : snd (fst (Codec.decode (xs ++ ys))) = false -> snd (fst (Codec.decode xs)) = false.
Proof. rewrite Codec.decode_app. destruct (Codec.decode xs) as [[f1 []] r1]; done. Qed.

Lemma good_in_same c e c' : same_input c e c' -> good_in c e c'.
Proof. intros (H1 & H2 & H3) bs fs [Hwf Hd] _ _. unfold Inp. by rewrite H1, H2, H3, !app_nil_r. Qed.

Lemma good_in_trans c1 e1 c2 e2 c3 : good_in c1 e1 c2 -> good_in c2 e2 c3 -> good_in c1 (e1 ++ e2) c3.
Proof.
  intros H1 H2 bs fs H Hnf. rewrite received_app, frames_app, !(assoc_L (++)). intros Hl.
  rewrite not_elem_of_app in Hnf. destruct Hnf as [Hn1 Hn2].
  apply H2; [|done..]. apply H1; [done..|]. by eapply legal_prefix.
Qed.

(** A message callback that takes from the input what the codec takes. *)
Definition consumes_frames (messageCb : Buffer.t -> Buffer.t * list call) : Prop :=
  forall b, fst (messageCb b) = fst (codecCb b).

Section FrameInput.
Context (messageCb : Buffer.t -> Buffer.t * list call) (Hcb : consumes_frames messageCb).

Lemma good_in_handleRead rs c : good_in c (snd (handleRead messageCb rs c)) (fst (handleRead messageCb rs c)).
Proof.
  unfold handleRead. destruct (read_loop rs (inputBuffer_ c)) as [[en b] e1] eqn:Er. intros bs fs [Hwf Hd].
  destruct (read_loop_spec _ _ _ _ _ Hwf Er) as (Hwf1 & Hr & Hf1 & Hfail).
  assert (exists e2 c2, deliver messageCb (set_input b c) = (c2, e2) /\ received e2 = [] /\
    (snd (fst (Codec.decode (bs ++ received e1))) = false -> Inp c2 (bs ++ received e1) (fs ++ frames e2)))
    as (e2 & c2 & Hdel & Hr2 & Hin).
  { unfold deliver. simpl. destruct (Nat.ltb_spec 0 (Buffer.readableBytes b)) as [Hlt|Hge].
    - destruct (Codec.onMessage_decode b Hwf1) as (o & Ho & Hwfo & Hdo). pose proof (Hcb b) as Hb. unfold codecCb in Hb.
      rewrite Ho in Hb. destruct (messageCb b) as [b' cls]. cbn [fst] in Hb. subst b'.
      pose proof (same_input_exec_calls cls (set_input (Codec.rest o) (set_input b c))) as (Hi & Hre & Hfe).
      destruct (exec_calls _ _) as [c' e']. cbn [fst snd] in Hi, Hre, Hfe. eexists _, _. split; [done|]. split; [exact Hre|]. intros Hl.
      unfold frames in *. cbn [flat_map]. rewrite Ho, Hfe, app_nil_r. simpl in Hi. unfold Inp. rewrite Hi.
      split; [done|]. rewrite Codec.decode_app, Hd, <- Hr, Hdo in *. simpl in Hl. by rewrite Hl.
    - eexists _, _. split; [done|]. split; [done|]. intros _. assert (Buffer.readable b = []) as Hb by (apply readable_nil; [done|lia]).
      rewrite Hb in Hr. symmetry in Hr. apply app_nil in Hr as [Hr1 Hr3]. unfold Inp. simpl. rewrite Hr3, !app_nil_r, Hb.
      split; [done|]. by rewrite Hd, Hr1. }
  destruct en; rewrite ?Hdel; simpl; rewrite ?received_app, ?frames_app, ?Hf1, ?Hr2, ?app_nil_r; intros Hnf Hl.
  - by apply Hin.
  - apply Hin in Hl. exact Hl.
  - destruct Hnf. apply elem_of_app. left. by apply Hfail.
Qed.

Lemma good_in_run_callbacks rs ws cbs c c' e : run_callbacks messageCb rs ws cbs c = Ok (c', e) -> good_in c e c'.
Proof.
  revert c e. induction cbs as [|cb cbs IH]; intros c e; cbn [run_callbacks].
  { intros H. apply Ok_inj in H. inv H. by apply good_in_same. }
  destruct (run_callback messageCb rs ws cb c) as [[c1 e1]|] eqn:E1; cbn [res_bind]; [|done].
  destruct (run_callbacks messageCb rs ws cbs c1) as [[c2 e2]|] eqn:E2; cbn [res_bind]; [|done].
  intros H. apply Ok_inj in H. inv H. eapply good_in_trans; [|by eapply IH].
  destruct cb; simpl in E1.
  - apply Ok_inj in E1. inv E1. by apply good_in_same.
  - apply Ok_inj in E1. inv E1. by apply good_in_same.
  - apply Ok_inj in E1. pose proof (good_in_handleRead rs c) as H. rewrite E1 in H. exact H.
  - apply good_in_same. by eapply same_input_handleWrite.
Qed.

Lemma good_in_exec ev c ts c' ts' e : exec messageCb ev (c, ts) = Ok ((c', ts'), e) -> good_in c e c'.
Proof.
  destruct ev as [msg| | |r|rev rs ws]; cbn [exec].
  - destruct (decide _); intros H; apply Ok_inj in H; inv H; by apply good_in_same.
  - destruct (decide _); intros H; apply Ok_inj in H; inv H; by apply good_in_same.
  - intros H; apply Ok_inj in H; inv H; by apply good_in_same.
  - destruct ts as [|tk ts]; [intros H; apply Ok_inj in H; inv H; by apply good_in_same|].
    destruct (exec_task tk r c) as [c1 e1] eqn:E. intros H. apply Ok_inj in H. inv H. apply good_in_same.
    destruct tk; simpl in E.
    + pose proof (same_input_sendInLoop msg r c) as H. rewrite E in H. exact H.
    + unfold shutdownInLoop in E. inv E. by destruct (isWriting _).
    + unfold connectDestroyed in E. destruct (decide _); by inv E.
  - destruct (run_callbacks messageCb rs ws _ c) as [[c1 e1]|] eqn:E; cbn [res_bind]; [|done].
    intros H. apply Ok_inj in H. inv H. by eapply good_in_run_callbacks.
Qed.

Lemma good_in_run evs c ts c' ts' tr : run messageCb evs (c, ts) = Ok ((c', ts'), tr) -> good_in c tr c'.
Proof.
  revert c ts tr. induction evs as [|ev evs IH]; intros c ts tr; cbn [run].
  { intros H. apply Ok_inj in H. inv H. by apply good_in_same. }
  destruct (exec messageCb ev (c, ts)) as [[[c1 ts1] e1]|] eqn:E1; cbn [res_bind]; [|done].
  destruct (run messageCb evs (c1, ts1)) as [[[c2 ts2] e2]|] eqn:E2; cbn [res_bind]; [|done].
  intros H. apply Ok_inj in H. inv H. eapply good_in_trans; [by eapply good_in_exec|by eapply IH].
Qed.

End FrameInput.

Lemma consumes_codec : consumes_frames codecCb.
Proof. done. Qed.

Lemma Inp_established : Inp (fst established) [] [].
Proof. split; [apply Buffer.wf_init_buffer|by vm_compute]. Qed.

Lemma output_stream_open messageCb evs c ts tr :
  run messageCb evs established = Ok ((c, ts), tr) -> closed tr = false -> no_sends messageCb ->
  posted tr = wire tr ++ Buffer.readable (outputBuffer_ c) ++ pending ts.
Proof.
  intros Hr Hcl Hn. destruct (good_run messageCb evs (fst established) [] [] [] Out_established) as (c' & ts' & tr' & Hr' & Hg).
  change established with (fst established, @nil task) in Hr. rewrite Hr in Hr'. apply Ok_inj in Hr'. inv Hr'.
  destruct (Hg _ _ Out_established) as [(_ & rest & Hs & Ho) [_ Hc]]. simpl in Hs.
  destruct (decide (state_ c' = kDisconnected)) as [E|_]; [by rewrite Hc in Hcl|]. destruct Ho as [-> Hw].
  pose proof (posted_run messageCb Hn evs _ [] [] [] _ _ _ Out_established ltac:(done) Hr Hcl) as Hp.
  simpl in Hp. by rewrite Hp, Hs, <- (assoc_L (++)).
Qed.

(** An illegal frame on an idle connection. *)
Lemma handleRead_illegal c len :
  state_ c = kConnected -> isWriting c = false -> Buffer.wf (inputBuffer_ c) -> Buffer.readable (inputBuffer_ c) = [] ->
  0 <= len < 2 \/ 65536 < len < 2 ^ 32 ->
  exists b c', handleRead codecCb [ReadOk (Codec.be_store 4 len)] c = (c', [Read (Codec.be_store 4 len); MessageCb b; ShutWr]) /\
    state_ c' = kDisconnecting /\ isWriting c' = false /\ outputBuffer_ c' = outputBuffer_ c.
Proof.
  intros Hst Hw Hwf Hi Hlen. unfold handleRead. cbn [read_loop].
  pose proof (Buffer.readFd_spec (ReadOk (Codec.be_store 4 len)) _ Hwf) as Hrd.
  destruct (Buffer.readFd _ _) as [[n er] b]. destruct Hrd as (Hwfb & -> & -> & Hb). rewrite Hi, app_nil_l in Hb.
  rewrite Codec.length_be_store. change (0 <? Z.of_nat 4) with true. cbv iota.
  unfold deliver. cbn [set_input inputBuffer_].
  assert (Buffer.readableBytes b = 4%nat) as -> by (by rewrite <- Buffer.length_readable, Hb, Codec.length_be_store).
  change (0 <? 4)%nat with true. cbv iota.
  destruct (Codec.onMessage_decode b Hwfb) as (o & Hm & Hwfo & Hd). unfold codecCb. rewrite Hm.
  rewrite Hb, <- (app_nil_r (Codec.be_store 4 len)), Codec.decode_illegal in Hd by done. inv Hd.
  cbn [exec_calls exec_call set_input state_]. rewrite decide_True by done. unfold shutdownInLoop, isWriting in *.
  cbn [set_state set_input events_]. rewrite Hw. eexists b, _. split; [reflexivity|]. done.
Qed.

(** A send with nothing queued before it calls [write] at once. *)
Lemma sendInLoop_direct msg r c :
  state_ c <> kDisconnected -> isWriting c = false -> Buffer.readableBytes (outputBuffer_ c) = 0%nat ->
  exists c' e, sendInLoop msg r c = (c', SendInLoop msg :: Write msg (returned r msg) :: e).
Proof.
  intros Hd Hw Ho. unfold sendInLoop. rewrite decide_False, Hw, Ho by done. simpl.
  destruct (0 <=? _); [|destruct (snd r)]; try (destruct (queue_output _ c)); by eexists _, _.
Qed.

(** An event with [EPOLLERR] and [EPOLLIN] closes the connection twice:
    [handleEvent] goes on after the error callback, and the read then finds the
    end of the stream. The second [disableAll] registers the withdrawn
    descriptor again ([EPollPoller.disableAll_again_registers]). *)
Lemma error_event_closes_twice messageCb c :
  Buffer.wf (inputBuffer_ c) -> Buffer.readable (inputBuffer_ c) = [] ->
  exists c', run_callbacks messageCb [ReadOk []] [] (Channel.handleEvent (Z.lor Channel.EPOLLERR Channel.EPOLLIN)) c =
    Ok (c', [UpdateChannel 0; ConnectionCb false; CloseCb; UpdateChannel 0; ConnectionCb false; CloseCb]).
Proof.
  intros Hwf Hi. change (Channel.handleEvent _) with [Channel.CbError; Channel.CbRead].
  assert (forall d, inputBuffer_ d = inputBuffer_ c ->
    exists d', handleRead messageCb [ReadOk []] d = (d', [UpdateChannel 0; ConnectionCb false; CloseCb])) as Hrd.
  { intros d Hd. unfold handleRead. cbn [read_loop]. rewrite Hd.
    pose proof (Buffer.readFd_spec (ReadOk []) _ Hwf) as Hr. destruct (Buffer.readFd _ _) as [[n er] b].
    destruct Hr as (Hwfb & -> & -> & Hb). rewrite Hi in Hb. change (0 <? Z.of_nat (length [])) with false. cbv iota.
    unfold deliver. cbn [set_input inputBuffer_]. change (Z.of_nat (length []) =? 0) with true. cbv iota.
    rewrite (proj2 (readable_nil b Hwfb) Hb). by eexists. }
  cbn [run_callbacks run_callback res_bind handleError handleClose disableAll set_channel].
  destruct (Hrd (mk kDisconnected 0 (inputBuffer_ c) (outputBuffer_ c)) eq_refl) as [d' Hd'].
  exists d'. cbn [set_state state_ events_ inputBuffer_ outputBuffer_]. by rewrite Hd'.
Qed.

(** ** Properties *)

(** C31: The output of a connection is a byte stream. Whatever happens to a
    connection (sends and shutdowns of any thread, partial, interrupted and
    failed writes, readiness events, the message callback), no assertion fails,
    and what was written to the socket is a prefix of the messages handed to
    [sendInLoop]. While the connection is open the rest is exactly the output
    buffer, and [EPOLLOUT] is watched exactly when there is a rest, so that no
    byte is lost, repeated, reordered or forgotten. With a callback that sends
    nothing itself these are, in order, the messages that other threads'
    [send] accepted, less those whose tasks still wait in the loop. *)
Theorem output_is_a_byte_stream (messageCb : Buffer.t -> Buffer.t * list call) (evs : list event) :
  exists c ts tr, run messageCb evs established = Ok ((c, ts), tr) /\
    (exists rest, sent tr = wire tr ++ rest) /\
    (closed tr = false ->
       sent tr = wire tr ++ Buffer.readable (outputBuffer_ c) /\
       (isWriting c = true <-> Buffer.readable (outputBuffer_ c) <> []) /\
       (no_sends messageCb -> posted tr = wire tr ++ Buffer.readable (outputBuffer_ c) ++ pending ts)).
Proof.
  destruct (good_run messageCb evs (fst established) [] [] [] Out_established) as (c & ts & tr & Hr & Hg).
  exists c, ts, tr. split; [done|]. destruct (Hg _ _ Out_established) as [(_ & rest & Hs & Ho) [_ Hc]]. simpl in Hs.
  split; [by eexists|]. intros Hcl. destruct (decide (state_ c = kDisconnected)) as [E|_]; [by rewrite Hc in Hcl|].
  destruct Ho as [-> Hw]. split_and!; [done..|]. intros Hn. by eapply output_stream_open.
Qed.

(** The peer sees the end of the stream only after all of it. When the
    connection calls [shutdown(SHUT_WR)] and was not closed before, everything
    that was handed to [sendInLoop] by then has been written. *)
Theorem fin_after_all_output (messageCb : Buffer.t -> Buffer.t * list call) evs s tr1 tr2 :
  run messageCb evs established = Ok (s, tr1 ++ ShutWr :: tr2) -> closed tr1 = false -> wire tr1 = sent tr1.
Proof.
  destruct (good_run messageCb evs (fst established) [] [] [] Out_established) as (c & ts & tr & Hr & Hg).
  destruct (Hg _ _ Out_established) as [_ [Hf _]]. intros Hr' Hcl.
  change established with (fst established, @nil task) in Hr'. rewrite Hr in Hr'. apply Ok_inj in Hr'. inv Hr'.
  by apply (fin_ok_split [] [] _ tr2).
Qed.

(** A message of three bytes, the first written at once, the rest when the
    socket is writable again; [shutdown] was called in between. *)
Definition slow_events : list event :=
  [EvSend [x61; x62; x63]; EvShutdown; EvTask (1, EAGAIN); EvTask (0, EAGAIN);
   EvReady Channel.EPOLLOUT [] [(-1, EINTR); (5, EAGAIN)]].

Definition slow_trace : list effect :=
  [Post [x61; x62; x63]; SendInLoop [x61; x62; x63]; Write [x61; x62; x63] 1;
   UpdateChannel (Channel.writing (Channel.reading 0)); Write [x62; x63] (-1); Write [x62; x63] 2;
   UpdateChannel (Channel.reading 0)].

Lemma fin_after_all_output_witness : wire slow_trace = sent slow_trace /\ sent slow_trace = [x61; x62; x63].
Proof.
  split; [|reflexivity].
  eapply (fin_after_all_output codecCb slow_events _ slow_trace []); vm_compute; reflexivity.
Defined.

(** Messages arrive. When one connection of the server (whose callback
    sends nothing, and which was not closed) is given encoded frames by
    [send], and what a second connection reads is a prefix of what the first
    wrote, in whatever pieces, then the second one's codec dispatches a prefix
    of the frames, and all of them once all bytes were written and read. *)
Theorem frames_arrive_in_order cbA evsA cA tsA trA evsB cB tsB trB (fs : list Codec.frame) :
  no_sends cbA -> run cbA evsA established = Ok ((cA, tsA), trA) -> closed trA = false ->
  Forall (fun f => 0 <= fst f < 2 ^ 16 /\ Z.of_nat (length (snd f)) <= 65534) fs ->
  posted trA = concat (map (fun f => Codec.encode (fst f) (snd f)) fs) ->
  run codecCb evsB established = Ok ((cB, tsB), trB) -> ReadFailed ∉ trB -> received trB `prefix_of` wire trA ->
  frames trB `prefix_of` fs /\
  (received trB = wire trA -> Buffer.readable (outputBuffer_ cA) = [] -> pending tsA = [] -> frames trB = fs).
Proof.
  intros HcbA HrA HclA Hfs Hp HrB HnfB [rest Hpre].
  pose proof (output_stream_open cbA evsA cA tsA trA HrA HclA HcbA) as Hpost.
  assert (Codec.decode (posted trA) = (fs, false, [])) as Hdec.
  { rewrite Hp. rewrite <- (app_nil_r (concat _)), Codec.decode_encode_all by done. simpl. by rewrite app_nil_r. }
  rewrite Hpost, Hpre, <- (assoc_L (++)) in Hdec.
  destruct (good_in_run codecCb consumes_codec _ _ _ _ _ _ HrB [] [] Inp_established HnfB) as [_ HB].
  { simpl. eapply legal_prefix. rewrite Hdec. done. }
  simpl in HB. rewrite Codec.decode_app, HB in Hdec. simpl in Hdec.
  destruct (Codec.decode _) as [[f2 s2] r2] eqn:E2 in Hdec. inv Hdec. split; [by exists f2|].
  intros Heq Hout Hts. rewrite Hpre in Heq. assert (rest = []) as -> by (by apply (app_inv_head (received trB)); rewrite app_nil_r).
  rewrite Hout, Hts in E2. simpl in E2. rewrite app_nil_r in E2.
  pose proof (Codec.decode_app (received trB) []) as H. rewrite app_nil_r, HB, app_nil_r, E2 in H. inv H. reflexivity.
Qed.

Lemma no_sends_codec : no_sends codecCb.
Proof.
  intros b. unfold codecCb. destruct (Codec.onMessage b) as [o|]; simpl; [|constructor].
  destruct (Codec.shut o); repeat constructor.
Qed.

(** Two frames, written in two pieces and read in three. *)
Definition two_frames : list Codec.frame := [(2, [x61; x62; x63]); (10, [])].

Definition sender_events : list event :=
  [EvSend (Codec.encode 2 [x61; x62; x63]); EvSend (Codec.encode 10 []); EvTask (4, EAGAIN); EvTask (0, EAGAIN);
   EvReady Channel.EPOLLOUT [] [(100, EAGAIN)]].

Definition receiver_events : list event :=
  [EvReady Channel.EPOLLIN [ReadOk [x00; x00]; ReadOk [x00; x05; x00; x02; x61]] [];
   EvReady Channel.EPOLLIN [ReadErr EINTR; ReadOk [x62; x63; x00; x00; x00; x02; x00; x0a]; ReadOk []] []].

Definition outcome_of (evs : list event) : conn * list effect :=
  match run codecCb evs established with Ok x => x | UB => (established, []) end.

Lemma frames_arrive_in_order_witness : frames (snd (outcome_of receiver_events)) = two_frames.
Proof.
  refine (proj2 (frames_arrive_in_order codecCb sender_events (fst (fst (outcome_of sender_events)))
    (snd (fst (outcome_of sender_events))) (snd (outcome_of sender_events)) receiver_events
    (fst (fst (outcome_of receiver_events))) (snd (fst (outcome_of receiver_events))) (snd (outcome_of receiver_events))
    two_frames no_sends_codec _ _ _ _ _ _ _) _ _ _).
  3: repeat constructor; simpl; lia.
  5: { vm_compute. intros H. repeat (apply elem_of_cons in H as [H|H]; [discriminate H|]). by apply not_elem_of_nil in H. }
  5: exists [].
  all: vm_compute; reflexivity.
Defined.

(** A posted send is written after [SHUT_WR]. When another thread's [send]
    has been accepted but its task still waits, and the peer sends an illegal
    frame, the codec's [shutdown] on the IO thread calls [shutdown(SHUT_WR)] at
    once; the waiting task then still calls [write] on the socket, whose
    writing side is shut ([sendInLoop] tests only for [kDisconnected]). *)
Theorem posted_send_written_after_fin (c : t) (msg : list byte) (len : Z) (r : write_result) :
  state_ c = kConnected -> isWriting c = false -> Buffer.wf (outputBuffer_ c) -> Buffer.readable (outputBuffer_ c) = [] ->
  Buffer.wf (inputBuffer_ c) -> Buffer.readable (inputBuffer_ c) = [] -> 0 <= len < 2 \/ 65536 < len < 2 ^ 32 ->
  exists c' b e, run codecCb [EvSend msg; EvReady Channel.EPOLLIN [ReadOk (Codec.be_store 4 len)] []; EvTask r] (c, []) =
    Ok ((c', []), [Post msg; Read (Codec.be_store 4 len); MessageCb b; ShutWr; SendInLoop msg; Write msg (returned r msg)] ++ e).
Proof.
  intros Hst Hw Hwfo Ho Hwfi Hi Hlen. destruct (handleRead_illegal c len) as (b & c1 & Hrd & Hst1 & Hw1 & Ho1); [done..|].
  destruct (sendInLoop_direct msg r c1) as (c2 & e & Hs).
  { by rewrite Hst1. }
  { by rewrite Hw1. }
  { by rewrite Ho1; apply readable_nil. }
  exists c2, b, e. cbn [run exec]. rewrite decide_True by done. cbn [res_bind app].
  cbn [exec]. change (Channel.handleEvent Channel.EPOLLIN) with [Channel.CbRead]. cbn [run_callbacks run_callback].
  rewrite Hrd. cbn [res_bind exec exec_task]. rewrite Hs. cbn [res_bind app]. by rewrite app_nil_r.
Qed.

Lemma posted_send_written_after_fin_witness :
  exists c' b e, run codecCb [EvSend [x61]; EvReady Channel.EPOLLIN [ReadOk (Codec.be_store 4 1)] []; EvTask (-1, EOTHER)] established =
    Ok ((c', []), [Post [x61]; Read (Codec.be_store 4 1); MessageCb b; ShutWr; SendInLoop [x61]; Write [x61] (-1)] ++ e).
Proof.
  apply (posted_send_written_after_fin (fst established) [x61] 1 (-1, EOTHER)).
  all: first [apply Buffer.wf_init_buffer | vm_compute; reflexivity | lia].
Defined.

End TcpConnection.
