(* ===== verification/Echo.v ===== *)
(** * The echo server ([src/examples/echo_server.cc])

    A [TcpServer] whose message callback sends back whatever is in the input
    buffer. The connection is the one of [TcpConnection.v]; the answer of the
    [write] that the callback's [send] leads to comes with the event. *)

From stdpp Require Import base list.
From Stdlib Require Import ZArith Lia.
From Stdlib Require Import Strings.Byte.
From S2P Require Import Prelude Poller Buffer Codec TcpConnection.

Module Echo.

Local Open Scope Z_scope.
Import TcpConnection.

(** [conn->send(buf->retrieveAllAsString())] *)
Definition echoCb (r : write_result) (b : Buffer.t) : Buffer.t * list call :=
  let (s, b') := Buffer.retrieveAllAsString b in (b', [CallSend s r]).

(** What happens to a connection of the echo server: nobody else sends on it or
    shuts it down. *)
Definition echo_event (ev : event) : Prop := match ev with EvSend _ | EvShutdown => False | _ => True end.

Fixpoint echo_run (evs : list (event * write_result)) (s : conn) : res (conn * list effect) :=
  match evs with
  | [] => Ok (s, [])
  | (ev, r) :: evs' =>
      (let! (s1, e1) := exec (echoCb r) ev s in
       let! (s2, e2) := echo_run evs' s1 in
       Ok (s2, e1 ++ e2))%gs
  end.

(** ** The invariant *)

(** While the connection is up everything received was handed to [sendInLoop]
    and the input buffer is empty; afterwards a prefix was. *)
Definition EInv (c : t) (S R : list byte) : Prop :=
  Buffer.wf (inputBuffer_ c) /\
  (state_ c = kConnected /\ S = R /\ Buffer.readable (inputBuffer_ c) = [] \/
   state_ c = kDisconnected /\ S `prefix_of` R).

Definition ech (c : t) (e : list effect) (c' : t) : Prop :=
  forall S R, EInv c S R -> EInv c' (S ++ sent e) (R ++ received e).

Lemma ech_trans c1 e1 c2 e2 c3 : ech c1 e1 c2 -> ech c2 e2 c3 -> ech c1 (e1 ++ e2) c3.
Proof. intros H1 H2 S R H. rewrite sent_app, received_app, !(assoc_L (++)). by apply H2, H1. Qed.

(** Nothing read, nothing sent; the state stays or becomes [kDisconnected]. *)
Lemma ech_quiet c e c' :
  inputBuffer_ c' = inputBuffer_ c -> state_ c' = state_ c \/ state_ c' = kDisconnected ->
  sent e = [] -> received e = [] -> ech c e c'.
Proof.
  intros Hi Hs He Hr S R [Hwf H]. unfold EInv. rewrite He, Hr, !app_nil_r, Hi. split; [done|].
  destruct Hs as [-> | ->]; [exact H|]. right. split; [done|]. destruct H as [(_ & -> & _)|[_ H]]; [reflexivity|exact H].
Qed.

Lemma sendInLoop_state msg r c :
  state_ (fst (sendInLoop msg r c)) = state_ c \/ state_ (fst (sendInLoop msg r c)) = kDisconnected.
Proof.
  assert (forall m, state_ (fst (queue_output m c)) = state_ c) as Hq.
  { intros [|b m]; [done|]. cbn [queue_output]. by destruct (isWriting _). }
  unfold sendInLoop. destruct (decide _); [by left|].
  pose proof (Hq msg). pose proof (Hq (drop (Z.to_nat (returned r msg)) msg)).
  destruct (negb _ && _); [destruct (0 <=? _); [|destruct (snd r)]|]; repeat (destruct (queue_output _ c)); simpl in *; auto.
Qed.

Section Answer.
Context (r : write_result).

(** The callback sends the input buffer and empties it. *)
Lemma deliver_connected c :
  Buffer.wf (inputBuffer_ c) -> state_ c = kConnected ->
  let (c', e) := deliver (echoCb r) c in
  sent e = Buffer.readable (inputBuffer_ c) /\ received e = [] /\ Buffer.wf (inputBuffer_ c') /\
  Buffer.readable (inputBuffer_ c') = [] /\ (state_ c' = kConnected \/ state_ c' = kDisconnected).
Proof.
  intros Hwf Hst. unfold deliver. destruct (Nat.ltb_spec 0 (Buffer.readableBytes (inputBuffer_ c))) as [Hlt|Hge].
  - cbn [echoCb Buffer.retrieveAllAsString].
    change (take (Buffer.readableBytes (inputBuffer_ c)) (Buffer.peek (inputBuffer_ c))) with (Buffer.readable (inputBuffer_ c)).
    set (bs := Buffer.readable _). set (c1 := set_input (Buffer.retrieveAll (inputBuffer_ c)) c).
    assert (Buffer.wf (inputBuffer_ c1)) as Hwf1 by by apply Buffer.wf_retrieveAll.
    assert (state_ c1 = kConnected) as Hc by exact Hst. cbn [exec_calls exec_call]. rewrite decide_True by exact Hc.
    pose proof (sendInLoop_log bs r c1) as Hlog. pose proof (same_input_sendInLoop bs r c1) as (Hi & Hr & _).
    pose proof (sendInLoop_state bs r c1) as Hs. destruct (sendInLoop bs r c1) as [c2 e2]. cbn [fst snd] in *.
    destruct Hlog as [_ Hsent]; [by rewrite Hc|]. rewrite app_nil_r, Hi. rewrite Hc in Hs. by split_and!.
  - assert (Buffer.readable (inputBuffer_ c) = []) as E by (apply readable_nil; [done|lia]). rewrite E. split_and!; auto.
Qed.

Lemma deliver_disconnected c :
  Buffer.wf (inputBuffer_ c) -> state_ c = kDisconnected ->
  let (c', e) := deliver (echoCb r) c in
  sent e = [] /\ received e = [] /\ Buffer.wf (inputBuffer_ c') /\ state_ c' = kDisconnected.
Proof.
  intros Hwf Hst. unfold deliver. destruct (_ <? _)%nat; [|done]. cbn [echoCb Buffer.retrieveAllAsString exec_calls exec_call].
  rewrite decide_False by (cbn; by rewrite Hst). split_and!; [done|done|by apply Buffer.wf_retrieveAll|done].
Qed.

Lemma ech_handleRead rs c : ech c (snd (handleRead (echoCb r) rs c)) (fst (handleRead (echoCb r) rs c)).
Proof.
  intros S R [Hwf H]. unfold handleRead. destruct (read_loop rs (inputBuffer_ c)) as [[en b] e1] eqn:Er.
  pose proof (quiet_reads rs (inputBuffer_ c)) as [Hq _]. rewrite Er in Hq. cbn [snd] in Hq.
  destruct (read_loop_spec _ _ _ _ _ Hwf Er) as (Hwf1 & Hr1 & _). set (c1 := set_input b c).
  assert (S `prefix_of` R) as Hpre by (destruct H as [(_ & -> & _)|[_ H]]; [reflexivity|exact H]).
  assert (ech c1 (snd (handleClose c1)) (fst (handleClose c1))) as Hcl by (apply ech_quiet; auto).
  assert (let (c2, e2) := deliver (echoCb r) c1 in EInv c2 (S ++ sent (e1 ++ e2)) (R ++ received (e1 ++ e2))) as Hd.
  { destruct H as [(Hc & -> & Hnil)|[Hd _]].
    - pose proof (deliver_connected c1 Hwf1 Hc) as H. destruct (deliver _ c1) as [c2 e2]. destruct H as (Hs & Hr & Hw & He & Hst).
      rewrite sent_app, received_app, Hq, Hs, Hr, app_nil_r. cbn [app c1 set_input inputBuffer_]. rewrite Hr1, Hnil. split; [done|].
      destruct Hst as [Hst|Hst]; [left|right]; by split_and!.
    - pose proof (deliver_disconnected c1 Hwf1 Hd) as H. destruct (deliver _ c1) as [c2 e2]. destruct H as (Hs & Hr & Hw & Hst).
      rewrite sent_app, received_app, Hq, Hs, Hr, !app_nil_r. split; [done|]. right. split; [done|]. by apply prefix_app_r. }
  destruct en; [|..].
  - destruct (deliver _ c1) as [c2 e2]. exact Hd.
  - destruct (deliver _ c1) as [c2 e2]. cbn [handleClose disableAll set_channel fst snd app]. rewrite (assoc_L (++)).
    rewrite (sent_app (e1 ++ e2)), (received_app (e1 ++ e2)). cbn [sent received flat_map sent1 app]. rewrite !app_nil_r.
    destruct Hd as [Hw Hd]. split; [exact Hw|]. right. split; [done|]. destruct Hd as [(_ & -> & _)|[_ Hd]]; [reflexivity|exact Hd].
  - cbn [handleError handleClose disableAll set_channel fst snd app]. rewrite sent_app, received_app, Hq.
    cbn [sent received flat_map sent1 app]. rewrite !app_nil_r. split; [exact Hwf1|]. right. split; [done|]. by apply prefix_app_r.
Qed.

Lemma handleWrite_state ws c c' e :
  handleWrite ws c = Ok (c', e) -> state_ c' = state_ c \/ state_ c' = kDisconnected.
Proof.
  unfold handleWrite. destruct (negb _); [intros H; apply Ok_inj in H; inv H; by left|].
  destruct (write_loop ws _) as [[[en b] ew]|]; cbn [res_bind]; [|done]. intros H. apply Ok_inj in H.
  destruct en; cbn in H; [destruct (decide _)|..]; inv H; auto.
Qed.

Lemma handleWrite_quiet ws c c' e : handleWrite ws c = Ok (c', e) -> sent e = [].
Proof.
  unfold handleWrite. destruct (negb _); [intros H; apply Ok_inj in H; by inv H|].
  destruct (write_loop ws _) as [[[en b] ew]|] eqn:Ew; cbn [res_bind]; [|done]. apply quiet_writes in Ew as [Ew _].
  intros H. apply Ok_inj in H. destruct en; cbn in H; [destruct (decide _)|..]; inv H; rewrite ?sent_app, ?Ew; try done.
  by destruct (isWriting _).
Qed.

Lemma ech_run_callbacks rs ws cbs c c' e : run_callbacks (echoCb r) rs ws cbs c = Ok (c', e) -> ech c e c'.
Proof.
  revert c e. induction cbs as [|cb cbs IH]; intros c e; cbn [run_callbacks].
  { intros H. apply Ok_inj in H. inv H. apply ech_quiet; auto. }
  destruct (run_callback (echoCb r) rs ws cb c) as [[c1 e1]|] eqn:E1; cbn [res_bind]; [|done].
  destruct (run_callbacks (echoCb r) rs ws cbs c1) as [[c2 e2]|] eqn:E2; cbn [res_bind]; [|done].
  intros H. apply Ok_inj in H. inv H. eapply ech_trans; [|by apply IH]. destruct cb; cbn [run_callback] in E1.
  - apply Ok_inj in E1. inv E1. apply ech_quiet; auto.
  - apply Ok_inj in E1. inv E1. apply ech_quiet; auto.
  - apply Ok_inj in E1. pose proof (ech_handleRead rs c) as H. by rewrite E1 in H.
  - pose proof (same_input_handleWrite _ _ _ _ E1) as (Hi & Hr & _).
    apply ech_quiet; [exact Hi|by eapply handleWrite_state|by eapply handleWrite_quiet|exact Hr].
Qed.

(** One event; only [connectDestroyed] waits in the loop. *)
Definition only_destroy (ts : list task) : Prop := Forall (fun tk => tk = TDestroy) ts.

Lemma ech_exec ev c ts c' ts' e :
  echo_event ev -> only_destroy ts -> exec (echoCb r) ev (c, ts) = Ok ((c', ts'), e) -> ech c e c' /\ only_destroy ts'.
Proof.
  intros Hev Hts. destruct ev as [msg| | |r'|rev rs ws]; try done; cbn [exec].
  - intros H. apply Ok_inj in H. inv H. split; [apply ech_quiet; auto|]. apply Forall_app. split; [done|by repeat constructor].
  - destruct Hts as [|tk ts -> Hts]; [intros H; apply Ok_inj in H; inv H; split; [apply ech_quiet; auto|by constructor]|].
    cbn [exec_task]. unfold connectDestroyed. destruct (decide _); intros H; apply Ok_inj in H; inv H; (split; [apply ech_quiet; auto|done]).
  - destruct (run_callbacks (echoCb r) rs ws _ c) as [[c1 e1]|] eqn:E; cbn [res_bind]; [|done].
    intros H. apply Ok_inj in H. inv H. split; [by eapply ech_run_callbacks|done].
Qed.

End Answer.

Lemma echo_run_inv evs c ts w s S R :
  Forall (fun x => echo_event (fst x)) evs -> only_destroy ts -> Out c w s -> EInv c S R ->
  exists c' ts' tr, echo_run evs (c, ts) = Ok ((c', ts'), tr) /\ good c tr c' /\ EInv c' (S ++ sent tr) (R ++ received tr).
Proof.
  revert c ts w s S R. induction evs as [|[ev r] evs IH]; intros c ts w s S R Hevs Hts Ho HE; cbn [echo_run].
  { eexists _, _, _. split; [done|]. split; [apply good_refl|]. by rewrite !app_nil_r. }
  apply Forall_cons in Hevs as [Hev Hevs]. destruct (good_exec (echoCb r) ev c ts w s Ho) as (c1 & ts1 & e1 & E1 & Hg). rewrite E1.
  cbn [res_bind]. destruct (ech_exec r _ _ _ _ _ _ Hev Hts E1) as [H1 Hts1]. destruct (Hg _ _ Ho) as [Ho1 _].
  destruct (IH c1 ts1 _ _ _ _ Hevs Hts1 Ho1 (H1 _ _ HE)) as (c2 & ts2 & e2 & E2 & Hg2 & HE2). rewrite E2. cbn [res_bind].
  eexists _, _, _. split; [done|]. split; [by eapply good_trans|]. by rewrite sent_app, received_app, !(assoc_L (++)).
Qed.

(** The echo server sends back exactly what it receives. Whatever the sizes in
    which bytes arrive and in which the kernel takes them, and whenever the
    connection breaks, nothing is undefined and what was written is a prefix of
    what was read; and as long as the connection is up, what is not yet written
    of it is in the output buffer, so that no byte is lost, repeated or moved. *)
Theorem echo_returns_every_byte (evs : list (event * write_result)) (Hevs : Forall (fun x => echo_event (fst x)) evs) :
  exists c ts tr, echo_run evs established = Ok ((c, ts), tr) /\
    wire tr `prefix_of` received tr /\
    (state_ c = kConnected -> received tr = wire tr ++ Buffer.readable (outputBuffer_ c)).
Proof.
  destruct (echo_run_inv evs (fst established) [] [] [] [] []) as (c & ts & tr & Hr & Hg & _ & HE);
    [done|by constructor|apply Out_established| |].
  { split; [apply Buffer.wf_init_buffer|]. left. split_and!; [done|done|]. apply readable_nil; [apply Buffer.wf_init_buffer|done]. }
  exists c, ts, tr. split; [exact Hr|]. destruct (Hg _ _ Out_established) as [(_ & rest & Hs & Ho) _]. cbn [app] in *. split.
  - transitivity (sent tr); [by exists rest|]. destruct HE as [(_ & -> & _)|[_ H]]; [reflexivity|exact H].
  - intros Hc. rewrite Hc, decide_False in Ho by done. destruct Ho as [Ho _]. destruct HE as [(_ & <- & _)|[Hd _]]; [|congruence].
    by rewrite Hs, Ho.
Qed.

(** "ab" and "cd" arrive; the socket takes three bytes at first. *)
Definition two_lines : list (event * write_result) :=
  [(EvReady Channel.EPOLLIN [Buffer.ReadOk [x61; x62]; Buffer.ReadOk [x63; x64]] [], (3, Buffer.EAGAIN));
   (EvReady Channel.EPOLLOUT [] [(5, Buffer.EAGAIN)], (0, Buffer.EAGAIN))].

Lemma echo_returns_every_byte_witness :
  exists c ts tr, echo_run two_lines established = Ok ((c, ts), tr) /\ state_ c = kConnected /\
    received tr = [x61; x62; x63; x64] /\ wire tr = [x61; x62; x63; x64] /\
    wire tr `prefix_of` received tr.
Proof.
  destruct (echo_returns_every_byte two_lines) as (c & ts & tr & Hr & Hp & _); [by repeat constructor|].
  assert (match echo_run two_lines established with
          | Ok ((c, _), tr) => (state_ c, received tr, wire tr)
          | UB => (kConnecting, [], []) end = (kConnected, [x61; x62; x63; x64], [x61; x62; x63; x64])) as H by (vm_compute; reflexivity).
  rewrite Hr in H. apply pair_equal_spec in H as [[H1 H2]%pair_equal_spec H3].
  exists c, ts, tr. split_and!; [exact Hr|exact H1|exact H2|exact H3|exact Hp].
Defined.

End Echo.
