(* ===== verification/AsyncWriter.v ===== *)
(** * The storage queue ([src/src/storage/AsyncWriter.h], [AsyncWriter.cc])

    Producers call [enqueue] from any thread; the storage thread takes whole
    batches and runs them outside the lock; the destructor sets [stop_] and
    waits for the thread. The sections under the lock are single steps, so that
    the object is a machine whose steps any threads may interleave. *)

From stdpp Require Import base list.
From Stdlib Require Import Lia.
From S2P Require Import Prelude.

Module AsyncWriter.

Section Writer.
Context {Task : Type}.

(** Where the storage thread is: before [cond_.wait] of the loop, running a
    batch of which the given tasks are left, or at the end of [threadFunc]. *)
Inductive pc : Type :=
  | Waiting
  | Running (batch : list Task)
  | Exited.

Record t : Type := mk {
  front_ : list Task;
  stop_ : bool;
  thread : pc;
  executed : list Task;
}.

Definition init : t := mk [] false Waiting [].

Definition enqueue (tk : Task) (s : t) : t := mk (front_ s ++ [tk]) (stop_ s) (thread s) (executed s).

(** The destructor up to [thread_.join()]. *)
Definition request_stop (s : t) : t := mk (front_ s) true (thread s) (executed s).

(** One step of [threadFunc]: the section under the lock, one task of the
    batch, or [batch.clear()] and back to the loop head. [None] when the thread
    is blocked in [cond_.wait], or has ended. *)
Definition thread_step (s : t) : option t :=
  match thread s with
  | Waiting =>
      if stop_ s || negb (bool_decide (length (front_ s) = 0%nat)) then
        if bool_decide (length (front_ s) = 0%nat) && stop_ s then Some (mk (front_ s) (stop_ s) Exited (executed s))
        else Some (mk [] (stop_ s) (Running (front_ s)) (executed s))
      else None
  | Running (tk :: batch) => Some (mk (front_ s) (stop_ s) (Running batch) (executed s ++ [tk]))
  | Running [] => Some (mk (front_ s) (stop_ s) Waiting (executed s))
  | Exited => None
  end.

Inductive action : Type := AEnqueue (tk : Task) | AStop | AThread.

Definition exec (a : action) (s : t) : t :=
  match a with
  | AEnqueue tk => enqueue tk s
  | AStop => request_stop s
  | AThread => default s (thread_step s)
  end.

Definition run (acts : list action) (s : t) : t := foldl (fun s a => exec a s) s acts.

(** The tasks enqueued by the actions, in order. *)
Definition enqueued (acts : list action) : list Task :=
  omap (fun a => match a with AEnqueue tk => Some tk | _ => None end) acts.

Definition batch_of (p : pc) : list Task := match p with Running b => b | _ => [] end.

(** ** Order and completeness *)

(** What is still to run, in order. *)
Definition todo (s : t) : list Task := batch_of (thread s) ++ front_ s.

Lemma thread_step_todo s s' : thread_step s = Some s' -> executed s' ++ todo s' = executed s ++ todo s.
Proof.
  unfold thread_step, todo. destruct (thread s) as [|[|tk b]|].
  - destruct (stop_ s || _); [|done]. destruct (bool_decide _ && _); intros [= <-]; simpl; by rewrite ?app_nil_r.
  - by intros [= <-].
  - intros [= <-]. simpl. by rewrite <- (assoc_L (++)).
  - done.
Qed.

Lemma exec_todo a s : executed (exec a s) ++ todo (exec a s) = executed s ++ todo s ++ enqueued [a].
Proof.
  destruct a as [tk| |]; simpl.
  - unfold todo. simpl. by rewrite <- !(assoc_L (++)).
  - unfold todo. simpl. by rewrite app_nil_r.
  - rewrite app_nil_r. destruct (thread_step s) eqn:E; simpl; [by apply thread_step_todo|done].
Qed.

Lemma run_todo acts s : executed (run acts s) ++ todo (run acts s) = executed s ++ todo s ++ enqueued acts.
Proof.
  revert s. induction acts as [|a acts IH]; intros s; [simpl; by rewrite app_nil_r|].
  change (run (a :: acts) s) with (run acts (exec a s)).
  rewrite IH, (assoc_L (++)), exec_todo, <- !(assoc_L (++)). by destruct a.
Qed.

(** ** Termination *)

(** The number of steps the thread still makes once [stop_] is set. *)
Definition steps_left (s : t) : nat :=
  match thread s with
  | Exited => 0
  | Running b => length b + 1 + match front_ s with [] => 1 | l => length l + 3 end
  | Waiting => match front_ s with [] => 1 | l => length l + 3 end
  end.

(** A thread that has ended has nothing left to do. *)
Definition exit_clean (s : t) : Prop := thread s = Exited -> todo s = [].

Lemma thread_step_left s :
  stop_ s = true -> thread s <> Exited ->
  exists s', thread_step s = Some s' /\ stop_ s' = true /\ (steps_left s' < steps_left s)%nat /\ exit_clean s'.
Proof.
  destruct s as [f st [|[|tk b]|] ex]; simpl; intros -> Ht; try done; unfold thread_step, steps_left, exit_clean, todo; simpl.
  - destruct f as [|x f]; simpl; eexists; split_and!; try done; simpl; lia.
  - eexists. split_and!; try done; simpl; lia.
  - eexists. split_and!; try done; simpl; lia.
Qed.

Lemma thread_finishes n s :
  stop_ s = true -> (steps_left s <= n)%nat -> exit_clean s ->
  let s' := run (replicate n AThread) s in thread s' = Exited /\ executed s' = executed s ++ todo s.
Proof.
  revert s. induction n as [|n IH]; intros s Hst Hn He.
  - simpl. destruct (thread s) as [|b|] eqn:E; unfold steps_left in Hn; rewrite E in Hn.
    + destruct (front_ s); simpl in Hn; lia.
    + lia.
    + by rewrite (He E), app_nil_r.
  - change (run (replicate (S n) AThread) s) with (run (replicate n AThread) (exec AThread s)). simpl exec.
    assert (thread s = Exited \/ thread s <> Exited) as [E|E] by (destruct (thread s); auto).
    + assert (thread_step s = None) as -> by (unfold thread_step; by rewrite E). apply IH; [done| |done].
      unfold steps_left. rewrite E. lia.
    + destruct (thread_step_left s Hst E) as (s1 & Hs & Hst1 & Hl & He1). rewrite Hs. simpl.
      rewrite <- (thread_step_todo _ _ Hs). apply IH; [done|lia|done].
Qed.

(** Before the destructor runs the thread does not end. *)
Lemma run_not_stopped acts s :
  AStop ∉ acts -> stop_ s = false -> thread s <> Exited -> stop_ (run acts s) = false /\ thread (run acts s) <> Exited.
Proof.
  revert s. induction acts as [|a acts IH]; intros s Hn Hs Ht; [done|].
  change (run (a :: acts) s) with (run acts (exec a s)). apply not_elem_of_cons in Hn as [Ha Hn].
  apply IH; [done|..]; destruct a; simpl; try done; unfold thread_step.
  - destruct (thread s) as [|[|]|]; simpl; try done. rewrite Hs. simpl. destruct (bool_decide _); simpl; congruence.
  - destruct (thread s) as [|[|]|] eqn:E; simpl; try done.
    rewrite Hs. simpl. destruct (bool_decide _); simpl; [by rewrite E|done].
Qed.

End Writer.
Arguments t : clear implicits.
Arguments action : clear implicits.

(** C33: The queue runs every task once, in order, and flushes. However
    [enqueue] calls, steps of the storage thread and the destructor interleave,
    the tasks executed so far are a prefix of those enqueued, in the order of
    their [enqueue]; and once the destructor has run (and nothing more is
    enqueued), the thread ends after at most [n + 4] of its steps, where [n]
    tasks were enqueued, and every one of them has been executed. *)
Theorem writer_flushes_in_order {Task} (acts : list (action Task)) (n : nat) :
  AStop ∉ acts -> (length (enqueued acts) + 4 <= n)%nat ->
  (forall acts1 acts2, acts = acts1 ++ acts2 -> executed (run acts1 init) `prefix_of` enqueued acts) /\
  let s := run (acts ++ AStop :: replicate n AThread) init in
  thread s = Exited /\ executed s = enqueued acts.
Proof.
  intros Hns Hn. split.
  { intros acts1 acts2 ->. pose proof (run_todo acts1 init) as H. simpl in H. unfold enqueued in *. rewrite omap_app, <- H.
    rewrite <- (assoc_L (++)). by eexists. }
  cbv zeta. set (s1 := run acts init).
  assert (run (acts ++ AStop :: replicate n AThread) init = run (replicate n AThread) (request_stop s1)) as ->
    by (unfold run; by rewrite foldl_app).
  destruct (run_not_stopped acts init Hns eq_refl ltac:(done)) as [_ Ht]. fold s1 in Ht.
  pose proof (run_todo acts init) as Htodo. simpl in Htodo. fold s1 in Htodo.
  change (todo s1) with (todo (request_stop s1)) in Htodo. change (executed s1) with (executed (request_stop s1)) in Htodo.
  rewrite <- Htodo. apply (thread_finishes n (request_stop s1)); [done| |by intros ?].
  rewrite <- Htodo in Hn. unfold todo, steps_left in *. rewrite !length_app in Hn. simpl in *.
  destruct (thread s1) as [|b|], (front_ s1); simpl in *; lia.
Qed.

Lemma writer_flushes_in_order_witness :
  let s := run ([AEnqueue 1; AThread; AEnqueue 2; AThread; AEnqueue 3]%nat ++ AStop :: replicate 7 AThread) init in
  thread s = Exited /\ executed s = [1; 2; 3]%nat.
Proof.
  apply (writer_flushes_in_order [AEnqueue 1; AThread; AEnqueue 2; AThread; AEnqueue 3]%nat 7); [|simpl; lia].
  intros H. repeat (apply elem_of_cons in H as [H|H]; [discriminate H|]). by apply not_elem_of_nil in H.
Defined.

End AsyncWriter.
