(* ===== verification/EventLoop.v ===== *)
(** * Event loops ([src/src/net/EventLoop.h], [EventLoop.cc],
    [EventLoopThread.cc])

    Other threads hand functors to a loop with [queueInLoop], which pushes under
    a lock and then, outside it, writes the eventfd that wakes the loop. The
    model is a machine whose steps the threads interleave freely: the loop
    thread's own steps, and for every other thread the push and the write as
    two steps. The wake-up channel is edge-triggered and every write to the
    eventfd is an edge, so [poll] returns when the counter is positive; it may
    also return for another descriptor or after its timeout. *)

From stdpp Require Import base list.
From Stdlib Require Import Lia.
From S2P Require Import Prelude.

Module EventLoop.

Section Loop.
Context {Functor : Type}.

(** Where the loop thread is: before [loop()] has reset [quit_] (where
    [EventLoopThread::threadFunc] publishes the loop); at the head of the
    [while]; in [poll]; in [handleEvent] of the active channels, the wake-up
    channel among them or not; before [doPendingFunctors]; in its [for], with
    the functors left; after [loop()]. *)
Inductive pc : Type :=
  | Start
  | Head
  | Polling
  | Handling (wakeup : bool)
  | Handled
  | Running (functors : list Functor)
  | Ended.

(** [wakers] counts the threads between their push (or their [quit_ = true])
    and their write; [executed] are the functors run by [doPendingFunctors]. *)
Record t : Type := mk {
  pendingFunctors_ : list Functor;
  counter : nat;
  quit_ : bool;
  thread : pc;
  wakers : nat;
  executed : list Functor;
}.

Definition init : t := mk [] 0 false Start 0 [].

Definition set_thread (p : pc) (s : t) : t := mk (pendingFunctors_ s) (counter s) (quit_ s) p (wakers s) (executed s).

(** The push of [queueInLoop] by another thread, and the write that follows. *)
Definition push (f : Functor) (s : t) : t :=
  mk (pendingFunctors_ s ++ [f]) (counter s) (quit_ s) (thread s) (S (wakers s)) (executed s).

Definition wake (s : t) : t :=
  match wakers s with
  | O => s
  | S n => mk (pendingFunctors_ s) (S (counter s)) (quit_ s) (thread s) n (executed s)
  end.

(** [queueInLoop] by the loop thread itself. *)
Definition queue_own (f : Functor) (s : t) : t :=
  mk (pendingFunctors_ s ++ [f]) (S (counter s)) (quit_ s) (thread s) (wakers s) (executed s).

(** [runInLoop]: the functor to call at once, or the push. *)
Definition runInLoop (isInLoopThread : bool) (f : Functor) (s : t) : option Functor * t :=
  if isInLoopThread then (Some f, s) else (None, push f s).

(** [quit] up to its write, which [wake] makes. *)
Definition quit (isInLoopThread : bool) (s : t) : t :=
  mk (pendingFunctors_ s) (counter s) true (thread s) (if isInLoopThread then wakers s else S (wakers s)) (executed s).

(** [handleWakeup]: the read that empties the counter. *)
Definition handleWakeup (s : t) : t :=
  mk (pendingFunctors_ s) 0 (quit_ s) (thread s) (wakers s) (executed s).

(** One step of the loop thread; [other] says that [poll] returns for another
    reason than the eventfd. [None] when it is blocked in [poll] or has ended. *)
Definition loop_step (other : bool) (s : t) : option t :=
  match thread s with
  | Start => Some (mk (pendingFunctors_ s) (counter s) false Head (wakers s) (executed s))
  | Head => Some (set_thread (if quit_ s then Ended else Polling) s)
  | Polling =>
      if (0 <? counter s)%nat then Some (set_thread (Handling true) s)
      else if other then Some (set_thread (Handling false) s) else None
  | Handling w => Some (set_thread Handled (if w then handleWakeup s else s))
  | Handled => Some (mk [] (counter s) (quit_ s) (Running (pendingFunctors_ s)) (wakers s) (executed s))
  | Running (f :: fs) =>
      Some (mk (pendingFunctors_ s) (counter s) (quit_ s) (Running fs) (wakers s) (executed s ++ [f]))
  | Running [] => Some (set_thread Head s)
  | Ended => None
  end.

Inductive action : Type :=
  | APush (f : Functor)
  | AWake
  | AQueueOwn (f : Functor)
  | AQuit (own : bool)
  | ALoop (other : bool).

(** The loop thread calls [queueInLoop] and [quit] from callbacks and functors. *)
Definition in_callback (s : t) : bool := match thread s with Handling _ | Running _ => true | _ => false end.

Definition exec (a : action) (s : t) : t :=
  match a with
  | APush f => push f s
  | AWake => wake s
  | AQueueOwn f => if in_callback s then queue_own f s else s
  | AQuit own => if own && negb (in_callback s) then s else quit own s
  | ALoop other => default s (loop_step other s)
  end.

Definition run (acts : list action) (s : t) : t := foldl (fun s a => exec a s) s acts.

(** ** Invariants *)

Definition busy (s : t) : Prop := match thread s with Handling _ | Handled => True | _ => False end.

(** Something waits only while a wake-up is under way. *)
Record Inv (s : t) : Prop := mkInv {
  I_pending : pendingFunctors_ s <> [] -> (0 < counter s)%nat \/ (0 < wakers s)%nat \/ busy s;
  I_quit : thread s = Polling -> quit_ s = true -> (0 < counter s)%nat \/ (0 < wakers s)%nat;
}.

Lemma loop_Inv_init : Inv init.
Proof. by split. Qed.

Lemma Inv_loop_step other s s' : Inv s -> loop_step other s = Some s' -> Inv s'.
Proof.
  intros [H1 H2]. unfold loop_step. destruct s as [p c q th w ex]; simpl in *.
  destruct th as [| | |wk| |[|f fs]|]; unfold set_thread; simpl.
  - intros [= <-]. split; simpl; [|done]. intros Hp. apply H1 in Hp. unfold busy in *. simpl in *. tauto.
  - intros [= <-]. split; simpl; [|destruct q; [done|]; by intros _ [=]].
    intros Hp. apply H1 in Hp. unfold busy in *. simpl in *. tauto.
  - destruct (Nat.ltb_spec 0 c); [|destruct other; [|done]]; intros [= <-]; split; simpl; try done; unfold busy; simpl; tauto.
  - intros [= <-]. destruct wk; split; simpl; try done; unfold busy; simpl; tauto.
  - intros [= <-]. split; simpl; done.
  - intros [= <-]. split; simpl; [|done]. intros Hp. apply H1 in Hp. unfold busy in *. simpl in *. tauto.
  - intros [= <-]. split; simpl; [|done]. intros Hp. apply H1 in Hp. unfold busy in *. simpl in *. tauto.
  - done.
Qed.

Lemma Inv_exec a s : Inv s -> Inv (exec a s).
Proof.
  intros HI. pose proof HI as [H1 H2]. destruct a as [f| |f|own|other]; simpl.
  - split; simpl; intros; right; [left|]; lia.
  - unfold wake. destruct (wakers s) eqn:E; [done|]. split; simpl; intros; left; lia.
  - destruct (in_callback s) eqn:Ec; [|done]. split; simpl; intros; left; lia.
  - destruct (own && _) eqn:Eo; [done|]. split; simpl.
    + intros Hp. apply H1 in Hp. unfold busy in *. simpl. destruct own; [done|]. right. left. lia.
    + intros Hp _. destruct own; [|right; lia]. unfold in_callback in Eo. by rewrite Hp in Eo.
  - destruct (loop_step other s) eqn:E; simpl; [by eapply Inv_loop_step|done].
Qed.

Lemma Inv_run acts s : Inv s -> Inv (run acts s).
Proof.
  revert s. induction acts as [|a acts IH]; intros s Hs; [done|].
  change (run (a :: acts) s) with (run acts (exec a s)). by apply IH, Inv_exec.
Qed.

(** ** Order *)

Definition batch_of (p : pc) : list Functor := match p with Running b => b | _ => [] end.

(** What is still to run, in order. *)
Definition todo (s : t) : list Functor := batch_of (thread s) ++ pendingFunctors_ s.

(** The functors an action queues. *)
Definition queued (a : action) (s : t) : list Functor :=
  match a with
  | APush f => [f]
  | AQueueOwn f => if in_callback s then [f] else []
  | _ => []
  end.

Fixpoint all_queued (acts : list action) (s : t) : list Functor :=
  match acts with
  | [] => []
  | a :: acts' => queued a s ++ all_queued acts' (exec a s)
  end.

Lemma loop_step_todo other s s' : loop_step other s = Some s' -> executed s' ++ todo s' = executed s ++ todo s.
Proof.
  unfold loop_step, todo. destruct s as [p c q th w ex]; simpl. destruct th as [| | |wk| |[|f fs]|]; unfold set_thread; simpl.
  - by intros [= <-].
  - intros [= <-]. by destruct q.
  - destruct (_ <? _)%nat; [|destruct other; [|done]]; by intros [= <-].
  - intros [= <-]. by destruct wk.
  - intros [= <-]. simpl. by rewrite app_nil_r.
  - by intros [= <-].
  - intros [= <-]. simpl. by rewrite <- (assoc_L (++)).
  - done.
Qed.

Lemma loop_exec_todo a s : executed (exec a s) ++ todo (exec a s) = executed s ++ todo s ++ queued a s.
Proof.
  destruct a as [f| |f|own|other]; simpl.
  - unfold todo. simpl. by rewrite <- !(assoc_L (++)).
  - unfold wake, todo. destruct (wakers s); simpl; by rewrite app_nil_r.
  - destruct (in_callback s); [|by rewrite app_nil_r]. unfold todo. simpl. by rewrite <- !(assoc_L (++)).
  - unfold todo. destruct (own && _); simpl; by rewrite app_nil_r.
  - rewrite app_nil_r. destruct (loop_step other s) eqn:E; simpl; [by eapply loop_step_todo|done].
Qed.

Lemma loop_run_todo acts s : executed (run acts s) ++ todo (run acts s) = executed s ++ todo s ++ all_queued acts s.
Proof.
  revert s. induction acts as [|a acts IH]; intros s; [simpl; by rewrite app_nil_r|].
  change (run (a :: acts) s) with (run acts (exec a s)). by rewrite IH, (assoc_L (++)), loop_exec_todo, <- !(assoc_L (++)).
Qed.

(** ** Progress *)

(** The loop thread alone, without other descriptors becoming ready. *)
Definition spin (n : nat) (s : t) : t := run (replicate n (ALoop false)) s.

Lemma spin_add n m s : spin (n + m) s = spin m (spin n s).
Proof. unfold spin, run. by rewrite replicate_add, foldl_app. Qed.

Lemma spin_batch fs p c q w ex :
  spin (length fs + 1) (mk p c q (Running fs) w ex) = mk p c q Head w (ex ++ fs).
Proof.
  revert ex. induction fs as [|f fs IH]; intros ex; simpl; [by rewrite app_nil_r|].
  change (spin (S (length fs + 1)) (mk p c q (Running (f :: fs)) w ex))
    with (spin (length fs + 1) (mk p c q (Running fs) w (ex ++ [f]))).
  by rewrite IH, <- (assoc_L (++)).
Qed.

(** From the head of the loop, with a wake-up pending or nothing to do. *)
Lemma spin_head p c w ex :
  (p <> [] -> (0 < c)%nat) -> exists n s', spin n (mk p c false Head w ex) = s' /\ executed s' = ex ++ p.
Proof.
  intros Hc. destruct p as [|f p].
  { exists 0%nat. eexists. split; [done|]. simpl. by rewrite app_nil_r. }
  destruct c as [|c]; [specialize (Hc ltac:(done)); lia|].
  exists (4 + (length (f :: p) + 1))%nat. eexists. split; [done|]. rewrite spin_add.
  change (spin 4 (mk (f :: p) (S c) false Head w ex)) with (mk [] 0 false (Running (f :: p)) w ex).
  by rewrite spin_batch.
Qed.

Lemma spin_all s :
  Inv s -> thread s <> Start -> thread s <> Ended -> quit_ s = false -> wakers s = 0%nat ->
  exists n, executed (spin n s) = executed s ++ todo s.
Proof.
  destruct s as [p c q th w ex]. unfold todo. simpl. intros [H1 _] Hs He -> ->. simpl in H1. unfold busy in H1. simpl in H1.
  assert (forall n c' ex', spin n (mk p c false th 0 ex) = mk p c' false Head 0 ex' -> (p <> [] -> (0 < c')%nat) ->
    exists n, executed (spin n (mk p c false th 0 ex)) = ex' ++ p) as Hgo.
  { intros n c' ex' Hn Hc. destruct (spin_head p c' 0 ex' Hc) as (m & s' & Hm & Hex). exists (n + m)%nat.
    by rewrite spin_add, Hn, Hm. }
  assert (forall n c', spin n (mk p c false th 0 ex) = mk [] c' false (Running p) 0 ex ->
    exists n, executed (spin n (mk p c false th 0 ex)) = ex ++ p) as Hrun.
  { intros n c' Hn. exists (n + (length p + 1))%nat. by rewrite spin_add, Hn, spin_batch. }
  destruct th as [| | |wk| |fs|]; simpl; try done.
  - apply (Hgo 0%nat c); [done|]. intros Hp. specialize (H1 Hp). lia || tauto.
  - destruct p as [|f p]; [exists 0%nat; simpl; by rewrite app_nil_r|]. destruct c as [|c].
    + destruct (H1 ltac:(done)) as [?|[?|[]]]; lia.
    + by apply (Hrun 3%nat 0%nat).
  - apply (Hrun 2%nat (if wk then 0%nat else c)). by destruct wk.
  - by apply (Hrun 1%nat c).
  - rewrite (assoc_L (++)). apply (Hgo (length fs + 1)%nat c); [apply spin_batch|]. intros Hp. specialize (H1 Hp). lia || tauto.
Qed.

(** [quit_] of a loop that was asked to quit only before it started. *)
Definition runs_on (s : t) : Prop := thread s = Start \/ quit_ s = false /\ thread s <> Ended.

Lemma runs_on_exec a s : (forall own, a <> AQuit own) -> runs_on s -> runs_on (exec a s).
Proof.
  intros Ha Hs. unfold runs_on in *. destruct a as [f| |f|own|other]; simpl.
  - done.
  - unfold wake. by destruct (wakers s).
  - by destruct (in_callback s).
  - by destruct (Ha own).
  - destruct s as [p c q th w ex]. unfold loop_step, set_thread. simpl in *. destruct Hs as [->|[-> Hth]]; [by right|].
    destruct th as [| | |wk| |[|f fs]|]; simpl; try (by right).
    + destruct (_ <? _)%nat; [|destruct other]; by right.
    + destruct wk; by right.
Qed.

End Loop.
Arguments t : clear implicits.
Arguments action : clear implicits.

(** C32: No functor is forgotten. However pushes, wake-ups, [quit]s, callbacks and
    the steps of the loop thread interleave: the functors run so far are a
    prefix of those queued, in the order of their pushes; the loop sleeps in
    [poll] (with no wake-up under way) only when nothing is queued and no
    [quit] was requested; and from every state of a running loop to which no
    [quit] was requested and in which every thread has made its write, the loop
    thread by itself runs everything queued, without waiting for the timeout of
    [poll]. *)
Theorem no_functor_is_forgotten {Functor} (acts : list (action Functor)) :
  let s := run acts init in
  executed s `prefix_of` all_queued acts init /\
  (thread s = Polling -> counter s = 0%nat -> wakers s = 0%nat -> pendingFunctors_ s = [] /\ quit_ s = false) /\
  (thread s <> Start -> thread s <> Ended -> quit_ s = false -> wakers s = 0%nat ->
   exists n, executed (spin n s) = all_queued acts init).
Proof.
  intros s. pose proof (Inv_run acts init loop_Inv_init) as HI. fold s in HI.
  pose proof (loop_run_todo acts init) as Ht. fold s in Ht. simpl in Ht. split_and!.
  - rewrite <- Ht. by eexists.
  - intros Hp Hc Hw. destruct HI as [H1 H2]. split.
    + destruct (pendingFunctors_ s) eqn:E; [done|]. destruct H1 as [?|[?|Hb]]; [done|lia|lia|].
      unfold busy in Hb. by rewrite Hp in Hb.
    + destruct (quit_ s) eqn:E; [|done]. destruct (H2 Hp eq_refl); lia.
  - intros H1 H2 H3 H4. destruct (spin_all s HI H1 H2 H3 H4) as [n Hn]. exists n. by rewrite Hn.
Qed.

(** A [quit] that comes before [loop()] has begun is lost: [loop()] resets
    [quit_], and unless somebody calls [quit] again the loop never ends,
    whatever else happens. [EventLoopThread] publishes the loop before it calls
    [loop()], so its destructor can call [quit] that early and then waits for
    the thread for ever. *)
Theorem early_quit_is_lost {Functor} (s : t Functor) (acts : list (action Functor)) :
  thread s = Start -> (forall own, AQuit own ∉ acts) -> thread (run acts (quit false s)) <> Ended.
Proof.
  intros Hs Hn. assert (runs_on (quit false s)) as Hq by (by left). revert Hq. generalize (quit false s). clear s Hs.
  induction acts as [|a acts IH]; intros s Hq.
  - simpl. destruct Hq as [->|[_ ?]]; done.
  - change (run (a :: acts) s) with (run acts (exec a s)). apply IH.
    + intros own H. apply (Hn own). by constructor.
    + apply runs_on_exec; [|done]. intros own ->. apply (Hn own). by constructor.
Qed.

Lemma early_quit_is_lost_witness :
  thread (run [AWake; ALoop false; ALoop false; ALoop false; ALoop false; ALoop false; ALoop false; ALoop false]
            (quit false (@init nat))) = Polling /\
  thread (run [AWake; ALoop false; ALoop false; ALoop false; ALoop false; ALoop false; ALoop false; ALoop false]
            (quit false (@init nat))) <> Ended.
Proof.
  split; [reflexivity|]. apply early_quit_is_lost; [reflexivity|].
  intros own H. repeat (apply elem_of_cons in H as [H|H]; [discriminate H|]). by apply not_elem_of_nil in H.
Defined.

(** A [quit] on the loop's own thread outside its callbacks, which is what the
    signal handler of [game_server] makes, does not write the eventfd. When the
    signal arrives between the test of [quit_] and [epoll_wait], the loop goes to
    sleep although it was asked to quit, whatever the other threads do as long as
    none of them wakes it; it ends only when [poll] returns for another reason,
    at the latest after its timeout of ten seconds. *)
Theorem signal_quit_waits {Functor} (s : t Functor) (n : nat) :
  thread s = Polling -> counter s = 0%nat -> wakers s = 0%nat ->
  thread (spin n (quit true s)) = Polling /\ quit_ (spin n (quit true s)) = true /\
  exists m, thread (run (ALoop true :: replicate m (ALoop false)) (quit true s)) = Ended.
Proof.
  intros Hth Hc Hw. destruct s as [p c q th w ex]. simpl in *. subst th c w.
  assert (spin n (quit true (mk p 0 q Polling 0 ex)) = mk p 0 true Polling 0 ex) as ->.
  { induction n as [|n IH]; [done|]. replace (S n) with (n + 1)%nat by lia. by rewrite spin_add, IH. }
  split_and!; [done|done|]. exists (2 + ((length p + 1) + 1))%nat.
  assert (spin (2 + ((length p + 1) + 1)) (mk p 0 true (Handling false) 0 ex) = mk [] 0 true Ended 0 (ex ++ p)) as H.
  { rewrite spin_add. change (spin 2 (mk p 0 true (Handling false) 0 ex)) with (mk [] 0 true (Running p) 0 ex). by rewrite spin_add, spin_batch. }
  exact (f_equal thread H).
Qed.

Lemma signal_quit_waits_witness :
  thread (spin 5 (quit true (run [ALoop false; ALoop false] (init (Functor := nat))))) = Polling.
Proof. refine (proj1 (signal_quit_waits (run [ALoop false; ALoop false] init) 5 _ _ _)); reflexivity. Defined.

End EventLoop.
