(* ===== verification/EventLoopThread.v ===== *)
(** * A thread with an event loop ([src/src/net/EventLoopThread.h], [.cc])

    The owner calls [startLoop], which creates the thread and waits until it has
    published the address of the [EventLoop] on its stack, and later the
    destructor, which calls [quit] on that loop and joins the thread. The model
    is a machine whose steps the owner, the thread and any other users of the
    loop interleave; the loop itself is the machine of [EventLoop.v]. A section
    under [mutex_] is one step, except for [quit], whose write to the eventfd is
    a step of its own: the owner holds the lock in between. An access to the
    loop after its destruction is [UB]. *)

From stdpp Require Import base list.
From Stdlib Require Import Lia.
From S2P Require Import Prelude EventLoop.

Module EventLoopThread.

Section Thread.
Context {Functor : Type}.

(** The thread: not created; constructing [loop]; between publishing and
    [notify_one]; in [loop.loop()]; after it, before the lock; before the
    destruction of [loop]; ended. *)
Inductive wpc : Type :=
  | WNone
  | WBuild
  | WPublished
  | WLoop
  | WReturned
  | WCleared
  | WGone.

(** The owner: before [startLoop]; about to test the predicate of [cond_.wait];
    asleep in it; after [startLoop]; in the destructor inside [quit], with the
    lock; in [join]; after the destructor. *)
Inductive opc : Type :=
  | OIdle
  | OTest
  | OAsleep
  | OStarted
  | OQuitting
  | OJoining
  | ODone.

Record t : Type := mk {
  loop_ : bool;
  alive : bool;
  worker : wpc;
  owner : opc;
  el : EventLoop.t Functor;
}.

Definition init : t := mk false false WNone OIdle EventLoop.init.

(** [quit] and its write touch the loop object. *)
Definition touch (s : t) (l : EventLoop.t Functor) (o : opc) : res t :=
  if alive s then Ok (mk (loop_ s) (alive s) (worker s) o l) else UB.

(** One step of the owner; [destroy] says that [startLoop] is followed by the
    destructor now. *)
Definition owner_step (destroy : bool) (s : t) : res t :=
  match owner s with
  | OIdle => if destroy then Ok (mk (loop_ s) (alive s) (worker s) ODone (el s))
             else Ok (mk (loop_ s) (alive s) WBuild OTest (el s))
  | OTest => Ok (mk (loop_ s) (alive s) (worker s) (if loop_ s then OStarted else OAsleep) (el s))
  | OAsleep => Ok s
  | OStarted =>
      if destroy then
        if loop_ s then touch s (EventLoop.quit false (el s)) OQuitting
        else Ok (mk (loop_ s) (alive s) (worker s) OJoining (el s))
      else Ok s
  | OQuitting => touch s (EventLoop.wake (el s)) OJoining
  | OJoining => match worker s with WGone => Ok (mk (loop_ s) (alive s) (worker s) ODone (el s)) | _ => Ok s end
  | ODone => Ok s
  end.

(** One step of the thread; [other] is the readiness of another descriptor. It
    waits for the lock while the owner is in [quit]. *)
Definition worker_step (other : bool) (s : t) : t :=
  match worker s with
  | WNone => s
  | WBuild => mk true true WPublished (owner s) (el s)
  | WPublished => mk (loop_ s) (alive s) WLoop (match owner s with OAsleep => OTest | o => o end) (el s)
  | WLoop =>
      match EventLoop.thread (el s) with
      | EventLoop.Ended => mk (loop_ s) (alive s) WReturned (owner s) (el s)
      | _ => mk (loop_ s) (alive s) WLoop (owner s) (EventLoop.exec (EventLoop.ALoop other) (el s))
      end
  | WReturned =>
      match owner s with
      | OQuitting => s
      | _ => mk false (alive s) WCleared (owner s) (el s)
      end
  | WCleared => mk (loop_ s) false WGone (owner s) (el s)
  | WGone => s
  end.

Inductive action : Type :=
  | AOwner (destroy : bool)
  | AWorker (other : bool)
  | AUser (a : EventLoop.action Functor).

(** [startLoop] has not returned. *)
Definition starting (o : opc) : bool := match o with OIdle | OTest | OAsleep => true | _ => false end.

(** Other users of the loop, who have it from [startLoop]: everything but the
    loop thread's own steps. *)
Definition exec (a : action) (s : t) : res t :=
  match a with
  | AOwner d => owner_step d s
  | AWorker o => Ok (worker_step o s)
  | AUser (EventLoop.ALoop _) => Ok s
  | AUser a =>
      if starting (owner s) then Ok s
      else Ok (mk (loop_ s) (alive s) (worker s) (owner s) (EventLoop.exec a (el s)))
  end.

Fixpoint run (acts : list action) (s : t) : res t :=
  match acts with [] => Ok s | a :: acts => (let! s1 := exec a s in run acts s1)%gs end.

(** ** Invariant *)

Definition published (w : wpc) : bool :=
  match w with WPublished | WLoop | WReturned => true | _ => false end.

Record Inv (s : t) : Prop := mkInv {
  I_loop : loop_ s = published (worker s);
  I_alive : alive s = match worker s with WCleared => true | w => published w end;
  I_idle : owner s = OIdle -> worker s = WNone;
  I_none : worker s = WNone -> owner s = OIdle \/ owner s = ODone;
  I_sleep : owner s = OAsleep -> worker s = WBuild \/ worker s = WPublished;
  I_lock : owner s = OQuitting -> published (worker s) = true;
  I_early : match worker s with WNone | WBuild | WPublished => EventLoop.thread (el s) = EventLoop.Start | _ => True end;
  I_late : match worker s with WReturned | WCleared | WGone => EventLoop.thread (el s) = EventLoop.Ended | _ => True end;
  I_el : EventLoop.Inv (el s);
  I_start : starting (owner s) = true -> EventLoop.runs_on (el s);
  I_done : owner s = ODone -> worker s = WGone \/ worker s = WNone;
}.

Lemma et_Inv_init : Inv init.
Proof. split; try done; by left. Qed.

Lemma user_thread (a : EventLoop.action Functor) l :
  (forall o, a <> EventLoop.ALoop o) -> EventLoop.thread (EventLoop.exec a l) = EventLoop.thread l.
Proof.
  intros Ha. destruct a as [f| |f|own|other]; simpl; try done.
  - unfold EventLoop.wake. by destruct (EventLoop.wakers l).
  - by destruct (EventLoop.in_callback l).
  - by destruct (own && _).
  - by destruct (Ha other).
Qed.

Ltac inv_split := split; simpl; try done; try (intuition congruence).

Lemma Inv_owner d s : Inv s -> exists s', owner_step d s = Ok s' /\ Inv s'.
Proof.
  intros HI. pose proof HI as [H1 H2 H3 H3' H4 H5 H6 H7 H8 H8' H9]. destruct s as [lp al w o l]. unfold owner_step, touch.
  cbn [loop_ alive worker owner el] in *. destruct o.
  - specialize (H3 eq_refl). subst w. destruct d; eexists; (split; [done|]); inv_split.
  - eexists. split; [done|]. rewrite H1. specialize (H8' eq_refl). unfold EventLoop.runs_on in H8'.
    destruct (published w) eqn:E; [destruct w; inv_split|]. destruct w; try done; inv_split.
  - eauto.
  - destruct d; [|eauto]. rewrite H1. destruct (published w) eqn:E.
    + assert (al = true) as -> by (rewrite H2; by destruct w). eexists. split; [done|]. split; simpl; try done; try (destruct w; done).
      by apply (EventLoop.Inv_exec (EventLoop.AQuit false)).
    + eexists. split; [done|]. split; simpl; try done; destruct w; simpl in *; try done; intuition congruence.
  - specialize (H5 eq_refl). assert (al = true) as -> by (rewrite H2; by destruct w). eexists. split; [done|].
    pose proof (user_thread EventLoop.AWake l ltac:(done)) as Hth. simpl in Hth.
    split; simpl; rewrite ?Hth; try done; try (destruct w; done). by apply (EventLoop.Inv_exec EventLoop.AWake).
  - destruct w; eauto. eexists. split; [done|]. inv_split.
  - eauto.
Qed.

Lemma Inv_worker o s : Inv s -> Inv (worker_step o s).
Proof.
  intros HI. pose proof HI as [H1 H2 H3 H3' H4 H5 H6 H7 H8 H8' H9]. destruct s as [lp al w ow l]. unfold worker_step.
  cbn [loop_ alive worker owner el] in *. destruct w; simpl in *.
  - done.
  - inv_split.
  - destruct ow; inv_split.
  - pose proof (EventLoop.Inv_exec (EventLoop.ALoop o) l H8) as Hel.
    assert (starting ow = true -> EventLoop.runs_on (EventLoop.exec (EventLoop.ALoop o) l)) as Hrun.
    { intros Hst. by apply EventLoop.runs_on_exec; [|apply H8']. }
    destruct (EventLoop.thread l) eqn:E; inv_split.
  - destruct ow; try done; inv_split.
  - inv_split.
  - done.
Qed.

Lemma thread_Inv_exec a s : Inv s -> exists s', exec a s = Ok s' /\ Inv s'.
Proof.
  intros HI. destruct a as [d|o|a]; simpl; [by apply Inv_owner|eexists; split; [done|by apply Inv_worker]|].
  assert ((forall o, a <> EventLoop.ALoop o) -> starting (owner s) = false ->
    Inv (mk (loop_ s) (alive s) (worker s) (owner s) (EventLoop.exec a (el s)))) as Hu.
  { intros Ha Hst. destruct HI as [H1 H2 H3 H3' H4 H5 H6 H7 H8 H8' H9]. split; simpl; rewrite ?user_thread by done; try done.
    - by apply EventLoop.Inv_exec.
    - congruence. }
  destruct (starting (owner s)) eqn:E; destruct a; try (eexists; split; [done|]; by apply Hu); eauto.
Qed.

Lemma Inv_run_thread acts s : Inv s -> exists s', run acts s = Ok s' /\ Inv s'.
Proof.
  revert s. induction acts as [|a acts IH]; intros s HI; [eauto|]. simpl.
  destruct (thread_Inv_exec a s HI) as (s1 & -> & HI1). cbn [res_bind]. by apply IH.
Qed.

Lemma run_app_thread acts1 acts2 s s1 : run acts1 s = Ok s1 -> run (acts1 ++ acts2) s = run acts2 s1.
Proof.
  revert s. induction acts1 as [|a acts1 IH]; intros s H; simpl in *; [by injection H as ->|].
  destruct (exec a s) as [s2|]; cbn [res_bind] in *; [by apply IH|done].
Qed.

(** ** The end of the thread *)

(** A loop that was asked to quit, with the wake-up made, ends by itself. *)
Lemma quit_stops (l : EventLoop.t Functor) :
  EventLoop.Inv l -> EventLoop.quit_ l = true -> EventLoop.thread l <> EventLoop.Start -> EventLoop.wakers l = 0%nat ->
  exists n, EventLoop.thread (EventLoop.spin n l) = EventLoop.Ended.
Proof.
  destruct l as [p c q th w ex]. simpl. intros [_ H2] -> Hth ->. simpl in H2.
  assert (forall fs p c, exists n, EventLoop.thread (EventLoop.spin n (EventLoop.mk p c true (EventLoop.Running fs) 0 ex)) = EventLoop.Ended)
    as Hrun.
  { intros fs p' c'. exists (length fs + 1 + 1)%nat. by rewrite EventLoop.spin_add, EventLoop.spin_batch. }
  assert (forall n s', EventLoop.spin n (EventLoop.mk p c true th 0 ex) = s' ->
            (exists m, EventLoop.thread (EventLoop.spin m s') = EventLoop.Ended) ->
            exists n, EventLoop.thread (EventLoop.spin n (EventLoop.mk p c true th 0 ex)) = EventLoop.Ended) as Hgo.
  { intros n s' <- [m Hm]. exists (n + m)%nat. by rewrite EventLoop.spin_add. }
  destruct th as [| | |wk| |fs|]; [done| | | | | |].
  - by exists 1%nat.
  - destruct c as [|c]; [destruct (H2 eq_refl eq_refl); lia|]. (eapply (Hgo 3%nat); [done|apply Hrun]).
  - destruct wk; (eapply (Hgo 2%nat); [done|apply Hrun]).
  - (eapply (Hgo 1%nat); [done|apply Hrun]).
  - apply Hrun.
  - by exists 0%nat.
Qed.

Lemma worker_spin n s :
  worker s = WLoop -> EventLoop.thread (EventLoop.spin n (el s)) = EventLoop.Ended ->
  exists m, run (replicate m (AWorker false)) s =
    Ok (mk (loop_ s) (alive s) WReturned (owner s) (EventLoop.spin n (el s))).
Proof.
  revert s. induction n as [|n IH]; intros [lp al w o l] Hw He; simpl in *; subst w.
  - exists 1%nat. simpl. unfold worker_step. simpl. change (EventLoop.spin 0 l) with l in He. by rewrite He.
  - assert (EventLoop.spin (S n) l = EventLoop.spin n (EventLoop.exec (EventLoop.ALoop false) l)) as Hs by done.
    assert (EventLoop.thread l = EventLoop.Ended \/ EventLoop.thread l <> EventLoop.Ended) as [Hl|Hl]
      by (destruct (EventLoop.thread l); (by left) || (by right)).
    + assert (EventLoop.exec (EventLoop.ALoop false) l = l) as Hl1.
      { simpl. unfold EventLoop.loop_step. by rewrite Hl. }
      rewrite Hl1 in Hs. rewrite Hs in He |- *. by apply (IH (mk lp al WLoop o l)).
    + destruct (IH (mk lp al WLoop o (EventLoop.exec (EventLoop.ALoop false) l))) as [m Hm]; [done|exact He|].
      exists (S m). cbn [replicate run exec]. unfold worker_step at 1. cbn [worker el loop_ alive owner].
      rewrite Hs. destruct (EventLoop.thread l); try done; exact Hm.
Qed.

End Thread.
Arguments t : clear implicits.
Arguments action : clear implicits.

(** The life of a loop thread is safe under every interleaving: [startLoop]
    returns only with the address of a living loop and is not left asleep by a
    missed notification; the destructor's [quit] never touches a loop that has
    been destroyed, because the thread takes back the address under the same
    lock first; and [join] returns only when the loop is gone. *)
Theorem thread_life_is_safe {Functor} (acts : list (action Functor)) :
  exists s, run acts init = Ok s /\
    (owner s = OAsleep -> worker s = WBuild \/ worker s = WPublished) /\
    (owner s = OTest -> loop_ s = true -> alive s = true) /\
    (loop_ s = true -> alive s = true) /\
    (owner s = ODone -> alive s = false).
Proof.
  destruct (Inv_run_thread acts init et_Inv_init) as (s & Hs & [H1 H2 H3 H3' H4 H5 H6 H7 H8 H8' H9]).
  exists s. rewrite H1, H2. split_and!; [done|done|by destruct (worker s)|by destruct (worker s)|].
  intros Ho. by destruct (H9 Ho) as [->| ->].
Qed.

(** The destructor returns, if the loop had begun when it called [quit]: from
    every reachable state in which the owner waits in [join] after such a
    [quit], with no other thread half-way through a wake-up, the thread by
    itself runs to its end and [join] returns. (A [quit] before [loop()] has
    begun is lost, see [early_quit_is_lost].) *)
Theorem destructor_returns {Functor} (acts : list (action Functor)) s :
  run acts init = Ok s -> owner s = OJoining -> worker s = WLoop -> EventLoop.quit_ (el s) = true ->
  EventLoop.thread (el s) <> EventLoop.Start -> EventLoop.wakers (el s) = 0%nat ->
  exists n s', run (replicate n (AWorker false) ++ [AOwner true]) s = Ok s' /\ owner s' = ODone /\ alive s' = false.
Proof.
  intros Hrun Ho Hw Hq Hth Hwk. destruct (Inv_run_thread acts init et_Inv_init) as (s0 & Hs0 & HI).
  rewrite Hrun in Hs0. injection Hs0 as <-.
  destruct (quit_stops (el s) (I_el s HI) Hq Hth Hwk) as [n Hn]. destruct (worker_spin n s Hw Hn) as [m Hm].
  exists (m + 2)%nat. eexists. rewrite replicate_add, <- app_assoc, (run_app_thread _ _ _ _ Hm).
  simpl. rewrite Ho. done.
Qed.

Lemma destructor_returns_witness :
  exists n s', run (replicate n (AWorker false) ++ [AOwner true])
    (match run [AOwner false; AWorker false; AOwner false; AWorker false; AWorker false; AWorker false; AOwner true; AOwner true]
       (@init nat) with Ok s => s | UB => init end) = Ok s' /\ owner s' = ODone /\ alive s' = false.
Proof.
  apply (destructor_returns [AOwner false; AWorker false; AOwner false; AWorker false; AWorker false; AWorker false;
                             AOwner true; AOwner true]);
    [vm_compute; reflexivity|vm_compute; reflexivity|vm_compute; reflexivity|vm_compute; reflexivity|vm_compute; discriminate|
     vm_compute; reflexivity].
Defined.

End EventLoopThread.
