(* ===== verification/Acceptor.v ===== *)
(** * The acceptor
    ([src/src/net/Acceptor.h], [Acceptor.cc]; [Socket::accept] in [Socket.cc])

    The listening socket is watched edge-triggered: an event is reported when a
    connection arrives, not as long as one waits. [handleRead] therefore accepts
    in a loop. The kernel's queue of pending connections is a parameter
    ([AcceptKernel]) with the laws of accept(2): an aborted connection is
    reported as an error and is gone, and without a free descriptor [accept]
    fails and leaves the queue alone. *)

From stdpp Require Import base gmap list.
From Stdlib Require Import ZArith Lia.
From S2P Require Import Prelude Poller.

Local Open Scope Z_scope.

(** ** The kernel *)

(** A pending connection, by its peer, or one its peer has already reset. *)
Inductive pending : Type :=
  | Peer (addr : Z)
  | Reset (addr : Z).

Inductive errno : Type := EAGAIN | EMFILE | ECONNABORTED | EOTHER.

Class AcceptKernel (K : Type) : Type := {
  accept4 : K -> (Z * Z + errno) * K;
  backlog : K -> list pending;
  free_fds : K -> nat;
  arrive : pending -> K -> K;
}.

Class AcceptLaws (K : Type) `{AcceptKernel K} : Prop := {
  accept_empty k : backlog k = [] -> accept4 k = (inr EAGAIN, k);
  accept_full k : backlog k <> [] -> free_fds k = 0%nat -> accept4 k = (inr EMFILE, k);
  accept_peer k a q : backlog k = Peer a :: q -> free_fds k <> 0%nat ->
    exists fd k', accept4 k = (inl (fd, a), k') /\ backlog k' = q /\ free_fds k' = pred (free_fds k);
  accept_reset k a q : backlog k = Reset a :: q -> free_fds k <> 0%nat ->
    exists k', accept4 k = (inr ECONNABORTED, k') /\ backlog k' = q /\ free_fds k' = free_fds k;
  arrive_last p k : backlog (arrive p k) = backlog k ++ [p] /\ free_fds (arrive p k) = free_fds k;
}.

(** ** Acceptor *)

Module Acceptor.

(** The acceptor's own state: whether [TcpServer] has set the callback. *)
Record t : Type := mk { cb_ : bool }.

Inductive effect : Type :=
  | NewConnection (connfd peer : Z)
  | Close (connfd : Z).

Definition setNewConnectionCallback (a : t) : t := mk true.

(** [listen] and the destructor, on the loop of the channels; the constructor
    only binds the socket and sets the channel's callback. *)
Definition listen {K} `{Epoll K} (fd : Z) (l : EPollPoller.loop (K := K)) : EPollPoller.loop :=
  EPollPoller.step fd EPollPoller.EnableReading l.

Definition destroy {K} `{Epoll K} (fd : Z) (l : EPollPoller.loop (K := K)) : EPollPoller.loop :=
  EPollPoller.step fd EPollPoller.Remove (EPollPoller.step fd EPollPoller.DisableAll l).

Section Operations.
Context {K : Type} `{HK : AcceptKernel K}.

(** The [while (true)] of [handleRead], with fuel. *)
Fixpoint accept_loop (fuel : nat) (a : t) (k : K) : option (list effect * K) :=
  match fuel with
  | O => None
  | S fuel =>
      match accept4 k with
      | (inl (connfd, peer), k1) =>
          match accept_loop fuel a k1 with
          | None => None
          | Some (e, k2) => Some ((if cb_ a then NewConnection connfd peer else Close connfd) :: e, k2)
          end
      | (inr EAGAIN, k1) => Some ([], k1)
      | (inr EMFILE, k1) => Some ([], k1)
      | (inr _, k1) => Some ([], k1)
      end
  end.

(** Every turn takes a connection off the queue. *)
Definition handleRead (a : t) (k : K) : option (list effect * K) := accept_loop (S (length (backlog k))) a k.

End Operations.

(** The peers handed to the callback. *)
Definition peers (e : list effect) : list Z :=
  omap (fun x => match x with NewConnection _ p => Some p | Close _ => None end) e.

Definition is_peer (p : pending) : Prop := match p with Peer _ => True | Reset _ => False end.

Definition addr (p : pending) : Z := match p with Peer a | Reset a => a end.

Section Theorems.
Context {K : Type} `{HL : AcceptLaws K}.

Lemma accept_prefix fuel a k q rest :
  cb_ a = true -> backlog k = q ++ rest -> Forall is_peer q -> (length q < fuel)%nat -> (length q <= free_fds k)%nat ->
  exists e k1, (forall e2 k2, accept_loop (fuel - length q) a k1 = Some (e2, k2) -> accept_loop fuel a k = Some (e ++ e2, k2)) /\
    peers e = map addr q /\ backlog k1 = rest /\ free_fds k1 = (free_fds k - length q)%nat.
Proof.
  intros Ha. revert fuel k. induction q as [|p q IH]; intros fuel k Hb Hf Hn Hfd.
  - exists [], k. simpl. rewrite !Nat.sub_0_r. done.
  - apply Forall_cons in Hf as [Hp Hf]. destruct p as [x|x]; [|done]. simpl in Hn, Hfd.
    destruct (accept_peer k x (q ++ rest) Hb) as (fd & k' & He & Hb' & Hfd'); [lia|]. destruct fuel as [|fuel]; [lia|].
    destruct (IH fuel k' Hb' Hf) as (e & k1 & Hgo & Hpe & Hb1 & Hf1); [lia|lia|].
    exists (NewConnection fd x :: e), k1. split_and!; [|simpl; by f_equal|done|simpl; lia].
    intros e2 k2 H2. cbn [accept_loop]. rewrite He. simpl in H2. rewrite (Hgo e2 k2 H2), Ha. done.
Qed.

Lemma handleRead_all a k :
  cb_ a = true -> Forall is_peer (backlog k) -> (length (backlog k) <= free_fds k)%nat ->
  exists e k', handleRead a k = Some (e, k') /\ peers e = map addr (backlog k) /\ backlog k' = [] /\
    free_fds k' = (free_fds k - length (backlog k))%nat.
Proof.
  intros Hcb Halive Hfds.
  destruct (accept_prefix (S (length (backlog k))) a k (backlog k) []) as (e & k1 & Hgo & Hp & Hb & Hf);
    [done|by rewrite app_nil_r|done|lia|done|].
  exists e, k1. split_and!; [|done|done|done]. unfold handleRead. rewrite <- (app_nil_r e). apply Hgo.
  replace (S _ - _)%nat with 1%nat by lia. simpl. by rewrite accept_empty.
Qed.

(** One event accepts everybody. When the queue holds only connections that
    are still alive and there are descriptors for them, [handleRead] ends, hands
    every pending connection to the server in the order of arrival and leaves
    the queue empty, so that nothing waits for an edge that has passed. *)
Theorem accepts_whole_backlog a k (Hcb : cb_ a = true)
  (Halive : Forall is_peer (backlog k)) (Hfds : (length (backlog k) <= free_fds k)%nat) :
  exists e k', handleRead a k = Some (e, k') /\ peers e = map addr (backlog k) /\ backlog k' = [].
Proof. destruct (handleRead_all a k Hcb Halive Hfds) as (e & k' & ? & ? & ? & _). eauto. Qed.

(** A connection that is reset while it waits strands those behind it:
    [handleRead] stops at the error although the queue is not empty, and with an
    edge-triggered descriptor the connections behind are accepted only when
    another one arrives. *)
Theorem reset_connection_strands_others a k q x rest (Hcb : cb_ a = true)
  (Hback : backlog k = q ++ Reset x :: rest) (Halive : Forall is_peer q) (Hfds : (length q < free_fds k)%nat) :
  exists e k', handleRead a k = Some (e, k') /\ peers e = map addr q /\ backlog k' = rest.
Proof.
  assert (length (backlog k) = length q + S (length rest))%nat as Hlen by (rewrite Hback, length_app; done).
  destruct (accept_prefix (S (length (backlog k))) a k q (Reset x :: rest)) as (e & k1 & Hgo & Hp & Hb & Hf);
    [done|done|done|lia|lia|].
  destruct (accept_reset k1 x rest Hb) as (k2 & He & Hb2 & _); [lia|].
  exists e, k2. split_and!; [|done|done]. unfold handleRead. rewrite <- (app_nil_r e). apply Hgo.
  destruct (S (length (backlog k)) - length q)%nat as [|fuel] eqn:E; [lia|]. simpl. by rewrite He.
Qed.

(** *** Edges *)

(** The listening socket with its edge: an arrival raises it, the loop handles
    it at some later time. *)
Inductive action : Type := AArrive (p : pending) | AHandle.

Definition exec (a : t) (x : action) (s : bool * K) : bool * K :=
  match x with
  | AArrive p => (true, arrive p (snd s))
  | AHandle => if fst s then (false, match handleRead a (snd s) with Some (_, k) => k | None => snd s end) else s
  end.

Definition run (a : t) (xs : list action) (s : bool * K) : bool * K := foldl (fun s x => exec a x s) s xs.

Definition arrivals (xs : list action) : list pending :=
  omap (fun x => match x with AArrive p => Some p | AHandle => None end) xs.

(** Nobody waits for an edge that has passed: with connections that stay
    alive and descriptors for all of them, whenever the queue is not empty an
    event is pending, in every interleaving of arrivals and handling. *)
Theorem no_connection_is_stranded a xs k (Hcb : cb_ a = true) (Hempty : backlog k = [])
  (Halive : Forall is_peer (arrivals xs)) (Hfds : (length (arrivals xs) <= free_fds k)%nat) :
  let s := run a xs (false, k) in backlog (snd s) <> [] -> fst s = true.
Proof.
  assert (forall s, Forall is_peer (backlog (snd s)) ->
            (length (backlog (snd s)) + length (arrivals xs) <= free_fds (snd s))%nat ->
            (backlog (snd s) <> [] -> fst s = true) ->
            backlog (snd (run a xs s)) <> [] -> fst (run a xs s) = true) as Hgen.
  2: { apply (Hgen (false, k)); simpl; rewrite Hempty; [done|simpl; lia|done]. }
  clear Hempty Hfds. induction xs as [|x xs IH]; intros [edge k'] Hp Hn He; [done|].
  change (run a (x :: xs) (edge, k')) with (run a xs (exec a x (edge, k'))).
  destruct x as [p|]; simpl in Halive, Hn, Hp, He.
  - apply Forall_cons in Halive as [Hpp Halive]. destruct (arrive_last p k') as [Hb Hf].
    apply IH; simpl; rewrite ?Hb, ?Hf; [done|apply Forall_app; split; [done|by constructor]|rewrite length_app; simpl; lia|done].
  - destruct edge; [|by apply IH].
    destruct (handleRead_all a k' Hcb Hp) as (e & k2 & Hr & _ & Hb & Hf); [lia|]. simpl. rewrite Hr.
    apply IH; simpl; rewrite ?Hb, ?Hf; [done|done|simpl; lia|done].
Qed.

End Theorems.

(** The listening socket is watched from [listen] on, whatever happens on other
    channels, and not after the destructor. *)
Lemma listening_is_watched {K} `{EpollLaws K} (k : K) fd calls :
  interest k = ∅ -> Forall (fun x => fst x <> fd) calls ->
  let l := EPollPoller.run calls (listen fd (EPollPoller.fresh k)) in
  interest (EPollPoller.kernel l) !! fd = Some (Channel.reading 0) /\
  interest (EPollPoller.kernel (destroy fd l)) !! fd = None.
Proof.
  intros Hk Hoth. pose proof (EPollPoller.loop_inv_fresh k Hk) as Hinv.
  assert (EPollPoller.calls_on fd calls = []) as Hc.
  { unfold EPollPoller.calls_on. clear -Hoth. induction Hoth; [done|]. by rewrite filter_cons_False. }
  split.
  - pose proof (EPollPoller.loop_inv_run ((fd, EPollPoller.EnableReading) :: calls) _ Hinv) as [_ Ha].
    destruct (Ha fd) as (_ & _ & E & _). unfold EPollPoller.wanted, EPollPoller.calls_on in *.
    rewrite filter_cons_True in E by done. simpl in E. rewrite Hc in E. exact E.
  - pose proof (EPollPoller.loop_inv_run (((fd, EPollPoller.EnableReading) :: calls) ++
                 [(fd, EPollPoller.DisableAll); (fd, EPollPoller.Remove)]) _ Hinv) as [_ Ha].
    destruct (Ha fd) as (_ & _ & E & _). unfold EPollPoller.run in E. rewrite foldl_app in E.
    unfold EPollPoller.wanted, EPollPoller.calls_on in *. rewrite filter_app, map_app, filter_cons_True in E by done.
    simpl in E. rewrite Hc in E. simpl in E. rewrite !filter_cons_True in E by done. exact E.
Qed.

(** ** A kernel *)

Definition listq : Type := list pending * nat.

#[export] Instance list_kernel : AcceptKernel listq := {|
  accept4 := fun k =>
    match fst k, snd k with
    | [], _ => (inr EAGAIN, k)
    | _ :: _, O => (inr EMFILE, k)
    | Peer a :: q, S n => (inl (100 + Z.of_nat n, a), (q, n))
    | Reset _ :: q, S n => (inr ECONNABORTED, (q, S n))
    end;
  backlog := fst;
  free_fds := snd;
  arrive := fun p k => (fst k ++ [p], snd k);
|}.

#[export] Instance list_laws : AcceptLaws listq.
Proof.
  split.
  - intros [q n] Hq. simpl in *. by subst.
  - intros [q n] Hq Hn. simpl in *. subst. by destruct q as [|[]].
  - intros [q' n] a q Hq Hn. simpl in *. subst. destruct n; [done|]. by eexists _, _.
  - intros [q' n] a q Hq Hn. simpl in *. subst. destruct n; [done|]. by eexists.
  - intros p [q n]. done.
Qed.

Lemma accepts_whole_backlog_witness :
  exists e k', handleRead (mk true) ([Peer 1; Peer 2; Peer 3], 5%nat) = Some (e, k') /\ peers e = [1; 2; 3] /\ backlog k' = [].
Proof.
  destruct (accepts_whole_backlog (mk true) ([Peer 1; Peer 2; Peer 3], 5%nat)) as (e & k' & H1 & H2 & H3);
    [reflexivity|repeat constructor|simpl; lia|].
  exists e, k'. split; [exact H1|]. split; [exact H2|exact H3].
Defined.

Lemma reset_connection_strands_others_witness :
  exists e k', handleRead (mk true) ([Peer 1; Reset 2; Peer 3], 5%nat) = Some (e, k') /\ peers e = [1] /\ backlog k' = [Peer 3].
Proof.
  destruct (reset_connection_strands_others (mk true) ([Peer 1; Reset 2; Peer 3], 5%nat) [Peer 1] 2 [Peer 3])
    as (e & k' & H1 & H2 & H3); [reflexivity|reflexivity|repeat constructor|simpl; lia|].
  exists e, k'. split; [exact H1|]. split; [exact H2|exact H3].
Defined.

Lemma no_connection_is_stranded_witness :
  let s := run (mk true) [AArrive (Peer 1); AArrive (Peer 2); AHandle; AArrive (Peer 3)] (false, ([], 5%nat)) in
  backlog (snd s) = [Peer 3] /\ fst s = true.
Proof.
  cbn zeta. split; [reflexivity|].
  apply (no_connection_is_stranded (mk true) [AArrive (Peer 1); AArrive (Peer 2); AHandle; AArrive (Peer 3)] ([], 5%nat));
    [reflexivity|reflexivity|repeat constructor|simpl; lia|discriminate].
Defined.

End Acceptor.
