(* ===== verification/Socket.v ===== *)
(** * Addresses and sockets ([src/src/net/InetAddress.h], [InetAddress.cc],
    [Socket.h], [Socket.cc]; the constructor of [Acceptor])

    [InetAddress] wraps a [sockaddr_in]: the port in network byte order, the
    address as four bytes. [Socket] owns a descriptor and closes it in its
    destructor. The descriptors of the process are a class parameter
    ([SocketKernel]) with the laws of socket(2), bind(2), listen(2) and close(2);
    a failure there is [std::abort()], the outcome [Abort]. *)

From stdpp Require Import base gmap list strings pretty.
From Stdlib Require Import ZArith Lia.
From S2P Require Import Prelude Poller Acceptor.

Local Open Scope Z_scope.

(** ** InetAddress *)

Module InetAddress.

Definition AF_INET : Z := 2.

(** [sin_port] as the host, which is little-endian, reads it. *)
Record sockaddr_in : Type := mkAddr {
  sin_family : Z;
  sin_port : Z;
  sin_addr : Z * Z * Z * Z;
}.

Definition htons (x : Z) : Z := (x mod 256) * 256 + (x / 256) mod 256.

Definition ntohs (x : Z) : Z := htons x.

(** [inet_pton] for [AF_INET]: the octets read so far, the current one, and
    whether it has a digit yet. *)
Definition digit (a : Ascii.ascii) : option Z :=
  let n := Z.of_N (Ascii.N_of_ascii a) - 48 in
  if (0 <=? n) && (n <? 10) then Some n else None.

Definition dot : Ascii.ascii := Ascii.ascii_of_N 46.

Fixpoint pton_loop (src : string) (done : list Z) (tp : Z) (saw_digit : bool) : option (list Z) :=
  match src with
  | EmptyString => if saw_digit then Some (done ++ [tp]) else None
  | String ch src =>
      match digit ch with
      | Some d =>
          if saw_digit && (tp =? 0) then None
          else if 255 <? tp * 10 + d then None
          else if negb saw_digit && (3 <? Z.of_nat (length done)) then None
          else pton_loop src done (tp * 10 + d) true
      | None =>
          if Ascii.eqb ch dot && saw_digit then
            (if Z.of_nat (length done) =? 3 then None else pton_loop src (done ++ [tp]) 0 false)
          else None
      end
  end.

Definition inet_pton (src : string) : option (Z * Z * Z * Z) :=
  match pton_loop src [] 0 false with Some [a; b; c; d] => Some (a, b, c, d) | _ => None end.

(** [inet_ntop] and [std::to_string]. *)
Definition show (n : Z) : string := pretty (Z.to_N n).

Definition inet_ntop (x : Z * Z * Z * Z) : string :=
  let '(a, b, c, d) := x in (show a +:+ "." +:+ show b +:+ "." +:+ show c +:+ "." +:+ show d)%string.

(** The constructor; the result of [inet_pton] is not looked at, and a string
    that is not an address leaves the zeros of [memset]. *)
Definition make (port : Z) (ip : string) : sockaddr_in :=
  mkAddr AF_INET (htons port) (default (0, 0, 0, 0) (inet_pton ip)).

Definition any_ip : string := "0.0.0.0".

Definition toIpPort (a : sockaddr_in) : string := (inet_ntop (sin_addr a) +:+ ":" +:+ show (ntohs (sin_port a)))%string.

(** *** Lemmas *)

Definition is_octet (n : Z) : Prop := 0 <= n < 256.

Definition octets (x : Z * Z * Z * Z) : Prop :=
  let '(a, b, c, d) := x in is_octet a /\ is_octet b /\ is_octet c /\ is_octet d.

Lemma ntohs_htons x : 0 <= x < 65536 -> ntohs (htons x) = x.
Proof.
  intros Hx. unfold ntohs, htons. pose proof (Z.div_mod x 256 ltac:(lia)). pose proof (Z.mod_pos_bound x 256 ltac:(lia)).
  assert (0 <= x / 256 < 256) as Hd by (split; [apply Z.div_pos|apply Z.div_lt_upper_bound]; lia).
  rewrite (Z.mod_small (x / 256)) by lia. set (q := x / 256) in *. set (r := x mod 256) in *.
  replace ((r * 256 + q) mod 256) with q by (apply (Z.mod_unique _ _ r); lia).
  replace ((r * 256 + q) / 256) with r by (apply (Z.div_unique _ _ r q); lia). rewrite Z.mod_small; lia.
Qed.

(** A property of all octets, by looking at each. *)
Lemma octet_cases (P : Z -> Prop) : Forall P (map Z.of_nat (seq 0 256)) -> forall n, is_octet n -> P n.
Proof.
  intros H n Hn. rewrite Forall_forall in H. apply H. apply list_elem_of_In, in_map_iff. exists (Z.to_nat n).
  unfold is_octet in Hn. split; [lia|]. apply in_seq. lia.
Qed.

(** Reading a printed octet that another follows, or that is the last. *)
Lemma pton_octet n rest done :
  is_octet n -> (length done < 3)%nat ->
  pton_loop (show n +:+ "." +:+ rest) done 0 false = pton_loop rest (done ++ [n]) 0 false.
Proof.
  intros Hn Hl. revert n Hn. apply octet_cases. vm_compute seq. cbn [map].
  destruct done as [|d1 [|d2 [|d3 done]]]; [| | |simpl in Hl; lia]; repeat constructor.
Qed.

Lemma pton_last n done :
  is_octet n -> length done = 3%nat -> pton_loop (show n) done 0 false = Some (done ++ [n]).
Proof.
  intros Hn Hl. revert n Hn. apply octet_cases. destruct done as [|d1 [|d2 [|d3 [|d4 done]]]]; try discriminate Hl.
  vm_compute seq. cbn [map]. repeat constructor.
Qed.

Lemma inet_pton_ntop x : octets x -> inet_pton (inet_ntop x) = Some x.
Proof.
  destruct x as [[[a b] c] d]. intros (Ha & Hb & Hc & Hd). unfold inet_pton, inet_ntop.
  rewrite pton_octet by (done || simpl; lia). rewrite pton_octet by (done || simpl; lia).
  rewrite pton_octet by (done || simpl; lia). by rewrite pton_last.
Qed.

(** *** Reading the text *)

Definition colon : Ascii.ascii := Ascii.ascii_of_N 58.

Fixpoint no_colon (s : string) : bool :=
  match s with EmptyString => true | String a s => negb (Ascii.eqb a colon) && no_colon s end.

Lemma no_colon_app s s' : no_colon (s +:+ s') = no_colon s && no_colon s'.
Proof. induction s as [|a s IH]; [done|]. change (String a s +:+ s') with (String a (s +:+ s')). cbn [no_colon]. rewrite IH. apply andb_assoc. Qed.

Lemma no_colon_octet n : is_octet n -> no_colon (show n) = true.
Proof. revert n. apply octet_cases. vm_compute. repeat constructor. Qed.

Lemma no_colon_ntop x : octets x -> no_colon (inet_ntop x) = true.
Proof.
  destruct x as [[[a b] c] d]. intros (Ha & Hb & Hc & Hd). unfold inet_ntop. rewrite !no_colon_app, !no_colon_octet by done. done.
Qed.

Lemma split_at_colon s1 s2 t1 t2 :
  no_colon s1 = true -> no_colon s2 = true -> (s1 +:+ ":" +:+ t1 = s2 +:+ ":" +:+ t2)%string -> s1 = s2 /\ t1 = t2.
Proof.
  revert s2. induction s1 as [|a s1 IH]; intros [|b s2] H1 H2 E.
  - injection E as E. done.
  - injection E as <- _. discriminate H2.
  - injection E as -> _. discriminate H1.
  - injection E as <- E. cbn in H1, H2. apply andb_true_iff in H1 as [_ H1], H2 as [_ H2].
    destruct (IH s2 H1 H2 E) as [-> ->]. done.
Qed.

Lemma show_inj n m : 0 <= n -> 0 <= m -> show n = show m -> n = m.
Proof. intros Hn Hm E. apply pretty_N_inj in E. lia. Qed.

(** Addresses and their text. The constructor reads back the address that
    [inet_ntop] prints and keeps the port, also through the byte order of the
    network; and [toIpPort], the text under which connections are logged, tells
    different addresses and ports apart. *)
Theorem address_roundtrip x port
  (Hx : octets x) (Hport : 0 <= port < 65536) :
  let a := make port (inet_ntop x) in
  sin_addr a = x /\ ntohs (sin_port a) = port /\ toIpPort a = (inet_ntop x +:+ ":" +:+ show port)%string /\
  (forall x' port', octets x' -> 0 <= port' < 65536 -> toIpPort (make port' (inet_ntop x')) = toIpPort a -> x' = x /\ port' = port).
Proof.
  assert (forall y q, octets y -> 0 <= q < 65536 -> toIpPort (make q (inet_ntop y)) = (inet_ntop y +:+ ":" +:+ show q)%string) as Ht.
  { intros y q Hy Hq. unfold toIpPort, make. cbn [sin_addr sin_port]. by rewrite inet_pton_ntop, ntohs_htons. }
  cbn zeta. split_and!; [unfold make; cbn; by rewrite inet_pton_ntop|by apply ntohs_htons|by apply Ht|].
  intros x' port' Hx' Hp' E. rewrite !Ht in E by done.
  destruct (split_at_colon _ _ _ _ (no_colon_ntop _ Hx') (no_colon_ntop _ Hx) E) as [E1 E2].
  split; [|apply show_inj; lia || done]. apply (f_equal inet_pton) in E1. rewrite !inet_pton_ntop in E1 by done. by injection E1.
Qed.

Lemma address_roundtrip_witness :
  let a := make 9100 "192.168.0.10" in
  sin_addr a = (192, 168, 0, 10) /\ ntohs (sin_port a) = 9100 /\ toIpPort a = "192.168.0.10:9100"%string.
Proof.
  destruct (address_roundtrip (192, 168, 0, 10) 9100) as (H1 & H2 & H3 & _); [by vm_compute|lia|].
  split_and!; [exact H1|exact H2|exact H3].
Defined.

(** A string that is no address is taken for the address of all interfaces. *)
Lemma bad_ip_binds_everywhere port ip : inet_pton ip = None -> make port ip = make port any_ip.
Proof. intros H. unfold make. by rewrite H. Qed.

End InetAddress.

(** ** Sockets *)

(** An open socket as the kernel knows it. *)
Record sock : Type := mkSock {
  nonblocking : bool;
  reuse : bool;
  nodelay : bool;
  bound : option InetAddress.sockaddr_in;
  listening : bool;
}.

Class SocketKernel (K : Type) : Type := {
  sys_socket : K -> option Z * K;
  sys_setsockopt : Z -> (sock -> sock) -> K -> K;
  sys_bind : Z -> InetAddress.sockaddr_in -> K -> bool * K;
  sys_listen : Z -> K -> bool * K;
  sys_close : Z -> K -> K;
  open_fds : K -> gmap Z sock;
}.

(** A new descriptor is one that is not open; failed calls change nothing;
    closing an open descriptor frees it. *)
Class SocketLaws (K : Type) {SK : SocketKernel K} : Prop := {
  socket_law k fd k' : sys_socket k = (Some fd, k') ->
    0 <= fd /\ open_fds k !! fd = None /\ open_fds k' = <[fd := mkSock true false false None false]> (open_fds k);
  setsockopt_law fd f k : open_fds (sys_setsockopt fd f k) = alter f fd (open_fds k);
  bind_law fd a k k' : sys_bind fd a k = (true, k') ->
    open_fds k' = alter (fun s => mkSock (nonblocking s) (reuse s) (nodelay s) (Some a) (listening s)) fd (open_fds k);
  listen_law fd k k' : sys_listen fd k = (true, k') ->
    open_fds k' = alter (fun s => mkSock (nonblocking s) (reuse s) (nodelay s) (bound s) true) fd (open_fds k);
  close_law fd k : open_fds (sys_close fd k) = delete fd (open_fds k);
}.

Module Socket.

(** [std::abort()] or the result. *)
Inductive outcome (A : Type) : Type := Abort | Done (a : A).
Arguments Abort {A}.
Arguments Done {A} a.

Section Operations.
Context {K : Type} {SK : SocketKernel K}.

Definition createNonblockingSocket (k : K) : outcome (Z * K) :=
  match sys_socket k with (Some fd, k') => Done (fd, k') | (None, _) => Abort end.

Definition set_reuse (on : bool) (s : sock) : sock := mkSock (nonblocking s) on (nodelay s) (bound s) (listening s).

Definition set_nodelay (on : bool) (s : sock) : sock := mkSock (nonblocking s) (reuse s) on (bound s) (listening s).

Definition setReuseAddr (fd : Z) (on : bool) (k : K) : K := sys_setsockopt fd (set_reuse on) k.

Definition setNoDelay (fd : Z) (on : bool) (k : K) : K := sys_setsockopt fd (set_nodelay on) k.

Definition bindAddress (fd : Z) (a : InetAddress.sockaddr_in) (k : K) : outcome K :=
  match sys_bind fd a k with (true, k') => Done k' | (false, _) => Abort end.

Definition listen (fd : Z) (k : K) : outcome K :=
  match sys_listen fd k with (true, k') => Done k' | (false, _) => Abort end.

(** The destructor. *)
Definition close (fd : Z) (k : K) : K := sys_close fd k.

(** ** The life of the acceptor's socket *)

(** The constructor of [Acceptor]; its channel is new and not registered. *)
Definition acceptor_make (a : InetAddress.sockaddr_in) (k : K) : outcome (Z * K) :=
  match createNonblockingSocket k with
  | Abort => Abort
  | Done (fd, k1) =>
      match bindAddress fd a (setReuseAddr fd true k1) with Abort => Abort | Done k2 => Done (fd, k2) end
  end.

Section Channel.
Context {E : Type} {EE : Epoll E}.

(** [Acceptor::listen], and the destructor, whose member [acceptSocket_] is
    destroyed last. *)
Definition acceptor_listen (fd : Z) (k : K) (l : EPollPoller.loop (K := E)) : outcome (K * EPollPoller.loop) :=
  match listen fd k with Abort => Abort | Done k1 => Done (k1, Acceptor.listen fd l) end.

Definition acceptor_destroy (fd : Z) (k : K) (l : EPollPoller.loop (K := E)) : K * EPollPoller.loop :=
  (close fd k, Acceptor.destroy fd l).

End Channel.
End Operations.

Section Theorems.
Context {K : Type} {SK : SocketKernel K} {SL : SocketLaws K}.
Context {E : Type} {EE : Epoll E} {ELaws : EpollLaws E}.

(** The acceptor's descriptor from birth to death: when nothing aborts, it is a
    new descriptor, non-blocking, with [SO_REUSEADDR] set before it was bound to
    the address given, listening and watched for connections; the other
    descriptors are as before; after the destructor the descriptor is closed,
    the others untouched, and the loop no longer watches it, without an
    [epoll_ctl] that fails. *)
Theorem acceptor_socket_life (a : InetAddress.sockaddr_in) (k : K) (e : E) fd k1 k2 l
  (He : interest e = ∅) (Hmake : acceptor_make a k = Done (fd, k1))
  (Hlisten : acceptor_listen fd k1 (EPollPoller.fresh e) = Done (k2, l)) :
  open_fds k !! fd = None /\
  open_fds k2 = <[fd := mkSock true true false (Some a) true]> (open_fds k) /\
  interest (EPollPoller.kernel l) !! fd = Some (Channel.reading 0) /\
  forall k3 l3, acceptor_destroy fd k2 l = (k3, l3) ->
    open_fds k3 = open_fds k /\ interest (EPollPoller.kernel l3) !! fd = None /\ EPollPoller.failures l3 = 0%nat.
Proof.
  unfold acceptor_make, createNonblockingSocket, bindAddress, setReuseAddr in Hmake.
  destruct (sys_socket k) as [[fd'|] k0] eqn:Es; [|done]. destruct (sys_bind fd' a _) as [[] k0'] eqn:Eb; [|done].
  injection Hmake as -> <-. apply socket_law in Es as (_ & Hnew & Hopen). apply bind_law in Eb.
  unfold acceptor_listen, listen in Hlisten. destruct (sys_listen fd k0') as [[] k2'] eqn:El; [|done].
  injection Hlisten as <- <-. apply listen_law in El.
  assert (open_fds k2' = <[fd := mkSock true true false (Some a) true]> (open_fds k)) as Hk2.
  { rewrite El, Eb, setsockopt_law, Hopen. by rewrite !alter_insert_eq. }
  pose proof (EPollPoller.loop_inv_run [(fd, EPollPoller.EnableReading)] _ (EPollPoller.loop_inv_fresh e He)) as [_ H1].
  pose proof (EPollPoller.loop_inv_run [(fd, EPollPoller.EnableReading); (fd, EPollPoller.DisableAll); (fd, EPollPoller.Remove)] _
                (EPollPoller.loop_inv_fresh e He)) as [Hf3 H3].
  destruct (H1 fd) as (_ & _ & Hi1 & _). destruct (H3 fd) as (_ & _ & Hi3 & _).
  split_and!; [done|done| |].
  - etransitivity; [exact Hi1|]. unfold EPollPoller.wanted, EPollPoller.calls_on. by rewrite filter_cons_True.
  - intros k3 l3 [= <- <-]. unfold close. rewrite close_law, Hk2, delete_insert_id by done. split_and!; [done| |exact Hf3].
    etransitivity; [exact Hi3|]. unfold EPollPoller.wanted, EPollPoller.calls_on. by rewrite !filter_cons_True.
Qed.

End Theorems.

(** A kernel with a table of sockets, which refuses a port that is taken. *)
Definition next_fd (m : gmap Z sock) : Z := Z.of_N (fresh (set_map Z.to_N (dom m) : gset N)).

Lemma next_fd_fresh m : m !! next_fd m = None.
Proof.
  apply eq_None_not_Some. intros H. apply (is_fresh (set_map Z.to_N (dom m) : gset N)). apply elem_of_map.
  exists (next_fd m). split; [unfold next_fd; by rewrite N2Z.id|]. by apply elem_of_dom.
Qed.

Definition taken (port : Z) (m : gmap Z sock) : bool :=
  existsb (fun s => match bound s with Some a => InetAddress.sin_port a =? port | None => false end) (map snd (map_to_list m)).

#[global] Instance socket_table : SocketKernel (gmap Z sock) := {|
  sys_socket m := (Some (next_fd m), <[next_fd m := mkSock true false false None false]> m);
  sys_setsockopt fd f m := alter f fd m;
  sys_bind fd a m :=
    if taken (InetAddress.sin_port a) m then (false, m)
    else (true, alter (fun s => mkSock (nonblocking s) (reuse s) (nodelay s) (Some a) (listening s)) fd m);
  sys_listen fd m := (true, alter (fun s => mkSock (nonblocking s) (reuse s) (nodelay s) (bound s) true) fd m);
  sys_close fd m := delete fd m;
  open_fds m := m
|}.

#[global] Instance socket_table_laws : SocketLaws (gmap Z sock).
Proof.
  split.
  - intros k fd k' [= <- <-]. split_and!; [unfold next_fd; lia|apply next_fd_fresh|done].
  - done.
  - intros fd a k k'. cbn. destruct (taken _ k); [done|]. by intros [= <-].
  - by intros fd k k' [= <-].
  - done.
Qed.

Lemma acceptor_socket_life_witness :
  exists fd k1 k2 l, acceptor_make (InetAddress.make 9100 InetAddress.any_ip) (∅ : gmap Z sock) = Done (fd, k1) /\
    acceptor_listen fd k1 (EPollPoller.fresh (∅ : gmap Z Z)) = Done (k2, l) /\
    open_fds k2 = {[fd := mkSock true true false (Some (InetAddress.make 9100 InetAddress.any_ip)) true]}.
Proof.
  destruct (acceptor_make (InetAddress.make 9100 InetAddress.any_ip) (∅ : gmap Z sock)) as [|[fd k1]] eqn:Em; [by vm_compute in Em|].
  destruct (acceptor_listen fd k1 (EPollPoller.fresh (∅ : gmap Z Z))) as [|[k2 l]] eqn:El; [by cbn in El|].
  exists fd, k1, k2, l. split; [reflexivity|]. split; [exact El|].
  destruct (acceptor_socket_life (InetAddress.make 9100 InetAddress.any_ip) (∅ : gmap Z sock) (∅ : gmap Z Z) fd k1 k2 l EPollPoller.interest_empty Em El)
    as (_ & H & _). exact H.
Defined.

(** The port is in use: the second server aborts. *)
Lemma second_server_aborts fd k1 :
  acceptor_make (InetAddress.make 9100 InetAddress.any_ip) (∅ : gmap Z sock) = Done (fd, k1) ->
  acceptor_make (InetAddress.make 9100 InetAddress.any_ip) k1 = Abort.
Proof. intros H. vm_compute in H. injection H as <- <-. vm_compute. reflexivity. Qed.

End Socket.
