(* ===== verification/Float32.v ===== *)
(** * The C++ type [float]: IEEE-754 binary32

    On the targets of the project (x86-64 with SSE arithmetic, no [-ffast-math],
    no fused multiply-add) every [float] operation rounds to nearest even in
    binary32. The model uses the executable specification of IEEE arithmetic of
    the standard library ([SpecFloat]) with 24 bits of precision and exponent
    bound 128; NaN, infinities and signed zeros behave as in the program. *)

From stdpp Require Import base tactics.
From Stdlib Require Import ZArith Lia.
From Stdlib Require Import Floats.SpecFloat.
From S2P Require Import Prelude.

Local Open Scope Z_scope.

Definition f32 : Type := spec_float.

Definition prec32 : Z := 24.

Definition emax32 : Z := 128.

Definition fadd (x y : f32) : f32 := SFadd prec32 emax32 x y.

Definition fsub (x y : f32) : f32 := SFsub prec32 emax32 x y.

Definition fmul (x y : f32) : f32 := SFmul prec32 emax32 x y.

Definition fdiv (x y : f32) : f32 := SFdiv prec32 emax32 x y.

Definition fsqrt (x : f32) : f32 := SFsqrt prec32 emax32 x.

(** [x < y], [x <= y], [x == y] on [float]: false when an operand is NaN. *)
Definition fltb (x y : f32) : bool := SFltb x y.

Definition fleb (x y : f32) : bool := SFleb x y.

Definition feqb (x y : f32) : bool := SFeqb x y.

(** Conversion of an integer to [float]. *)
Definition f32_of_Z (z : Z) : f32 := binary_normalize prec32 emax32 z 0 false.

(** [std::clamp(v, lo, hi)] and [std::max(a, b)]. *)
Definition fclamp (v lo hi : f32) : f32 :=
  if fltb v lo then lo else if fltb hi v then hi else v.

Definition fmax (a b : f32) : f32 := if fltb a b then b else a.

Definition f_inf : f32 := S754_infinity false.

(** The literal [1e-6f]: the binary32 number nearest to 1/1000000. *)
Definition f_1em6 : f32 := fdiv (f32_of_Z 1) (f32_of_Z 1000000).

Declare Scope f32_scope.
Delimit Scope f32_scope with f32.
Bind Scope f32_scope with f32.
Notation "x + y" := (fadd x y) : f32_scope.
Notation "x - y" := (fsub x y) : f32_scope.
Notation "x * y" := (fmul x y) : f32_scope.
Notation "x / y" := (fdiv x y) : f32_scope.

Definition is_nan (x : f32) : bool := match x with S754_nan => true | _ => false end.

Definition is_inf (x : f32) : bool := match x with S754_infinity _ => true | _ => false end.

(** Neither NaN nor infinite. *)
Definition is_finite (x : f32) : bool := match x with S754_zero _ | S754_finite _ _ _ => true | _ => false end.

Definition is_nonzero_finite (x : f32) : bool := match x with S754_finite _ _ _ => true | _ => false end.

(** ** Rounding a non-negative mantissa never yields NaN *)

Lemma shr_1_nonneg r : 0 <= shr_m r -> 0 <= shr_m (shr_1 r).
Proof. destruct r as [m ? ?]. simpl. destruct m as [|[]|[]]; simpl; lia. Qed.

Lemma iter_shr_nonneg p r : 0 <= shr_m r -> 0 <= shr_m (iter_pos shr_1 p r).
Proof.
  revert r. induction p as [p IH|p IH|]; intros r Hr; simpl; auto using shr_1_nonneg.
Qed.

Lemma shr_fexp_nonneg m e l : 0 <= m -> 0 <= shr_m (fst (shr_fexp prec32 emax32 m e l)).
Proof.
  intros Hm. unfold shr_fexp, shr.
  assert (0 <= shr_m (shr_record_of_loc m l)) as H by (by destruct l as [|[]]).
  destruct (fexp _ _ _ - e); simpl; auto using iter_shr_nonneg.
Qed.

Lemma round_nearest_even_nonneg m l : 0 <= m -> 0 <= round_nearest_even m l.
Proof. intros. destruct l as [|[]]; simpl; try lia. destruct (Z.even m); lia. Qed.

Lemma binary_round_aux_not_nan s m e l :
  0 <= m -> is_nan (binary_round_aux prec32 emax32 s m e l) = false.
Proof.
  intros Hm. unfold binary_round_aux.
  pose proof (shr_fexp_nonneg m e l Hm) as H1. destruct (shr_fexp _ _ m e l) as [r1 e1]. simpl in H1.
  pose proof (shr_fexp_nonneg _ e1 loc_Exact (round_nearest_even_nonneg _ (loc_of_shr_record r1) H1)) as H2.
  destruct (shr_fexp _ _ _ e1 loc_Exact) as [r2 e2]. simpl in H2.
  destruct (shr_m r2); [done| |lia]. by destruct (e2 <=? _).
Qed.

Lemma binary_normalize_not_nan m e s : is_nan (binary_normalize prec32 emax32 m e s) = false.
Proof.
  destruct m as [|m|m]; simpl; [done| |].
  all: unfold binary_round; destruct (shl_align _ _ _); by apply binary_round_aux_not_nan.
Qed.

(** ** When an operation yields NaN *)

Lemma fmul_not_nan x y :
  is_nan x = false -> is_nonzero_finite y = true -> is_nan (fmul x y) = false.
Proof. destruct x, y; simpl; try done. intros _ _. by apply binary_round_aux_not_nan. Qed.

Lemma fadd_not_nan x y :
  is_finite x = true -> is_nan y = false -> is_nan (fadd x y) = false.
Proof.
  destruct x as [sx| | |], y as [sy| | |]; simpl; try done; [by destruct sx, sy|].
  intros _ _. apply binary_normalize_not_nan.
Qed.

Lemma fsub_not_nan x y :
  is_finite x = true -> is_nan y = false -> is_nan (fsub x y) = false.
Proof.
  destruct x as [sx| | |], y as [sy| | |]; simpl; try done; [by destruct sx, sy|].
  intros _ _. apply binary_normalize_not_nan.
Qed.

Lemma SFdiv_core_nonneg m1 e1 m2 e2 :
  let '(q, _, _) := SFdiv_core_binary prec32 emax32 (Zpos m1) e1 (Zpos m2) e2 in 0 <= q.
Proof.
  unfold SFdiv_core_binary. set (m' := match _ with Z0 => _ | Zpos _ => _ | Zneg _ => _ end).
  assert (0 <= m') as Hm.
  { unfold m'. destruct (_ - _)%Z; [lia| |lia]. apply Z.shiftl_nonneg. lia. }
  pose proof (Z.div_pos m' (Zpos m2) Hm ltac:(lia)) as Hq. unfold Z.div in Hq.
  destruct (Z.div_eucl m' (Zpos m2)). done.
Qed.

Lemma fdiv_not_nan x y :
  is_finite x = true -> is_nan y = false -> feqb y (f32_of_Z 0) = false -> is_nan (fdiv x y) = false.
Proof.
  destruct x as [sx| | |sx mx ex], y as [sy| | |sy my ey]; try done.
  intros _ _ _. unfold fdiv, SFdiv.
  pose proof (SFdiv_core_nonneg mx ex my ey) as H. destruct (SFdiv_core_binary _ _ _ _ _ _) as [[q e] l].
  by apply binary_round_aux_not_nan.
Qed.

(** ** Comparisons *)

Lemma SFcompare_not_nan x y : is_nan x = false -> is_nan y = false -> SFcompare x y <> None.
Proof. destruct x as [[]|[]| |[]], y as [[]|[]| |[]]; simpl; done. Qed.

Lemma SFcompare_swap x y : SFcompare y x = CompOpp <$> SFcompare x y.
Proof.
  destruct x as [[]|[]| |[] m1 e1], y as [[]|[]| |[] m2 e2]; simpl; try done.
  all: rewrite (Z.compare_antisym e1 e2); destruct (e1 ?= e2)%Z; simpl; try done.
  all: change (Pos.compare_cont Eq m2 m1) with (m2 ?= m1)%positive;
       change (Pos.compare_cont Eq m1 m2) with (m1 ?= m2)%positive;
       rewrite (Pos.compare_antisym m1 m2); by destruct (m1 ?= m2)%positive.
Qed.

(** For numbers, [!(x < y)] is [y <= x]. *)
Lemma fltb_false_fleb x y :
  is_nan x = false -> is_nan y = false -> fltb x y = false -> fleb y x = true.
Proof.
  intros Hx Hy. unfold fltb, SFltb, fleb, SFleb. rewrite (SFcompare_swap x y).
  pose proof (SFcompare_not_nan x y Hx Hy). destruct (SFcompare x y) as [[]|]; simpl; done.
Qed.

Lemma fltb_nan_l x y : fltb x y = true -> is_nan x = false.
Proof. by destruct x. Qed.

Lemma fltb_nan_r x y : fltb x y = true -> is_nan y = false.
Proof. destruct x as [[]|[]| |[]], y as [[]|[]| |[]]; done. Qed.

(** A clamped number lies between the bounds. *)
Lemma fclamp_between v lo hi :
  is_nan v = false -> is_nan lo = false -> is_nan hi = false -> fleb lo hi = true ->
  fleb lo lo = true -> fleb hi hi = true ->
  fleb lo (fclamp v lo hi) = true /\ fleb (fclamp v lo hi) hi = true.
Proof.
  intros Hv Hlo Hhi Hle Hl Hh. unfold fclamp.
  destruct (fltb v lo) eqn:E1; [done|]. destruct (fltb hi v) eqn:E2; [done|].
  split; by apply fltb_false_fleb.
Qed.

(** [std::clamp] lets NaN through. *)
Lemma fclamp_nan lo hi : fclamp S754_nan lo hi = S754_nan.
Proof. unfold fclamp, fltb, SFltb. simpl. by destruct hi as [[]|[]| |[]]. Qed.

Lemma fleb_finite_between x lo hi :
  is_finite lo = true -> is_finite hi = true -> fleb lo x = true -> fleb x hi = true -> is_finite x = true.
Proof. destruct lo as [[]|[]| |[]], hi as [[]|[]| |[]], x as [[]|[]| |[]]; done. Qed.

(** NaN propagates: a result that is a number has numbers as operands. *)
Lemma fadd_num x y : is_nan (fadd x y) = false -> is_nan x = false /\ is_nan y = false.
Proof. by destruct x, y. Qed.

Lemma fsub_num x y : is_nan (fsub x y) = false -> is_nan x = false /\ is_nan y = false.
Proof. by destruct x, y. Qed.

Lemma fmul_num x y : is_nan (fmul x y) = false -> is_nan x = false /\ is_nan y = false.
Proof. by destruct x, y. Qed.

Lemma fleb_num x y : fleb x y = true -> is_nan x = false /\ is_nan y = false.
Proof. destruct x as [[]|[]| |[]], y as [[]|[]| |[]]; done. Qed.

(** [x == x] unless [x] is NaN. *)
Lemma feqb_refl x : is_nan x = false -> feqb x x = true.
Proof.
  destruct x as [[]|[]| |[] m e]; try done; intros _; unfold feqb, SFeqb; simpl;
    rewrite Z.compare_refl; change (Pos.compare_cont Eq m m) with (m ?= m)%positive;
    by rewrite Pos.compare_refl.
Qed.

(** ** The order of the numbers

    [SFcompare] orders by sign, exponent and mantissa: it is the lexicographic
    order of a key, hence a strict total preorder on the numbers. *)

Definition fkey (x : f32) : Z * Z * Z :=
  match x with
  | S754_zero _ | S754_nan => (0, 0, 0)
  | S754_infinity s => (if s then -2 else 2, 0, 0)
  | S754_finite s m e => if s then (-1, -e, Zneg m) else (1, e, Zpos m)
  end.

Definition klt (a b : Z * Z * Z) : Prop :=
  let '(a1, a2, a3) := a in let '(b1, b2, b3) := b in
  a1 < b1 \/ a1 = b1 /\ (a2 < b2 \/ a2 = b2 /\ a3 < b3).

Lemma fltb_klt x y :
  is_nan x = false -> is_nan y = false -> fltb x y = true <-> klt (fkey x) (fkey y).
Proof.
  destruct x as [[]|[]| |[] m1 e1], y as [[]|[]| |[] m2 e2]; try done; intros _ _; unfold fltb, SFltb; simpl;
    try (split; [done|lia]); try (split; [lia|done]).
  all: change (Pos.compare_cont Eq m1 m2) with (m1 ?= m2)%positive.
  all: destruct (Z.compare_spec e1 e2), (Pos.compare_spec m1 m2); simpl; (split; [done || lia|done || lia]).
Qed.

(** If [b <= a] and [c <= b] then [c <= a], in terms of [<]. *)
Lemma fltb_false_trans a b c :
  is_nan a = false -> is_nan b = false -> is_nan c = false ->
  fltb a b = false -> fltb b c = false -> fltb a c = false.
Proof.
  intros Ha Hb Hc. rewrite <- !not_true_iff_false, !fltb_klt by done.
  destruct (fkey a) as [[]], (fkey b) as [[]], (fkey c) as [[]]. simpl. lia.
Qed.

Lemma fltb_asym a b : fltb a b = true -> fltb b a = false.
Proof.
  intros H. pose proof (fltb_nan_l _ _ H). pose proof (fltb_nan_r _ _ H). revert H.
  rewrite <- not_true_iff_false, !fltb_klt by done. destruct (fkey a) as [[]], (fkey b) as [[]]. simpl. lia.
Qed.

Lemma fltb_irrefl a : fltb a a = false.
Proof. destruct (fltb a a) eqn:E; [|done]. by rewrite (fltb_asym a a E) in E. Qed.

(** A finite number is below infinity. *)
Lemma fltb_inf x : is_finite x = true -> fltb x f_inf = true.
Proof. by destruct x as [[]|[]| |[]]. Qed.

#[export] Hint Resolve fmul_not_nan fadd_not_nan fsub_not_nan fdiv_not_nan binary_normalize_not_nan : gs.
