(* ===== verification/Proto.v ===== *)
(** * The protobuf messages ([src/src/proto/game.proto])

    The generated C++ classes are plain records with setters and getters; the
    wire format is protobuf's. Scalar fields keep the value range of their
    type, an unset field is zero. *)

From stdpp Require Import base list strings.
From Stdlib Require Import ZArith.
From Stdlib Require Import Floats.SpecFloat.
From S2P Require Import Prelude Codec Float32.

Record PlayerInput : Type := mkPlayerInput {
  in_seq : Z;
  move_x : f32;
  move_y : f32;
  attack : bool;
}.

Definition default_PlayerInput : PlayerInput := mkPlayerInput 0 (f32_of_Z 0) (f32_of_Z 0) false.

Record PlayerState : Type := mkPlayerState {
  ps_player_id : Z;
  ps_x : f32;
  ps_y : f32;
  ps_hp : Z;
  ps_last_input_seq : Z;
}.

Definition default_PlayerState : PlayerState := mkPlayerState 0 (f32_of_Z 0) (f32_of_Z 0) 0 0.

Record ProjectileState : Type := mkProjectileState {
  pj_projectile_id : Z;
  pj_owner_id : Z;
  pj_x : f32;
  pj_y : f32;
  pj_velocity_x : f32;
  pj_velocity_y : f32;
}.

Definition default_ProjectileState : ProjectileState :=
  mkProjectileState 0 0 (f32_of_Z 0) (f32_of_Z 0) (f32_of_Z 0) (f32_of_Z 0).

Record StateSnapshot : Type := mkStateSnapshot {
  ss_tick : Z;
  ss_full : bool;
  ss_players : list PlayerState;
  ss_projectiles : list ProjectileState;
  ss_removed_projectile_ids : list Z;
}.

(** The messages the server sends. *)
Inductive server_msg : Type :=
  | MLoginResp (code player_id : Z) (session_token : string)
  | MEnterRoom (room_id : Z) (player_ids : list Z)
  | MStateSnapshot (s : StateSnapshot)
  | MBattleEnd (winner_id : Z)
  | MHeartbeat (client_ms : Z)
  | MLeaderboardResp (entries : list (string * spec_float)).

(** The message id each is sent under. *)
Definition server_msg_id (m : server_msg) : Z :=
  match m with
  | MLoginResp _ _ _ => MsgId.kLoginResp
  | MEnterRoom _ _ => MsgId.kEnterRoom
  | MStateSnapshot _ => MsgId.kStateSnapshot
  | MBattleEnd _ => MsgId.kBattleEnd
  | MHeartbeat _ => MsgId.kHeartbeat
  | MLeaderboardResp _ => MsgId.kLeaderboardResp
  end.

(** The messages a client sends. *)
Inductive client_msg : Type :=
  | MLoginReq (account : string)
  | MReconnectReq (player_id : Z) (session_token : string)
  | MMatchReq (player_id : Z)
  | MPlayerInput (i : PlayerInput)
  | MHeartbeatReq (client_ms : Z)
  | MLeaderboardReq (top_n : Z).

Definition client_msg_id (m : client_msg) : Z :=
  match m with
  | MLoginReq _ => MsgId.kLoginReq
  | MReconnectReq _ _ => MsgId.kReconnectReq
  | MMatchReq _ => MsgId.kMatchReq
  | MPlayerInput _ => MsgId.kPlayerInput
  | MHeartbeatReq _ => MsgId.kHeartbeat
  | MLeaderboardReq _ => MsgId.kLeaderboardReq
  end.
