(* ===== verification/BattleSim.v ===== *)
(** * The battle simulation ([src/src/game/BattleSim.h], [BattleSim.cc])

    Players and projectiles on a 100 x 100 arena. [step] moves the players by
    their latest inputs, lowers the attack cooldowns, spawns projectiles and
    advances the projectiles that existed before the step, with segment-circle
    collision. All coordinates are binary32 numbers.

    [std::hypot] is not pinned down to the last bit by its documentation and is
    a parameter ([Libm]); the iteration order of the hash maps is the class
    [HashOrder]. Every theorem holds for all instances of both. *)

From stdpp Require Import base gmap sets list sorting.
From Stdlib Require Import ZArith Lia.
From Stdlib Require Import Floats.SpecFloat.
From S2P Require Import Prelude Codec Float32 Proto.

Class Libm : Type := { hypotf : f32 -> f32 -> f32 }.

Module BattleSim.

Local Open Scope Z_scope.

Definition kArena : f32 := f32_of_Z 100.
Definition kSpeed : f32 := f32_of_Z 20.
Definition kDamage : Z := 25.
Definition kAttackCd : f32 := f32_of_Z 500.
Definition kMaxHp : Z := 100.
Definition kProjectileSpeed : f32 := f32_of_Z 60.
Definition kProjectileRadius : f32 := f32_of_Z 3.
Definition kProjectileRange : f32 := f32_of_Z 65.

Record P : Type := mkP {
  p_id : Z;
  p_x : f32;
  p_y : f32;
  hp : Z;
  seq : Z;
  cdMs : f32;
  facingX : f32;
  facingY : f32;
  input : PlayerInput;
  hasInput : bool;
}.

Definition alive (p : P) : bool := 0 <? hp p.

Record Projectile : Type := mkProjectile {
  pr_id : Z;
  ownerId : Z;
  pr_x : f32;
  pr_y : f32;
  vx : f32;
  vy : f32;
  traveled : f32;
}.

Record t : Type := mk {
  players_ : gmap Z P;
  projectiles_ : gmap Z Projectile;
  removedProjectileIds_ : list Z;
  nextProjectileId_ : Z;
}.

Definition init : t := mk ∅ ∅ [] 1.

Definition set_pos (x y : f32) (p : P) : P :=
  mkP (p_id p) x y (hp p) (seq p) (cdMs p) (facingX p) (facingY p) (input p) (hasInput p).

Definition set_facing (x y : f32) (p : P) : P :=
  mkP (p_id p) (p_x p) (p_y p) (hp p) (seq p) (cdMs p) x y (input p) (hasInput p).

Definition set_cd (c : f32) (p : P) : P :=
  mkP (p_id p) (p_x p) (p_y p) (hp p) (seq p) c (facingX p) (facingY p) (input p) (hasInput p).

Definition set_hp (h : Z) (p : P) : P :=
  mkP (p_id p) (p_x p) (p_y p) h (seq p) (cdMs p) (facingX p) (facingY p) (input p) (hasInput p).

Definition addPlayer (id : Z) (x y : f32) (s : t) : t :=
  let fx := if fleb x (kArena * (f32_of_Z 1 / f32_of_Z 2))%f32 then f32_of_Z 1 else f32_of_Z (-1) in
  let p := mkP id x y kMaxHp 0 (f32_of_Z 0) fx (f32_of_Z 0) default_PlayerInput false in
  mk (<[id := p]> (players_ s)) (projectiles_ s) (removedProjectileIds_ s) (nextProjectileId_ s).

Definition applyInput (id : Z) (inp : PlayerInput) (s : t) : t :=
  match players_ s !! id with
  | None => s
  | Some p =>
      mk (<[id := mkP (p_id p) (p_x p) (p_y p) (hp p) (in_seq inp) (cdMs p) (facingX p) (facingY p) inp true]>
            (players_ s))
         (projectiles_ s) (removedProjectileIds_ s) (nextProjectileId_ s)
  end.

Section Step.
Context {HO : HashOrder} {LM : Libm}.

(** *** 1) Movement *)

(** The body of the first loop: the player after the loop body and whether he
    joins [changed]. *)
Definition move_player (dt : f32) (p : P) : P * bool :=
  if negb (alive p) || negb (hasInput p) then (p, false)
  else
    let mx0 := move_x (input p) in
    let my0 := move_y (input p) in
    let len := fsqrt (mx0 * mx0 + my0 * my0)%f32 in
    if fltb len f_1em6 then (p, false)
    else
      let '(mx, my) := if fltb (f32_of_Z 1) len then ((mx0 / len)%f32, (my0 / len)%f32) else (mx0, my0) in
      let p1 := set_facing mx my p in
      let nx := fclamp (p_x p + mx * kSpeed * dt)%f32 (f32_of_Z 0) kArena in
      let ny := fclamp (p_y p + my * kSpeed * dt)%f32 (f32_of_Z 0) kArena in
      if negb (feqb nx (p_x p)) || negb (feqb ny (p_y p)) then (set_pos nx ny p1, true)
      else (p1, false).

Definition move_all (dt : f32) (ids : list Z) (ps : gmap Z P) : gmap Z P * gset Z :=
  foldl (fun '(ps, changed) id =>
           match ps !! id with
           | None => (ps, changed)
           | Some p => let (p', c) := move_player dt p in
                       (<[id := p']> ps, if c then {[id]} ∪ changed else changed)
           end) (ps, ∅) ids.

(** *** 2) Cooldowns *)

Definition decay_cd (dtMs : Z) (p : P) : P :=
  set_cd (fmax (f32_of_Z 0) (cdMs p - f32_of_Z dtMs)%f32) p.

(** *** 3) Attacks *)

(** The nearest living enemy. *)
Definition find_target (ps : gmap Z P) (id : Z) (p : P) : option P :=
  snd (foldl (fun '(best, target) tid =>
                match ps !! tid with
                | None => (best, target)
                | Some q =>
                    if (tid =? id) || negb (alive q) then (best, target)
                    else
                      let d := hypotf (p_x q - p_x p)%f32 (p_y q - p_y p)%f32 in
                      if fltb d best then (d, Some q) else (best, target)
                end) (f_inf, None) (hash_order CPlayers (dom ps))).

Definition wants_attack (p : P) : bool :=
  alive p && hasInput p && attack (input p) && negb (fltb (f32_of_Z 0) (cdMs p)).

Definition aim (ps : gmap Z P) (id : Z) (p : P) : f32 * f32 :=
  match find_target ps id p with
  | None => (facingX p, facingY p)
  | Some q =>
      let dx := (p_x q - p_x p)%f32 in
      let dy := (p_y q - p_y p)%f32 in
      let len := hypotf dx dy in
      if fltb f_1em6 len then ((dx / len)%f32, (dy / len)%f32) else (dx, dy)
  end.

Definition spawn (ps : gmap Z P) (id pid : Z) (p : P) : Projectile :=
  let (dx, dy) := aim ps id p in
  mkProjectile pid id (p_x p + dx * f32_of_Z 2)%f32 (p_y p + dy * f32_of_Z 2)%f32
               (dx * kProjectileSpeed)%f32 (dy * kProjectileSpeed)%f32 (f32_of_Z 0).

Definition attack_all (ids : list Z) (ps : gmap Z P) (prs : gmap Z Projectile) (next : Z)
  : gmap Z P * gmap Z Projectile * Z :=
  foldl (fun '(ps, prs, next) id =>
           match ps !! id with
           | None => (ps, prs, next)
           | Some p =>
               if wants_attack p then
                 (<[id := set_cd kAttackCd p]> ps, <[next := spawn ps id next p]> prs, next + 1)
               else (ps, prs, next)
           end) (ps, prs, next) ids.

(** *** 4) Projectiles *)

(** The parameter along the segment of the point closest to the target, and
    whether that point is within the radius. *)
Definition closest_t (pr : Projectile) (segX segY segLenSq : f32) (q : P) : f32 :=
  if fltb f_1em6 segLenSq then
    fclamp (((p_x q - pr_x pr) * segX + (p_y q - pr_y pr) * segY) / segLenSq)%f32 (f32_of_Z 0) (f32_of_Z 1)
  else f32_of_Z 0.

Definition within_radius (pr : Projectile) (segX segY t : f32) (q : P) : bool :=
  let distanceX := (p_x q - (pr_x pr + segX * t))%f32 in
  let distanceY := (p_y q - (pr_y pr + segY * t))%f32 in
  fleb (distanceX * distanceX + distanceY * distanceY)%f32 (kProjectileRadius * kProjectileRadius)%f32.

(** The body of the inner loop: [hitT] and [hit] after looking at [tid]. *)
Definition hit_step (ps : gmap Z P) (pr : Projectile) (segX segY segLenSq : f32)
    (acc : f32 * option Z) (tid : Z) : f32 * option Z :=
  let (hitT, hit) := acc in
  match ps !! tid with
  | None => (hitT, hit)
  | Some q =>
      if (tid =? ownerId pr) || negb (alive q) then (hitT, hit)
      else
        let t := closest_t pr segX segY segLenSq q in
        if within_radius pr segX segY t q && fltb t hitT then (t, Some tid) else (hitT, hit)
  end.

(** The living player, not the owner, that the segment hits first. *)
Definition find_hit (ps : gmap Z P) (pr : Projectile) (segX segY segLenSq : f32) : option Z :=
  snd (foldl (hit_step ps pr segX segY segLenSq) (f_inf, None) (hash_order CPlayers (dom ps))).

(** The state of the fourth loop. *)
Record advancing : Type := mkAdv {
  a_players : gmap Z P;
  a_projectiles : gmap Z Projectile;
  a_removed : list Z;
  a_changed : gset Z;
}.

Definition advance_projectile (dt : f32) (a : advancing) (pid : Z) : advancing :=
  match a_projectiles a !! pid with
  | None => a
  | Some pr =>
      let newX := (pr_x pr + vx pr * dt)%f32 in
      let newY := (pr_y pr + vy pr * dt)%f32 in
      let segX := (newX - pr_x pr)%f32 in
      let segY := (newY - pr_y pr)%f32 in
      let segLenSq := (segX * segX + segY * segY)%f32 in
      match find_hit (a_players a) pr segX segY segLenSq with
      | Some tid =>
          match a_players a !! tid with
          | None => a
          | Some q =>
              mkAdv (<[tid := set_hp (Z.max 0 (hp q - kDamage)) q]> (a_players a))
                    (delete pid (a_projectiles a)) (a_removed a ++ [pid]) ({[p_id q]} ∪ a_changed a)
          end
      | None =>
          let pr' := mkProjectile (pr_id pr) (ownerId pr) newX newY (vx pr) (vy pr)
                                  (traveled pr + fsqrt segLenSq)%f32 in
          if fleb kProjectileRange (traveled pr') || fltb newX (f32_of_Z 0) || fltb kArena newX
             || fltb newY (f32_of_Z 0) || fltb kArena newY
          then mkAdv (a_players a) (delete pid (a_projectiles a)) (a_removed a ++ [pid]) (a_changed a)
          else mkAdv (a_players a) (<[pid := pr']> (a_projectiles a)) (a_removed a) (a_changed a)
      end
  end.

Definition dt_of (dtMs : Z) : f32 := (f32_of_Z dtMs / f32_of_Z 1000)%f32.

Definition step (dtMs : Z) (s : t) : list Z * t :=
  let dt := dt_of dtMs in
  let projectilesToAdvance := hash_order CProjectiles (dom (projectiles_ s)) in
  let ids := hash_order CPlayers (dom (players_ s)) in
  let '(ps1, changed1) := move_all dt ids (players_ s) in
  let ps2 := decay_cd dtMs <$> ps1 in
  let '(ps3, prs3, next3) := attack_all ids ps2 (projectiles_ s) (nextProjectileId_ s) in
  let a := foldl (advance_projectile dt) (mkAdv ps3 prs3 [] changed1) projectilesToAdvance in
  (merge_sort Z.le (elements (a_changed a)),
   mk (a_players a) (a_projectiles a) (a_removed a) next3).

Definition winnerOrZero (s : t) : Z :=
  let '(count, last) :=
    foldl (fun '(count, last) id =>
             match players_ s !! id with
             | Some p => if alive p then (count + 1, id) else (count, last)
             | None => (count, last)
             end) (0, 0) (hash_order CPlayers (dom (players_ s))) in
  if count =? 1 then last else 0.

Definition playerIds (s : t) : list Z := hash_order CPlayers (dom (players_ s)).

Definition projectileIds (s : t) : list Z := hash_order CProjectiles (dom (projectiles_ s)).

End Step.

Definition fillState (s : t) (id : Z) (out : PlayerState) : PlayerState :=
  match players_ s !! id with
  | None => out
  | Some p => mkPlayerState (p_id p) (p_x p) (p_y p) (hp p) (seq p)
  end.

Definition fillProjectileState (s : t) (id : Z) (out : ProjectileState) : ProjectileState :=
  match projectiles_ s !! id with
  | None => out
  | Some pr => mkProjectileState (pr_id pr) (ownerId pr) (pr_x pr) (pr_y pr) (vx pr) (vy pr)
  end.

Definition takeRemovedProjectileIds (s : t) : list Z * t :=
  (removedProjectileIds_ s, mk (players_ s) (projectiles_ s) [] (nextProjectileId_ s)).

(** [hypot] as glibc computes it for [float]: in binary64, then rounded. *)
Definition hypot_binary64 (x y : f32) : f32 :=
  if is_inf x || is_inf y then f_inf
  else
    match SFsqrt 53 1024 (SFadd 53 1024 (SFmul 53 1024 x x) (SFmul 53 1024 y y)) with
    | S754_finite s m e => binary_round prec32 emax32 s m e
    | z => z
    end.

Definition libm64 : Libm := {| hypotf := hypot_binary64 |}.


(** ** The loops of [step] as maps and lists

    Each loop of [step] is a fold over a key list without duplicates. The
    lemmas below replace it by a closed form; the properties are proved from
    the closed form of the whole step ([step_inv]). *)

Definition moved (dt : f32) (p : P) : P := fst (move_player dt p).

Definition shoot (p : P) : P := if wants_attack p then set_cd kAttackCd p else p.

Lemma foldl_invariant {A B} (I : A -> Prop) (f : A -> B -> A) l a :
  I a -> (forall a x, x ∈ l -> I a -> I (f a x)) -> I (foldl f a l).
Proof.
  revert a. induction l as [|x l IH]; intros a Ha Hf; simpl; [done|].
  apply IH; [apply Hf; [left|done]|]. intros a' y Hy. apply Hf. by right.
Qed.

Lemma move_all_spec dt ids ps ps' ch :
  NoDup ids -> move_all dt ids ps = (ps', ch) ->
  (forall id, ps' !! id = if bool_decide (id ∈ ids) then moved dt <$> ps !! id else ps !! id) /\
  (forall id, id ∈ ch <-> id ∈ ids /\ exists p, ps !! id = Some p /\ snd (move_player dt p) = true).
Proof.
  unfold move_all. revert ps' ch. induction ids as [|x ids IH] using rev_ind; intros ps' ch Hnd Heq.
  { simpl in Heq. inv Heq. split; intros id; [done|]. set_solver. }
  apply NoDup_app in Hnd as (Hnd & Hx & _). rewrite foldl_app in Heq. cbn [foldl] in Heq.
  destruct (foldl _ _ ids) as [ps1 ch1]. destruct (IH _ _ Hnd eq_refl) as [Hps Hch].
  assert (x ∉ ids) as Hxn by (intros H; apply (Hx x H); set_solver).
  pose proof (Hps x) as Hpx. rewrite bool_decide_eq_false_2 in Hpx by done. rewrite Hpx in Heq.
  assert (forall id, id ≠ x -> bool_decide (id ∈ ids ++ [x]) = bool_decide (id ∈ ids)) as Hbd.
  { intros id Hne. apply bool_decide_ext. set_solver. }
  assert (bool_decide (x ∈ ids ++ [x]) = true) as Hbx by (apply bool_decide_eq_true; set_solver).
  destruct (ps !! x) as [p|] eqn:Ep.
  - unfold moved. destruct (move_player dt p) as [p' c] eqn:Em. inv Heq. split; intros id.
    + destruct (decide (id = x)) as [->|Hne].
      * rewrite lookup_insert_eq, Hbx, Ep. simpl. by rewrite Em.
      * rewrite lookup_insert_ne, Hbd by done. apply Hps.
    + destruct (decide (id = x)) as [->|Hne].
      * destruct c; [split; [intros _|set_solver]|].
        { split; [set_solver|]. exists p. by rewrite Em. }
        split; [by intros []%Hch|]. intros (_ & p0 & Hp0 & Hs). rewrite Ep in Hp0. inv Hp0. by rewrite Em in Hs.
      * assert (id ∈ (if c then {[x]} ∪ ch1 else ch1) <-> id ∈ ch1) as -> by (destruct c; set_solver).
        rewrite Hch. set_solver.
  - inv Heq. split; intros id.
    + destruct (decide (id = x)) as [->|Hne]; [by rewrite Hbx, Ep, Hpx|]. rewrite Hbd by done. apply Hps.
    + rewrite Hch. destruct (decide (id = x)) as [->|Hne]; [|set_solver].
      split; [by intros []|]. intros (_ & p0 & Hp0 & _). by rewrite Ep in Hp0.
Qed.

Definition shooter (ps : gmap Z P) (id : Z) : bool :=
  match ps !! id with Some p => wants_attack p | None => false end.

Definition shooters (ps : gmap Z P) (ids : list Z) : list Z := filter (fun id => shooter ps id = true) ids.

Section StepLemmas.
Context {HO : HashOrder} {LM : Libm}.

Lemma attack_all_spec ids ps prs next ps' prs' next' :
  NoDup ids -> attack_all ids ps prs next = (ps', prs', next') ->
  (forall id, ps' !! id = if bool_decide (id ∈ ids) then shoot <$> ps !! id else ps !! id) /\
  next' = next + Z.of_nat (length (shooters ps ids)) /\
  (forall pid, pid < next \/ next' <= pid -> prs' !! pid = prs !! pid) /\
  (forall pid, next <= pid < next' -> exists pr, prs' !! pid = Some pr /\ pr_id pr = pid /\
     shooters ps ids !! Z.to_nat (pid - next) = Some (ownerId pr)).
Proof.
  unfold attack_all. revert ps' prs' next'.
  induction ids as [|x ids IH] using rev_ind; intros ps' prs' next' Hnd Heq.
  { simpl in Heq. inv Heq. split_and!; [done|simpl; lia|done|]. intros; lia. }
  apply NoDup_app in Hnd as (Hnd & Hx & _). rewrite foldl_app in Heq. cbn [foldl] in Heq.
  destruct (foldl _ _ ids) as [[ps1 prs1] next1]. destruct (IH _ _ _ Hnd eq_refl) as (Hps & Hn & Hold & Hnew).
  assert (x ∉ ids) as Hxn by (intros H; apply (Hx x H); set_solver).
  pose proof (Hps x) as Hpx. rewrite bool_decide_eq_false_2 in Hpx by done. rewrite Hpx in Heq.
  assert (forall id, id ≠ x -> bool_decide (id ∈ ids ++ [x]) = bool_decide (id ∈ ids)) as Hbd.
  { intros id Hne. apply bool_decide_ext. set_solver. }
  assert (bool_decide (x ∈ ids ++ [x]) = true) as Hbx by (apply bool_decide_eq_true; set_solver).
  assert (shooters ps (ids ++ [x]) = shooters ps ids ++ if shooter ps x then [x] else []) as Hsh.
  { unfold shooters. rewrite filter_app. f_equal. destruct (shooter ps x) eqn:E.
    - rewrite filter_cons_True by done. done.
    - rewrite filter_cons_False by (by rewrite E). done. }
  rewrite Hsh, length_app. unfold shooter, shoot in *.
  destruct (ps !! x) as [p|] eqn:Ep; [destruct (wants_attack p) eqn:Ew|].
  - inv Heq. split_and!.
    + intros id. destruct (decide (id = x)) as [->|Hne]; [by rewrite lookup_insert_eq, Hbx, Ep; simpl; rewrite Ew|].
      rewrite lookup_insert_ne, Hbd by done. apply Hps.
    + simpl. lia.
    + intros pid Hpid. rewrite lookup_insert_ne by lia. apply Hold. lia.
    + intros pid Hpid. destruct (decide (pid = next + Z.of_nat (length (shooters ps ids)))) as [->|Hne].
      * rewrite lookup_insert_eq. eexists. split; [done|]. unfold spawn. destruct (aim _ _ _). split; [done|].
        simpl. rewrite lookup_app_r by lia. by replace (_ - _)%nat with 0%nat by lia.
      * rewrite lookup_insert_ne by done. destruct (Hnew pid ltac:(lia)) as (pr & ? & ? & Hs). exists pr.
        split_and!; [done|done|]. apply lookup_app_l_Some. done.
  - inv Heq. rewrite app_nil_r. split_and!; [|simpl; lia|done|done].
    intros id. destruct (decide (id = x)) as [->|Hne]; [by rewrite Hbx, Ep; simpl; rewrite Ew, Hpx|].
    rewrite Hbd by done. apply Hps.
  - inv Heq. rewrite app_nil_r. split_and!; [|simpl; lia|done|done].
    intros id. destruct (decide (id = x)) as [->|Hne]; [by rewrite Hbx, Ep, Hpx|].
    rewrite Hbd by done. apply Hps.
Qed.

(** The player a segment can hit: not the owner, alive, and within the radius
    of the closest point. *)
Definition can_hit (pr : Projectile) (segX segY segLenSq : f32) (tid : Z) (q : P) : bool :=
  negb (tid =? ownerId pr) && alive q && within_radius pr segX segY (closest_t pr segX segY segLenSq q) q.

Lemma can_hit_t_finite pr segX segY segLenSq tid q :
  can_hit pr segX segY segLenSq tid q = true ->
  is_finite (closest_t pr segX segY segLenSq q) = true.
Proof.
  unfold can_hit. intros [_ H]%andb_true_iff. unfold closest_t in *. destruct (fltb f_1em6 segLenSq); [|done].
  set (v := (_ / segLenSq)%f32) in *. destruct (is_nan v) eqn:E.
  - destruct v; try done. rewrite fclamp_nan in H. exfalso. unfold within_radius in H.
    apply fleb_num in H as [[[[_ [_ [_ ?]%fmul_num]%fadd_num]%fsub_num _]%fmul_num _]%fadd_num _]. done.
  - destruct (fclamp_between v (f32_of_Z 0) (f32_of_Z 1) E eq_refl eq_refl eq_refl eq_refl eq_refl).
    by apply (fleb_finite_between _ (f32_of_Z 0) (f32_of_Z 1)).
Qed.

(** The loop invariant of the search: [hitT] and [hit] describe the best
    candidate among the players looked at. *)
Definition best_hit (ps : gmap Z P) (pr : Projectile) (segX segY segLenSq : f32) (seen : list Z)
    (acc : f32 * option Z) : Prop :=
  match acc with
  | (hitT, None) => hitT = f_inf /\
      forall tid q, tid ∈ seen -> ps !! tid = Some q -> can_hit pr segX segY segLenSq tid q = false
  | (hitT, Some hit) => exists q, ps !! hit = Some q /\ can_hit pr segX segY segLenSq hit q = true /\
      hitT = closest_t pr segX segY segLenSq q /\
      forall tid q', tid ∈ seen -> ps !! tid = Some q' -> can_hit pr segX segY segLenSq tid q' = true ->
        fltb (closest_t pr segX segY segLenSq q') hitT = false
  end.

Lemma hit_step_best ps pr segX segY segLenSq seen acc x :
  best_hit ps pr segX segY segLenSq seen acc ->
  best_hit ps pr segX segY segLenSq (seen ++ [x]) (hit_step ps pr segX segY segLenSq acc x).
Proof.
  intros H. destruct acc as [hitT hit]. unfold hit_step.
  assert ((forall q, ps !! x = Some q -> can_hit pr segX segY segLenSq x q = false) ->
          best_hit ps pr segX segY segLenSq (seen ++ [x]) (hitT, hit)) as Hskip.
  { intros Hx. destruct hit as [h|]; simpl in *.
    - destruct H as (q & ? & ? & ? & Hmin). exists q. split_and!; try done.
      intros tid q' [?| ->%list_elem_of_singleton]%elem_of_app Hq Hc; [by eapply Hmin|].
      by rewrite (Hx q' Hq) in Hc.
    - destruct H as [? Hno]. split; [done|].
      intros tid q [?| ->%list_elem_of_singleton]%elem_of_app Hq; [by eapply Hno|]. by apply Hx. }
  destruct (ps !! x) as [q|] eqn:Eq; [|by apply Hskip].
  destruct ((x =? ownerId pr) || negb (alive q)) eqn:Ec.
  { apply Hskip. intros q0 [= <-]. unfold can_hit. destruct (x =? _), (alive q); done. }
  destruct (within_radius _ _ _ _ q) eqn:Ew; cbn [andb].
  2: { apply Hskip. intros q0 [= <-]. unfold can_hit. by rewrite Ew, andb_false_r. }
  assert (can_hit pr segX segY segLenSq x q = true) as Hc.
  { unfold can_hit. rewrite Ew. by destruct (x =? _), (alive q). }
  pose proof (can_hit_t_finite _ _ _ _ _ _ Hc) as Hfin. clear Hskip.
  assert (forall u, is_finite u = true -> is_nan u = false) as Hnn by (by intros []).
  destruct (fltb (closest_t _ _ _ _ q) hitT) eqn:Elt; simpl.
  - exists q. split_and!; try done. intros tid q' [Hs| ->%list_elem_of_singleton]%elem_of_app Hq' Hc'.
    2: { rewrite Eq in Hq'. inv Hq'. apply fltb_irrefl. }
    destruct hit as [h|]; simpl in H.
    + destruct H as (q0 & _ & Hc0 & -> & Hmin). specialize (Hmin _ _ Hs Hq' Hc').
      eapply fltb_false_trans; [..|exact Hmin|by apply fltb_asym]; eauto using can_hit_t_finite.
    + destruct H as [_ Hno]. by rewrite (Hno _ _ Hs Hq') in Hc'.
  - destruct hit as [h|]; simpl in *.
    + destruct H as (q0 & ? & ? & ? & Hmin). exists q0. split_and!; try done.
      intros tid q' [?| ->%list_elem_of_singleton]%elem_of_app Hq' Hc'; [by eapply Hmin|].
      rewrite Eq in Hq'. by inv Hq'.
    + destruct H as [-> _]. by rewrite fltb_inf in Elt.
Qed.

Lemma find_hit_best ps pr segX segY segLenSq :
  exists hitT, best_hit ps pr segX segY segLenSq (hash_order CPlayers (dom ps))
    (hitT, find_hit ps pr segX segY segLenSq).
Proof.
  unfold find_hit. generalize (hash_order CPlayers (dom ps)). intros l.
  assert (best_hit ps pr segX segY segLenSq l (foldl (hit_step ps pr segX segY segLenSq) (f_inf, None) l)) as H.
  { induction l as [|x l IH] using rev_ind; [split; [done|set_solver]|].
    rewrite foldl_app. by apply hit_step_best. }
  destruct (foldl _ _ l) as [hitT hit]. by exists hitT.
Qed.

Lemma find_hit_Some ps pr segX segY segLenSq tid :
  find_hit ps pr segX segY segLenSq = Some tid ->
  exists q, ps !! tid = Some q /\ can_hit pr segX segY segLenSq tid q = true.
Proof.
  intros H. destruct (find_hit_best ps pr segX segY segLenSq) as [hitT Hb]. rewrite H in Hb.
  destruct Hb as (q & ? & ? & _). by exists q.
Qed.

(** What one iteration of the fourth loop does. *)
Inductive adv_case (a : advancing) (pid : Z) : advancing -> Prop :=
  | adv_absent : a_projectiles a !! pid = None -> adv_case a pid a
  | adv_hit pr tid q :
      a_projectiles a !! pid = Some pr -> a_players a !! tid = Some q ->
      tid ≠ ownerId pr -> 0 < hp q -> is_nan (p_x q) = false -> is_nan (p_y q) = false ->
      adv_case a pid
        (mkAdv (<[tid := set_hp (Z.max 0 (hp q - kDamage)) q]> (a_players a))
               (delete pid (a_projectiles a)) (a_removed a ++ [pid]) ({[p_id q]} ∪ a_changed a))
  | adv_gone pr :
      a_projectiles a !! pid = Some pr ->
      adv_case a pid (mkAdv (a_players a) (delete pid (a_projectiles a)) (a_removed a ++ [pid]) (a_changed a))
  | adv_fly pr pr' :
      a_projectiles a !! pid = Some pr -> pr_id pr' = pr_id pr -> ownerId pr' = ownerId pr ->
      adv_case a pid (mkAdv (a_players a) (<[pid := pr']> (a_projectiles a)) (a_removed a) (a_changed a)).

Lemma within_radius_not_nan pr segX segY u q :
  within_radius pr segX segY u q = true -> is_nan (p_x q) = false /\ is_nan (p_y q) = false.
Proof.
  unfold within_radius. intros [[[Hx _]%fmul_num [Hy _]%fmul_num]%fadd_num _]%fleb_num.
  apply fsub_num in Hx, Hy. tauto.
Qed.

Lemma advance_projectile_cases dt a pid : adv_case a pid (advance_projectile dt a pid).
Proof.
  unfold advance_projectile. destruct (a_projectiles a !! pid) as [pr|] eqn:Epr; [|by constructor].
  destruct (find_hit _ _ _ _ _) as [tid|] eqn:Eh.
  - apply find_hit_Some in Eh as (q & Hq & Hc). rewrite Hq. unfold can_hit, alive in Hc. b2p.
    destruct (within_radius_not_nan _ _ _ _ _ H0). by eapply adv_hit.
  - destruct (_ || _); [by eapply adv_gone|]. by eapply adv_fly.
Qed.

(** The removed projectiles of the fourth loop, and the survivors. *)
Lemma advance_all_projectiles dt l a0 :
  NoDup l ->
  let a := foldl (advance_projectile dt) a0 l in
  exists r, a_removed a = a_removed a0 ++ r /\ r `sublist_of` l /\
    (forall pid, pid ∉ l -> a_projectiles a !! pid = a_projectiles a0 !! pid) /\
    (forall pid, pid ∈ r -> is_Some (a_projectiles a0 !! pid) /\ a_projectiles a !! pid = None) /\
    (forall pid, pid ∈ l -> pid ∉ r ->
       match a_projectiles a0 !! pid with
       | None => a_projectiles a !! pid = None
       | Some pr => exists pr', a_projectiles a !! pid = Some pr' /\ pr_id pr' = pr_id pr /\ ownerId pr' = ownerId pr
       end).
Proof.
  cbn zeta. induction l as [|x l IH] using rev_ind; intros Hnd.
  { exists []. simpl. rewrite app_nil_r. split_and!; try done; set_solver. }
  apply NoDup_app in Hnd as (Hnd & Hx & _). destruct (IH Hnd) as (r & Hr & Hsub & Hout & Hin & Hl).
  assert (x ∉ l) as Hxn by (intros H; apply (Hx x H); set_solver).
  assert (x ∉ r) as Hxr by (intros H; by eapply Hxn, elem_of_sublist).
  rewrite foldl_app. cbn [foldl]. set (a := foldl _ _ l) in *. clearbody a.
  pose proof (Hout x Hxn) as Hox. set (a1 := advance_projectile dt a x).
  assert (is_Some (a_projectiles a !! x) -> a_removed a1 = a_removed a ++ [x] ->
          a_projectiles a1 = delete x (a_projectiles a) ->
          exists r, a_removed a1 = a_removed a0 ++ r /\ r `sublist_of` l ++ [x] /\
            (forall pid, pid ∉ l ++ [x] -> a_projectiles a1 !! pid = a_projectiles a0 !! pid) /\
            (forall pid, pid ∈ r -> is_Some (a_projectiles a0 !! pid) /\ a_projectiles a1 !! pid = None) /\
            (forall pid, pid ∈ l ++ [x] -> pid ∉ r ->
               match a_projectiles a0 !! pid with
               | None => a_projectiles a1 !! pid = None
               | Some pr => exists pr', a_projectiles a1 !! pid = Some pr' /\
                                        pr_id pr' = pr_id pr /\ ownerId pr' = ownerId pr
               end)) as Hrem.
  { intros Hs Hr1 Hp1. exists (r ++ [x]). rewrite Hr1, Hr, Hp1, app_assoc.
    split_and!; [done|by apply sublist_app| | |].
    - intros pid Hpid. rewrite lookup_delete_ne by set_solver. apply Hout. set_solver.
    - intros pid [?| ->%list_elem_of_singleton]%elem_of_app.
      + rewrite lookup_delete_ne by set_solver. by apply Hin.
      + rewrite lookup_delete_eq, <- Hox. done.
    - intros pid Hpl Hpr. rewrite lookup_delete_ne by set_solver. apply Hl; set_solver. }
  subst a1. destruct (advance_projectile_cases dt a x) as [Hn|pr tid q Hp|pr Hp|pr pr' Hp Hid Hown];
    [|by apply Hrem|by apply Hrem|]; simpl.
  - exists r. rewrite Hn in Hox. split_and!; [done|by apply sublist_inserts_r|set_solver|done|].
    intros pid [?| ->%list_elem_of_singleton]%elem_of_app ?; [by apply Hl|]. by rewrite <- Hox.
  - exists r. split_and!; [done|by apply sublist_inserts_r| | |].
    + intros pid Hpid. rewrite lookup_insert_ne by set_solver. apply Hout. set_solver.
    + intros pid Hpid. rewrite lookup_insert_ne by set_solver. by apply Hin.
    + intros pid [?| ->%list_elem_of_singleton]%elem_of_app Hpr.
      * rewrite lookup_insert_ne by set_solver. by apply Hl.
      * rewrite lookup_insert_eq, <- Hox, Hp. by exists pr'.
Qed.

Definition ids_ok (ps : gmap Z P) : Prop := forall id p, ps !! id = Some p -> p_id p = id.

(** [pid] is a projectile of somebody else than [id]. *)
Definition hostile (prs : gmap Z Projectile) (id pid : Z) : bool :=
  match prs !! pid with Some pr => negb (ownerId pr =? id) | None => false end.

Definition hostiles (prs : gmap Z Projectile) (id : Z) (r : list Z) : Z :=
  Z.of_nat (length (filter (fun pid => hostile prs id pid = true) r)).

(** What the projectiles removed in the list [r] may have done to a player. *)
Definition damaged (prs : gmap Z Projectile) (r : list Z) (id : Z) (p : P) (h : Z) : Prop :=
  h <= hp p /\ (0 <= hp p -> 0 <= h) /\ hp p - kDamage * hostiles prs id r <= h /\
  (h ≠ hp p -> alive p = true /\ is_nan (p_x p) = false /\ is_nan (p_y p) = false).

Lemma hostiles_snoc prs id r x :
  hostiles prs id (r ++ [x]) = hostiles prs id r + (if hostile prs id x then 1 else 0).
Proof.
  unfold hostiles. rewrite filter_app, length_app. destruct (hostile prs id x) eqn:E.
  - rewrite filter_cons_True by done. simpl. lia.
  - rewrite filter_cons_False by (by rewrite E). simpl. lia.
Qed.

Lemma damaged_snoc prs r id p h x : damaged prs r id p h -> damaged prs (r ++ [x]) id p h.
Proof.
  unfold damaged. rewrite hostiles_snoc. intros (? & ? & ? & ?). unfold kDamage in *. split_and!; try done.
  destruct (hostile prs id x); lia.
Qed.

Lemma set_hp_set_hp h h' p : set_hp h (set_hp h' p) = set_hp h p.
Proof. done. Qed.

Lemma set_hp_id p : set_hp (hp p) p = p.
Proof. by destruct p. Qed.

(** What the fourth loop does to the players. *)
Lemma advance_all_players dt l a0 :
  NoDup l -> a_removed a0 = [] -> ids_ok (a_players a0) ->
  let a := foldl (advance_projectile dt) a0 l in
  (forall id, match a_players a0 !! id with
     | None => a_players a !! id = None
     | Some p => exists h, a_players a !! id = Some (set_hp h p) /\
         damaged (a_projectiles a0) (a_removed a) id p h /\
         (id ∈ a_changed a <-> id ∈ a_changed a0 \/ h ≠ hp p)
     end) /\
  (forall id, a_players a0 !! id = None -> id ∈ a_changed a <-> id ∈ a_changed a0).
Proof.
  cbn zeta. intros Hnd Hr0 Hids. induction l as [|x l IH] using rev_ind.
  { simpl. split; [|done]. intros id. destruct (a_players a0 !! id) as [p|] eqn:Ep; [|done].
    exists (hp p). rewrite set_hp_id. split_and!; [done| |tauto]. unfold damaged, hostiles. rewrite Hr0. simpl.
    split_and!; try done; lia. }
  apply NoDup_app in Hnd as (Hnd & Hx & _). specialize (IH Hnd).
  destruct (advance_all_projectiles dt l a0 Hnd) as (r & _ & _ & Hout & _ & _).
  rewrite foldl_app. cbn [foldl]. set (a := foldl _ _ l) in *. clearbody a.
  assert (x ∉ l) as Hxn by (intros H; apply (Hx x H); set_solver). specialize (Hout x Hxn).
  destruct IH as [Hpl Hch].
  destruct (advance_projectile_cases dt a x) as [Hn|pr tid q Hp Hq Hne Hhp Hx1 Hy1|pr Hp|pr pr' Hp Hid Hown];
    cbn [a_players a_removed a_changed]; [done| | |done].
  - assert (hostile (a_projectiles a0) tid x = true) as Hh.
    { unfold hostile. rewrite <- Hout, Hp. apply negb_true_iff, Z.eqb_neq. done. }
    pose proof (Hpl tid) as Ht. destruct (a_players a0 !! tid) as [p|] eqn:Ep; [|by rewrite Ht in Hq].
    destruct Ht as (h & Hh1 & Hd & Hc). rewrite Hh1 in Hq. inv Hq.
    assert (p_id (set_hp h p) = tid) as -> by (by apply (Hids _ _ Ep)). simpl in Hhp, Hx1, Hy1.
    destruct Hd as (Hd1 & Hd2 & Hd3 & Hd4).
    split; intros id.
    + destruct (decide (id = tid)) as [->|Hnt].
      * rewrite Ep, lookup_insert_eq, set_hp_set_hp. simpl. eexists. split; [done|]. unfold damaged.
        rewrite hostiles_snoc, Hh. unfold kDamage, alive in *. split_and!; try lia.
        { intros _. split_and!; try done. apply Z.ltb_lt. lia. }
        split; [intros _; right; lia|intros _; set_solver].
      * rewrite lookup_insert_ne by done. specialize (Hpl id). destruct (a_players a0 !! id) as [p'|]; [|done].
        destruct Hpl as (h' & ? & ? & Hc'). exists h'. split_and!; [done|by apply damaged_snoc|].
        rewrite <- Hc'. set_solver.
    + intros Hnone. rewrite <- (Hch id Hnone). destruct (decide (id = tid)); [congruence|set_solver].
  - split; [|done]. intros id. specialize (Hpl id). destruct (a_players a0 !! id) as [p'|]; [|done].
    destruct Hpl as (h' & ? & ? & Hc'). exists h'. split_and!; [done|by apply damaged_snoc|done].
Qed.

(** *** The whole step *)

Record wf (s : t) : Prop := {
  wf_ids : ids_ok (players_ s);
  wf_pids : forall pid pr, projectiles_ s !! pid = Some pr -> pr_id pr = pid /\ pid < nextProjectileId_ s;
}.

Lemma moved_hp dt p : hp (moved dt p) = hp p.
Proof. unfold moved, move_player. repeat (dmatch; simpl; try done). Qed.

Lemma moved_id dt p : p_id (moved dt p) = p_id p.
Proof. unfold moved, move_player. repeat (dmatch; simpl; try done). Qed.

(** A player that the first loop does not report keeps his position. *)
Lemma moved_still dt p :
  snd (move_player dt p) = false -> p_x (moved dt p) = p_x p /\ p_y (moved dt p) = p_y p.
Proof. unfold moved, move_player. repeat (dmatch; simpl; try done). Qed.

Lemma shoot_hp p : hp (shoot p) = hp p.
Proof. unfold shoot. by destruct (wants_attack p). Qed.

Lemma shoot_x p : p_x (shoot p) = p_x p.
Proof. unfold shoot. by destruct (wants_attack p). Qed.

Lemma shoot_y p : p_y (shoot p) = p_y p.
Proof. unfold shoot. by destruct (wants_attack p). Qed.

Lemma shoot_id p : p_id (shoot p) = p_id p.
Proof. unfold shoot. by destruct (wants_attack p). Qed.

Lemma damaged_ext prs prs' r id p p' h :
  (forall pid, pid ∈ r -> prs !! pid = prs' !! pid) ->
  hp p = hp p' -> p_x p = p_x p' -> p_y p = p_y p' ->
  damaged prs r id p h -> damaged prs' r id p' h.
Proof.
  intros Hr Hh Hx Hy. unfold damaged, alive. rewrite Hh, Hx, Hy.
  assert (hostiles prs id r = hostiles prs' id r) as ->; [|done].
  unfold hostiles. f_equal. f_equal.
  induction r as [|x r IH]; [done|]. rewrite !filter_cons.
  assert (hostile prs id x = hostile prs' id x) as -> by (unfold hostile; rewrite Hr; [done|left]).
  rewrite IH; [done|]. intros pid Hp. apply Hr. by right.
Qed.

(** A player before and after the first three phases of a step. *)
Definition acted (dtMs : Z) (p : P) : P := shoot (decay_cd dtMs (moved (dt_of dtMs) p)).

(** The players that fire in a step. *)
Definition firing (dtMs : Z) (s : t) : list Z :=
  shooters ((fun p => decay_cd dtMs (moved (dt_of dtMs) p)) <$> players_ s)
           (hash_order CPlayers (dom (players_ s))).

(** The first three phases in closed form: the fourth loop starts from the
    players after acting and the old projectiles plus one per firing player. *)
Lemma step_phases dtMs s ch s' :
  step dtMs s = (ch, s') ->
  exists prs ch1,
    let pl := hash_order CProjectiles (dom (projectiles_ s)) in
    let a := foldl (advance_projectile (dt_of dtMs)) (mkAdv (acted dtMs <$> players_ s) prs [] ch1) pl in
    ch = merge_sort Z.le (elements (a_changed a)) /\
    s' = mk (a_players a) (a_projectiles a) (a_removed a)
            (nextProjectileId_ s + Z.of_nat (length (firing dtMs s))) /\
    (forall id, id ∈ ch1 <-> exists p, players_ s !! id = Some p /\ snd (move_player (dt_of dtMs) p) = true) /\
    (forall pid, pid < nextProjectileId_ s \/ nextProjectileId_ s' <= pid -> prs !! pid = projectiles_ s !! pid) /\
    (forall pid, nextProjectileId_ s <= pid < nextProjectileId_ s' ->
       exists pr, prs !! pid = Some pr /\ pr_id pr = pid /\
         firing dtMs s !! Z.to_nat (pid - nextProjectileId_ s) = Some (ownerId pr)).
Proof.
  intros Hstep. unfold step in Hstep. set (dt := dt_of dtMs) in *. cbn zeta.
  pose proof (NoDup_hash_order CPlayers (dom (players_ s))) as Hnd.
  pose proof (fun id => elem_of_hash_order_dom CPlayers (players_ s) id) as Hin.
  unfold firing, acted. fold dt. set (ids := hash_order CPlayers _) in *.
  destruct (move_all dt ids (players_ s)) as [ps1 ch1] eqn:Em.
  destruct (move_all_spec _ _ _ _ _ Hnd Em) as [Hps1 Hch1].
  assert (ps1 = moved dt <$> players_ s) as ->.
  { apply map_eq. intros id. rewrite Hps1, lookup_fmap. destruct (bool_decide _) eqn:E; [done|].
    b2p. destruct (players_ s !! id) eqn:Ep; [|done]. exfalso. apply E, Hin. eauto. }
  rewrite <- map_fmap_compose in Hstep. set (ps2 := _ <$> players_ s) in Hstep.
  change ((fun p => decay_cd dtMs (moved dt p)) <$> players_ s) with ps2.
  destruct (attack_all ids ps2 _ _) as [[ps3 prs3] next3] eqn:Ea.
  destruct (attack_all_spec _ _ _ _ _ _ _ Hnd Ea) as (Hps3 & Hn3 & Hold3 & Hnew3).
  assert (ps3 = (fun p => shoot (decay_cd dtMs (moved dt p))) <$> players_ s) as ->.
  { apply map_eq. intros id. rewrite Hps3. unfold ps2. rewrite !lookup_fmap.
    destruct (players_ s !! id) as [p|] eqn:Ep; [|by destruct (bool_decide _)].
    rewrite bool_decide_eq_true_2 by (apply Hin; eauto). done. }
  inv Hstep. exists prs3, ch1. split_and!; [done|done| |done|done].
  intros id. rewrite Hch1. split; [by intros [_ ?]|]. intros (p & Hp & ?). split; [apply Hin|]; eauto.
Qed.

Lemma elem_of_sorted_elements (X : gset Z) x : x ∈ merge_sort Z.le (elements X) <-> x ∈ X.
Proof. rewrite (merge_sort_Permutation Z.le (elements X)). apply elem_of_elements. Qed.

Lemma sorted_elements (X : gset Z) : StronglySorted Z.lt (merge_sort Z.le (elements X)).
Proof.
  pose proof (StronglySorted_merge_sort Z.le (elements X)) as Hs.
  assert (NoDup (merge_sort Z.le (elements X))) as Hnd.
  { rewrite (merge_sort_Permutation Z.le (elements X)). apply NoDup_elements. }
  induction Hs as [|x l Hs IH Hf]; [constructor|]. apply NoDup_cons in Hnd as [Hx Hnd]. constructor; [auto|].
  rewrite Forall_forall in *. intros y Hy. specialize (Hf y Hy). assert (x ≠ y) by congruence. lia.
Qed.

(** What a step does to the players. *)
Lemma step_players dtMs s ch s' id :
  step dtMs s = (ch, s') -> wf s ->
  match players_ s !! id with
  | None => players_ s' !! id = None /\ id ∉ ch
  | Some p => exists h, players_ s' !! id = Some (set_hp h (acted dtMs p)) /\
      damaged (projectiles_ s) (removedProjectileIds_ s') id (moved (dt_of dtMs) p) h /\
      (id ∈ ch <-> snd (move_player (dt_of dtMs) p) = true \/ h ≠ hp p)
  end.
Proof.
  intros (prs & ch1 & -> & -> & Hch1 & Hold & Hnew)%step_phases [Hids Hpids]. simpl.
  pose proof (NoDup_hash_order CProjectiles (dom (projectiles_ s))) as Hnd.
  assert (ids_ok (acted dtMs <$> players_ s)) as Hids'.
  { intros i p. rewrite lookup_fmap. destruct (players_ s !! i) as [p0|] eqn:E; [|done].
    intros [= <-]. unfold acted. rewrite shoot_id. simpl. rewrite moved_id. by apply Hids. }
  set (a0 := mkAdv _ _ _ _). destruct (advance_all_players (dt_of dtMs) _ a0 Hnd eq_refl Hids') as [Hpl Hchn].
  destruct (advance_all_projectiles (dt_of dtMs) _ a0 Hnd) as (r & Hr & Hsub & _ & Hrem & _).
  set (a := foldl _ _ _) in *. clearbody a. specialize (Hpl id). specialize (Hchn id). simpl in Hpl, Hchn, Hr, Hrem.
  rewrite lookup_fmap in Hpl, Hchn.
  destruct (players_ s !! id) as [p|] eqn:Ep; simpl in Hpl, Hchn.
  - destruct Hpl as (h & Hh & Hd & Hc). exists h. split_and!; [done| |].
    + eapply damaged_ext, Hd; unfold acted; rewrite ?shoot_hp, ?shoot_x, ?shoot_y; try done.
      intros pid Hpid. apply Hold. left. rewrite Hr in Hpid.
      eapply elem_of_sublist in Hpid; [|done].
      apply elem_of_hash_order_dom in Hpid as [pr Hpr]. by apply Hpids in Hpr as [_ ?].
    + rewrite elem_of_sorted_elements, Hc, Hch1, Ep. unfold acted. rewrite shoot_hp. simpl. rewrite moved_hp.
      split; (intros [H|H]; [left|by right]); [by destruct H as (? & [= <-] & ?)|eauto].
  - split; [done|]. rewrite elem_of_sorted_elements, Hchn, Hch1, Ep by done. by intros (? & ? & _).
Qed.

Lemma step_sorted dtMs s ch s' : step dtMs s = (ch, s') -> StronglySorted Z.lt ch.
Proof. intros (prs & ch1 & -> & _)%step_phases. apply sorted_elements. Qed.

(** What a step does to the projectiles. *)
Lemma step_projectiles dtMs s ch s' :
  step dtMs s = (ch, s') -> wf s ->
  nextProjectileId_ s' = nextProjectileId_ s + Z.of_nat (length (firing dtMs s)) /\
  NoDup (removedProjectileIds_ s') /\
  (forall pid, pid ∈ removedProjectileIds_ s' ->
     is_Some (projectiles_ s !! pid) /\ projectiles_ s' !! pid = None) /\
  (forall pid, pid ∉ removedProjectileIds_ s' -> pid < nextProjectileId_ s ->
     match projectiles_ s !! pid with
     | None => projectiles_ s' !! pid = None
     | Some pr => exists pr', projectiles_ s' !! pid = Some pr' /\ pr_id pr' = pr_id pr /\ ownerId pr' = ownerId pr
     end) /\
  (forall pid, nextProjectileId_ s <= pid < nextProjectileId_ s' ->
     exists pr, projectiles_ s' !! pid = Some pr /\ pr_id pr = pid /\
       firing dtMs s !! Z.to_nat (pid - nextProjectileId_ s) = Some (ownerId pr)) /\
  (forall pid, nextProjectileId_ s' <= pid -> projectiles_ s' !! pid = None).
Proof.
  intros (prs & ch1 & -> & -> & Hch1 & Hold & Hnew)%step_phases [Hids Hpids]. simpl in *.
  pose proof (NoDup_hash_order CProjectiles (dom (projectiles_ s))) as Hnd.
  set (a0 := mkAdv _ _ _ _).
  destruct (advance_all_projectiles (dt_of dtMs) _ a0 Hnd) as (r & Hr & Hsub & Hout & Hrem & Hsurv).
  set (a := foldl _ _ _) in *. clearbody a. simpl in Hr, Hout, Hrem, Hsurv. rewrite Hr.
  assert (forall pid, pid ∈ hash_order CProjectiles (dom (projectiles_ s)) -> pid < nextProjectileId_ s) as Hlt.
  { intros pid [pr Hpr]%elem_of_hash_order_dom. by apply Hpids in Hpr as [_ ?]. }
  assert (forall pid, pid ∈ r -> pid ∈ hash_order CProjectiles (dom (projectiles_ s))) as Hrl.
  { intros pid Hpid. eapply sublist_submseteq, elem_of_submseteq in Hsub; eauto. }
  split_and!; [done|by eapply sublist_NoDup| | | |].
  - intros pid Hpid. rewrite <- Hold by (left; auto). auto.
  - intros pid Hpid Hpn. rewrite <- Hold by (by left).
    destruct (decide (pid ∈ hash_order CProjectiles (dom (projectiles_ s)))) as [Hi|Hi]; [by apply Hsurv|].
    rewrite Hout by done. destruct (prs !! pid) as [pr|]; [by exists pr|done].
  - intros pid Hpid. rewrite Hout by (intros ?%Hlt; lia). by apply Hnew.
  - intros pid Hpid. rewrite Hout by (intros ?%Hlt; lia). rewrite Hold by (by right).
    destruct (projectiles_ s !! pid) as [pr|] eqn:E; [|done]. apply Hpids in E as [_ ?]. lia.
Qed.

End StepLemmas.

(** ** Runs of the simulation

    One event of a battle: a player joins, an input arrives, or a tick, with
    any order of the hash maps and any [hypot] at each tick. *)
Inductive sim_step (add_ok : f32 -> Prop) (in_ok : PlayerInput -> Prop) (dt_ok : Z -> Prop) : t -> t -> Prop :=
  | sim_add s id x y : add_ok x -> add_ok y -> sim_step add_ok in_ok dt_ok s (addPlayer id x y s)
  | sim_input s id inp : in_ok inp -> sim_step add_ok in_ok dt_ok s (applyInput id inp s)
  | sim_tick s (HO : HashOrder) (LM : Libm) dtMs :
      dt_ok dtMs -> sim_step add_ok in_ok dt_ok s (snd (step dtMs s))
  | sim_take s : sim_step add_ok in_ok dt_ok s (snd (takeRemovedProjectileIds s)).

Definition in_arena (x : f32) : Prop := fleb (f32_of_Z 0) x = true /\ fleb x kArena = true.

Definition finite_input (i : PlayerInput) : Prop :=
  is_finite (move_x i) = true /\ is_finite (move_y i) = true.

(** The invariant of a battle with finite inputs. *)
Record Inv (s : t) : Prop := {
  Inv_wf : wf s;
  Inv_player : forall id p, players_ s !! id = Some p ->
    in_arena (p_x p) /\ in_arena (p_y p) /\ finite_input (input p) /\ 0 <= hp p <= kMaxHp;
}.

Lemma in_arena_finite x : in_arena x -> is_finite x = true.
Proof. intros [H1 H2]. by apply (fleb_finite_between x (f32_of_Z 0) kArena). Qed.

Lemma finite_num x : is_finite x = true -> is_nan x = false.
Proof. by destruct x. Qed.

(** A coordinate after a movement by a number. *)
Lemma in_arena_clamp x m dt :
  in_arena x -> is_nan m = false -> is_nonzero_finite dt = true ->
  in_arena (fclamp (x + m * kSpeed * dt)%f32 (f32_of_Z 0) kArena).
Proof.
  intros Hx Hm Hdt. apply fclamp_between; try done.
  apply fadd_not_nan; [by apply in_arena_finite|]. by repeat apply fmul_not_nan.
Qed.

Lemma normalised_not_nan m len :
  is_finite m = true -> is_nan (if fltb (f32_of_Z 1) len then (m / len)%f32 else m) = false.
Proof.
  intros Hm. destruct (fltb _ len) eqn:E; [|by apply finite_num].
  apply fdiv_not_nan; [done|by eapply fltb_nan_r|]. destruct len as [[]|[]| |[]]; done.
Qed.

Lemma moved_in_arena dt p :
  is_nonzero_finite dt = true -> finite_input (input p) -> in_arena (p_x p) -> in_arena (p_y p) ->
  in_arena (p_x (moved dt p)) /\ in_arena (p_y (moved dt p)).
Proof.
  intros Hdt [Hmx Hmy] Hx Hy. unfold moved, move_player. destruct (_ || _); [done|].
  destruct (fltb _ f_1em6); [done|]. set (len := fsqrt _).
  pose proof (normalised_not_nan _ len Hmx) as H1. pose proof (normalised_not_nan _ len Hmy) as H2.
  destruct (fltb (f32_of_Z 1) len); destruct (_ || _); simpl; auto using in_arena_clamp.
Qed.

Lemma moved_input dt p : input (moved dt p) = input p.
Proof. unfold moved, move_player. repeat (dmatch; simpl; try done). Qed.

Lemma shoot_input p : input (shoot p) = input p.
Proof. unfold shoot. by destruct (wants_attack p). Qed.

Lemma wf_step {HO : HashOrder} {LM : Libm} dtMs s ch s' : step dtMs s = (ch, s') -> wf s -> wf s'.
Proof.
  intros Hs Hwf. split.
  - intros id p' Hp'. pose proof (step_players _ _ _ _ id Hs Hwf) as H.
    destruct (players_ s !! id) as [p|] eqn:Ep; [|by destruct H as [H _]; rewrite H in Hp'].
    destruct H as (h & H & _). rewrite H in Hp'. inv Hp'. simpl. unfold acted. rewrite shoot_id. simpl.
    rewrite moved_id. by apply (wf_ids s Hwf).
  - intros pid pr Hpr. destruct (step_projectiles _ _ _ _ Hs Hwf) as (Hn & _ & Hrem & Hold & Hnew & Hout).
    destruct (decide (nextProjectileId_ s' <= pid)) as [H1|H1]; [by rewrite Hout in Hpr|].
    split; [|lia]. destruct (decide (nextProjectileId_ s <= pid)) as [H2|H2].
    { destruct (Hnew pid ltac:(lia)) as (pr0 & Hpr0 & ? & _). congruence. }
    destruct (decide (pid ∈ removedProjectileIds_ s')) as [Hr|Hr].
    { apply Hrem in Hr as [_ Hr]. congruence. }
    specialize (Hold pid Hr ltac:(lia)). destruct (projectiles_ s !! pid) as [pr0|] eqn:E; [|congruence].
    destruct Hold as (pr' & ? & ? & _). apply (wf_pids s Hwf) in E as [? _]. congruence.
Qed.

Lemma wf_init : wf init.
Proof. split; intros ? ?; simpl; by rewrite lookup_empty. Qed.

Lemma wf_add id x y s : wf s -> wf (addPlayer id x y s).
Proof.
  intros [H1 H2]. split; [|done]. intros i p. simpl.
  intros [[<- <-]|[_ ?]]%lookup_insert_Some; [done|auto].
Qed.

Lemma wf_input id i s : wf s -> wf (applyInput id i s).
Proof.
  intros [H1 H2]. unfold applyInput. destruct (players_ s !! id) as [p|] eqn:E; [|done].
  split; [|done]. intros j q. simpl. intros [[<- <-]|[_ ?]]%lookup_insert_Some; [simpl|]; auto.
Qed.

Lemma wf_take s : wf s -> wf (snd (takeRemovedProjectileIds s)).
Proof. by intros []. Qed.

Lemma wf_sim_step add_ok in_ok dt_ok s s' : sim_step add_ok in_ok dt_ok s s' -> wf s -> wf s'.
Proof.
  intros [] Hwf; auto using wf_add, wf_input, wf_take.
  destruct (step dtMs s0) as [ch s1] eqn:E. by eapply wf_step.
Qed.

Lemma Inv_sim_step s s' :
  sim_step in_arena finite_input (fun dtMs => is_nonzero_finite (dt_of dtMs) = true) s s' -> Inv s -> Inv s'.
Proof.
  intros Hs [Hwf Hp]. split; [by eapply wf_sim_step|]. intros id p'.
  destruct Hs as [s i x y Hx Hy|s i inp Hi|s HO LM dtMs Hdt|s]; [| | |apply Hp].
  - simpl. intros [[<- <-]|[_ ?]]%lookup_insert_Some; [|by eapply Hp]. simpl. split_and!; try done.
  - unfold applyInput. destruct (players_ s !! i) as [p|] eqn:E; [|apply Hp].
    simpl. intros [[<- <-]|[_ ?]]%lookup_insert_Some; [|by eapply Hp]. simpl.
    destruct (Hp _ _ E) as (? & ? & _ & ?). done.
  - destruct (step dtMs s) as [ch s'] eqn:E. simpl. intros Hp'.
    pose proof (step_players _ _ _ _ id E Hwf) as H.
    destruct (players_ s !! id) as [p|] eqn:Ep; [|by destruct H as [H _]; rewrite H in Hp'].
    destruct H as (h & H & Hd & _). rewrite H in Hp'. inv Hp'.
    destruct (Hp _ _ Ep) as (Hx & Hy & Hin & Hh). destruct (moved_in_arena _ p Hdt Hin Hx Hy).
    unfold acted. simpl. rewrite shoot_x, shoot_y, shoot_input. simpl. rewrite moved_input.
    destruct Hd as (Hd1 & Hd2 & _). rewrite moved_hp in Hd1, Hd2. split_and!; try done; lia.
Qed.

Lemma Inv_init : Inv init.
Proof. split; [apply wf_init|]. intros ? ?. simpl. by rewrite lookup_empty. Qed.

(** ** Invulnerability through NaN *)

Lemma fadd_nan_l y : fadd S754_nan y = S754_nan.
Proof. by destruct y. Qed.

Lemma fmul_nan_l y : fmul S754_nan y = S754_nan.
Proof. by destruct y. Qed.

Lemma fadd_nan_r x : fadd x S754_nan = S754_nan.
Proof. by destruct x. Qed.

(** A player whose input is NaN moves to NaN. *)
Lemma moved_nan_input dt p :
  alive p = true -> hasInput p = true -> move_x (input p) = S754_nan -> p_x (moved dt p) = S754_nan.
Proof.
  intros Ha Hi Hm. unfold moved, move_player. rewrite Ha, Hi, Hm. cbn [negb orb].
  rewrite !fmul_nan_l, !fadd_nan_l. change (fsqrt S754_nan) with S754_nan.
  change (fltb S754_nan f_1em6) with false. change (fltb (f32_of_Z 1) S754_nan) with false.
  cbn iota. rewrite !fmul_nan_l, fadd_nan_r, fclamp_nan. done.
Qed.

Lemma moved_nan_x dt p : p_x p = S754_nan -> p_x (moved dt p) = S754_nan.
Proof.
  intros Hx. unfold moved, move_player. destruct (_ || _); [done|]. destruct (fltb _ f_1em6); [done|].
  destruct (fltb (f32_of_Z 1) _); cbn beta iota zeta; rewrite Hx, fadd_nan_l, fclamp_nan; by destruct (_ || _).
Qed.

(** A player at NaN takes no damage. *)
Lemma damaged_nan prs r id p h : damaged prs r id p h -> p_x p = S754_nan -> h = hp p.
Proof.
  intros (_ & _ & _ & H) Hx. destruct (decide (h = hp p)); [done|]. destruct H as (_ & H & _); [done|].
  by rewrite Hx in H.
Qed.

Definition at_nan (id h : Z) (s : t) : Prop :=
  wf s /\ exists p, players_ s !! id = Some p /\ p_x p = S754_nan /\ hp p = h.

Lemma at_nan_after_step {HO : HashOrder} {LM : Libm} dtMs id p s :
  wf s -> players_ s !! id = Some p -> p_x (moved (dt_of dtMs) p) = S754_nan ->
  at_nan id (hp p) (snd (step dtMs s)).
Proof.
  intros Hwf Hp Hm. destruct (step dtMs s) as [ch s'] eqn:E. split; [by eapply wf_step|].
  pose proof (step_players _ _ _ _ id E Hwf) as H. rewrite Hp in H. destruct H as (h & H & Hd & _).
  apply damaged_nan in Hd; [|done]. rewrite moved_hp in Hd. subst h.
  eexists. split; [exact H|]. simpl. unfold acted. by rewrite shoot_x.
Qed.

(** Everything that can happen in a room once the players are in it. *)
Definition room_step : t -> t -> Prop := sim_step (fun _ => False) (fun _ => True) (fun _ => True).

Lemma at_nan_room_step id h s s' : room_step s s' -> at_nan id h s -> at_nan id h s'.
Proof.
  intros Hs [Hwf (p & Hp & Hx & Hh)]. destruct Hs as [s i x y []|s i inp _|s HO LM dtMs _|s].
  - split; [by apply wf_input|]. unfold applyInput. destruct (players_ s !! i) as [q|] eqn:E; [|by exists p].
    simpl. destruct (decide (i = id)) as [->|]; [|rewrite lookup_insert_ne by done; by exists p].
    rewrite lookup_insert_eq. eexists. split; [done|]. simpl. rewrite Hp in E. by inv E.
  - rewrite <- Hh. apply at_nan_after_step; try done. by apply moved_nan_x.
  - split; [by apply wf_take|]. by exists p.
Qed.

(** ** Cooldowns *)

(** The cooldown of a player, in ticks of 50 ms. *)
Definition cd_is (k : nat) (p : P) : Prop := cdMs p = f32_of_Z (50 * Z.of_nat k).

Lemma decay_cd_is k p : (k <= 10)%nat -> cd_is k p -> cd_is (k - 1) (decay_cd 50 p).
Proof.
  unfold cd_is, decay_cd. simpl. intros Hk ->.
  do 11 (destruct k as [|k]; [vm_compute; done|]). lia.
Qed.

Lemma moved_cd dt p : cdMs (moved dt p) = cdMs p.
Proof. unfold moved, move_player. repeat (dmatch; simpl; try done). Qed.

Lemma cd_is_blocks k p : (0 < k <= 10)%nat -> cd_is k p -> wants_attack p = false.
Proof.
  unfold cd_is, wants_attack. intros Hk ->. destruct k as [|k]; [lia|].
  do 10 (destruct k as [|k]; [apply andb_false_r|]). lia.
Qed.

(** [id] fires in the step from [s] to [s']. *)
Definition fires (id : Z) (s s' : t) : Prop :=
  exists pid pr, nextProjectileId_ s <= pid /\ projectiles_ s' !! pid = Some pr /\ ownerId pr = id.

Lemma fires_wants {HO : HashOrder} {LM : Libm} dtMs id s :
  wf s -> fires id s (snd (step dtMs s)) ->
  exists p, players_ s !! id = Some p /\ wants_attack (decay_cd dtMs (moved (dt_of dtMs) p)) = true.
Proof.
  intros Hwf (pid & pr & Hpid & Hpr & Hown). destruct (step dtMs s) as [ch s'] eqn:E. simpl in Hpr.
  destruct (step_projectiles _ _ _ _ E Hwf) as (_ & _ & _ & _ & Hnew & Hout).
  destruct (decide (nextProjectileId_ s' <= pid)); [by rewrite Hout in Hpr|].
  destruct (Hnew pid ltac:(lia)) as (pr' & Hpr' & _ & Hf). rewrite Hpr in Hpr'. inv Hpr'.
  apply list_elem_of_lookup_2 in Hf. unfold firing, shooters in Hf. apply list_elem_of_filter in Hf as [Hf _].
  unfold shooter in Hf. rewrite lookup_fmap in Hf.
  destruct (players_ s !! ownerId pr') as [p|] eqn:Ep; [|done]. by exists p.
Qed.

(** Rooms tick every 50 ms; [n] counts the ticks of a run with arbitrary
    inputs in between. *)
Inductive ticks50 : nat -> t -> t -> Prop :=
  | ticks_refl s : ticks50 0 s s
  | ticks_tick n s s' (HO : HashOrder) (LM : Libm) : ticks50 n s s' -> ticks50 (S n) s (snd (step 50 s'))
  | ticks_input n s s' id inp : ticks50 n s s' -> ticks50 n s (applyInput id inp s')
  | ticks_take n s s' : ticks50 n s s' -> ticks50 n s (snd (takeRemovedProjectileIds s')).

Definition cooling (id : Z) (k : nat) (s : t) : Prop :=
  wf s /\ forall p, players_ s !! id = Some p -> cd_is k p.

Lemma cooling_tick {HO : HashOrder} {LM : Libm} id k s :
  (1 < k <= 10)%nat -> cooling id k s -> cooling id (k - 1) (snd (step 50 s)).
Proof.
  intros Hk [Hwf Hc]. destruct (step 50 s) as [ch s'] eqn:E. split; [by eapply wf_step|]. intros p' Hp'. simpl in Hp'.
  pose proof (step_players _ _ _ _ id E Hwf) as H.
  destruct (players_ s !! id) as [p|] eqn:Ep; [|by destruct H as [H _]; rewrite H in Hp'].
  destruct H as (h & H & _). rewrite H in Hp'. inv Hp'.
  assert (cd_is (k - 1) (decay_cd 50 (moved (dt_of 50) p))) as Hd.
  { apply decay_cd_is; [lia|]. unfold cd_is. rewrite moved_cd. by apply Hc. }
  unfold acted, shoot. rewrite (cd_is_blocks (k - 1)) by (done || lia). done.
Qed.

Lemma cooling_ticks id n s s' :
  ticks50 n s s' -> (n <= 9)%nat -> cooling id 10 s -> cooling id (10 - n) s'.
Proof.
  induction 1 as [s|n s s' HO LM _ IH|n s s' i inp _ IH|n s s' _ IH]; intros Hn Hc.
  - done.
  - replace (10 - S n)%nat with (10 - n - 1)%nat by lia. apply cooling_tick; [lia|]. apply IH; [lia|done].
  - destruct (IH Hn Hc) as [Hwf Hcd]. split; [by apply wf_input|]. unfold applyInput.
    destruct (players_ s' !! i) as [q|] eqn:E; [|done]. intros p. simpl.
    intros [[<- <-]|[_ ?]]%lookup_insert_Some; [|by apply Hcd]. by apply (Hcd q).
  - destruct (IH Hn Hc) as [Hwf Hcd]. split; [by apply wf_take|done].
Qed.

Lemma fires_cooling {HO : HashOrder} {LM : Libm} dtMs id s :
  wf s -> fires id s (snd (step dtMs s)) -> cooling id 10 (snd (step dtMs s)).
Proof.
  intros Hwf (p & Hp & Hw)%fires_wants; [|done]. destruct (step dtMs s) as [ch s'] eqn:E.
  split; [by eapply wf_step|]. pose proof (step_players _ _ _ _ id E Hwf) as H. rewrite Hp in H.
  destruct H as (h & H & _). intros p'. simpl. rewrite H. intros [= <-]. unfold acted, shoot. by rewrite Hw.
Qed.

(** ** The winner *)

Definition is_alive (s : t) (id : Z) : bool :=
  match players_ s !! id with Some p => alive p | None => false end.

Lemma winner_fold {HO : HashOrder} s :
  winnerOrZero s =
    match filter (fun id => is_alive s id = true) (hash_order CPlayers (dom (players_ s))) with
    | [id] => id
    | _ => 0
    end.
Proof.
  unfold winnerOrZero. generalize (hash_order CPlayers (dom (players_ s))). intros l.
  match goal with |- context [foldl ?f _ l] =>
    assert (foldl f (0, 0) l = let al := filter (fun id => is_alive s id = true) l in
              (Z.of_nat (length al), default 0 (last al))) as -> end.
  { induction l as [|x l IH] using rev_ind; [done|]. rewrite foldl_app, IH, filter_app. cbn [foldl]. cbn zeta.
    unfold is_alive at 3. destruct (players_ s !! x) as [p|] eqn:Ep; [destruct (alive p) eqn:Ea|].
    - rewrite filter_cons_True by (unfold is_alive; by rewrite Ep). cbn [filter list_filter].
      rewrite length_app, last_snoc. simpl. f_equal. lia.
    - rewrite filter_cons_False by (unfold is_alive; by rewrite Ep, Ea). by rewrite app_nil_r.
    - rewrite filter_cons_False by (unfold is_alive; by rewrite Ep). by rewrite app_nil_r. }
  cbn zeta. destruct (filter _ l) as [|x [|y al]]; [done|done|].
  destruct (Z.eqb_spec (Z.of_nat (length (x :: y :: al))) 1) as [H|_]; [simpl in H; lia|done].
Qed.

(** ** Properties *)

(** C26: In a battle whose inputs are finite numbers (spawn points inside the
    arena, ticks whose [dtMs / 1000] is a nonzero number), every player is
    inside the arena [0, 100] x [0, 100] at all times, and his hp stays between
    0 and [kMaxHp], whatever the inputs, the hash order and [hypot]. *)
Theorem players_stay_in_arena s id p :
  rtc (sim_step in_arena finite_input (fun dtMs => is_nonzero_finite (dt_of dtMs) = true)) init s ->
  players_ s !! id = Some p ->
  in_arena (p_x p) /\ in_arena (p_y p) /\ 0 <= hp p <= kMaxHp.
Proof.
  intros Hr Hp. assert (Inv s) as Hs.
  { pose proof Inv_init as H0. revert Hr H0. generalize init. induction 1; eauto using Inv_sim_step. }
  destruct (Inv_player s Hs id p Hp) as (? & ? & _ & ?). done.
Qed.

(** A battle of two players facing each other, the first walking and firing. *)
Definition duel : t := addPlayer 2 (f32_of_Z 70) (f32_of_Z 50) (addPlayer 1 (f32_of_Z 30) (f32_of_Z 50) init).

Definition walk_and_fire : PlayerInput := mkPlayerInput 7 (f32_of_Z (-3)) (f32_of_Z 4) true.

Definition duel_walk : t := applyInput 1 walk_and_fire duel.

Notation duel_tick s := (@step elements_order libm64 50 s) (only parsing).

Definition finite_battle : t -> t -> Prop :=
  sim_step in_arena finite_input (fun dtMs => is_nonzero_finite (dt_of dtMs) = true).

Lemma duel_reachable : rtc finite_battle init (snd (duel_tick duel_walk)).
Proof.
  eapply rtc_l; [apply (sim_add _ _ _ init 1 (f32_of_Z 30) (f32_of_Z 50)); by vm_compute|].
  eapply rtc_l; [apply (sim_add _ _ _ _ 2 (f32_of_Z 70) (f32_of_Z 50)); by vm_compute|].
  eapply rtc_l; [apply (sim_input _ _ _ _ 1 walk_and_fire); by vm_compute|].
  apply rtc_once. apply (sim_tick _ _ _ _ elements_order libm64 50). by vm_compute.
Qed.

Lemma players_stay_in_arena_witness :
  exists p, players_ (snd (duel_tick duel_walk)) !! 1 = Some p /\
    in_arena (p_x p) /\ in_arena (p_y p) /\ 0 <= hp p <= kMaxHp.
Proof.
  destruct (players_ (snd (duel_tick duel_walk)) !! 1) as [p|] eqn:E; [|vm_compute in E; discriminate].
  exists p. split; [reflexivity|].
  exact (players_stay_in_arena (snd (duel_tick duel_walk)) 1 p duel_reachable E).
Defined.

(** A client that sends NaN as a move component while alive is moved to
    NaN in the next tick and from then on is never hit: over any later run
    of inputs and ticks his hp does not change. [std::clamp] lets NaN through,
    although the loop treats the client as untrusted. *)
Theorem nan_input_invulnerable (HO : HashOrder) (LM : Libm) s s' dtMs id p :
  wf s -> players_ s !! id = Some p -> alive p = true -> hasInput p = true -> move_x (input p) = S754_nan ->
  rtc room_step (snd (step dtMs s)) s' ->
  exists p', players_ s' !! id = Some p' /\ p_x p' = S754_nan /\ hp p' = hp p.
Proof.
  intros Hwf Hp Ha Hi Hm Hr. assert (at_nan id (hp p) s') as [_ H]; [|exact H].
  assert (at_nan id (hp p) (snd (step dtMs s))) as Hn by eauto using at_nan_after_step, moved_nan_input.
  clear Hwf Hp. revert Hr Hn. induction 1; eauto using at_nan_room_step.
Qed.

Definition nan_input : PlayerInput := mkPlayerInput 1 S754_nan (f32_of_Z 0) false.

Definition duel_nan : t := applyInput 2 nan_input duel_walk.

Lemma wf_duel_nan : wf duel_nan.
Proof. apply wf_input, wf_input, wf_add, wf_add, wf_init. Qed.

Lemma nan_input_invulnerable_witness :
  exists p', players_ (snd (duel_tick duel_nan)) !! 2 = Some p' /\ p_x p' = S754_nan /\ hp p' = 100.
Proof.
  exact (nan_input_invulnerable elements_order libm64 duel_nan (snd (duel_tick duel_nan)) 50 2
           (mkP 2 (f32_of_Z 70) (f32_of_Z 50) 100 1 (f32_of_Z 0) (f32_of_Z (-1)) (f32_of_Z 0) nan_input true)
           wf_duel_nan ltac:(vm_compute; reflexivity) eq_refl eq_refl eq_refl (rtc_refl _ _)).
Defined.

Lemma move_player_changed dt p :
  is_nan (p_x p) = false -> is_nan (p_y p) = false ->
  snd (move_player dt p) = true <-> (p_x (moved dt p), p_y (moved dt p)) <> (p_x p, p_y p).
Proof.
  intros Hx Hy. unfold moved, move_player. destruct (_ || _); [done|]. destruct (fltb _ f_1em6); [done|].
  destruct (if fltb _ _ then _ else _) as [mx my]. set (nx := fclamp _ _ _). set (ny := fclamp _ _ _).
  destruct (negb _ || negb _) eqn:E; simpl; [|done]. split; [|done]. intros _ [= Hnx Hny].
  by rewrite Hnx, Hny, !feqb_refl in E.
Qed.


Lemma Inv_duel_walk : Inv duel_walk.
Proof.
  eapply Inv_sim_step; [apply (sim_input _ _ _ _ 1 walk_and_fire); by vm_compute|].
  eapply Inv_sim_step; [apply (sim_add _ _ _ _ 2 (f32_of_Z 70) (f32_of_Z 50)); by vm_compute|].
  eapply Inv_sim_step; [apply (sim_add _ _ _ _ 1 (f32_of_Z 30) (f32_of_Z 50)); by vm_compute|]. apply Inv_init.
Qed.


(** A dead player is inert: a step leaves his position and hp alone,
    does not report him, and he fires nothing, whatever his stored input. *)
Theorem dead_players_are_inert (HO : HashOrder) (LM : Libm) s dtMs ch s' id p :
  wf s -> step dtMs s = (ch, s') -> players_ s !! id = Some p -> hp p <= 0 ->
  id ∉ ch /\ ~ fires id s s' /\
  exists p', players_ s' !! id = Some p' /\ p_x p' = p_x p /\ p_y p' = p_y p /\ hp p' = hp p.
Proof.
  intros Hwf Hs Hp Hd. assert (alive p = false) as Ha by (by apply Z.ltb_ge).
  assert (move_player (dt_of dtMs) p = (p, false)) as Hm by (unfold move_player; by rewrite Ha).
  pose proof (step_players _ _ _ _ id Hs Hwf) as H. rewrite Hp in H. destruct H as (h & Hp' & Hdm & Hc).
  unfold moved in Hdm. rewrite Hm in Hdm, Hc. simpl in Hdm, Hc.
  assert (h = hp p) as ->.
  { destruct (decide (h = hp p)); [done|]. destruct Hdm as (_ & _ & _ & Hx). destruct (Hx n) as [? _]. congruence. }
  split_and!.
  - rewrite Hc. by intros [].
  - intros Hf. assert (fires id s (snd (step dtMs s))) as (q & Hq & Hw)%fires_wants by (by rewrite Hs); [|done].
    rewrite Hp in Hq. inv Hq. unfold wants_attack, alive, moved in Hw. simpl in Hw. rewrite Hm in Hw. simpl in Hw.
    unfold alive in Ha. by rewrite Ha in Hw.
  - eexists. split; [done|]. simpl. unfold acted. rewrite shoot_x, shoot_y. simpl. unfold moved. by rewrite Hm.
Qed.

Definition duel_dead : t :=
  mk (alter (set_hp 0) 1 (players_ duel_walk)) (projectiles_ duel_walk) [] (nextProjectileId_ duel_walk).

Lemma wf_duel_dead : wf duel_dead.
Proof.
  destruct (Inv_wf _ Inv_duel_walk) as [H1 H2]. split; [|exact H2]. intros id p. simpl.
  rewrite lookup_alter. case_decide as Hd; [|apply H1]. subst id.
  destruct (players_ duel_walk !! 1) as [q|] eqn:E; [|done]. intros [= <-]. by apply (H1 1 q).
Qed.

Lemma dead_players_are_inert_witness : 1 ∉ fst (duel_tick duel_dead).
Proof.
  refine (proj1 (dead_players_are_inert elements_order libm64 duel_dead 50 _ (snd (duel_tick duel_dead)) 1
    (mkP 1 (f32_of_Z 30) (f32_of_Z 50) 0 7 (f32_of_Z 0) (f32_of_Z 1) (f32_of_Z 0) walk_and_fire true) wf_duel_dead
    (surjective_pairing _) _ _)).
  - vm_compute. reflexivity.
  - simpl. lia.
Defined.



(** The segment-circle search is exact, in any iteration order: it
    selects a living player other than the owner within the radius of the
    segment such that no other such player is met earlier on the segment, and
    selects none only when there is none. *)
Theorem projectile_hits_first_target (HO : HashOrder) ps pr segX segY segLenSq :
  match find_hit ps pr segX segY segLenSq with
  | Some tid => exists q, ps !! tid = Some q /\ can_hit pr segX segY segLenSq tid q = true /\
      forall tid' q', ps !! tid' = Some q' -> can_hit pr segX segY segLenSq tid' q' = true ->
        fleb (closest_t pr segX segY segLenSq q) (closest_t pr segX segY segLenSq q') = true
  | None => forall tid q, ps !! tid = Some q -> can_hit pr segX segY segLenSq tid q = false
  end.
Proof.
  destruct (find_hit_best ps pr segX segY segLenSq) as [hitT Hb]. destruct (find_hit _ _ _ _ _) as [tid|].
  - destruct Hb as (q & Hq & Hc & -> & Hmin). exists q. split_and!; [done|done|]. intros tid' q' Hq' Hc'.
    apply fltb_false_fleb; [..|eapply Hmin; [apply elem_of_hash_order_dom; eauto|done|done]];
      eauto using finite_num, can_hit_t_finite.
  - destruct Hb as [_ Hno]. intros tid q Hq. eapply Hno; [apply elem_of_hash_order_dom; eauto|done].
Qed.

(** A player fires at most once in ten ticks of 50 ms: after a tick in
    which he fires, nine more ticks must pass before the one in which he
    fires again, whatever inputs arrive in between. *)
Theorem fire_rate (HO HO' : HashOrder) (LM LM' : Libm) s0 s2 id n :
  wf s0 -> fires id s0 (snd (@step HO LM 50 s0)) ->
  ticks50 n (snd (@step HO LM 50 s0)) s2 -> fires id s2 (snd (@step HO' LM' 50 s2)) ->
  (9 <= n)%nat.
Proof.
  intros Hwf Hf Ht Hf2. destruct (decide (9 <= n)%nat) as [?|Hn]; [done|exfalso].
  apply fires_cooling in Hf; [|done]. pose proof (cooling_ticks id n _ _ Ht ltac:(lia) Hf) as [Hwf2 Hc].
  apply fires_wants in Hf2 as (p & Hp & Hw); [|done]. specialize (Hc p Hp).
  rewrite (cd_is_blocks (10 - n - 1)) in Hw; [done|lia|]. apply decay_cd_is; [lia|].
  unfold cd_is. by rewrite moved_cd.
Qed.

Fixpoint duel_ticks (n : nat) (s : t) : t :=
  match n with O => s | S n => snd (duel_tick (duel_ticks n s)) end.

Lemma ticks50_duel n s : ticks50 n s (duel_ticks n s).
Proof. induction n; [constructor|]. cbn [duel_ticks]. by constructor. Qed.

Lemma fires_duel_tick id s pid :
  match projectiles_ (snd (duel_tick s)) !! pid with Some pr => ownerId pr =? id | None => false end = true ->
  (nextProjectileId_ s <=? pid) = true -> fires id s (snd (duel_tick s)).
Proof.
  intros H1 H2. destruct (projectiles_ _ !! pid) as [pr|] eqn:E; [|done]. b2p. by exists pid, pr.
Qed.

Lemma duel_fires_first : fires 1 duel_walk (snd (duel_tick duel_walk)).
Proof. apply (fires_duel_tick _ _ 1); vm_compute; reflexivity. Qed.

Lemma duel_fires_again : fires 1 (duel_ticks 10 duel_walk) (snd (duel_tick (duel_ticks 10 duel_walk))).
Proof. apply (fires_duel_tick _ _ 2); vm_compute; reflexivity. Qed.

Lemma duel_ticks_add m n s : duel_ticks (m + n) s = duel_ticks m (duel_ticks n s).
Proof. induction m; simpl; congruence. Qed.

Lemma duel_ticks50 n s : ticks50 n (snd (duel_tick s)) (duel_ticks (n + 1) s).
Proof. rewrite duel_ticks_add. apply ticks50_duel. Qed.

Lemma duel_nine_ticks : ticks50 9 (snd (duel_tick duel_walk)) (duel_ticks 10 duel_walk).
Proof. replace 10%nat with (9 + 1)%nat by lia. apply duel_ticks50. Qed.

Lemma fire_rate_witness :
  fires 1 duel_walk (snd (duel_tick duel_walk)) /\
  fires 1 (duel_ticks 10 duel_walk) (snd (duel_tick (duel_ticks 10 duel_walk))) /\ (9 <= 9)%nat.
Proof.
  split; [exact duel_fires_first|split; [exact duel_fires_again|]].
  exact (fire_rate elements_order elements_order libm64 libm64 duel_walk (duel_ticks 10 duel_walk) 1 9
           (Inv_wf _ Inv_duel_walk) duel_fires_first duel_nine_ticks duel_fires_again).
Defined.

(** [winnerOrZero] is the last survivor: it returns [w <> 0] exactly when
    [w] is the only living player, in any iteration order; when several or
    no players live it returns 0. *)
Theorem winner_is_last_survivor (HO : HashOrder) s w :
  w <> 0 -> winnerOrZero s = w <-> forall id, is_alive s id = true <-> id = w.
Proof.
  intros Hw. rewrite winner_fold. set (al := filter _ _).
  assert (forall id, id ∈ al <-> is_alive s id = true) as Hin.
  { intros id. unfold al. rewrite list_elem_of_filter, elem_of_hash_order_dom. split; [by intros []|].
    intros H. split; [done|]. unfold is_alive in H. destruct (players_ s !! id); [eauto|done]. }
  assert (NoDup al) as Hnd by (apply NoDup_filter, NoDup_hash_order). clearbody al. split.
  - destruct al as [|x [|y al]]; try done. intros ->. intros id. rewrite <- Hin. apply list_elem_of_singleton.
  - intros H. assert (forall id, id ∈ al <-> id = w) as Hal by (intros id; by rewrite Hin).
    destruct al as [|x [|y al]].
    + exfalso. eapply not_elem_of_nil. by apply (Hal w).
    + symmetry. apply list_elem_of_singleton. by apply Hal.
    + exfalso. apply NoDup_cons in Hnd as [Hnd _]. apply Hnd.
      assert (x = w) as -> by (apply Hal; left). assert (y = w) as -> by (apply Hal; right; left). left.
Qed.

Lemma winner_is_last_survivor_witness :
  2 <> 0 /\ (@winnerOrZero elements_order duel_dead = 2 <-> forall id, is_alive duel_dead id = true <-> id = 2) /\
  @winnerOrZero elements_order duel_dead = 2.
Proof.
  split; [lia|]. split; [|vm_compute; reflexivity].
  apply (winner_is_last_survivor elements_order duel_dead 2). lia.
Defined.

End BattleSim.
