(* ===== verification/LoopPool.v ===== *)
(** * The thread pool of event loops ([src/src/net/EventLoopThreadPool.h], [.cc])

    [start] creates one event loop per thread; [getNextLoop] hands them out in
    turn, or the base loop when the pool has no thread. A loop is its number in
    creation order; the base loop is [None]. *)

From stdpp Require Import base list.
From Stdlib Require Import ZArith Lia.
From S2P Require Import Prelude.

Module EventLoopThreadPool.

Local Open Scope Z_scope.

Definition loop : Type := option Z.

Record t : Type := mk {
  loops_ : list Z;
  next_ : Z;
}.

Definition init : t := mk [] 0.

(** The loop ids are those the threads return; [start] appends [numThreads] of
    them (none when [numThreads] is not positive). *)
Definition start (numThreads : Z) (p : t) : t :=
  mk (loops_ p ++ map Z.of_nat (List.seq (length (loops_ p)) (Z.to_nat numThreads))) (next_ p).

(** Indexing past the end is undefined behaviour. *)
Definition getNextLoop (p : t) : res (loop * t) :=
  match loops_ p with
  | [] => Ok (None, p)
  | _ =>
      match loops_ p !! Z.to_nat (next_ p) with
      | None => UB
      | Some l => Ok (Some l, mk (loops_ p) (u64 (next_ p + 1) mod Z.of_nat (length (loops_ p))))
      end
  end.

Fixpoint getNextLoops (n : nat) (p : t) : res (list loop * t) :=
  match n with
  | O => Ok ([], p)
  | S n => (let! (l, p1) := getNextLoop p in
            let! (ls, p2) := getNextLoops n p1 in
            Ok (l :: ls, p2))%gs
  end.

Definition wf (p : t) : Prop :=
  Z.of_nat (length (loops_ p)) < 2 ^ 63 /\
  (loops_ p = [] \/ 0 <= next_ p < Z.of_nat (length (loops_ p))).

Lemma getNextLoop_wf p :
  wf p -> exists l p', getNextLoop p = Ok (l, p') /\ wf p' /\ loops_ p' = loops_ p.
Proof.
  intros [Hsz Hwf]. unfold getNextLoop. destruct (loops_ p) as [|x ls] eqn:E.
  { exists None, p. rewrite E. split_and!; [done|split; rewrite E; [done|by left]|done]. }
  destruct Hwf as [|Hn]; [done|]. destruct ((x :: ls) !! Z.to_nat (next_ p)) as [l|] eqn:El.
  - eexists _, _. split; [done|]. split; [|done]. split; [done|]. right. cbn [loops_ next_]. apply Z.mod_pos_bound. simpl. lia.
  - apply lookup_ge_None in El. lia.
Qed.

(** The [k]-th of [n] calls returns the loop [next_ + k] modulo the size. *)
Lemma getNextLoops_round_robin n p ls p' :
  wf p -> loops_ p <> [] -> getNextLoops n p = Ok (ls, p') ->
  length ls = n /\ loops_ p' = loops_ p /\
  forall k, (k < n)%nat ->
    ls !! k = Some (loops_ p !! Z.to_nat ((next_ p + Z.of_nat k) mod Z.of_nat (length (loops_ p)))).
Proof.
  revert p ls p'. induction n as [|n IH]; intros p ls p' Hwf Hne H; simpl in H.
  { inv H. split_and!; [done|done|lia]. }
  destruct (getNextLoop_wf p Hwf) as (l & p1 & H1 & Hwf1 & Hl1). rewrite H1 in H. simpl in H.
  destruct (getNextLoops n p1) as [[ls1 p2]|] eqn:E2; simpl in H; [|done]. inv H.
  destruct (IH p1 ls1 p' Hwf1) as (Hlen & Hl2 & Hk); [by rewrite Hl1|done|].
  destruct Hwf as [Hsz Hwf]. destruct Hwf as [|Hn]; [done|].
  unfold getNextLoop in H1. destruct (loops_ p) as [|x0 l0] eqn:El; [done|]. rewrite <- El in *.
  destruct (loops_ p !! Z.to_nat (next_ p)) as [x|] eqn:Ex; [|done]. inv H1. simpl in Hk, Hl2.
  split_and!; [by simpl; f_equal|congruence|]. intros [|k] Hlt; simpl.
  - rewrite Z.add_0_r, Z.mod_small, Ex by lia. done.
  - rewrite Hk by lia. rewrite u64_small by lia. do 3 f_equal.
    rewrite Zplus_mod_idemp_l. f_equal. lia.
Qed.

(** Round robin. On a pool started with [n > 0] threads, any number of
    calls of [getNextLoop] succeeds (no index is out of range) and the
    [k]-th call returns loop [k mod n]: consecutive connections or rooms
    go to different threads and every thread gets every [n]-th one. *)
Theorem loops_handed_out_round_robin (n : Z) (calls : nat) :
  0 < n < 2 ^ 31 ->
  exists ls p', getNextLoops calls (start n init) = Ok (ls, p') /\ length ls = calls /\
    forall k, (k < calls)%nat -> ls !! k = Some (Some (Z.of_nat k mod n)).
Proof.
  intros Hn. set (p := start n init).
  assert (loops_ p = map Z.of_nat (List.seq 0 (Z.to_nat n))) as Hl by done.
  assert (length (loops_ p) = Z.to_nat n) as Hlen by (rewrite Hl, length_map, length_seq; done).
  assert (wf p) as Hwf by (split; [lia|right; simpl; rewrite length_map, length_seq; lia]).
  assert (forall m q, wf q -> exists ls q', getNextLoops m q = Ok (ls, q')) as Htot.
  { clear. induction m as [|m IH]; intros q Hq; [by eexists _, _|]. simpl.
    destruct (getNextLoop_wf q Hq) as (l & q1 & -> & Hq1 & _). simpl.
    destruct (IH q1 Hq1) as (ls & q2 & ->). by eexists _, _. }
  destruct (Htot calls p Hwf) as (ls & p' & Hr). exists ls, p'. split; [done|].
  destruct (getNextLoops_round_robin calls p ls p' Hwf) as (H1 & _ & H2); [|done|].
  { intros E. rewrite E in Hlen. simpl in Hlen. lia. }
  split; [done|]. intros k Hk. rewrite H2 by done. f_equal. rewrite Hlen, Z2Nat.id by lia.
  change (next_ p) with 0. rewrite Z.add_0_l. rewrite Hl, list_lookup_fmap, lookup_seq_lt;
    pose proof (Z.mod_pos_bound (Z.of_nat k) n ltac:(lia)); [|lia]. simpl. f_equal. lia.
Qed.

Lemma loops_handed_out_round_robin_witness :
  exists ls p', getNextLoops 5 (start 2 init) = Ok (ls, p') /\ length ls = 5%nat /\
    forall k, (k < 5)%nat -> ls !! k = Some (Some (Z.of_nat k mod 2)).
Proof. apply (loops_handed_out_round_robin 2 5). lia. Defined.

End EventLoopThreadPool.
