(* ===== verification/TcpServer.v ===== *)
(** * The TCP server ([src/src/net/TcpServer.h], [TcpServer.cc])

    The connection table of a server; all of it runs on the base loop. A
    connection is its name with the IO loop it was given for life. The tasks
    posted to the IO loops are effects; [newConnection] is called by the
    acceptor, and the task of [removeConnection] once for every time a
    connection reports that it closed. *)

From stdpp Require Import base gmap sets list strings pretty.
From Stdlib Require Import ZArith Lia.
From S2P Require Import Prelude LoopPool.

Module TcpServer.

Local Open Scope Z_scope.
Import EventLoopThreadPool(loop, getNextLoop).

Record t : Type := mk {
  name_ : string;
  threadPool_ : EventLoopThreadPool.t;
  nextConnId_ : Z;
  connections_ : gmap string loop;
}.

Inductive effect : Type :=
  | PostEstablish (l : loop) (connName : string)
  | PostDestroy (l : loop) (connName : string).

(** The server after [start]. *)
Definition started (name : string) (threadNum : Z) : t :=
  mk name (EventLoopThreadPool.start threadNum EventLoopThreadPool.init) 1 ∅.

(** The name of the connection numbered [n] ([std::to_string] of an [int]). *)
Definition conn_name (server : string) (n : Z) : string := (server +:+ "-" +:+ pretty n)%string.

(** [nextConnId_++] overflows after [INT_MAX]. *)
Definition newConnection (s : t) : res (t * list effect) :=
  (let! (ioLoop, pool) := getNextLoop (threadPool_ s) in
   let connName := conn_name (name_ s) (nextConnId_ s) in
   if nextConnId_ s <? 2 ^ 31 - 1 then
     Ok (mk (name_ s) pool (nextConnId_ s + 1) (<[connName := ioLoop]> (connections_ s)), [PostEstablish ioLoop connName])
   else UB)%gs.

(** The task [removeConnection] runs on the base loop. *)
Definition removeConnection (c : string * loop) (s : t) : t * list effect :=
  (mk (name_ s) (threadPool_ s) (nextConnId_ s) (delete (fst c) (connections_ s)), [PostDestroy (snd c) (fst c)]).

(** The destructor: in the iteration order of the table. *)
Definition destroy (order : gmap string loop -> list (string * loop)) (s : t) : list effect :=
  map (fun c => PostDestroy (snd c) (fst c)) (order (connections_ s)).

Inductive event : Type := Accept | Closed (c : string * loop).

Definition exec (ev : event) (s : t) : res (t * list effect) :=
  match ev with
  | Accept => newConnection s
  | Closed c => Ok (removeConnection c s)
  end.

Fixpoint run (evs : list event) (s : t) : res (t * list effect) :=
  match evs with
  | [] => Ok (s, [])
  | ev :: evs' =>
      (let! (s1, e1) := exec ev s in
       let! (s2, e2) := run evs' s1 in
       Ok (s2, e1 ++ e2))%gs
  end.

(** ** Specification *)

#[global] Instance event_eq_dec : EqDecision event.
Proof. solve_decision. Defined.

Definition accepts (evs : list event) : Z := Z.of_nat (length (filter (fun ev => ev = Accept) evs)).

(** The [k]-th accepted connection (from 0) of a server with [n] IO threads. *)
Definition connection (name : string) (n k : Z) : string * loop := (conn_name name (k + 1), Some (k mod n)).

(** A connection is in the table from its acceptance to its first close. *)
Definition in_table (name : string) (n : Z) (evs : list event) (c : string * loop) : Prop :=
  exists evs1 evs2, evs = evs1 ++ Accept :: evs2 /\ c = connection name n (accepts evs1) /\
    forall c', Closed c' ∈ evs2 -> fst c' <> fst c.

#[global] Instance conn_name_inj name : Inj (=) (=) (conn_name name).
Proof.
  intros n m H. unfold conn_name in H. apply (inj (String.append name)), (inj (String.append "-")) in H. by apply (inj pretty) in H.
Qed.

Lemma accepts_app evs1 evs2 : accepts (evs1 ++ evs2) = accepts evs1 + accepts evs2.
Proof. unfold accepts. rewrite filter_app, length_app. lia. Qed.

(** The pool after [k] calls. *)
Definition pool (n k : Z) : EventLoopThreadPool.t :=
  EventLoopThreadPool.mk (map Z.of_nat (List.seq 0 (Z.to_nat n))) (k mod n).

Lemma getNextLoop_pool n k :
  0 < n < 2 ^ 31 -> 0 <= k -> getNextLoop (pool n k) = Ok (Some (k mod n), pool n (k + 1)).
Proof.
  intros Hn Hk. unfold getNextLoop, pool. cbn [EventLoopThreadPool.loops_ EventLoopThreadPool.next_].
  pose proof (Z.mod_pos_bound k n ltac:(lia)) as Hm.
  destruct (map Z.of_nat (List.seq 0 (Z.to_nat n))) as [|x ls] eqn:E.
  { apply (f_equal length) in E. rewrite length_map, length_seq in E. simpl in E. lia. }
  rewrite <- E, length_map, length_seq, list_lookup_fmap, lookup_seq_lt by lia. simpl. rewrite Z2Nat.id by lia.
  rewrite u64_small, Z2Nat.id, Zplus_mod_idemp_l by lia. done.
Qed.

Lemma server_run_app evs1 evs2 s :
  run (evs1 ++ evs2) s = (let! (s1, e1) := run evs1 s in let! (s2, e2) := run evs2 s1 in Ok (s2, e1 ++ e2))%gs.
Proof.
  revert s. induction evs1 as [|ev evs1 IH]; intros s; simpl.
  { by destruct (run evs2 s) as [[]|]. }
  destruct (exec ev s) as [[s1 e1]|]; simpl; [|done]. rewrite IH. destruct (run evs1 s1) as [[s2 e2]|]; simpl; [|done].
  destruct (run evs2 s2) as [[s3 e3]|]; simpl; [|done]. by rewrite (assoc_L (++)).
Qed.

Lemma in_table_accept name n evs nm l :
  in_table name n (evs ++ [Accept]) (nm, l) <->
  in_table name n evs (nm, l) \/ (nm, l) = connection name n (accepts evs).
Proof.
  split.
  - intros (evs1 & evs2 & He & Hc & Hcl). destruct evs2 as [|x evs2 _] using rev_ind.
    + apply app_inj_tail in He as [-> _]. by right.
    + rewrite app_comm_cons, app_assoc in He. apply app_inj_tail in He as [-> _]. left. exists evs1, evs2.
      split_and!; [done..|]. intros c' Hc'. apply Hcl, elem_of_app. by left.
  - intros [(evs1 & evs2 & -> & Hc & Hcl)|Hc].
    + exists evs1, (evs2 ++ [Accept]). split_and!; [by rewrite <- (assoc_L (++))|done|].
      intros c' [H|H]%elem_of_app; [by apply Hcl|]. by apply list_elem_of_singleton in H.
    + exists evs, []. split_and!; [done..|]. intros c' H. by apply not_elem_of_nil in H.
Qed.

Lemma in_table_closed name n evs c nm l :
  in_table name n (evs ++ [Closed c]) (nm, l) <-> in_table name n evs (nm, l) /\ fst c <> nm.
Proof.
  split.
  - intros (evs1 & evs2 & He & Hc & Hcl). destruct evs2 as [|x evs2 _] using rev_ind.
    + by apply app_inj_tail in He as [_ ?].
    + rewrite app_comm_cons, app_assoc in He. apply app_inj_tail in He as [-> <-]. split.
      * exists evs1, evs2. split_and!; [done..|]. intros c' Hc'. apply Hcl, elem_of_app. by left.
      * apply (Hcl c), elem_of_app. right. by apply list_elem_of_singleton.
  - intros [(evs1 & evs2 & -> & Hc & Hcl) Hne]. exists evs1, (evs2 ++ [Closed c]).
    split_and!; [by rewrite <- (assoc_L (++))|done|].
    intros c' [H|H]%elem_of_app; [by apply Hcl|]. apply list_elem_of_singleton in H. by inv H.
Qed.

(** A name that is not given yet is not in the table. *)
Lemma in_table_old name n evs nm l : in_table name n evs (nm, l) -> nm <> conn_name name (accepts evs + 1).
Proof.
  intros (evs1 & evs2 & -> & Hc & _) H. apply pair_equal_spec in Hc as [-> _]. apply (inj (conn_name name)) in H. rewrite accepts_app in H.
  unfold accepts in H. rewrite filter_cons_True in H by done. simpl in H. lia.
Qed.

Lemma accepts_nonneg evs : 0 <= accepts evs.
Proof. unfold accepts. lia. Qed.

Lemma run_spec name n evs :
  0 < n < 2 ^ 31 -> accepts evs < 2 ^ 31 - 1 ->
  exists s tr, run evs (started name n) = Ok (s, tr) /\
    (name_ s = name /\ threadPool_ s = pool n (accepts evs) /\ nextConnId_ s = accepts evs + 1) /\
    (forall nm l, connections_ s !! nm = Some l <-> in_table name n evs (nm, l)) /\
    (forall k, 0 <= k < accepts evs -> PostEstablish (snd (connection name n k)) (fst (connection name n k)) ∈ tr).
Proof.
  intros Hn. induction evs as [|ev evs IH] using rev_ind; intros Hmax.
  { eexists _, _. split; [done|]. split_and!; [done| |done| |].
    - unfold pool, accepts. simpl. by rewrite Z.mod_0_l by lia.
    - intros nm l. simpl. rewrite lookup_empty. split; [done|]. by intros ([] & ? & ? & _).
    - intros k Hk. unfold accepts in Hk. simpl in Hk. lia. }
  pose proof (accepts_nonneg evs). rewrite accepts_app in *.
  destruct ev as [|c].
  - change (accepts [Accept]) with 1 in *. destruct IH as (s & tr & Hr & (Hname & Hp & Hid) & Ht & He); [lia|].
    rewrite server_run_app, Hr. simpl. unfold newConnection. rewrite Hp, getNextLoop_pool by (lia || done). simpl. rewrite Hid, Hname.
    destruct (Z.ltb_spec (accepts evs + 1) (2 ^ 31 - 1)); [|lia]. simpl. eexists _, _. split; [done|]. split_and!; [done|done|done| |].
    + intros nm l. simpl. rewrite in_table_accept, <- Ht, lookup_insert_Some. unfold connection. split.
      * intros [[<- <-]|[_ ?]]; auto.
      * intros [Hl|[= -> ->]]; [|by left]. right. split; [|done]. apply Ht, in_table_old in Hl. congruence.
    + intros k Hk. apply elem_of_app. destruct (decide (k < accepts evs)); [left; apply He; lia|].
      right. replace k with (accepts evs) by lia. by constructor.
  - change (accepts [Closed c]) with 0 in *. rewrite Z.add_0_r in *. destruct IH as (s & tr & Hr & (Hname & Hp & Hid) & Ht & He); [lia|].
    rewrite server_run_app, Hr. simpl. eexists _, _. split; [done|]. split_and!; [done..| |].
    + intros nm l. simpl. rewrite in_table_closed, <- Ht, lookup_delete_Some. tauto.
    + intros k Hk. apply elem_of_app. left. by apply He.
Qed.

(** The connection table. A server with [n > 0] IO threads gives its [k]-th
    connection (from 0) the name [name-(k+1)] and the IO loop [k mod n], posts
    its establishment to that loop, and keeps it in the table until the first
    time it reports that it closed; names are not used twice. This holds until
    [INT_MAX] connections were accepted, with any order of accepts and closes,
    also when a connection reports its end more than once. *)
Theorem connection_table_exact (name : string) (n : Z) (evs : list event) :
  0 < n < 2 ^ 31 -> accepts evs < 2 ^ 31 - 1 ->
  exists s tr, run evs (started name n) = Ok (s, tr) /\
    (forall nm l, connections_ s !! nm = Some l <-> in_table name n evs (nm, l)) /\
    (forall k, 0 <= k < accepts evs ->
       PostEstablish (snd (connection name n k)) (fst (connection name n k)) ∈ tr).
Proof.
  intros Hn Hmax. destruct (run_spec name n evs Hn Hmax) as (s & tr & Hr & _ & Ht & He). by exists s, tr.
Qed.

Lemma connection_table_exact_witness :
  exists s tr, run [Accept; Accept; Closed ("echo-1", Some 0); Accept; Closed ("echo-1", Some 0)] (started "echo" 2) = Ok (s, tr) /\
    (forall nm l, connections_ s !! nm = Some l <->
       in_table "echo" 2 [Accept; Accept; Closed ("echo-1", Some 0); Accept; Closed ("echo-1", Some 0)] (nm, l)) /\
    (forall k, 0 <= k < 3 -> PostEstablish (snd (connection "echo" 2 k)) (fst (connection "echo" 2 k)) ∈ tr).
Proof.
  apply (connection_table_exact "echo" 2 [Accept; Accept; Closed ("echo-1", Some 0); Accept; Closed ("echo-1", Some 0)]).
  - lia.
  - vm_compute. reflexivity.
Defined.

End TcpServer.
