(* ===== verification/Room.v ===== *)
(** * The battle room ([src/src/game/Room.h], [Room.cc])

    A room owns a [BattleSim] and the connections of its players and runs on
    one event loop: its member functions are executed one after the other on
    that thread. The room talks to the outside by sending messages, by posting
    the destruction of its ticker to its loop and by calling [onEnd_]; these are
    the [effect]s a member function returns, in program order.

    A connection is the number [TcpServer] gave it ([nextConnId_]); a null
    [TcpConnectionPtr] is [None]. [broadcast] encodes once and sends the bytes,
    [codec_->send] encodes per call: both put the same frame on the connection
    and are the effect [Send]. *)

From stdpp Require Import base gmap sets list sorting relations.
From Stdlib Require Import ZArith Lia.
From Stdlib Require Import Floats.SpecFloat.
From S2P Require Import Prelude Codec Float32 Proto BattleSim.

Module Room.

Local Open Scope Z_scope.

Definition conn : Type := Z.

Definition kTickMs : Z := 50.

Record t : Type := mk {
  id_ : Z;
  sim_ : BattleSim.t;
  conns_ : gmap Z (option conn);
  ticker_ : bool;
  tick_ : Z;
  ended_ : bool;
}.

Inductive effect : Type :=
  | Send (c : conn) (m : server_msg)
  | PostTickerReset
  | OnEnd (roomId winnerId : Z).

Definition set_sim (s : BattleSim.t) (r : t) : t :=
  mk (id_ r) s (conns_ r) (ticker_ r) (tick_ r) (ended_ r).

Definition set_conns (cs : gmap Z (option conn)) (r : t) : t :=
  mk (id_ r) (sim_ r) cs (ticker_ r) (tick_ r) (ended_ r).

Definition set_ticker (b : bool) (r : t) : t :=
  mk (id_ r) (sim_ r) (conns_ r) b (tick_ r) (ended_ r).

Definition set_tick (n : Z) (r : t) : t :=
  mk (id_ r) (sim_ r) (conns_ r) (ticker_ r) n (ended_ r).

Definition set_ended (b : bool) (r : t) : t :=
  mk (id_ r) (sim_ r) (conns_ r) (ticker_ r) (tick_ r) b.

(** [xs[i % 2]] *)
Definition spawn_x (i : Z) : f32 := if i mod 2 =? 0 then f32_of_Z 30 else f32_of_Z 70.

(** The constructor. *)
Definition make (id : Z) (players : list (Z * option conn)) : t :=
  let '(sim, conns, _) :=
    foldl (fun '(sim, conns, i) '(pid, c) =>
             (BattleSim.addPlayer pid (spawn_x i) (f32_of_Z 50) sim, <[pid := c]> conns, i + 1))
          (BattleSim.init, ∅, 0) players in
  mk id sim conns false 0 false.

Section Operations.
Context {HO : HashOrder} {LM : Libm}.

Definition send_opt (c : option conn) (m : server_msg) : list effect :=
  match c with Some c => [Send c m] | None => [] end.

Definition broadcast (m : server_msg) (r : t) : list effect :=
  flat_map (fun pid => match conns_ r !! pid with Some c => send_opt c m | None => [] end)
           (hash_order CConns (dom (conns_ r))).

Definition full_snapshot (r : t) : StateSnapshot :=
  mkStateSnapshot (tick_ r) true
    (map (fun pid => BattleSim.fillState (sim_ r) pid default_PlayerState) (BattleSim.playerIds (sim_ r)))
    (map (fun pid => BattleSim.fillProjectileState (sim_ r) pid default_ProjectileState)
         (BattleSim.projectileIds (sim_ r)))
    [].

Definition sendFullSnapshot (c : option conn) (r : t) : list effect :=
  send_opt c (MStateSnapshot (full_snapshot r)).

Definition enter_room (r : t) : server_msg := MEnterRoom (id_ r) (BattleSim.playerIds (sim_ r)).

Definition start (r : t) : t * list effect :=
  (set_ticker true r,
   broadcast (enter_room r) r ++
   flat_map (fun pid => match conns_ r !! pid with Some c => sendFullSnapshot c r | None => [] end)
            (hash_order CConns (dom (conns_ r)))).

Definition onInput (pid : Z) (i : PlayerInput) (r : t) : t * list effect :=
  if ended_ r then (r, []) else (set_sim (BattleSim.applyInput pid i (sim_ r)) r, []).

Definition rebind (pid : Z) (c : conn) (r : t) : t * list effect :=
  match conns_ r !! pid with
  | None => (r, [])
  | Some _ =>
      let r1 := set_conns (<[pid := Some c]> (conns_ r)) r in
      (r1, Send c (enter_room r1) :: sendFullSnapshot (Some c) r1)
  end.

Definition dropConn (pid : Z) (r : t) : t * list effect :=
  match conns_ r !! pid with
  | None => (r, [])
  | Some _ => (set_conns (<[pid := None]> (conns_ r)) r, [])
  end.

Definition endBattle (winnerId : Z) (r : t) : t * list effect :=
  let r1 := set_ended true r in
  (r1, broadcast (MBattleEnd winnerId) r1 ++ [PostTickerReset; OnEnd (id_ r1) winnerId]).

Definition forceEnd (winnerId : Z) (r : t) : t * list effect :=
  if ended_ r then (r, []) else endBattle winnerId r.

Definition stop (r : t) : t * list effect := (set_ticker false (set_ended true r), []).

(** The increment of one tick. *)
Definition delta_snapshot (tick : Z) (changed projectiles removed : list Z) (s : BattleSim.t) : StateSnapshot :=
  mkStateSnapshot tick false
    (map (fun pid => BattleSim.fillState s pid default_PlayerState) changed)
    (map (fun pid => BattleSim.fillProjectileState s pid default_ProjectileState) projectiles)
    removed.

(** The broadcast of [onTick], from the room after the step. *)
Definition tick_output (changed projectiles removed : list Z) (r : t) : list effect :=
  match changed, projectiles, removed with
  | [], [], [] => []
  | _, _, _ => broadcast (MStateSnapshot (delta_snapshot (tick_ r) changed projectiles removed (sim_ r))) r
  end.

Definition onTick (r : t) : t * list effect :=
  if ended_ r then (r, [])
  else
    let tick := u32 (tick_ r + 1) in
    let (changed, sim1) := BattleSim.step kTickMs (sim_ r) in
    let projectiles := BattleSim.projectileIds sim1 in
    let (removed, sim2) := BattleSim.takeRemovedProjectileIds sim1 in
    let r1 := set_sim sim2 (set_tick tick r) in
    let out := tick_output changed projectiles removed r1 in
    let w := BattleSim.winnerOrZero sim2 in
    if w =? 0 then (r1, out)
    else let (r2, e) := endBattle w r1 in (r2, out ++ e).

(** What the room's loop runs: the tasks posted by the lobby, the ticker's
    callback, and the task posted by [endBattle]. *)
Inductive action : Type :=
  | AStart
  | AInput (pid : Z) (i : PlayerInput)
  | ARebind (pid : Z) (c : conn)
  | ADrop (pid : Z)
  | AForceEnd (winnerId : Z)
  | AStop
  | ATick
  | ATickerReset.

Definition exec (a : action) (r : t) : t * list effect :=
  match a with
  | AStart => start r
  | AInput pid i => onInput pid i r
  | ARebind pid c => rebind pid c r
  | ADrop pid => dropConn pid r
  | AForceEnd w => forceEnd w r
  | AStop => stop r
  | ATick => if ticker_ r then onTick r else (r, [])
  | ATickerReset => (set_ticker false r, [])
  end.

End Operations.

(** A run of the room with the actions it executed and the effects it had; the
    hash order and [hypot] may differ at each action. *)
Inductive run : t -> list action -> list effect -> t -> Prop :=
  | run_nil r : run r [] [] r
  | run_step r a r1 e as' tr r2 (HO : HashOrder) (LM : Libm) :
      exec a r = (r1, e) -> run r1 as' tr r2 -> run r (a :: as') (e ++ tr) r2.

(** ** The replicated state

    What a client knows of a battle, and how it applies a snapshot: a full one
    replaces everything, an increment updates the listed players and
    projectiles and deletes the removed projectiles. *)

Record view : Type := mkView {
  v_players : gmap Z (f32 * f32 * Z);
  v_projectiles : gmap Z ProjectileState;
}.

Definition apply_snapshot (v : view) (s : StateSnapshot) : view :=
  let v0 := if ss_full s then mkView ∅ ∅ else v in
  mkView
    (foldl (fun m p => <[ps_player_id p := (ps_x p, ps_y p, ps_hp p)]> m) (v_players v0) (ss_players s))
    (foldl (fun m q => <[pj_projectile_id q := q]> m)
           (foldl (fun m pid => delete pid m) (v_projectiles v0) (ss_removed_projectile_ids s))
           (ss_projectiles s)).

Definition client_recv (v : view) (m : server_msg) : view :=
  match m with MStateSnapshot s => apply_snapshot v s | _ => v end.

(** The messages a trace sends on connection [c]. *)
Definition msgs_to (c : conn) (tr : list effect) : list server_msg :=
  omap (fun e => match e with Send c' m => if c' =? c then Some m else None | _ => None end) tr.

Definition replay (c : conn) (tr : list effect) (v : view) : view := foldl client_recv v (msgs_to c tr).

(** What there is to know. *)
Definition view_of (s : BattleSim.t) : view :=
  mkView ((fun p => (BattleSim.p_x p, BattleSim.p_y p, BattleSim.hp p)) <$> BattleSim.players_ s)
         ((fun q => mkProjectileState (BattleSim.pr_id q) (BattleSim.ownerId q) (BattleSim.pr_x q) (BattleSim.pr_y q)
                      (BattleSim.vx q) (BattleSim.vy q)) <$> BattleSim.projectiles_ s).

(** ** Lemmas on views *)

Lemma foldl_insert_map {A B} (f : Z -> A) (key : A -> Z) (val : A -> B) (l : list Z) (m : gmap Z B) k :
  (forall x, x ∈ l -> key (f x) = x) ->
  foldl (fun m a => <[key a := val a]> m) m (map f l) !! k =
    if bool_decide (k ∈ l) then Some (val (f k)) else m !! k.
Proof.
  induction l as [|x l IH] using rev_ind; intros Hk; [done|].
  rewrite map_app, foldl_app. cbn [map foldl]. rewrite Hk by set_solver.
  assert (forall x, x ∈ l -> key (f x) = x) as Hk' by (intros; apply Hk; set_solver). specialize (IH Hk').
  destruct (decide (k = x)) as [->|Hne].
  - rewrite lookup_insert_eq, bool_decide_eq_true_2 by set_solver. done.
  - rewrite lookup_insert_ne, IH by done. erewrite bool_decide_ext; [done|]. set_solver.
Qed.

Lemma foldl_delete {B} (l : list Z) (m : gmap Z B) k :
  foldl (fun m x => delete x m) m l !! k = if bool_decide (k ∈ l) then None else m !! k.
Proof.
  induction l as [|x l IH] using rev_ind; [done|]. rewrite foldl_app. cbn [foldl].
  destruct (decide (k = x)) as [->|Hne].
  - rewrite lookup_delete_eq, bool_decide_eq_true_2 by set_solver. done.
  - rewrite lookup_delete_ne, IH by done. erewrite bool_decide_ext; [done|]. set_solver.
Qed.

Lemma view_ext v v' :
  (forall k, v_players v !! k = v_players v' !! k) ->
  (forall k, v_projectiles v !! k = v_projectiles v' !! k) -> v = v'.
Proof. destruct v, v'. simpl. intros H1%map_eq H2%map_eq. by subst. Qed.

Section Views.
Context {HO : HashOrder}.

Lemma fillState_key s pid p :
  BattleSim.wf s -> BattleSim.players_ s !! pid = Some p ->
  BattleSim.fillState s pid default_PlayerState =
    mkPlayerState pid (BattleSim.p_x p) (BattleSim.p_y p) (BattleSim.hp p) (BattleSim.seq p).
Proof. intros Hwf Hp. unfold BattleSim.fillState. rewrite Hp. by rewrite (BattleSim.wf_ids s Hwf pid p Hp). Qed.

Lemma fillProjectileState_key s pid q :
  BattleSim.wf s -> BattleSim.projectiles_ s !! pid = Some q ->
  BattleSim.fillProjectileState s pid default_ProjectileState =
    mkProjectileState pid (BattleSim.ownerId q) (BattleSim.pr_x q) (BattleSim.pr_y q) (BattleSim.vx q) (BattleSim.vy q).
Proof.
  intros Hwf Hp. unfold BattleSim.fillProjectileState. rewrite Hp.
  by destruct (BattleSim.wf_pids s Hwf pid q Hp) as [-> _].
Qed.

(** The players and projectiles of a view after a snapshot that lists the
    players [ids] and the projectiles [pids] of [s]. *)
Lemma apply_players s ids (m : gmap Z (f32 * f32 * Z)) k :
  BattleSim.wf s -> (forall x, x ∈ ids -> is_Some (BattleSim.players_ s !! x)) ->
  foldl (fun m p => <[ps_player_id p := (ps_x p, ps_y p, ps_hp p)]> m) m
        (map (fun pid => BattleSim.fillState s pid default_PlayerState) ids) !! k =
    if bool_decide (k ∈ ids) then v_players (view_of s) !! k else m !! k.
Proof.
  intros Hwf Hids. rewrite (foldl_insert_map _ ps_player_id (fun p => (ps_x p, ps_y p, ps_hp p))).
  - destruct (bool_decide (k ∈ ids)) eqn:E; [|done]. b2p. destruct (Hids k E) as [p Hp].
    simpl. by rewrite (fillState_key s k p), lookup_fmap, Hp.
  - intros x [p Hp]%Hids. by rewrite (fillState_key s x p).
Qed.

Lemma apply_projectiles s pids (m : gmap Z ProjectileState) k :
  BattleSim.wf s -> (forall x, x ∈ pids -> is_Some (BattleSim.projectiles_ s !! x)) ->
  foldl (fun m q => <[pj_projectile_id q := q]> m) m
        (map (fun pid => BattleSim.fillProjectileState s pid default_ProjectileState) pids) !! k =
    if bool_decide (k ∈ pids) then v_projectiles (view_of s) !! k else m !! k.
Proof.
  intros Hwf Hids. rewrite (foldl_insert_map _ pj_projectile_id (fun q => q)).
  - destruct (bool_decide (k ∈ pids)) eqn:E; [|done]. b2p. destruct (Hids k E) as [q Hq].
    simpl. rewrite (fillProjectileState_key s k q), lookup_fmap, Hq by done. simpl.
    by destruct (BattleSim.wf_pids s Hwf k q Hq) as [-> _].
  - intros x [q Hq]%Hids. by rewrite (fillProjectileState_key s x q).
Qed.

(** A full snapshot determines the view. *)
Lemma apply_full_snapshot r v : BattleSim.wf (sim_ r) -> apply_snapshot v (full_snapshot r) = view_of (sim_ r).
Proof.
  intros Hwf. apply view_ext; intros k; cbn [apply_snapshot full_snapshot ss_full ss_players ss_projectiles
    ss_removed_projectile_ids v_players v_projectiles foldl].
  - rewrite apply_players; [|done|intros x; apply elem_of_hash_order_dom].
    destruct (bool_decide _) eqn:E; [done|]. b2p. unfold BattleSim.playerIds in E.
    rewrite elem_of_hash_order_dom, <- eq_None_not_Some in E. simpl. by rewrite lookup_fmap, E, lookup_empty.
  - rewrite apply_projectiles; [|done|intros x; apply elem_of_hash_order_dom].
    destruct (bool_decide _) eqn:E; [done|]. b2p. unfold BattleSim.projectileIds in E.
    rewrite elem_of_hash_order_dom, <- eq_None_not_Some in E. simpl. by rewrite lookup_fmap, E, lookup_empty.
Qed.

End Views.

Section Deltas.
Context {HO : HashOrder} {LM : Libm}.

(** A player that [step] does not report keeps his position and hp. *)
Lemma step_unreported dtMs s ch s' k :
  BattleSim.wf s -> BattleSim.step dtMs s = (ch, s') -> k ∉ ch ->
  v_players (view_of s') !! k = v_players (view_of s) !! k.
Proof.
  intros Hwf Hs Hk. pose proof (BattleSim.step_players _ _ _ _ k Hs Hwf) as H. simpl. rewrite !lookup_fmap.
  destruct (BattleSim.players_ s !! k) as [p|]; [|destruct H as [H _]; by rewrite H].
  destruct H as (h & Hp & _ & Hc). rewrite Hp. simpl. unfold BattleSim.acted.
  rewrite BattleSim.shoot_x, BattleSim.shoot_y. simpl.
  destruct (decide (h = BattleSim.hp p)) as [->|]; [|exfalso; apply Hk, Hc; by right].
  destruct (snd (BattleSim.move_player (BattleSim.dt_of dtMs) p)) eqn:Em; [exfalso; apply Hk, Hc; by left|].
  by destruct (BattleSim.moved_still _ _ Em) as [-> ->].
Qed.

(** An increment takes the view of the state before a step to the view of the
    state after it. *)
Lemma apply_delta dtMs s ch s' tick :
  BattleSim.wf s -> BattleSim.step dtMs s = (ch, s') ->
  apply_snapshot (view_of s)
    (delta_snapshot tick ch (BattleSim.projectileIds s') (BattleSim.removedProjectileIds_ s')
       (snd (BattleSim.takeRemovedProjectileIds s'))) = view_of s'.
Proof.
  intros Hwf Hs. pose proof (BattleSim.wf_step _ _ _ _ Hs Hwf) as Hwf'.
  pose proof (BattleSim.wf_take _ Hwf') as Hwf2.
  apply view_ext; intros k; cbn [apply_snapshot delta_snapshot ss_full ss_players ss_projectiles
    ss_removed_projectile_ids v_players v_projectiles].
  - rewrite apply_players; [|done|].
    + destruct (bool_decide _) eqn:E; [done|]. b2p. symmetry. by eapply step_unreported.
    + intros x Hx. pose proof (BattleSim.step_players _ _ _ _ x Hs Hwf) as H.
      destruct (BattleSim.players_ s !! x); [destruct H as (h & H & _); eauto|by destruct H].
  - rewrite apply_projectiles; [|done|intros x; apply elem_of_hash_order_dom].
    destruct (bool_decide _) eqn:E; [done|]. b2p. unfold BattleSim.projectileIds in E.
    rewrite elem_of_hash_order_dom, <- eq_None_not_Some in E. rewrite foldl_delete. simpl.
    rewrite !lookup_fmap, E. simpl. destruct (bool_decide (k ∈ _)) eqn:Er; [done|]. b2p.
    destruct (BattleSim.step_projectiles _ _ _ _ Hs Hwf) as (_ & _ & _ & Hold & _).
    destruct (BattleSim.projectiles_ s !! k) as [q|] eqn:Eq; [|done]. exfalso.
    destruct (BattleSim.wf_pids s Hwf _ _ Eq) as [_ Hlt]. specialize (Hold k Er Hlt). rewrite Eq in Hold.
    destruct Hold as (? & ? & _). congruence.
Qed.

(** A tick without an increment changes nothing a client sees. *)
Lemma apply_no_delta dtMs s s' :
  BattleSim.wf s -> BattleSim.step dtMs s = ([], s') -> BattleSim.projectileIds s' = [] ->
  BattleSim.removedProjectileIds_ s' = [] -> view_of s' = view_of s.
Proof.
  intros Hwf Hs Hp Hr. rewrite <- (apply_delta _ _ _ _ 0 Hwf Hs). rewrite Hp, Hr. by destruct (view_of s).
Qed.

End Deltas.

(** ** The messages of one connection *)

(** [c] is the connection of [pid] and of nobody else in the room. *)
Definition bound (pid : Z) (c : conn) (r : t) : Prop :=
  forall pid', conns_ r !! pid' = Some (Some c) <-> pid' = pid.

(** The actions that leave [pid] on connection [c]. *)
Definition keeps (pid : Z) (c : conn) (a : action) : Prop :=
  match a with
  | ADrop pid' => pid' <> pid
  | ARebind pid' c' => pid' = pid <-> c' = c
  | _ => True
  end.

Lemma msgs_to_app c e1 e2 : msgs_to c (e1 ++ e2) = msgs_to c e1 ++ msgs_to c e2.
Proof. unfold msgs_to. apply omap_app. Qed.

Lemma replay_app c e1 e2 v : replay c (e1 ++ e2) v = replay c e2 (replay c e1 v).
Proof. unfold replay. by rewrite msgs_to_app, foldl_app. Qed.

Section Broadcast.
Context {HO : HashOrder}.

(** A broadcast reaches a bound connection exactly once. *)
Lemma msgs_to_broadcast pid c m r : bound pid c r -> msgs_to c (broadcast m r) = [m].
Proof.
  intros Hb. unfold broadcast.
  assert (pid ∈ hash_order CConns (dom (conns_ r))) as Hin by (apply elem_of_hash_order_dom; eexists; by apply Hb).
  pose proof (NoDup_hash_order CConns (dom (conns_ r))) as Hnd.
  induction (hash_order CConns (dom (conns_ r))) as [|x l IH]; [by apply not_elem_of_nil in Hin|].
  apply NoDup_cons in Hnd as [Hx Hnd]. cbn [flat_map]. rewrite msgs_to_app.
  assert (forall l, pid ∉ l -> msgs_to c (flat_map (fun pid => match conns_ r !! pid with
    Some c => send_opt c m | None => [] end) l) = []) as Hout.
  { clear -Hb. induction l as [|x l IH]; [done|]. intros [Hne Hl]%not_elem_of_cons. cbn [flat_map].
    rewrite msgs_to_app, IH, app_nil_r by done. destruct (conns_ r !! x) as [[c'|]|] eqn:E; try done.
    unfold msgs_to. simpl. destruct (Z.eqb_spec c' c) as [->|]; [|done]. apply Hb in E. congruence. }
  apply elem_of_cons in Hin as [<-|Hin].
  - rewrite (proj2 (Hb pid) eq_refl), Hout by done. unfold msgs_to. simpl. by rewrite Z.eqb_refl.
  - rewrite IH by done. destruct (conns_ r !! x) as [[c'|]|] eqn:E; try done. unfold msgs_to. simpl.
    destruct (Z.eqb_spec c' c) as [->|]; [|done]. apply Hb in E. congruence.
Qed.

Lemma replay_broadcast pid c m r v : bound pid c r -> replay c (broadcast m r) v = client_recv v m.
Proof. intros Hb. unfold replay. by rewrite (msgs_to_broadcast pid). Qed.

Lemma start_effects r :
  snd (start r) = broadcast (enter_room r) r ++ broadcast (MStateSnapshot (full_snapshot r)) r.
Proof. done. Qed.

End Broadcast.

Section Sync.
Context {HO : HashOrder} {LM : Libm}.

Lemma bound_exec pid c a r r1 e : exec a r = (r1, e) -> bound pid c r -> keeps pid c a -> bound pid c r1.
Proof.
  intros He Hb Hk. destruct a as [|p i|p c'|p|w| | |]; simpl in He.
  - by inv He.
  - unfold onInput in He. destruct (ended_ r); by inv He.
  - unfold rebind in He. destruct (conns_ r !! p) as [o|] eqn:E; inv He; [|done]. intros pid'. simpl in *.
    destruct (decide (pid' = p)) as [->|Hne].
    + rewrite lookup_insert_eq. split; [intros [= ->]; by apply Hk|intros ->; by rewrite (proj1 Hk eq_refl)].
    + rewrite lookup_insert_ne by done. apply Hb.
  - unfold dropConn in He. destruct (conns_ r !! p) as [o|] eqn:E; inv He; [|done]. intros pid'. simpl in *.
    destruct (decide (pid' = p)) as [->|Hne].
    + rewrite lookup_insert_eq. split; [done|congruence].
    + rewrite lookup_insert_ne by done. apply Hb.
  - unfold forceEnd in He. destruct (ended_ r); by inv He.
  - by inv He.
  - destruct (ticker_ r); [|by inv He]. unfold onTick in He. destruct (ended_ r); [by inv He|].
    destruct (BattleSim.step _ _) as [ch s1]. simpl in He. destruct (_ =? 0); by inv He.
  - by inv He.
Qed.

Lemma replay_endBattle pid c w r v :
  bound pid c r -> replay c (snd (endBattle w r)) v = v.
Proof.
  intros Hb. unfold endBattle. simpl. rewrite replay_app, (replay_broadcast pid) by done. done.
Qed.

Lemma sync_onTick pid c r r1 e :
  onTick r = (r1, e) -> bound pid c r -> BattleSim.wf (sim_ r) ->
  replay c e (view_of (sim_ r)) = view_of (sim_ r1) /\ BattleSim.wf (sim_ r1).
Proof.
  intros He Hb Hwf. unfold onTick in He. destruct (ended_ r); [by inv He|].
  destruct (BattleSim.step kTickMs (sim_ r)) as [ch s1] eqn:Es.
  pose proof (BattleSim.wf_step _ _ _ _ Es Hwf) as Hwf1. pose proof (BattleSim.wf_take _ Hwf1) as Hwf2.
  change (BattleSim.takeRemovedProjectileIds s1)
    with (BattleSim.removedProjectileIds_ s1, snd (BattleSim.takeRemovedProjectileIds s1)) in He.
  cbv beta iota zeta in He. set (s2 := snd (BattleSim.takeRemovedProjectileIds s1)) in *.
  set (r' := set_sim s2 (set_tick (u32 (tick_ r + 1)) r)) in *.
  set (out := tick_output _ _ _ _) in He.
  assert (replay c out (view_of (sim_ r)) = view_of s1) as Hout.
  { assert (replay c (broadcast (MStateSnapshot (delta_snapshot (u32 (tick_ r + 1)) ch (BattleSim.projectileIds s1)
             (BattleSim.removedProjectileIds_ s1) s2)) r') (view_of (sim_ r)) = view_of s1) as Hd.
    { rewrite (replay_broadcast pid) by done. cbn [client_recv]. by apply (apply_delta kTickMs). }
    unfold out, tick_output. destruct ch; [|done]. destruct (BattleSim.projectileIds s1) eqn:Ep; [|done].
    destruct (BattleSim.removedProjectileIds_ s1) eqn:Er; [|done]. symmetry. by apply (apply_no_delta kTickMs). }
  clearbody out. destruct (BattleSim.winnerOrZero s2 =? 0).
  - inv He. done.
  - destruct (endBattle _ r') as [r2 e2] eqn:Ee. inv He. rewrite replay_app, Hout.
    pose proof (replay_endBattle pid c (BattleSim.winnerOrZero s2) r' (view_of s1) Hb) as Hee. rewrite Ee in Hee.
    simpl in Hee. rewrite Hee. unfold endBattle in Ee. inv Ee. done.
Qed.

Lemma sync_exec pid c a r r1 e :
  exec a r = (r1, e) -> bound pid c r -> keeps pid c a -> BattleSim.wf (sim_ r) ->
  replay c e (view_of (sim_ r)) = view_of (sim_ r1) /\ BattleSim.wf (sim_ r1).
Proof.
  intros He Hb Hk Hwf. destruct a as [|p i|p c'|p|w| | |]; simpl in He.
  - pose proof (start_effects r) as Hs. unfold start in He. inv He. split; [|done]. simpl in Hs. rewrite Hs.
    rewrite replay_app, !(replay_broadcast pid) by done. simpl. by apply apply_full_snapshot.
  - unfold onInput in He. destruct (ended_ r); inv He; [done|]. split; [|by apply BattleSim.wf_input].
    simpl. unfold BattleSim.applyInput.
    destruct (BattleSim.players_ (sim_ r) !! p) as [q|] eqn:Eq; [|done].
    apply view_ext; [|done]. intros k. simpl. rewrite !lookup_fmap.
    destruct (decide (p = k)) as [->|]; [by rewrite lookup_insert_eq, Eq|by rewrite lookup_insert_ne].
  - unfold rebind in He. destruct (conns_ r !! p); inv He; [|done]. split; [|done].
    unfold replay, msgs_to. simpl. destruct (c' =? c); [|done]. simpl.
    by apply (apply_full_snapshot (set_conns _ r)).
  - unfold dropConn in He. destruct (conns_ r !! p); by inv He.
  - unfold forceEnd in He. destruct (ended_ r); [by inv He|]. pose proof (replay_endBattle pid c w r) as H.
    rewrite He in H. unfold endBattle in He. inv He. split; [by apply H|done].
  - by inv He.
  - destruct (ticker_ r); [by eapply sync_onTick|by inv He].
  - by inv He.
Qed.

End Sync.

Lemma sync_run pid c r as' tr r' :
  run r as' tr r' -> bound pid c r -> Forall (keeps pid c) as' -> BattleSim.wf (sim_ r) ->
  replay c tr (view_of (sim_ r)) = view_of (sim_ r').
Proof.
  induction 1 as [|r a r1 e as' tr r2 HO LM He Hr IH]; intros Hb Hk Hwf; [done|].
  apply Forall_cons in Hk as [Ha Hk]. destruct (sync_exec pid c _ _ _ _ He Hb Ha Hwf) as [Hs Hwf1].
  rewrite replay_app, Hs. apply IH; [by eapply bound_exec|done|done].
Qed.

(** The first messages on a connection are a full snapshot. *)
Lemma sync_first {HO : HashOrder} {LM : Libm} pid c a r0 r1 e v :
  BattleSim.wf (sim_ r0) -> a = AStart \/ a = ARebind pid c -> exec a r0 = (r1, e) -> bound pid c r1 ->
  replay c e v = view_of (sim_ r1) /\ BattleSim.wf (sim_ r1).
Proof.
  intros Hwf Ha He Hb. destruct Ha as [->| ->]; simpl in He.
  - pose proof (start_effects r0) as Hs. unfold start in He. inv He. simpl in Hs. rewrite Hs.
    rewrite replay_app, !(replay_broadcast pid) by done. simpl. split; [by apply apply_full_snapshot|done].
  - unfold rebind in He. destruct (conns_ r0 !! pid) as [o|] eqn:E; inv He.
    + split; [|done]. unfold replay, msgs_to. simpl. rewrite Z.eqb_refl. simpl.
      by apply (apply_full_snapshot (set_conns _ r0)).
    + pose proof (proj2 (Hb pid) eq_refl). congruence.
Qed.

(** C4: State synchronisation. From the moment a player is bound to a
    connection (the room starts with it, or he reconnects on it), as long as
    he stays on it, the messages sent on the connection suffice to know the
    battle: a client that replays them, from whatever it knew before,
    has at every moment exactly the position and hp of every player and
    exactly the live projectiles of the simulation. *)
Theorem snapshots_reconstruct_state (HO : HashOrder) (LM : Libm) pid c a r0 r1 e as' tr r2 v :
  BattleSim.wf (sim_ r0) -> a = AStart \/ a = ARebind pid c -> exec a r0 = (r1, e) -> bound pid c r1 ->
  run r1 as' tr r2 -> Forall (keeps pid c) as' ->
  replay c (e ++ tr) v = view_of (sim_ r2).
Proof.
  intros Hwf Ha He Hb Hr Hk. destruct (sync_first pid c a r0 r1 e v Hwf Ha He Hb) as [Hv Hwf1].
  rewrite replay_app, Hv. by eapply sync_run.
Qed.

(** A room of two players. *)
Definition duel_room : t := make 1 [(1, Some 10); (2, Some 20)].

Definition hold_fire : PlayerInput := mkPlayerInput 1 (f32_of_Z 0) (f32_of_Z 0) true.

Notation exec64 := (@exec elements_order BattleSim.libm64).

Fixpoint exec_all (as' : list action) (r : t) : t * list effect :=
  match as' with
  | [] => (r, [])
  | a :: as' => let (r1, e) := exec64 a r in let (r2, tr) := exec_all as' r1 in (r2, e ++ tr)
  end.

Lemma room_run_exec_all as' r : run r as' (snd (exec_all as' r)) (fst (exec_all as' r)).
Proof.
  revert r. induction as' as [|a as' IH]; intros r; [constructor|]. cbn [exec_all].
  destruct (exec64 a r) as [r1 e] eqn:E. specialize (IH r1). destruct (exec_all as' r1) as [r2 tr].
  by eapply run_step.
Qed.

Lemma wf_duel_room : BattleSim.wf (sim_ duel_room).
Proof. apply BattleSim.wf_add, BattleSim.wf_add, BattleSim.wf_init. Qed.

Lemma bound_duel_room : bound 1 10 (set_ticker true duel_room).
Proof.
  intros pid. change (conns_ _) with (<[2 := Some 20]> (<[1 := Some 10]> ∅) : gmap Z (option conn)).
  split; [|intros ->; vm_compute; reflexivity].
  intros [[_ [=]]|[_ [[-> _]|[_ H]]%lookup_insert_Some]]%lookup_insert_Some; [done|].
  by rewrite lookup_empty in H.
Qed.

Definition duel_actions : list action := [AInput 1 hold_fire; ATick; ATick; ADrop 2; ATick].

Lemma snapshots_reconstruct_state_witness :
  replay 10 (snd (exec64 AStart duel_room) ++ snd (exec_all duel_actions (set_ticker true duel_room)))
         (mkView ∅ ∅)
  = view_of (sim_ (fst (exec_all duel_actions (set_ticker true duel_room)))).
Proof.
  apply (snapshots_reconstruct_state elements_order BattleSim.libm64 1 10 AStart duel_room
           (set_ticker true duel_room) _ duel_actions).
  - exact wf_duel_room.
  - left. reflexivity.
  - reflexivity.
  - exact bound_duel_room.
  - apply room_run_exec_all.
  - repeat constructor; discriminate.
Defined.

(** ** The end of a battle *)

(** Effects that announce the end. *)
Definition ending (e : effect) : bool :=
  match e with OnEnd _ _ | PostTickerReset => true | Send _ (MBattleEnd _) => true | _ => false end.

(** Increments. *)
Definition is_delta (e : effect) : bool :=
  match e with Send _ (MStateSnapshot s) => negb (ss_full s) | _ => false end.

Definition quiet (e : effect) : Prop := ending e = false /\ is_delta e = false.

(** The announcement of winner [w]. *)
Definition end_of_battle (rid w : Z) (e : list effect) : Prop :=
  exists b, e = b ++ [PostTickerReset; OnEnd rid w] /\ Forall (fun x => exists c, x = Send c (MBattleEnd w)) b.

Section Ending.
Context {HO : HashOrder} {LM : Libm}.

Lemma Forall_broadcast (Q : effect -> Prop) m r : (forall c, Q (Send c m)) -> Forall Q (broadcast m r).
Proof.
  intros HQ. apply Forall_flat_map, Forall_forall. intros pid _. destruct (conns_ r !! pid) as [[c|]|]; simpl; auto.
Qed.

Lemma endBattle_announces w r r1 e : endBattle w r = (r1, e) -> end_of_battle (id_ r) w e /\ ended_ r1 = true.
Proof.
  unfold endBattle. intros [= <- <-]. split; [|done]. eexists. split; [done|]. apply Forall_broadcast. eauto.
Qed.

Lemma exec_id a r r1 e : exec a r = (r1, e) -> id_ r1 = id_ r.
Proof.
  destruct a; simpl; unfold onInput, rebind, dropConn, forceEnd, onTick, endBattle; intros H;
    repeat (dmatch_in H); by inv H.
Qed.

(** After the end only [rebind] and [start] speak, and nothing moves. *)
Lemma exec_ended a r r1 e :
  exec a r = (r1, e) -> ended_ r = true ->
  Forall quiet e /\ ended_ r1 = true /\ sim_ r1 = sim_ r /\ tick_ r1 = tick_ r.
Proof.
  intros He Hend. destruct a; simpl in He; unfold onInput, rebind, dropConn, forceEnd, onTick in He;
    rewrite ?Hend in He; repeat (dmatch_in He); inv He; try done.
  - split; [|done]. apply Forall_app. split; apply (Forall_broadcast quiet); done.
  - split; [|done]. by repeat constructor.
Qed.

(** Before the end an action either announces the end once, last of all its
    effects, or announces nothing. *)
Lemma exec_running a r r1 e :
  exec a r = (r1, e) -> ended_ r = false ->
  Forall (fun x => ending x = false) e \/
  exists e1 e2 w, e = e1 ++ e2 /\ Forall (fun x => ending x = false) e1 /\
    end_of_battle (id_ r) w e2 /\ ended_ r1 = true.
Proof.
  intros He Hend. destruct a; simpl in He; unfold onInput, rebind, dropConn, forceEnd in He; rewrite ?Hend in He.
  - left. inv He. apply Forall_app. split; by apply Forall_broadcast.
  - left. by inv He.
  - left. destruct (conns_ r !! pid); inv He; by repeat constructor.
  - left. destruct (conns_ r !! pid); by inv He.
  - right. apply endBattle_announces in He as [? ?]. by exists [], e, winnerId.
  - left. by inv He.
  - destruct (ticker_ r); [|left; by inv He]. unfold onTick in He. rewrite Hend in He.
    destruct (BattleSim.step _ _) as [ch s1]. cbv beta iota zeta in He.
    destruct (BattleSim.takeRemovedProjectileIds s1) as [rm s2]. cbv beta iota zeta in He.
    assert (forall x y z r, Forall (fun x => ending x = false) (tick_output x y z r)) as Hto.
    { intros x y z r0. unfold tick_output. repeat dmatch; try done; by apply Forall_broadcast. }
    destruct (_ =? 0); [left; inv He; apply Hto|right].
    destruct (endBattle _ _) as [r2 e2] eqn:Ee. apply endBattle_announces in Ee as [? ?]. inv He.
    eexists _, e2, _. done.
  - left. by inv He.
Qed.

End Ending.

Lemma run_ended r as' tr r' :
  run r as' tr r' -> ended_ r = true ->
  Forall quiet tr /\ ended_ r' = true /\ sim_ r' = sim_ r /\ tick_ r' = tick_ r.
Proof.
  induction 1 as [|r a r1 e as' tr r2 HO LM He _ IH]; intros Hend; [done|].
  apply exec_ended in He as (? & ? & Hs & Ht); [|done]. destruct IH as (? & ? & ? & ?); [done|].
  split_and!; [by apply Forall_app|done|congruence|congruence].
Qed.



(** ** A battle without survivors *)

Definition all_dead (s : BattleSim.t) : Prop := map_Forall (fun _ p => BattleSim.hp p <= 0) (BattleSim.players_ s).

#[global] Instance all_dead_dec s : Decision (all_dead s).
Proof. unfold all_dead. apply _. Defined.

Lemma all_dead_no_winner {HO : HashOrder} s : all_dead s -> BattleSim.winnerOrZero s = 0.
Proof.
  intros Hd. rewrite BattleSim.winner_fold. set (al := filter _ _).
  assert (al = []) as ->; [|done]. destruct al as [|x l] eqn:E; [done|].
  assert (x ∈ al) as Hx by (rewrite E; left). apply list_elem_of_filter in Hx as [Hx _].
  unfold BattleSim.is_alive in Hx. destruct (BattleSim.players_ s !! x) as [p|] eqn:Ep; [|done].
  specialize (Hd x p Ep). simpl in Hd. unfold BattleSim.alive in Hx. b2p. lia.
Qed.

Section Draw.
Context {HO : HashOrder} {LM : Libm}.

Lemma all_dead_step dtMs s ch s' :
  BattleSim.step dtMs s = (ch, s') -> BattleSim.wf s -> all_dead s -> all_dead s'.
Proof.
  intros Hs Hwf Hd id p' Hp'. pose proof (BattleSim.step_players _ _ _ _ id Hs Hwf) as H.
  destruct (BattleSim.players_ s !! id) as [p|] eqn:Ep; [|destruct H as [H _]; congruence].
  destruct H as (h & H & (Hle & _) & _). rewrite H in Hp'. inv Hp'. rewrite BattleSim.moved_hp in Hle.
  specialize (Hd id p Ep). simpl in *. lia.
Qed.

Lemma all_dead_input pid i s : all_dead s -> all_dead (BattleSim.applyInput pid i s).
Proof.
  intros Hd. unfold BattleSim.applyInput. destruct (BattleSim.players_ s !! pid) as [p|] eqn:Ep; [|done].
  intros id q. simpl. intros [[<- <-]|[_ ?]]%lookup_insert_Some; [by apply (Hd pid p Ep)|by eapply Hd].
Qed.

(** The actions that do not come from the lobby's forfeit or the shutdown. *)
Definition in_battle (a : action) : Prop :=
  match a with AForceEnd _ | AStop => False | _ => True end.

Lemma exec_all_dead a r r1 e :
  exec a r = (r1, e) -> in_battle a -> BattleSim.wf (sim_ r) -> all_dead (sim_ r) -> ended_ r = false ->
  BattleSim.wf (sim_ r1) /\ all_dead (sim_ r1) /\ ended_ r1 = false.
Proof.
  intros He Ha Hwf Hd Hend. destruct a; try done; simpl in He; unfold onInput, rebind, dropConn in He;
    rewrite ?Hend in He.
  - by inv He.
  - inv He. split_and!; [by apply BattleSim.wf_input|by apply all_dead_input|done].
  - destruct (conns_ r !! pid); by inv He.
  - destruct (conns_ r !! pid); by inv He.
  - destruct (ticker_ r); [|by inv He]. unfold onTick in He. rewrite Hend in He.
    destruct (BattleSim.step _ _) as [ch s1] eqn:Es. pose proof (all_dead_step _ _ _ _ Es Hwf Hd) as Hd1.
    apply BattleSim.wf_step, BattleSim.wf_take in Es; [|done].
    cbv beta iota zeta delta [BattleSim.takeRemovedProjectileIds] in He.
    rewrite all_dead_no_winner in He by done. cbn [Z.eqb] in He. inv He. done.
  - by inv He.
Qed.

End Draw.

(** When the last players die in the same tick nobody wins and the room
    never ends by itself: [winnerOrZero] is 0 from then on, so that no tick
    announces an end, whatever inputs, reconnections and disconnections
    follow. Two players who stand still and hold fire reach such a state. *)
Theorem draw_never_ends r as' tr r' :
  run r as' tr r' -> BattleSim.wf (sim_ r) -> all_dead (sim_ r) -> ended_ r = false -> Forall in_battle as' ->
  ended_ r' = false /\ Forall (fun x => ending x = false) tr.
Proof.
  induction 1 as [|r a r1 e as' tr r2 HO LM He Hr IH]; intros Hwf Hd Hend Hb; [done|].
  apply Forall_cons in Hb as [Ha Hb]. destruct (exec_all_dead _ _ _ _ He Ha Hwf Hd Hend) as (Hwf1 & Hd1 & Hend1).
  destruct (IH Hwf1 Hd1 Hend1 Hb) as [? ?]. split; [done|]. apply Forall_app. split; [|done].
  destruct (exec_running _ _ _ _ He Hend) as [?|(? & ? & ? & _ & _ & _ & ?)]; [done|congruence].
Qed.

Definition draw_room : t :=
  fst (exec_all ([AStart; AInput 1 hold_fire; AInput 2 hold_fire] ++ replicate 43 ATick) duel_room).

Lemma exec_wf {HO : HashOrder} {LM : Libm} a r r1 e :
  exec a r = (r1, e) -> BattleSim.wf (sim_ r) -> BattleSim.wf (sim_ r1).
Proof.
  intros He Hwf. destruct a; simpl in He; unfold onInput, rebind, dropConn, forceEnd, onTick, endBattle in He;
    repeat (dmatch_in He); inv He; simpl; auto using BattleSim.wf_input.
  all: match goal with H : BattleSim.step _ _ = _ |- _ => apply BattleSim.wf_step in H; [|done] end.
  all: match goal with H : BattleSim.takeRemovedProjectileIds _ = _ |- _ => inv H; by apply BattleSim.wf_take end.
Qed.

Lemma run_wf r as' tr r' : run r as' tr r' -> BattleSim.wf (sim_ r) -> BattleSim.wf (sim_ r').
Proof. induction 1; eauto using exec_wf. Qed.

Lemma draw_room_wf : BattleSim.wf (sim_ draw_room).
Proof. eapply run_wf; [apply room_run_exec_all|]. apply wf_duel_room. Qed.

Lemma draw_never_ends_witness :
  all_dead (sim_ draw_room) /\ ended_ draw_room = false /\
  ended_ (fst (exec_all [ATick; ATick] draw_room)) = false /\
  Forall (fun x => ending x = false) (snd (exec_all [ATick; ATick] draw_room)).
Proof.
  assert (all_dead (sim_ draw_room)) as Hd
    by (refine (bool_decide_unpack (all_dead (sim_ draw_room)) _); vm_compute; exact I).
  assert (ended_ draw_room = false) as He by (vm_compute; reflexivity).
  split; [exact Hd|split; [exact He|]].
  exact (draw_never_ends draw_room [ATick; ATick] _ _ (room_run_exec_all _ _) draw_room_wf Hd He
           (Forall_cons_2 _ ATick _ I (Forall_cons_2 _ ATick _ I (Forall_nil_2 _)))).
Defined.

(** An input that leaves the player where he is (no movement, and no
    damage taken in the tick) is stored but not acknowledged: the increment of
    the tick does not list the player, so no client learns his new
    [last_input_seq]. *)
Theorem idle_input_not_acknowledged (HO : HashOrder) (LM : Libm) s pid i p p' ch s' :
  BattleSim.wf s -> BattleSim.players_ s !! pid = Some p ->
  move_x i = f32_of_Z 0 -> move_y i = f32_of_Z 0 ->
  BattleSim.step kTickMs (BattleSim.applyInput pid i s) = (ch, s') ->
  BattleSim.players_ s' !! pid = Some p' -> BattleSim.hp p' = BattleSim.hp p ->
  pid ∉ ch /\ BattleSim.seq p' = in_seq i.
Proof.
  intros Hwf Hp Hx Hy Hs Hp' Hhp. pose proof (BattleSim.wf_input pid i s Hwf) as Hwf'.
  pose proof (BattleSim.step_players _ _ _ _ pid Hs Hwf') as H. unfold BattleSim.applyInput in H.
  rewrite Hp in H. simpl in H. rewrite lookup_insert_eq in H. destruct H as (h & H & _ & Hc).
  rewrite Hp' in H. inv H. simpl in Hhp, Hc. set (q := BattleSim.mkP _ _ _ _ _ _ _ _ _ _) in *.
  assert (BattleSim.move_player (BattleSim.dt_of kTickMs) q = (q, false)) as Hm.
  { unfold BattleSim.move_player, q. simpl. rewrite Hx, Hy. by destruct (negb _ || _). }
  split.
  - rewrite Hc, Hm. simpl. by intros [].
  - simpl. unfold BattleSim.acted, BattleSim.moved. rewrite Hm. unfold BattleSim.shoot.
    by destruct (BattleSim.wants_attack _).
Qed.

Definition duel_sim : BattleSim.t := sim_ duel_room.

Notation step64 := (@BattleSim.step elements_order BattleSim.libm64).

Lemma idle_input_not_acknowledged_witness :
  1 ∉ fst (step64 kTickMs (BattleSim.applyInput 1 hold_fire duel_sim)).
Proof.
  destruct (BattleSim.players_ duel_sim !! 1) as [p|] eqn:Ep; [|vm_compute in Ep; discriminate].
  destruct (BattleSim.players_ (snd (step64 kTickMs (BattleSim.applyInput 1 hold_fire duel_sim))) !! 1) as [p'|] eqn:Ep';
    [|vm_compute in Ep'; discriminate].
  apply (idle_input_not_acknowledged elements_order BattleSim.libm64 duel_sim 1 hold_fire p p' _
           (snd (step64 kTickMs (BattleSim.applyInput 1 hold_fire duel_sim)))
           wf_duel_room Ep eq_refl eq_refl (surjective_pairing _) Ep').
  vm_compute in Ep. vm_compute in Ep'. injection Ep as <-. injection Ep' as <-. reflexivity.
Defined.

End Room.
