(* ===== verification/GameServer.v ===== *)
(** * The lobby ([src/src/game/GameServer.h], [GameServer.cc], [Session.h])

    All handlers of [GameServer] that touch its state run on the lobby thread,
    one after the other. A handler is a function of the state to a program over
    the timer wheel ([TimerWheel.wprog]) that returns the new state and the
    effects of the call: messages, shutdowns, tasks posted to the loop of a
    room ([Room.action]) and jobs handed to the storage thread. The closures
    given to [wheel_.add] are the constructors of [callback]; [run_callback]
    gives their bodies.

    [room->loop()->runInLoop(f)] is the effect [PostRoom]: with game threads it
    posts [f] ([System]), without them it calls [f] ([Inline]). [shared_ptr<Session>] has its only
    long-lived owner in [sessions_], so that a session is a value of that map.
    The clock and the random numbers a handler reads are arguments. *)

From stdpp Require Import base gmap sets list strings pretty.
From Stdlib Require Import ZArith Lia.
From Stdlib Require Import Floats.SpecFloat.
From S2P Require Import Prelude Codec Float32 Proto MatchQueue TimerWheel LoopPool BattleSim Room.

Module GameServer.

Local Open Scope Z_scope.
Import TimerWheel(wprog, WRet, WAdd, WCancel).

Definition conn : Type := Room.conn.

Definition kHeartbeatTimeoutMs : Z := 10000.
Definition kMatchTimeoutMs : Z := 30000.
Definition kSessionKeepMs : Z := 30000.
Definition kSweepIntervalMs : Z := 5000.

(** ** Session *)

Inductive State : Type := kLobby | kMatching | kInRoom.

#[global] Instance State_eq_dec : EqDecision State.
Proof. solve_decision. Defined.

Record Session : Type := mkSession {
  playerId : Z;
  token : string;
  account : string;
  s_conn : option conn;
  roomId : Z;
  state : State;
  lastHeartbeatMs : Z;
  expireTimerId : Z;
}.

Definition set_conn (c : option conn) (s : Session) : Session :=
  mkSession (playerId s) (token s) (account s) c (roomId s) (state s) (lastHeartbeatMs s) (expireTimerId s).

Definition set_state (st : State) (s : Session) : Session :=
  mkSession (playerId s) (token s) (account s) (s_conn s) (roomId s) st (lastHeartbeatMs s) (expireTimerId s).

Definition set_room (r : Z) (st : State) (s : Session) : Session :=
  mkSession (playerId s) (token s) (account s) (s_conn s) r st (lastHeartbeatMs s) (expireTimerId s).

Definition set_heartbeat (now : Z) (s : Session) : Session :=
  mkSession (playerId s) (token s) (account s) (s_conn s) (roomId s) (state s) now (expireTimerId s).

Definition set_timer (tid : Z) (s : Session) : Session :=
  mkSession (playerId s) (token s) (account s) (s_conn s) (roomId s) (state s) (lastHeartbeatMs s) tid.

(** ** State and effects *)

(** The timer callbacks. *)
Inductive callback : Type :=
  | MatchTimeout (pid : Z)
  | Expire (pid : Z)
  | Sweep.

#[global] Instance callback_eq_dec : EqDecision callback.
Proof. solve_decision. Defined.

(** The jobs of the storage thread. *)
Inductive job : Type :=
  | JSetOnline (acc : string)
  | JDelOnline (acc : string)
  | JRecord (winnerAcc loserAcc : string)
  | JLeaderboard (c : conn) (n : Z).

Inductive effect : Type :=
  | Send (c : conn) (m : server_msg)
  | Shutdown (c : conn)
  | NewRoom (rid : Z) (l : EventLoopThreadPool.loop) (players : list (Z * option conn))
  | PostRoom (l : EventLoopThreadPool.loop) (rid : Z) (a : Room.action)
  | Enqueue (j : job).

(** [rooms_] maps a room id to the loop of the room; [storage] says whether
    [writer_] exists. *)
Record t : Type := mk {
  connToPlayer_ : gmap string Z;
  sessions_ : gmap Z Session;
  rooms_ : gmap Z EventLoopThreadPool.loop;
  matchQueue_ : MatchQueue.t;
  matchTimer_ : gmap Z Z;
  nextPlayerId_ : Z;
  nextRoomId_ : Z;
  gamePool_ : EventLoopThreadPool.t;
  storage : bool;
}.

Definition set_conns (m : gmap string Z) (s : t) : t :=
  mk m (sessions_ s) (rooms_ s) (matchQueue_ s) (matchTimer_ s) (nextPlayerId_ s) (nextRoomId_ s) (gamePool_ s) (storage s).

Definition set_sessions (m : gmap Z Session) (s : t) : t :=
  mk (connToPlayer_ s) m (rooms_ s) (matchQueue_ s) (matchTimer_ s) (nextPlayerId_ s) (nextRoomId_ s) (gamePool_ s) (storage s).

Definition set_rooms (m : gmap Z EventLoopThreadPool.loop) (s : t) : t :=
  mk (connToPlayer_ s) (sessions_ s) m (matchQueue_ s) (matchTimer_ s) (nextPlayerId_ s) (nextRoomId_ s) (gamePool_ s) (storage s).

Definition set_queue (q : MatchQueue.t) (s : t) : t :=
  mk (connToPlayer_ s) (sessions_ s) (rooms_ s) q (matchTimer_ s) (nextPlayerId_ s) (nextRoomId_ s) (gamePool_ s) (storage s).

Definition set_matchTimer (m : gmap Z Z) (s : t) : t :=
  mk (connToPlayer_ s) (sessions_ s) (rooms_ s) (matchQueue_ s) m (nextPlayerId_ s) (nextRoomId_ s) (gamePool_ s) (storage s).

Definition set_pool (p : EventLoopThreadPool.t) (s : t) : t :=
  mk (connToPlayer_ s) (sessions_ s) (rooms_ s) (matchQueue_ s) (matchTimer_ s) (nextPlayerId_ s) (nextRoomId_ s) p (storage s).

(** The state before [start] has run, and after it on the lobby (the wheel then
    holds the first sweep, see [scheduleSweep]). *)
Definition init (gameThreads : Z) (st : bool) : t :=
  mk ∅ ∅ ∅ MatchQueue.empty ∅ 1 1
     (EventLoopThreadPool.start gameThreads EventLoopThreadPool.init) st.

(** A connection's name: [TcpServer] names the [n]-th connection of the server
    ["gameserver"] so. *)
Definition connName (c : conn) : string := "gameserver-" +:+ pretty c.

(** [snprintf("%016llx%016llx", a, b)] *)
Definition hex_digit (n : Z) : Ascii.ascii :=
  Ascii.ascii_of_N (Z.to_N (if n <? 10 then n + 48 else n + 87)).

Fixpoint hex_digits (k : nat) (n : Z) (acc : string) : string :=
  match k with
  | O => acc
  | S k => hex_digits k (n / 16) (String (hex_digit (n mod 16)) acc)
  end.

Definition genToken (a b : Z) : string :=
  (hex_digits 16 (u64 a) "" +:+ hex_digits 16 (u64 b) "")%string.

(** The key in [sessions_] of the session of a connection, and the session. *)
Definition sessionOf (c : conn) (s : t) : option (Z * Session) :=
  match connToPlayer_ s !! connName c with
  | None => None
  | Some pid => match sessions_ s !! pid with None => None | Some ss => Some (pid, ss) end
  end.

Definition enqueue_if (s : t) (j : job) : list effect := if storage s then [Enqueue j] else [].

Definition login_ok (ss : Session) : server_msg := MLoginResp 0 (playerId ss) (token ss).

Definition login_failed : server_msg := MLoginResp 1 0 "".

(** ** Handlers *)

Notation prog A := (wprog callback A).

Definition onLogin (c : conn) (acc : string) (now rnd1 rnd2 : Z) (s : t) : prog (t * list effect) :=
  let pid := nextPlayerId_ s in
  let ss := mkSession pid (genToken rnd1 rnd2) acc (Some c) 0 kLobby now 0 in
  let s1 := mk (<[connName c := pid]> (connToPlayer_ s)) (<[pid := ss]> (sessions_ s)) (rooms_ s)
               (matchQueue_ s) (matchTimer_ s) (pid + 1) (nextRoomId_ s) (gamePool_ s) (storage s) in
  WRet (s1, Send c (login_ok ss) :: enqueue_if s (JSetOnline acc)).

(** [wheel_.cancel(tid)] when the timer id is set. *)
Definition cancel_if {A} (tid : Z) (k : prog A) : prog A := if tid =? 0 then k else WCancel tid k.

Definition onReconnect (c : conn) (pid : Z) (tok : string) (now : Z) (s : t) : prog (t * list effect) :=
  match sessions_ s !! pid with
  | None => WRet (s, [Send c login_failed; Shutdown c])
  | Some ss =>
      if negb (bool_decide (token ss = tok)) || bool_decide (s_conn ss <> None)
      then WRet (s, [Send c login_failed; Shutdown c])
      else
        cancel_if (expireTimerId ss)
          (let ss1 := set_heartbeat now (set_conn (Some c) (set_timer 0 ss)) in
           let s1 := set_conns (<[connName c := playerId ss1]> (connToPlayer_ s))
                       (set_sessions (<[pid := ss1]> (sessions_ s)) s) in
           let room :=
             if decide (state ss1 = kInRoom) then
               match rooms_ s1 !! roomId ss1 with
               | Some l => [PostRoom l (roomId ss1) (Room.ARebind (playerId ss1) c)]
               | None => []
               end
             else [] in
           WRet (s1, Send c (login_ok ss1) :: room ++ enqueue_if s (JSetOnline (account ss1))))
  end.

(** The loop of [tryMatch] that withdraws the timeout of one player. *)
Definition cancel_match_timer {A} (pid : Z) (s : t) (k : t -> prog A) : prog A :=
  match matchTimer_ s !! pid with
  | None => k s
  | Some tid => WCancel tid (k (set_matchTimer (delete pid (matchTimer_ s)) s))
  end.

Definition enter (rid pid : Z) (s : t) : t :=
  set_sessions (alter (set_room rid kInRoom) pid (sessions_ s)) s.

Definition tryMatch (s : t) : prog (res (t * list effect)) :=
  match MatchQueue.popPair (matchQueue_ s) with
  | UB => WRet UB
  | Ok (None, q) => WRet (Ok (set_queue q s, []))
  | Ok (Some (a, b), q) =>
      let s0 := set_queue q s in
      match sessions_ s0 !! a, sessions_ s0 !! b with
      | Some sa, Some sb =>
          cancel_match_timer a s0 (fun s1 =>
          cancel_match_timer b s1 (fun s2 =>
            let rid := nextRoomId_ s2 in
            WRet (let! (l, pool) := EventLoopThreadPool.getNextLoop (gamePool_ s2) in
                  let s3 := mk (connToPlayer_ s2) (sessions_ s2) (<[rid := l]> (rooms_ s2)) (matchQueue_ s2)
                               (matchTimer_ s2) (nextPlayerId_ s2) (rid + 1) pool (storage s2) in
                  Ok (enter rid b (enter rid a s3),
                      [NewRoom rid l [(playerId sa, s_conn sa); (playerId sb, s_conn sb)];
                       PostRoom l rid Room.AStart]))%gs))
      | _, _ => WRet (Ok (s0, []))
      end
  end.

Definition onMatch (c : conn) (s : t) : prog (res (t * list effect)) :=
  match sessionOf c s with
  | None => WRet (Ok (s, []))
  | Some (key, ss) =>
      if negb (bool_decide (state ss = kLobby)) then WRet (Ok (s, []))
      else
        let (accepted, q) := MatchQueue.push (playerId ss) (matchQueue_ s) in
        if negb accepted then WRet (Ok (set_queue q s, []))
        else
          let pid := playerId ss in
          let s1 := set_sessions (<[key := set_state kMatching ss]> (sessions_ s)) (set_queue q s) in
          WAdd kMatchTimeoutMs (MatchTimeout pid) (fun tid =>
            tryMatch (set_matchTimer (<[pid := tid]> (matchTimer_ s1)) s1))
  end.

(** The closure given to the wheel in [onMatch]. *)
Definition match_timeout (pid : Z) (s : t) : t * list effect :=
  let s1 := set_matchTimer (delete pid (matchTimer_ s)) s in
  if negb (MatchQueue.contains pid (matchQueue_ s1)) then (s1, [])
  else
    let s2 := set_queue (MatchQueue.remove pid (matchQueue_ s1)) s1 in
    match sessions_ s2 !! pid with
    | None => (s2, [])
    | Some ss =>
        (set_sessions (<[pid := set_state kLobby ss]> (sessions_ s2)) s2,
         match s_conn ss with Some c => [Send c (MEnterRoom 0 [])] | None => [] end)
    end.

Definition onInput (c : conn) (i : PlayerInput) (s : t) : prog (t * list effect) :=
  match sessionOf c s with
  | None => WRet (s, [])
  | Some (_, ss) =>
      if negb (bool_decide (state ss = kInRoom)) then WRet (s, [])
      else match rooms_ s !! roomId ss with
           | None => WRet (s, [])
           | Some l => WRet (s, [PostRoom l (roomId ss) (Room.AInput (playerId ss) i)])
           end
  end.

Definition onHeartbeat (c : conn) (client_ms now : Z) (s : t) : prog (t * list effect) :=
  WRet (match sessionOf c s with
        | Some (key, ss) => set_sessions (<[key := set_heartbeat now ss]> (sessions_ s)) s
        | None => s
        end, [Send c (MHeartbeat client_ms)]).

Definition onDisconnect (name : string) (s : t) : prog (t * list effect) :=
  match connToPlayer_ s !! name with
  | None => WRet (s, [])
  | Some pid =>
      let s1 := set_conns (delete name (connToPlayer_ s)) s in
      match sessions_ s1 !! pid with
      | None => WRet (s1, [])
      | Some ss =>
          let ss1 := set_conn None ss in
          let (ss2, q) := if decide (state ss1 = kMatching)
                          then (set_state kLobby ss1, MatchQueue.remove pid (matchQueue_ s1))
                          else (ss1, matchQueue_ s1) in
          let room := if decide (state ss2 = kInRoom) then
                        match rooms_ s1 !! roomId ss2 with
                        | Some l => [PostRoom l (roomId ss2) (Room.ADrop pid)]
                        | None => []
                        end
                      else [] in
          WAdd kSessionKeepMs (Expire pid) (fun tid =>
            WRet (set_sessions (<[pid := set_timer tid ss2]> (sessions_ s1)) (set_queue q s1),
                  room ++ enqueue_if s1 (JDelOnline (account ss2))))
      end
  end.

(** [now - s->lastHeartbeatMs > kHeartbeatTimeoutMs] on [uint64_t]. *)
Definition timed_out (now : Z) (ss : Session) : bool := kHeartbeatTimeoutMs <? u64 (now - lastHeartbeatMs ss).

Section Iterating.
Context {HO : HashOrder}.

Definition session_order (s : t) : list Z := hash_order CSessions (dom (sessions_ s)).

(** The opponent found by the loop of [expireSession]: the last one. *)
Definition find_opponent (pid rid : Z) (s : t) : Z :=
  foldl (fun winner opid =>
           match sessions_ s !! opid with
           | Some os => if (roomId os =? rid) && negb (opid =? pid) then opid else winner
           | None => winner
           end) 0 (session_order s).

Definition expireSession (pid : Z) (s : t) : t * list effect :=
  match sessions_ s !! pid with
  | None => (s, [])
  | Some ss =>
      if bool_decide (s_conn ss <> None) then (s, [])
      else
        let room := if decide (state ss = kInRoom) then
                      match rooms_ s !! roomId ss with
                      | Some l => [PostRoom l (roomId ss) (Room.AForceEnd (find_opponent pid (roomId ss) s))]
                      | None => []
                      end
                    else [] in
        (set_sessions (delete pid (sessions_ s)) s, room)
  end.

(** The loop of [onRoomEnd]: the accounts and the sessions. *)
Definition room_end_step (rid winnerId : Z) (acc : string * string * gmap Z Session) (pid : Z)
  : string * string * gmap Z Session :=
  let '(winnerAcc, loserAcc, m) := acc in
  match m !! pid with
  | None => acc
  | Some ss =>
      if roomId ss =? rid then
        let m' := <[pid := set_room 0 kLobby ss]> m in
        if pid =? winnerId then (account ss, loserAcc, m') else (winnerAcc, account ss, m')
      else acc
  end.

Definition onRoomEnd (rid winnerId : Z) (s : t) : prog (t * list effect) :=
  let s1 := set_rooms (delete rid (rooms_ s)) s in
  let '(winnerAcc, loserAcc, m) :=
    foldl (room_end_step rid winnerId) (EmptyString, EmptyString, sessions_ s1) (session_order s1) in
  WRet (set_sessions m s1,
        if negb (bool_decide (winnerAcc = EmptyString)) && negb (bool_decide (loserAcc = EmptyString))
        then enqueue_if s1 (JRecord winnerAcc loserAcc) else []).

Definition sweepHeartbeats (now : Z) (s : t) : list effect :=
  flat_map (fun pid =>
              match sessions_ s !! pid with
              | Some ss => match s_conn ss with
                           | Some c => if timed_out now ss then [Shutdown c] else []
                           | None => []
                           end
              | None => []
              end) (session_order s).

Definition scheduleSweep {A} (k : prog A) : prog A := WAdd kSweepIntervalMs Sweep (fun _ => k).

(** The bodies of the closures given to the wheel; the effects are appended to
    those of the callbacks fired before in the same [advance]. *)
Definition run_callback (now : Z) (cb : callback) (w : t * list effect) : prog (t * list effect) :=
  let (s, out) := w in
  match cb with
  | MatchTimeout pid => let (s', e) := match_timeout pid s in WRet (s', out ++ e)
  | Expire pid => let (s', e) := expireSession pid s in WRet (s', out ++ e)
  | Sweep => let e := sweepHeartbeats now s in scheduleSweep (WRet (s, out ++ e))
  end.

(** The destructor's task on the lobby: every room is stopped on its loop. *)
Definition stop_rooms (s : t) : t * list effect :=
  (set_rooms ∅ s,
   flat_map (fun rid => match rooms_ s !! rid with Some l => [PostRoom l rid Room.AStop] | None => [] end)
            (hash_order CRooms (dom (rooms_ s)))).

(** ** Events of the lobby thread *)

Inductive event : Type :=
  | EvLogin (c : conn) (acc : string) (now rnd1 rnd2 : Z)
  | EvReconnect (c : conn) (pid : Z) (tok : string) (now : Z)
  | EvMatch (c : conn)
  | EvInput (c : conn) (i : PlayerInput)
  | EvHeartbeat (c : conn) (client_ms now : Z)
  | EvDisconnect (c : conn)
  | EvRoomEnd (rid winnerId : Z)
  | EvWheel (now : Z).

(** The lobby with its wheel. *)
Definition lobby : Type := TimerWheel.t callback * t.

Definition call {A} (p : prog A) (f : A -> res (t * list effect)) (w : TimerWheel.t callback)
  : res (lobby * list effect) :=
  let (w', r) := TimerWheel.interp p w in
  (let! (s, e) := f r in Ok ((w', s), e))%gs.

Definition exec (ev : event) (l : lobby) : res (lobby * list effect) :=
  let (w, s) := l in
  match ev with
  | EvLogin c acc now a b => call (onLogin c acc now a b s) Ok w
  | EvReconnect c pid tok now => call (onReconnect c pid tok now s) Ok w
  | EvMatch c => call (onMatch c s) (fun r => r) w
  | EvInput c i => call (onInput c i s) Ok w
  | EvHeartbeat c ms now => call (onHeartbeat c ms now s) Ok w
  | EvDisconnect c => call (onDisconnect (connName c) s) Ok w
  | EvRoomEnd rid winner => call (onRoomEnd rid winner s) Ok w
  | EvWheel now =>
      let '(w', (s', e)) := TimerWheel.advance (run_callback now) 100 (w, (s, [])) in
      Ok ((w', s'), e)
  end.

End Iterating.

(** [start] on the lobby thread. *)
Definition boot (gameThreads : Z) (st : bool) : lobby :=
  TimerWheel.interp (scheduleSweep (WRet (init gameThreads st))) TimerWheel.init.

(** ** Storage jobs and the leaderboard request

    [onLeaderboard] runs on an IO thread and touches no lobby state. *)

Definition onLeaderboard (st : bool) (c : conn) (top_n : Z) : list effect :=
  let n0 := i32_of_u32 top_n in
  let n := if (n0 <=? 0) || (100 <? n0) then 10 else n0 in
  if st then [Enqueue (JLeaderboard c n)] else [Send c (MLeaderboardResp [])].

(** The calls a job makes on the storage clients. *)
Inductive store_call : Type :=
  | RedisSet (key val : string)
  | RedisDel (key : string)
  | MySqlRecordResult (winnerAcc loserAcc : string)
  | RedisZincrby (key member : string) (delta : Z).

(** A job on the storage thread; [ready] is [storageReady_] and [ztopN] what
    Redis answers. *)
Definition run_job (ready : bool) (leaderboardKey : string) (ztopN : string -> Z -> list (string * spec_float))
    (j : job) : list store_call * list effect :=
  match j with
  | JSetOnline acc => (if ready then [RedisSet ("online:" +:+ acc) "1"] else [], [])
  | JDelOnline acc => (if ready then [RedisDel ("online:" +:+ acc)] else [], [])
  | JRecord winnerAcc loserAcc =>
      (if ready then [MySqlRecordResult winnerAcc loserAcc; RedisZincrby leaderboardKey winnerAcc 1] else [], [])
  | JLeaderboard c n => ([], [Send c (MLeaderboardResp (if ready then ztopN leaderboardKey n else []))])
  end.

(** ** Invariant *)

(** The number of wheel ticks a callback waits. *)
Definition life (cb : callback) : Z := match cb with Sweep => 50 | _ => 300 end.

Notation timers := (TimerWheel.timers callback).
Implicit Types a : timers.

(** A session is in a room that exists, or in no room. *)
Definition room_ok (s : t) (ss : Session) : Prop :=
  (state ss = kInRoom /\ is_Some (rooms_ s !! roomId ss)) \/ (state ss <> kInRoom /\ roomId ss = 0).

Record Sess (s : t) : Prop := mkSess {
  I_key : forall pid ss, sessions_ s !! pid = Some ss -> playerId ss = pid /\ 1 <= pid < nextPlayerId_ s;
  I_conn : forall name pid, connToPlayer_ s !! name = Some pid ->
    exists ss c, sessions_ s !! pid = Some ss /\ s_conn ss = Some c /\ connName c = name;
  I_wait : forall pid, pid ∈ MatchQueue.waiting_ (matchQueue_ s) <->
    exists ss, sessions_ s !! pid = Some ss /\ state ss = kMatching;
  I_qwf : MatchQueue.wf (matchQueue_ s);
  I_match : forall pid ss, sessions_ s !! pid = Some ss -> state ss = kMatching -> is_Some (s_conn ss);
  I_room : forall pid ss, sessions_ s !! pid = Some ss -> room_ok s ss;
  I_next : 1 <= nextPlayerId_ s;
  I_rid : 1 <= nextRoomId_ s /\ forall rid l, rooms_ s !! rid = Some l -> 1 <= rid < nextRoomId_ s;
  I_pool : EventLoopThreadPool.wf (gamePool_ s);
  I_two : forall p1 p2 p3 s1 s2 s3, sessions_ s !! p1 = Some s1 -> sessions_ s !! p2 = Some s2 ->
    sessions_ s !! p3 = Some s3 -> roomId s1 <> 0 -> roomId s2 = roomId s1 -> roomId s3 = roomId s1 ->
    p1 = p2 \/ p1 = p3 \/ p2 = p3;
}.

(** The timers and the sessions: a disconnected session has exactly one expiry
    timer and a connected one has none; a matching player has the timeout that
    [matchTimer_] names; there is exactly one sweep. *)
Record Tim (a : timers) (s : t) : Prop := mkTim {
  I_ids : 1 <= TimerWheel.t_next a /\
    forall tid x, TimerWheel.t_due a !! tid = Some x -> 1 <= tid < TimerWheel.t_next a;
  I_due : forall tid d cb, TimerWheel.t_due a !! tid = Some (d, cb) -> d <= TimerWheel.t_now a + life cb;
  I_expire : forall tid d pid, TimerWheel.t_due a !! tid = Some (d, Expire pid) ->
    exists ss, sessions_ s !! pid = Some ss /\ s_conn ss = None /\ expireTimerId ss = tid;
  I_null : forall pid ss, sessions_ s !! pid = Some ss -> s_conn ss = None ->
    exists d, TimerWheel.t_due a !! expireTimerId ss = Some (d, Expire pid);
  I_timer : forall pid tid, matchTimer_ s !! pid = Some tid ->
    exists d, TimerWheel.t_due a !! tid = Some (d, MatchTimeout pid);
  I_mtimer : forall pid ss, sessions_ s !! pid = Some ss -> state ss = kMatching -> is_Some (matchTimer_ s !! pid);
  I_sweep : exists tid d, TimerWheel.t_due a !! tid = Some (d, Sweep) /\
    forall tid' d', TimerWheel.t_due a !! tid' = Some (d', Sweep) -> tid' = tid;
}.

Definition LInv a (s : t) : Prop := Sess s /\ Tim a s.

(** ** Names *)

#[global] Instance connName_inj : Inj (=) (=) connName.
Proof.
  intros c1 c2 H. unfold connName in H. apply (inj (String.append "gameserver-")) in H. by apply (inj pretty) in H.
Qed.

Lemma sessionOf_inv c s pid ss :
  Sess s -> sessionOf c s = Some (pid, ss) ->
  sessions_ s !! pid = Some ss /\ s_conn ss = Some c /\ connToPlayer_ s !! connName c = Some pid /\ playerId ss = pid.
Proof.
  intros HS. unfold sessionOf. destruct (connToPlayer_ s !! connName c) as [p|] eqn:E; [|done].
  destruct (I_conn s HS _ _ E) as (ss' & c' & Hs & Hc & <-%(inj connName)). rewrite Hs. intros [= <- <-].
  destruct (I_key s HS _ _ Hs). done.
Qed.

(** ** Preservation *)

(** Case analysis on a lookup in an updated map. *)
Tactic Notation "ins" ident(H) := apply lookup_insert_Some in H as [[<- <-]|[? H]].

Tactic Notation "del" ident(H) := apply lookup_delete_Some in H as [? H].

(** Replacing one session, with the changes to the queue and to the connection
    table that go with it. *)
Lemma Sess_replace s s' pid ss ss' :
  Sess s -> sessions_ s !! pid = Some ss -> sessions_ s' = <[pid := ss']> (sessions_ s) ->
  rooms_ s' = rooms_ s -> nextPlayerId_ s' = nextPlayerId_ s -> nextRoomId_ s' = nextRoomId_ s ->
  gamePool_ s' = gamePool_ s ->
  playerId ss' = playerId ss -> roomId ss' = roomId ss -> (state ss' = kInRoom <-> state ss = kInRoom) ->
  (state ss' = kMatching -> is_Some (s_conn ss')) ->
  MatchQueue.wf (matchQueue_ s') ->
  (forall p, p ∈ MatchQueue.waiting_ (matchQueue_ s') <->
     (p = pid /\ state ss' = kMatching) \/ (p <> pid /\ p ∈ MatchQueue.waiting_ (matchQueue_ s))) ->
  (forall name p, connToPlayer_ s' !! name = Some p ->
     (p = pid /\ exists c, s_conn ss' = Some c /\ connName c = name) \/
     (p <> pid /\ connToPlayer_ s !! name = Some p)) ->
  Sess s'.
Proof.
  intros [] Hp Hss Hro Hnp Hnr Hpo Hid Hr Hin Hm Hq Hw Hc.
  assert (forall p x, sessions_ s' !! p = Some x ->
            exists y, sessions_ s !! p = Some y /\ playerId y = playerId x /\ roomId y = roomId x) as Hy.
  { intros p x Hx. rewrite Hss in Hx. ins Hx; [by exists ss|by exists x]. }
  split; rewrite ?Hnp, ?Hnr, ?Hro, ?Hpo; try done.
  - intros p x (y & Hx & <- & _)%Hy. eauto.
  - intros name p [[-> (c & ? & ?)]|[Hne Hx]]%Hc.
    + exists ss', c. by rewrite Hss, lookup_insert_eq.
    + apply I_conn0 in Hx as (x & c & ? & ?). exists x, c. by rewrite Hss, lookup_insert_ne.
  - intros p. rewrite Hw, I_wait0, Hss. split.
    + intros [[-> ?]|[? (x & ? & ?)]]; [exists ss'|exists x]; by rewrite ?lookup_insert_eq, ?lookup_insert_ne.
    + intros (x & Hx & ?). ins Hx; [by left|right; eauto].
  - intros p x Hx. rewrite Hss in Hx. ins Hx; [done|eauto].
  - intros p x Hx. unfold room_ok. rewrite Hro. rewrite Hss in Hx. ins Hx; [|by eapply I_room0].
    rewrite Hr, Hin. apply (I_room0 _ _ Hp).
  - intros p1 p2 p3 x1 x2 x3 (y1 & ? & _ & ?)%Hy (y2 & ? & _ & ?)%Hy (y3 & ? & _ & ?)%Hy ???.
    eapply I_two0; [done|done|done|congruence..].
Qed.

(** Replacing a session by one with the same connection, timer and state. *)
Lemma Tim_replace a s s' pid ss ss' :
  Tim a s -> sessions_ s !! pid = Some ss -> sessions_ s' = <[pid := ss']> (sessions_ s) ->
  matchTimer_ s' = matchTimer_ s ->
  state ss' = state ss -> s_conn ss' = s_conn ss -> expireTimerId ss' = expireTimerId ss -> Tim a s'.
Proof.
  intros [] Hp Hss Hmt Hst Hc Ht. split; rewrite ?Hmt; try done.
  - intros tid d p (x & Hx & ? & ?)%I_expire0. rewrite Hss. destruct (decide (p = pid)) as [->|].
    + exists ss'. rewrite lookup_insert_eq. rewrite Hp in Hx. inv Hx. split_and!; congruence.
    + exists x. by rewrite lookup_insert_ne.
  - intros p x Hx Hcx. rewrite Hss in Hx. ins Hx; [|eauto]. rewrite Ht. apply (I_null0 _ _ Hp). congruence.
  - intros p x Hx Hsx. rewrite Hss in Hx. ins Hx; [|eauto]. apply (I_mtimer0 _ _ Hp). congruence.
Qed.

Lemma LInv_onHeartbeat c ms now a s a' s' e :
  LInv a s -> TimerWheel.spec_interp (onHeartbeat c ms now s) a = (a', (s', e)) -> LInv a' s'.
Proof.
  intros [HS HT] H. simpl in H. inv H. destruct (sessionOf c s) as [[pid ss]|] eqn:E; [|done].
  apply sessionOf_inv in E as (Hp & Hc & Hn & Hid); [|done]. split; [|by eapply Tim_replace].
  apply (Sess_replace s _ pid ss (set_heartbeat now ss)); try done.
  - apply (I_qwf s HS).
  - intros p. simpl. rewrite (I_wait s HS p). destruct (decide (p = pid)) as [->|]; [|naive_solver].
    split; [|naive_solver]. intros (x & Hx & ?). left. rewrite Hp in Hx. by inv Hx.
  - intros name p Hx. simpl. destruct (decide (p = pid)) as [->|]; [left|by right]. split; [done|].
    apply (I_conn s HS) in Hx as (x & c' & Hx & ? & ?). rewrite Hp in Hx. inv Hx. eauto.
Qed.

Lemma LInv_onLogin c acc now r1 r2 a s a' s' e :
  LInv a s -> TimerWheel.spec_interp (onLogin c acc now r1 r2 s) a = (a', (s', e)) -> LInv a' s'.
Proof.
  intros [HS HT] H. pose proof (I_next s HS) as Hn. simpl in H. inv H. set (pid := nextPlayerId_ s) in *.
  assert (sessions_ s !! pid = None) as Hfresh.
  { destruct (sessions_ s !! pid) as [x|] eqn:E; [|done]. apply (I_key s HS) in E. unfold pid in E. lia. }
  split; [destruct HS|destruct HT]; split; simpl; try done.
  - intros p x Hx. ins Hx; [simpl; lia|]. apply I_key0 in Hx. unfold pid. lia.
  - intros name p Hx. ins Hx.
    + rewrite lookup_insert_eq. eexists _, c. done.
    + apply I_conn0 in Hx as (x & c' & ? & ? & ?). exists x, c'. rewrite lookup_insert_ne by congruence. done.
  - intros p. rewrite I_wait0. split; intros (x & Hx & Hst).
    + exists x. rewrite lookup_insert_ne by congruence. done.
    + ins Hx; [done|eauto].
  - intros p x Hx Hst. ins Hx; [done|eauto].
  - intros p x Hx. ins Hx; [by right|]. by eapply I_room0.
  - lia.
  - intros p1 p2 p3 x1 x2 x3 H1 H2 H3 Hr1 Hr2 Hr3. ins H1; ins H2; ins H3; simpl in *; try congruence; eauto.
  - intros tid d p (x & ? & ? & ?)%I_expire0. exists x. rewrite lookup_insert_ne by congruence. done.
  - intros p x Hx Hc. ins Hx; [done|eauto].
  - intros p x Hx Hst. ins Hx; [done|eauto].
Qed.

(** *** Reconnection *)

Lemma cancel_due a tid tid' x :
  TimerWheel.t_due (TimerWheel.spec_cancel tid a) !! tid' = Some x <->
  tid <> tid' /\ TimerWheel.t_due a !! tid' = Some x.
Proof. simpl. apply lookup_delete_Some. Qed.

(** Cancelling the expiry timer of a session and binding a connection. *)
Lemma Tim_reconnect a s s' pid ss ss' :
  Tim a s -> sessions_ s !! pid = Some ss -> s_conn ss = None ->
  sessions_ s' = <[pid := ss']> (sessions_ s) -> matchTimer_ s' = matchTimer_ s ->
  state ss' = state ss -> is_Some (s_conn ss') -> Tim (TimerWheel.spec_cancel (expireTimerId ss) a) s'.
Proof.
  intros [] Hp Hnull Hss Hmt Hst [c Hc]. destruct (I_null0 _ _ Hp Hnull) as [d0 Hd0].
  set (tid := expireTimerId ss) in *. split; rewrite ?Hmt; try done.
  - split; [simpl; lia|]. intros tid' x [_ Hx]%cancel_due. by apply I_ids0 in Hx.
  - intros tid' d cb [_ Hx]%cancel_due. eauto.
  - intros tid' d p [Hne (x & Hx & ? & ?)%I_expire0]%cancel_due. exists x.
    rewrite Hss, lookup_insert_ne; [done|]. intros <-. apply Hne. rewrite Hp in Hx. by inv Hx.
  - intros p x Hx Hcx. rewrite Hss in Hx. ins Hx; [congruence|]. destruct (I_null0 _ _ Hx Hcx) as [d Hd].
    exists d. apply cancel_due. split; [|done]. congruence.
  - intros p tid' [d Hd]%I_timer0. exists d. apply cancel_due. split; [congruence|done].
  - intros p x Hx Hsx. rewrite Hss in Hx. ins Hx; [|eauto]. apply (I_mtimer0 _ _ Hp). congruence.
  - destruct I_sweep0 as (tid' & d & Hd & Hu). exists tid', d. split.
    + apply cancel_due. split; [congruence|done].
    + intros ? ? [_ ?]%cancel_due. eauto.
Qed.

(** The two outcomes of a reconnection. *)
Lemma onReconnect_inv c pid tok now a s :
  LInv a s ->
  (exists ss, sessions_ s !! pid = Some ss /\ token ss = tok /\ s_conn ss = None /\
     let ss1 := set_heartbeat now (set_conn (Some c) (set_timer 0 ss)) in
     TimerWheel.spec_interp (onReconnect c pid tok now s) a =
       (TimerWheel.spec_cancel (expireTimerId ss) a,
        (set_conns (<[connName c := pid]> (connToPlayer_ s)) (set_sessions (<[pid := ss1]> (sessions_ s)) s),
         Send c (MLoginResp 0 pid tok) ::
         (if decide (state ss = kInRoom) then
            match rooms_ s !! roomId ss with
            | Some l => [PostRoom l (roomId ss) (Room.ARebind pid c)]
            | None => []
            end
          else []) ++ enqueue_if s (JSetOnline (account ss))))) \/
  ((forall ss, sessions_ s !! pid = Some ss -> token ss = tok -> is_Some (s_conn ss)) /\
   TimerWheel.spec_interp (onReconnect c pid tok now s) a = (a, (s, [Send c login_failed; Shutdown c]))).
Proof.
  intros [HS HT]. unfold onReconnect. destruct (sessions_ s !! pid) as [ss|] eqn:Ep; [|by right].
  destruct (_ || _) eqn:Eg.
  - right. split; [|done]. intros ss' [= <-] Htok. apply orb_true_iff in Eg as [Eg|Eg]; b2p; [done|].
    by apply not_eq_None_Some.
  - left. b2p. apply dec_stable in H0. exists ss. destruct (I_null a s HT _ _ Ep H0) as [d0 Hd0].
    assert (expireTimerId ss <> 0) as Ht0 by (apply (I_ids a s HT) in Hd0; lia).
    destruct (I_key s HS _ _ Ep) as [Hpid _]. unfold cancel_if, login_ok. rewrite (proj2 (Z.eqb_neq _ _) Ht0).
    cbn [TimerWheel.spec_interp]. simpl. by rewrite Hpid, H.
Qed.

Lemma LInv_onReconnect c pid tok now a s a' s' e :
  LInv a s -> TimerWheel.spec_interp (onReconnect c pid tok now s) a = (a', (s', e)) -> LInv a' s'.
Proof.
  intros HI H. destruct (onReconnect_inv c pid tok now a s HI) as [(ss & Hp & Ht & Hnull & Heq)|[_ Heq]];
    cbn zeta in Heq; rewrite Heq in H; [|by inv H].
  destruct HI as [HS HT]. injection H as <- <- _. set (ss1 := set_heartbeat _ _). split.
  - apply (Sess_replace s _ pid ss ss1); try done; simpl; [apply (I_qwf s HS)| |].
    + intros p. rewrite (I_wait s HS p). destruct (decide (p = pid)) as [->|]; [|naive_solver].
      split; [|naive_solver]. intros (x & Hx & ?). left. rewrite Hp in Hx. by inv Hx.
    + intros name p Hx. ins Hx; [left; eauto|]. destruct (decide (p = pid)) as [->|]; [|by right].
      apply (I_conn s HS) in Hx as (x & c' & Hx & ? & _). congruence.
  - by eapply (Tim_reconnect a s _ pid ss ss1).
Qed.

(** *** Disconnection *)

Definition add_timer (cb : callback) a : timers :=
  TimerWheel.mkTimers (TimerWheel.t_now a) (TimerWheel.t_next a + 1)
    (<[TimerWheel.t_next a := (TimerWheel.t_now a + life cb, cb)]> (TimerWheel.t_due a)).

(** The delays of the program in ticks. *)
Lemma spec_add_timer ms cb a :
  TimerWheel.ticks_of ms = life cb ->
  TimerWheel.spec_add ms cb a = (TimerWheel.t_next a, add_timer cb a).
Proof. intros H. unfold TimerWheel.spec_add, add_timer. by rewrite H. Qed.

Lemma add_due a s cb tid x :
  Tim a s ->
  TimerWheel.t_due (add_timer cb a) !! tid = Some x <->
  (tid = TimerWheel.t_next a /\ x = (TimerWheel.t_now a + life cb, cb)) \/
  (tid < TimerWheel.t_next a /\ TimerWheel.t_due a !! tid = Some x).
Proof.
  intros HT. simpl. rewrite lookup_insert_Some. split.
  - intros [[<- <-]|[? Hx]]; [by left|right]. split; [|done]. apply (I_ids a s HT) in Hx. lia.
  - intros [[-> ->]|[? ?]]; [by left|right]. split; [lia|done].
Qed.

Lemma life_pos cb : 0 < life cb.
Proof. by destruct cb. Qed.

(** Adding a timer for a session that becomes disconnected. *)
Lemma Tim_disconnect a s s' pid ss ss' :
  Tim a s -> sessions_ s !! pid = Some ss -> is_Some (s_conn ss) ->
  sessions_ s' = <[pid := ss']> (sessions_ s) -> matchTimer_ s' = matchTimer_ s ->
  state ss' <> kMatching -> s_conn ss' = None -> expireTimerId ss' = TimerWheel.t_next a ->
  Tim (add_timer (Expire pid) a) s'.
Proof.
  intros HT Hp [c Hc0] Hss Hmt Hst Hc Ht. pose proof (fun cb tid x => add_due a s cb tid x HT) as Hadd.
  destruct HT. split; rewrite ?Hmt; try done.
  - split; [simpl; lia|]. intros tid x [[-> _]|[? Hx]]%Hadd; simpl; [lia|]. apply I_ids0 in Hx. lia.
  - intros tid d cb [[-> [= -> ->]]|[? Hx]]%Hadd; [done|]. eauto.
  - intros tid d p [[-> [= _ ->]]|[? (x & Hx & ? & ?)%I_expire0]]%Hadd; rewrite Hss.
    + exists ss'. by rewrite lookup_insert_eq.
    + exists x. rewrite lookup_insert_ne; [done|]. intros <-. congruence.
  - intros p x Hx Hcx. rewrite Hss in Hx. ins Hx.
    + eexists. apply Hadd. left. by rewrite Ht.
    + destruct (I_null0 _ _ Hx Hcx) as [d Hd]. exists d. apply Hadd. right. split; [|done]. apply I_ids0 in Hd. lia.
  - intros p tid [d Hd]%I_timer0. exists d. apply Hadd. right. split; [|done]. apply I_ids0 in Hd. lia.
  - intros p x Hx Hsx. rewrite Hss in Hx. ins Hx; [done|eauto].
  - destruct I_sweep0 as (tid & d & Hd & Hu). exists tid, d. split.
    + apply Hadd. right. split; [|done]. apply I_ids0 in Hd. lia.
    + intros tid' d' [[_ [=]]|[_ ?]]%Hadd. eauto.
Qed.

(** What a disconnection does to the session and the queue. *)
Definition parted (pid tid : Z) (ss : Session) (q : MatchQueue.t) : Session * MatchQueue.t :=
  if decide (state ss = kMatching)
  then (set_timer tid (set_state kLobby (set_conn None ss)), MatchQueue.remove pid q)
  else (set_timer tid (set_conn None ss), q).

Lemma onDisconnect_inv name a s :
  Sess s ->
  (exists pid ss, connToPlayer_ s !! name = Some pid /\ sessions_ s !! pid = Some ss /\
     let (ss', q) := parted pid (TimerWheel.t_next a) ss (matchQueue_ s) in
     TimerWheel.spec_interp (onDisconnect name s) a =
       (add_timer (Expire pid) a,
        (set_sessions (<[pid := ss']> (sessions_ s))
           (set_queue q (set_conns (delete name (connToPlayer_ s)) s)),
         (if decide (state ss = kInRoom) then
            match rooms_ s !! roomId ss with
            | Some l => [PostRoom l (roomId ss) (Room.ADrop pid)]
            | None => []
            end
          else []) ++ enqueue_if s (JDelOnline (account ss))))) \/
  (connToPlayer_ s !! name = None /\ TimerWheel.spec_interp (onDisconnect name s) a = (a, (s, []))).
Proof.
  intros HS. unfold onDisconnect. destruct (connToPlayer_ s !! name) as [pid|] eqn:En; [left|by right].
  destruct (I_conn s HS _ _ En) as (ss & c & Hp & _). exists pid, ss. split_and!; [done|done|].
  unfold parted. cbn zeta. change (sessions_ (set_conns _ s)) with (sessions_ s). rewrite Hp.
  change (state (set_conn None ss)) with (state ss).
  destruct (decide (state ss = kMatching)) as [Hm|Hm]; cbn [TimerWheel.spec_interp];
    rewrite (spec_add_timer kSessionKeepMs (Expire pid)) by done; cbn [TimerWheel.spec_interp].
  - rewrite (decide_False (P := state ss = kInRoom)) by congruence. done.
  - done.
Qed.

Lemma LInv_onDisconnect name a s a' s' e :
  LInv a s -> TimerWheel.spec_interp (onDisconnect name s) a = (a', (s', e)) -> LInv a' s'.
Proof.
  intros [HS HT] H. destruct (onDisconnect_inv name a s HS) as [(pid & ss & En & Hp & Heq)|[_ Heq]];
    [|rewrite Heq in H; by inv H].
  destruct (I_conn s HS _ _ En) as (ss0 & c & Hp0 & Hc & Hn). rewrite Hp in Hp0. inv Hp0. rename ss0 into ss.
  destruct (parted _ _ _ _) as [ss' q] eqn:Ed. rewrite Heq in H. injection H as <- <- _.
  assert (playerId ss' = playerId ss /\ roomId ss' = roomId ss /\ s_conn ss' = None /\
          expireTimerId ss' = TimerWheel.t_next a /\ state ss' <> kMatching /\
          (state ss' = kInRoom <-> state ss = kInRoom) /\ MatchQueue.wf q /\
          forall p, p ∈ MatchQueue.waiting_ q <-> p <> pid /\ p ∈ MatchQueue.waiting_ (matchQueue_ s))
    as (Hid & Hr & Hc' & Ht & Hst & Hin & Hq & Hw).
  { unfold parted in Ed. pose proof (I_qwf s HS). destruct (decide (state ss = kMatching)) as [Hm|Hm]; inv Ed; simpl.
    - split_and!; try done; [by rewrite Hm|by apply MatchQueue.remove_wf|set_solver].
    - split_and!; try done. intros p. rewrite (I_wait s HS). split; [|naive_solver]. intros (x & Hx & ?).
      split; [|eauto]. congruence. }
  split; [|by eapply (Tim_disconnect a s _ pid ss ss')].
  apply (Sess_replace s _ pid ss ss'); try done; simpl.
  - intros p. rewrite Hw. naive_solver.
  - intros name' p Hx. del Hx. right. split; [|done]. intros ->.
    apply (I_conn s HS) in Hx as (x & c' & Hx & Hcx & ?). congruence.
Qed.

(** *** Matching *)

(** The state after [a] and [b] have entered a new room on loop [l]. *)
Definition paired (p1 p2 : Z) (q : MatchQueue.t) (l : EventLoopThreadPool.loop) (pool : EventLoopThreadPool.t)
    (s : t) : t :=
  let rid := nextRoomId_ s in
  mk (connToPlayer_ s)
     (alter (set_room rid kInRoom) p2 (alter (set_room rid kInRoom) p1 (sessions_ s)))
     (<[rid := l]> (rooms_ s)) q (delete p2 (delete p1 (matchTimer_ s)))
     (nextPlayerId_ s) (rid + 1) pool (storage s).

(** The two outcomes of [tryMatch]. *)
Lemma tryMatch_inv a s :
  LInv a s ->
  (exists q, (forall x, x ∈ MatchQueue.waiting_ q <-> x ∈ MatchQueue.waiting_ (matchQueue_ s)) /\
     MatchQueue.wf q /\ (size (MatchQueue.waiting_ (matchQueue_ s)) < 2)%nat /\
     TimerWheel.spec_interp (tryMatch s) a = (a, Ok (set_queue q s, []))) \/
  (exists p1 p2 s1 s2 c1 c2 t1 t2 q l pool,
     p1 <> p2 /\ sessions_ s !! p1 = Some s1 /\ sessions_ s !! p2 = Some s2 /\
     state s1 = kMatching /\ state s2 = kMatching /\ s_conn s1 = Some c1 /\ s_conn s2 = Some c2 /\
     matchTimer_ s !! p1 = Some t1 /\ matchTimer_ s !! p2 = Some t2 /\ MatchQueue.wf q /\
     (forall x, x ∈ MatchQueue.waiting_ q <-> x ∈ MatchQueue.waiting_ (matchQueue_ s) /\ x <> p1 /\ x <> p2) /\
     EventLoopThreadPool.getNextLoop (gamePool_ s) = Ok (l, pool) /\
     TimerWheel.spec_interp (tryMatch s) a =
       (TimerWheel.spec_cancel t2 (TimerWheel.spec_cancel t1 a),
        Ok (paired p1 p2 q l pool s,
            [NewRoom (nextRoomId_ s) l [(p1, Some c1); (p2, Some c2)]; PostRoom l (nextRoomId_ s) Room.AStart]))).
Proof.
  intros [HS HT]. destruct (MatchQueue.popPair_waiting (matchQueue_ s) (I_qwf s HS)) as ([[p1 p2]|] & q & Hpop & Hq & Hw).
  2: { left. exists q. unfold tryMatch. rewrite Hpop. destruct Hw. done. }
  right. destruct Hw as (Hne & (s1 & Hs1 & Hm1)%(I_wait s HS) & (s2 & Hs2 & Hm2)%(I_wait s HS) & Hw).
  destruct (I_match s HS _ _ Hs1 Hm1) as [c1 Hc1], (I_match s HS _ _ Hs2 Hm2) as [c2 Hc2].
  destruct (I_mtimer a s HT _ _ Hs1 Hm1) as [t1 Ht1], (I_mtimer a s HT _ _ Hs2 Hm2) as [t2 Ht2].
  destruct (EventLoopThreadPool.getNextLoop_wf _ (I_pool s HS)) as (l & pool & Hl & _).
  destruct (I_key s HS _ _ Hs1) as [Hk1 _], (I_key s HS _ _ Hs2) as [Hk2 _].
  exists p1, p2, s1, s2, c1, c2, t1, t2, q, l, pool. split_and!; try done.
  unfold tryMatch. rewrite Hpop. cbn zeta. change (sessions_ (set_queue q s)) with (sessions_ s).
  rewrite Hs1, Hs2. unfold cancel_match_timer. change (matchTimer_ (set_queue q s)) with (matchTimer_ s). rewrite Ht1.
  cbn [TimerWheel.spec_interp matchTimer_ set_matchTimer]. rewrite lookup_delete_ne, Ht2 by done.
  cbn [TimerWheel.spec_interp matchTimer_ set_matchTimer set_queue gamePool_]. rewrite Hl. cbn [res_bind].
  unfold paired, enter. simpl. by rewrite Hk1, Hk2, Hc1, Hc2.
Qed.

Lemma paired_sessions p1 p2 q l pool s p x :
  sessions_ (paired p1 p2 q l pool s) !! p = Some x ->
  (p <> p1 /\ p <> p2 /\ sessions_ s !! p = Some x) \/
  ((p = p1 \/ p = p2) /\ exists y, sessions_ s !! p = Some y /\ s_conn x = s_conn y /\ playerId x = playerId y /\
     expireTimerId x = expireTimerId y /\ state x = kInRoom /\ roomId x = nextRoomId_ s).
Proof.
  simpl. destruct (decide (p = p2)) as [->|H2].
  - rewrite lookup_alter_eq. destruct (decide (p1 = p2)) as [->|H1].
    + rewrite lookup_alter_eq. destruct (sessions_ s !! p2) as [y|]; simpl; [|done]. intros [= <-]. right.
      split; [by left|]. by exists y.
    + rewrite lookup_alter_ne by done. destruct (sessions_ s !! p2) as [y|]; simpl; [|done]. intros [= <-]. right.
      split; [by right|]. by exists y.
  - rewrite lookup_alter_ne by done. destruct (decide (p = p1)) as [->|H1].
    + rewrite lookup_alter_eq. destruct (sessions_ s !! p1) as [y|]; simpl; [|done]. intros [= <-]. right.
      split; [by left|]. by exists y.
    + rewrite lookup_alter_ne by done. left. done.
Qed.

Lemma paired_lookup p1 p2 q l pool s p y :
  sessions_ s !! p = Some y ->
  exists x, sessions_ (paired p1 p2 q l pool s) !! p = Some x /\ s_conn x = s_conn y /\
    expireTimerId x = expireTimerId y /\ (p <> p1 -> p <> p2 -> x = y).
Proof.
  intros Hp. simpl. destruct (decide (p = p2)) as [->|H2].
  - rewrite lookup_alter_eq. destruct (decide (p1 = p2)) as [->|H1].
    + rewrite lookup_alter_eq, Hp. by eexists.
    + rewrite lookup_alter_ne, Hp by done. by eexists.
  - rewrite lookup_alter_ne by done. destruct (decide (p = p1)) as [->|H1].
    + rewrite lookup_alter_eq, Hp. by eexists.
    + rewrite lookup_alter_ne, Hp by done. by eexists.
Qed.

Lemma paired_new p1 p2 q l pool s s1 s2 :
  p1 <> p2 -> sessions_ s !! p1 = Some s1 -> sessions_ s !! p2 = Some s2 ->
  exists x1 x2, sessions_ (paired p1 p2 q l pool s) !! p1 = Some x1 /\
    sessions_ (paired p1 p2 q l pool s) !! p2 = Some x2 /\ s_conn x1 = s_conn s1 /\ s_conn x2 = s_conn s2 /\
    state x1 = kInRoom /\ state x2 = kInRoom /\ roomId x1 = nextRoomId_ s /\ roomId x2 = nextRoomId_ s.
Proof.
  intros Hne H1 H2. eexists _, _. cbn [paired sessions_].
  rewrite lookup_alter_ne, lookup_alter_eq, H1, lookup_alter_eq, lookup_alter_ne, H2 by done. done.
Qed.

Lemma Sess_paired p1 p2 s1 s2 q l pool s :
  Sess s -> sessions_ s !! p1 = Some s1 -> sessions_ s !! p2 = Some s2 -> MatchQueue.wf q ->
  (forall x, x ∈ MatchQueue.waiting_ q <-> x ∈ MatchQueue.waiting_ (matchQueue_ s) /\ x <> p1 /\ x <> p2) ->
  EventLoopThreadPool.wf pool -> Sess (paired p1 p2 q l pool s).
Proof.
  intros [] Hs1 Hs2 Hq Hw Hpool. pose proof (paired_sessions p1 p2 q l pool s) as Hx.
  pose proof (paired_lookup p1 p2 q l pool s) as Hy.
  assert (forall p y, sessions_ s !! p = Some y -> roomId y < nextRoomId_ s) as Hfresh.
  { intros p y [[_ [l' Hr]]|[_ ->]]%I_room0; [|lia]. apply (proj2 I_rid0) in Hr. lia. }
  split; try done.
  - intros p x [(_ & _ & H)|(_ & y & H & _ & -> & _)]%Hx; by apply I_key0 in H.
  - intros name p (y & c & (x & ? & ? & _)%Hy & ? & ?)%I_conn0. exists x, c. split_and!; congruence.
  - intros p. simpl matchQueue_. rewrite Hw, I_wait0. split.
    + intros ((y & (x & ? & _ & _ & Heq)%Hy & ?) & Hn1 & Hn2). specialize (Heq Hn1 Hn2). subst. eauto.
    + intros (x & [(? & ? & H)|(_ & y & H & _ & _ & _ & ? & _)]%Hx & Hm); [eauto|congruence].
  - intros p x [(_ & _ & H)|(_ & y & H & _ & _ & _ & ? & _)]%Hx Hm; [eauto|congruence].
  - intros p x [(_ & _ & H)|(_ & y & H & _ & _ & _ & ? & Hr)]%Hx.
    + pose proof (Hfresh _ _ H). destruct (I_room0 _ _ H) as [[? ?]|?]; [left|by right]. split; [done|].
      simpl. rewrite lookup_insert_ne by lia. done.
    + left. split; [done|]. rewrite Hr. simpl. rewrite lookup_insert_eq. by eexists.
  - destruct I_rid0 as [? Hr]. split; [simpl; lia|]. simpl. intros rid l' Hl. ins Hl; [lia|].
    apply Hr in Hl. lia.
  - intros q1 q2 q3 x1 x2 x3 H1%Hx H2%Hx H3%Hx Hr1 Hr2 Hr3.
    destruct H1 as [(? & ? & H1)|(Ho1 & y1 & H1 & _ & _ & _ & _ & Hn1)];
    destruct H2 as [(? & ? & H2)|(Ho2 & y2 & H2 & _ & _ & _ & _ & Hn2)];
    destruct H3 as [(? & ? & H3)|(Ho3 & y3 & H3 & _ & _ & _ & _ & Hn3)];
      try (eapply I_two0; [exact H1|exact H2|exact H3|done..]);
      try (pose proof (Hfresh _ _ H1)); try (pose proof (Hfresh _ _ H2)); try (pose proof (Hfresh _ _ H3)); lia.
Qed.

Lemma Tim_paired p1 p2 s1 s2 t1 t2 q l pool a s :
  Tim a s -> sessions_ s !! p1 = Some s1 -> sessions_ s !! p2 = Some s2 -> p1 <> p2 ->
  matchTimer_ s !! p1 = Some t1 -> matchTimer_ s !! p2 = Some t2 ->
  Tim (TimerWheel.spec_cancel t2 (TimerWheel.spec_cancel t1 a)) (paired p1 p2 q l pool s).
Proof.
  intros [] Hs1 Hs2 Hne Ht1 Ht2. pose proof (paired_sessions p1 p2 q l pool s) as Hx.
  pose proof (paired_lookup p1 p2 q l pool s) as Hy.
  destruct (I_timer0 _ _ Ht1) as [d1 Hd1], (I_timer0 _ _ Ht2) as [d2 Hd2].
  assert (forall tid x, TimerWheel.t_due (TimerWheel.spec_cancel t2 (TimerWheel.spec_cancel t1 a)) !! tid = Some x <->
            t2 <> tid /\ t1 <> tid /\ TimerWheel.t_due a !! tid = Some x) as Hdel.
  { intros tid x. by rewrite !cancel_due. }
  split.
  - split; [simpl; lia|]. intros tid x (_ & _ & H)%Hdel. by apply I_ids0 in H.
  - intros tid d cb (_ & _ & H)%Hdel. eauto.
  - intros tid d p (_ & _ & (y & (x & ? & ? & ? & _)%Hy & ? & ?)%I_expire0)%Hdel. exists x. split_and!; congruence.
  - intros p x Hp Hc. assert (exists d, TimerWheel.t_due a !! expireTimerId x = Some (d, Expire p)) as [d Hd].
    { apply Hx in Hp as [(_ & _ & H)|(_ & y & H & ? & _ & -> & _)]; [eauto|]. apply (I_null0 _ _ H). congruence. }
    exists d. apply Hdel. split_and!; [congruence|congruence|done].
  - intros p tid. simpl. intros H. del H. del H. destruct (I_timer0 _ _ H) as [d Hd]. exists d. apply Hdel.
    split_and!; [congruence|congruence|done].
  - intros p x [(? & ? & H)|(_ & y & H & _ & _ & _ & ? & _)]%Hx Hm; [|congruence].
    simpl. rewrite !lookup_delete_ne by done. eauto.
  - destruct I_sweep0 as (tid & d & Hd & Hu). exists tid, d. split.
    + apply Hdel. split_and!; [congruence|congruence|done].
    + intros tid' d' (_ & _ & ?)%Hdel. eauto.
Qed.

Lemma LInv_tryMatch a s a' r :
  LInv a s -> TimerWheel.spec_interp (tryMatch s) a = (a', r) -> exists s' e, r = Ok (s', e) /\ LInv a' s'.
Proof.
  intros HI H. destruct (tryMatch_inv a s HI) as [(q & Hw & Hq & _ & Heq)|
    (p1 & p2 & s1 & s2 & c1 & c2 & t1 & t2 & q & l & pool & Hne & Hs1 & Hs2 & _ & _ & _ & _ & Ht1 & Ht2 & Hq & Hw & Hl & Heq)];
    rewrite Heq in H; inv H; eexists _, _; (split; [done|]); destruct HI as [HS HT].
  - split; [destruct HS|destruct HT]; split; try done. intros p. simpl. by rewrite Hw.
  - split; [|by eapply Tim_paired]. eapply Sess_paired; try done.
    destruct (EventLoopThreadPool.getNextLoop_wf _ (I_pool s HS)) as (l' & pool' & Hl' & ? & _).
    rewrite Hl in Hl'. by inv Hl'.
Qed.

(** The player enters the queue: the state [tryMatch] starts from. *)
Definition queued (pid tid : Z) (ss : Session) (s : t) : t :=
  set_matchTimer (<[pid := tid]> (matchTimer_ s))
    (set_sessions (<[pid := set_state kMatching ss]> (sessions_ s))
       (set_queue (snd (MatchQueue.push pid (matchQueue_ s))) s)).

Lemma onMatch_inv c a s :
  Sess s ->
  (exists pid ss, sessionOf c s = Some (pid, ss) /\ state ss = kLobby /\
     TimerWheel.spec_interp (onMatch c s) a =
     TimerWheel.spec_interp (tryMatch (queued pid (TimerWheel.t_next a) ss s)) (add_timer (MatchTimeout pid) a)) \/
  ((forall pid ss, sessionOf c s = Some (pid, ss) -> state ss <> kLobby) /\
   TimerWheel.spec_interp (onMatch c s) a = (a, Ok (s, []))).
Proof.
  intros HS. unfold onMatch. destruct (sessionOf c s) as [[pid ss]|] eqn:E; [|by right].
  destruct (bool_decide (state ss = kLobby)) eqn:El; b2p; simpl negb; cbn iota.
  2: { right. split; [|done]. by intros ? ? [= <- <-]. }
  left. exists pid, ss. split_and!; [done|done|]. apply sessionOf_inv in E as (Hp & Hc & _ & Hid); [|done].
  unfold queued. rewrite Hid. destruct (MatchQueue.push pid (matchQueue_ s)) as [b q] eqn:Eq. unfold MatchQueue.push in Eq.
  rewrite decide_False in Eq. 2: { intros (x & Hx & ?)%(I_wait s HS). congruence. }
  inv Eq. simpl negb. cbn iota. cbn [TimerWheel.spec_interp].
  by rewrite (spec_add_timer kMatchTimeoutMs (MatchTimeout (playerId ss))).
Qed.

Lemma LInv_queued pid ss c a s :
  LInv a s -> sessions_ s !! pid = Some ss -> s_conn ss = Some c -> state ss = kLobby ->
  LInv (add_timer (MatchTimeout pid) a) (queued pid (TimerWheel.t_next a) ss s).
Proof.
  intros [HS HT] Hp Hc Hl. split.
  - apply (Sess_replace s _ pid ss (set_state kMatching ss)); try done; simpl.
    + rewrite Hl. split; done.
    + apply MatchQueue.push_wf, (I_qwf s HS).
    + intros p. unfold MatchQueue.push. rewrite decide_False. 2: { intros (x & Hx & ?)%(I_wait s HS). congruence. }
      simpl. destruct (decide (p = pid)); set_solver.
    + intros name p Hx. destruct (decide (p = pid)) as [->|]; [left|by right]. split; [done|].
      apply (I_conn s HS) in Hx as (x & c' & Hx & ? & ?). rewrite Hp in Hx. inv Hx. eauto.
  - pose proof (fun tid x => add_due a s (MatchTimeout pid) tid x HT) as Hadd. destruct HT.
    unfold queued. split; cbn [matchTimer_ sessions_ set_matchTimer set_sessions set_queue].
    + split; [simpl; lia|]. intros tid x [[-> _]|[? Hx]]%Hadd; simpl; [lia|]. apply I_ids0 in Hx. lia.
    + intros tid d cb [[-> [= -> ->]]|[? Hx]]%Hadd; [done|]. eauto.
    + intros tid d p [[-> [=]]|[? (x & Hx & ? & ?)%I_expire0]]%Hadd. exists x. rewrite lookup_insert_ne; [done|].
      intros <-. congruence.
    + intros p x Hx Hcx. ins Hx; [simpl in Hcx; congruence|]. destruct (I_null0 _ _ Hx Hcx) as [d Hd].
      exists d. apply Hadd. right. split; [|done]. apply I_ids0 in Hd. lia.
    + intros p tid Hx. ins Hx; [eexists; apply Hadd; by left|]. destruct (I_timer0 _ _ Hx) as [d Hd].
      exists d. apply Hadd. right. split; [|done]. apply I_ids0 in Hd. lia.
    + intros p x Hx Hm. destruct (decide (p = pid)) as [->|]; [rewrite lookup_insert_eq; by eexists|].
      rewrite lookup_insert_ne in Hx by done. rewrite lookup_insert_ne by done. eauto.
    + destruct I_sweep0 as (tid & d & Hd & Hu). exists tid, d. split.
      * apply Hadd. right. split; [|done]. apply I_ids0 in Hd. lia.
      * intros tid' d' [[_ [=]]|[_ ?]]%Hadd. eauto.
Qed.

Lemma LInv_onMatch c a s a' r :
  LInv a s -> TimerWheel.spec_interp (onMatch c s) a = (a', r) -> exists s' e, r = Ok (s', e) /\ LInv a' s'.
Proof.
  intros HI H. destruct (onMatch_inv c a s (proj1 HI)) as [(pid & ss & Hso & Hl & Heq)|[_ Heq]]; rewrite Heq in H.
  - apply sessionOf_inv in Hso as (Hp & Hc & _); [|apply HI]. eapply LInv_tryMatch; [|exact H]. by eapply LInv_queued.
  - inv H. eauto.
Qed.

Lemma LInv_onInput c i a s a' s' e :
  LInv a s -> TimerWheel.spec_interp (onInput c i s) a = (a', (s', e)) -> LInv a' s'.
Proof. intros HI H. unfold onInput in H. repeat (dmatch_in H); simpl in H; by inv H. Qed.

(** *** Timers *)

(** A match timeout is gone, the player left the queue. *)
Lemma Tim_match_fired tid d pid a s s' :
  Tim a s -> TimerWheel.t_due a !! tid = Some (d, MatchTimeout pid) ->
  sessions_ s' = sessions_ s \/
    (exists ss, sessions_ s !! pid = Some ss /\ sessions_ s' = <[pid := set_state kLobby ss]> (sessions_ s)) ->
  (forall ss, sessions_ s' !! pid = Some ss -> state ss <> kMatching) ->
  matchTimer_ s' = delete pid (matchTimer_ s) -> Tim (TimerWheel.spec_cancel tid a) s'.
Proof.
  intros HT Htid Hss Hnm Hmt.
  assert (forall p y, sessions_ s !! p = Some y -> exists x, sessions_ s' !! p = Some x /\
            s_conn x = s_conn y /\ expireTimerId x = expireTimerId y) as Hfw.
  { intros p y Hy. destruct Hss as [->|(ss & Hp & ->)]; [eauto|].
    destruct (decide (p = pid)) as [->|]; [|rewrite lookup_insert_ne by done; eauto].
    rewrite lookup_insert_eq. rewrite Hp in Hy. inv Hy. by eexists. }
  assert (forall p x, sessions_ s' !! p = Some x -> exists y, sessions_ s !! p = Some y /\
            s_conn x = s_conn y /\ expireTimerId x = expireTimerId y /\ (p <> pid -> x = y)) as Hbw.
  { intros p x Hx. destruct Hss as [Hss|(ss & Hp & Hss)]; rewrite Hss in Hx; [eauto 10|].
    ins Hx; [by exists ss|eauto 10]. }
  destruct HT. split; rewrite ?Hmt.
  - split; [simpl; lia|]. intros tid' x [_ Hx]%cancel_due. by apply I_ids0 in Hx.
  - intros tid' d' cb [_ Hx]%cancel_due. eauto.
  - intros tid' d' p [_ (y & (x & ? & ? & ?)%Hfw & ? & ?)%I_expire0]%cancel_due. exists x. split_and!; congruence.
  - intros p x (y & Hy & Hc & Ht & _)%Hbw Hcx. rewrite Ht. destruct (I_null0 _ _ Hy) as [d' Hd']; [congruence|].
    exists d'. apply cancel_due. split; [congruence|done].
  - intros p tid' Hx. del Hx. destruct (I_timer0 _ _ Hx) as [d' Hd']. exists d'. apply cancel_due. split; congruence.
  - intros p x Hx Hm. destruct (decide (p = pid)) as [->|Hne]; [by apply Hnm in Hx|].
    rewrite lookup_delete_ne by done. apply Hbw in Hx as (y & Hy & _ & _ & Heq). rewrite Heq in Hm by done. eauto.
  - destruct I_sweep0 as (tid' & d' & Hd & Hu). exists tid', d'. split.
    + apply cancel_due. split; [congruence|done].
    + intros ? ? [_ ?]%cancel_due. eauto.
Qed.

Lemma LInv_match_timeout tid d pid a s :
  LInv a s -> TimerWheel.t_due a !! tid = Some (d, MatchTimeout pid) ->
  LInv (TimerWheel.spec_cancel tid a) (fst (match_timeout pid s)).
Proof.
  intros [HS HT] Htid. pose proof (Tim_match_fired tid d pid a s) as HTim.
  unfold match_timeout, MatchQueue.contains. simpl. destruct (bool_decide _) eqn:Ew; b2p; simpl.
  - destruct (I_wait s HS pid) as [(ss & Hp & Hm) _]; [done|]. rewrite Hp. simpl. split.
    + apply (Sess_replace s _ pid ss (set_state kLobby ss)); try done; simpl.
      * rewrite Hm. split; done.
      * apply MatchQueue.remove_wf, (I_qwf s HS).
      * intros p. destruct (decide (p = pid)); set_solver.
      * intros name p Hx. destruct (decide (p = pid)) as [->|]; [left|by right]. split; [done|].
        apply (I_conn s HS) in Hx as (x & c' & Hx & ? & ?). rewrite Hp in Hx. inv Hx. eauto.
    + apply HTim; [done|done|right; eauto| |done]. intros x. simpl. rewrite lookup_insert_eq. by intros [= <-].
  - split; [by destruct HS|]. apply HTim; [done|done|by left| |done]. intros x Hx Hm. apply Ew, (I_wait s HS). eauto.
Qed.

(** An expiry timer that fired: the session is disconnected, and removed. *)
Lemma LInv_expireSession {HO : HashOrder} tid d pid a s :
  LInv a s -> TimerWheel.t_due a !! tid = Some (d, Expire pid) ->
  LInv (TimerWheel.spec_cancel tid a) (fst (expireSession pid s)).
Proof.
  intros [HS HT] Htid. destruct (I_expire a s HT _ _ _ Htid) as (ss & Hp & Hc & Ht).
  unfold expireSession. rewrite Hp, bool_decide_eq_false_2 by (rewrite Hc; tauto). simpl.
  split; [destruct HS|destruct HT]; split; simpl; try done.
  - intros p x Hx. del Hx. eauto.
  - intros name p (x & c & ? & ? & ?)%I_conn0. exists x, c. rewrite lookup_delete_ne by congruence. done.
  - intros p. rewrite I_wait0. split.
    + intros (x & Hx & Hm). exists x. rewrite lookup_delete_ne; [done|]. intros ->.
      destruct (I_match0 _ _ Hx Hm) as [c ?]. congruence.
    + intros (x & Hx & ?). del Hx. eauto.
  - intros p x Hx. del Hx. eauto.
  - intros p x Hx. del Hx. by eapply I_room0.
  - intros p1 p2 p3 x1 x2 x3 H1 H2 H3. del H1. del H2. del H3. eauto.
  - split; [lia|]. intros tid' x Hx. del Hx. by apply I_ids0 in Hx.
  - intros tid' d' cb Hx. del Hx. eauto.
  - intros tid' d' p Hx. del Hx. apply I_expire0 in Hx as (x & Hx & ? & ?). exists x.
    rewrite lookup_delete_ne; [done|]. congruence.
  - intros p x Hx Hcx. del Hx. destruct (I_null0 _ _ Hx Hcx) as [d' Hd']. exists d'.
    rewrite lookup_delete_ne; [done|]. congruence.
  - intros p tid' Hx. destruct (I_timer0 _ _ Hx) as [d' Hd']. exists d'. rewrite lookup_delete_ne; [done|]. congruence.
  - intros p x Hx. del Hx. eauto.
  - destruct I_sweep0 as (tid' & d' & Hd & Hu). exists tid', d'. rewrite lookup_delete_ne by congruence.
    split; [done|]. intros ? ? Hx. del Hx. eauto.
Qed.

(** The sweep timer that fired is replaced by a new one. *)
Lemma LInv_sweep tid d a s :
  LInv a s -> TimerWheel.t_due a !! tid = Some (d, Sweep) ->
  LInv (add_timer Sweep (TimerWheel.spec_cancel tid a)) s.
Proof.
  intros [HS []] Htid. split; [done|].
  assert (forall tid' x, TimerWheel.t_due (add_timer Sweep (TimerWheel.spec_cancel tid a)) !! tid' = Some x <->
            (tid' = TimerWheel.t_next a /\ x = (TimerWheel.t_now a + 50, Sweep)) \/
            (tid <> tid' /\ TimerWheel.t_due a !! tid' = Some x)) as Hadd.
  { intros tid' x. simpl. rewrite lookup_insert_Some, lookup_delete_Some. split; [naive_solver|].
    intros [[-> ->]|[? Hx]]; [by left|right]. split; [|done]. apply I_ids0 in Hx. lia. }
  assert (forall tid' d', TimerWheel.t_due a !! tid' = Some (d', Sweep) -> tid' = tid) as Huniq.
  { intros tid' d' Hx. destruct I_sweep0 as (t0 & ? & _ & Hu). by rewrite (Hu _ _ Hx), (Hu _ _ Htid). }
  split; try done.
  - split; [simpl; lia|]. intros tid' x [[-> ->]|[_ Hx]]%Hadd; simpl; [lia|]. apply I_ids0 in Hx. lia.
  - intros tid' d' cb [[-> [= -> ->]]|[_ Hx]]%Hadd; [done|]. eauto.
  - intros tid' d' p [[_ [=]]|[_ Hx]]%Hadd. eauto.
  - intros p x Hx Hc. destruct (I_null0 _ _ Hx Hc) as [d' Hd']. exists d'. apply Hadd. right. split; congruence.
  - intros p tid' Hx. destruct (I_timer0 _ _ Hx) as [d' Hd']. exists d'. apply Hadd. right. split; congruence.
  - eexists (TimerWheel.t_next a), _. split; [apply Hadd; by left|].
    intros tid' d' [[-> _]|[Hne Hx%Huniq]]%Hadd; congruence.
Qed.

Section Firing.
Context {HO : HashOrder}.

(** One callback, run after its timer was taken out. *)
Lemma LInv_run_callback now tid d cb a s out a' s' out' :
  LInv a s -> TimerWheel.t_due a !! tid = Some (d, cb) ->
  TimerWheel.spec_interp (run_callback now cb (s, out)) (TimerWheel.spec_cancel tid a) = (a', (s', out')) ->
  LInv a' s'.
Proof.
  intros HI Htid H. unfold run_callback in H. destruct cb as [pid|pid|].
  - pose proof (LInv_match_timeout tid d pid a s HI Htid) as Hn.
    destruct (match_timeout pid s) as [s1 e]. simpl in H. by inv H.
  - pose proof (LInv_expireSession tid d pid a s HI Htid) as Hn.
    destruct (expireSession pid s) as [s1 e]. simpl in H. by inv H.
  - cbn [scheduleSweep TimerWheel.spec_interp] in H. rewrite spec_add_timer in H by done.
    cbn [TimerWheel.spec_interp] in H. inv H. by eapply LInv_sweep.
Qed.

Lemma LInv_fire now l a s out a' s' out' :
  LInv a s -> TimerWheel.spec_fire (run_callback now) l (a, (s, out)) = (a', (s', out')) -> LInv a' s'.
Proof.
  revert a s out. induction l as [|tid l IH]; intros a s out HI H; cbn [TimerWheel.spec_fire] in H; [by inv H|].
  destruct (TimerWheel.t_due a !! tid) as [[d cb]|] eqn:E; [|by eapply IH].
  destruct (TimerWheel.spec_interp _ _) as [a1 [s1 out1]] eqn:Ei. eapply IH; [|exact H].
  by eapply LInv_run_callback.
Qed.

(** Time passes. *)
Lemma LInv_later a s : LInv a s ->
  LInv (TimerWheel.mkTimers (TimerWheel.t_now a + 1) (TimerWheel.t_next a) (TimerWheel.t_due a)) s.
Proof.
  intros [HS []]. split; [done|]. split; simpl; try done. intros tid d cb H. apply I_due0 in H. lia.
Qed.

Lemma LInv_tick now a s out a' s' out' :
  LInv a s -> TimerWheel.spec_tick (run_callback now) (a, (s, out)) (a', (s', out')) -> LInv a' s'.
Proof. intros HI (l & _ & _ & H). simpl in H. eapply LInv_fire; [by apply LInv_later|]. symmetry. exact H. Qed.

(** *** The end of a room *)

Lemma room_end_fold rid w l m acc1 acc2 :
  NoDup l ->
  let r := foldl (room_end_step rid w) (acc1, acc2, m) l in
  forall p, snd r !! p = if bool_decide (p ∈ l)
                         then (fun ss => if roomId ss =? rid then set_room 0 kLobby ss else ss) <$> m !! p
                         else m !! p.
Proof.
  cbn zeta. induction l as [|x l IH] using rev_ind; intros Hnd p; [done|].
  apply NoDup_app in Hnd as (Hnd & Hx & _). specialize (IH Hnd). rewrite foldl_app. cbn [foldl].
  destruct (foldl _ _ l) as [[w1 l1] m1]. simpl in IH |- *.
  assert (x ∉ l) as Hxl by (intros H; apply (Hx x H); set_solver).
  pose proof (IH x) as Hmx. rewrite bool_decide_eq_false_2 in Hmx by done. rewrite Hmx.
  destruct (decide (p = x)) as [->|Hne].
  - rewrite (bool_decide_eq_true_2 (x ∈ l ++ [x])) by set_solver.
    destruct (m !! x) as [ss|] eqn:E; simpl; [|by rewrite Hmx]. destruct (roomId ss =? rid).
    + destruct (x =? w); simpl; by rewrite lookup_insert_eq.
    + simpl. by rewrite Hmx.
  - rewrite (bool_decide_ext (p ∈ l ++ [x]) (p ∈ l)) by set_solver. rewrite <- IH.
    destruct (m !! x) as [ss|]; [|done]. destruct (roomId ss =? rid); [|done].
    destruct (x =? w); simpl; by rewrite lookup_insert_ne.
Qed.

(** The sessions after the end of room [rid]. *)
Definition left_room (rid : Z) (ss : Session) : Session :=
  if roomId ss =? rid then set_room 0 kLobby ss else ss.

Lemma onRoomEnd_sessions rid w a s a' s' e :
  TimerWheel.spec_interp (onRoomEnd rid w s) a = (a', (s', e)) ->
  a' = a /\ s' = set_sessions (left_room rid <$> sessions_ s) (set_rooms (delete rid (rooms_ s)) s).
Proof.
  unfold onRoomEnd. cbn zeta. set (s1 := set_rooms _ s).
  pose proof (room_end_fold rid w (session_order s1) (sessions_ s1) EmptyString EmptyString
                (NoDup_hash_order CSessions _)) as Hf. cbn zeta in Hf.
  destruct (foldl _ _ _) as [[wa la] m]. simpl in Hf. cbn [TimerWheel.spec_interp]. intros H. inv H. split; [done|].
  f_equal. apply map_eq. intros p. rewrite Hf, lookup_fmap. unfold session_order. simpl.
  destruct (bool_decide _) eqn:E; [done|]. b2p. rewrite elem_of_hash_order_dom, <- eq_None_not_Some in E. by rewrite E.
Qed.

Lemma LInv_onRoomEnd rid w a s a' s' e :
  LInv a s -> rid <> 0 -> TimerWheel.spec_interp (onRoomEnd rid w s) a = (a', (s', e)) -> LInv a' s'.
Proof.
  intros [HS HT] Hrid [-> ->]%onRoomEnd_sessions.
  assert (forall p x, (left_room rid <$> sessions_ s) !! p = Some x -> exists y, sessions_ s !! p = Some y /\
            x = left_room rid y) as Hbw.
  { intros p x. rewrite lookup_fmap. destruct (sessions_ s !! p) as [y|]; [|done]. intros [= <-]. eauto. }
  assert (forall p y, sessions_ s !! p = Some y -> (left_room rid <$> sessions_ s) !! p = Some (left_room rid y)) as Hfw.
  { intros p y Hy. by rewrite lookup_fmap, Hy. }
  assert (forall y, s_conn (left_room rid y) = s_conn y /\ playerId (left_room rid y) = playerId y /\
            expireTimerId (left_room rid y) = expireTimerId y) as Hsame.
  { intros y. unfold left_room. by destruct (_ =? _). }
  assert (forall p y, sessions_ s !! p = Some y -> state (left_room rid y) = kMatching <-> state y = kMatching) as Hm.
  { intros p y Hy. unfold left_room. destruct (Z.eqb_spec (roomId y) rid) as [Hr|]; [|done]. simpl.
    destruct (I_room s HS _ _ Hy) as [[-> _]|[_ ?]]; [done|congruence]. }
  split; [destruct HS|destruct HT]; split; simpl; try done.
  - intros p x (y & Hy & ->)%Hbw. destruct (Hsame y) as (_ & -> & _). eauto.
  - intros name p (y & c & Hy & ? & ?)%I_conn0. eexists _, c. split; [by apply Hfw|].
    by destruct (Hsame y) as (-> & _).
  - intros p. rewrite I_wait0. split.
    + intros (y & Hy & ?). eexists. split; [by apply Hfw|]. by eapply Hm.
    + intros (x & (y & Hy & ->)%Hbw & ?). exists y. split; [done|]. by eapply Hm.
  - intros p x (y & Hy & ->)%Hbw Hmx. destruct (Hsame y) as (-> & _). eapply I_match0; [done|]. by eapply Hm.
  - intros p x (y & Hy & ->)%Hbw. unfold left_room. destruct (Z.eqb_spec (roomId y) rid) as [Hr|Hr]; [by right|].
    destruct (I_room0 _ _ Hy) as [[? ?]|?]; [left|by right]. split; [done|]. simpl. by rewrite lookup_delete_ne.
  - destruct I_rid0 as [? Hr]. split; [done|]. intros rid' l Hl. del Hl. eauto.
  - intros p1 p2 p3 x1 x2 x3 (y1 & H1 & ->)%Hbw (y2 & H2 & ->)%Hbw (y3 & H3 & ->)%Hbw. unfold left_room.
    destruct (Z.eqb_spec (roomId y1) rid), (Z.eqb_spec (roomId y2) rid), (Z.eqb_spec (roomId y3) rid); simpl;
      intros ???; try congruence. by eapply I_two0.
  - intros tid d p (y & Hy & ? & ?)%I_expire0. eexists. split; [by apply Hfw|].
    by destruct (Hsame y) as (-> & _ & ->).
  - intros p x (y & Hy & ->)%Hbw. destruct (Hsame y) as (-> & _ & ->). eauto.
  - intros p x (y & Hy & ->)%Hbw Hmx. eapply I_mtimer0; [done|]. by eapply Hm.
Qed.

End Firing.

(** ** The lobby with its wheel *)

Record Lobby (l : lobby) : Prop := mkLobby {
  L_wheel : TimerWheel.Inv (fst l);
  L_rem : TimerWheel.remainderMs_ (fst l) = 0;
  L_inv : LInv (TimerWheel.abs (fst l)) (snd l);
}.

(** Room ids start at 1, and [onEnd_] reports the id of a room. *)
Definition event_ok (ev : event) : Prop :=
  match ev with EvRoomEnd rid _ => rid <> 0 | _ => True end.

(** The wheel ticks of an event. *)
Definition wheel_ticks (ev : event) : Z := match ev with EvWheel _ => 1 | _ => 0 end.

Notation now_of l := (TimerWheel.nowTick_ (fst l)).

(** The tick counter has room for 2^62 ticks of 100 ms. *)
Definition in_time (l : lobby) : Prop := now_of l < 2 ^ 62.

Lemma Lobby_call {A} (p : prog A) f w s :
  Lobby (w, s) -> in_time (w, s) ->
  (forall a' r, TimerWheel.spec_interp p (TimerWheel.abs w) = (a', r) ->
     exists s' e, f r = Ok (s', e) /\ LInv a' s') ->
  exists l' e, call p f w = Ok (l', e) /\ Lobby l' /\ now_of l' = TimerWheel.nowTick_ w /\
    exists r, TimerWheel.spec_interp p (TimerWheel.abs w) = (TimerWheel.abs (fst l'), r) /\ f r = Ok (snd l', e).
Proof.
  intros [HW HR HL] Ht H. unfold in_time in Ht. simpl in *. unfold call.
  destruct (TimerWheel.interp_refines p [] w) as (HF & Hs & Hn & Hr); [by apply TimerWheel.Inv_Firing; [|lia]|].
  destruct (TimerWheel.interp p w) as [w' r]. simpl in *. destruct (H _ _ Hs) as (s' & e & Hf & HL').
  rewrite Hf. simpl. eexists _, e. split; [done|]. split_and!; [|done|by exists r].
  split; simpl; [by apply TimerWheel.Firing_Inv|congruence|done].
Qed.

Section Steps.
Context {HO : HashOrder}.

(** A wheel event is one tick of the specification. *)
Lemma exec_wheel now w s :
  Lobby (w, s) -> in_time (w, s) ->
  exists l' e, exec (EvWheel now) (w, s) = Ok (l', e) /\ Lobby l' /\ now_of l' = TimerWheel.nowTick_ w + 1 /\
    TimerWheel.spec_tick (run_callback now) (TimerWheel.abs w, (s, [])) (TimerWheel.abs (fst l'), (snd l', e)).
Proof.
  intros [HW HR HL] Ht. unfold in_time in Ht. cbn [fst snd exec] in *.
  destruct (TimerWheel.advance_refines (run_callback now) 100 w (s, [])) as (HI & Hs & Hn & Hr);
    [done|lia|rewrite HR; lia|rewrite HR; change ((0 + 100) / 100) with 1; lia|].
  rewrite HR in Hs, Hn, Hr. change (Z.to_nat ((0 + 100) / 100)) with 1%nat in Hs. change ((0 + 100) / 100) with 1 in Hn.
  destruct (TimerWheel.advance _ _ _) as [w' [s' e]]. cbn [fst snd] in *. eexists _, e. split; [done|].
  apply nsteps_once_inv in Hs. split_and!; [|done|done]. split; simpl; [done|done|]. by eapply LInv_tick.
Qed.

(** Every handler returns and keeps the invariant. *)
Lemma exec_Lobby ev l :
  Lobby l -> in_time l -> event_ok ev ->
  exists l' e, exec ev l = Ok (l', e) /\ Lobby l' /\ now_of l' = now_of l + wheel_ticks ev.
Proof.
  destruct l as [w s]. intros HL Ht Hev. pose proof (L_inv _ HL) as HI. simpl in HI.
  destruct ev as [c acc now r1 r2|c pid tok now|c|c i|c ms now|c|rid wn|now]; simpl wheel_ticks; rewrite ?Z.add_0_r.
  8: { destruct (exec_wheel now w s HL Ht) as (l' & e & ? & ? & ? & _). eauto 10. }
  all: cbn [exec].
  all: match goal with HL : Lobby (?w, ?s), Ht : in_time _ |- context [call ?p ?f _] =>
         destruct (Lobby_call p f w s HL Ht) as (? & ? & ? & ? & ? & _); [|by eauto 10] end.
  - intros a' [s' e] H. exists s', e. split; [done|]. by eapply LInv_onLogin.
  - intros a' [s' e] H. exists s', e. split; [done|]. by eapply LInv_onReconnect.
  - intros a' r H. by eapply LInv_onMatch.
  - intros a' [s' e] H. exists s', e. split; [done|]. by eapply LInv_onInput.
  - intros a' [s' e] H. exists s', e. split; [done|]. by eapply LInv_onHeartbeat.
  - intros a' [s' e] H. exists s', e. split; [done|]. by eapply LInv_onDisconnect.
  - intros a' [s' e] H. exists s', e. split; [done|]. by eapply LInv_onRoomEnd.
Qed.

End Steps.

Lemma Sess_init n st : 0 <= n < 2 ^ 31 -> Sess (init n st).
Proof.
  intros Hn. split; simpl; try (intros *; by rewrite ?lookup_empty); try done.
  - intros pid. split; [set_solver|]. intros (ss & Hss & _). by rewrite lookup_empty in Hss.
  - unfold EventLoopThreadPool.wf. simpl. rewrite length_map, length_seq. split; [lia|].
    destruct (decide (n = 0)) as [->|]; [by left|right; lia].
Qed.

Lemma Lobby_boot n st : 0 <= n < 2 ^ 31 -> Lobby (boot n st).
Proof.
  intros Hn. unfold boot, scheduleSweep.
  destruct (TimerWheel.interp_refines (WAdd kSweepIntervalMs Sweep (fun _ => WRet (init n st))) [] TimerWheel.init)
    as (HF & Hs & _ & Hr); [by apply TimerWheel.Inv_Firing; [apply TimerWheel.wheel_Inv_init|]|].
  destruct (TimerWheel.interp _ _) as [w s]. cbn [fst snd] in *.
  cbn [TimerWheel.spec_interp] in Hs. rewrite spec_add_timer in Hs by done.
  cbn [TimerWheel.spec_interp] in Hs. apply pair_equal_spec in Hs as [Ha <-].
  split; simpl; [by apply TimerWheel.Firing_Inv|done|]. rewrite <- Ha.
  assert (forall tid x, TimerWheel.t_due (add_timer Sweep (TimerWheel.abs TimerWheel.init)) !! tid = Some x <->
            tid = 1 /\ x = (50, Sweep)) as Hdue.
  { intros tid x. cbn [add_timer TimerWheel.t_due]. rewrite lookup_insert_Some.
    assert (TimerWheel.t_due (TimerWheel.abs (@TimerWheel.init callback)) = ∅) as -> by done.
    rewrite lookup_empty. change (TimerWheel.t_next _) with 1. change (TimerWheel.t_now _ + _) with 50. naive_solver. }
  split; [apply Sess_init; done|]. split.
  - split; [done|]. by intros tid x [-> ->]%Hdue.
  - by intros tid d cb [-> [= -> ->]]%Hdue.
  - by intros tid d pid [_ [=]]%Hdue.
  - intros pid ss H. simpl in H. by rewrite lookup_empty in H.
  - intros pid tid H. simpl in H. by rewrite lookup_empty in H.
  - intros pid ss H. simpl in H. by rewrite lookup_empty in H.
  - exists 1, 50. split; [by apply Hdue|]. by intros tid' d' [? _]%Hdue.
Qed.

(** ** Events at the level of the timer specification *)

Definition sstep {HO : HashOrder} (ev : event) a (s : t) (a' : timers) (s' : t) (e : list effect) : Prop :=
  match ev with
  | EvLogin c acc now r1 r2 => TimerWheel.spec_interp (onLogin c acc now r1 r2 s) a = (a', (s', e))
  | EvReconnect c pid tok now => TimerWheel.spec_interp (onReconnect c pid tok now s) a = (a', (s', e))
  | EvMatch c => TimerWheel.spec_interp (onMatch c s) a = (a', Ok (s', e))
  | EvInput c i => TimerWheel.spec_interp (onInput c i s) a = (a', (s', e))
  | EvHeartbeat c ms now => TimerWheel.spec_interp (onHeartbeat c ms now s) a = (a', (s', e))
  | EvDisconnect c => TimerWheel.spec_interp (onDisconnect (connName c) s) a = (a', (s', e))
  | EvRoomEnd rid w => TimerWheel.spec_interp (onRoomEnd rid w s) a = (a', (s', e))
  | EvWheel now => TimerWheel.spec_tick (run_callback now) (a, (s, [])) (a', (s', e))
  end.

Lemma exec_sstep {HO : HashOrder} ev l l' e :
  Lobby l -> in_time l -> event_ok ev -> exec ev l = Ok (l', e) ->
  Lobby l' /\ now_of l' = now_of l + wheel_ticks ev /\
  sstep ev (TimerWheel.abs (fst l)) (snd l) (TimerWheel.abs (fst l')) (snd l') e.
Proof.
  intros HL Ht Hev Hex. destruct (exec_Lobby ev l HL Ht Hev) as (l1 & e1 & Hex1 & HL1 & Hn1).
  rewrite Hex in Hex1. inv Hex1. split; [done|]. split; [done|]. destruct l as [w s].
  destruct ev as [c acc now r1 r2|c pid tok now|c|c i|c ms now|c|rid wn|now]; cbn [exec] in Hex;
    [..|destruct (exec_wheel now w s HL Ht) as (l2 & e2 & Hex2 & _ & _ & Hs); cbn [exec] in Hex2;
        rewrite Hex in Hex2; by inv Hex2].
  all: unfold call in Hex; destruct HL as [HW _ _]; simpl in HW;
    match type of Hex with context [TimerWheel.interp ?p _] =>
      destruct (TimerWheel.interp_refines p [] w) as (_ & Hs & _);
        [by apply TimerWheel.Inv_Firing; [|unfold in_time in Ht; simpl in Ht; lia]|];
      destruct (TimerWheel.interp p w) as [w' r]; cbn [fst snd] in Hs
    end.
  all: unfold sstep; cbn [fst snd]; rewrite Hs; try (destruct r as [s' e']; simpl in Hex; inv Hex; done).
  destruct r as [[s' e']|]; simpl in Hex; [inv Hex; done|done].
Qed.

(** A run whose states all satisfy [Q]. *)
Inductive run (Q : lobby -> Prop) : lobby -> list event -> list effect -> lobby -> Prop :=
  | run_nil l : Q l -> run Q l [] [] l
  | run_step l ev l1 e evs tr l2 (HO : HashOrder) :
      Q l -> in_time l -> event_ok ev -> exec ev l = Ok (l1, e) -> run Q l1 evs tr l2 ->
      run Q l (ev :: evs) (e ++ tr) l2.

Definition any (l : lobby) : Prop := True.

(** The states the lobby reaches from [start]. *)
Definition reachable (l : lobby) : Prop :=
  exists n st evs tr, 0 < n < 2 ^ 31 /\ run any (boot n st) evs tr l.

Definition ticks (evs : list event) : Z := foldr (fun ev n => wheel_ticks ev + n) 0 evs.

Lemma ticks_nonneg evs : 0 <= ticks evs.
Proof. induction evs as [|[] evs IH]; simpl; lia. Qed.

Lemma run_Lobby Q l evs tr l' : run Q l evs tr l' -> Lobby l -> Lobby l' /\ now_of l' = now_of l + ticks evs.
Proof.
  induction 1 as [l _|l ev l1 e evs tr l2 HO HQ Ht Hev Hex Hr IH]; intros HL; simpl; [split; [done|lia]|].
  destruct (exec_sstep _ _ _ _ HL Ht Hev Hex) as (HL1 & Hn & _). destruct (IH HL1) as [? ?]. split; [done|lia].
Qed.

Lemma reachable_Lobby l : reachable l -> Lobby l.
Proof. intros (n & st & evs & tr & Hn & Hr). by destruct (run_Lobby _ _ _ _ _ Hr (Lobby_boot n st ltac:(lia))). Qed.

(** ** The fate of one session

    [same ss ss']: what only the owner of a connection changes is unchanged. *)
Definition same (ss ss' : Session) : Prop :=
  s_conn ss' = s_conn ss /\ token ss' = token ss /\ account ss' = account ss /\
  expireTimerId ss' = expireTimerId ss.

(** The expiry timer of [pid], if any, is untouched. *)
Definition timer_kept (pid tid : Z) a a' : Prop :=
  forall d, TimerWheel.t_due a !! tid = Some (d, Expire pid) -> TimerWheel.t_due a' !! tid = Some (d, Expire pid).

Lemma match_timeout_sessions pid s p ss :
  sessions_ s !! p = Some ss ->
  exists ss', sessions_ (fst (match_timeout pid s)) !! p = Some ss' /\ same ss ss' /\
    lastHeartbeatMs ss' = lastHeartbeatMs ss /\ (ss' = ss \/ (p = pid /\ state ss' = kLobby)).
Proof.
  intros Hp. unfold match_timeout. destruct (negb _); simpl; [exists ss; split_and!; [done|done|done|by left]|].
  destruct (sessions_ s !! pid) as [ss0|] eqn:E; simpl; [|exists ss; split_and!; [done|done|done|by left]].
  destruct (decide (p = pid)) as [->|]; [|rewrite lookup_insert_ne by done; exists ss; split_and!; [done|done|done|by left]].
  rewrite lookup_insert_eq. rewrite Hp in E. inv E. eexists. split_and!; [done|done|done|by right].
Qed.

Lemma match_timeout_none pid s p :
  sessions_ s !! p = None -> sessions_ (fst (match_timeout pid s)) !! p = None.
Proof.
  intros Hp. unfold match_timeout. destruct (negb _); simpl; [done|].
  destruct (sessions_ s !! pid) as [ss0|] eqn:E; simpl; [|done].
  rewrite lookup_insert_ne by congruence. done.
Qed.

Section Fate.
Context {HO : HashOrder}.

Lemma expireSession_sessions pid s ss :
  sessions_ s !! pid = Some ss -> s_conn ss = None ->
  sessions_ (fst (expireSession pid s)) = delete pid (sessions_ s).
Proof. intros Hp Hc. unfold expireSession. rewrite Hp, bool_decide_eq_false_2 by (rewrite Hc; tauto). done. Qed.

(** A callback removes the session it expires and touches no connection. *)
Lemma callback_fate now tid d cb a s out a' s' out' pid ss :
  LInv a s -> TimerWheel.t_due a !! tid = Some (d, cb) ->
  TimerWheel.spec_interp (run_callback now cb (s, out)) (TimerWheel.spec_cancel tid a) = (a', (s', out')) ->
  sessions_ s !! pid = Some ss ->
  (exists ss', sessions_ s' !! pid = Some ss' /\ same ss ss' /\ lastHeartbeatMs ss' = lastHeartbeatMs ss /\
     timer_kept pid (expireTimerId ss) a a') \/
  (s_conn ss = None /\ tid = expireTimerId ss /\ cb = Expire pid /\ sessions_ s' !! pid = None).
Proof.
  intros [HS HT] Htid H Hp. unfold run_callback in H. destruct cb as [q|q|].
  - left. destruct (match_timeout_sessions q s pid ss Hp) as (ss' & Hp' & Hsame & Hh & _).
    destruct (match_timeout q s) as [s1 e]. simpl in H. inv H. exists ss'. split_and!; try done.
    intros d' Hd'. apply cancel_due. split; [congruence|done].
  - destruct (I_expire a s HT _ _ _ Htid) as (x & Hx & Hc & Ht). pose proof (expireSession_sessions q s x Hx Hc) as Hd.
    destruct (expireSession q s) as [s1 e]. simpl in H, Hd. inv H. rewrite Hd.
    destruct (decide (pid = q)) as [->|Hne].
    + right. rewrite Hp in Hx. inv Hx. rewrite lookup_delete_eq. done.
    + left. exists ss. rewrite lookup_delete_ne by done. split_and!; try done.
      intros d' Hd'. apply cancel_due. split; [congruence|done].
  - left. cbn [scheduleSweep TimerWheel.spec_interp] in H. rewrite spec_add_timer in H by done.
    cbn [TimerWheel.spec_interp] in H. inv H. exists ss. split_and!; try done.
    intros d' Hd'. cbn [add_timer TimerWheel.t_due TimerWheel.spec_cancel TimerWheel.t_next].
    rewrite lookup_insert_ne, lookup_delete_ne; [done|congruence|]. apply (I_ids _ _ HT) in Hd'. lia.
Qed.

Lemma callback_none now cb w a a' s' out' pid :
  TimerWheel.spec_interp (run_callback now cb w) a = (a', (s', out')) ->
  sessions_ (fst w) !! pid = None -> sessions_ s' !! pid = None.
Proof.
  destruct w as [s out]. unfold run_callback. intros H Hp. simpl in Hp. destruct cb as [q|q|].
  - pose proof (match_timeout_none q s pid Hp). destruct (match_timeout q s) as [s1 e]. simpl in H. by inv H.
  - assert (sessions_ (fst (expireSession q s)) !! pid = None).
    { unfold expireSession. destruct (sessions_ s !! q); [|done]. destruct (bool_decide _); [done|]. simpl.
      rewrite lookup_delete_None. by right. }
    destruct (expireSession q s) as [s1 e]. simpl in H. by inv H.
  - cbn [scheduleSweep TimerWheel.spec_interp] in H. rewrite spec_add_timer in H by done.
    cbn [TimerWheel.spec_interp] in H. by inv H.
Qed.

Lemma callback_next now cb w a a' s' out' :
  TimerWheel.spec_interp (run_callback now cb w) a = (a', (s', out')) -> nextPlayerId_ s' = nextPlayerId_ (fst w).
Proof.
  destruct w as [s out]. unfold run_callback, match_timeout, expireSession. intros H. simpl.
  repeat (dmatch_in H); cbn [scheduleSweep TimerWheel.spec_interp] in H; try rewrite spec_add_timer in H by done;
    cbn [TimerWheel.spec_interp] in H; by inv H.
Qed.

Lemma fire_next now l a w a' s' out' :
  TimerWheel.spec_fire (run_callback now) l (a, w) = (a', (s', out')) -> nextPlayerId_ s' = nextPlayerId_ (fst w).
Proof.
  revert a w. induction l as [|tid l IH]; intros a w H; cbn [TimerWheel.spec_fire] in H; [by inv H|].
  destruct (TimerWheel.t_due a !! tid) as [[d cb]|] eqn:E; [|by eapply IH].
  destruct (TimerWheel.spec_interp _ _) as [a1 [s1 out1]] eqn:Ei.
  rewrite (IH _ _ H). simpl. by eapply callback_next.
Qed.

Lemma fire_none now l a w a' s' out' pid :
  TimerWheel.spec_fire (run_callback now) l (a, w) = (a', (s', out')) ->
  sessions_ (fst w) !! pid = None -> sessions_ s' !! pid = None.
Proof.
  revert a w. induction l as [|tid l IH]; intros a w H Hp; cbn [TimerWheel.spec_fire] in H; [by inv H|].
  destruct (TimerWheel.t_due a !! tid) as [[d cb]|] eqn:E; [|by eapply IH].
  destruct (TimerWheel.spec_interp _ _) as [a1 [s1 out1]] eqn:Ei. eapply IH; [exact H|]. by eapply callback_none.
Qed.

Lemma fire_fate now l a s out a' s' out' pid ss :
  LInv a s -> TimerWheel.spec_fire (run_callback now) l (a, (s, out)) = (a', (s', out')) ->
  sessions_ s !! pid = Some ss ->
  (exists ss', sessions_ s' !! pid = Some ss' /\ same ss ss' /\ lastHeartbeatMs ss' = lastHeartbeatMs ss /\
     timer_kept pid (expireTimerId ss) a a') \/
  (s_conn ss = None /\ expireTimerId ss ∈ l /\ sessions_ s' !! pid = None).
Proof.
  revert a s out ss. induction l as [|tid l IH]; intros a s out ss HI H Hp; cbn [TimerWheel.spec_fire] in H.
  { inv H. left. exists ss. split_and!; [done|done|done|by intros d]. }
  destruct (TimerWheel.t_due a !! tid) as [[d cb]|] eqn:E.
  2: { destruct (IH _ _ _ _ HI H Hp) as [?|(? & ? & ?)]; [by left|right]. split_and!; [done|by right|done]. }
  destruct (TimerWheel.spec_interp _ _) as [a1 [s1 out1]] eqn:Ei.
  destruct (callback_fate _ _ _ _ _ _ _ _ _ _ _ _ HI E Ei Hp) as [(ss1 & Hp1 & (Hc & Htk & Hac & Ht) & Hh & Hk)|(Hc & -> & _ & Hp1)].
  - pose proof (LInv_run_callback _ _ _ _ _ _ _ _ _ _ HI E Ei) as HI1.
    destruct (IH _ _ _ _ HI1 H Hp1) as [(ss2 & Hp2 & (? & ? & ? & ?) & ? & Hk2)|(? & ? & ?)].
    + left. exists ss2. unfold same. split_and!; try congruence. rewrite Ht in Hk2. intros d' ?%Hk. by apply Hk2.
    + right. rewrite <- Hc, <- Ht. split_and!; [done|by right|done].
  - right. split_and!; [done|left|]. eapply fire_none; [exact H|]. done.
Qed.

(** Timers other than the expiry timer of [pid] may come and go. *)
Lemma timer_kept_add pid tid cb a s : Tim a s -> timer_kept pid tid a (add_timer cb a).
Proof. intros HT d Hd. apply (add_due a s); [done|]. right. split; [|done]. apply (I_ids a s HT) in Hd. lia. Qed.

Lemma timer_kept_cancel pid tid tid' d' cb a :
  TimerWheel.t_due a !! tid' = Some (d', cb) -> cb <> Expire pid -> timer_kept pid tid a (TimerWheel.spec_cancel tid' a).
Proof. intros Ht Hcb d Hd. apply cancel_due. split; [congruence|done]. Qed.

Lemma tryMatch_fate a s a' s' e pid ss :
  LInv a s -> TimerWheel.spec_interp (tryMatch s) a = (a', Ok (s', e)) -> sessions_ s !! pid = Some ss ->
  exists ss', sessions_ s' !! pid = Some ss' /\ same ss ss' /\ timer_kept pid (expireTimerId ss) a a'.
Proof.
  intros HI H Hp. destruct (tryMatch_inv a s HI) as [(q & _ & _ & _ & Heq)|
    (p1 & p2 & s1 & s2 & c1 & c2 & t1 & t2 & q & l & pool & Hne & Hs1 & Hs2 & _ & _ & _ & _ & Ht1 & Ht2 & _ & _ & _ & Heq)];
    rewrite Heq in H; inv H.
  - exists ss. split_and!; [done|done|by intros d].
  - destruct HI as [_ HT]. destruct (I_timer a s HT _ _ Ht1) as [d1 Hd1], (I_timer a s HT _ _ Ht2) as [d2 Hd2].
    assert (exists ss', sessions_ (paired p1 p2 q l pool s) !! pid = Some ss' /\ same ss ss') as (ss' & ? & ?).
    { simpl. rewrite !lookup_alter. repeat (case_decide; subst); rewrite ?Hp; solve [done|by eexists]. }
    exists ss'. split_and!; [done|done|]. intros d Hd. apply cancel_due. split; [congruence|].
    apply cancel_due. split; [congruence|done].
Qed.

Lemma onMatch_fate c a s a' s' e pid ss :
  LInv a s -> TimerWheel.spec_interp (onMatch c s) a = (a', Ok (s', e)) -> sessions_ s !! pid = Some ss ->
  exists ss', sessions_ s' !! pid = Some ss' /\ same ss ss' /\ timer_kept pid (expireTimerId ss) a a'.
Proof.
  intros HI H Hp. destruct (onMatch_inv c a s (proj1 HI)) as [(q & sq & Hso & Hl & Heq)|[_ Heq]]; rewrite Heq in H.
  2: { inv H. exists ss. split_and!; [done|done|by intros d]. }
  apply sessionOf_inv in Hso as (Hq & Hc & _); [|apply HI]. pose proof (LInv_queued q sq c a s HI Hq Hc Hl) as HI1.
  assert (exists s1, sessions_ (queued q (TimerWheel.t_next a) sq s) !! pid = Some s1 /\ same ss s1) as (s1 & Hp1 & Hs1).
  { unfold queued. simpl. destruct (decide (pid = q)) as [->|]; [|rewrite lookup_insert_ne by done; by exists ss].
    rewrite lookup_insert_eq. rewrite Hq in Hp. inv Hp. by eexists. }
  destruct (tryMatch_fate _ _ _ _ _ _ _ HI1 H Hp1) as (ss' & ? & (? & ? & ? & ?) & Hk).
  destruct Hs1 as (? & ? & ? & Ht). exists ss'. rewrite Ht in Hk. unfold same. split_and!; try congruence.
  intros d Hd. apply Hk. by apply (timer_kept_add _ _ _ _ _ (proj2 HI)).
Qed.

Lemma sstep_fate ev a s a' s' e pid ss :
  LInv a s -> sstep ev a s a' s' e -> sessions_ s !! pid = Some ss ->
  (exists ss', sessions_ s' !! pid = Some ss' /\ same ss ss' /\ timer_kept pid (expireTimerId ss) a a') \/
  (exists c now, ev = EvReconnect c pid (token ss) now /\ s_conn ss = None) \/
  (exists c, ev = EvDisconnect c /\ connToPlayer_ s !! connName c = Some pid) \/
  (exists now, ev = EvWheel now /\ s_conn ss = None /\ sessions_ s' !! pid = None /\
     TimerWheel.t_due a !! expireTimerId ss = Some (TimerWheel.t_now a + 1, Expire pid)).
Proof.
  intros HI H Hp. destruct ev as [c acc now r1 r2|c q tok now|c|c i|c ms now|c|rid wn|now]; cbn [sstep] in H.
  - left. cbn [onLogin TimerWheel.spec_interp] in H. inv H. exists ss. simpl.
    rewrite lookup_insert_ne; [split_and!; [done|done|by intros d]|]. apply (I_key s (proj1 HI)) in Hp. lia.
  - destruct (onReconnect_inv c q tok now a s HI) as [(sq & Hq & Ht & Hnull & Heq)|[_ Heq]]; cbn zeta in Heq;
      rewrite Heq in H.
    + destruct (decide (pid = q)) as [->|Hne].
      { right. left. rewrite Hp in Hq. inv Hq. eauto. }
      left. injection H as <- <- _. exists ss. simpl. rewrite lookup_insert_ne by done. split_and!; [done|done|].
      destruct (I_null a s (proj2 HI) _ _ Hq Hnull) as [d0 Hd0].
      eapply timer_kept_cancel; [exact Hd0|]. congruence.
    + left. inv H. exists ss. split_and!; [done|done|by intros d].
  - left. by eapply onMatch_fate.
  - left. unfold onInput in H. repeat (dmatch_in H); simpl in H; inv H; exists ss; (split_and!; [done|done|by intros d]).
  - left. simpl in H. inv H. destruct (sessionOf c s) as [[q sq]|] eqn:Es; [|exists ss; split_and!; [done|done|by intros d]].
    apply sessionOf_inv in Es as (Hq & _); [|apply HI]. simpl.
    destruct (decide (pid = q)) as [->|]; [|exists ss; rewrite lookup_insert_ne by done; split_and!; [done|done|by intros d]].
    rewrite lookup_insert_eq. rewrite Hq in Hp. inv Hp. eexists. split_and!; [done|done|by intros d].
  - destruct (onDisconnect_inv (connName c) a s (proj1 HI)) as [(q & sq & En & Hq & Heq)|[_ Heq]].
    + destruct (decide (pid = q)) as [->|Hne]; [right; right; left; eauto|]. left.
      destruct (parted _ _ _ _) as [ss' qu]. rewrite Heq in H. injection H as <- <- _. exists ss. simpl.
      rewrite lookup_insert_ne by done. split_and!; [done|done|]. eapply timer_kept_add, (proj2 HI).
    + left. rewrite Heq in H. inv H. exists ss. split_and!; [done|done|by intros d].
  - left. apply onRoomEnd_sessions in H as [-> ->]. simpl. rewrite lookup_fmap, Hp. eexists. split; [done|].
    split; [|by intros d]. unfold left_room. by destruct (_ =? _).
  - destruct H as (l & _ & Hl & H). simpl in H, Hl. symmetry in H.
    destruct (fire_fate _ _ _ _ _ _ _ _ pid ss (LInv_later a s HI) H Hp) as [(ss' & ? & ? & _ & Hk)|(Hc & Hin & Hn)].
    + left. exists ss'. split_and!; [done|done|exact Hk].
    + right. right. right. exists now. split_and!; [done|done|done|]. apply Hl in Hin as [cb Hcb].
      destruct (I_null a s (proj2 HI) _ _ Hp Hc) as [d Hd]. rewrite Hcb in Hd |- *. congruence.
Qed.

(** A removed session does not come back. *)
Lemma sstep_none ev a s a' s' e pid :
  LInv a s -> sstep ev a s a' s' e -> sessions_ s !! pid = None -> pid < nextPlayerId_ s ->
  sessions_ s' !! pid = None /\ pid < nextPlayerId_ s'.
Proof.
  intros HI H Hp Hlt. destruct ev as [c acc now r1 r2|c q tok now|c|c i|c ms now|c|rid wn|now]; cbn [sstep] in H.
  - cbn [onLogin TimerWheel.spec_interp] in H. inv H. simpl. rewrite lookup_insert_ne by lia. split; [done|lia].
  - destruct (onReconnect_inv c q tok now a s HI) as [(sq & Hq & _ & _ & Heq)|[_ Heq]]; cbn zeta in Heq;
      rewrite Heq in H; [|by inv H]. injection H as _ <- _. simpl. rewrite lookup_insert_ne by congruence. done.
  - destruct (onMatch_inv c a s (proj1 HI)) as [(q & sq & Hso & Hl & Heq)|[_ Heq]]; rewrite Heq in H; [|by inv H].
    apply sessionOf_inv in Hso as (Hq & Hc & _); [|apply HI]. pose proof (LInv_queued q sq c a s HI Hq Hc Hl) as HI1.
    assert (sessions_ (queued q (TimerWheel.t_next a) sq s) !! pid = None) as Hp1.
    { unfold queued. simpl. rewrite lookup_insert_ne by congruence. done. }
    destruct (tryMatch_inv _ _ HI1) as [(q' & _ & _ & _ & Heq')|
      (p1 & p2 & s1 & s2 & c1 & c2 & t1 & t2 & q' & l & pool & _ & _ & _ & _ & _ & _ & _ & _ & _ & _ & _ & _ & Heq')];
      rewrite Heq' in H; inv H; [done|]. split; [|done].
    cbn [paired sessions_]. rewrite !lookup_alter. repeat (case_decide; subst); by rewrite ?Hp1.
  - unfold onInput in H. repeat (dmatch_in H); simpl in H; by inv H.
  - simpl in H. inv H. destruct (sessionOf c s) as [[q sq]|] eqn:Es; [|done].
    apply sessionOf_inv in Es as (Hq & _); [|apply HI]. simpl. by rewrite lookup_insert_ne by congruence.
  - destruct (onDisconnect_inv (connName c) a s (proj1 HI)) as [(q & sq & En & Hq & Heq)|[_ Heq]].
    + destruct (parted _ _ _ _) as [ss' qu]. rewrite Heq in H. injection H as _ <- _. simpl.
      by rewrite lookup_insert_ne by congruence.
    + rewrite Heq in H. by inv H.
  - apply onRoomEnd_sessions in H as [-> ->]. simpl. by rewrite lookup_fmap, Hp.
  - destruct H as (l & _ & _ & H). simpl in H. symmetry in H. split; [by eapply fire_none|].
    by rewrite (fire_next _ _ _ _ _ _ _ H).
Qed.

Lemma sstep_next ev a s a' s' e :
  LInv a s -> sstep ev a s a' s' e -> nextPlayerId_ s <= nextPlayerId_ s'.
Proof.
  intros HI H. destruct ev as [c acc now r1 r2|c q tok now|c|c i|c ms now|c|rid wn|now]; cbn [sstep] in H.
  - cbn [onLogin TimerWheel.spec_interp] in H. inv H. simpl. lia.
  - destruct (onReconnect_inv c q tok now a s HI) as [(sq & _ & _ & _ & Heq)|[_ Heq]]; cbn zeta in Heq;
      rewrite Heq in H; [|by inv H]. by injection H as _ <- _.
  - destruct (onMatch_inv c a s (proj1 HI)) as [(q & sq & Hso & Hl & Heq)|[_ Heq]]; rewrite Heq in H; [|by inv H].
    apply sessionOf_inv in Hso as (Hq & Hc & _); [|apply HI]. pose proof (LInv_queued q sq c a s HI Hq Hc Hl) as HI1.
    destruct (tryMatch_inv _ _ HI1) as [(q' & _ & _ & _ & Heq')|
      (p1 & p2 & s1 & s2 & c1 & c2 & t1 & t2 & q' & l & pool & _ & _ & _ & _ & _ & _ & _ & _ & _ & _ & _ & _ & Heq')];
      rewrite Heq' in H; by inv H.
  - unfold onInput in H. repeat (dmatch_in H); simpl in H; by inv H.
  - simpl in H. inv H. by destruct (sessionOf c s) as [[q sq]|].
  - destruct (onDisconnect_inv (connName c) a s (proj1 HI)) as [(q & sq & _ & _ & Heq)|[_ Heq]].
    + destruct (parted _ _ _ _) as [ss' qu]. rewrite Heq in H. by injection H as _ <- _.
    + rewrite Heq in H. by inv H.
  - by apply onRoomEnd_sessions in H as [-> ->].
  - destruct H as (l & _ & _ & H). simpl in H. symmetry in H. by rewrite (fire_next _ _ _ _ _ _ _ H).
Qed.

End Fate.

(** C3: The lobby never crashes and its tables always agree. In every state
    the lobby can reach, with any interleaving of logins, reconnections, match
    requests, inputs, heartbeats, disconnections, ends of rooms and ticks of
    the wheel: each table entry points to the session it should, a player is
    in the queue exactly when his session says so and then has a connection
    and a running timeout, a session is in a room exactly when the room
    exists, at most two sessions share a room, a disconnected session has
    exactly one expiry timer and a connected one none, and exactly one
    heartbeat sweep is scheduled; and every event is handled without undefined
    behaviour. *)
Theorem lobby_consistent (l : lobby) (Hreach : reachable l) :
  LInv (TimerWheel.abs (fst l)) (snd l) /\
  forall (HO : HashOrder) ev, in_time l -> event_ok ev -> exists l' e, exec ev l = Ok (l', e).
Proof.
  apply reachable_Lobby in Hreach as HL. split; [apply HL|]. intros HO ev Ht Hev.
  destruct (exec_Lobby ev l HL Ht Hev) as (l' & e & ? & _). eauto.
Qed.

Lemma boot_reachable n st : 0 < n < 2 ^ 31 -> reachable (boot n st).
Proof. intros Hn. exists n, st, [], []. split; [done|]. by constructor. Qed.

Lemma lobby_consistent_witness :
  LInv (TimerWheel.abs (fst (boot 2 true))) (snd (boot 2 true)) /\
  forall (HO : HashOrder) ev, in_time (boot 2 true) -> event_ok ev -> exists l' e, exec ev (boot 2 true) = Ok (l', e).
Proof. apply (lobby_consistent (boot 2 true)). apply boot_reachable. lia. Defined.

(** Executing events, for concrete scenarios; [q] must hold in every state. *)
Fixpoint exec_while (q : lobby -> bool) (evs : list event) (l : lobby) : res (lobby * list effect) :=
  if negb (q l) then UB
  else
    match evs with
    | [] => Ok (l, [])
    | ev :: evs =>
        if (now_of l <? 2 ^ 62) && match ev with EvRoomEnd rid _ => negb (rid =? 0) | _ => true end then
          (let! (l1, e) := @exec elements_order ev l in
           let! (l2, tr) := exec_while q evs l1 in
           Ok (l2, e ++ tr))%gs
        else UB
    end.

Lemma run_exec_while (Q : lobby -> Prop) q evs l l' tr :
  (forall l, q l = true -> Q l) -> exec_while q evs l = Ok (l', tr) -> run Q l evs tr l'.
Proof.
  intros HQ. revert l tr. induction evs as [|ev evs IH]; intros l tr H; cbn [exec_while] in H;
    (destruct (q l) eqn:Eq; [|done]); apply HQ in Eq; cbn [negb] in H; [inv H; by constructor|].
  destruct (_ && _) eqn:E; [|done]. destruct (exec ev l) as [[l1 e]|] eqn:E1; cbn [res_bind] in H; [|done].
  destruct (exec_while q evs l1) as [[l2 tr2]|] eqn:E2; cbn [res_bind] in H; [|done]. inv H.
  apply andb_true_iff in E as [E0 Eok]. apply Z.ltb_lt in E0.
  eapply (run_step Q _ _ _ _ _ _ _ elements_order); [done|done| |exact E1|by apply IH].
  destruct ev; try done. b2p. done.
Qed.

Definition exec_all (evs : list event) (l : lobby) : res (lobby * list effect) := exec_while (fun _ => true) evs l.

Lemma run_exec_all evs l l' tr : exec_all evs l = Ok (l', tr) -> run any l evs tr l'.
Proof. by apply run_exec_while. Qed.

Lemma run_app Q l evs1 tr1 l1 evs2 tr2 l2 :
  run Q l evs1 tr1 l1 -> run Q l1 evs2 tr2 l2 -> run Q l (evs1 ++ evs2) (tr1 ++ tr2) l2.
Proof.
  induction 1 as [|l ev l' e evs tr l'' HO HQ Ht Hev Hex _ IH]; intros H2; [done|]. rewrite <- app_assoc. simpl.
  by eapply run_step; eauto.
Qed.

Lemma reachable_run l evs tr l' : reachable l -> run any l evs tr l' -> reachable l'.
Proof. intros (n & st & evs0 & tr0 & Hn & H0) Hr. exists n, st, (evs0 ++ evs), (tr0 ++ tr). eauto using run_app. Qed.

(** *** Sessions of disconnected players *)

Definition not_reconnect (pid : Z) (ev : event) : Prop :=
  match ev with EvReconnect _ q _ _ => q <> pid | _ => True end.

(** [pid] is disconnected and will expire at tick [d]. *)
Definition absent (pid d : Z) (tok : string) (l : lobby) : Prop :=
  exists ss, sessions_ (snd l) !! pid = Some ss /\ s_conn ss = None /\ token ss = tok /\
    TimerWheel.t_due (TimerWheel.abs (fst l)) !! expireTimerId ss = Some (d, Expire pid).

Definition gone (pid : Z) (l : lobby) : Prop :=
  sessions_ (snd l) !! pid = None /\ pid < nextPlayerId_ (snd l).

Lemma run_gone pid Q l evs tr l' : run Q l evs tr l' -> Lobby l -> gone pid l -> gone pid l'.
Proof.
  induction 1 as [|l ev l1 e evs tr l2 HO HQ Ht Hev Hex _ IH]; intros HL Hg; [done|].
  destruct (exec_sstep _ _ _ _ HL Ht Hev Hex) as (HL1 & _ & Hs). apply IH; [done|]. destruct Hg.
  eapply sstep_none; [apply HL|exact Hs|done|done].
Qed.

Lemma absent_step {HO : HashOrder} pid d tok ev l l' e :
  Lobby l -> in_time l -> event_ok ev -> exec ev l = Ok (l', e) -> absent pid d tok l -> not_reconnect pid ev ->
  absent pid d tok l' \/ (gone pid l' /\ now_of l' = d).
Proof.
  intros HL Ht Hev Hex (ss & Hp & Hc & Htok & Hd) Hnr. destruct (exec_sstep _ _ _ _ HL Ht Hev Hex) as (HL1 & Hn & Hs).
  destruct (sstep_fate _ _ _ _ _ _ _ _ (L_inv l HL) Hs Hp) as
    [(ss' & Hp' & (? & ? & ? & Ht') & Hk)|[(c & now & -> & _)|[(c & -> & Hm)|(now & -> & _ & Hg & Hdue)]]].
  - left. exists ss'. split_and!; try congruence. rewrite Ht'. by apply Hk.
  - by simpl in Hnr.
  - apply (I_conn _ (proj1 (L_inv l HL))) in Hm as (x & c' & Hx & ? & _). congruence.
  - right. simpl in Hn. rewrite Hd in Hdue. injection Hdue as ->. split; [split; [done|]|].
    + eapply sstep_next in Hs; [|apply HL]. apply (I_key _ (proj1 (L_inv l HL))) in Hp. lia.
    + rewrite Hn. done.
Qed.

Lemma absent_run pid d tok Q l evs tr l' :
  run Q l evs tr l' -> Lobby l -> absent pid d tok l -> Forall (not_reconnect pid) evs ->
  (absent pid d tok l' /\ now_of l' < d) \/ (gone pid l' /\ d <= now_of l').
Proof.
  induction 1 as [l _|l ev l1 e evs tr l2 HO HQ Ht Hev Hex Hr IH]; intros HL Ha Hnr.
  - left. split; [done|]. destruct Ha as (ss & _ & _ & _ & Hd). by eapply TimerWheel.Inv_future; [apply HL|].
  - apply Forall_cons in Hnr as [Hn0 Hnr]. destruct (exec_sstep _ _ _ _ HL Ht Hev Hex) as (HL1 & _ & _).
    destruct (absent_step _ _ _ _ _ _ _ HL Ht Hev Hex Ha Hn0) as [Ha1|[Hg Hd]]; [by apply IH|]. right.
    split; [by eapply run_gone|]. destruct (run_Lobby _ _ _ _ _ Hr HL1) as [_ ->]. pose proof (ticks_nonneg evs). lia.
Qed.

(** C19: A disconnected player's session is kept for exactly 30 seconds: for
    300 ticks of the wheel from the disconnection, whatever else happens, the
    session with its token is there, unless the player reconnects; at the 300th
    tick it is removed and does not come back. *)
Theorem session_kept_for_30s (HO : HashOrder) l c pid ss l1 e evs tr l2
  (Hreach : reachable l) (Ht : in_time l) (Hs : sessionOf c (snd l) = Some (pid, ss))
  (Hex : exec (EvDisconnect c) l = Ok (l1, e)) (Hr : run any l1 evs tr l2)
  (Hnr : Forall (not_reconnect pid) evs) :
  if ticks evs <? 300
  then exists ss', sessions_ (snd l2) !! pid = Some ss' /\ s_conn ss' = None /\ token ss' = token ss
  else sessions_ (snd l2) !! pid = None.
Proof.
  apply reachable_Lobby in Hreach as HL. destruct (exec_sstep (EvDisconnect c) l l1 e HL Ht I Hex) as (HL1 & Hn1 & Hst).
  assert (absent pid (now_of l1 + 300) (token ss) l1) as Ha.
  { pose proof (L_inv l HL) as [HS HT]. apply sessionOf_inv in Hs as (Hp & Hc & Hm & _); [|done]. cbn [sstep] in Hst.
    destruct (onDisconnect_inv (connName c) (TimerWheel.abs (fst l)) (snd l) HS) as [(q & sq & En & Hq & Heq)|[? _]];
      [|congruence]. rewrite Hm in En. injection En as <-. rewrite Hp in Hq. injection Hq as <-.
    destruct (parted _ _ _ _) as [ss' qu] eqn:Ep. rewrite Heq in Hst. apply pair_equal_spec in Hst as [Ha Hst].
    apply pair_equal_spec in Hst as [Hs2 _]. unfold absent. rewrite <- Hs2, <- Ha. exists ss'.
    cbn [sessions_ set_sessions]. rewrite lookup_insert_eq.
    assert (s_conn ss' = None /\ token ss' = token ss /\ expireTimerId ss' = TimerWheel.t_next (TimerWheel.abs (fst l)))
      as (? & ? & ->) by (unfold parted in Ep; destruct (decide (state ss = kMatching)); by inv Ep).
    split_and!; try done. cbn [add_timer TimerWheel.t_due]. rewrite lookup_insert_eq. simpl in Hn1.
    do 2 f_equal. simpl. lia. }
  pose proof (run_Lobby _ _ _ _ _ Hr HL1) as [_ Hn2].
  destruct (absent_run _ _ _ _ _ _ _ _ Hr HL1 Ha Hnr) as [[(ss' & ? & ? & ? & _) Hlt]|[[Hg _] Hge]];
    destruct (Z.ltb_spec (ticks evs) 300); try lia; [eauto|done].
Qed.

(** Scenarios on a server with two game threads and storage. *)
Definition after (evs : list event) : lobby :=
  match exec_all evs (boot 2 true) with Ok (l, _) => l | UB => boot 2 true end.

Lemma after_reachable evs : reachable (after evs).
Proof.
  unfold after. destruct (exec_all evs (boot 2 true)) as [[l tr]|] eqn:E; [|by apply boot_reachable].
  eapply reachable_run; [by apply (boot_reachable 2 true)|]. by apply run_exec_all.
Qed.

(** Evaluating a call whose result exists. *)
Lemma is_ok {A} (r : res A) : match r with Ok _ => true | UB => false end = true -> exists x, r = Ok x.
Proof. destruct r; [eauto|done]. Qed.

Definition alice_in : lobby := after [EvLogin 1 "alice" 0 1 2].

Lemma session_kept_for_30s_witness :
  exists l1 e, @exec elements_order (EvDisconnect 1) alice_in = Ok (l1, e) /\
  exists l2 tr, exec_all (replicate 299 (EvWheel 1)) l1 = Ok (l2, tr) /\
  exists ss', sessions_ (snd l2) !! 1 = Some ss' /\ s_conn ss' = None /\ token ss' = genToken 1 2.
Proof.
  destruct (is_ok (@exec elements_order (EvDisconnect 1) alice_in)) as [[l1 e] E1]; [vm_compute; reflexivity|].
  exists l1, e. split; [exact E1|].
  destruct (is_ok (exec_all (replicate 299 (EvWheel 1)) l1)) as [[l2 tr] E2].
  { assert (match @exec elements_order (EvDisconnect 1) alice_in with
            | Ok (l1, _) => match exec_all (replicate 299 (EvWheel 1)) l1 with Ok _ => true | UB => false end
            | UB => false end = true) as H by (vm_compute; reflexivity).
    rewrite E1 in H. exact H. }
  exists l2, tr. split; [exact E2|].
  destruct (sessionOf 1 (snd alice_in)) as [[pid ss]|] eqn:Es; [|vm_compute in Es; discriminate].
  assert (pid = 1) as -> by (vm_compute in Es; injection Es; congruence).
  assert (token ss = genToken 1 2) as <- by (vm_compute in Es; injection Es as <-; vm_compute; reflexivity).
  exact (session_kept_for_30s elements_order alice_in 1 1 ss l1 e (replicate 299 (EvWheel 1)) tr l2
           (after_reachable _) ltac:(vm_compute; reflexivity) Es E1 (run_exec_all _ _ _ _ E2)
           ltac:(repeat constructor)).
Defined.

(** *** Reconnection *)

(** C20: Reconnection. The right token for a disconnected session binds the
    new connection: the client gets [LoginResp 0] with the same player id and
    token, the expiry timer is withdrawn, and when the player is in a room the
    room is told to rebind him (it then sends the full state). Anything else
    (unknown player, wrong token, a session whose connection still lives) is
    answered with [LoginResp 1] and a shutdown, and changes nothing. *)
Theorem reconnect_outcomes (HO : HashOrder) w s c pid tok now
  (Hreach : reachable (w, s)) (Ht : in_time (w, s)) :
  (exists ss w' s' e, sessions_ s !! pid = Some ss /\ token ss = tok /\ s_conn ss = None /\
     exec (EvReconnect c pid tok now) (w, s) = Ok ((w', s'), e) /\
     e = Send c (MLoginResp 0 pid tok) ::
         (if decide (state ss = kInRoom) then
            match rooms_ s !! roomId ss with
            | Some l => [PostRoom l (roomId ss) (Room.ARebind pid c)]
            | None => []
            end
          else []) ++ enqueue_if s (JSetOnline (account ss)) /\
     sessionOf c s' = Some (pid, set_heartbeat now (set_conn (Some c) (set_timer 0 ss))) /\
     TimerWheel.t_due (TimerWheel.abs w') = delete (expireTimerId ss) (TimerWheel.t_due (TimerWheel.abs w))) \/
  ((forall ss, sessions_ s !! pid = Some ss -> token ss = tok -> is_Some (s_conn ss)) /\
   exec (EvReconnect c pid tok now) (w, s) = Ok ((w, s), [Send c (MLoginResp 1 0 EmptyString); Shutdown c])).
Proof.
  apply reachable_Lobby in Hreach as HL. pose proof (L_inv _ HL) as HI. simpl in HI.
  destruct (exec_Lobby (EvReconnect c pid tok now) (w, s) HL Ht I) as ([w' s'] & e & Hex & HL' & _).
  destruct (exec_sstep (EvReconnect c pid tok now) _ _ _ HL Ht I Hex) as (_ & _ & Hs). cbn [sstep fst snd] in Hs.
  destruct (onReconnect_inv c pid tok now _ s HI) as [(ss & Hp & Htok & Hc & Heq)|[Hno Heq]].
  - left. cbn zeta in Heq. rewrite Heq in Hs. apply pair_equal_spec in Hs as [Ha Hs]. injection Hs as <- <-.
    eexists ss, w', _, _. split_and!; [done|done|done|exact Hex|done| |].
    + unfold sessionOf. simpl. by rewrite !lookup_insert_eq.
    + by rewrite <- Ha.
  - right. split; [done|]. cbn [exec]. unfold onReconnect in Heq |- *.
    destruct (sessions_ s !! pid) as [ss|] eqn:Ep; [|done]. destruct (_ || _) eqn:Eg; [done|]. exfalso. b2p.
    apply dec_stable in H0. destruct (Hno ss eq_refl H) as [? ?]. congruence.
Qed.

Definition alice_away : lobby := after [EvLogin 1 "alice" 0 1 2; EvDisconnect 1; EvWheel 1].

Lemma reconnect_outcomes_witness :
  exists l' e, @exec elements_order (EvReconnect 2 1 (genToken 1 2) 50) alice_away = Ok (l', e) /\
    sessionOf 2 (snd l') <> None.
Proof.
  destruct alice_away as [w s] eqn:El.
  assert (match sessions_ (snd alice_away) !! 1 with
          | Some ss => bool_decide (token ss = genToken 1 2) && bool_decide (s_conn ss = None)
          | None => false end = true) as Hs by (vm_compute; reflexivity).
  assert (in_time alice_away) as Ht by (vm_compute; reflexivity). rewrite El in Hs, Ht. simpl in Hs.
  destruct (reconnect_outcomes elements_order w s 2 1 (genToken 1 2) 50) as
    [(ss & w' & s' & e & _ & _ & _ & Hex & _ & Hso & _)|[Hno _]].
  - rewrite <- El. apply after_reachable.
  - exact Ht.
  - exists (w', s'), e. split; [exact Hex|]. simpl. rewrite Hso. discriminate.
  - destruct (sessions_ s !! 1) as [ss|]; [|discriminate]. apply andb_true_iff in Hs as [H1 H2].
    apply bool_decide_eq_true in H1, H2. destruct (Hno ss eq_refl H1) as [? H]. rewrite H2 in H. discriminate.
Defined.

(** *** The wait for a match *)

Definition is_matching (pid : Z) (s : t) : Prop := exists ss, sessions_ s !! pid = Some ss /\ state ss = kMatching.

Definition matching (pid : Z) (l : lobby) : Prop := is_matching pid (snd l).

(** The timeout of [pid]'s current wait is due at tick [d]. *)
Definition deadline (pid d : Z) a (s : t) : Prop :=
  exists tid, matchTimer_ s !! pid = Some tid /\ TimerWheel.t_due a !! tid = Some (d, MatchTimeout pid).

Section Deadline.
Context {HO : HashOrder}.

Lemma match_timeout_matching q s pid :
  Sess s -> is_matching pid (fst (match_timeout q s)) ->
  is_matching pid s /\ q <> pid /\ matchTimer_ (fst (match_timeout q s)) = delete q (matchTimer_ s).
Proof.
  intros HS. unfold match_timeout, MatchQueue.contains. simpl. destruct (bool_decide _) eqn:E; simpl; b2p.
  - apply (I_wait s HS) in E as (sq & Hq & Hm). rewrite Hq. simpl. intros (ss & Hp & Hst). cbn [sessions_ set_sessions] in Hp. ins Hp; [done|].
    split_and!; [by exists ss|done|done].
  - intros (ss & Hp & Hst). split_and!; [by exists ss| |done]. intros ->. apply E, (I_wait s HS). eauto.
Qed.

Lemma callback_deadline now tid d cb a s out a' s' out' pid dl :
  LInv a s -> TimerWheel.t_due a !! tid = Some (d, cb) ->
  TimerWheel.spec_interp (run_callback now cb (s, out)) (TimerWheel.spec_cancel tid a) = (a', (s', out')) ->
  is_matching pid s' -> is_matching pid s /\ (deadline pid dl a s -> deadline pid dl a' s').
Proof.
  intros [HS HT] Htid H Hm'. unfold run_callback in H. destruct cb as [q|q|].
  - pose proof (match_timeout_matching q s pid HS) as Hq. destruct (match_timeout q s) as [s1 e]. simpl in H, Hq. inv H.
    destruct (Hq Hm') as (Hm & Hne & Hmt). split; [done|]. intros (t0 & Ht0 & Hd0). exists t0.
    rewrite Hmt, lookup_delete_ne by done. split; [done|]. apply cancel_due. split; congruence.
  - destruct (I_expire a s HT _ _ _ Htid) as (x & Hx & Hc & Ht). pose proof (expireSession_sessions q s x Hx Hc) as Hd.
    assert (matchTimer_ (fst (expireSession q s)) = matchTimer_ s) as Hmt.
    { unfold expireSession. by repeat dmatch. }
    destruct (expireSession q s) as [s1 e]. simpl in H, Hd, Hmt. inv H.
    destruct Hm' as (ss & Hp & Hst). rewrite Hd in Hp. del Hp. split; [by exists ss|].
    intros (t0 & Ht0 & Hd0). exists t0. rewrite Hmt. split; [done|]. apply cancel_due. split; congruence.
  - cbn [scheduleSweep TimerWheel.spec_interp] in H. rewrite spec_add_timer in H by done.
    cbn [TimerWheel.spec_interp] in H. inv H. split; [done|]. intros (t0 & Ht0 & Hd0). exists t0. split; [done|].
    cbn [add_timer TimerWheel.t_due TimerWheel.spec_cancel TimerWheel.t_next].
    rewrite lookup_insert_ne, lookup_delete_ne; [done|congruence|]. apply (I_ids _ _ HT) in Hd0. lia.
Qed.

Lemma fire_deadline now l a s out a' s' out' pid dl :
  LInv a s -> TimerWheel.spec_fire (run_callback now) l (a, (s, out)) = (a', (s', out')) ->
  is_matching pid s' -> is_matching pid s /\ (deadline pid dl a s -> deadline pid dl a' s').
Proof.
  revert a s out. induction l as [|tid l IH]; intros a s out HI H Hm; cbn [TimerWheel.spec_fire] in H; [by inv H|].
  destruct (TimerWheel.t_due a !! tid) as [[d cb]|] eqn:E; [|by eapply IH].
  destruct (TimerWheel.spec_interp _ _) as [a1 [s1 out1]] eqn:Ei.
  pose proof (LInv_run_callback _ _ _ _ _ _ _ _ _ _ HI E Ei) as HI1. destruct (IH _ _ _ HI1 H Hm) as [Hm1 Hd1].
  destruct (callback_deadline _ _ _ _ _ _ _ _ _ _ pid dl HI E Ei Hm1) as [Hm0 Hd0]. auto.
Qed.

Lemma tryMatch_deadline a s a' s' e pid dl :
  LInv a s -> TimerWheel.spec_interp (tryMatch s) a = (a', Ok (s', e)) ->
  is_matching pid s' -> deadline pid dl a s -> deadline pid dl a' s'.
Proof.
  intros HI H Hm (t0 & Ht0 & Hd0). destruct (tryMatch_inv a s HI) as [(q & _ & _ & _ & Heq)|
    (p1 & p2 & s1 & s2 & c1 & c2 & t1 & t2 & q & l & pool & Hne & Hs1 & Hs2 & _ & _ & _ & _ & Ht1 & Ht2 & _ & _ & _ & Heq)];
    rewrite Heq in H; inv H; [by exists t0|].
  destruct HI as [_ HT]. destruct (I_timer a s HT _ _ Ht1) as [d1 Hd1], (I_timer a s HT _ _ Ht2) as [d2 Hd2].
  destruct Hm as (ss & [(Hn1 & Hn2 & _)|(_ & y & _ & _ & _ & _ & ? & _)]%paired_sessions & Hst); [|congruence].
  exists t0. cbn [paired matchTimer_]. rewrite !lookup_delete_ne by done. split; [done|].
  apply cancel_due. split; [congruence|]. apply cancel_due. split; [congruence|done].
Qed.

(** As long as a player waits his deadline stands. *)
Lemma sstep_deadline ev a s a' s' e pid dl :
  LInv a s -> event_ok ev -> sstep ev a s a' s' e -> is_matching pid s -> is_matching pid s' ->
  deadline pid dl a s -> deadline pid dl a' s'.
Proof.
  intros HI Hev H Hm Hm' Hd. pose proof Hd as (t0 & Ht0 & Hd0). pose proof HI as [HS HT].
  destruct ev as [c acc now r1 r2|c q tok now|c|c i|c ms now|c|rid wn|now]; cbn [sstep] in H.
  - cbn [onLogin TimerWheel.spec_interp] in H. by inv H.
  - destruct (onReconnect_inv c q tok now a s HI) as [(sq & Hq & _ & Hnull & Heq)|[_ Heq]]; cbn zeta in Heq;
      rewrite Heq in H; [|by inv H]. injection H as <- <- _. exists t0. split; [done|]. apply cancel_due.
    destruct (I_null a s HT _ _ Hq Hnull) as [d1 Hd1]. split; [congruence|done].
  - destruct (onMatch_inv c a s HS) as [(q & sq & Hso & Hl & Heq)|[_ Heq]]; rewrite Heq in H; [|by inv H].
    apply sessionOf_inv in Hso as (Hq & Hc & _); [|done]. pose proof (LInv_queued q sq c a s HI Hq Hc Hl) as HI1.
    eapply tryMatch_deadline; [exact HI1|exact H|done|]. exists t0. split.
    + unfold queued. simpl. rewrite lookup_insert_ne; [done|]. intros ->. destruct Hm as (x & Hx & ?). congruence.
    + apply (add_due a s); [done|]. right. split; [|done]. apply (I_ids a s HT) in Hd0. lia.
  - unfold onInput in H. repeat (dmatch_in H); simpl in H; by inv H.
  - simpl in H. inv H. by destruct (sessionOf c s) as [[q sq]|].
  - destruct (onDisconnect_inv (connName c) a s HS) as [(q & sq & _ & _ & Heq)|[_ Heq]].
    + destruct (parted _ _ _ _) as [ss' qu]. rewrite Heq in H. injection H as <- <- _. exists t0. split; [done|].
      apply (add_due a s); [done|]. right. split; [|done]. apply (I_ids a s HT) in Hd0. lia.
    + rewrite Heq in H. by inv H.
  - by apply onRoomEnd_sessions in H as [-> ->].
  - destruct H as (l & _ & _ & H). simpl in H. symmetry in H.
    by destruct (fire_deadline _ _ _ _ _ _ _ _ pid dl (LInv_later a s HI) H Hm') as [_ Hdl]; apply Hdl.
Qed.

End Deadline.

Lemma run_deadline pid dl l evs tr l' :
  run (matching pid) l evs tr l' -> Lobby l -> deadline pid dl (TimerWheel.abs (fst l)) (snd l) -> now_of l' < dl.
Proof.
  induction 1 as [l HQ|l ev l1 e evs tr l2 HO HQ Ht Hev Hex Hr IH]; intros HL Hd.
  - destruct Hd as (tid & _ & Hd). by eapply TimerWheel.Inv_future; [apply HL|].
  - destruct (exec_sstep _ _ _ _ HL Ht Hev Hex) as (HL1 & _ & Hs). apply IH; [done|].
    eapply sstep_deadline; [apply HL|exact Hev|exact Hs|done| |done]. by inv Hr.
Qed.

(** C21: Nobody waits longer than 30 seconds for a match: in any run during
    which a player stays in the queue, the wheel makes fewer than 300 ticks;
    by then he was matched, timed out, or left. *)
Theorem match_wait_bounded pid l evs tr l' (Hreach : reachable l) (Hr : run (matching pid) l evs tr l') :
  ticks evs < 300.
Proof.
  apply reachable_Lobby in Hreach as HL. pose proof (L_inv l HL) as [HS HT].
  assert (matching pid l) as (ss & Hp & Hm) by (by inv Hr).
  destruct (I_mtimer _ _ HT _ _ Hp Hm) as [tid Htid]. destruct (I_timer _ _ HT _ _ Htid) as [d Hd].
  pose proof (I_due _ _ HT _ _ _ Hd) as Hle. simpl in Hle.
  assert (now_of l' < d) as Hlt by (eapply run_deadline; [exact Hr|done|by exists tid]).
  destruct (run_Lobby _ _ _ _ _ Hr HL) as [_ Hn]. lia.
Qed.

Definition alice_waits : lobby := after [EvLogin 1 "alice" 0 1 2; EvMatch 1].

Definition matchingb (pid : Z) (l : lobby) : bool :=
  match sessions_ (snd l) !! pid with Some ss => bool_decide (state ss = kMatching) | None => false end.

Lemma matchingb_spec pid l : matchingb pid l = true -> matching pid l.
Proof.
  unfold matchingb. intros H. destruct (sessions_ (snd l) !! pid) as [ss|] eqn:E; [|done]. b2p. by exists ss.
Qed.

Lemma match_wait_bounded_witness :
  exists l' tr, exec_while (matchingb 1) (replicate 299 (EvWheel 1)) alice_waits = Ok (l', tr) /\
    ticks (replicate 299 (EvWheel 1)) < 300.
Proof.
  destruct (is_ok (exec_while (matchingb 1) (replicate 299 (EvWheel 1)) alice_waits)) as [[l' tr] E];
    [vm_compute; reflexivity|].
  exists l', tr. split; [exact E|].
  exact (match_wait_bounded 1 alice_waits _ tr l' (after_reachable _) (run_exec_while _ _ _ _ _ _ (matchingb_spec 1) E)).
Defined.

(** *** Heartbeats *)

(** [pid] is connected on [c] and last sent a heartbeat at [h]. *)
Definition is_silent (pid : Z) (c : conn) (h : Z) (s : t) : Prop :=
  exists ss, sessions_ s !! pid = Some ss /\ s_conn ss = Some c /\ lastHeartbeatMs ss = h.

Definition silent (pid : Z) (c : conn) (h : Z) (l : lobby) : Prop := is_silent pid c h (snd l).

Section Silent.
Context {HO : HashOrder}.

Lemma sweep_kicks now pid c h s :
  is_silent pid c h s -> kHeartbeatTimeoutMs < u64 (now - h) -> Shutdown c ∈ sweepHeartbeats now s.
Proof.
  intros (ss & Hp & Hc & Hh) Hlt. unfold sweepHeartbeats. apply list_elem_of_In, in_flat_map. exists pid.
  split; [apply list_elem_of_In, elem_of_hash_order_dom; eauto|]. rewrite Hp, Hc. unfold timed_out. rewrite Hh.
  rewrite (proj2 (Z.ltb_lt _ _)) by done. by left.
Qed.

(** The effects of the callbacks pile up. *)
Lemma callback_out now cb s out a a' s' out' :
  TimerWheel.spec_interp (run_callback now cb (s, out)) a = (a', (s', out')) -> exists e, out' = out ++ e.
Proof.
  unfold run_callback. intros H. repeat (dmatch_in H); cbn [scheduleSweep TimerWheel.spec_interp] in H;
    try rewrite spec_add_timer in H by done; cbn [TimerWheel.spec_interp] in H; inv H; eauto.
Qed.

Lemma fire_out now l a s out a' s' out' :
  TimerWheel.spec_fire (run_callback now) l (a, (s, out)) = (a', (s', out')) -> exists e, out' = out ++ e.
Proof.
  revert a s out. induction l as [|tid l IH]; intros a s out H; cbn [TimerWheel.spec_fire] in H.
  { inv H. exists []. by rewrite app_nil_r. }
  destruct (TimerWheel.t_due a !! tid) as [[d cb]|] eqn:E; [|by eapply IH].
  destruct (TimerWheel.spec_interp _ _) as [a1 [s1 out1]] eqn:Ei. apply IH in H as [e1 ->].
  apply callback_out in Ei as [e0 ->]. exists (e0 ++ e1). by rewrite app_assoc.
Qed.

(** The sweep timer either stays or fires, and then kicks. *)
Lemma fire_sweep now l a s out a' s' out' pid c h tid d :
  LInv a s -> TimerWheel.spec_fire (run_callback now) l (a, (s, out)) = (a', (s', out')) ->
  is_silent pid c h s -> kHeartbeatTimeoutMs < u64 (now - h) ->
  TimerWheel.t_due a !! tid = Some (d, Sweep) ->
  (tid ∉ l /\ TimerWheel.t_due a' !! tid = Some (d, Sweep)) \/ Shutdown c ∈ out'.
Proof.
  revert a s out. induction l as [|x l IH]; intros a s out HI H Hsil Hh Ht; cbn [TimerWheel.spec_fire] in H.
  { inv H. left. split; [set_solver|done]. }
  destruct (TimerWheel.t_due a !! x) as [[dx cb]|] eqn:E.
  2: { destruct (IH _ _ _ HI H Hsil Hh Ht) as [[? ?]|?]; [left|by right]. split; [|done].
       intros [->|?]%elem_of_cons; [congruence|done]. }
  destruct (TimerWheel.spec_interp _ _) as [a1 [s1 out1]] eqn:Ei.
  pose proof (LInv_run_callback _ _ _ _ _ _ _ _ _ _ HI E Ei) as HI1.
  destruct (decide (x = tid)) as [->|Hne].
  - right. rewrite Ht in E. injection E as <- <-. apply fire_out in H as [e ->].
    unfold run_callback in Ei. cbn [scheduleSweep TimerWheel.spec_interp] in Ei. rewrite spec_add_timer in Ei by done.
    cbn [TimerWheel.spec_interp] in Ei. inv Ei. pose proof (sweep_kicks now pid c h s1 Hsil Hh). set_solver.
  - destruct Hsil as (ss & Hp & Hc & Hhb).
    destruct (callback_fate _ _ _ _ _ _ _ _ _ _ _ _ HI E Ei Hp) as [(ss1 & Hp1 & (Hc1 & _) & Hh1 & _)|(? & _)]; [|congruence].
    assert (is_silent pid c h s1) as Hsil1 by (exists ss1; split_and!; congruence).
    assert (TimerWheel.t_due a1 !! tid = Some (d, Sweep)) as Ht1.
    { assert (cb <> Sweep) as Hcb.
      { intros ->. destruct HI as [_ HT]. destruct (I_sweep a s HT) as (t0 & ? & _ & Hu).
        by rewrite (Hu _ _ Ht), (Hu _ _ E) in Hne. }
      unfold run_callback in Ei. destruct cb as [q|q|]; [| |done].
      - destruct (match_timeout q s). simpl in Ei. inv Ei. by apply cancel_due.
      - destruct (expireSession q s). simpl in Ei. inv Ei. by apply cancel_due. }
    destruct (IH _ _ _ HI1 H Hsil1 Hh Ht1) as [[? ?]|?]; [left|by right]. split; [|done].
    intros [->|?]%elem_of_cons; done.
Qed.

(** Other events leave the sweep timer alone. *)
Lemma sstep_sweep ev a s a' s' e tid d :
  LInv a s -> sstep ev a s a' s' e -> wheel_ticks ev = 0 ->
  TimerWheel.t_due a !! tid = Some (d, Sweep) -> TimerWheel.t_due a' !! tid = Some (d, Sweep).
Proof.
  intros HI H Hev Ht. pose proof HI as [HS HT].
  destruct ev as [c acc now r1 r2|c q tok now|c|c i|c ms now|c|rid wn|now]; cbn [sstep] in H; [..|done].
  - cbn [onLogin TimerWheel.spec_interp] in H. by inv H.
  - destruct (onReconnect_inv c q tok now a s HI) as [(sq & Hq & _ & Hnull & Heq)|[_ Heq]]; cbn zeta in Heq;
      rewrite Heq in H; [|by inv H]. injection H as <- <- _. apply cancel_due.
    destruct (I_null a s HT _ _ Hq Hnull) as [d1 Hd1]. split; [congruence|done].
  - destruct (onMatch_inv c a s HS) as [(q & sq & Hso & Hl & Heq)|[_ Heq]]; rewrite Heq in H; [|by inv H].
    apply sessionOf_inv in Hso as (Hq & Hc & _); [|done]. pose proof (LInv_queued q sq c a s HI Hq Hc Hl) as HI1.
    assert (TimerWheel.t_due (add_timer (MatchTimeout q) a) !! tid = Some (d, Sweep)) as Ht1.
    { apply (add_due a s); [done|]. right. split; [|done]. apply (I_ids a s HT) in Ht. lia. }
    destruct (tryMatch_inv _ _ HI1) as [(q' & _ & _ & _ & Heq')|
      (p1 & p2 & s1 & s2 & c1 & c2 & t1 & t2 & q' & l & pool & _ & _ & _ & _ & _ & _ & _ & Hm1 & Hm2 & _ & _ & _ & Heq')];
      rewrite Heq' in H; inv H; [done|].
    destruct HI1 as [_ HT1]. destruct (I_timer _ _ HT1 _ _ Hm1) as [d1 Hd1], (I_timer _ _ HT1 _ _ Hm2) as [d2 Hd2].
    apply cancel_due. split; [congruence|]. apply cancel_due. split; [congruence|done].
  - unfold onInput in H. repeat (dmatch_in H); simpl in H; by inv H.
  - simpl in H. by inv H.
  - destruct (onDisconnect_inv (connName c) a s HS) as [(q & sq & _ & _ & Heq)|[_ Heq]].
    + destruct (parted _ _ _ _) as [ss' qu]. rewrite Heq in H. injection H as <- <- _.
      apply (add_due a s); [done|]. right. split; [|done]. apply (I_ids a s HT) in Ht. lia.
    + rewrite Heq in H. by inv H.
  - by apply onRoomEnd_sessions in H as [-> ->].
Qed.

End Silent.

(** The clock readings of the wheel events are past the timeout of [h]. *)
Definition overdue (h : Z) (ev : event) : Prop :=
  match ev with EvWheel now => kHeartbeatTimeoutMs < u64 (now - h) | _ => True end.

Lemma run_kicks pid c h tid d l evs tr l' :
  run (silent pid c h) l evs tr l' -> Lobby l -> Forall (overdue h) evs ->
  TimerWheel.t_due (TimerWheel.abs (fst l)) !! tid = Some (d, Sweep) ->
  now_of l' < d \/ Shutdown c ∈ tr.
Proof.
  induction 1 as [l HQ|l ev l1 e evs tr l2 HO HQ Ht Hev Hex Hr IH]; intros HL Ho Hd.
  { left. by eapply TimerWheel.Inv_future; [apply HL|]. }
  apply Forall_cons in Ho as [Ho0 Ho]. destruct (exec_sstep _ _ _ _ HL Ht Hev Hex) as (HL1 & _ & Hs).
  destruct (decide (wheel_ticks ev = 0)) as [Hw|Hw].
  { destruct IH as [?|?]; [done|done|by eapply sstep_sweep; [apply HL|..]|by left|right; set_solver]. }
  destruct ev as [| | | | | | |now]; try done. cbn [sstep] in Hs. destruct Hs as (ls & _ & Hls & Hs). cbn [fst snd] in Hs, Hls.
  symmetry in Hs. destruct (fire_sweep _ _ _ _ _ _ _ _ pid c h tid d (LInv_later _ _ (L_inv l HL)) Hs HQ Ho0 Hd)
    as [[_ Hd1]|Hk]; [|right; set_solver].
  destruct IH as [?|?]; [done|done|done|by left|right; set_solver].
Qed.

(** A silent connection is kicked. If for 50 ticks of the wheel (5 seconds)
    a session keeps its connection without a new heartbeat, and all that time
    the last heartbeat is more than 10 seconds old, the server shuts the
    connection down: the sweep that renews itself is never lost. *)
Theorem silent_connection_is_kicked pid c h l evs tr l'
  (Hreach : reachable l) (Hr : run (silent pid c h) l evs tr l')
  (Ho : Forall (overdue h) evs) (Ht : 50 <= ticks evs) :
  Shutdown c ∈ tr.
Proof.
  apply reachable_Lobby in Hreach as HL. pose proof (L_inv l HL) as [HS HT].
  destruct (I_sweep _ _ HT) as (tid & d & Hd & _). pose proof (I_due _ _ HT _ _ _ Hd) as Hle. simpl in Hle.
  destruct (run_kicks _ _ _ _ _ _ _ _ _ Hr HL Ho Hd) as [Hlt|?]; [|done].
  destruct (run_Lobby _ _ _ _ _ Hr HL) as [_ Hn]. lia.
Qed.

Definition silentb (pid : Z) (c : conn) (h : Z) (l : lobby) : bool :=
  match sessions_ (snd l) !! pid with
  | Some ss => bool_decide (s_conn ss = Some c) && (lastHeartbeatMs ss =? h)
  | None => false
  end.

Lemma silentb_spec pid c h l : silentb pid c h l = true -> silent pid c h l.
Proof.
  unfold silentb. intros H. destruct (sessions_ (snd l) !! pid) as [ss|] eqn:E; [|done]. b2p. by exists ss.
Qed.

Lemma silent_connection_is_kicked_witness :
  exists l' tr, exec_while (silentb 1 1 0) (replicate 50 (EvWheel 10001)) alice_in = Ok (l', tr) /\ Shutdown 1 ∈ tr.
Proof.
  destruct (is_ok (exec_while (silentb 1 1 0) (replicate 50 (EvWheel 10001)) alice_in)) as [[l' tr] E];
    [vm_compute; reflexivity|].
  exists l', tr. split; [exact E|].
  apply (silent_connection_is_kicked 1 1 0 alice_in (replicate 50 (EvWheel 10001)) tr l' (after_reachable _)
           (run_exec_while _ _ _ _ _ _ (silentb_spec 1 1 0) E)).
  - repeat constructor.
  - vm_compute. discriminate.
Defined.

(** *** Rooms *)

Definition starts_room (e : effect) : bool := match e with NewRoom _ _ _ => true | _ => false end.

Section Rooms.
Context {HO : HashOrder}.

Lemma Forall_sweep (P : effect -> Prop) now s : (forall c, P (Shutdown c)) -> Forall P (sweepHeartbeats now s).
Proof.
  intros HP. apply Forall_flat_map, Forall_forall. intros pid _. destruct (sessions_ s !! pid) as [ss|]; [|done].
  destruct (s_conn ss); [|done]. destruct (timed_out _ _); [|done]. by constructor.
Qed.

Lemma callback_no_room now cb s out a a' s' out' :
  TimerWheel.spec_interp (run_callback now cb (s, out)) a = (a', (s', out')) ->
  Forall (fun x => starts_room x = false) out -> Forall (fun x => starts_room x = false) out'.
Proof.
  unfold run_callback. intros H Ho. destruct cb as [q|q|].
  - destruct (match_timeout q s) as [s1 e] eqn:E. simpl in H. inv H. apply Forall_app. split; [done|].
    unfold match_timeout in E. repeat (dmatch_in E); inv E; by repeat constructor.
  - destruct (expireSession q s) as [s1 e] eqn:E. simpl in H. inv H. apply Forall_app. split; [done|].
    unfold expireSession in E. repeat (dmatch_in E); inv E; by repeat constructor.
  - cbn [scheduleSweep TimerWheel.spec_interp] in H. rewrite spec_add_timer in H by done.
    cbn [TimerWheel.spec_interp] in H. inv H. apply Forall_app. split; [done|]. by apply Forall_sweep.
Qed.

Lemma fire_no_room now l a s out a' s' out' :
  TimerWheel.spec_fire (run_callback now) l (a, (s, out)) = (a', (s', out')) ->
  Forall (fun x => starts_room x = false) out -> Forall (fun x => starts_room x = false) out'.
Proof.
  revert a s out. induction l as [|tid l IH]; intros a s out H Ho; cbn [TimerWheel.spec_fire] in H; [by inv H|].
  destruct (TimerWheel.t_due a !! tid) as [[d cb]|] eqn:E; [|by eapply IH].
  destruct (TimerWheel.spec_interp _ _) as [a1 [s1 out1]] eqn:Ei. eapply IH; [exact H|]. by eapply callback_no_room.
Qed.

(** Only a match request starts a room. *)
Lemma sstep_new_room ev a s a' s' e x :
  LInv a s -> sstep ev a s a' s' e -> x ∈ e -> starts_room x = true -> exists c, ev = EvMatch c.
Proof.
  intros HI H Hx Hs. assert (Forall (fun x => starts_room x = false) e -> exists c, ev = EvMatch c) as Hno.
  { intros Hf. rewrite Forall_forall in Hf. specialize (Hf x Hx). simpl in Hf. congruence. }
  assert (forall s j, Forall (fun x => starts_room x = false) (enqueue_if s j)) as Hen.
  { intros s0 j. unfold enqueue_if. destruct (storage s0); by repeat constructor. }
  destruct ev as [c acc now r1 r2|c q tok now|c|c i|c ms now|c|rid wn|now]; cbn [sstep] in H; [| |eauto|..];
    apply Hno; clear Hno Hx.
  - cbn [onLogin TimerWheel.spec_interp] in H. inv H. by constructor.
  - destruct (onReconnect_inv c q tok now a s HI) as [(sq & Hq & _ & Hnull & Heq)|[_ Heq]]; cbn zeta in Heq;
      rewrite Heq in H; [|inv H; by repeat constructor]. injection H as _ _ <-. constructor; [done|].
    apply Forall_app. split; [|done]. repeat dmatch; by repeat constructor.
  - unfold onInput in H. repeat (dmatch_in H); simpl in H; inv H; by repeat constructor.
  - simpl in H. inv H. by repeat constructor.
  - destruct (onDisconnect_inv (connName c) a s (proj1 HI)) as [(q & sq & _ & _ & Heq)|[_ Heq]].
    + destruct (parted _ _ _ _) as [ss' qu]. rewrite Heq in H. injection H as _ _ <-.
      apply Forall_app. split; [|done]. repeat dmatch; by repeat constructor.
    + rewrite Heq in H. by inv H.
  - unfold onRoomEnd in H. destruct (foldl _ _ _) as [[wa la] m]. cbn [TimerWheel.spec_interp] in H. inv H.
    by destruct (_ && _).
  - destruct H as (l & _ & _ & H). simpl in H. symmetry in H. by eapply fire_no_room.
Qed.

End Rooms.

(** *** At most one player waits between events *)

Definition few_waiting (s : t) : Prop := forall p q, is_matching p s -> is_matching q s -> p = q.

Lemma small_set (X : gset Z) p q : (size X < 2)%nat -> p ∈ X -> q ∈ X -> p = q.
Proof.
  intros Hs Hp Hq. destruct (decide (p = q)) as [|Hne]; [done|exfalso].
  assert (({[p]} ∪ {[q]} : gset Z) ⊆ X) as Hsub by set_solver. apply subseteq_size in Hsub.
  rewrite size_union, !size_singleton in Hsub by set_solver. lia.
Qed.

Lemma is_matching_waiting s p : Sess s -> is_matching p s <-> p ∈ MatchQueue.waiting_ (matchQueue_ s).
Proof. intros HS. by rewrite (I_wait s HS). Qed.

Lemma queued_matching q sq s tid p :
  is_matching p (queued q tid sq s) <-> p = q \/ (p <> q /\ is_matching p s).
Proof.
  unfold is_matching, queued. cbn [sessions_ set_sessions set_matchTimer]. split.
  - intros (x & Hx & Hst). ins Hx; [by left|right]. eauto.
  - intros [->|[? (x & ? & ?)]]; eexists; [by rewrite lookup_insert_eq|by rewrite lookup_insert_ne].
Qed.

Section Few.
Context {HO : HashOrder}.

(** Only a match request puts a player in the queue. *)
Lemma sstep_matching ev a s a' s' e p :
  LInv a s -> event_ok ev -> sstep ev a s a' s' e -> (forall c, ev <> EvMatch c) ->
  is_matching p s' -> is_matching p s.
Proof.
  intros HI Hev H Hne Hm. pose proof HI as [HS HT].
  destruct ev as [c acc now r1 r2|c q tok now|c|c i|c ms now|c|rid wn|now]; cbn [sstep] in H.
  - cbn [onLogin TimerWheel.spec_interp] in H. inv H. destruct Hm as (x & Hx & Hst). cbn [sessions_] in Hx.
    ins Hx; [done|by exists x].
  - destruct (onReconnect_inv c q tok now a s HI) as [(sq & Hq & _ & Hnull & Heq)|[_ Heq]]; cbn zeta in Heq;
      rewrite Heq in H; [|by inv H]. injection H as _ <- _. destruct Hm as (x & Hx & Hst).
    cbn [sessions_ set_sessions set_conns] in Hx. ins Hx; [by exists sq|by exists x].
  - by destruct (Hne c).
  - unfold onInput in H. repeat (dmatch_in H); simpl in H; by inv H.
  - simpl in H. inv H. destruct (sessionOf c s) as [[q sq]|] eqn:Es; [|done].
    apply sessionOf_inv in Es as (Hq & _); [|done]. destruct Hm as (x & Hx & Hst). cbn [sessions_ set_sessions] in Hx.
    ins Hx; [by exists sq|by exists x].
  - destruct (onDisconnect_inv (connName c) a s HS) as [(q & sq & _ & Hq & Heq)|[_ Heq]]; [|rewrite Heq in H; by inv H].
    destruct (parted _ _ _ _) as [ss' qu] eqn:Ep. rewrite Heq in H. injection H as _ <- _.
    destruct Hm as (x & Hx & Hst). cbn [sessions_ set_sessions] in Hx. ins Hx; [|by exists x].
    unfold parted in Ep. destruct (decide (state sq = kMatching)); by inv Ep.
  - apply onRoomEnd_sessions in H as [_ ->]. destruct Hm as (x & Hx & Hst). cbn [sessions_ set_sessions] in Hx.
    rewrite lookup_fmap in Hx. destruct (sessions_ s !! p) as [y|] eqn:Ey; [|done]. injection Hx as <-. exists y.
    split; [done|]. unfold left_room in Hst. by destruct (_ =? _).
  - destruct H as (l & _ & _ & H). simpl in H. symmetry in H.
    by destruct (fire_deadline _ _ _ _ _ _ _ _ p 0 (LInv_later a s HI) H Hm).
Qed.

Lemma few_step ev a s a' s' e :
  LInv a s -> event_ok ev -> sstep ev a s a' s' e -> few_waiting s -> few_waiting s'.
Proof.
  intros HI Hev H Hf.
  assert ((exists c, ev = EvMatch c) \/ (forall c, ev <> EvMatch c)) as [[c ->]|Hne] by (destruct ev; naive_solver).
  2: { intros p q Hp Hq. apply Hf; (eapply sstep_matching; [exact HI|done|exact H|done|done]). }
  cbn [sstep] in H. destruct (onMatch_inv c a s (proj1 HI)) as [(r & sr & Hso & Hl & Heq)|[_ Heq]]; rewrite Heq in H;
    [|by inv H].
  apply sessionOf_inv in Hso as (Hr & Hc & _); [|apply HI]. pose proof (LInv_queued r sr c a s HI Hr Hc Hl) as HI1.
  destruct (tryMatch_inv _ _ HI1) as [(q' & Hw & _ & Hsz & Heq')|
    (p1 & p2 & s1 & s2 & c1 & c2 & t1 & t2 & q' & l & pool & Hne & Hs1 & Hs2 & Hm1 & Hm2 & _ & _ & _ & _ & _ & _ & _ & Heq')];
    rewrite Heq' in H; inv H; intros p q Hp Hq.
  - apply (small_set _ p q Hsz); (apply (is_matching_waiting _ _ (proj1 HI1)); done).
  - destruct Hp as (x & [(Hp1 & Hp2 & Hx)|(_ & y & _ & _ & _ & _ & ? & _)]%paired_sessions & Hst); [|congruence].
    destruct Hq as (x' & [(Hq1 & Hq2 & Hx')|(_ & y & _ & _ & _ & _ & ? & _)]%paired_sessions & Hst'); [|congruence].
    assert (is_matching p (queued r (TimerWheel.t_next a) sr s)) as [->|[_ Hp]]%queued_matching by (by exists x);
    assert (is_matching q (queued r (TimerWheel.t_next a) sr s)) as [->|[_ Hq]]%queued_matching by (by exists x');
    assert (is_matching p1 (queued r (TimerWheel.t_next a) sr s)) as [->|[_ Hz1]]%queued_matching by (by exists s1);
    assert (is_matching p2 (queued r (TimerWheel.t_next a) sr s)) as [->|[_ Hz2]]%queued_matching by (by exists s2);
    try done; try (by apply Hf); exfalso; apply Hne; by apply Hf.
Qed.

End Few.

Lemma few_run Q l evs tr l' : run Q l evs tr l' -> Lobby l -> few_waiting (snd l) -> few_waiting (snd l').
Proof.
  induction 1 as [|l ev l1 e evs tr l2 HO HQ Ht Hev Hex _ IH]; intros HL Hf; [done|].
  destruct (exec_sstep _ _ _ _ HL Ht Hev Hex) as (HL1 & _ & Hs). apply IH; [done|]. eapply few_step; [apply HL|..]; done.
Qed.

Lemma reachable_few l : reachable l -> few_waiting (snd l).
Proof.
  intros (n & st & evs & tr & Hn & Hr). eapply few_run; [exact Hr|apply Lobby_boot; lia|].
  intros p q (ss & Hp & _). simpl in Hp. by rewrite lookup_empty in Hp.
Qed.

(** C22: A room starts with two connected players. Whenever the lobby creates
    a room, it is answering a match request; the room has a fresh id and is
    given two different players with their connections, the requester among
    them; both sessions are then in that room and out of the queue, and the
    room is told to start on its loop. *)
Theorem rooms_start_with_two_connected_players (HO : HashOrder) l ev l' e rid lp players
  (Hreach : reachable l) (Ht : in_time l) (Hev : event_ok ev) (Hex : exec ev l = Ok (l', e))
  (Hnew : NewRoom rid lp players ∈ e) :
  exists p1 p2 c1 c2 s1 s2, players = [(p1, Some c1); (p2, Some c2)] /\ p1 <> p2 /\
    (ev = EvMatch c1 \/ ev = EvMatch c2) /\
    e = [NewRoom rid lp players; PostRoom lp rid Room.AStart] /\
    rooms_ (snd l) !! rid = None /\ rooms_ (snd l') !! rid = Some lp /\
    sessions_ (snd l') !! p1 = Some s1 /\ sessions_ (snd l') !! p2 = Some s2 /\
    s_conn s1 = Some c1 /\ s_conn s2 = Some c2 /\
    state s1 = kInRoom /\ state s2 = kInRoom /\ roomId s1 = rid /\ roomId s2 = rid.
Proof.
  apply reachable_few in Hreach as Hfew. apply reachable_Lobby in Hreach as HL.
  destruct (exec_sstep _ _ _ _ HL Ht Hev Hex) as (HL1 & _ & Hs).
  pose proof (L_inv l HL) as HI. destruct (sstep_new_room _ _ _ _ _ _ _ HI Hs Hnew eq_refl) as [c ->]. cbn [sstep] in Hs.
  destruct (onMatch_inv c (TimerWheel.abs (fst l)) _ (proj1 HI)) as [(r & sr & Hso & Hl & Heq)|[_ Heq]]; rewrite Heq in Hs;
    [|apply pair_equal_spec in Hs as [_ Hs]; injection Hs as _ <-; set_solver].
  apply sessionOf_inv in Hso as (Hr & Hc & _); [|apply HI]. pose proof (LInv_queued r sr c _ _ HI Hr Hc Hl) as HI1.
  destruct (tryMatch_inv _ _ HI1) as [(q' & _ & _ & _ & Heq')|
    (p1 & p2 & s1 & s2 & c1 & c2 & t1 & t2 & q' & lo & pool & Hne & Hs1 & Hs2 & Hm1 & Hm2 & Hc1 & Hc2 & _ & _ & _ & _ & _ & Heq')];
    rewrite Heq' in Hs; apply pair_equal_spec in Hs as [_ [Hs <-]%Ok_inj%pair_equal_spec]; [set_solver|].
  assert (players = [(p1, Some c1); (p2, Some c2)] /\ rid = nextRoomId_ (snd l) /\ lp = lo) as (-> & -> & ->).
  { apply elem_of_cons in Hnew as [[= -> -> ->]|Hnew]; [done|]. set_solver. }
  destruct (paired_new p1 p2 q' lo pool _ _ _ Hne Hs1 Hs2) as (x1 & x2 & Hx1 & Hx2 & Hcx1 & Hcx2 & ? & ? & ? & ?).
  rewrite Hs in *. exists p1, p2, c1, c2, x1, x2. split_and!; try done; try congruence.
  - assert (is_matching p1 (queued r (TimerWheel.t_next (TimerWheel.abs (fst l))) sr (snd l))) as [->|[_ Hz1]]%queued_matching
      by (by exists s1).
    { left. f_equal. cbn in Hs1. rewrite lookup_insert_eq in Hs1. injection Hs1 as <-. simpl in Hc1. congruence. }
    assert (is_matching p2 (queued r (TimerWheel.t_next (TimerWheel.abs (fst l))) sr (snd l))) as [->|[_ Hz2]]%queued_matching
      by (by exists s2).
    { right. f_equal. cbn in Hs2. rewrite lookup_insert_eq in Hs2. injection Hs2 as <-. simpl in Hc2. congruence. }
    destruct Hne. by apply Hfew.
  - destruct (rooms_ (snd l) !! nextRoomId_ (snd l)) as [lr|] eqn:E; [|done].
    apply (proj2 (I_rid _ (proj1 HI))) in E. lia.
  - rewrite <- Hs. simpl. by rewrite lookup_insert_eq.
Qed.

Definition bob_joins : lobby :=
  after [EvLogin 1 "alice" 0 1 2; EvLogin 2 "bob" 0 3 4; EvMatch 1].

Lemma rooms_start_with_two_connected_players_witness :
  exists l' e, @exec elements_order (EvMatch 2) bob_joins = Ok (l', e) /\
    rooms_ (snd bob_joins) !! 1 = None /\ rooms_ (snd l') !! 1 = Some (Some 0).
Proof.
  destruct (is_ok (@exec elements_order (EvMatch 2) bob_joins)) as [[l' e] E]; [vm_compute; reflexivity|].
  exists l', e. split; [exact E|].
  assert (NewRoom 1 (Some 0) [(1, Some 1); (2, Some 2)] ∈ e) as Hin.
  { assert (match @exec elements_order (EvMatch 2) bob_joins with
            | Ok (_, NewRoom 1 (Some 0) [(1, Some 1); (2, Some 2)] :: _) => true
            | _ => false end = true) as H by (vm_compute; reflexivity).
    rewrite E in H. repeat (dmatch_in H; try discriminate H). left. }
  destruct (rooms_start_with_two_connected_players elements_order bob_joins (EvMatch 2) l' e 1 (Some 0) _
              (after_reachable _) ltac:(vm_compute; reflexivity) I E Hin)
    as (p1 & p2 & c1 & c2 & s1 & s2 & _ & _ & _ & _ & H1 & H2 & _). split; [exact H1|exact H2].
Defined.

(** *** The end of a room *)

(** [p] has a session in room [rid] with account [acc]. *)
Definition member (m : gmap Z Session) (rid p : Z) (acc : string) : Prop :=
  exists ss, m !! p = Some ss /\ roomId ss = rid /\ account ss = acc.

(** The accounts the loop of [onRoomEnd] finds. *)
Lemma room_end_accounts rid w l m :
  NoDup l -> rid <> 0 ->
  let '(wa, la, _) := foldl (room_end_step rid w) (EmptyString, EmptyString, m) l in
  ((wa = EmptyString /\ forall acc, w ∈ l -> ~ member m rid w acc) \/ (w ∈ l /\ member m rid w wa)) /\
  ((la = EmptyString /\ forall p acc, p ∈ l -> p <> w -> ~ member m rid p acc) \/
   (exists p, p ∈ l /\ p <> w /\ member m rid p la)).
Proof.
  intros Hnd Hrid. induction l as [|x l IH] using rev_ind; [simpl; split; left; (split; [done|set_solver])|].
  apply NoDup_app in Hnd as (Hnd & Hx & _). specialize (IH Hnd). rewrite foldl_app. cbn [foldl].
  pose proof (room_end_fold rid w l m EmptyString EmptyString Hnd x) as Hmx. cbn zeta in Hmx.
  destruct (foldl _ _ l) as [[wa la] m1]. cbn [snd] in Hmx.
  assert (x ∉ l) as Hxl by (intros H; apply (Hx x H); set_solver). rewrite bool_decide_eq_false_2 in Hmx by done.
  unfold room_end_step. rewrite Hmx. destruct IH as [IHw IHl].
  assert (forall acc, member m rid x acc -> exists ss, m !! x = Some ss /\ roomId ss = rid) as Hmem.
  { intros acc (ss & ? & ? & _). eauto. }
  destruct (m !! x) as [ss|] eqn:E; [destruct (Z.eqb_spec (roomId ss) rid) as [Hr|Hr]|].
  2-3: split; [destruct IHw as [[-> Hn]|[? ?]]; [left|right]|destruct IHl as [[-> Hn]|(p & ? & ? & ?)]; [left|right]];
    [split; [done|]; intros acc [?| ->%list_elem_of_singleton]%elem_of_app; [by apply Hn|];
       intros (ss' & Hs' & Hr' & _); congruence
    |set_solver
    |split; [done|]; intros p acc [?| ->%list_elem_of_singleton]%elem_of_app ?; [by apply Hn|];
       intros (ss' & Hs' & Hr' & _); congruence
    |exists p; set_solver].
  assert (member m rid x (account ss)) as Hmx1 by (by exists ss).
  destruct (Z.eqb_spec x w) as [->|Hxw].
  - split; [right; set_solver|]. destruct IHl as [[-> Hn]|(p & ? & ? & ?)]; [left|right; exists p; set_solver].
    split; [done|]. intros p acc [?| ->%list_elem_of_singleton]%elem_of_app ?; [by apply Hn|done].
  - split; [|right; exists x; set_solver]. destruct IHw as [[-> Hn]|[? ?]]; [left|right; set_solver].
    split; [done|]. intros acc [?| ->%list_elem_of_singleton]%elem_of_app; [by apply Hn|done].
Qed.

Section RoomEnd.
Context {HO : HashOrder}.

Lemma onRoomEnd_effects rid w a s a' s' e :
  rid <> 0 -> TimerWheel.spec_interp (onRoomEnd rid w s) a = (a', (s', e)) ->
  (exists wa la p, e = enqueue_if s (JRecord wa la) /\ wa <> EmptyString /\ la <> EmptyString /\ p <> w /\
     member (sessions_ s) rid w wa /\ member (sessions_ s) rid p la) \/
  (e = [] /\ forall p acc1 acc2, p <> w -> member (sessions_ s) rid w acc1 -> member (sessions_ s) rid p acc2 ->
     acc1 = EmptyString \/ exists p' , p' <> w /\ member (sessions_ s) rid p' EmptyString).
Proof.
  intros Hrid. unfold onRoomEnd. cbn zeta. set (s1 := set_rooms _ s).
  pose proof (room_end_accounts rid w (session_order s1) (sessions_ s1) (NoDup_hash_order CSessions _) Hrid) as Hacc.
  destruct (foldl _ _ _) as [[wa la] m]. cbn [TimerWheel.spec_interp]. intros H. inv H.
  change (sessions_ s1) with (sessions_ s) in Hacc. destruct Hacc as [Hw Hl].
  assert (forall p acc, member (sessions_ s) rid p acc -> p ∈ session_order s1) as Hin.
  { intros p acc (ss & Hp & _). apply elem_of_hash_order_dom. eauto. }
  destruct (bool_decide (wa = EmptyString)) eqn:Ew; b2p; simpl.
  { right. split; [done|]. intros p acc1 acc2 Hne H1 H2. left. destruct Hw as [[_ Hn]|[_ (ss & Hs & _ & Ha)]].
    - by destruct (Hn acc1 (Hin _ _ H1)).
    - destruct H1 as (ss' & Hs' & _ & <-). congruence. }
  destruct (bool_decide (la = EmptyString)) eqn:El; b2p; simpl.
  - right. split; [done|]. intros p acc1 acc2 Hne H1 H2. right. destruct Hl as [[_ Hn]|(p' & _ & ? & ?)].
    + by destruct (Hn p acc2 (Hin _ _ H2)).
    + exists p'. subst la. done.
  - left. destruct Hw as [[-> _]|[_ Hw]]; [done|]. destruct Hl as [[-> _]|(p & _ & ? & ?)]; [done|].
    exists wa, la, p. done.
Qed.

(** The two players of a room and their accounts. *)
Lemma onRoomEnd_records rid p1 p2 s1 s2 a s a' s' e :
  Sess s -> rid <> 0 -> p1 <> p2 -> storage s = true ->
  sessions_ s !! p1 = Some s1 -> sessions_ s !! p2 = Some s2 -> roomId s1 = rid -> roomId s2 = rid ->
  account s1 <> EmptyString -> account s2 <> EmptyString ->
  TimerWheel.spec_interp (onRoomEnd rid p1 s) a = (a', (s', e)) -> e = [Enqueue (JRecord (account s1) (account s2))].
Proof.
  intros HS Hrid Hne Hst H1 H2 Hr1 Hr2 Ha1 Ha2 Hs.
  assert (forall p acc, p <> p1 -> member (sessions_ s) rid p acc -> p = p2) as Hother.
  { intros p acc Hp (x & Hx & Hrx & _). destruct (I_two s HS p1 p2 p s1 s2 x H1 H2 Hx) as [|[|]]; congruence. }
  destruct (onRoomEnd_effects _ _ _ _ _ _ _ Hrid Hs) as [(wa & la & p & -> & _ & _ & Hp & (x1 & Hx1 & _ & <-) & Hm)|[_ Hno]].
  - pose proof (Hother _ _ Hp Hm) as ->. destruct Hm as (x2 & Hx2 & _ & <-). unfold enqueue_if. rewrite Hst.
    rewrite H1 in Hx1. rewrite H2 in Hx2. by simplify_eq.
  - exfalso. destruct (Hno p2 (account s1) (account s2)) as [|(p' & Hp' & Hm)]; [done|by exists s1|by exists s2|done|].
    pose proof (Hother _ _ Hp' Hm) as ->. destruct Hm as (x & Hx & _ & ?). congruence.
Qed.

End RoomEnd.


Definition in_battle : lobby :=
  after [EvLogin 1 "alice" 0 1 2; EvLogin 2 "bob" 0 3 4; EvMatch 1; EvMatch 2].


(** *** Forfeits *)

(** [p] has a session in room [rid]. *)
Definition in_room (rid p : Z) (s : t) : Prop := exists ss, sessions_ s !! p = Some ss /\ roomId ss = rid.

Section Members.
Context {HO : HashOrder}.

Lemma callback_members now tid d cb a s out a' s' out' rid p :
  LInv a s -> TimerWheel.t_due a !! tid = Some (d, cb) ->
  TimerWheel.spec_interp (run_callback now cb (s, out)) (TimerWheel.spec_cancel tid a) = (a', (s', out')) ->
  (in_room rid p s' -> in_room rid p s) /\ nextRoomId_ s' = nextRoomId_ s.
Proof.
  intros HI Htid H. unfold run_callback in H. destruct cb as [q|q|].
  - destruct (match_timeout q s) as [s1 e] eqn:E. simpl in H. inv H. unfold match_timeout in E.
    destruct (negb _); [by inv E|]. simpl in E. destruct (sessions_ s !! q) as [sq|] eqn:Eq; inv E; [|done].
    split; [|done]. intros (x & Hx & Hr). cbn [sessions_ set_sessions] in Hx. ins Hx; [by exists sq|by exists x].
  - destruct (expireSession q s) as [s1 e] eqn:E. simpl in H. inv H. unfold expireSession in E.
    destruct (sessions_ s !! q) as [sq|] eqn:Eq; [|by inv E]. destruct (bool_decide _); inv E; [done|].
    split; [|done]. intros (x & Hx & Hr). cbn [sessions_ set_sessions] in Hx. del Hx. by exists x.
  - cbn [scheduleSweep TimerWheel.spec_interp] in H. rewrite spec_add_timer in H by done.
    cbn [TimerWheel.spec_interp] in H. by inv H.
Qed.

Lemma fire_members now l a s out a' s' out' rid p :
  LInv a s -> TimerWheel.spec_fire (run_callback now) l (a, (s, out)) = (a', (s', out')) ->
  (in_room rid p s' -> in_room rid p s) /\ nextRoomId_ s' = nextRoomId_ s.
Proof.
  revert a s out. induction l as [|tid l IH]; intros a s out HI H; cbn [TimerWheel.spec_fire] in H; [by inv H|].
  destruct (TimerWheel.t_due a !! tid) as [[d cb]|] eqn:E; [|by eapply IH].
  destruct (TimerWheel.spec_interp _ _) as [a1 [s1 out1]] eqn:Ei.
  pose proof (LInv_run_callback _ _ _ _ _ _ _ _ _ _ HI E Ei) as HI1.
  destruct (IH _ _ _ HI1 H) as [Hm Hn]. destruct (callback_members _ _ _ _ _ _ _ _ _ _ rid p HI E Ei) as [Hm0 Hn0].
  split; [auto|congruence].
Qed.

(** Nobody joins a room after its creation. *)
Lemma sstep_members ev a s a' s' e rid p :
  LInv a s -> sstep ev a s a' s' e -> 0 < rid < nextRoomId_ s ->
  (in_room rid p s' -> in_room rid p s) /\ nextRoomId_ s <= nextRoomId_ s'.
Proof.
  intros HI H Hrid. pose proof HI as [HS HT].
  destruct ev as [c acc now r1 r2|c q tok now|c|c i|c ms now|c|r wn|now]; cbn [sstep] in H.
  - cbn [onLogin TimerWheel.spec_interp] in H. inv H. split; [|done]. intros (x & Hx & Hr). cbn [sessions_] in Hx.
    ins Hx; [simpl in Hr; lia|by exists x].
  - destruct (onReconnect_inv c q tok now a s HI) as [(sq & Hq & _ & Hnull & Heq)|[_ Heq]]; cbn zeta in Heq;
      rewrite Heq in H; [|by inv H]. injection H as _ <- _. split; [|done]. intros (x & Hx & Hr).
    cbn [sessions_ set_sessions set_conns] in Hx. ins Hx; [by exists sq|by exists x].
  - destruct (onMatch_inv c a s HS) as [(q & sq & Hso & Hl & Heq)|[_ Heq]]; rewrite Heq in H; [|by inv H].
    apply sessionOf_inv in Hso as (Hq & Hc & _); [|done]. pose proof (LInv_queued q sq c a s HI Hq Hc Hl) as HI1.
    assert (in_room rid p (queued q (TimerWheel.t_next a) sq s) -> in_room rid p s) as Hqd.
    { intros (x & Hx & Hr). cbn in Hx. ins Hx; [by exists sq|by exists x]. }
    destruct (tryMatch_inv _ _ HI1) as [(q' & _ & _ & _ & Heq')|
      (p1 & p2 & s1 & s2 & c1 & c2 & t1 & t2 & q' & l & pool & _ & _ & _ & _ & _ & _ & _ & _ & _ & _ & _ & _ & Heq')];
      rewrite Heq' in H; inv H; [split; [exact Hqd|done]|].
    split; [|simpl; lia]. intros (x & [(_ & _ & Hx)|(_ & y & _ & _ & _ & _ & _ & Hn)]%paired_sessions & Hr).
    + apply Hqd. by exists x.
    + rewrite Hn in Hr. simpl in Hr. lia.
  - unfold onInput in H. repeat (dmatch_in H); simpl in H; by inv H.
  - simpl in H. inv H. destruct (sessionOf c s) as [[q sq]|] eqn:Es; [|done].
    apply sessionOf_inv in Es as (Hq & _); [|done]. split; [|done]. intros (x & Hx & Hr).
    cbn [sessions_ set_sessions] in Hx. ins Hx; [by exists sq|by exists x].
  - destruct (onDisconnect_inv (connName c) a s HS) as [(q & sq & _ & Hq & Heq)|[_ Heq]]; [|rewrite Heq in H; by inv H].
    destruct (parted _ _ _ _) as [ss' qu] eqn:Ep. rewrite Heq in H. injection H as _ <- _. split; [|done].
    intros (x & Hx & Hr). cbn [sessions_ set_sessions] in Hx. ins Hx; [|by exists x]. exists sq. split; [done|].
    unfold parted in Ep. destruct (decide (state sq = kMatching)); by inv Ep.
  - apply onRoomEnd_sessions in H as [_ ->]. split; [|done]. intros (x & Hx & Hr). cbn [sessions_ set_sessions] in Hx.
    rewrite lookup_fmap in Hx. destruct (sessions_ s !! p) as [y|] eqn:Ey; [|done]. injection Hx as <-. exists y.
    split; [done|]. unfold left_room in Hr. destruct (_ =? _); [simpl in Hr; lia|done].
  - destruct H as (l & _ & _ & H). simpl in H. symmetry in H.
    destruct (fire_members _ _ _ _ _ _ _ _ rid p (LInv_later a s HI) H) as [? ->]. done.
Qed.

End Members.

Lemma run_members Q l evs tr l' rid p :
  run Q l evs tr l' -> Lobby l -> 0 < rid < nextRoomId_ (snd l) -> in_room rid p (snd l') -> in_room rid p (snd l).
Proof.
  induction 1 as [|l ev l1 e evs tr l2 HO HQ Ht Hev Hex _ IH]; intros HL Hrid Hm; [done|].
  destruct (exec_sstep _ _ _ _ HL Ht Hev Hex) as (HL1 & _ & Hs).
  destruct (sstep_members _ _ _ _ _ _ rid p (L_inv l HL) Hs Hrid) as [Hback Hn]. apply Hback, IH; [done|lia|done].
Qed.

(** A battle decided by forfeit is not recorded. When the session of a
    player in a room expires (the room is then told that the opponent wins),
    the later report of that room's end, with whatever winner and whatever
    happens in between, hands the storage nothing: the loser's account is
    gone with his session, and [onRoomEnd] records only when it finds both. *)
Theorem forfeit_is_not_recorded (HO HO' : HashOrder) now l l1 e1 pid ss evs tr l2 winner l3 e3
  (Hreach : reachable l) (Ht : in_time l) (Ht2 : in_time l2)
  (Hp : sessions_ (snd l) !! pid = Some ss) (Hin : state ss = kInRoom)
  (Hex : @exec HO (EvWheel now) l = Ok (l1, e1)) (Hexp : sessions_ (snd l1) !! pid = None)
  (Hr : run any l1 evs tr l2) (Hend : @exec HO' (EvRoomEnd (roomId ss) winner) l2 = Ok (l3, e3)) :
  e3 = [].
Proof.
  apply reachable_Lobby in Hreach as HL. destruct (exec_sstep (EvWheel now) _ _ _ HL Ht I Hex) as (HL1 & _ & Hs1).
  destruct (run_Lobby _ _ _ _ _ Hr HL1) as [HL2 _]. pose proof (L_inv l HL) as [HS HT].
  destruct (I_room _ HS _ _ Hp) as [[_ [lp Hlp]]|[? _]]; [|done]. apply (proj2 (I_rid _ HS)) in Hlp as Hrid.
  destruct (exec_sstep (EvRoomEnd (roomId ss) winner) _ _ _ HL2 Ht2 ltac:(simpl; lia) Hend) as (_ & _ & Hs3).
  cbn [sstep] in Hs3. apply onRoomEnd_effects in Hs3; [|lia].
  destruct Hs3 as [(wa & la & p & _ & _ & _ & Hpw & (x1 & Hx1 & Hr1 & _) & (x2 & Hx2 & Hr2 & _))|[-> _]]; [exfalso|done].
  assert (forall q x, sessions_ (snd l2) !! q = Some x -> roomId x = roomId ss -> q <> pid /\ in_room (roomId ss) q (snd l)) as Hback.
  { intros q x Hx Hrx. destruct (sstep_members _ _ _ _ _ _ (roomId ss) q (L_inv l HL) Hs1 ltac:(lia)) as [Hb Hn].
    assert (in_room (roomId ss) q (snd l1)) as Hq1 by (eapply run_members; [exact Hr|done|lia|by exists x]).
    split; [|by apply Hb]. intros ->. destruct Hq1 as (? & ? & _). congruence. }
  destruct (Hback _ _ Hx1 Hr1) as [Hn1 (y1 & Hy1 & Hry1)], (Hback _ _ Hx2 Hr2) as [Hn2 (y2 & Hy2 & Hry2)].
  destruct (I_two _ HS pid winner p ss y1 y2 Hp Hy1 Hy2) as [|[|]]; try congruence; lia.
Qed.

(** Alice leaves the battle; at the 300th tick her session expires and the
    room learns that Bob wins. *)
Definition alice_left : lobby :=
  after ([EvLogin 1 "alice" 0 1 2; EvLogin 2 "bob" 0 3 4; EvMatch 1; EvMatch 2; EvDisconnect 1]
         ++ replicate 299 (EvWheel 1)).

Lemma forfeit_is_not_recorded_witness :
  exists l1 e1, @exec elements_order (EvWheel 1) alice_left = Ok (l1, e1) /\
    e1 = [PostRoom (Some 0) 1 (Room.AForceEnd 2)] /\
    exists l3 e3, @exec elements_order (EvRoomEnd 1 2) l1 = Ok (l3, e3) /\ e3 = [].
Proof.
  destruct (is_ok (@exec elements_order (EvWheel 1) alice_left)) as [[l1 e1] E1]; [vm_compute; reflexivity|].
  assert (match @exec elements_order (EvWheel 1) alice_left with
          | Ok (l1, [PostRoom (Some 0) 1 (Room.AForceEnd 2)]) =>
              match sessions_ (snd l1) !! 1, @exec elements_order (EvRoomEnd 1 2) l1 with
              | None, Ok _ => now_of l1 <? 2 ^ 62
              | _, _ => false
              end
          | _ => false end = true) as H by (vm_compute; reflexivity).
  rewrite E1 in H. exists l1, e1. split; [exact E1|].
  assert (e1 = [PostRoom (Some 0) 1 (Room.AForceEnd 2)]) as ->
    by (repeat (dmatch_in H; try discriminate H); reflexivity).
  split; [reflexivity|]. destruct (sessions_ (snd l1) !! 1) as [|] eqn:Es; [discriminate H|].
  destruct (@exec elements_order (EvRoomEnd 1 2) l1) as [[l3 e3]|] eqn:E3; [|discriminate H].
  exists l3, e3. split; [reflexivity|].
  destruct (sessions_ (snd alice_left) !! 1) as [ss|] eqn:Ea; [|vm_compute in Ea; discriminate].
  assert (state ss = kInRoom /\ roomId ss = 1) as [Hst Hrid]
    by (vm_compute in Ea; injection Ea as <-; split; reflexivity).
  apply Z.ltb_lt in H.
  refine (forfeit_is_not_recorded elements_order elements_order 1 alice_left l1 _ 1 ss [] [] l1 2 l3 e3
            (after_reachable _) _ H Ea Hst E1 Es (run_nil _ _ I) _).
  - vm_compute. reflexivity.
  - rewrite Hrid. exact E3.
Defined.

(** *** Timeouts of an abandoned wait *)

(** Timer [tid] of [pid] is running, but is not the timer of his current wait. *)
Definition stale (pid tid dl : Z) a (s : t) : Prop :=
  TimerWheel.t_due a !! tid = Some (dl, MatchTimeout pid) /\
  (matchTimer_ s !! pid = Some tid -> ~ is_matching pid s).

Section Stale.
Context {HO : HashOrder}.

Lemma callback_stale now x d cb a s out a' s' out' pid tid dl :
  LInv a s -> TimerWheel.t_due a !! x = Some (d, cb) ->
  TimerWheel.spec_interp (run_callback now cb (s, out)) (TimerWheel.spec_cancel x a) = (a', (s', out')) ->
  stale pid tid dl a s -> (x <> tid /\ stale pid tid dl a' s') \/ (x = tid /\ ~ is_matching pid s').
Proof.
  intros HI Hx H [Ht Hs]. pose proof HI as [HS HT].
  pose proof (fun dl0 => callback_deadline now x d cb a s out a' s' out' pid dl0 HI Hx H) as Hdl.
  unfold run_callback in H. destruct cb as [q|q|].
  - pose proof (match_timeout_matching q s pid HS) as Hq. destruct (match_timeout q s) as [s1 e] eqn:Em.
    simpl in H, Hq. inv H. assert (matchTimer_ s' = delete q (matchTimer_ s)) as Hmt.
    { unfold match_timeout in Em. repeat (dmatch_in Em); by inv Em. }
    destruct (decide (x = tid)) as [->|Hne].
    { right. split; [done|]. intros Hm. destruct (Hq Hm) as (_ & Hqp & _). rewrite Ht in Hx. congruence. }
    left. split; [done|]. split; [by apply cancel_due|]. rewrite Hmt. intros Hl Hm. del Hl.
    by destruct (Hq Hm) as (Hm0 & _); apply Hs in Hl.
  - left. assert (x <> tid) as Hne by congruence. split; [done|]. destruct (expireSession q s) as [s1 e] eqn:Ee. simpl in H. inv H.
    split; [by apply cancel_due|]. assert (matchTimer_ s' = matchTimer_ s) as ->.
    { unfold expireSession in Ee. repeat (dmatch_in Ee); by inv Ee. }
    intros Hl Hm. destruct (Hdl 0 Hm) as [Hm0 _]. by apply Hs in Hl.
  - left. assert (x <> tid) as Hne by congruence. split; [done|]. cbn [scheduleSweep TimerWheel.spec_interp] in H.
    rewrite spec_add_timer in H by done. cbn [TimerWheel.spec_interp] in H. inv H. split; [|done].
    cbn [add_timer TimerWheel.t_due TimerWheel.spec_cancel TimerWheel.t_next].
    rewrite lookup_insert_ne, lookup_delete_ne; [done|done|]. apply (I_ids _ _ HT) in Ht. lia.
Qed.

Lemma fire_stale now l a s out a' s' out' pid tid dl :
  LInv a s -> TimerWheel.spec_fire (run_callback now) l (a, (s, out)) = (a', (s', out')) ->
  stale pid tid dl a s -> (tid ∉ l /\ stale pid tid dl a' s') \/ (tid ∈ l /\ ~ is_matching pid s').
Proof.
  revert a s out. induction l as [|x l IH]; intros a s out HI H Hst; cbn [TimerWheel.spec_fire] in H.
  { inv H. left. split; [set_solver|done]. }
  destruct (TimerWheel.t_due a !! x) as [[d cb]|] eqn:E.
  2: { destruct (IH _ _ _ HI H Hst) as [[? ?]|[? ?]]; [left|right; split; [by right|done]]. split; [|done].
       intros [->|?]%elem_of_cons; [|done]. destruct Hst as [? _]. congruence. }
  destruct (TimerWheel.spec_interp _ _) as [a1 [s1 out1]] eqn:Ei.
  pose proof (LInv_run_callback _ _ _ _ _ _ _ _ _ _ HI E Ei) as HI1.
  destruct (callback_stale _ _ _ _ _ _ _ _ _ _ pid tid dl HI E Ei Hst) as [[Hne Hst1]|[-> Hnm]].
  - destruct (IH _ _ _ HI1 H Hst1) as [[? ?]|[? ?]]; [left|right; split; [by right|done]]. split; [|done].
    intros [->|?]%elem_of_cons; done.
  - right. split; [left|]. intros Hm. by destruct (fire_deadline _ _ _ _ _ _ _ _ pid 0 HI1 H Hm).
Qed.

(** No event withdraws a stale timer; it fires at its time. *)
Lemma sstep_stale ev a s a' s' e pid tid dl :
  LInv a s -> event_ok ev -> sstep ev a s a' s' e -> stale pid tid dl a s ->
  stale pid tid dl a' s' \/ (dl = TimerWheel.t_now a + wheel_ticks ev /\ ~ is_matching pid s').
Proof.
  intros HI Hev H Hst. pose proof Hst as [Ht Hs]. pose proof HI as [HS HT].
  assert ((exists c, ev = EvMatch c) \/ (forall c, ev <> EvMatch c)) as [[c ->]|Hne] by (destruct ev; naive_solver).
  - left. cbn [sstep] in H. destruct (onMatch_inv c a s HS) as [(q & sq & Hso & Hl & Heq)|[_ Heq]]; rewrite Heq in H; [|by inv H].
    apply sessionOf_inv in Hso as (Hq & Hc & _); [|done]. pose proof (LInv_queued q sq c a s HI Hq Hc Hl) as HI1.
    assert (stale pid tid dl (add_timer (MatchTimeout q) a) (queued q (TimerWheel.t_next a) sq s)) as [Ht1 Hs1].
    { pose proof (I_ids a s HT) as [_ Hids]. apply Hids in Ht as Hlt. split; [apply (add_due a s); [done|]; right; split; [lia|done]|].
      unfold queued. cbn [matchTimer_ set_matchTimer]. intros Hmt Hm. ins Hmt; [lia|].
      apply (queued_matching q sq s (TimerWheel.t_next a)) in Hm as [->|[_ Hm]]; [done|]. by apply Hs in Hmt. }
    destruct (tryMatch_inv _ _ HI1) as [(q' & _ & _ & _ & Heq')|
      (p1 & p2 & s1 & s2 & c1 & c2 & t1 & t2 & q' & l & pool & Hne & Hp1 & Hp2 & Hm1 & Hm2 & _ & _ & Hmt1 & Hmt2 & _ & _ & _ & Heq')];
      rewrite Heq' in H; inv H; [by split|].
    destruct HI1 as [_ HT1]. destruct (I_timer _ _ HT1 _ _ Hmt1) as [d1 Hd1], (I_timer _ _ HT1 _ _ Hmt2) as [d2 Hd2].
    split.
    + apply cancel_due. split; [|apply cancel_due; split; [|done]]; intros ->.
      * rewrite Ht1 in Hd2. injection Hd2 as -> ->. apply (Hs1 Hmt2). by exists s2.
      * rewrite Ht1 in Hd1. injection Hd1 as -> ->. apply (Hs1 Hmt1). by exists s1.
    + cbn [paired matchTimer_]. intros Hl1 Hm. del Hl1. del Hl1. apply (Hs1 Hl1).
      destruct Hm as (x & [(_ & _ & Hx)|(_ & y & _ & _ & _ & _ & ? & _)]%paired_sessions & Hstx); [by exists x|congruence].
  - destruct (decide (wheel_ticks ev = 0)) as [Hw|Hw].
    + left. pose proof (sstep_matching _ _ _ _ _ _ pid HI Hev H Hne) as Hback.
      destruct ev as [c acc now r1 r2|c q tok now|c|c i|c ms now|c|r wn|now]; cbn [sstep] in H; [| |by destruct (Hne c)|..|done].
      * cbn [onLogin TimerWheel.spec_interp] in H. inv H. split; [done|]. intros ? Hm%Hback. by apply Hs.
      * destruct (onReconnect_inv c q tok now a s HI) as [(sq & Hq & _ & Hnull & Heq)|[_ Heq]]; cbn zeta in Heq;
          rewrite Heq in H; [|by inv H]. injection H as <- <- _. destruct (I_null a s HT _ _ Hq Hnull) as [d1 Hd1].
        split; [apply cancel_due; split; [congruence|done]|]. intros ? Hm%Hback. by apply Hs.
      * unfold onInput in H. repeat (dmatch_in H); simpl in H; by inv H.
      * simpl in H. inv H. split; [done|]. intros Hl Hm%Hback. apply Hs; [|done]. by destruct (sessionOf c s) as [[q sq]|].
      * destruct (onDisconnect_inv (connName c) a s HS) as [(q & sq & _ & _ & Heq)|[_ Heq]]; [|rewrite Heq in H; by inv H].
        destruct (parted _ _ _ _) as [ss' qu]. rewrite Heq in H. injection H as <- <- _. split.
        { apply (add_due a s); [done|]. right. split; [|done]. apply (I_ids a s HT) in Ht. lia. }
        intros ? Hm%Hback. by apply Hs.
      * apply onRoomEnd_sessions in H as [-> ->]. split; [done|]. intros ? Hm%Hback. by apply Hs.
    + destruct ev as [| | | | | | |now]; try done. destruct H as (l & _ & Hl & H). simpl in H, Hl. symmetry in H.
      destruct (fire_stale _ _ _ _ _ _ _ _ pid tid dl (LInv_later a s HI) H Hst) as [[_ ?]|[Hin ?]]; [by left|right].
      split; [|done]. apply Hl in Hin as [cb Hcb]. simpl. congruence.
Qed.

End Stale.

Lemma run_stale Q pid tid dl l evs tr l' :
  run Q l evs tr l' -> Lobby l -> stale pid tid dl (TimerWheel.abs (fst l)) (snd l) -> now_of l' < dl ->
  stale pid tid dl (TimerWheel.abs (fst l')) (snd l').
Proof.
  induction 1 as [|l ev l1 e evs tr l2 HO HQ Ht Hev Hex Hr IH]; intros HL Hst Hlt; [done|].
  destruct (exec_sstep _ _ _ _ HL Ht Hev Hex) as (HL1 & Hn & Hs).
  destruct (sstep_stale _ _ _ _ _ _ pid tid dl (L_inv l HL) Hev Hs Hst) as [?|[Hd _]]; [by apply IH|].
  destruct (run_Lobby _ _ _ _ _ Hr HL1) as [_ Hn2]. pose proof (ticks_nonneg evs). simpl in Hd. lia.
Qed.

Lemma run_stale_matching pid tid dl l evs tr l' :
  run (matching pid) l evs tr l' -> Lobby l -> stale pid tid dl (TimerWheel.abs (fst l)) (snd l) -> now_of l' < dl.
Proof.
  induction 1 as [l HQ|l ev l1 e evs tr l2 HO HQ Ht Hev Hex Hr IH]; intros HL Hst.
  { destruct Hst as [Hd _]. by eapply TimerWheel.Inv_future; [apply HL|]. }
  destruct (exec_sstep _ _ _ _ HL Ht Hev Hex) as (HL1 & Hn & Hs).
  destruct (sstep_stale _ _ _ _ _ _ pid tid dl (L_inv l HL) Hev Hs Hst) as [?|[_ Hnm]]; [by apply IH|].
  exfalso. apply Hnm. by inv Hr.
Qed.

(** A wait for a match that was abandoned by a disconnection still limits
    the next one. [onDisconnect] takes the player out of the queue but leaves
    his timeout running; when he comes back and queues again, that timeout ends
    the new wait at the deadline [dl] of the old one, however short the new
    wait has been, instead of 30 seconds after its own start. *)
Theorem abandoned_timeout_cuts_new_wait (HO : HashOrder) l c pid ss dl l1 e evs1 tr1 l2 evs2 tr2 l3
  (Hreach : reachable l) (Ht : in_time l) (Hs : sessionOf c (snd l) = Some (pid, ss)) (Hm : state ss = kMatching)
  (Hd : deadline pid dl (TimerWheel.abs (fst l)) (snd l))
  (Hex : exec (EvDisconnect c) l = Ok (l1, e)) (Hr1 : run any l1 evs1 tr1 l2) (Hbefore : now_of l2 < dl)
  (Hr2 : run (matching pid) l2 evs2 tr2 l3) :
  now_of l3 < dl.
Proof.
  apply reachable_Lobby in Hreach as HL. destruct (exec_sstep (EvDisconnect c) _ _ _ HL Ht I Hex) as (HL1 & _ & Hst).
  pose proof (L_inv l HL) as [HS HT]. destruct Hd as (tid & Hmt & Hdue).
  apply sessionOf_inv in Hs as (Hp & Hc & Hn & _); [|done]. cbn [sstep] in Hst.
  destruct (onDisconnect_inv (connName c) (TimerWheel.abs (fst l)) _ HS) as [(q & sq & En & Hq & Heq)|[? _]]; [|congruence].
  rewrite Hn in En. injection En as <-. rewrite Hp in Hq. injection Hq as <-.
  unfold parted in Heq. rewrite decide_True in Heq by done. rewrite Heq in Hst.
  apply pair_equal_spec in Hst as [Ha [Hs1 _]%pair_equal_spec].
  assert (stale pid tid dl (TimerWheel.abs (fst l1)) (snd l1)) as Hstale.
  { rewrite <- Ha, <- Hs1. split.
    - apply (add_due _ _ _ _ _ HT). right. split; [|done]. apply (I_ids _ _ HT) in Hdue. lia.
    - intros _ (x & Hx & Hst). cbn [sessions_ set_sessions] in Hx. rewrite lookup_insert_eq in Hx. by injection Hx as <-. }
  destruct (run_Lobby _ _ _ _ _ Hr1 HL1) as [HL2 _]. eapply run_stale_matching; [exact Hr2|done|].
  eapply run_stale; [exact Hr1|done|done|done].
Qed.

(** Alice waits for 20 seconds, loses her connection, comes back and queues
    again; 9.9 seconds later she still waits, at the next tick she is told that
    no match was found. *)
Definition alice_waited : lobby := after ([EvLogin 1 "alice" 0 1 2; EvMatch 1] ++ replicate 200 (EvWheel 1)).

Definition alice_requeues : list event := [EvReconnect 2 1 (genToken 1 2) 1; EvMatch 2].

Lemma abandoned_timeout_cuts_new_wait_witness :
  exists l1 e, @exec elements_order (EvDisconnect 1) alice_waited = Ok (l1, e) /\
  exists l2 tr1, exec_all alice_requeues l1 = Ok (l2, tr1) /\
  exists l3 tr2, exec_while (matchingb 1) (replicate 99 (EvWheel 1)) l2 = Ok (l3, tr2) /\ now_of l3 < 300 /\
  exists l4 e4, @exec elements_order (EvWheel 1) l3 = Ok (l4, e4) /\ e4 = [Send 2 (MEnterRoom 0 [])].
Proof.
  assert (match @exec elements_order (EvDisconnect 1) alice_waited with
          | Ok (l1, _) =>
              match exec_all alice_requeues l1 with
              | Ok (l2, _) =>
                  (now_of l2 <? 300) &&
                  match exec_while (matchingb 1) (replicate 99 (EvWheel 1)) l2 with
                  | Ok (l3, _) => match @exec elements_order (EvWheel 1) l3 with
                                  | Ok (_, [Send 2 (MEnterRoom 0 [])]) => true
                                  | _ => false
                                  end
                  | UB => false
                  end
              | UB => false
              end
          | UB => false end = true) as H by (vm_compute; reflexivity).
  destruct (@exec elements_order (EvDisconnect 1) alice_waited) as [[l1 e]|] eqn:E1; [|discriminate H].
  exists l1, e. split; [reflexivity|].
  destruct (exec_all alice_requeues l1) as [[l2 tr1]|] eqn:E2; [|discriminate H].
  exists l2, tr1. split; [reflexivity|]. apply andb_true_iff in H as [Hlt H]. apply Z.ltb_lt in Hlt.
  destruct (exec_while (matchingb 1) (replicate 99 (EvWheel 1)) l2) as [[l3 tr2]|] eqn:E3; [|discriminate H].
  exists l3, tr2. split; [reflexivity|]. split.
  - destruct (sessionOf 1 (snd alice_waited)) as [[pid ss]|] eqn:Es; [|vm_compute in Es; discriminate].
    assert (pid = 1 /\ state ss = kMatching) as [-> Hst]
      by (vm_compute in Es; injection Es as <- <-; split; reflexivity).
    refine (abandoned_timeout_cuts_new_wait elements_order alice_waited 1 1 ss 300 l1 e _ tr1 l2 _ tr2 l3
              (after_reachable _) _ Es Hst _ E1 (run_exec_all _ _ _ _ E2) Hlt
              (run_exec_while _ _ _ _ _ _ (matchingb_spec 1) E3)).
    + vm_compute. reflexivity.
    + exists 2. split; vm_compute; reflexivity.
  - destruct (@exec elements_order (EvWheel 1) l3) as [[l4 e4]|] eqn:E4; [|discriminate H].
    exists l4, e4. split; [reflexivity|]. repeat (dmatch_in H; try discriminate H). reflexivity.
Defined.

(** *** Two logins on one connection *)

Section Orphans.
Context {HO : HashOrder}.

Lemma callback_conns now cb w a a' s' out' :
  TimerWheel.spec_interp (run_callback now cb w) a = (a', (s', out')) -> connToPlayer_ s' = connToPlayer_ (fst w).
Proof.
  destruct w as [s out]. unfold run_callback, match_timeout, expireSession. intros H. simpl.
  repeat (dmatch_in H); cbn [scheduleSweep TimerWheel.spec_interp] in H; try rewrite spec_add_timer in H by done;
    cbn [TimerWheel.spec_interp] in H; by inv H.
Qed.

Lemma fire_conns now l a w a' s' out' :
  TimerWheel.spec_fire (run_callback now) l (a, w) = (a', (s', out')) -> connToPlayer_ s' = connToPlayer_ (fst w).
Proof.
  revert a w. induction l as [|tid l IH]; intros a w H; cbn [TimerWheel.spec_fire] in H; [by inv H|].
  destruct (TimerWheel.t_due a !! tid) as [[d cb]|] eqn:E; [|by eapply IH].
  destruct (TimerWheel.spec_interp _ _) as [a1 [s1 out1]] eqn:Ei.
  rewrite (IH _ _ H). simpl. by eapply callback_conns.
Qed.

(** A connection comes to stand for a player by a login that creates him or by
    a reconnection to his disconnected session. *)
Lemma sstep_conns ev a s a' s' e name p :
  LInv a s -> sstep ev a s a' s' e -> connToPlayer_ s' !! name = Some p ->
  connToPlayer_ s !! name = Some p \/ sessions_ s !! p = None \/
  (exists ss, sessions_ s !! p = Some ss /\ s_conn ss = None).
Proof.
  intros HI H Hn. pose proof HI as [HS HT].
  destruct ev as [c acc now r1 r2|c q tok now|c|c i|c ms now|c|r wn|now]; cbn [sstep] in H.
  - cbn [onLogin TimerWheel.spec_interp] in H. inv H. cbn [connToPlayer_] in Hn. ins Hn; [right; left|by left].
    destruct (sessions_ s !! nextPlayerId_ s) as [x|] eqn:E; [|done]. apply (I_key s HS) in E. lia.
  - destruct (onReconnect_inv c q tok now a s HI) as [(sq & Hq & _ & Hnull & Heq)|[_ Heq]]; cbn zeta in Heq;
      rewrite Heq in H; [|inv H; by left]. injection H as _ <- _. cbn [connToPlayer_ set_conns] in Hn.
    ins Hn; [right; right; by exists sq|by left].
  - left. destruct (onMatch_inv c a s HS) as [(q & sq & Hso & Hl & Heq)|[_ Heq]]; rewrite Heq in H; [|by inv H].
    apply sessionOf_inv in Hso as (Hq & Hc & _); [|done]. pose proof (LInv_queued q sq c a s HI Hq Hc Hl) as HI1.
    destruct (tryMatch_inv _ _ HI1) as [(q' & _ & _ & _ & Heq')|
      (p1 & p2 & s1 & s2 & c1 & c2 & t1 & t2 & q' & l & pool & _ & _ & _ & _ & _ & _ & _ & _ & _ & _ & _ & _ & Heq')];
      rewrite Heq' in H; by inv H.
  - left. unfold onInput in H. repeat (dmatch_in H); simpl in H; by inv H.
  - left. simpl in H. inv H. by destruct (sessionOf c s) as [[q sq]|].
  - left. destruct (onDisconnect_inv (connName c) a s HS) as [(q & sq & _ & Hq & Heq)|[_ Heq]]; [|rewrite Heq in H; by inv H].
    destruct (parted _ _ _ _) as [ss' qu]. rewrite Heq in H. injection H as _ <- _. cbn in Hn. by del Hn.
  - left. by apply onRoomEnd_sessions in H as [_ ->].
  - left. destruct H as (l & _ & _ & H). simpl in H. symmetry in H. by rewrite (fire_conns _ _ _ _ _ _ _ H) in Hn.
Qed.

End Orphans.

(** A session whose connection stands for somebody else. *)
Definition orphan (pid : Z) (c : conn) (s : t) : Prop :=
  (exists ss, sessions_ s !! pid = Some ss /\ s_conn ss = Some c) /\
  forall name, connToPlayer_ s !! name <> Some pid.

Lemma orphan_step {HO : HashOrder} ev a s a' s' e pid c :
  LInv a s -> sstep ev a s a' s' e -> orphan pid c s -> orphan pid c s'.
Proof.
  intros HI H [(ss & Hp & Hc) Hno]. split.
  - destruct (sstep_fate _ _ _ _ _ _ _ _ HI H Hp) as
      [(ss' & ? & (? & _) & _)|[(c' & now & _ & ?)|[(c' & _ & Hm)|(now & _ & ? & _)]]];
      [exists ss'; split; congruence|congruence|by apply Hno in Hm|congruence].
  - intros name Hn. destruct (sstep_conns _ _ _ _ _ _ _ _ HI H Hn) as [?|[?|(x & ? & ?)]];
      [by eapply Hno|congruence|congruence].
Qed.

Lemma orphan_run Q pid c l evs tr l' :
  run Q l evs tr l' -> Lobby l -> orphan pid c (snd l) -> orphan pid c (snd l').
Proof.
  induction 1 as [|l ev l1 e evs tr l2 HO HQ Ht Hev Hex _ IH]; intros HL Ho; [done|].
  destruct (exec_sstep _ _ _ _ HL Ht Hev Hex) as (HL1 & _ & Hs). apply IH; [done|].
  eapply orphan_step; [apply HL|exact Hs|done].
Qed.

(** A second login on a connection loses the first session for good. The
    connection now stands for the new player, so that the disconnection is not
    noticed for the old one: whatever happens afterwards, the old session
    stays in [sessions_] with the connection it had, is never expired and
    refuses every reconnection. *)
Theorem second_login_orphans_session (HO : HashOrder) l c pid ss acc now r1 r2 l1 e evs tr l2
  (Hreach : reachable l) (Ht : in_time l) (Hs : sessionOf c (snd l) = Some (pid, ss))
  (Hex : exec (EvLogin c acc now r1 r2) l = Ok (l1, e)) (Hr : run any l1 evs tr l2) :
  (exists ss', sessions_ (snd l2) !! pid = Some ss' /\ s_conn ss' = Some c) /\ sessionOf c (snd l2) <> Some (pid, ss).
Proof.
  apply reachable_Lobby in Hreach as HL.
  destruct (exec_sstep (EvLogin c acc now r1 r2) _ _ _ HL Ht I Hex) as (HL1 & _ & Hst). pose proof (L_inv l HL) as [HS HT].
  apply sessionOf_inv in Hs as (Hp & Hc & Hn & _); [|done]. cbn [sstep onLogin TimerWheel.spec_interp] in Hst.
  apply pair_equal_spec in Hst as [_ [Hs1 _]%pair_equal_spec].
  assert (pid < nextPlayerId_ (snd l)) as Hlt by (apply (I_key _ HS) in Hp; lia).
  assert (orphan pid c (snd l1)) as Ho.
  { rewrite <- Hs1. split.
    - exists ss. cbn [sessions_]. rewrite lookup_insert_ne by lia. done.
    - intros name Hm. cbn [connToPlayer_] in Hm. ins Hm; [lia|].
      apply (I_conn _ HS) in Hm as (x & c' & Hx & Hcx & <-). congruence. }
  destruct (orphan_run _ _ _ _ _ _ _ Hr HL1 Ho) as [? Hno]. split; [done|]. unfold sessionOf.
  destruct (connToPlayer_ (snd l2) !! connName c) as [q|] eqn:Eq; [|done].
  destruct (sessions_ (snd l2) !! q) as [x|]; [|done]. intros [= -> ->]. by eapply Hno.
Qed.

Lemma second_login_orphans_session_witness :
  exists l1 e, @exec elements_order (EvLogin 1 "mallory" 0 5 6) alice_in = Ok (l1, e) /\
  exists l2 tr, exec_all (EvDisconnect 1 :: replicate 300 (EvWheel 1)) l1 = Ok (l2, tr) /\
  exists ss', sessions_ (snd l2) !! 1 = Some ss' /\ s_conn ss' = Some 1.
Proof.
  assert (match @exec elements_order (EvLogin 1 "mallory" 0 5 6) alice_in with
          | Ok (l1, _) => match exec_all (EvDisconnect 1 :: replicate 300 (EvWheel 1)) l1 with Ok _ => true | UB => false end
          | UB => false end = true) as H by (vm_compute; reflexivity).
  destruct (@exec elements_order (EvLogin 1 "mallory" 0 5 6) alice_in) as [[l1 e]|] eqn:E1; [|discriminate H].
  exists l1, e. split; [reflexivity|].
  destruct (exec_all (EvDisconnect 1 :: replicate 300 (EvWheel 1)) l1) as [[l2 tr]|] eqn:E2; [|discriminate H].
  exists l2, tr. split; [reflexivity|].
  destruct (sessionOf 1 (snd alice_in)) as [[pid ss]|] eqn:Es; [|vm_compute in Es; discriminate].
  assert (pid = 1) as -> by (vm_compute in Es; injection Es; congruence).
  refine (proj1 (second_login_orphans_session elements_order alice_in 1 1 ss "mallory" 0 5 6 l1 e _ tr l2
                   (after_reachable _) _ Es E1 (run_exec_all _ _ _ _ E2))).
  vm_compute. reflexivity.
Defined.

End GameServer.
