(* ===== verification/System.v ===== *)
(** * The lobby, the rooms and their loops as one system
    ([GameServer.cc], [Room.cc], [EventLoop.cc])

    [GameServer.v] ends at the tasks the lobby posts to the rooms and [Room.v]
    at the calls a room makes to the outside. Here the two run together: the
    lobby creates room objects and appends tasks to the queues of the game
    loops; a loop runs the tasks of its queue in order, interleaved with the
    ticks of its rooms; a room that ends posts [onRoomEnd] to the lobby. The
    steps of the threads interleave in any way. The destructor of [GameServer]
    is part of it: the lobby posts [stop] to every room, the last room that has
    stopped posts the final task to the lobby.

    The game loops are threads of their own (the server has at least one), so
    [runInLoop] from another thread appends to the loop's queue. *)

From stdpp Require Import base gmap sets list strings sorting relations.
From Stdlib Require Import ZArith Lia.
From S2P Require Import Prelude MatchQueue TimerWheel LoopPool Float32 Proto BattleSim Room GameServer.

Module System.

Local Open Scope Z_scope.
Import EventLoopThreadPool(loop).

(** ** State *)

(** What the rooms post to the lobby. *)
Inductive ltask : Type :=
  | TEnd (rid winnerId : Z)
  | TFinish.

(** [rooms] holds the room objects with their loop, [tasks] the pending
    functors of the game loops, [lq] the tasks rooms have posted to the lobby;
    [remain] is the destructor's counter and [gone] says that [gamePool_] has
    been destroyed and the destructor released. *)
Record t : Type := mk {
  lob : GameServer.lobby;
  rooms : gmap Z (loop * Room.t);
  tasks : gmap loop (list (Z * Room.action));
  lq : list ltask;
  remain : option Z;
  gone : bool;
}.

(** What leaves the system. *)
Inductive out : Type :=
  | OSend (c : GameServer.conn) (m : server_msg)
  | OShutdown (c : GameServer.conn)
  | OJob (j : GameServer.job).

Definition queue_of (l : loop) (q : gmap loop (list (Z * Room.action))) : list (Z * Room.action) :=
  default [] (q !! l).

(** [EventLoop::queueInLoop] *)
Definition push (l : loop) (x : Z * Room.action) (q : gmap loop (list (Z * Room.action)))
  : gmap loop (list (Z * Room.action)) :=
  <[l := queue_of l q ++ [x]]> q.

(** ** Distributing effects *)

Definition add_room (m : gmap Z (loop * Room.t)) (e : GameServer.effect) : gmap Z (loop * Room.t) :=
  match e with GameServer.NewRoom rid l players => <[rid := (l, Room.make rid players)]> m | _ => m end.

Definition post (q : gmap loop (list (Z * Room.action))) (e : GameServer.effect)
  : gmap loop (list (Z * Room.action)) :=
  match e with GameServer.PostRoom l rid a => push l (rid, a) q | _ => q end.

Definition emit (e : GameServer.effect) : option out :=
  match e with
  | GameServer.Send c m => Some (OSend c m)
  | GameServer.Shutdown c => Some (OShutdown c)
  | GameServer.Enqueue j => Some (OJob j)
  | _ => None
  end.

(** The effects of a lobby handler. *)
Definition deliver (e : list GameServer.effect) (s : t) : t :=
  mk (lob s) (foldl add_room (rooms s) e) (foldl post (tasks s) e) (lq s) (remain s) (gone s).

Definition post_reset (l : loop) (rid : Z) (q : gmap loop (list (Z * Room.action))) (e : Room.effect)
  : gmap loop (list (Z * Room.action)) :=
  match e with Room.PostTickerReset => push l (rid, Room.ATickerReset) q | _ => q end.

(** The callback given to the room in [tryMatch]. *)
Definition on_end (e : Room.effect) : option ltask :=
  match e with Room.OnEnd rid w => Some (TEnd rid w) | _ => None end.

Definition emit_room (e : Room.effect) : option out :=
  match e with Room.Send c m => Some (OSend c m) | _ => None end.

(** The room after an action, with its effects. *)
Definition deliver_room (rid : Z) (l : loop) (r : Room.t) (e : list Room.effect) (s : t) : t :=
  mk (lob s) (<[rid := (l, r)]> (rooms s)) (foldl (post_reset l rid) (tasks s) e)
     (lq s ++ omap on_end e) (remain s) (gone s).

(** ** Steps *)

Inductive label : Type :=
  | LLobby (ev : GameServer.event)  (* a client's message, a disconnection or the wheel's driver *)
  | LQueue                          (* the lobby takes a task of the rooms *)
  | LTask (l : loop)                (* a game loop runs its first functor *)
  | LTick (rid : Z)                 (* the ticker of a room *)
  | LClose.                         (* the first task of the destructor *)

Section Exec.
Context {HO : HashOrder} {LM : Libm}.

(** A lobby handler; [gamePool_->getNextLoop()] on the destroyed pool is
    undefined. *)
Definition run_lobby (ev : GameServer.event) (s : t) : res (t * list out) :=
  (let! (l', e) := GameServer.exec ev (lob s) in
   if gone s && existsb GameServer.starts_room e then UB
   else Ok (deliver e (mk l' (rooms s) (tasks s) (lq s) (remain s) (gone s)), omap emit e))%gs.

Definition run_room (rid : Z) (a : Room.action) (s : t) : t * list out :=
  match rooms s !! rid with
  | None => (s, [])
  | Some (l, r) => let (r1, e) := Room.exec a r in (deliver_room rid l r1 e s, omap emit_room e)
  end.

(** [finishOne]: the last room posts the end of the destructor to the lobby. *)
Definition finishOne (s : t) : t :=
  match remain s with
  | None => s
  | Some n => mk (lob s) (rooms s) (tasks s) (if n =? 1 then lq s ++ [TFinish] else lq s) (Some (n - 1)) (gone s)
  end.

Definition set_tasks (q : gmap loop (list (Z * Room.action))) (s : t) : t :=
  mk (lob s) (rooms s) q (lq s) (remain s) (gone s).

(** The first functor of a loop's queue; the task of the destructor is
    [room->stop(); finishOne();]. *)
Definition run_task (l : loop) (s : t) : t * list out :=
  match queue_of l (tasks s) with
  | [] => (s, [])
  | (rid, a) :: rest =>
      let (s1, o) := run_room rid a (set_tasks (<[l := rest]> (tasks s)) s) in
      match a with Room.AStop => (finishOne s1, o) | _ => (s1, o) end
  end.

(** The destructor's task on the lobby: [wheelDriver_.reset()] (no further
    wheel events), [rooms_] moved away, one [stop] per room. *)
Definition close (s : t) : t :=
  let (g, e) := GameServer.stop_rooms (snd (lob s)) in
  let n := Z.of_nat (size (GameServer.rooms_ (snd (lob s)))) in
  if n =? 0 then mk (fst (lob s), g) (rooms s) (tasks s) (lq s) (Some 0) true
  else deliver e (mk (fst (lob s), g) (rooms s) (tasks s) (lq s) (Some n) (gone s)).

Definition exec (x : label) (s : t) : res (t * list out) :=
  match x with
  | LLobby ev => run_lobby ev s
  | LQueue =>
      match lq s with
      | [] => Ok (s, [])
      | TEnd rid w :: rest =>
          run_lobby (GameServer.EvRoomEnd rid w) (mk (lob s) (rooms s) (tasks s) rest (remain s) (gone s))
      | TFinish :: rest => Ok (mk (lob s) (rooms s) (tasks s) rest (remain s) true, [])
      end
  | LTask l => Ok (run_task l s)
  | LTick rid => Ok (run_room rid Room.ATick s)
  | LClose => Ok (close s, [])
  end.

End Exec.

Definition boot (gameThreads : Z) (st : bool) : t := mk (GameServer.boot gameThreads st) ∅ ∅ [] None false.

(** ** What a lobby handler does to the rooms *)

(** The tasks for room [rid] among the effects of a handler. *)
Definition posts (rid : Z) (e : list GameServer.effect) : list Room.action :=
  omap (fun x => match x with
                 | GameServer.PostRoom _ rid' a => if decide (rid' = rid) then Some a else None
                 | _ => None
                 end) e.

(** The connection of player [pid] in a room that runs the actions [as']. *)
Definition rebound (pid : Z) (as' : list Room.action) (oc : option Room.conn) : option Room.conn :=
  foldl (fun oc a => match a with
                     | Room.ARebind p c => if decide (p = pid) then Some c else oc
                     | Room.ADrop p => if decide (p = pid) then None else oc
                     | _ => oc
                     end) oc as'.

Definition forces_end (a : Room.action) : bool := match a with Room.AForceEnd _ => true | _ => false end.

(** What the lobby posts to rooms that exist. *)
Definition lobby_action (a : Room.action) : Prop :=
  match a with Room.AStart | Room.AStop | Room.ATick | Room.ATickerReset => False | _ => True end.

Lemma posts_app rid e1 e2 : posts rid (e1 ++ e2) = posts rid e1 ++ posts rid e2.
Proof. apply omap_app. Qed.

Lemma rebound_app pid a1 a2 oc : rebound pid (a1 ++ a2) oc = rebound pid a2 (rebound pid a1 oc).
Proof. apply foldl_app. Qed.

Import GameServer(sessions_, rooms_, nextRoomId_, s_conn, roomId, kInRoom, PostRoom, NewRoom, Sess, LInv, in_room).

(** The result of a battle, on its way to the storage. *)
Definition records (x : GameServer.effect) : bool :=
  match x with GameServer.Enqueue (GameServer.JRecord _ _) => true | _ => false end.

(** A handler that creates no room: the rooms stay, tasks go to existing rooms
    on their loops, the tasks for a room carry the change of its players'
    connections, who disappears from a room leaves a [forceEnd], and no result
    is recorded. *)
Record handled (s s' : GameServer.t) (e : list GameServer.effect) : Prop := mkHandled {
  H_rooms : rooms_ s' = rooms_ s;
  H_next : nextRoomId_ s' = nextRoomId_ s;
  H_none : Forall (fun x => GameServer.starts_room x = false) e;
  H_records : Forall (fun x => records x = false) e;
  H_posts : forall l rid a, PostRoom l rid a ∈ e -> rooms_ s !! rid = Some l /\ lobby_action a;
  H_bind : forall pid ss', sessions_ s' !! pid = Some ss' -> roomId ss' <> 0 ->
    exists ss, sessions_ s !! pid = Some ss /\ roomId ss = roomId ss' /\
      rebound pid (posts (roomId ss) e) (s_conn ss) = s_conn ss';
  H_leave : forall pid ss, sessions_ s !! pid = Some ss -> roomId ss <> 0 ->
    in_room (roomId ss) pid s' \/ Exists (fun a => forces_end a = true) (posts (roomId ss) e);
}.

Lemma handled_refl s : handled s s [].
Proof.
  split; try done.
  - intros l rid a H. by apply not_elem_of_nil in H.
  - intros pid ss Hp _. eauto.
  - intros pid ss Hp _. left. by exists ss.
Qed.

Lemma handled_trans s s1 s2 e1 e2 : handled s s1 e1 -> handled s1 s2 e2 -> handled s s2 (e1 ++ e2).
Proof.
  intros [R1 N1 F1 G1 P1 B1 V1] [R2 N2 F2 G2 P2 B2 V2]. split.
  - congruence.
  - congruence.
  - by apply Forall_app.
  - by apply Forall_app.
  - intros l rid a [H|H]%elem_of_app; [by eapply P1|]. rewrite <- R1. by eapply P2.
  - intros pid ss2 Hp Hr. destruct (B2 _ _ Hp Hr) as (ss1 & Hp1 & Hr1 & Hb1).
    destruct (B1 _ _ Hp1) as (ss & Hp0 & Hr0 & Hb0); [congruence|]. exists ss. split_and!; [done|congruence|].
    rewrite posts_app, rebound_app, Hb0, Hr0. done.
  - intros pid ss Hp Hr. rewrite posts_app, Exists_app. destruct (V1 _ _ Hp Hr) as [(ss1 & Hp1 & Hr1)|?]; [|tauto].
    rewrite <- Hr1 in Hr |- *. destruct (V2 _ _ Hp1 Hr); tauto.
Qed.

(** Effects that concern no room. *)
Definition silent (x : GameServer.effect) : Prop :=
  match x with NewRoom _ _ _ | PostRoom _ _ _ | GameServer.Enqueue (GameServer.JRecord _ _) => False | _ => True end.

Lemma posts_silent rid e : Forall silent e -> posts rid e = [].
Proof. unfold posts. induction 1 as [|x e Hx _ IH]; [done|]. simpl. by destruct x. Qed.

Lemma silent_none e : Forall silent e -> Forall (fun x => GameServer.starts_room x = false) e.
Proof. intros H. eapply Forall_impl; [exact H|]. by intros []. Qed.

Lemma silent_records e : Forall silent e -> Forall (fun x => records x = false) e.
Proof. intros H. eapply Forall_impl; [exact H|]. by intros [| | | |[]]. Qed.

Lemma silent_enqueue s j : silent (GameServer.Enqueue j) -> Forall silent (GameServer.enqueue_if s j).
Proof. unfold GameServer.enqueue_if. destruct (GameServer.storage s); by repeat constructor. Qed.

(** Handlers that post nothing and move nobody. *)
Lemma handled_quiet s s' e :
  rooms_ s' = rooms_ s -> nextRoomId_ s' = nextRoomId_ s -> Forall silent e ->
  (forall pid ss', sessions_ s' !! pid = Some ss' -> roomId ss' <> 0 ->
     exists ss, sessions_ s !! pid = Some ss /\ roomId ss = roomId ss' /\ s_conn ss = s_conn ss') ->
  (forall pid ss, sessions_ s !! pid = Some ss -> roomId ss <> 0 -> in_room (roomId ss) pid s') ->
  handled s s' e.
Proof.
  intros HR HN HF HB HV. split; try done.
  - by apply silent_none.
  - by apply silent_records.
  - intros l rid a Hx. rewrite Forall_forall in HF. by apply HF in Hx.
  - intros pid ss' Hp Hr. destruct (HB _ _ Hp Hr) as (ss & ? & ? & ?). exists ss. by rewrite posts_silent.
  - intros pid ss Hp Hr. left. eauto.
Qed.

(** The task a handler posts to the room of a session. *)
Definition to_room (s : GameServer.t) (ss : GameServer.Session) (a : Room.action) : list GameServer.effect :=
  if decide (GameServer.state ss = kInRoom) then
    match rooms_ s !! roomId ss with Some l => [PostRoom l (roomId ss) a] | None => [] end
  else [].

Lemma to_room_elem s ss a l rid b :
  PostRoom l rid b ∈ to_room s ss a -> rooms_ s !! rid = Some l /\ b = a.
Proof.
  unfold to_room. destruct (decide _); [|intros H; by apply not_elem_of_nil in H].
  destruct (rooms_ s !! roomId ss) as [l'|] eqn:E; [|intros H; by apply not_elem_of_nil in H].
  intros H. apply list_elem_of_singleton in H. by inv H.
Qed.

Lemma posts_to_room s pid ss a rid :
  Sess s -> sessions_ s !! pid = Some ss ->
  posts rid (to_room s ss a) = if decide (rid = roomId ss /\ rid <> 0) then [a] else [].
Proof.
  intros HS Hp. unfold to_room. destruct (GameServer.I_room s HS _ _ Hp) as [[Hst [l Hl]]|[Hst H0]].
  - rewrite decide_True, Hl by done. pose proof (proj2 (GameServer.I_rid s HS) _ _ Hl). unfold posts. simpl.
    destruct (decide (roomId ss = rid)) as [<-|]; [rewrite decide_True by lia|rewrite decide_False by naive_solver]; done.
  - rewrite decide_False by done. rewrite decide_False by lia. done.
Qed.

Lemma to_room_records s ss a : Forall (fun x => records x = false) (to_room s ss a).
Proof. unfold to_room. repeat dmatch; by repeat constructor. Qed.

Lemma to_room_none s ss a : Forall (fun x => GameServer.starts_room x = false) (to_room s ss a).
Proof. unfold to_room. repeat dmatch; by repeat constructor. Qed.

(** Handlers that replace one session and tell its room. *)
Lemma handled_replace s s' pid ss ss' a pre suf :
  Sess s -> sessions_ s !! pid = Some ss -> sessions_ s' = <[pid := ss']> (sessions_ s) ->
  rooms_ s' = rooms_ s -> nextRoomId_ s' = nextRoomId_ s -> roomId ss' = roomId ss -> lobby_action a ->
  Forall silent pre -> Forall silent suf ->
  rebound pid [a] (s_conn ss) = s_conn ss' -> (forall p oc, p <> pid -> rebound p [a] oc = oc) ->
  handled s s' (pre ++ to_room s ss a ++ suf).
Proof.
  intros HS Hp Hs' HR HN Hrid Ha Hpre Hsuf Hb Hne.
  assert (forall rid, posts rid (pre ++ to_room s ss a ++ suf) = if decide (rid = roomId ss /\ rid <> 0) then [a] else [])
    as Hpo.
  { intros rid. by rewrite !posts_app, (posts_silent rid pre), (posts_silent rid suf), app_nil_r, (posts_to_room s pid). }
  split; try done.
  - rewrite !Forall_app. split_and!; [by apply silent_none|apply to_room_none|by apply silent_none].
  - rewrite !Forall_app. split_and!; [by apply silent_records|apply to_room_records|by apply silent_records].
  - rewrite Forall_forall in Hpre, Hsuf. intros l rid b [H|[H|H]%elem_of_app]%elem_of_app.
    + by apply Hpre in H.
    + apply to_room_elem in H as [? ->]. done.
    + by apply Hsuf in H.
  - intros p x Hx Hr. rewrite Hs' in Hx. apply lookup_insert_Some in Hx as [[<- <-]|[Hn Hx]].
    + exists ss. rewrite Hpo, decide_True by (split; [done|congruence]). done.
    + exists x. split_and!; [done|done|]. rewrite Hpo. destruct (decide _); [by apply Hne|done].
  - intros p x Hx Hr. left. unfold in_room. rewrite Hs'. destruct (decide (p = pid)) as [->|].
    + rewrite lookup_insert_eq. rewrite Hp in Hx. inv Hx. eauto.
    + rewrite lookup_insert_ne by done. eauto.
Qed.

(** A match: a new room for two players who were in none. *)
Record created (s s' : GameServer.t) (l : loop) (p1 c1 p2 c2 : Z) : Prop := mkCreated {
  C_rooms : rooms_ s' = <[nextRoomId_ s := l]> (rooms_ s);
  C_next : nextRoomId_ s' = nextRoomId_ s + 1;
  C_ne : p1 <> p2;
  C_bind : forall pid ss', sessions_ s' !! pid = Some ss' -> roomId ss' <> 0 ->
    (roomId ss' = nextRoomId_ s /\ (pid = p1 /\ s_conn ss' = Some c1 \/ pid = p2 /\ s_conn ss' = Some c2)) \/
    (exists ss, sessions_ s !! pid = Some ss /\ roomId ss = roomId ss' /\ s_conn ss = s_conn ss');
  C_stay : forall pid ss, sessions_ s !! pid = Some ss -> roomId ss <> 0 -> in_room (roomId ss) pid s';
  C_in : in_room (nextRoomId_ s) p1 s' /\ in_room (nextRoomId_ s) p2 s';
}.

Section Handlers.
Context {HO : HashOrder}.

Lemma callback_handled now tid d cb a s out a' s' out' :
  LInv a s -> TimerWheel.t_due a !! tid = Some (d, cb) ->
  TimerWheel.spec_interp (GameServer.run_callback now cb (s, out)) (TimerWheel.spec_cancel tid a) = (a', (s', out')) ->
  exists e, out' = out ++ e /\ handled s s' e.
Proof.
  intros [HS HT] Htid H. unfold GameServer.run_callback in H. destruct cb as [q|q|].
  - destruct (GameServer.match_timeout q s) as [s1 e] eqn:E. simpl in H. inv H. exists e. split; [done|].
    unfold GameServer.match_timeout in E. destruct (negb _); [inv E; by apply handled_quiet; eauto; intros ????; eexists|].
    simpl in E. destruct (sessions_ s !! q) as [sq|] eqn:Eq; inv E; [|by apply handled_quiet; eauto; intros ????; eexists].
    apply handled_quiet; try done.
    + destruct (s_conn sq); by repeat constructor.
    + intros p x Hx Hr. simpl in Hx. apply lookup_insert_Some in Hx as [[<- <-]|[? Hx]]; eauto.
    + intros p x Hx Hr. unfold in_room. simpl. destruct (decide (p = q)) as [->|].
      * rewrite lookup_insert_eq. rewrite Eq in Hx. inv Hx. by eexists.
      * rewrite lookup_insert_ne by done. eauto.
  - destruct (GameServer.expireSession q s) as [s1 e] eqn:E. simpl in H. inv H. exists e. split; [done|].
    destruct (GameServer.I_expire a s HT _ _ _ Htid) as (sq & Hq & Hc & _). unfold GameServer.expireSession in E.
    rewrite Hq, bool_decide_eq_false_2 in E by (rewrite Hc; tauto). apply pair_equal_spec in E as [<- <-].
    fold (to_room s sq (Room.AForceEnd (GameServer.find_opponent q (roomId sq) s))).
    set (w := GameServer.find_opponent q (roomId sq) s). split; try done.
    + apply to_room_none.
    + apply to_room_records.
    + intros l rid b [? ->]%to_room_elem. done.
    + intros p x Hx Hr. simpl in Hx. apply lookup_delete_Some in Hx as [? Hx]. exists x. split_and!; [done|done|].
      rewrite (posts_to_room s q) by done. by destruct (decide _).
    + intros p x Hx Hr. destruct (decide (p = q)) as [->|].
      * right. rewrite Hq in Hx. inv Hx. rewrite (posts_to_room s q), decide_True by done. by left.
      * left. exists x. simpl. by rewrite lookup_delete_ne.
  - cbn [GameServer.scheduleSweep TimerWheel.spec_interp] in H. rewrite GameServer.spec_add_timer in H by done.
    cbn [TimerWheel.spec_interp] in H. inv H. eexists. split; [done|]. apply handled_quiet; try done.
    + by apply GameServer.Forall_sweep.
    + eauto.
    + intros p x ? ?. by exists x.
Qed.

Lemma fire_handled now l a s out a' s' out' :
  LInv a s -> TimerWheel.spec_fire (GameServer.run_callback now) l (a, (s, out)) = (a', (s', out')) ->
  exists e, out' = out ++ e /\ handled s s' e.
Proof.
  revert a s out. induction l as [|tid l IH]; intros a s out HI H; cbn [TimerWheel.spec_fire] in H.
  { inv H. exists []. rewrite app_nil_r. split; [done|apply handled_refl]. }
  destruct (TimerWheel.t_due a !! tid) as [[d cb]|] eqn:E; [|by eapply IH].
  destruct (TimerWheel.spec_interp _ _) as [a1 [s1 out1]] eqn:Ei.
  pose proof (GameServer.LInv_run_callback _ _ _ _ _ _ _ _ _ _ HI E Ei) as HI1.
  destruct (callback_handled _ _ _ _ _ _ _ _ _ _ HI E Ei) as (e1 & -> & H1).
  destruct (IH _ _ _ HI1 H) as (e2 & -> & H2). exists (e1 ++ e2). rewrite app_assoc. split; [done|].
  by eapply handled_trans.
Qed.

(** A match request. *)
Lemma match_handled c a s a' s' e :
  LInv a s -> TimerWheel.spec_interp (GameServer.onMatch c s) a = (a', Ok (s', e)) ->
  handled s s' e \/
  exists l p1 c1 p2 c2, created s s' l p1 c1 p2 c2 /\
    e = [NewRoom (nextRoomId_ s) l [(p1, Some c1); (p2, Some c2)]; PostRoom l (nextRoomId_ s) Room.AStart].
Proof.
  intros HI H. pose proof HI as [HS HT].
  destruct (GameServer.onMatch_inv c a s HS) as [(q & sq & Hso & Hl & Heq)|[_ Heq]]; rewrite Heq in H.
  2: { inv H. left. apply handled_refl. }
  apply GameServer.sessionOf_inv in Hso as (Hq & Hc & _); [|done].
  pose proof (GameServer.LInv_queued q sq c a s HI Hq Hc Hl) as HI1.
  set (sd := GameServer.queued q (TimerWheel.t_next a) sq s) in *.
  assert (forall p x, sessions_ sd !! p = Some x ->
            exists y, sessions_ s !! p = Some y /\ roomId y = roomId x /\ s_conn y = s_conn x) as Hback.
  { intros p x Hx. cbn in Hx. apply lookup_insert_Some in Hx as [[<- <-]|[_ Hx]]; eauto. }
  assert (forall p y, sessions_ s !! p = Some y ->
            exists x, sessions_ sd !! p = Some x /\ roomId x = roomId y) as Hfw.
  { intros p y Hy. cbn. destruct (decide (p = q)) as [->|].
    - rewrite lookup_insert_eq. rewrite Hq in Hy. inv Hy. by eexists.
    - rewrite lookup_insert_ne by done. eauto. }
  destruct (GameServer.tryMatch_inv _ _ HI1) as [(q' & _ & _ & _ & Heq')|
    (p1 & p2 & s1 & s2 & c1 & c2 & t1 & t2 & q' & l & pool & Hne & Hs1 & Hs2 & Hm1 & Hm2 & Hc1 & Hc2 & _ & _ & _ & _ & _ & Heq')];
    rewrite Heq' in H; apply pair_equal_spec in H as [_ H]; apply Ok_inj, pair_equal_spec in H as [<- <-].
  - left. apply handled_quiet; try done.
    + intros p x Hx _. by apply Hback.
    + intros p y Hy _. by apply Hfw.
  - right. exists l, p1, c1, p2, c2. split; [|done].
    assert (forall p x, sessions_ sd !! p = Some x -> GameServer.state x = GameServer.kMatching -> roomId x = 0) as Hzero.
    { intros p x Hx Hm. destruct (GameServer.I_room sd (proj1 HI1) _ _ Hx) as [[? _]|[_ ?]]; [congruence|done]. }
    destruct (GameServer.paired_new p1 p2 q' l pool sd s1 s2 Hne Hs1 Hs2) as (x1 & x2 & Hx1 & Hx2 & _ & _ & _ & _ & Hr1 & Hr2).
    split; try done.
    + intros p x [(_ & _ & Hx)|(Hp & y & Hy & Hcy & _ & _ & _ & Hr)]%GameServer.paired_sessions _; [right; by apply Hback|left].
      split; [done|]. destruct Hp as [->| ->]; [left; rewrite Hs1 in Hy|right; rewrite Hs2 in Hy]; injection Hy as <-;
        by rewrite Hcy.
    + intros p y Hy Hr. destruct (Hfw p y Hy) as (x & Hx & Hrx).
      destruct (GameServer.paired_lookup p1 p2 q' l pool sd p x Hx) as (z & Hz & _ & _ & Hsame). exists z. split; [done|].
      rewrite <- Hrx, Hsame; [done| |]; intros ->; rewrite Hx in *; simplify_eq; rewrite (Hzero _ _ Hx) in Hrx by done;
        congruence.
    + split; [by exists x1|by exists x2].
Qed.

Lemma input_handled c i a s a' s' e :
  GameServer.Sess s -> GameServer.sstep (GameServer.EvInput c i) a s a' s' e -> handled s s' e.
Proof.
  intros HS H. cbn [GameServer.sstep] in H.
  unfold GameServer.onInput in H. destruct (GameServer.sessionOf c s) as [[q sq]|] eqn:Es.
  2: { cbn in H. inv H. apply handled_refl. }
  apply GameServer.sessionOf_inv in Es as (Hq & _ & _ & Hid); [|done].
  destruct (bool_decide_reflect (GameServer.state sq = kInRoom)) as [Hst|]; cbn in H; [|inv H; apply handled_refl].
  destruct (rooms_ s !! roomId sq) as [l|] eqn:El; cbn in H; inv H; [|apply handled_refl].
  replace [PostRoom l (roomId sq) _] with ([] ++ to_room s' sq (Room.AInput (GameServer.playerId sq) i) ++ [])
    by (unfold to_room; by rewrite decide_True, El).
  eapply (handled_replace s' s' _ sq sq); try done. by rewrite insert_id.
Qed.

Lemma heartbeat_handled c ms now a s a' s' e :
  GameServer.Sess s -> GameServer.sstep (GameServer.EvHeartbeat c ms now) a s a' s' e -> handled s s' e.
Proof.
  intros HS H. cbn [GameServer.sstep] in H.
  simpl in H. inv H. destruct (GameServer.sessionOf c s) as [[q sq]|] eqn:Es.
  2: { apply handled_quiet; try done; [by repeat constructor|eauto|]. intros p x ? ?. by exists x. }
  apply GameServer.sessionOf_inv in Es as (Hq & _); [|done]. apply handled_quiet; try done.
  - by repeat constructor.
  - intros p x Hx Hr. cbn in Hx. apply lookup_insert_Some in Hx as [[<- <-]|[_ Hx]]; eauto.
  - intros p x Hx Hr. unfold in_room. cbn. destruct (decide (p = q)) as [->|].
    + rewrite lookup_insert_eq. rewrite Hq in Hx. inv Hx. by eexists.
    + rewrite lookup_insert_ne by done. eauto.
Qed.

Lemma disconnect_handled c a s a' s' e :
  GameServer.Sess s -> GameServer.sstep (GameServer.EvDisconnect c) a s a' s' e -> handled s s' e.
Proof.
  intros HS H. cbn [GameServer.sstep] in H.
  destruct (GameServer.onDisconnect_inv (GameServer.connName c) a s HS) as [(q & sq & _ & Hq & Heq)|[_ Heq]];
    [|rewrite Heq in H; inv H; apply handled_refl].
  destruct (GameServer.parted _ _ _ _) as [ss' qu] eqn:Ep. rewrite Heq in H.
  apply pair_equal_spec in H as [_ H]; apply pair_equal_spec in H as [<- <-].
  assert (roomId ss' = roomId sq /\ s_conn ss' = None) as [Hr Hn].
  { unfold GameServer.parted in Ep. destruct (decide (GameServer.state sq = GameServer.kMatching)); by inv Ep. }
  eapply (handled_replace s _ q sq ss' (Room.ADrop q) []); try done; simpl.
  - by apply silent_enqueue.
  - by rewrite decide_True.
  - intros p oc Hp. by rewrite decide_False.
Qed.

(** Every event of a client and of the clock. *)
Lemma sstep_handled ev a s a' s' e :
  LInv a s -> GameServer.sstep ev a s a' s' e -> (forall rid w, ev <> GameServer.EvRoomEnd rid w) ->
  handled s s' e \/
  exists l p1 c1 p2 c2, created s s' l p1 c1 p2 c2 /\
    e = [NewRoom (nextRoomId_ s) l [(p1, Some c1); (p2, Some c2)]; PostRoom l (nextRoomId_ s) Room.AStart].
Proof.
  intros HI H Hev. pose proof HI as [HS HT].
  destruct ev as [c acc now r1 r2|c q tok now|c|c i|c ms now|c|r wn|now]; cbn [GameServer.sstep] in H;
    [| |by eapply match_handled|..|by edestruct Hev|]; left.
  - cbn [GameServer.onLogin TimerWheel.spec_interp] in H. inv H. apply handled_quiet; try done.
    + constructor; [done|by apply silent_enqueue].
    + intros p x Hx Hr. cbn [sessions_] in Hx. apply lookup_insert_Some in Hx as [[<- <-]|[_ Hx]]; [done|eauto].
    + intros p x Hx Hr. exists x. split; [|done]. cbn [sessions_]. rewrite lookup_insert_ne; [done|].
      destruct (GameServer.I_key s HS _ _ Hx). lia.
  - destruct (GameServer.onReconnect_inv c q tok now a s HI) as [(sq & Hq & _ & Hnull & Heq)|[_ Heq]]; cbn zeta in Heq;
      rewrite Heq in H; apply pair_equal_spec in H as [_ H]; apply pair_equal_spec in H as [<- <-].
    + eapply (handled_replace s _ q sq _ (Room.ARebind q c) [_]); try done; simpl.
      * by repeat constructor.
      * by apply silent_enqueue.
      * by rewrite decide_True.
      * intros p oc Hp. by rewrite decide_False.
    + apply handled_quiet; try done; [by repeat constructor|eauto|]. intros p x ? ?. by exists x.
  - by eapply input_handled.
  - by eapply heartbeat_handled.
  - by eapply disconnect_handled.
  - destruct H as (l & _ & _ & H). simpl in H. symmetry in H.
    destruct (fire_handled _ _ _ _ _ _ _ _ (GameServer.LInv_later a s HI) H) as (e' & -> & Hh). done.
Qed.

End Handlers.

(** ** What an action does to a room *)

(** The tasks of one room in a queue, in order. *)
Definition acts (rid : Z) (q : list (Z * Room.action)) : list Room.action :=
  omap (fun x => if decide (x.1 = rid) then Some x.2 else None) q.

Lemma acts_app rid q1 q2 : acts rid (q1 ++ q2) = acts rid q1 ++ acts rid q2.
Proof. apply omap_app. Qed.

Lemma elem_of_acts rid a q : a ∈ acts rid q <-> (rid, a) ∈ q.
Proof.
  unfold acts. rewrite list_elem_of_omap. split.
  - intros ([r b] & Hx & H). simpl in H. destruct (decide (r = rid)) as [->|]; [|done]. by inv H.
  - intros H. exists (rid, a). simpl. by rewrite decide_True.
Qed.

Section RoomSteps.
Context {HO : HashOrder} {LM : Libm}.

Lemma exec_conns a r r1 e pid :
  Room.exec a r = (r1, e) -> Room.conns_ r1 !! pid = rebound pid [a] <$> Room.conns_ r !! pid.
Proof.
  intros He. destruct a as [|p i|p c|p|w| | |]; simpl in He;
    unfold Room.start, Room.stop, Room.onInput, Room.rebind, Room.dropConn, Room.forceEnd, Room.endBattle, Room.onTick in He.
  3: { destruct (Room.conns_ r !! p) as [oc|] eqn:E; inv He; cbn [Room.conns_ Room.set_conns];
       destruct (decide (p = pid)) as [->|]; rewrite ?lookup_insert_eq, ?lookup_insert_ne by done; rewrite ?E;
       try (cbn; by rewrite decide_True);
       by destruct (Room.conns_ _ !! pid); cbn; rewrite ?decide_False. }
  3: { destruct (Room.conns_ r !! p) as [oc|] eqn:E; inv He; cbn [Room.conns_ Room.set_conns];
       destruct (decide (p = pid)) as [->|]; rewrite ?lookup_insert_eq, ?lookup_insert_ne by done; rewrite ?E;
       try (cbn; by rewrite decide_True);
       by destruct (Room.conns_ _ !! pid); cbn; rewrite ?decide_False. }
  all: assert (Room.conns_ r1 = Room.conns_ r) as ->;
    [repeat (dmatch_in He; unfold Room.endBattle in * ); simplify_eq; reflexivity|].
  all: by destruct (Room.conns_ r !! pid).
Qed.

(** What is left of the effects of an action for the queues. *)
Definition no_end (e : list Room.effect) : Prop :=
  omap on_end e = [] /\ forall l rid q, foldl (post_reset l rid) q e = q.

Definition one_end (rid w : Z) (e : list Room.effect) : Prop :=
  omap on_end e = [TEnd rid w] /\ forall l rid q, foldl (post_reset l rid) q e = push l (rid, Room.ATickerReset) q.

Lemma no_end_quiet e : Forall (fun x => Room.ending x = false) e -> no_end e.
Proof.
  induction 1 as [|x e Hx _ [IH1 IH2]]; [done|]. by destruct x.
Qed.

Lemma one_end_announced e1 e2 rid w :
  Forall (fun x => Room.ending x = false) e1 -> Room.end_of_battle rid w e2 -> one_end rid w (e1 ++ e2).
Proof.
  intros [H1 H2]%no_end_quiet (b & -> & Hb).
  assert (omap on_end b = [] /\ forall l rid q, foldl (post_reset l rid) q b = q) as [Hb1 Hb2].
  { induction Hb as [|x b [c ->] _ [IH1 IH2]]; [done|]. split; [done|]. intros l r q. simpl. apply IH2. }
  split.
  - by rewrite !omap_app, H1, Hb1.
  - intros l r q. by rewrite !foldl_app, H2, Hb2.
Qed.

(** Whether the ticker exists after an action. *)
Definition ticking (a : Room.action) (b : bool) : bool :=
  match a with Room.AStart => true | Room.ATickerReset | Room.AStop => false | _ => b end.

Lemma exec_ticker a r r1 e : Room.exec a r = (r1, e) -> Room.ticker_ r1 = ticking a (Room.ticker_ r).
Proof.
  destruct a; simpl; unfold Room.onInput, Room.rebind, Room.dropConn, Room.forceEnd, Room.onTick, Room.endBattle;
    intros H; repeat (dmatch_in H); by inv H.
Qed.

Lemma exec_ended_same a r r1 e :
  Room.exec a r = (r1, e) ->
  match a with Room.ATick | Room.AForceEnd _ | Room.AStop => True | _ => Room.ended_ r1 = Room.ended_ r end.
Proof.
  destruct a; simpl; unfold Room.onInput, Room.rebind, Room.dropConn; intros H; try done; repeat (dmatch_in H); by inv H.
Qed.

Lemma exec_fate a r r1 e :
  Room.exec a r = (r1, e) -> a <> Room.AStop ->
  (Room.ended_ r1 = Room.ended_ r /\ no_end e /\ (forces_end a = true -> Room.ended_ r = true)) \/
  (Room.ended_ r = false /\ Room.ended_ r1 = true /\ (exists w, one_end (Room.id_ r) w e) /\
   (a = Room.ATick \/ forces_end a = true)).
Proof.
  intros He Ha. destruct (Room.ended_ r) eqn:Er.
  - destruct (Room.exec_ended _ _ _ _ He Er) as (Hq & -> & _). left. split_and!; [done| |done].
    apply no_end_quiet. eapply Forall_impl; [exact Hq|]. by intros x [].
  - destruct (Room.exec_running _ _ _ _ He Er) as [Hq|(e1 & e2 & w & -> & Hq & Hw & Hend)].
    + left. assert (forall w r', Room.endBattle w r = (r', e) -> False) as Hno.
      { intros w r' H. apply Room.endBattle_announces in H as [(b & -> & _) _]. apply Forall_app in Hq as [_ Hq].
        by inv Hq. }
      destruct a; simpl in He; unfold Room.onInput, Room.rebind, Room.dropConn, Room.forceEnd in He; rewrite ?Er in He;
        try done; try (by repeat (dmatch_in He); inv He; (split_and!; [done|by apply no_end_quiet|done])).
      * by apply Hno in He.
      * split_and!; [|by apply no_end_quiet|done]. destruct (Room.ticker_ r); [|by inv He].
        unfold Room.onTick in He. rewrite Er in He. repeat (dmatch_in He); try (by inv He).
        apply pair_equal_spec in He as [<- <-]. apply Forall_app in Hq as [_ Hq].
        match goal with H : Room.endBattle _ _ = _ |- _ => apply Room.endBattle_announces in H as [(b & -> & _) _] end.
        apply Forall_app in Hq as [_ Hq]. by inv Hq.
    + right. split_and!; [done|done|exists w; by apply one_end_announced|]. pose proof (exec_ended_same _ _ _ _ He) as Hs.
      destruct a; try tauto; simpl in Hs; congruence.
Qed.

End RoomSteps.

(** ** The invariant *)

(** The phases of a room: it waits for its [start], the first task of its
    queue; it runs, with its ticker; it has ended, and its ticker is gone or the
    destruction of the ticker is in the queue. *)
Definition phase (r : Room.t) (as' : list Room.action) : Prop :=
  (exists rest, as' = Room.AStart :: rest /\ Forall lobby_action rest /\
     Room.ended_ r = false /\ Room.ticker_ r = false) \/
  (Forall lobby_action as' /\ Room.ended_ r = false /\ Room.ticker_ r = true) \/
  (Forall (fun a => lobby_action a \/ a = Room.ATickerReset) as' /\ Room.ended_ r = true /\
     (Room.ticker_ r = false \/ Room.ATickerReset ∈ as')).

(** The rooms whose end the lobby has still to handle. *)
Definition ended_ids (q : list ltask) : list Z :=
  omap (fun x => match x with TEnd rid _ => Some rid | TFinish => None end) q.

(** One room, with the tasks in its queue. *)
Record Rinv (g : GameServer.t) (rid : Z) (l : loop) (r : Room.t) (as' : list Room.action) : Prop := mkRinv {
  R_id : 1 <= rid < nextRoomId_ g /\ Room.id_ r = rid;
  R_known : Room.ended_ r = false -> rooms_ g !! rid = Some l;
  R_phase : phase r as';
  R_stay : Room.ended_ r = false -> forall pid, is_Some (Room.conns_ r !! pid) ->
    in_room rid pid g \/ Exists (fun a => forces_end a = true) as';
}.

Record SInv (s : t) : Prop := mkSInv {
  S_lobby : GameServer.Lobby (lob s);
  S_open : remain s = None /\ gone s = false /\ TFinish ∉ lq s;
  S_known : forall rid l, rooms_ (snd (lob s)) !! rid = Some l -> exists r, rooms s !! rid = Some (l, r);
  S_room : forall rid l r, rooms s !! rid = Some (l, r) -> Rinv (snd (lob s)) rid l r (acts rid (queue_of l (tasks s)));
  S_task : forall l rid a, (rid, a) ∈ queue_of l (tasks s) -> exists r, rooms s !! rid = Some (l, r);
  S_nodup : NoDup (ended_ids (lq s));
  S_end : forall rid, rid ∈ ended_ids (lq s) <->
    is_Some (rooms_ (snd (lob s)) !! rid) /\ exists l r, rooms s !! rid = Some (l, r) /\ Room.ended_ r = true;
  S_bind : forall pid ss, sessions_ (snd (lob s)) !! pid = Some ss -> roomId ss <> 0 ->
    exists l r oc, rooms s !! roomId ss = Some (l, r) /\ Room.conns_ r !! pid = Some oc /\
      rebound pid (acts (roomId ss) (queue_of l (tasks s))) oc = s_conn ss;
}.

(** *** Queues *)

Lemma queue_push l l' x q : queue_of l' (push l x q) = if decide (l' = l) then queue_of l q ++ [x] else queue_of l' q.
Proof.
  unfold push, queue_of. destruct (decide (l' = l)) as [->|]; [by rewrite lookup_insert_eq|by rewrite lookup_insert_ne].
Qed.

Lemma queue_insert l l' q0 q : queue_of l' (<[l := q0]> q) = if decide (l' = l) then q0 else queue_of l' q.
Proof.
  unfold queue_of. destruct (decide (l' = l)) as [->|]; [by rewrite lookup_insert_eq|by rewrite lookup_insert_ne].
Qed.

Lemma elem_of_posted l rid a e q :
  (rid, a) ∈ queue_of l (foldl post q e) -> (rid, a) ∈ queue_of l q \/ PostRoom l rid a ∈ e.
Proof.
  revert q. induction e as [|x e IH]; intros q; [by left|]. simpl. intros [H|H]%IH; [|right; by right].
  destruct x as [| | |l' rid' a'|]; simpl in H; try (by left). rewrite queue_push in H.
  destruct (decide (l = l')) as [->|]; [|by left]. apply elem_of_app in H as [H|H]; [by left|].
  apply list_elem_of_singleton in H. inv H. right. left.
Qed.

(** The tasks of a room after a handler that posts to it on its loop. *)
Lemma acts_posted l rid e q :
  (forall l' a, PostRoom l' rid a ∈ e -> l' = l) ->
  acts rid (queue_of l (foldl post q e)) = acts rid (queue_of l q) ++ posts rid e.
Proof.
  revert q. induction e as [|x e IH]; intros q Hl; [by rewrite app_nil_r|]. simpl.
  rewrite IH by (intros l' a H; eapply Hl; by right).
  destruct x as [| | |l' rid' a'|]; try done. simpl post. rewrite queue_push. unfold posts at 2. simpl.
  destruct (decide (rid' = rid)) as [->|Hr].
  - assert (l' = l) as -> by (eapply Hl; left). rewrite decide_True, acts_app by done. unfold acts at 2. simpl.
    rewrite decide_True by done. by rewrite <- app_assoc.
  - destruct (decide (l = l')) as [->|]; [|done]. rewrite acts_app. unfold acts at 2. simpl.
    rewrite decide_False by done. by rewrite app_nil_r.
Qed.

Lemma acts_push l l' rid rid' a q :
  acts rid (queue_of l (push l' (rid', a) q)) =
  acts rid (queue_of l q) ++ (if decide (l = l' /\ rid = rid') then [a] else []).
Proof.
  rewrite queue_push. destruct (decide (l = l')) as [->|]; [|by rewrite decide_False, app_nil_r by tauto].
  rewrite acts_app. f_equal. unfold acts. simpl. destruct (decide (rid' = rid)) as [->|].
  - by rewrite decide_True.
  - by rewrite decide_False by naive_solver.
Qed.

(** *** Phases *)

Lemma phase_app r as1 as2 : phase r as1 -> Forall lobby_action as2 -> phase r (as1 ++ as2).
Proof.
  intros [(rest & -> & Hf & He & Ht)|[(Hf & He & Ht)|(Hf & He & Ht)]] H2.
  - left. exists (rest ++ as2). split_and!; [done|by apply Forall_app|done|done].
  - right. left. split_and!; [by apply Forall_app|done|done].
  - right. right. split_and!; [|done|rewrite elem_of_app; tauto]. apply Forall_app. split; [done|].
    eapply Forall_impl; [exact H2|]. tauto.
Qed.

Lemma phase_no_stop r as' : phase r as' -> Room.AStop ∉ as'.
Proof.
  intros H Hin. assert (Forall (fun a => a <> Room.AStop) as') as Hf.
  { destruct H as [(rest & -> & Hf & _)|[(Hf & _)|(Hf & _)]].
    - constructor; [done|]. eapply Forall_impl; [exact Hf|]. by intros [].
    - eapply Forall_impl; [exact Hf|]. by intros [].
    - eapply Forall_impl; [exact Hf|]. by intros [] []. }
  rewrite Forall_forall in Hf. by apply Hf in Hin.
Qed.

(** *** Lobby steps *)

Lemma no_new_rooms e m : Forall (fun x => GameServer.starts_room x = false) e -> foldl add_room m e = m.
Proof. induction 1 as [|x e Hx _ IH]; [done|]. by destruct x. Qed.

Lemma posts_lobby_action s s' e rid : handled s s' e -> Forall lobby_action (posts rid e).
Proof.
  intros HH. apply Forall_forall. intros a (x & Hx & Ha)%list_elem_of_omap. destruct x as [| | |l r b|]; try done.
  destruct (decide (r = rid)); [|done]. injection Ha as <-. exact (proj2 (H_posts _ _ _ HH _ _ _ Hx)).
Qed.

Lemma SInv_handled s l' e :
  SInv s -> GameServer.Lobby l' -> handled (snd (lob s)) (snd l') e ->
  SInv (deliver e (mk l' (rooms s) (tasks s) (lq s) (remain s) (gone s))).
Proof.
  intros HI HL HH. unfold deliver. simpl. rewrite no_new_rooms by apply HH.
  assert (forall rid l r, rooms s !! rid = Some (l, r) ->
            acts rid (queue_of l (foldl post (tasks s) e)) = acts rid (queue_of l (tasks s)) ++ posts rid e) as Hacts.
  { intros rid l r Hr. apply acts_posted. intros l1 a (Hl1 & _)%(H_posts _ _ _ HH).
    destruct (S_known s HI _ _ Hl1) as [r1 Hr1]. congruence. }
  split; simpl; try (apply HI); try done.
  - intros rid l Hl. rewrite (H_rooms _ _ _ HH) in Hl. by apply (S_known s HI).
  - intros rid l r Hr. rewrite (Hacts _ _ _ Hr). pose proof (S_room s HI _ _ _ Hr) as [Rid Rk Rp Rs]. split.
    + by rewrite (H_next _ _ _ HH).
    + by rewrite (H_rooms _ _ _ HH).
    + apply phase_app; [done|]. by eapply posts_lobby_action.
    + intros He pid Hpid. rewrite Exists_app. destruct (Rs He pid Hpid) as [(ss & Hss & Hrs)|]; [|tauto].
      destruct (H_leave _ _ _ HH _ _ Hss) as [|]; rewrite Hrs in *; [lia|tauto|tauto].
  - intros l rid a [Hin|Hin]%elem_of_posted; [by eapply (S_task s HI)|].
    apply (H_posts _ _ _ HH) in Hin as [Hl _]. by apply (S_known s HI).
  - intros rid. rewrite (H_rooms _ _ _ HH). apply (S_end s HI).
  - intros pid ss' Hp Hr. destruct (H_bind _ _ _ HH _ _ Hp Hr) as (ss & Hss & Hrs & Hb). rewrite <- Hrs in Hr |- *.
    destruct (S_bind s HI _ _ Hss Hr) as (l & r & oc & Hro & Hoc & Hre). exists l, r, oc. split_and!; [done|done|].
    by rewrite (Hacts _ _ _ Hro), rebound_app, Hre.
Qed.

(** The room of two new players. *)
Lemma make_two rid p1 c1 p2 c2 :
  p1 <> p2 ->
  let r := Room.make rid [(p1, Some c1); (p2, Some c2)] in
  Room.conns_ r !! p1 = Some (Some c1) /\ Room.conns_ r !! p2 = Some (Some c2) /\
  (forall p, is_Some (Room.conns_ r !! p) -> p = p1 \/ p = p2) /\
  Room.id_ r = rid /\ Room.ended_ r = false /\ Room.ticker_ r = false.
Proof.
  intros Hne r. cbn. split_and!; try done.
  - by rewrite lookup_insert_ne, lookup_insert_eq.
  - by rewrite lookup_insert_eq.
  - intros p [x Hx]. apply lookup_insert_Some in Hx as [[? _]|[_ Hx]]; [by right|].
    apply lookup_insert_Some in Hx as [[? _]|[_ Hx]]; [by left|]. by rewrite lookup_empty in Hx.
Qed.

(** A room that is created has an id of its own, and its start is its only task. *)
Lemma new_room_acts s l :
  SInv s -> let rid := nextRoomId_ (snd (lob s)) in
  (forall rid' l0 r, rooms s !! rid' = Some (l0, r) -> 1 <= rid' < rid) /\
  acts rid (queue_of l (push l (rid, Room.AStart) (tasks s))) = [Room.AStart] /\
  (forall rid' l0 r, rooms s !! rid' = Some (l0, r) ->
     acts rid' (queue_of l0 (push l (rid, Room.AStart) (tasks s))) = acts rid' (queue_of l0 (tasks s))).
Proof.
  intros HI rid. assert (forall rid' l0 r, rooms s !! rid' = Some (l0, r) -> 1 <= rid' < rid) as Hfresh.
  { intros rid' l0 r Hr. apply (S_room s HI _ _ _ Hr). }
  split_and!; [done| |].
  - rewrite acts_push, decide_True by done. destruct (acts rid (queue_of l (tasks s))) as [|a q] eqn:E; [done|].
    assert (a ∈ acts rid (queue_of l (tasks s))) as Hin by (rewrite E; left).
    apply elem_of_acts, (S_task s HI) in Hin as [r Hr]. apply Hfresh in Hr. lia.
  - intros rid' l0 r Hr. apply Hfresh in Hr. rewrite acts_push, decide_False by lia. apply app_nil_r.
Qed.

Lemma SInv_created s l' l p1 c1 p2 c2 :
  SInv s -> GameServer.Lobby l' -> created (snd (lob s)) (snd l') l p1 c1 p2 c2 ->
  let rid := nextRoomId_ (snd (lob s)) in
  SInv (deliver [NewRoom rid l [(p1, Some c1); (p2, Some c2)]; PostRoom l rid Room.AStart]
          (mk l' (rooms s) (tasks s) (lq s) (remain s) (gone s))).
Proof.
  intros HI HL [HR HN Hne HB HV [Hin1 Hin2]] rid. unfold deliver. cbn [foldl add_room post rooms tasks lq remain gone lob].
  destruct (make_two rid p1 c1 p2 c2 Hne) as (Hm1 & Hm2 & Hm & Hid & Hend & Htick).
  set (r0 := Room.make rid _) in *.
  destruct (new_room_acts s l HI) as (Hfresh & Hnew & Hold). fold rid in Hfresh, Hnew, Hold.
  split; simpl; try (apply HI); try done.
  - intros rid' l0. rewrite HR. intros [[<- <-]|[Hn Hl]]%lookup_insert_Some.
    + exists r0. by rewrite lookup_insert_eq.
    + destruct (S_known s HI _ _ Hl) as [r Hr]. exists r. by rewrite lookup_insert_ne.
  - intros rid' l0 r [[<- [= <- <-]]|[Hn Hr]]%lookup_insert_Some.
    + rewrite Hnew. pose proof (proj1 (GameServer.I_rid _ (proj1 (GameServer.L_inv _ (S_lobby s HI))))). split.
      * rewrite HN. lia.
      * intros _. by rewrite HR, lookup_insert_eq.
      * left. by exists [].
      * intros _ p [->| ->]%Hm; by left.
    + rewrite (Hold _ _ _ Hr). pose proof (S_room s HI _ _ _ Hr) as [Rid Rk Rp Rs]. split.
      * rewrite HN. lia.
      * intros He. rewrite HR, lookup_insert_ne by done. auto.
      * done.
      * intros He pid Hpid. destruct (Rs He pid Hpid) as [(ss & Hss & Hrs)|]; [left|tauto].
        rewrite <- Hrs. apply (HV _ _ Hss). lia.
  - intros l0 rid' a Hin. assert ((rid', a) ∈ queue_of l0 (tasks s) \/ l0 = l /\ rid' = rid) as [Hin'|[-> ->]].
    { rewrite queue_push in Hin. destruct (decide (l0 = l)) as [->|]; [|by left].
      apply elem_of_app in Hin as [?|Hin]; [by left|]. apply list_elem_of_singleton in Hin. inv Hin. by right. }
    + destruct (S_task s HI _ _ _ Hin') as [r Hr]. exists r. rewrite lookup_insert_ne; [done|]. apply Hfresh in Hr. lia.
    + exists r0. by rewrite lookup_insert_eq.
  - intros rid'. rewrite (S_end s HI), HR. split.
    + intros [[l0 Hl0] (l1 & r1 & Hr1 & He1)]. pose proof (Hfresh _ _ _ Hr1).
      rewrite !lookup_insert_ne by lia. split; [by exists l0|by exists l1, r1].
    + intros [[l0 Hl0] (l1 & r1 & [[<- [= <- <-]]|[Hn Hr1]]%lookup_insert_Some & He1)]; [congruence|].
      rewrite lookup_insert_ne in Hl0 by done. split; [by exists l0|by exists l1, r1].
  - intros pid ss' Hp Hr. destruct (HB _ _ Hp Hr) as [(Hrid & Hc)|(ss & Hss & Hrs & Hc)].
    + change (roomId ss' = rid) in Hrid. rewrite Hrid.
      destruct Hc as [[-> Hc]|[-> Hc]]; rewrite Hc; eexists l, r0, _; rewrite lookup_insert_eq, Hnew;
        (split_and!; [done|eassumption|done]).
    + rewrite <- Hrs in Hr |- *. destruct (S_bind s HI _ _ Hss Hr) as (l0 & r & oc & Hro & Hoc & Hre).
      exists l0, r, oc. pose proof (Hfresh _ _ _ Hro). rewrite lookup_insert_ne by lia.
      split_and!; [done|done|]. by rewrite (Hold _ _ _ Hro), Hre.
Qed.

Lemma onRoomEnd_jobs {HO : HashOrder} rid w a g a' g' e :
  TimerWheel.spec_interp (GameServer.onRoomEnd rid w g) a = (a', (g', e)) ->
  Forall (fun x => exists j, x = GameServer.Enqueue j) e /\ (length e <= 1)%nat.
Proof.
  unfold GameServer.onRoomEnd. destruct (foldl _ _ _) as [[wa la] m]. cbn [TimerWheel.spec_interp]. intros H. inv H.
  unfold GameServer.enqueue_if. repeat dmatch; simpl; split; try lia; eauto.
Qed.

Lemma jobs_only e m q :
  Forall (fun x => exists j, x = GameServer.Enqueue j) e -> foldl add_room m e = m /\ foldl post q e = q.
Proof. induction 1 as [|x e [j ->] _ IH]; done. Qed.

(** The lobby handles the end of a room. *)
Lemma SInv_end s rid w rest l' e a' {HO : HashOrder} :
  SInv s -> lq s = TEnd rid w :: rest -> GameServer.Lobby l' ->
  TimerWheel.spec_interp (GameServer.onRoomEnd rid w (snd (lob s))) (TimerWheel.abs (fst (lob s))) = (a', (snd l', e)) ->
  SInv (deliver e (mk l' (rooms s) (tasks s) rest (remain s) (gone s))).
Proof.
  intros HI Hq HL H. destruct (onRoomEnd_jobs _ _ _ _ _ _ _ H) as [Hjobs Hlen].
 apply GameServer.onRoomEnd_sessions in H as [_ Hs]. unfold deliver. cbn [rooms tasks lq remain gone lob].
  destruct (jobs_only e (rooms s) (tasks s) Hjobs) as [-> ->].
  pose proof (S_nodup s HI) as Hnd. pose proof (S_end s HI) as Hend. rewrite Hq in Hnd, Hend. simpl in Hnd, Hend.
  apply NoDup_cons in Hnd as [Hnin Hnd].
  destruct (proj1 (Hend rid)) as [_ (l0 & r0 & Hr0 & He0)]; [left|].
  assert (rid <> 0) as Hrid by (pose proof (R_id _ _ _ _ _ (S_room s HI _ _ _ Hr0)); lia).
  split; cbn [rooms tasks lq remain gone lob]; rewrite ?Hs; cbn [rooms_ nextRoomId_ sessions_ GameServer.set_sessions GameServer.set_rooms];
    try (apply HI); try done.
  - destruct (S_open s HI) as (? & ? & Hf). rewrite Hq in Hf. split_and!; [done|done|]. intros Hin. apply Hf. by right.
  - intros rid' l1 [_ Hl]%lookup_delete_Some. by apply (S_known s HI).
  - intros rid' l1 r Hr. pose proof (S_room s HI _ _ _ Hr) as [Rid Rk Rp Rs]. split; try done.
    + intros Hne. cbn [rooms_ GameServer.set_sessions GameServer.set_rooms]. rewrite lookup_delete_ne; [auto|]. intros <-. congruence.
    + intros Hne pid Hpid. destruct (Rs Hne pid Hpid) as [(ss & Hss & Hrs)|]; [left|tauto].
      exists ss. cbn. rewrite lookup_fmap, Hss. split; [|done]. simpl. f_equal. unfold GameServer.left_room.
      destruct (Z.eqb_spec (roomId ss) rid) as [Heq|]; [|done]. congruence.
  - intros rid'. rewrite lookup_delete_is_Some. split.
    + intros Hin. destruct (proj1 (Hend rid')) as [? ?]; [by right|]. split_and!; try done. congruence.
    + intros [[Hn ?] ?]. assert (rid' ∈ rid :: ended_ids rest) as [->|?]%elem_of_cons by (by apply Hend); done.
  - intros pid ss Hp Hr. rewrite lookup_fmap in Hp. destruct (sessions_ (snd (lob s)) !! pid) as [y|] eqn:Ey; [|done].
    injection Hp as <-. unfold GameServer.left_room in Hr |- *. destruct (Z.eqb_spec (roomId y) rid) as [|Hn]; [done|].
    by apply (S_bind s HI).
Qed.

(** *** Room steps *)

(** [a] is a tick, or the first task of the room's queue. *)
Definition takes (a : Room.action) (as0 as1 : list Room.action) : Prop :=
  (a = Room.ATick /\ as1 = as0) \/ as0 = a :: as1.

Lemma takes_no_stop a as0 as1 r : takes a as0 as1 -> phase r as0 -> a <> Room.AStop.
Proof. intros [[-> _]| ->] Hp; [done|]. intros ->. apply phase_no_stop in Hp. apply Hp. left. Qed.

Section RoomInvariant.
Context {HO : HashOrder} {LM : Libm}.

Lemma phase_same a r r1 e as0 as1 :
  phase r as0 -> takes a as0 as1 -> Room.exec a r = (r1, e) -> Room.ended_ r1 = Room.ended_ r -> phase r1 as1.
Proof.
  intros Hp Ht He Hs. pose proof (exec_ticker _ _ _ _ He) as Hk. unfold phase. rewrite Hs, Hk.
  destruct Hp as [(rest & -> & Hf & Hend & Htk)|[(Hf & Hend & Htk)|(Hf & Hend & Htk)]].
  - destruct Ht as [[-> ->]|[= <- ->]]; [left; by exists rest|right; by left].
  - right. left. destruct Ht as [[-> ->]| ->]; [done|]. apply Forall_cons in Hf as [Ha Hf]. by destruct a.
  - right. right. destruct Ht as [[-> ->]| ->]; [done|]. apply Forall_cons in Hf as [Ha Hf]. split_and!; [done|done|].
    destruct Ha as [Ha| ->]; [|by left]. destruct Htk as [Htk|[<-|?]%elem_of_cons]; [|done|by right].
    left. by destruct a.
Qed.

Lemma phase_ends a r r1 e as0 as1 :
  phase r as0 -> takes a as0 as1 -> Room.exec a r = (r1, e) -> Room.ended_ r = false -> Room.ended_ r1 = true ->
  phase r1 (as1 ++ [Room.ATickerReset]).
Proof.
  intros Hp Ht He H0 H1. right. right. split_and!; [|done|right; apply elem_of_app; right; left].
  assert (Forall lobby_action as1) as Hf.
  { destruct Hp as [(rest & -> & Hf & Hend & Htk)|[(Hf & Hend & Htk)|(_ & Hend & _)]]; [| |congruence].
    - destruct Ht as [[-> ->]|[= <- ->]]; [|done]. simpl in He. rewrite Htk in He. inv He. congruence.
    - destruct Ht as [[-> ->]| ->]; [done|]. by apply Forall_cons in Hf as [_ Hf]. }
  apply Forall_app. split; [eapply Forall_impl; [exact Hf|]; tauto|]. constructor; [by right|done].
Qed.

Lemma stay_taken a as0 as1 :
  takes a as0 as1 -> Exists (fun a => forces_end a = true) as0 ->
  forces_end a = true \/ Exists (fun a => forces_end a = true) as1.
Proof. intros [[-> ->]| ->]; [by right|]. rewrite Exists_cons. tauto. Qed.

(** The queues after an action of room [rid]: nothing changes for other rooms,
    and the room itself gets at most its ticker's destruction. *)
Lemma queues_after rid l r a q q' r1 e :
  Room.exec a r = (r1, e) -> a <> Room.AStop -> phase r (acts rid (queue_of l q)) ->
  takes a (acts rid (queue_of l q)) (acts rid (queue_of l q')) ->
  (forall rid' l', rid' <> rid -> acts rid' (queue_of l' q') = acts rid' (queue_of l' q)) ->
  (forall l' x, x ∈ queue_of l' q' -> x ∈ queue_of l' q) ->
  let q2 := foldl (post_reset l rid) q' e in
  (forall rid' l', rid' <> rid -> acts rid' (queue_of l' q2) = acts rid' (queue_of l' q)) /\
  (forall l' rid' b, (rid', b) ∈ queue_of l' q2 -> (rid', b) ∈ queue_of l' q \/ (rid' = rid /\ l' = l)) /\
  phase r1 (acts rid (queue_of l q2)) /\
  exists as2, acts rid (queue_of l q2) = acts rid (queue_of l q') ++ as2 /\ forall pid oc, rebound pid as2 oc = oc.
Proof.
  intros He Hns Hp Ht Hoth Hsub. cbn zeta.
  destruct (exec_fate _ _ _ _ He Hns) as [(Hs & [_ Hq] & _)|(H0 & H1 & (w & _ & Hq) & _)]; rewrite Hq; clear Hq.
  - split_and!; [done|auto|by eapply phase_same|]. exists []. by rewrite app_nil_r.
  - split_and!.
    + intros rid' l' Hn. rewrite acts_push, decide_False, app_nil_r by naive_solver. by apply Hoth.
    + intros l' rid' b. rewrite queue_push. destruct (decide (l' = l)) as [->|]; [|auto]. intros [|Hin]%elem_of_app; [auto|].
      apply list_elem_of_singleton in Hin. inv Hin. by right.
    + rewrite acts_push, decide_True by done. by eapply phase_ends.
    + exists [Room.ATickerReset]. by rewrite acts_push, decide_True.
Qed.

(** The reports of ends after an action of room [rid]. *)
Lemma ended_ids_after rid r a q r1 e :
  Room.exec a r = (r1, e) -> a <> Room.AStop -> Room.id_ r = rid -> NoDup (ended_ids q) ->
  (rid ∈ ended_ids q -> Room.ended_ r = true) -> TFinish ∉ q ->
  NoDup (ended_ids (q ++ omap on_end e)) /\ TFinish ∉ q ++ omap on_end e /\
  forall rid', rid' ∈ ended_ids (q ++ omap on_end e) <->
    rid' ∈ ended_ids q \/ (rid' = rid /\ Room.ended_ r = false /\ Room.ended_ r1 = true).
Proof.
  intros He Hns Hid Hnd Hin Hf. unfold ended_ids in *. rewrite not_elem_of_app, omap_app.
  destruct (exec_fate _ _ _ _ He Hns) as [(Hs & [-> _] & _)|(H0 & H1 & (w & -> & _) & _)].
  - simpl. rewrite app_nil_r. split_and!; [done|done|apply not_elem_of_nil|]. intros rid'. split; [tauto|].
    intros [|(_ & ? & ?)]; [tauto|congruence].
  - simpl. rewrite Hid. split_and!; [|done|by intros ?%list_elem_of_singleton|].
    + apply NoDup_app. split_and!; [done| |apply NoDup_singleton].
      intros x Hx ->%list_elem_of_singleton. apply Hin in Hx. congruence.
    + intros rid'. rewrite elem_of_app, list_elem_of_singleton. tauto.
Qed.

(** One action of room [rid], taken from the queue or the ticker. *)
Lemma SInv_room_step rid l r a q' r1 e s :
  SInv s -> rooms s !! rid = Some (l, r) -> Room.exec a r = (r1, e) ->
  takes a (acts rid (queue_of l (tasks s))) (acts rid (queue_of l q')) ->
  (forall rid' l', rid' <> rid -> acts rid' (queue_of l' q') = acts rid' (queue_of l' (tasks s))) ->
  (forall l' x, x ∈ queue_of l' q' -> x ∈ queue_of l' (tasks s)) ->
  SInv (deliver_room rid l r1 e (set_tasks q' s)).
Proof.
  intros HI Hr He Ht Hoth Hsub. pose proof (S_room s HI _ _ _ Hr) as [Rid Rk Rp Rs].
  pose proof (takes_no_stop _ _ _ _ Ht Rp) as Hns.
  destruct (queues_after _ _ _ _ _ _ _ _ He Hns Rp Ht Hoth Hsub) as (Hoth2 & Hsub2 & Hphase & as2 & Has & Hre).
  destruct (S_open s HI) as (Hrem & Hgone & Hfin).
  destruct (ended_ids_after rid _ _ (lq s) _ _ He Hns (proj2 Rid) (S_nodup s HI)) as (Hnd & Hfin2 & Hends); [|done|].
  { intros (_ & l0 & r0 & Hr0 & ?)%(S_end s HI). congruence. }
  assert (Room.ended_ r1 = false -> Room.ended_ r = false /\ forces_end a = false) as Hrun.
  { intros H1. destruct (exec_fate _ _ _ _ He Hns) as [(Hs & _ & Hfe)|(_ & H1' & _)]; [|congruence].
    split; [congruence|]. destruct (forces_end a); [|done]. specialize (Hfe eq_refl). congruence. }
  unfold deliver_room, set_tasks. split; cbn [rooms tasks lq remain gone lob]; try (apply HI); try done.
  - intros rid' l' Hl. destruct (S_known s HI _ _ Hl) as [r' Hr']. destruct (decide (rid' = rid)) as [->|].
    + rewrite lookup_insert_eq. rewrite Hr in Hr'. inv Hr'. eauto.
    + rewrite lookup_insert_ne by done. eauto.
  - intros rid' l' r' [[<- [= <- <-]]|[Hn Hr']]%lookup_insert_Some; [|rewrite Hoth2 by done; by apply (S_room s HI)].
    split; [by rewrite (Room.exec_id _ _ _ _ He)|by intros [? _]%Hrun; auto|done|].
    intros [H0 Hnf]%Hrun pid. rewrite (exec_conns _ _ _ _ pid He), fmap_is_Some. intros Hpid.
    destruct (Rs H0 pid Hpid) as [|Hx]; [by left|right]. rewrite Has. apply Exists_app. left.
    destruct (stay_taken _ _ _ Ht Hx); [congruence|done].
  - intros l' rid' b [Hin|[-> ->]]%Hsub2; [|exists r1; by rewrite lookup_insert_eq].
    destruct (S_task s HI _ _ _ Hin) as [r' Hr']. destruct (decide (rid' = rid)) as [->|].
    + rewrite Hr in Hr'. inv Hr'. exists r1. by rewrite lookup_insert_eq.
    + exists r'. by rewrite lookup_insert_ne.
  - intros rid'. rewrite Hends, (S_end s HI). destruct (decide (rid' = rid)) as [->|]; [|rewrite lookup_insert_ne by done; tauto].
    rewrite lookup_insert_eq. split.
    + intros [[Hl (l0 & r0 & Hr0 & He0)]|(_ & H0 & H1)].
      * split; [done|]. exists l, r1. split; [done|]. rewrite Hr in Hr0. inv Hr0.
        destruct (Room.ended_ r1) eqn:E1; [done|]. destruct (Hrun eq_refl). congruence.
      * split; [rewrite (Rk H0); by eexists|]. by exists l, r1.
    + intros [Hl (l0 & r0 & [= <- <-] & He0)].
      destruct (Room.ended_ r) eqn:E0; [left|right; done]. split; [done|]. by exists l, r.
  - intros pid ss Hp Hr0. destruct (S_bind s HI _ _ Hp Hr0) as (l0 & r0 & oc & Hro & Hoc & Hb).
    destruct (decide (roomId ss = rid)) as [Heq|Hn].
    + rewrite Heq in *. rewrite Hr in Hro. inv Hro. exists l0, r1, (rebound pid [a] oc). rewrite lookup_insert_eq.
      split_and!; [done|by rewrite (exec_conns _ _ _ _ pid He), Hoc|]. rewrite Has, rebound_app, Hre, <- Hb.
      destruct Ht as [[-> ->]| ->]; done.
    + exists l0, r0, oc. rewrite lookup_insert_ne, Hoth2 by done. done.
Qed.

(** The queues after a loop has taken its first task. *)
Lemma popped_queue l rid a rest q :
  queue_of l q = (rid, a) :: rest ->
  takes a (acts rid (queue_of l q)) (acts rid (queue_of l (<[l := rest]> q))) /\
  (forall rid' l', rid' <> rid -> acts rid' (queue_of l' (<[l := rest]> q)) = acts rid' (queue_of l' q)) /\
  (forall l' x, x ∈ queue_of l' (<[l := rest]> q) -> x ∈ queue_of l' q).
Proof.
  intros Eq. split_and!.
  - right. rewrite Eq, queue_insert, decide_True by done. unfold acts at 1. simpl. by rewrite decide_True.
  - intros rid' l' Hn. rewrite queue_insert. destruct (decide (l' = l)) as [->|]; [|done]. rewrite Eq.
    unfold acts at 2. simpl. by rewrite decide_False.
  - intros l' x. rewrite queue_insert. destruct (decide (l' = l)) as [->|]; [|done]. rewrite Eq. by right.
Qed.

Lemma SInv_run_task l s : SInv s -> SInv (run_task l s).1.
Proof.
  intros HI. unfold run_task. destruct (queue_of l (tasks s)) as [|[rid a] rest] eqn:Eq; [done|].
  destruct (S_task s HI l rid a) as [r Hr]; [rewrite Eq; left|]. unfold run_room. cbn [set_tasks rooms]. rewrite Hr.
  destruct (Room.exec a r) as [r1 e] eqn:He.
  destruct (popped_queue l rid a rest (tasks s) Eq) as (Ht & Hoth & Hsub).
  assert (a <> Room.AStop) as Hns by (eapply takes_no_stop; [exact Ht|apply (S_room s HI _ _ _ Hr)]).
  assert (SInv (deliver_room rid l r1 e (set_tasks (<[l := rest]> (tasks s)) s))) as H by by eapply SInv_room_step.
  by destruct a.
Qed.

Lemma SInv_tick rid s : SInv s -> SInv (run_room rid Room.ATick s).1.
Proof.
  intros HI. unfold run_room. destruct (rooms s !! rid) as [[l r]|] eqn:Hr; [|done].
  destruct (Room.exec Room.ATick r) as [r1 e] eqn:He. destruct s as [lb rm tk q rem g]. simpl in *.
  apply (SInv_room_step rid l r Room.ATick tk r1 e _ HI); try done. by left.
Qed.

End RoomInvariant.

(** ** Runs *)

(** What happens while the server is up: clients, the clock, the loops and the
    reports of the rooms. [EvRoomEnd] comes from a room, never from outside. *)
Definition label_ok (x : label) : Prop :=
  match x with
  | LLobby (GameServer.EvRoomEnd _ _) | LClose => False
  | _ => True
  end.

(** Each step of a run yields, besides the output, the rooms whose end the
    lobby handled. *)
Definition handles_end (x : label) (s : t) : list Z :=
  match x, lq s with LQueue, TEnd rid _ :: _ => [rid] | _, _ => [] end.

Inductive run : t -> list label -> list Z -> list out -> t -> Prop :=
  | run_nil s : run s [] [] [] s
  | run_step s x s1 o xs ends os s2 (HO : HashOrder) (LM : Libm) :
      GameServer.in_time (lob s) -> label_ok x -> exec x s = Ok (s1, o) -> run s1 xs ends os s2 ->
      run s (x :: xs) (handles_end x s ++ ends) (o ++ os) s2.

Definition reachable (s : t) : Prop :=
  exists n st xs ends os, 0 < n < 2 ^ 31 /\ run (boot n st) xs ends os s.

(** A step is defined and keeps the invariant. *)
Lemma exec_SInv {HO : HashOrder} {LM : Libm} x s :
  SInv s -> GameServer.in_time (lob s) -> label_ok x -> exists s1 o, exec x s = Ok (s1, o) /\ SInv s1.
Proof.
  intros HI Ht Hx. destruct (S_open s HI) as (_ & Hg & Hfin). pose proof (S_lobby s HI) as HL.
  destruct x as [ev| |l|rid|]; cbn [exec]; [| |eexists _, _; split; [apply f_equal, surjective_pairing|by apply SInv_run_task]|
    eexists _, _; split; [apply f_equal, surjective_pairing|by apply SInv_tick]|done].
  - assert (GameServer.event_ok ev /\ forall rid w, ev <> GameServer.EvRoomEnd rid w) as [Hev Hne] by by destruct ev.
    destruct (GameServer.exec_Lobby ev (lob s) HL Ht Hev) as (l' & e & Hex & HL' & _). unfold run_lobby. rewrite Hex.
    cbn [res_bind]. rewrite Hg. eexists _, _. split; [done|].
    destruct (GameServer.exec_sstep _ _ _ _ HL Ht Hev Hex) as (_ & _ & Hs).
    destruct (sstep_handled _ _ _ _ _ _ (GameServer.L_inv _ HL) Hs Hne) as [Hh|(l & p1 & c1 & p2 & c2 & Hc & ->)];
      rewrite <- Hg at 1; [by apply SInv_handled|by apply SInv_created].
  - destruct (lq s) as [|[rid w|] rest] eqn:Eq; [by eexists _, _| |exfalso; apply Hfin; left].
    assert (GameServer.event_ok (GameServer.EvRoomEnd rid w)) as Hev.
    { assert (rid ∈ ended_ids (lq s)) as (_ & l & r & Hr & _)%(S_end s HI) by (rewrite Eq; left).
      pose proof (R_id _ _ _ _ _ (S_room s HI _ _ _ Hr)). simpl. lia. }
    destruct (GameServer.exec_Lobby _ (lob s) HL Ht Hev) as (l' & e & Hex & HL' & _). unfold run_lobby. cbn [lob gone rooms tasks lq remain].
    rewrite Hex. cbn [res_bind]. rewrite Hg. eexists _, _. split; [done|].
    destruct (GameServer.exec_sstep _ _ _ _ HL Ht Hev Hex) as (_ & _ & Hs). cbn [GameServer.sstep] in Hs.
    rewrite <- Hg at 1. by apply (SInv_end _ _ _ _ _ _ _ HI Eq HL' Hs).
Qed.

Lemma SInv_step {HO : HashOrder} {LM : Libm} x s s1 o :
  SInv s -> GameServer.in_time (lob s) -> label_ok x -> exec x s = Ok (s1, o) -> SInv s1.
Proof.
  intros HI Ht Hx He. destruct (exec_SInv x s HI Ht Hx) as (s1' & o' & He' & HI1). rewrite He in He'. by inv He'.
Qed.

Lemma SInv_boot n st : 0 < n < 2 ^ 31 -> SInv (boot n st).
Proof.
  intros Hn. pose proof (GameServer.Lobby_boot n st ltac:(lia)) as HL.
  assert (snd (GameServer.boot n st) = GameServer.init n st) as Hs by done.
  unfold boot. split; cbn [lob rooms tasks lq remain gone]; rewrite ?Hs; try done.
  - split_and!; [done|done|apply not_elem_of_nil].
  - intros l rid a Hin. unfold queue_of in Hin. rewrite lookup_empty in Hin. by apply not_elem_of_nil in Hin.
  - apply NoDup_nil_2.
  - intros rid. simpl. rewrite elem_of_nil, lookup_empty. split; [done|]. by intros [[] _].
Qed.

Lemma run_SInv s xs ends os s' : run s xs ends os s' -> SInv s -> SInv s'.
Proof.
  induction 1 as [|s x s1 o xs ends os s2 HO LM Ht Hx He _ IH]; intros HI; [done|].
  eapply IH, SInv_step; done.
Qed.

Lemma sys_run_snoc {HO : HashOrder} {LM : Libm} s xs ends os s1 x s2 o :
  run s xs ends os s1 -> GameServer.in_time (lob s1) -> label_ok x -> exec x s1 = Ok (s2, o) ->
  run s (xs ++ [x]) (ends ++ handles_end x s1) (os ++ o) s2.
Proof.
  intros Hr Ht Hx He. induction Hr as [s|s x0 s0 o0 xs ends os s1 HO0 LM0 Ht0 Hx0 He0 _ IH]; cbn [app].
  - rewrite <- (app_nil_r (handles_end x s)), <- (app_nil_r o). eapply run_step; [done..|constructor].
  - rewrite <- !(assoc_L (++)). eapply run_step; [done..|]. by apply IH.
Qed.

Lemma reachable_SInv s : reachable s -> SInv s.
Proof. intros (n & st & xs & ends & os & Hn & Hr). eapply run_SInv; [exact Hr|by apply SInv_boot]. Qed.

(** ** Theorems *)


(** *** What a step keeps *)

(** The number of tasks of loop [l] a step takes. *)
Definition runs (l : loop) (x : label) : nat :=
  match x with LTask l' => if bool_decide (l' = l) then 1%nat else 0%nat | _ => 0%nat end.

Lemma posted_prefix l q e : queue_of l q `prefix_of` queue_of l (foldl post q e).
Proof.
  revert q. induction e as [|x e IH]; intros q; [done|]. simpl. etrans; [|apply IH].
  destruct x as [| | |l' rid a|]; try done. simpl. rewrite queue_push. destruct (decide (l = l')) as [->|]; [|done].
  by apply prefix_app_r.
Qed.

Lemma reset_prefix l l' rid q e : queue_of l q `prefix_of` queue_of l (foldl (post_reset l' rid) q e).
Proof.
  revert q. induction e as [|x e IH]; intros q; [done|]. simpl. etrans; [|apply IH].
  destruct x; try done. simpl. rewrite queue_push. destruct (decide (l = l')) as [->|]; [|done]. by apply prefix_app_r.
Qed.

Section Keeps.
Context {HO : HashOrder} {LM : Libm}.

(** The lobby's part of a step. *)
Lemma run_lobby_inv ev s q s1 o :
  SInv s -> GameServer.in_time (lob s) -> GameServer.event_ok ev ->
  run_lobby ev (mk (lob s) (rooms s) (tasks s) q (remain s) (gone s)) = Ok (s1, o) ->
  exists l' e, GameServer.exec ev (lob s) = Ok (l', e) /\
    s1 = deliver e (mk l' (rooms s) (tasks s) q (remain s) (gone s)) /\
    (Forall (fun x => GameServer.starts_room x = false) e \/
     exists l ps, e = [NewRoom (nextRoomId_ (snd (lob s))) l ps; PostRoom l (nextRoomId_ (snd (lob s))) Room.AStart]).
Proof.
  intros HI Ht Hev H. destruct (S_open s HI) as (_ & Hg & _). unfold run_lobby in H. cbn [lob rooms tasks lq remain gone] in H.
  destruct (GameServer.exec ev (lob s)) as [[l' e]|] eqn:Hex; [|done]. cbn [res_bind] in H. rewrite Hg in H.
  apply Ok_inj, pair_equal_spec in H as [<- _]. exists l', e. rewrite Hg. split_and!; [done|done|].
  destruct (GameServer.exec_sstep _ _ _ _ (S_lobby s HI) Ht Hev Hex) as (_ & _ & Hs).
  pose proof (GameServer.L_inv _ (S_lobby s HI)) as HLI.
  destruct (decide (Forall (fun x => GameServer.starts_room x = false) e)) as [|Hn]; [by left|].
  apply not_Forall_Exists, Exists_exists in Hn as (x & Hx & E); [|apply _]. apply not_false_iff_true in E.
  destruct (GameServer.sstep_new_room _ _ _ _ _ _ _ HLI Hs Hx E) as [c ->].
  destruct (match_handled _ _ _ _ _ _ HLI Hs) as [Hh|(l & p1 & c1 & p2 & c2 & _ & ->)]; [left; apply Hh|right; eauto].
Qed.

Lemma deliver_keeps e s1 rid l r :
  (Forall (fun x => GameServer.starts_room x = false) e \/
   exists n l ps, rid < n /\ e = [NewRoom n l ps; PostRoom l n Room.AStart]) ->
  rooms s1 !! rid = Some (l, r) -> rooms (deliver e s1) !! rid = Some (l, r).
Proof.
  intros [Hf|(n & l0 & ps & Hn & ->)] Hr; simpl; [by rewrite no_new_rooms|]. rewrite lookup_insert_ne by lia. done.
Qed.

Lemma deliver_room_keeps rid0 l0 r0 a r1 e q s :
  rooms s !! rid0 = Some (l0, r0) -> Room.exec a r0 = (r1, e) -> a <> Room.AStop ->
  (forall rid l r, rooms s !! rid = Some (l, r) ->
     exists r', rooms (deliver_room rid0 l0 r1 e (set_tasks q s)) !! rid = Some (l, r') /\
       (Room.ended_ r = true -> Room.ended_ r' = true)) /\
  (forall l, queue_of l q `prefix_of` queue_of l (tasks (deliver_room rid0 l0 r1 e (set_tasks q s)))).
Proof.
  intros Hr0 He Hns. split; [|intros l; apply reset_prefix]. intros rid l r Hr. simpl.
  destruct (decide (rid = rid0)) as [->|]; [|rewrite lookup_insert_ne by done; eauto].
  rewrite lookup_insert_eq. rewrite Hr0 in Hr. inv Hr. eexists. split; [done|].
  destruct (exec_fate _ _ _ _ He Hns) as [(-> & _)|(_ & ? & _)]; done.
Qed.

(** No step removes a room object or moves it to another loop, and an ended
    room stays ended; tasks are only appended, and taken from the front by their
    own loop. *)
Lemma exec_keeps x s s1 o :
  SInv s -> GameServer.in_time (lob s) -> label_ok x -> exec x s = Ok (s1, o) ->
  (forall rid l r, rooms s !! rid = Some (l, r) ->
     exists r1, rooms s1 !! rid = Some (l, r1) /\ (Room.ended_ r = true -> Room.ended_ r1 = true)) /\
  (forall l, drop (runs l x) (queue_of l (tasks s)) `prefix_of` queue_of l (tasks s1)).
Proof.
  intros HI Ht Hx He.
  assert (forall ev q, GameServer.event_ok ev ->
            run_lobby ev (mk (lob s) (rooms s) (tasks s) q (remain s) (gone s)) = Ok (s1, o) ->
            (forall rid l r, rooms s !! rid = Some (l, r) ->
               exists r1, rooms s1 !! rid = Some (l, r1) /\ (Room.ended_ r = true -> Room.ended_ r1 = true)) /\
            (forall l, queue_of l (tasks s) `prefix_of` queue_of l (tasks s1))) as Hlob.
  { intros ev q Hev (l' & e & _ & -> & Hnew)%run_lobby_inv; try done. split; [|intros l; apply posted_prefix].
    intros rid l r Hr. exists r. split; [|done]. apply deliver_keeps; [|done]. destruct Hnew as [|(l0 & ps & ->)]; [by left|].
    right. eexists _, _, _. split; [|done]. apply (S_room s HI _ _ _ Hr). }
  destruct x as [ev| |l0|rid0|]; cbn [exec] in He; [| | | |done].
  - destruct s as [lb rm tk q rem g]. by apply (Hlob ev q); [destruct ev|].
  - destruct (lq s) as [|[rid w|] rest] eqn:Eq; [inv He; by split; [eauto|]| |].
    + apply (Hlob _ _) in He; [done|]. assert (rid ∈ ended_ids (lq s)) as (_ & l & r & Hr & _)%(S_end s HI) by (rewrite Eq; left).
      pose proof (R_id _ _ _ _ _ (S_room s HI _ _ _ Hr)). simpl. lia.
    + inv He. by split; [eauto|].
  - apply Ok_inj in He. unfold run_task in He. destruct (queue_of l0 (tasks s)) as [|[rid a] rest] eqn:Eq.
    { inv He. split; [eauto|]. intros l. simpl. destruct (bool_decide_reflect (l0 = l)) as [<-|]; [by rewrite Eq|done]. }
    destruct (S_task s HI l0 rid a) as [r0 Hr0]; [rewrite Eq; left|]. pose proof (S_room s HI _ _ _ Hr0) as HR.
    assert (a <> Room.AStop) as Hns.
    { intros ->. apply (phase_no_stop _ _ (R_phase _ _ _ _ _ HR)), elem_of_acts. rewrite Eq. left. }
    unfold run_room in He. cbn [set_tasks rooms] in He. rewrite Hr0 in He. destruct (Room.exec a r0) as [r1 e] eqn:Hex.
    destruct (deliver_room_keeps rid l0 r0 a r1 e (<[l0 := rest]> (tasks s)) s Hr0 Hex Hns) as [Hk Hp].
    assert (s1 = deliver_room rid l0 r1 e (set_tasks (<[l0 := rest]> (tasks s)) s)) as -> by (destruct a; congruence).
    split; [done|]. intros l. etrans; [|apply Hp]. rewrite queue_insert. simpl.
    destruct (bool_decide_reflect (l0 = l)) as [<-|]; [by rewrite decide_True, Eq|by rewrite decide_False].
  - apply Ok_inj in He. unfold run_room in He. destruct (rooms s !! rid0) as [[l0 r0]|] eqn:Hr0; [|inv He; by split; [eauto|]].
    destruct (Room.exec Room.ATick r0) as [r1 e] eqn:Hex.
    destruct (deliver_room_keeps rid0 l0 r0 Room.ATick r1 e (tasks s) s Hr0 Hex) as [Hk Hp]; [done|].
    destruct s. inv He. split; done.
Qed.

End Keeps.

(** *** Abandoned rooms *)

Definition total_runs (l : loop) (xs : list label) : nat := sum_list_with (runs l) xs.

Lemma sys_run_ended s xs ends os s' rid l r :
  run s xs ends os s' -> SInv s -> rooms s !! rid = Some (l, r) -> Room.ended_ r = true ->
  exists r', rooms s' !! rid = Some (l, r') /\ Room.ended_ r' = true.
Proof.
  intros Hr. revert r. induction Hr as [|s x s1 o xs ends os s2 HO LM Ht Hx He Hr IH]; intros r HI Hro Hend; [eauto|].
  destruct (exec_keeps _ _ _ _ HI Ht Hx He) as [Hk _]. destruct (Hk _ _ _ Hro) as (r1 & Hr1 & He1).
  apply (IH r1); [by eapply SInv_step|done|auto].
Qed.

Lemma force_end_taken {HO : HashOrder} {LM : Libm} l s s1 o rid w rest :
  SInv s -> queue_of l (tasks s) = (rid, Room.AForceEnd w) :: rest -> exec (LTask l) s = Ok (s1, o) ->
  exists r1, rooms s1 !! rid = Some (l, r1) /\ Room.ended_ r1 = true.
Proof.
  intros HI Eq He. cbn [exec] in He. apply Ok_inj in He. unfold run_task, run_room in He. rewrite Eq in He.
  destruct (S_task s HI l rid (Room.AForceEnd w)) as [r Hr]; [rewrite Eq; left|]. cbn [set_tasks rooms] in He. rewrite Hr in He.
  destruct (Room.exec (Room.AForceEnd w) r) as [r1 e] eqn:Hex. inv He. simpl. rewrite lookup_insert_eq. exists r1.
  split; [done|]. destruct (exec_fate _ _ _ _ Hex) as [(-> & _ & Hf)|(_ & ? & _)]; [done|by apply Hf|done].
Qed.

(** A posted [forceEnd] ends the room as soon as its loop has come to it. *)
Lemma force_end_works s xs ends os s' l k rid w :
  run s xs ends os s' -> SInv s -> queue_of l (tasks s) !! k = Some (rid, Room.AForceEnd w) -> (k < total_runs l xs)%nat ->
  exists r, rooms s' !! rid = Some (l, r) /\ Room.ended_ r = true.
Proof.
  intros Hr. revert k. induction Hr as [|s x s1 o xs ends os s2 HO LM Ht Hx He Hr IH]; intros k HI Hk Hn; [simpl in Hn; lia|].
  pose proof (SInv_step _ _ _ _ HI Ht Hx He) as HI1.
  destruct (exec_keeps _ _ _ _ HI Ht Hx He) as [_ Hp]. unfold total_runs in *. simpl in Hn.
  destruct (decide (k < runs l x)%nat) as [Hlt|Hge].
  - assert (x = LTask l /\ k = 0%nat) as [-> ->].
    { destruct x; simpl in Hlt; try lia. destruct (bool_decide_reflect (l0 = l)) as [->|]; [split; [done|lia]|lia]. }
    destruct (queue_of l (tasks s)) as [|y rest] eqn:Eq; [done|]. injection Hk as ->.
    destruct (force_end_taken _ _ _ _ _ _ _ HI Eq He) as (r1 & Hr1 & He1). by eapply sys_run_ended.
  - apply (IH (k - runs l x)%nat); [done| |lia]. eapply prefix_lookup_Some; [|apply Hp]. rewrite lookup_drop.
    rewrite <- Hk. f_equal. lia.
Qed.

(** C13: A battle does not outlive the absence of one of its players. When a
    player of a room has no session in it any more (it expired 30 s after the
    disconnection, see [session_kept_for_30s]), the room has ended, or ends at
    the latest when its loop has run the tasks that are now in its queue,
    whatever else happens. *)
Theorem abandoned_room_ends s rid l r pid xs ends os s'
  (Hreach : reachable s) (Hroom : rooms s !! rid = Some (l, r)) (Hplayer : is_Some (Room.conns_ r !! pid))
  (Haway : ~ in_room rid pid (snd (lob s)))
  (Hrun : run s xs ends os s') (Hruns : (length (queue_of l (tasks s)) <= total_runs l xs)%nat) :
  exists r', rooms s' !! rid = Some (l, r') /\ Room.ended_ r' = true.
Proof.
  apply reachable_SInv in Hreach as HI. destruct (Room.ended_ r) eqn:He; [by eapply sys_run_ended|].
  destruct (R_stay _ _ _ _ _ (S_room s HI _ _ _ Hroom) He pid Hplayer) as [|Hx]; [done|].
  apply Exists_exists in Hx as (a & Ha%elem_of_acts & Hf). destruct a; try done.
  apply list_elem_of_lookup in Ha as [k Hk]. eapply force_end_works; try done. apply lookup_lt_Some in Hk. lia.
Qed.

(** *** Ends *)

(** The lobby has handled the end of room [rid]. *)
Definition closed (rid : Z) (s : t) : Prop :=
  rooms_ (snd (lob s)) !! rid = None /\ exists l r, rooms s !! rid = Some (l, r).

Lemma closed_ended rid s : SInv s -> closed rid s -> exists l r, rooms s !! rid = Some (l, r) /\ Room.ended_ r = true.
Proof.
  intros HI (Hn & l & r & Hr). exists l, r. split; [done|]. destruct (Room.ended_ r) eqn:E; [done|].
  apply (R_known _ _ _ _ _ (S_room s HI _ _ _ Hr)) in E. congruence.
Qed.

Definition is_result (o : out) : bool := match o with OJob (GameServer.JRecord _ _) => true | _ => false end.

Definition results (os : list out) : nat := length (filter (fun o => is_result o = true) os).

Lemma results_app o1 o2 : results (o1 ++ o2) = (results o1 + results o2)%nat.
Proof. unfold results. by rewrite filter_app, length_app. Qed.

Lemma results_emit e : Forall (fun x => records x = false) e -> results (omap emit e) = 0%nat.
Proof.
  unfold results. induction 1 as [|x e Hx _ IH]; [done|].
  destruct x as [| | | |j]; simpl; try done. by destruct j; rewrite ?filter_cons_False.
Qed.

Lemma results_emit_le e : (results (omap emit e) <= length e)%nat.
Proof.
  induction e as [|x e IH]; [done|]. change (omap emit (x :: e)) with (match emit x with Some o => o :: omap emit e | None => omap emit e end).
  unfold results in *. destruct (emit x) as [o|]; simpl; [|lia]. rewrite filter_cons. destruct (decide _); simpl; lia.
Qed.

Lemma results_room e : results (omap emit_room e) = 0%nat.
Proof. unfold results. induction e as [|[] e IH]; simpl; try done. Qed.

Section Closing.
Context {HO : HashOrder} {LM : Libm}.

(** What [s1] has closed, [s] being the state before, and the results. *)
Definition closes (ids : list Z) (s s1 : t) (o : list out) : Prop :=
  (forall rid, closed rid s1 <-> closed rid s \/ rid ∈ ids) /\
  (forall rid, rid ∈ ids -> ~ closed rid s) /\ (results o <= length ids)%nat.

Lemma closes_none s s1 o :
  (forall rid, closed rid s1 <-> closed rid s) -> results o = 0%nat -> closes [] s s1 o.
Proof.
  intros Hc Ho. unfold closes. setoid_rewrite elem_of_nil. rewrite Ho. split_and!; [|done|done]. intros rid. rewrite Hc. tauto.
Qed.

Lemma closes_room rid a s s1 :
  lob s1 = lob s -> rooms s1 = rooms s -> closes [] s (run_room rid a s1).1 (run_room rid a s1).2.
Proof.
  intros Hl Hr. unfold run_room. rewrite Hr. destruct (rooms s !! rid) as [[l r]|] eqn:E.
  - destruct (Room.exec a r) as [r1 e]. apply closes_none; [|apply results_room]. intros rid'. unfold closed, deliver_room.
    cbn [fst lob rooms]. rewrite Hl, Hr. destruct (decide (rid' = rid)) as [->|]; [|by rewrite lookup_insert_ne].
    rewrite lookup_insert_eq, E. split; intros [? _]; (split; [done|eauto]).
  - apply closes_none; [|done]. intros rid'. unfold closed. simpl. by rewrite Hl, Hr.
Qed.

Lemma closes_lobby ev s s1 o :
  SInv s -> GameServer.in_time (lob s) -> label_ok (LLobby ev) -> run_lobby ev s = Ok (s1, o) -> closes [] s s1 o.
Proof.
  intros HI Ht Hx He. pose proof (S_lobby s HI) as HL. destruct (S_open s HI) as (_ & Hg & _).
  assert (GameServer.event_ok ev /\ forall rid w, ev <> GameServer.EvRoomEnd rid w) as [Hev Hne] by by destruct ev.
  unfold run_lobby in He. destruct (GameServer.exec ev (lob s)) as [[l' e]|] eqn:Hex; [|done]. cbn [res_bind] in He.
  rewrite Hg in He. inv He. destruct (GameServer.exec_sstep _ _ _ _ HL Ht Hev Hex) as (_ & _ & Hs).
  destruct (sstep_handled _ _ _ _ _ _ (GameServer.L_inv _ HL) Hs Hne) as [Hh|(l & p1 & c1 & p2 & c2 & Hc & ->)].
  - apply closes_none; [|apply results_emit, Hh]. intros rid. unfold closed, deliver. cbn [lob rooms].
    by rewrite (H_rooms _ _ _ Hh), no_new_rooms by apply Hh.
  - apply closes_none; [|done]. intros rid. unfold closed, deliver. cbn [lob rooms foldl add_room].
    rewrite (C_rooms _ _ _ _ _ _ _ Hc). destruct (decide (rid = nextRoomId_ (snd (lob s)))) as [->|].
    + rewrite !lookup_insert_eq. split; [by intros []|]. intros [_ (l1 & r1 & Hr1)].
      pose proof (R_id _ _ _ _ _ (S_room s HI _ _ _ Hr1)). lia.
    + by rewrite !lookup_insert_ne by done.
Qed.

Lemma closes_end rid w rest s s1 o :
  SInv s -> GameServer.in_time (lob s) -> lq s = TEnd rid w :: rest ->
  run_lobby (GameServer.EvRoomEnd rid w) (mk (lob s) (rooms s) (tasks s) rest (remain s) (gone s)) = Ok (s1, o) ->
  closes [rid] s s1 o.
Proof.
  intros HI Ht Eq He. pose proof (S_lobby s HI) as HL. destruct (S_open s HI) as (_ & Hg & _).
  assert (rid ∈ ended_ids (lq s)) as (Hin & l & r & Hr & _)%(S_end s HI) by (rewrite Eq; left).
  pose proof (R_id _ _ _ _ _ (S_room s HI _ _ _ Hr)) as [Hrid _].
  assert (GameServer.event_ok (GameServer.EvRoomEnd rid w)) as Hev by (simpl; lia).
  unfold run_lobby in He. cbn [lob rooms tasks lq remain gone] in He.
  destruct (GameServer.exec _ (lob s)) as [[l' e]|] eqn:Hex; [|done]. cbn [res_bind] in He. rewrite Hg in He. inv He.
  destruct (GameServer.exec_sstep _ _ _ _ HL Ht Hev Hex) as (_ & _ & Hs). cbn [GameServer.sstep] in Hs.
  destruct (onRoomEnd_jobs _ _ _ _ _ _ _ Hs) as [Hjobs Hlen]. apply GameServer.onRoomEnd_sessions in Hs as [_ Hs].
  unfold closes. setoid_rewrite list_elem_of_singleton. split_and!.
  - intros rid'. unfold closed, deliver. cbn [lob rooms]. rewrite Hs. cbn [rooms_ GameServer.set_sessions GameServer.set_rooms].
    rewrite no_new_rooms by (eapply Forall_impl; [exact Hjobs|]; by intros x [j ->]). rewrite lookup_delete_None.
    split; [intros [[->|?] ?]; tauto|]. intros [[? ?]| ->]; [tauto|]. split; [by left|eauto].
  - intros ? -> [Hn _]. rewrite Hn in Hin. by destruct Hin.
  - etrans; [apply results_emit_le|done].
Qed.

(** A step closes exactly the room whose end it handles, and only then records a
    result. *)
Lemma exec_closes x s s1 o :
  SInv s -> GameServer.in_time (lob s) -> label_ok x -> exec x s = Ok (s1, o) -> closes (handles_end x s) s s1 o.
Proof.
  intros HI Ht Hx He. destruct x as [ev| |l0|rid0|]; cbn [exec handles_end] in *; [by apply closes_lobby in He| | | |done].
  - destruct (lq s) as [|[rid w|] rest] eqn:Eq; [inv He; by apply closes_none|by apply closes_end in He|].
    exfalso. apply (proj2 (proj2 (S_open s HI))). rewrite Eq. left.
  - apply Ok_inj in He. unfold run_task in He. destruct (queue_of l0 (tasks s)) as [|[rid a] rest]; [inv He; by apply closes_none|].
    pose proof (closes_room rid a s (set_tasks (<[l0 := rest]> (tasks s)) s) eq_refl eq_refl) as Hc.
    destruct (run_room rid a _) as [s2 o2]. destruct a; inv He; try done. unfold closes, closed, finishOne in *.
    by destruct (remain s2).
  - apply Ok_inj in He. pose proof (closes_room rid0 Room.ATick s s eq_refl eq_refl) as Hc. by rewrite He in Hc.
Qed.

End Closing.

Lemma run_closes s xs ends os s' :
  run s xs ends os s' -> SInv s ->
  NoDup ends /\ (forall rid, closed rid s' <-> closed rid s \/ rid ∈ ends) /\
  (forall rid, rid ∈ ends -> ~ closed rid s) /\ (results os <= length ends)%nat.
Proof.
  induction 1 as [s|s x s1 o xs ends os s2 HO LM Ht Hx He _ IH]; intros HI.
  { setoid_rewrite elem_of_nil. split_and!; [apply NoDup_nil_2|tauto|done|done]. }
  destruct (exec_closes _ _ _ _ HI Ht Hx He) as (Hc & Hn & Hl).
  destruct (IH (SInv_step _ _ _ _ HI Ht Hx He)) as (Hnd & Hc2 & Hn2 & Hl2). setoid_rewrite elem_of_app. split_and!.
  - apply NoDup_app. split_and!; [|intros rid H1 H2; apply (Hn2 rid H2), Hc; by right|done].
    unfold handles_end. destruct x; try apply NoDup_nil_2. destruct (lq s) as [|[]]; try apply NoDup_nil_2. apply NoDup_singleton.
  - intros rid. rewrite Hc2, Hc. tauto.
  - intros rid [H|H]; [by apply Hn|]. intros H0. apply (Hn2 _ H), Hc. by left.
  - rewrite results_app, length_app. lia.
Qed.

(** C10: The lobby handles the end of every battle exactly once. In a run of the
    server, no room's end is handled twice; the rooms whose end has been handled
    are exactly the rooms that have ended and whose report is not waiting in the
    lobby's queue, so that none is left out; and at most one result per handled
    end is handed to the storage, and none otherwise. *)
Theorem every_end_handled_once n st xs ends os s (Hn : 0 < n < 2 ^ 31) (Hrun : run (boot n st) xs ends os s) :
  NoDup ends /\
  (forall rid, rid ∈ ends <->
     (exists l r, rooms s !! rid = Some (l, r) /\ Room.ended_ r = true) /\ rid ∉ ended_ids (lq s)) /\
  (results os <= length ends)%nat.
Proof.
  pose proof (SInv_boot n st Hn) as HI0. pose proof (run_SInv _ _ _ _ _ Hrun HI0) as HI.
  destruct (run_closes _ _ _ _ _ Hrun HI0) as (Hnd & Hc & _ & Hl). split_and!; [done| |done].
  assert (forall rid, ~ closed rid (boot n st)) as H0 by (intros rid (_ & l & r & Hr); simpl in Hr; by rewrite lookup_empty in Hr).
  intros rid. transitivity (closed rid s); [rewrite Hc; naive_solver|]. split.
  - intros Hcl. split; [by apply closed_ended|]. destruct Hcl as [Hno _]. intros [[l Hl0] _]%(S_end s HI). congruence.
  - intros [(l & r & Hr & He) Hni]. split; [|eauto]. rewrite (S_end s HI) in Hni. apply eq_None_not_Some. intros Hs.
    apply Hni. eauto 10.
Qed.

(** *** Tickers *)

(** A room object is released with its ticker already destroyed. When the
    lobby has erased the room and its loop has no task left that refers to it,
    the room has ended and the ticker, whose channel must be destroyed on the
    room's loop, has been destroyed there by the task of [endBattle]. *)
Theorem released_room_has_no_ticker s rid l r
  (Hreach : reachable s) (Hroom : rooms s !! rid = Some (l, r))
  (Herased : rooms_ (snd (lob s)) !! rid = None) (Hidle : acts rid (queue_of l (tasks s)) = []) :
  Room.ended_ r = true /\ Room.ticker_ r = false.
Proof.
  apply reachable_SInv in Hreach as HI. pose proof (S_room s HI _ _ _ Hroom) as [_ Rk Rp _].
  assert (Room.ended_ r = true) as He by (destruct (Room.ended_ r); [done|]; specialize (Rk eq_refl); congruence).
  split; [done|]. rewrite Hidle in Rp.
  destruct Rp as [(rest & ? & _)|[(_ & ? & _)|(_ & _ & [?|H])]]; [done|congruence|done|by apply not_elem_of_nil in H].
Qed.

(** ** Scenarios *)

Definition label_okb (x : label) : bool :=
  match x with LLobby (GameServer.EvRoomEnd _ _) | LClose => false | _ => true end.

Notation exec64 := (@exec elements_order BattleSim.libm64).

Fixpoint exec_all (xs : list label) (s : t) : res (t * list Z * list out) :=
  match xs with
  | [] => Ok (s, [], [])
  | x :: xs =>
      if (TimerWheel.nowTick_ (fst (lob s)) <? 2 ^ 62) && label_okb x then
        (let! (s1, o) := exec64 x s in
         let! (s2, ends, os) := exec_all xs s1 in
         Ok (s2, handles_end x s ++ ends, o ++ os))%gs
      else UB
  end.

Lemma sys_run_exec_all xs s s' ends os : exec_all xs s = Ok (s', ends, os) -> run s xs ends os s'.
Proof.
  revert s ends os. induction xs as [|x xs IH]; intros s ends os H; cbn [exec_all] in H; [inv H; constructor|].
  destruct (_ && _) eqn:E; [|done]. destruct (exec64 x s) as [[s1 o]|] eqn:E1; cbn [res_bind] in H; [|done].
  destruct (exec_all xs s1) as [[[s2 ends2] os2]|] eqn:E2; cbn [res_bind] in H; [|done].
  apply Ok_inj, pair_equal_spec in H as [[<- <-]%pair_equal_spec <-]. apply andb_true_iff in E as [Et Ex].
  eapply (run_step s x s1 o xs ends2 os2 s2 elements_order BattleSim.libm64); [by apply Z.ltb_lt in Et| |exact E1|by apply IH].
  by destruct x as [[]| | | |].
Qed.

(** The state after a scenario on a server with two game threads. *)
Definition after (xs : list label) : t :=
  match exec_all xs (boot 2 true) with Ok (s, _, _) => s | UB => boot 2 true end.

Lemma sys_after_reachable xs : reachable (after xs).
Proof.
  unfold after. destruct (exec_all xs (boot 2 true)) as [[[s ends] os]|] eqn:E.
  - exists 2, true, xs, ends, os. split; [lia|]. by apply sys_run_exec_all.
  - exists 2, true, [], [], []. split; [lia|constructor].
Qed.

Definition ticks (n : nat) : list label := replicate n (LLobby (GameServer.EvWheel 1)).

(** Alice and Bob meet in room 1. *)
Definition meet : list label :=
  [LLobby (GameServer.EvLogin 1 "alice" 0 1 2); LLobby (GameServer.EvLogin 2 "bob" 0 3 4);
   LLobby (GameServer.EvMatch 1); LLobby (GameServer.EvMatch 2); LTask (Some 0)].

(** Alice leaves and comes back on connection 3; her room has not yet noticed. *)
Definition alice_back : t :=
  after (meet ++ [LLobby (GameServer.EvDisconnect 1); LLobby (GameServer.EvReconnect 3 1 (GameServer.genToken 1 2) 5)]).


(** Bob leaves; Alice too, shortly before Bob's session expires. *)
Definition bob_gone : t :=
  after (meet ++ [LLobby (GameServer.EvDisconnect 2)] ++ ticks 299 ++ [LLobby (GameServer.EvDisconnect 1)] ++ ticks 1).

Lemma abandoned_room_ends_witness :
  exists l r, rooms bob_gone !! 1 = Some (l, r) /\ Room.ended_ r = false /\
  exists s' ends os r', exec_all [LTask (Some 0); LTick 1; LTask (Some 0); LTask (Some 0)] bob_gone = Ok (s', ends, os) /\
    rooms s' !! 1 = Some (l, r') /\ Room.ended_ r' = true.
Proof.
  destruct (rooms bob_gone !! 1) as [[l r]|] eqn:Hr; [|vm_compute in Hr; discriminate Hr].
  pose (f := fun o : option (loop * Room.t) => match o with
          | Some (l, r) => (l, Room.ended_ r, bool_decide (is_Some (Room.conns_ r !! 2)))
          | None => (None, true, false) end).
  assert (f (rooms bob_gone !! 1) = (Some 0, false, true)) as Hx by (vm_compute; reflexivity).
  rewrite Hr in Hx. cbn in Hx. apply pair_equal_spec in Hx as [[-> He]%pair_equal_spec Hp].
  exists (Some 0), r. split_and!; [reflexivity|exact He|].
  destruct (GameServer.is_ok (exec_all [LTask (Some 0); LTick 1; LTask (Some 0); LTask (Some 0)] bob_gone)) as [[[s' ends] os] Hex];
    [vm_compute; reflexivity|].
  destruct (abandoned_room_ends bob_gone 1 (Some 0) r 2 [LTask (Some 0); LTick 1; LTask (Some 0); LTask (Some 0)] ends os s'
              (sys_after_reachable _) Hr) as (r' & Hr' & He').
  - apply bool_decide_eq_true in Hp. exact Hp.
  - intros (ss & Hss & _). vm_compute in Hss. discriminate Hss.
  - apply sys_run_exec_all. exact Hex.
  - vm_compute. lia.
  - exists s', ends, os, r'. split_and!; [exact Hex|exact Hr'|exact He'].
Defined.

(** Room 1 has ended, and the lobby has handled the end. *)
Definition ending : list label :=
  meet ++ [LLobby (GameServer.EvDisconnect 2)] ++ ticks 300 ++ [LTask (Some 0); LTask (Some 0); LQueue].

Lemma every_end_handled_once_witness :
  exists s ends os, exec_all ending (boot 2 true) = Ok (s, ends, os) /\ ends = [1] /\
    NoDup ends /\ (exists l r, rooms s !! 1 = Some (l, r) /\ Room.ended_ r = true) /\ (results os <= 1)%nat.
Proof.
  destruct (GameServer.is_ok (exec_all ending (boot 2 true))) as [[[s ends] os] Hex]; [vm_compute; reflexivity|].
  assert (ends = [1]) as He.
  { assert (match exec_all ending (boot 2 true) with Ok (_, ends, _) => ends | UB => [] end = [1]) as Hx
      by (vm_compute; reflexivity). rewrite Hex in Hx. exact Hx. }
  exists s, ends, os. split; [exact Hex|]. split; [exact He|].
  destruct (every_end_handled_once 2 true ending ends os s) as (Hnd & Hends & Hres); [lia|apply sys_run_exec_all; exact Hex|].
  rewrite He in *. split_and!; [exact Hnd| |exact Hres]. apply Hends. left.
Defined.

Lemma released_room_has_no_ticker_witness :
  exists l r, rooms (after (ending ++ [LTask (Some 0)])) !! 1 = Some (l, r) /\
    Room.ended_ r = true /\ Room.ticker_ r = false.
Proof.
  set (s := after (ending ++ [LTask (Some 0)])).
  destruct (rooms s !! 1) as [[l r]|] eqn:Hr; [|vm_compute in Hr; discriminate Hr]. exists l, r. split; [reflexivity|].
  apply (released_room_has_no_ticker s 1 l r (sys_after_reachable _) Hr); [vm_compute; reflexivity|].
  enough (match rooms s !! 1 with Some (l, _) => acts 1 (queue_of l (tasks s)) | None => [Room.AStop] end = []) as Hx
    by (rewrite Hr in Hx; exact Hx). vm_compute. reflexivity.
Defined.

(** *** A rebind that comes too late *)

(** The rooms that client [c] is told it has entered, in order. *)
Definition entered (c : GameServer.conn) (os : list out) : list Z :=
  omap (fun o => match o with OSend c' (MEnterRoom rid _) => if c' =? c then Some rid else None | _ => None end) os.

(** Alice's battle ends because Bob is gone; she reconnects before the lobby has
    handled the end, and meets Carol in room 2 on the other loop before the
    first loop has run the rebinding. *)
Definition late_rebind : list label :=
  meet ++ [LLobby (GameServer.EvDisconnect 2)] ++ ticks 299 ++ [LLobby (GameServer.EvDisconnect 1)] ++ ticks 1 ++
  [LTask (Some 0); LTask (Some 0); LTask (Some 0);
   LLobby (GameServer.EvReconnect 3 1 (GameServer.genToken 1 2) 5); LQueue;
   LLobby (GameServer.EvLogin 4 "carol" 6 5 6); LLobby (GameServer.EvMatch 3); LLobby (GameServer.EvMatch 4);
   LTask (Some 1); LTick 2; LTask (Some 0); LTask (Some 0)].

(** A player can be shown a battle that is over. [Room::rebind] does not look
    at [ended_], and the rebinding of an old room and the start of a new one are
    queued on different loops: in the run [late_rebind] the lobby has Alice in
    room 2 on connection 3, while the last [EnterRoom] she received there, after
    that of room 2, is that of room 1, which has ended; it is followed by the
    full snapshot of room 1. *)
Theorem late_rebind_shows_old_battle :
  exists ends os s ss l r, run (boot 2 true) late_rebind ends os s /\
    sessions_ (snd (lob s)) !! 1 = Some ss /\ roomId ss = 2 /\ s_conn ss = Some 3 /\
    rooms s !! 1 = Some (l, r) /\ Room.ended_ r = true /\ entered 3 os = [2; 1] /\
    exists os0, os = os0 ++ [OSend 3 (@Room.enter_room elements_order r); OSend 3 (MStateSnapshot (@Room.full_snapshot elements_order r))].
Proof.
  destruct (GameServer.is_ok (exec_all late_rebind (boot 2 true))) as [[[s ends] os] Hex]; [vm_compute; reflexivity|].
  assert (match exec_all late_rebind (boot 2 true) with
          | Ok (s, _, os) =>
              match sessions_ (snd (lob s)) !! 1, rooms s !! 1 with
              | Some ss, Some (l, r) =>
                  roomId ss = 2 /\ s_conn ss = Some 3 /\ Room.ended_ r = true /\ entered 3 os = [2; 1] /\
                  os = take (length os - 2) os ++
                       [OSend 3 (@Room.enter_room elements_order r); OSend 3 (MStateSnapshot (@Room.full_snapshot elements_order r))]
              | _, _ => False
              end
          | UB => False end) as H by (vm_compute; repeat split; reflexivity).
  rewrite Hex in H. exists ends, os, s.
  destruct (sessions_ (snd (lob s)) !! 1) as [ss|]; [|destruct H]. destruct (rooms s !! 1) as [[l r]|]; [|destruct H].
  destruct H as (H1 & H2 & H3 & H4 & Hos). exists ss, l, r. apply sys_run_exec_all in Hex. clear - Hex H1 H2 H3 H4 Hos.
  repeat (split; [first [assumption|reflexivity]|]). exists (take (length os - 2) os). exact Hos.
Qed.

End System.
