(* ===== verification/Flow.v ===== *)
(** * What flows through the game ([GameServer.cc], [Room.cc])

    What a client sends is kept in sessions and rooms, handed from the lobby to
    the rooms and sent to clients again. A [Policy] says which connections,
    messages, tokens, inputs and room states are allowed; its laws concern single
    messages and single actions of a room, and [flow_step] concludes that every
    step of lobby and rooms keeps to the policy when what comes in does. The
    handler of heartbeats, which returns a field of the request, is described
    exactly.

    [Origin] is the first instance: the game only ever sends to connections it
    was given, and heartbeats only for heartbeats. (In the C++ code a connection
    that does not exist cannot be named; here connections are numbers.)
    [Typing] is the second. *)

From stdpp Require Import base gmap sets list strings.
From Stdlib Require Import ZArith Lia.
From S2P Require Import Prelude MatchQueue TimerWheel LoopPool Float32 Proto BattleSim Room GameServer System.

Local Open Scope Z_scope.

Class Policy : Type := {
  ok_conn : GameServer.conn -> Prop;
  ok_msg : server_msg -> Prop;
  ok_token : string -> Prop;
  ok_input : PlayerInput -> Prop;
  ok_room : Room.t -> Prop;
}.

Module Flow.

Import GameServer(sessions_, s_conn, LInv).

Section Allowed.
Context {P : Policy}.

Definition ok_action (a : Room.action) : Prop :=
  match a with
  | Room.ARebind _ c => ok_conn c
  | Room.AInput _ i => ok_input i
  | Room.AForceEnd w => 0 <= w
  | _ => True
  end.

Definition ok_room_effect (e : Room.effect) : Prop :=
  match e with Room.Send c m => ok_conn c /\ ok_msg m | _ => True end.

Definition ok_session (ss : GameServer.Session) : Prop :=
  (forall c, s_conn ss = Some c -> ok_conn c) /\ ok_token (GameServer.token ss).

Definition ok_lobby (s : GameServer.t) : Prop := forall pid ss, sessions_ s !! pid = Some ss -> ok_session ss.

(** An effect of a handler other than that of heartbeats. *)
Definition ok_effect (e : GameServer.effect) : Prop :=
  match e with
  | GameServer.Send c m => ok_conn c /\ ok_msg m
  | GameServer.Shutdown c => ok_conn c
  | GameServer.NewRoom rid _ ps => ok_room (Room.make rid ps)
  | GameServer.PostRoom _ _ a => ok_action a
  | GameServer.Enqueue (GameServer.JLeaderboard _ _) => False
  | GameServer.Enqueue _ => True
  end.

Definition ok_event (ev : GameServer.event) : Prop :=
  match ev with
  | GameServer.EvLogin c _ _ _ _ | GameServer.EvReconnect c _ _ _ | GameServer.EvMatch c
  | GameServer.EvHeartbeat c _ _ => ok_conn c
  | GameServer.EvInput c i => ok_conn c /\ ok_input i
  | _ => True
  end.

Record ok_sys (s : System.t) : Prop := mkOkSys {
  Ok_sessions : ok_lobby (snd (System.lob s));
  Ok_rooms : forall rid l r, System.rooms s !! rid = Some (l, r) -> ok_room r;
  Ok_tasks : forall l rid a, (rid, a) ∈ System.queue_of l (System.tasks s) -> ok_action a;
}.

Definition ok_out (o : System.out) : Prop :=
  match o with
  | System.OSend c m => ok_conn c /\ ok_msg m
  | System.OShutdown c => ok_conn c
  | System.OJob (GameServer.JLeaderboard _ _) => False
  | System.OJob _ => True
  end.

Definition ok_label (x : System.label) : Prop := match x with System.LLobby ev => ok_event ev | _ => True end.

End Allowed.

(** What a policy must satisfy. *)
Class Laws (P : Policy) : Prop := {
  token_law a b : ok_token (GameServer.genToken a b);
  login_law pid tok : 0 < pid -> ok_token tok -> ok_msg (MLoginResp 0 pid tok);
  failed_law : ok_msg GameServer.login_failed;
  timeout_law : ok_msg (MEnterRoom 0 []);
  make_law rid p1 c1 p2 c2 : 0 < rid -> 0 < p1 -> 0 < p2 -> p1 <> p2 -> ok_conn c1 -> ok_conn c2 ->
    ok_room (Room.make rid [(p1, Some c1); (p2, Some c2)]);
  room_law {HO : HashOrder} {LM : Libm} a r r1 e :
    Room.exec a r = (r1, e) -> ok_room r -> ok_action a -> ok_room r1 /\ Forall ok_room_effect e;
}.

Section Flow.
Context {P : Policy} {PL : Laws P}.

Lemma enqueue_ok s j : ok_effect (GameServer.Enqueue j) -> Forall ok_effect (GameServer.enqueue_if s j).
Proof. intros H. unfold GameServer.enqueue_if. destruct (GameServer.storage s); by repeat constructor. Qed.

Lemma to_room_ok s ss a : ok_action a -> Forall ok_effect (System.to_room s ss a).
Proof. intros H. unfold System.to_room. repeat dmatch; by repeat constructor. Qed.

Lemma ok_lobby_insert s s' pid ss :
  ok_lobby s -> sessions_ s' = <[pid := ss]> (sessions_ s) -> ok_session ss -> ok_lobby s'.
Proof.
  intros H Hs Hc p x Hx. rewrite Hs in Hx. apply lookup_insert_Some in Hx as [[_ <-]|[_ Hx]]; [exact Hc|by eapply H].
Qed.

(** A session that keeps its token and at most loses or gets its connection. *)
Lemma ok_session_same ss ss' :
  ok_session ss -> GameServer.token ss' = GameServer.token ss ->
  (forall c, s_conn ss' = Some c -> s_conn ss = Some c \/ ok_conn c) -> ok_session ss'.
Proof. intros [Hc Ht] Et Ec. split; [|by rewrite Et]. intros c [H|H]%Ec; [by apply Hc|done]. Qed.

Section Lobby.
Context {HO : HashOrder}.

Lemma find_opponent_nonneg pid rid s : GameServer.Sess s -> 0 <= GameServer.find_opponent pid rid s.
Proof.
  intros HS. unfold GameServer.find_opponent. enough (forall l w, 0 <= w -> 0 <= foldl (fun winner opid =>
           match sessions_ s !! opid with
           | Some os => if (GameServer.roomId os =? rid) && negb (opid =? pid) then opid else winner
           | None => winner
           end) w l) as H by (apply H; lia).
  intros l. induction l as [|q l IH]; intros w Hw; [done|]. cbn [foldl]. apply IH.
  destruct (sessions_ s !! q) as [os|] eqn:E; [|done]. destruct (_ && _); [|done]. apply (GameServer.I_key s HS) in E. lia.
Qed.

Lemma callback_ok now tid d cb a s out a' s' out' :
  LInv a s -> TimerWheel.t_due a !! tid = Some (d, cb) ->
  TimerWheel.spec_interp (GameServer.run_callback now cb (s, out)) (TimerWheel.spec_cancel tid a) = (a', (s', out')) ->
  ok_lobby s -> Forall ok_effect out -> ok_lobby s' /\ Forall ok_effect out'.
Proof.
  intros [HS HT] Htid H HK Hout. unfold GameServer.run_callback in H. destruct cb as [q|q|].
  - destruct (GameServer.match_timeout q s) as [s1 e] eqn:E. simpl in H. inv H. unfold GameServer.match_timeout in E.
    destruct (negb _); [inv E; rewrite app_nil_r; done|]. simpl in E.
    destruct (sessions_ s !! q) as [sq|] eqn:Eq; inv E; [|rewrite app_nil_r; done]. destruct (HK q sq Eq) as [Hc Ht]. split.
    + eapply ok_lobby_insert; [exact HK|done|]. by split.
    + apply Forall_app. split; [done|]. destruct (s_conn sq) as [c|] eqn:Ec; [|done]. constructor; [|done].
      split; [by apply Hc|apply timeout_law].
  - destruct (GameServer.expireSession q s) as [s1 e] eqn:E. simpl in H. inv H. unfold GameServer.expireSession in E.
    destruct (sessions_ s !! q) as [sq|]; [|inv E; rewrite app_nil_r; done].
    destruct (bool_decide _); [inv E; rewrite app_nil_r; done|]. apply pair_equal_spec in E as [<- <-]. split.
    + intros p x Hx. simpl in Hx. apply lookup_delete_Some in Hx as [_ Hx]. by eapply HK.
    + apply Forall_app. split; [done|]. apply (to_room_ok s sq (Room.AForceEnd _)). by apply find_opponent_nonneg.
  - cbn [GameServer.scheduleSweep TimerWheel.spec_interp] in H. rewrite GameServer.spec_add_timer in H by done.
    cbn [TimerWheel.spec_interp] in H. inv H. split; [done|]. apply Forall_app. split; [done|].
    unfold GameServer.sweepHeartbeats. apply Forall_flat_map. apply Forall_forall. intros p _.
    destruct (sessions_ s' !! p) as [x|] eqn:Ex; [|done]. destruct (s_conn x) as [c|] eqn:Ec; [|done].
    destruct (GameServer.timed_out now x); [|done]. constructor; [|done]. by apply (HK p x Ex).
Qed.

Lemma fire_ok now l a s out a' s' out' :
  LInv a s -> TimerWheel.spec_fire (GameServer.run_callback now) l (a, (s, out)) = (a', (s', out')) ->
  ok_lobby s -> Forall ok_effect out -> ok_lobby s' /\ Forall ok_effect out'.
Proof.
  revert a s out. induction l as [|tid l IH]; intros a s out HI H HK Ho; cbn [TimerWheel.spec_fire] in H; [by inv H|].
  destruct (TimerWheel.t_due a !! tid) as [[d cb]|] eqn:E; [|by eapply IH].
  destruct (TimerWheel.spec_interp _ _) as [a1 [s1 out1]] eqn:Ei.
  pose proof (GameServer.LInv_run_callback _ _ _ _ _ _ _ _ _ _ HI E Ei) as HI1.
  destruct (callback_ok _ _ _ _ _ _ _ _ _ _ HI E Ei HK Ho) as [HK1 Ho1]. by eapply IH.
Qed.

Lemma paired_same p1 p2 q l pool s p x :
  sessions_ (GameServer.paired p1 p2 q l pool s) !! p = Some x ->
  exists y, sessions_ s !! p = Some y /\ s_conn x = s_conn y /\ GameServer.token x = GameServer.token y.
Proof.
  intros H. cbn [GameServer.paired GameServer.enter GameServer.set_sessions sessions_] in H. apply lookup_alter_Some in H as [(_ & z & Hz & ->)|[_ Hz]];
    apply lookup_alter_Some in Hz as [(_ & y & Hy & ->)|[_ Hy]]; eauto.
Qed.

Lemma match_ok c a s a' s' e :
  LInv a s -> TimerWheel.spec_interp (GameServer.onMatch c s) a = (a', Ok (s', e)) -> ok_lobby s ->
  ok_lobby s' /\ Forall ok_effect e.
Proof.
  intros HI H HK. pose proof HI as [HS HT].
  destruct (GameServer.onMatch_inv c a s HS) as [(q & sq & Hso & Hl & Heq)|[_ Heq]]; rewrite Heq in H; [|by inv H].
  apply GameServer.sessionOf_inv in Hso as (Hq & Hc & _); [|done].
  pose proof (GameServer.LInv_queued q sq c a s HI Hq Hc Hl) as HI1.
  set (sd := GameServer.queued q (TimerWheel.t_next a) sq s) in *.
  assert (ok_lobby sd) as HKd.
  { eapply (ok_lobby_insert s); [exact HK|done|]. by apply (HK q sq). }
  destruct (GameServer.tryMatch_inv _ _ HI1) as [(q' & _ & _ & _ & Heq')|
    (p1 & p2 & s1 & s2 & c1 & c2 & t1 & t2 & q' & l & pool & Hne & Hs1 & Hs2 & Hm1 & Hm2 & Hc1 & Hc2 & _ & _ & _ & _ & _ & Heq')];
    rewrite Heq' in H; apply pair_equal_spec in H as [_ H]; apply Ok_inj, pair_equal_spec in H as [<- <-]; [done|]. split.
  - intros p x (y & Hy & Hcy & Hty)%paired_same. destruct (HKd p y Hy) as [Hyc Hyt]. split; [by rewrite Hcy|by rewrite Hty].
  - repeat constructor. cbn [ok_effect]. pose proof (GameServer.I_key s HS) as Hkey. pose proof (proj1 HI1) as HSd.
    destruct (GameServer.I_key sd HSd _ _ Hs1), (GameServer.I_key sd HSd _ _ Hs2). pose proof (proj1 (GameServer.I_rid sd HSd)).
    apply make_law; try lia; [by apply (HKd p1 s1)|by apply (HKd p2 s2)].
Qed.

(** The loop of [onRoomEnd] leaves the connections alone. *)
Lemma room_end_conns rid w l x y m wa la m' :
  foldl (GameServer.room_end_step rid w) (x, y, m) l = (wa, la, m') ->
  forall pid ss', m' !! pid = Some ss' -> exists ss, m !! pid = Some ss /\ s_conn ss' = s_conn ss /\ GameServer.token ss' = GameServer.token ss.
Proof.
  revert x y m. induction l as [|q l IH]; intros x y m; cbn [foldl]; [intros [= <- <- <-]; eauto|].
  destruct (GameServer.room_end_step rid w (x, y, m) q) as [[x1 y1] m1] eqn:E. intros H pid ss' Hp.
  destruct (IH _ _ _ H pid ss' Hp) as (ss1 & Hs1 & Hc1 & Ht1). unfold GameServer.room_end_step in E.
  destruct (m !! q) as [sq|] eqn:Eq; [|inv E; eauto]. destruct (_ =? _); [|inv E; eauto].
  assert (m1 = <[q := GameServer.set_room 0 GameServer.kLobby sq]> m) as -> by (destruct (_ =? _); by inv E).
  apply lookup_insert_Some in Hs1 as [[<- <-]|[_ Hs1]]; eauto.
Qed.

(** What a handler keeps and what it emits. *)
Lemma sstep_ok ev a s a' s' e :
  LInv a s -> GameServer.sstep ev a s a' s' e -> ok_event ev -> ok_lobby s ->
  ok_lobby s' /\
  match ev with
  | GameServer.EvHeartbeat c ms _ => e = [GameServer.Send c (MHeartbeat ms)]
  | _ => Forall ok_effect e
  end.
Proof.
  intros HI H Hev HK. pose proof HI as [HS HT].
  destruct ev as [c acc now r1 r2|c q tok now|c|c i|c ms now|c|r wn|now]; cbn [GameServer.sstep ok_event] in *.
  - cbn [GameServer.onLogin TimerWheel.spec_interp] in H. inv H. split.
    + eapply (ok_lobby_insert s); [exact HK|done|]. split; [by intros ? [= <-]|apply token_law].
    + constructor; [|by apply enqueue_ok]. split; [done|]. pose proof (GameServer.I_next s HS). apply login_law; [simpl; lia|apply token_law].
  - destruct (GameServer.onReconnect_inv c q tok now a s HI) as [(sq & Hq & Etok & Hnull & Heq)|[_ Heq]]; cbn zeta in Heq;
      rewrite Heq in H; apply pair_equal_spec in H as [_ H]; apply pair_equal_spec in H as [<- <-];
      [|split; [done|]; constructor; [split; [done|apply failed_law]|by constructor]].
    pose proof (HK q sq Hq) as [_ Htok]. destruct (GameServer.I_key s HS _ _ Hq) as [Hid ?].
    split; [eapply (ok_lobby_insert s); [exact HK|done|]; split; [by intros ? [= <-]|done]|].
    constructor; [split; [done|]; apply login_law; [lia|by rewrite <- Etok]|]. apply Forall_app.
    split; [|by apply enqueue_ok]. by apply (to_room_ok s sq (Room.ARebind q c)).
  - by eapply match_ok.
  - unfold GameServer.onInput in H. destruct (GameServer.sessionOf c s) as [[q sq]|]; [|by inv H].
    destruct (negb _); [by inv H|]. destruct (GameServer.rooms_ s !! _); inv H; [|done]. split; [done|].
    constructor; [apply Hev|done].
  - simpl in H. inv H. split; [|done]. destruct (GameServer.sessionOf c s) as [[q sq]|] eqn:Es; [|done].
    apply GameServer.sessionOf_inv in Es as (Hq & _); [|done]. eapply (ok_lobby_insert s); [exact HK|done|].
    by apply (HK q sq).
  - destruct (GameServer.onDisconnect_inv (GameServer.connName c) a s HS) as [(q & sq & _ & Hq & Heq)|[_ Heq]];
      [|by rewrite Heq in H; inv H].
    destruct (GameServer.parted _ _ _ _) as [ss' qu] eqn:Ep. rewrite Heq in H.
    apply pair_equal_spec in H as [_ H]; apply pair_equal_spec in H as [<- <-].
    assert (s_conn ss' = None /\ GameServer.token ss' = GameServer.token sq) as [Hn Ht].
    { unfold GameServer.parted in Ep. destruct (decide (GameServer.state sq = GameServer.kMatching)); by inv Ep. }
    split; [eapply (ok_lobby_insert s); [exact HK|done|]; split; [simpl; congruence|simpl; rewrite Ht; by apply (HK q sq)]|].
    apply Forall_app. split; [by apply (to_room_ok s sq (Room.ADrop q))|by apply enqueue_ok].
  - unfold GameServer.onRoomEnd in H. destruct (foldl _ _ _) as [[wa la] m'] eqn:Ef. cbn [TimerWheel.spec_interp] in H.
    apply pair_equal_spec in H as [_ H]; apply pair_equal_spec in H as [<- <-]. split.
    + intros p x Hx. simpl in Hx. destruct (room_end_conns _ _ _ _ _ _ _ _ _ Ef _ _ Hx) as (y & Hy & Hc & Ht).
      destruct (HK p y Hy) as [Hyc Hyt]. split; [by rewrite Hc|by rewrite Ht].
    + destruct (_ && _); [by apply enqueue_ok|done].
  - destruct H as (l & _ & _ & H). simpl in H. symmetry in H. by eapply (fire_ok _ _ _ _ _ _ _ _ (GameServer.LInv_later a s HI) H).
Qed.

End Lobby.

(** ** The system *)

Lemma emit_ok e : Forall ok_effect e -> Forall ok_out (omap System.emit e).
Proof.
  induction 1 as [|x e Hx _ IH]; [constructor|]. destruct x; cbn [omap list_omap System.emit] in *; try exact IH; constructor; try exact IH; exact Hx.
Qed.

Lemma deliver_ok e s : ok_sys s -> Forall ok_effect e -> ok_sys (System.deliver e s).
Proof.
  intros [HS HR HT] He. unfold System.deliver. split; cbn [System.lob System.rooms System.tasks]; [exact HS| |].
  - clear HT HS. revert HR. generalize (System.rooms s). induction He as [|x e Hx _ IH]; intros m HR; [exact HR|].
    cbn [foldl]. apply IH. destruct x; cbn [System.add_room]; try exact HR. intros rid' l' r.
    intros [[_ [= _ <-]]|[_ Hr]]%lookup_insert_Some; [exact Hx|by eapply HR].
  - intros l rid a Ha. apply System.elem_of_posted in Ha as [Ha|Ha]; [by eapply HT|].
    rewrite Forall_forall in He. exact (He _ Ha).
Qed.

Lemma run_room_ok {HO : HashOrder} {LM : Libm} rid a s :
  ok_sys s -> ok_action a -> ok_sys (System.run_room rid a s).1 /\ Forall ok_out (System.run_room rid a s).2.
Proof.
  intros [HS HR HT] Ha. unfold System.run_room. destruct (System.rooms s !! rid) as [[l r]|] eqn:Er; [|by split].
  destruct (Room.exec a r) as [r1 e] eqn:E. destruct (room_law _ _ _ _ E (HR _ _ _ Er) Ha) as [HK1 He]. cbn [fst snd]. split.
  - unfold System.deliver_room. split; cbn [System.lob System.rooms System.tasks]; [exact HS| |].
    + intros rid' l' r' [[_ [= _ <-]]|[_ Hr]]%lookup_insert_Some; [exact HK1|by eapply HR].
    + clear He E. revert HT. generalize (System.tasks s). induction e as [|x e IH]; intros q HT; [exact HT|]. cbn [foldl]. apply IH.
      destruct x; cbn [System.post_reset]; try exact HT. intros l' rid' b Hb. rewrite System.queue_push in Hb.
      destruct (decide (l' = l)); [|by eapply HT]. apply elem_of_app in Hb as [Hb|Hb]; [by eapply HT|].
      apply list_elem_of_singleton in Hb. by inv Hb.
  - clear -He. induction He as [|x e Hx _ IH]; [constructor|]. destruct x; cbn [omap list_omap System.emit_room]; try exact IH.
    constructor; [exact Hx|exact IH].
Qed.

(** A lobby handler of the system. *)
Lemma run_lobby_ok {HO : HashOrder} ev s s1 o :
  GameServer.Lobby (System.lob s) -> GameServer.in_time (System.lob s) -> GameServer.event_ok ev ->
  System.run_lobby ev s = Ok (s1, o) -> ok_sys s -> ok_event ev ->
  ok_sys s1 /\
  match ev with
  | GameServer.EvHeartbeat c ms _ => o = [System.OSend c (MHeartbeat ms)]
  | _ => Forall ok_out o
  end.
Proof.
  intros HL Ht Hok Hex [HS HR HT] Hev. unfold System.run_lobby in Hex.
  destruct (GameServer.exec ev (System.lob s)) as [[l' e]|] eqn:E; cbn [res_bind] in Hex; [|done].
  destruct (_ && _); [done|]. apply Ok_inj in Hex. inv Hex.
  destruct (GameServer.exec_sstep _ _ _ _ HL Ht Hok E) as (_ & _ & Hs).
  destruct (sstep_ok _ _ _ _ _ _ (GameServer.L_inv _ HL) Hs Hev HS) as [HS' He].
  assert (forall s0, System.rooms s0 = System.rooms s -> System.tasks s0 = System.tasks s -> System.lob s0 = l' -> ok_sys s0) as Hs0.
  { intros s0 E1 E2 E3. split; rewrite ?E1, ?E2, ?E3; done. }
  destruct ev as [c acc now r1 r2|c q tok now|c|c i|c ms now|c|r wn|now];
    try (split; [apply deliver_ok; [by apply Hs0|exact He]|by apply emit_ok]).
  subst e. cbn. split; [|done]. apply Hs0; done.
Qed.

(** Every step of the system keeps to the connections it was given. *)
Lemma flow_step {HO : HashOrder} {LM : Libm} x s s1 o :
  System.SInv s -> GameServer.in_time (System.lob s) -> System.label_ok x -> System.exec x s = Ok (s1, o) ->
  ok_sys s -> ok_label x ->
  ok_sys s1 /\
  match x with
  | System.LLobby (GameServer.EvHeartbeat c ms _) => o = [System.OSend c (MHeartbeat ms)]
  | _ => Forall ok_out o
  end.
Proof.
  intros HI Ht Hx Hex HK Hl. pose proof (System.S_lobby s HI) as HL. destruct x as [ev| |l|rid|]; cbn [System.exec] in Hex.
  - apply (run_lobby_ok ev s s1 o HL Ht) in Hex; [exact Hex|by destruct ev|done|done].
  - destruct (System.lq s) as [|[rid w|] rest] eqn:Eq; [inv Hex; split; [exact HK|constructor]| |].
    2: { inv Hex. split; [by destruct HK|constructor]. }
    assert (GameServer.event_ok (GameServer.EvRoomEnd rid w)) as Hev.
    { assert (rid ∈ System.ended_ids (System.lq s)) as (_ & l & r & Hr & _)%(System.S_end s HI) by (rewrite Eq; left).
      pose proof (System.R_id _ _ _ _ _ (System.S_room s HI _ _ _ Hr)). simpl. lia. }
    eapply (run_lobby_ok _ _ _ _) in Hex; [exact Hex|done|done|done| |done]. by destruct HK.
  - apply Ok_inj in Hex. unfold System.run_task in Hex. destruct (System.queue_of l (System.tasks s)) as [|[rid a] rest] eqn:Eq;
      [inv Hex; split; [exact HK|constructor]|].
    assert (ok_sys (System.set_tasks (<[l := rest]> (System.tasks s)) s)) as HK'.
    { destruct HK as [HS HR HT]. split; [done|done|]. intros l' rid' b Hb. cbn in Hb. rewrite System.queue_insert in Hb.
      destruct (decide (l' = l)) as [->|]; [|by eapply HT]. apply (HT l rid'). rewrite Eq. by right. }
    assert (ok_action a) as Ha by (apply (Ok_tasks s HK l rid); rewrite Eq; left).
    destruct (run_room_ok rid a _ HK' Ha) as [H1 H2]. destruct (System.run_room rid a _) as [s2 o2]. cbn [fst snd] in *.
    destruct a; inv Hex; try (split; assumption). split; [|exact H2]. unfold System.finishOne.
    destruct (System.remain s2); [|exact H1]. by destruct H1.
  - apply Ok_inj in Hex. destruct (run_room_ok rid Room.ATick s HK I) as [H1 H2]. rewrite Hex in H1, H2. done.
  - done.
Qed.

Lemma ok_sys_boot n st : ok_sys (System.boot n st).
Proof.
  split.
  - intros p ss H. unfold System.boot in H. change (sessions_ _) with (∅ : gmap Z GameServer.Session) in H. by rewrite lookup_empty in H.
  - intros rid l r H. simpl in H. by rewrite lookup_empty in H.
  - intros l rid a H. unfold System.queue_of in H. simpl in H. rewrite lookup_empty in H. by apply not_elem_of_nil in H.
Qed.

End Flow.
End Flow.

(** ** The first policy: connections the game was given *)

Module Origin.

Definition is_heartbeat (m : server_msg) : bool := match m with MHeartbeat _ => true | _ => false end.

Section Origin.
Context (K : GameServer.conn -> Prop).

Definition room_in (r : Room.t) : Prop := forall pid c, Room.conns_ r !! pid = Some (Some c) -> K c.

Definition policy : Policy := {|
  ok_conn := K;
  ok_msg m := is_heartbeat m = false;
  ok_token _ := True;
  ok_input _ := True;
  ok_room := room_in;
|}.

#[local] Existing Instance policy.

Lemma broadcast_in {HO : HashOrder} m r :
  room_in r -> is_heartbeat m = false -> Forall Flow.ok_room_effect (Room.broadcast m r).
Proof.
  intros HK Hm. apply Forall_flat_map, Forall_forall. intros p _. destruct (Room.conns_ r !! p) as [[c|]|] eqn:E; [|done..].
  repeat constructor; [by eapply HK|done].
Qed.

Lemma endBattle_in {HO : HashOrder} w r : room_in r -> Forall Flow.ok_room_effect (snd (Room.endBattle w r)).
Proof. intros HK. simpl. apply Forall_app. split; [by apply broadcast_in|by repeat constructor]. Qed.

Lemma room_step_in {HO : HashOrder} {LM : Libm} a r r1 e :
  Room.exec a r = (r1, e) -> room_in r -> Flow.ok_action a -> room_in r1 /\ Forall Flow.ok_room_effect e.
Proof.
  intros He HK Ha. split.
  { intros p c Hp. rewrite (System.exec_conns _ _ _ _ _ He) in Hp.
    destruct (Room.conns_ r !! p) as [oc|] eqn:E; [|done]. cbn in Hp.
    destruct a as [|q i|q k|q|w| | |]; cbn in Hp; try (destruct (decide (q = p))); injection Hp as Hp; subst; try done;
      by eapply HK. }
  destruct a as [|q i|q k|q|w| | |]; cbn [Room.exec] in He.
  - unfold Room.start in He. inv He. apply Forall_app. split; [by apply broadcast_in|].
    apply Forall_flat_map, Forall_forall. intros p _. destruct (Room.conns_ r !! p) as [[c|]|] eqn:E; [|done..].
    repeat constructor. by eapply HK.
  - unfold Room.onInput in He. destruct (Room.ended_ r); by inv He.
  - unfold Room.rebind in He. destruct (Room.conns_ r !! q); inv He; by repeat constructor.
  - unfold Room.dropConn in He. destruct (Room.conns_ r !! q); by inv He.
  - unfold Room.forceEnd in He. destruct (Room.ended_ r); [by inv He|]. pose proof (endBattle_in w r HK) as H.
    rewrite He in H. exact H.
  - by inv He.
  - destruct (Room.ticker_ r); [|by inv He]. unfold Room.onTick in He. destruct (Room.ended_ r); [by inv He|].
    destruct (BattleSim.step _ _) as [changed sim1]. destruct (BattleSim.takeRemovedProjectileIds sim1) as [removed sim2].
    set (r0 := Room.set_sim sim2 _) in He. assert (room_in r0) as HK0 by exact HK.
    assert (Forall Flow.ok_room_effect (Room.tick_output changed (BattleSim.projectileIds sim1) removed r0)) as Ho.
    { unfold Room.tick_output. repeat dmatch; try done; by apply broadcast_in. }
    destruct (_ =? 0); [by inv He|]. pose proof (endBattle_in (BattleSim.winnerOrZero sim2) r0 HK0) as H.
    destruct (Room.endBattle _ r0) as [r2 e2]. inv He. by apply Forall_app.
  - by inv He.
Qed.

Lemma make_in rid ps : (forall p c, (p, Some c) ∈ ps -> K c) -> room_in (Room.make rid ps).
Proof.
  intros H. unfold Room.make.
  enough (forall sim (conns : gmap Z (option Room.conn)) i, (forall p c, conns !! p = Some (Some c) -> K c) ->
    forall p c, (foldl (fun '(sim, conns, i) '(pid, c) =>
             (BattleSim.addPlayer pid (Room.spawn_x i) (f32_of_Z 50) sim, <[pid := c]> conns, i + 1))
          (sim, conns, i) ps).1.2 !! p = Some (Some c) -> K c) as Hf.
  { specialize (Hf BattleSim.init ∅ 0). destruct (foldl _ _ ps) as [[sim conns] i]. intros p c Hp. apply (Hf ltac:(done) p c Hp). }
  induction ps as [|[q oc] ps IH]; intros sim conns i Hc; [exact Hc|]. cbn [foldl]. apply IH.
  - intros p c Hp. apply (H p c). by right.
  - intros p c [[_ ->]|[_ Hp]]%lookup_insert_Some; [apply (H q c); by left|by eapply Hc].
Qed.

#[local] Instance laws : Flow.Laws policy.
Proof.
  split; try done.
  - intros. apply make_in. intros p c [[= _ ->]|[[= _ ->]|[]%not_elem_of_nil]%elem_of_cons]%elem_of_cons; done.
  - intros HO LM a r r1 e. apply room_step_in.
Qed.

End Origin.

Notation sys_in K := (@Flow.ok_sys (policy K)).
Notation out_in K := (@Flow.ok_out (policy K)).
Notation label_in K := (@Flow.ok_label (policy K)).

Lemma sys_in_boot K n st : sys_in K (System.boot n st).
Proof. apply Flow.ok_sys_boot. Qed.

(** Every step of the system keeps to the connections it was given. *)
Lemma sys_in_step (K : GameServer.conn -> Prop) {HO : HashOrder} {LM : Libm} x s s1 o :
  System.SInv s -> GameServer.in_time (System.lob s) -> System.label_ok x -> System.exec x s = Ok (s1, o) ->
  sys_in K s -> label_in K x ->
  sys_in K s1 /\
  match x with
  | System.LLobby (GameServer.EvHeartbeat c ms _) => o = [System.OSend c (MHeartbeat ms)]
  | _ => Forall (out_in K) o
  end.
Proof. apply (@Flow.flow_step (policy K) (laws K)). Qed.

(** More connections. *)
Lemma sys_in_mono (K K' : GameServer.conn -> Prop) s : (forall c, K c -> K' c) -> sys_in K s -> sys_in K' s.
Proof.
  intros H [HS HR HT]. split.
  - intros p ss Hp. destruct (HS p ss Hp) as [Hc _]. split; [|done]. intros c ?. by apply H, Hc.
  - intros rid l r Hr p c Hp. eapply H, HR; done.
  - intros l rid a Ha. specialize (HT l rid a Ha). destruct a; try done. by apply H.
Qed.

End Origin.
