(* ===== verification/Typing.v ===== *)
(** * The messages of the game are well typed ([game.proto], [GameServer.cc], [Room.cc])

    The second policy of [Flow]: what a message of the server must look like for
    a client to rely on it. Nothing in the protobuf schema says that a [LoginResp]
    with code 0 carries a player id other than 0 and a token of 32 hexadecimal
    digits, that an [EnterRoom] names a room and two different players or neither,
    or that a snapshot lists no player and no projectile twice, no removed
    projectile among the living ones, and an hp between 0 and 100. [typed] says
    it, [typed_room] is the invariant of rooms that gives it for snapshots, and
    the theorem concludes it for every message of every run of lobby and rooms. *)

From stdpp Require Import base gmap sets list sorting strings.
From Stdlib Require Import ZArith Lia.
From S2P Require Import Prelude MatchQueue TimerWheel LoopPool Float32 Proto BattleSim Room GameServer System Flow.

Local Open Scope Z_scope.

Module Typing.

(** ** Types of messages *)

(** [uint32] and [int64] fields. *)
Definition is_u32 (z : Z) : Prop := 0 <= z < 2 ^ 32.

Definition is_i64 (z : Z) : Prop := - 2 ^ 63 <= z < 2 ^ 63.

Definition is_hex (a : Ascii.ascii) : Prop := exists n, 0 <= n < 16 /\ a = GameServer.hex_digit n.

Fixpoint all_hex (s : string) : Prop :=
  match s with EmptyString => True | String a s => is_hex a /\ all_hex s end.

Definition typed_token (s : string) : Prop := String.length s = 32%nat /\ all_hex s.

Record typed_player (p : PlayerState) : Prop := mkTypedPlayer {
  tp_id : 0 < ps_player_id p;
  tp_hp : 0 <= ps_hp p <= BattleSim.kMaxHp;
  tp_seq : is_u32 (ps_last_input_seq p);
}.

Record typed_projectile (p : ProjectileState) : Prop := mkTypedProjectile {
  tj_id : 0 < pj_projectile_id p;
  tj_owner : 0 < pj_owner_id p;
}.

Record typed_snapshot (s : StateSnapshot) : Prop := mkTypedSnapshot {
  ts_tick : is_u32 (ss_tick s);
  ts_players : Forall typed_player (ss_players s);
  ts_player_ids : NoDup (map ps_player_id (ss_players s));
  ts_projectiles : Forall typed_projectile (ss_projectiles s);
  ts_projectile_ids : NoDup (map pj_projectile_id (ss_projectiles s) ++ ss_removed_projectile_ids s);
  ts_removed : Forall (fun pid => 0 < pid) (ss_removed_projectile_ids s);
  ts_full : ss_full s = true -> length (ss_players s) = 2%nat /\ ss_removed_projectile_ids s = [];
}.

(** [EnterRoom 0] tells that no opponent was found in time. *)
Definition typed (m : server_msg) : Prop :=
  match m with
  | MLoginResp code pid tok => (code = 0 /\ 0 < pid /\ typed_token tok) \/ (code = 1 /\ pid = 0 /\ tok = EmptyString)
  | MEnterRoom rid ids =>
      (rid = 0 /\ ids = []) \/ (0 < rid /\ length ids = 2%nat /\ NoDup ids /\ Forall (fun pid => 0 < pid) ids)
  | MStateSnapshot s => typed_snapshot s
  | MBattleEnd w => 0 <= w
  | MHeartbeat ms => is_i64 ms
  | MLeaderboardResp _ => False
  end.

(** ** Types of states *)

Record typed_sim (s : BattleSim.t) : Prop := mkTypedSim {
  ty_wf : BattleSim.wf s;
  ty_two : size (BattleSim.players_ s) = 2%nat;
  ty_player : forall id p, BattleSim.players_ s !! id = Some p ->
    0 < id /\ 0 <= BattleSim.hp p <= BattleSim.kMaxHp /\ is_u32 (BattleSim.seq p);
  ty_projectile : forall pid pr, BattleSim.projectiles_ s !! pid = Some pr ->
    0 < pid /\ is_Some (BattleSim.players_ s !! BattleSim.ownerId pr);
  ty_next : 0 < BattleSim.nextProjectileId_ s;
}.

Record typed_room (r : Room.t) : Prop := mkTypedRoom {
  ty_id : 0 < Room.id_ r;
  ty_tick : is_u32 (Room.tick_ r);
  ty_sim : typed_sim (Room.sim_ r);
}.

#[local] Instance policy : Policy := {|
  ok_conn _ := True;
  ok_msg := typed;
  ok_token := typed_token;
  ok_input i := is_u32 (in_seq i);
  ok_room := typed_room;
|}.

(** ** Tokens *)

Lemma all_hex_app s s' : all_hex s -> all_hex s' -> all_hex (s +:+ s').
Proof. intros H H'. induction s as [|a s IH]; [exact H'|]. destruct H. split; [done|by apply IH]. Qed.

Lemma hex_digits_typed k n acc :
  all_hex acc -> all_hex (GameServer.hex_digits k n acc) /\
    String.length (GameServer.hex_digits k n acc) = (k + String.length acc)%nat.
Proof.
  revert n acc. induction k as [|k IH]; intros n acc H; cbn [GameServer.hex_digits]; [done|].
  destruct (IH (n / 16) (String (GameServer.hex_digit (n mod 16)) acc)) as [H1 H2].
  - split; [|done]. exists (n mod 16). split; [|done]. apply Z.mod_pos_bound. lia.
  - split; [exact H1|]. rewrite H2. cbn [String.length]. lia.
Qed.

Lemma string_length_app s s' : String.length (s +:+ s') = (String.length s + String.length s')%nat.
Proof. induction s as [|a s IH]; [done|]. cbn. by rewrite <- IH. Qed.

Lemma genToken_typed a b : typed_token (GameServer.genToken a b).
Proof.
  destruct (hex_digits_typed 16 (u64 a) EmptyString I) as [H1 L1]. destruct (hex_digits_typed 16 (u64 b) EmptyString I) as [H2 L2].
  unfold GameServer.genToken. split; [|by apply all_hex_app]. by rewrite string_length_app, L1, L2.
Qed.

(** ** The simulation *)

Section Sim.
Context {HO : HashOrder} {LM : Libm}.

Lemma moved_seq dt p : BattleSim.seq (BattleSim.moved dt p) = BattleSim.seq p.
Proof. unfold BattleSim.moved, BattleSim.move_player. repeat (dmatch; simpl; try done). Qed.

Lemma acted_seq dtMs p : BattleSim.seq (BattleSim.acted dtMs p) = BattleSim.seq p.
Proof. unfold BattleSim.acted, BattleSim.shoot. destruct (BattleSim.wants_attack _); simpl; apply moved_seq. Qed.

Lemma firing_player dtMs s id : id ∈ BattleSim.firing dtMs s -> is_Some (BattleSim.players_ s !! id).
Proof. unfold BattleSim.firing, BattleSim.shooters. intros [_ H]%list_elem_of_filter. by apply elem_of_hash_order_dom in H. Qed.

(** A step keeps the players. *)
Lemma step_dom dtMs s ch s' :
  BattleSim.step dtMs s = (ch, s') -> BattleSim.wf s -> dom (BattleSim.players_ s') = dom (BattleSim.players_ s).
Proof.
  intros Hs Hwf. apply set_eq. intros id. rewrite !elem_of_dom. pose proof (BattleSim.step_players _ _ _ _ id Hs Hwf) as H.
  destruct (BattleSim.players_ s !! id) as [p|]; [destruct H as (h & -> & _)|destruct H as [-> _]]; split; by intros [].
Qed.

Lemma step_typed dtMs s ch s' :
  BattleSim.step dtMs s = (ch, s') -> typed_sim s ->
  typed_sim s' /\ (forall pid, pid ∈ BattleSim.removedProjectileIds_ s' -> 0 < pid /\ BattleSim.projectiles_ s' !! pid = None).
Proof.
  intros Hs [Hwf H2 Hp Hj Hn]. pose proof (step_dom _ _ _ _ Hs Hwf) as Hd.
  destruct (BattleSim.step_projectiles _ _ _ _ Hs Hwf) as (Hnext & _ & Hrem & Hold & Hnew & Hout).
  assert (forall id, is_Some (BattleSim.players_ s !! id) -> is_Some (BattleSim.players_ s' !! id)) as Hdom.
  { intros id. by rewrite <- !elem_of_dom, Hd. }
  split; [split|].
  - by eapply BattleSim.wf_step.
  - by rewrite <- size_dom, Hd, size_dom.
  - intros id p' Hp'. pose proof (BattleSim.step_players _ _ _ _ id Hs Hwf) as H.
    destruct (BattleSim.players_ s !! id) as [p|] eqn:Ep; [|by destruct H as [H _]; rewrite H in Hp'].
    destruct H as (h & H & (Hle & Hpos & _) & _). rewrite H in Hp'. injection Hp' as <-. destruct (Hp id p Ep) as (? & ? & Hq).
    rewrite BattleSim.moved_hp in Hle, Hpos. cbn [BattleSim.set_hp BattleSim.hp BattleSim.seq]. rewrite acted_seq.
    split; [done|]. split; [lia|exact Hq].
  - intros pid pr Hpr. destruct (decide (pid < BattleSim.nextProjectileId_ s)) as [Hlt|Hge].
    + destruct (decide (pid ∈ BattleSim.removedProjectileIds_ s')) as [Hr|Hr]; [apply Hrem in Hr as [_ Hr]; congruence|].
      specialize (Hold pid Hr Hlt). destruct (BattleSim.projectiles_ s !! pid) as [pr0|] eqn:E0; [|congruence].
      destruct Hold as (pr' & Hpr' & _ & Ho). destruct (Hj _ _ E0) as [? Hown]. split; [done|]. apply Hdom.
      replace pr with pr' by congruence. by rewrite Ho.
    + split; [lia|]. destruct (decide (BattleSim.nextProjectileId_ s' <= pid)) as [Hb|Hb]; [rewrite Hout in Hpr by done; done|].
      destruct (Hnew pid ltac:(lia)) as (pr' & Hpr' & _ & Hf). replace pr with pr' by congruence.
      apply Hdom, (firing_player dtMs). by eapply list_elem_of_lookup_2.
  - lia.
  - intros pid Hr. destruct (Hrem pid Hr) as [[pr Hpr] Hgone]. split; [|done]. by apply (Hj pid pr).
Qed.

Lemma applyInput_typed pid i s : typed_sim s -> is_u32 (in_seq i) -> typed_sim (BattleSim.applyInput pid i s).
Proof.
  intros HT Hi. pose proof (BattleSim.wf_input pid i s (ty_wf s HT)) as Hwf. destruct HT as [_ H2 Hp Hj Hn].
  unfold BattleSim.applyInput in *. destruct (BattleSim.players_ s !! pid) as [p|] eqn:E; [|by split].
  split; cbn [BattleSim.players_ BattleSim.projectiles_ BattleSim.nextProjectileId_]; [exact Hwf| | | |exact Hn].
  - rewrite map_size_insert, E. exact H2.
  - intros id q [[<- <-]|[_ Hq]]%lookup_insert_Some; [|by apply Hp]. cbn. destruct (Hp _ _ E) as (? & ? & _). split; [done|]. split; [done|exact Hi].
  - intros jid pr Hpr. destruct (Hj _ _ Hpr) as [? Ho]. split; [done|]. apply lookup_insert_is_Some. destruct (decide (pid = BattleSim.ownerId pr)); auto.
Qed.

(** ** Snapshots *)

Lemma fillState_typed s pid :
  typed_sim s -> is_Some (BattleSim.players_ s !! pid) ->
  typed_player (BattleSim.fillState s pid default_PlayerState) /\
  ps_player_id (BattleSim.fillState s pid default_PlayerState) = pid.
Proof.
  intros HT [p Hp]. rewrite (Room.fillState_key s pid p (ty_wf s HT) Hp). destruct (ty_player s HT _ _ Hp) as (? & ? & ?). by split.
Qed.

Lemma fillProjectileState_typed s pid :
  typed_sim s -> is_Some (BattleSim.projectiles_ s !! pid) ->
  typed_projectile (BattleSim.fillProjectileState s pid default_ProjectileState) /\
  pj_projectile_id (BattleSim.fillProjectileState s pid default_ProjectileState) = pid.
Proof.
  intros HT [p Hp]. rewrite (Room.fillProjectileState_key s pid p (ty_wf s HT) Hp). destruct (ty_projectile s HT _ _ Hp) as [? [q Hq]].
  split; [|done]. split; [done|]. by apply (ty_player s HT _ _ Hq).
Qed.

Lemma sorted_NoDup (l : list Z) : StronglySorted Z.lt l -> NoDup l.
Proof.
  induction 1 as [|x l _ IH Hf]; constructor; [|exact IH]. intros Hx. rewrite Forall_forall in Hf. specialize (Hf x Hx). lia.
Qed.

(** The list a loop over ids fills. *)
Lemma filled {A} (T : A -> Prop) (f : Z -> A) (key : A -> Z) (l : list Z) :
  (forall x, x ∈ l -> T (f x) /\ key (f x) = x) -> Forall T (map f l) /\ map key (map f l) = l.
Proof.
  induction l as [|x l IH]; intros H; [by split|]. destruct (H x (list_elem_of_here _ _)) as [H1 H2].
  destruct IH as [H3 H4]; [intros y Hy; apply H; by right|]. cbn [map]. rewrite H2, H4. split; [by constructor|done].
Qed.

Lemma players_typed s l :
  typed_sim s -> (forall x, x ∈ l -> is_Some (BattleSim.players_ s !! x)) ->
  Forall typed_player (map (fun pid => BattleSim.fillState s pid default_PlayerState) l) /\
  map ps_player_id (map (fun pid => BattleSim.fillState s pid default_PlayerState) l) = l.
Proof. intros HT H. apply filled. intros x Hx. by apply fillState_typed, H. Qed.

Lemma projectiles_typed s :
  typed_sim s ->
  Forall typed_projectile (map (fun pid => BattleSim.fillProjectileState s pid default_ProjectileState) (BattleSim.projectileIds s)) /\
  map pj_projectile_id (map (fun pid => BattleSim.fillProjectileState s pid default_ProjectileState) (BattleSim.projectileIds s)) =
    BattleSim.projectileIds s.
Proof. intros HT. apply filled. intros x Hx%elem_of_hash_order_dom. by apply fillProjectileState_typed. Qed.

Lemma playerIds_typed s :
  typed_sim s -> length (BattleSim.playerIds s) = 2%nat /\ NoDup (BattleSim.playerIds s) /\
    (forall pid, pid ∈ BattleSim.playerIds s -> 0 < pid).
Proof.
  intros HT. unfold BattleSim.playerIds. split_and!; [|apply NoDup_hash_order|].
  - rewrite hash_order_perm. change (length (elements ?X)) with (size X). by rewrite size_dom, (ty_two s HT).
  - intros pid [p Hp]%elem_of_hash_order_dom. by apply (ty_player s HT _ _ Hp).
Qed.

Lemma enter_room_typed r : typed_room r -> typed (Room.enter_room r).
Proof.
  intros [Hid _ HT]. right. destruct (playerIds_typed _ HT) as (? & ? & ?). split_and!; [done..|]. by apply Forall_forall.
Qed.

Lemma full_snapshot_typed r : typed_room r -> typed_snapshot (Room.full_snapshot r).
Proof.
  intros [_ Ht HT]. destruct (playerIds_typed _ HT) as (Hl & Hnd & _). destruct (projectiles_typed _ HT) as [Hj Ej].
  destruct (players_typed _ (BattleSim.playerIds (Room.sim_ r)) HT) as [Hp Ep]; [by intros x Hx%elem_of_hash_order_dom|].
  split; cbn [Room.full_snapshot ss_tick ss_full ss_players ss_projectiles ss_removed_projectile_ids]; try done.
  - by rewrite Ep.
  - rewrite Ej, app_nil_r. apply NoDup_hash_order.
  - intros _. by rewrite length_map.
Qed.

(** The increment of a tick, from the simulation before and after [step]. *)
Lemma delta_snapshot_typed dtMs s ch s' tick :
  BattleSim.step dtMs s = (ch, s') -> typed_sim s -> is_u32 tick ->
  typed_snapshot (Room.delta_snapshot tick ch (BattleSim.projectileIds s') (BattleSim.removedProjectileIds_ s')
                    (snd (BattleSim.takeRemovedProjectileIds s'))).
Proof.
  intros Hs HT Ht. destruct (step_typed _ _ _ _ Hs HT) as [HT' Hr]. destruct (projectiles_typed _ HT') as [Hj Ej].
  destruct (BattleSim.step_projectiles _ _ _ _ Hs (ty_wf s HT)) as (_ & Hnd & _).
  destruct (players_typed s' ch HT') as [Hp Ep].
  { intros x Hx. pose proof (BattleSim.step_players _ _ _ _ x Hs (ty_wf s HT)) as H.
    destruct (BattleSim.players_ s !! x) as [p|]; [destruct H as (h & -> & _); by eexists|by destruct H]. }
  split; cbn [Room.delta_snapshot ss_tick ss_full ss_players ss_projectiles ss_removed_projectile_ids]; try done.
  - change (NoDup (map ps_player_id (map (fun pid => BattleSim.fillState s' pid default_PlayerState) ch))). rewrite Ep.
    apply sorted_NoDup. by eapply BattleSim.step_sorted.
  - apply NoDup_app. change (map _ (map _ _)) with
      (map pj_projectile_id (map (fun pid => BattleSim.fillProjectileState s' pid default_ProjectileState) (BattleSim.projectileIds s'))).
    rewrite Ej. split_and!; [apply NoDup_hash_order| |done]. intros x [p Hx]%elem_of_hash_order_dom [_ Hg]%Hr. congruence.
  - apply Forall_forall. intros x Hx. by apply Hr.
Qed.

(** ** Rooms *)

Lemma winnerOrZero_nonneg s : typed_sim s -> 0 <= BattleSim.winnerOrZero s.
Proof.
  intros HT. rewrite BattleSim.winner_fold. destruct (filter _ _) as [|w [|]] eqn:E; try lia.
  assert (w ∈ [w]) as Hw by left. rewrite <- E in Hw. apply list_elem_of_filter in Hw as [_ [p Hp]%elem_of_hash_order_dom].
  pose proof (proj1 (ty_player s HT _ _ Hp)). lia.
Qed.

Lemma broadcast_typed m r : typed m -> Forall Flow.ok_room_effect (Room.broadcast m r).
Proof.
  intros Hm. apply Forall_flat_map, Forall_forall. intros p _. destruct (Room.conns_ r !! p) as [[c|]|]; [|by constructor..].
  by apply Forall_singleton.
Qed.

Lemma endBattle_typed w r : 0 <= w -> Forall Flow.ok_room_effect (snd (Room.endBattle w r)).
Proof. intros Hw. apply Forall_app. split; [by apply broadcast_typed|by repeat constructor]. Qed.

Lemma onTick_typed r r1 e :
  Room.onTick r = (r1, e) -> typed_room r -> typed_room r1 /\ Forall Flow.ok_room_effect e.
Proof.
  intros He HT. unfold Room.onTick in He. destruct (Room.ended_ r); [by inv He|]. destruct HT as [Hid _ Hsim].
  destruct (BattleSim.step Room.kTickMs (Room.sim_ r)) as [changed sim1] eqn:Es.
  pose proof (delta_snapshot_typed _ _ _ _ _ Es Hsim (u32_range (Room.tick_ r + 1))) as Hd.
  destruct (step_typed _ _ _ _ Es Hsim) as [[Hwf H2 Hp Hj Hn] _]. cbn [BattleSim.takeRemovedProjectileIds snd] in He, Hd.
  set (r0 := Room.set_sim _ _) in He. assert (typed_room r0) as H0.
  { split; [exact Hid|apply u32_range|]. split; try done. by apply (BattleSim.wf_take sim1). }
  assert (Forall Flow.ok_room_effect (Room.tick_output changed (BattleSim.projectileIds sim1) (BattleSim.removedProjectileIds_ sim1) r0)) as Ho.
  { unfold Room.tick_output. repeat dmatch; try done; by apply broadcast_typed. }
  destruct (_ =? 0); [by inv He|]. pose proof (endBattle_typed _ r0 (winnerOrZero_nonneg _ (ty_sim r0 H0))) as H.
  apply pair_equal_spec in He as [<- <-]. split; [by destruct H0|]. by apply Forall_app.
Qed.

Lemma room_step_typed a r r1 e :
  Room.exec a r = (r1, e) -> typed_room r -> Flow.ok_action a -> typed_room r1 /\ Forall Flow.ok_room_effect e.
Proof.
  intros He HT Ha. destruct a as [|q i|q k|q|w| | |]; cbn [Room.exec] in He.
  - unfold Room.start in He. inv He. split; [by destruct HT|]. apply Forall_app. split; [by apply broadcast_typed, enter_room_typed|].
    apply Forall_flat_map, Forall_forall. intros p _. destruct (Room.conns_ r !! p) as [[c|]|]; [|by constructor..].
    apply Forall_singleton. split; [done|by apply full_snapshot_typed].
  - unfold Room.onInput in He. destruct (Room.ended_ r); inv He; [done|]. split; [|done]. destruct HT as [Hid Ht Hs].
    split; [done|done|]. by apply applyInput_typed.
  - unfold Room.rebind in He. destruct (Room.conns_ r !! q); inv He; [|done].
    assert (typed_room (Room.set_conns (<[q:=Some k]> (Room.conns_ r)) r)) as H by by destruct HT. split; [exact H|].
    apply Forall_cons. split; [split; [done|by apply enter_room_typed]|].
    apply Forall_singleton. split; [done|by apply full_snapshot_typed].
  - unfold Room.dropConn in He. destruct (Room.conns_ r !! q); inv He; [|done]. by destruct HT.
  - unfold Room.forceEnd in He. destruct (Room.ended_ r); [by inv He|]. pose proof (endBattle_typed w r Ha) as H.
    rewrite He in H. split; [|exact H]. unfold Room.endBattle in He. inv He. by destruct HT.
  - inv He. by destruct HT.
  - destruct (Room.ticker_ r); [by eapply onTick_typed|by inv He].
  - inv He. by destruct HT.
Qed.

End Sim.

Lemma make_typed rid p1 c1 p2 c2 :
  0 < rid -> 0 < p1 -> 0 < p2 -> p1 <> p2 -> typed_room (Room.make rid [(p1, c1); (p2, c2)]).
Proof.
  intros Hr H1 H2 Hne. unfold Room.make. cbn [foldl]. split; cbn [Room.id_ Room.tick_ Room.sim_]; [done|by split|].
  set (s := BattleSim.addPlayer p2 _ _ _).
  assert (BattleSim.wf s) as Hwf by apply BattleSim.wf_add, BattleSim.wf_add, BattleSim.wf_init.
  split; [done| | | |by unfold s].
  - unfold s. cbn [BattleSim.addPlayer BattleSim.players_ BattleSim.init].
    by rewrite !map_size_insert, lookup_insert_ne, !lookup_empty, map_size_empty by done.
  - intros id p. unfold s. cbn [BattleSim.addPlayer BattleSim.players_ BattleSim.init].
    intros [[<- <-]|[_ [[<- <-]|[_ Hp]]%lookup_insert_Some]]%lookup_insert_Some; [by split_and!..|by rewrite lookup_empty in Hp].
  - intros pid pr Hp. unfold s in Hp. cbn [BattleSim.addPlayer BattleSim.projectiles_ BattleSim.init] in Hp. by rewrite lookup_empty in Hp.
Qed.

#[local] Instance laws : Flow.Laws policy.
Proof.
  split.
  - apply genToken_typed.
  - intros pid tok Hp Ht. by left.
  - by right.
  - by left.
  - intros. by apply make_typed.
  - intros HO LM a r r1 e. apply room_step_typed.
Qed.

(** ** Runs *)

(** What the network hands to the lobby comes out of protobuf messages: a
    heartbeat carries an [int64], an input a [uint32] sequence number. *)
Definition typed_label (x : System.label) : Prop :=
  match x with
  | System.LLobby (GameServer.EvHeartbeat _ ms _) => is_i64 ms
  | System.LLobby (GameServer.EvInput _ i) => is_u32 (in_seq i)
  | _ => True
  end.

Definition typed_out (o : System.out) : Prop := match o with System.OSend _ m => typed m | _ => True end.

Lemma sys_typed_step {HO : HashOrder} {LM : Libm} x s s1 o :
  System.SInv s -> GameServer.in_time (System.lob s) -> System.label_ok x -> System.exec x s = Ok (s1, o) ->
  Flow.ok_sys s -> typed_label x -> Flow.ok_sys s1 /\ Forall typed_out o.
Proof.
  intros HI Ht Hx He HK Hl. assert (Flow.ok_label x) as Hl' by (destruct x as [[]| | | |]; done).
  destruct (Flow.flow_step x s s1 o HI Ht Hx He HK Hl') as [HK1 Ho]. split; [exact HK1|].
  assert (Forall Flow.ok_out o -> Forall typed_out o) as Hw.
  { intros H. eapply Forall_impl; [exact H|]. intros [c m|c|[]]; try done. by intros [_ ?]. }
  destruct x as [[]| | | |]; try by apply Hw. subst o. by apply Forall_singleton.
Qed.

Lemma sys_typed_run s xs ends os s' :
  System.run s xs ends os s' -> System.SInv s -> Flow.ok_sys s -> Forall typed_label xs ->
  Flow.ok_sys s' /\ Forall typed_out os.
Proof.
  induction 1 as [s|s x s1 o xs ends os s2 HO LM Ht Hx He _ IH]; intros HI HK Hxs; [by split|].
  apply Forall_cons in Hxs as [Hl Hxs]. destruct (sys_typed_step _ _ _ _ HI Ht Hx He HK Hl) as [HK1 Ho].
  destruct (IH (System.SInv_step _ _ _ _ HI Ht Hx He) HK1 Hxs) as [HK2 Hos]. split; [exact HK2|]. by apply Forall_app.
Qed.

(** C14: Every message the game sends is well typed. Whatever clients do, as long as
    the fields they send are of the types of [game.proto]: a successful
    [LoginResp] carries a nonzero player id and a token of 32 hexadecimal digits,
    a failed one neither; an [EnterRoom] names a room and two different players
    or nothing at all; a snapshot lists no player twice, no projectile twice and
    no removed projectile as alive, every hp is between 0 and 100, every
    projectile has an owner, and a full snapshot has both players and no removed
    projectile; the rooms keep the invariant this rests on. *)
Theorem messages_are_well_typed n st xs ends os s
  (Hn : 0 < n < 2 ^ 31) (Hrun : System.run (System.boot n st) xs ends os s) (Hxs : Forall typed_label xs) :
  (forall c m, System.OSend c m ∈ os -> typed m) /\
  (forall rid l r, System.rooms s !! rid = Some (l, r) -> typed_room r).
Proof.
  destruct (sys_typed_run _ _ _ _ _ Hrun (System.SInv_boot n st Hn) (Flow.ok_sys_boot n st) Hxs) as [HK Hos]. split.
  - intros c m Hm. rewrite Forall_forall in Hos. exact (Hos _ Hm).
  - intros rid l r Hr. exact (Flow.Ok_rooms s HK _ _ _ Hr).
Qed.

(** Alice walks and fires at Bob for two ticks. *)
Definition skirmish : list System.label :=
  System.meet ++ [System.LLobby (GameServer.EvInput 1 BattleSim.walk_and_fire); System.LTask (Some 0);
                  System.LTick 1; System.LTick 1; System.LLobby (GameServer.EvHeartbeat 2 77 0)].

(** How many projectiles each snapshot sent on [c] shows. *)
Definition bullets_shown (c : GameServer.conn) (os : list System.out) : list nat :=
  omap (fun o => match o with
                 | System.OSend c' (MStateSnapshot sn) => if c' =? c then Some (length (ss_projectiles sn)) else None
                 | _ => None
                 end) os.

Lemma messages_are_well_typed_witness :
  exists s ends os, System.exec_all skirmish (System.boot 2 true) = Ok (s, ends, os) /\
    bullets_shown 2 os = [0; 1; 1]%nat /\
    (forall c m, System.OSend c m ∈ os -> typed m).
Proof.
  destruct (GameServer.is_ok (System.exec_all skirmish (System.boot 2 true))) as [[[s ends] os] Hex]; [vm_compute; reflexivity|].
  exists s, ends, os. split; [exact Hex|]. split.
  - assert (match System.exec_all skirmish (System.boot 2 true) with
            | Ok (_, _, os) => bullets_shown 2 os
            | UB => [] end = [0; 1; 1]%nat) as Hx by (vm_compute; reflexivity).
    rewrite Hex in Hx. exact Hx.
  - refine (proj1 (messages_are_well_typed 2 true skirmish ends os s ltac:(lia) (System.sys_run_exec_all _ _ _ _ _ Hex) _)).
    repeat constructor; vm_compute; intuition discriminate.
Defined.

End Typing.
