(* ===== verification/Shutdown.v ===== *)
(** * The shutdown of the server ([GameServer::~GameServer] in [GameServer.cc])

    The destructor runs a task on the lobby that posts [stop] to every room and
    waits for the last of them, which posts the end of the wait to the lobby
    ([System.close], [System.finishOne]). Here: what holds from that task on,
    with the loops running on and the tasks in their queues; and what a client's
    message does that reaches the lobby too late. *)

From stdpp Require Import base gmap sets list strings sorting relations.
From Stdlib Require Import ZArith Lia.
From S2P Require Import Prelude MatchQueue TimerWheel LoopPool Float32 Proto BattleSim Room GameServer System.

Module Shutdown.

Local Open Scope Z_scope.
Import EventLoopThreadPool(loop).
Import System.
Import GameServer(rooms_, PostRoom).

(** ** The invariant of the closing server *)

Definition stopping (as' : list Room.action) : Prop :=
  exists as1 as2, as' = as1 ++ Room.AStop :: as2 /\ Room.AStop ∉ as1 /\ Forall (fun a => a = Room.ATickerReset) as2.

Definition stopped (r : Room.t) (as' : list Room.action) : Prop :=
  Room.ended_ r = true /\ Room.ticker_ r = false /\ Forall (fun a => a = Room.ATickerReset) as'.

(** [ids] are the rooms to stop and [P] those that have not been stopped yet. *)
Record CInv (ids P : gset Z) (s : t) : Prop := mkCInv {
  K_sub : P ⊆ ids;
  K_remain : remain s = Some (Z.of_nat (size P));
  K_wait : forall rid, rid ∈ P -> exists l r, rooms s !! rid = Some (l, r) /\ stopping (acts rid (queue_of l (tasks s)));
  K_stop : forall rid, rid ∈ ids -> rid ∉ P ->
    exists l r, rooms s !! rid = Some (l, r) /\ stopped r (acts rid (queue_of l (tasks s)));
  K_other : forall rid l, rid ∉ ids -> Room.AStop ∉ acts rid (queue_of l (tasks s));
  K_task : forall l rid a, (rid, a) ∈ queue_of l (tasks s) -> exists r, rooms s !! rid = Some (l, r);
  K_done : (gone s = false /\ (P = ∅ <-> TFinish ∈ lq s)) \/ (gone s = true /\ P = ∅);
}.

Lemma stopping_app as1 as2 : stopping as1 -> Forall (fun a => a = Room.ATickerReset) as2 -> stopping (as1 ++ as2).
Proof.
  intros (x & y & -> & Hx & Hy) H2. exists x, (y ++ as2). rewrite <- app_assoc. split_and!; [done|done|by apply Forall_app].
Qed.

Lemma stopping_cons a as' :
  stopping (a :: as') -> (a = Room.AStop /\ Forall (fun a => a = Room.ATickerReset) as') \/ (a <> Room.AStop /\ stopping as').
Proof.
  intros ([|b x] & y & [= -> ->] & Hx & Hy); [by left|right]. apply not_elem_of_cons in Hx as [? Hx].
  split; [done|by exists x, y].
Qed.

Section Stopping.
Context {HO : HashOrder} {LM : Libm}.

(** What an action of a loop leaves in the queues. *)
Lemma reset_acts a r r1 e l rid q :
  Room.exec a r = (r1, e) -> 
  exists as2, Forall (fun a => a = Room.ATickerReset) as2 /\ (Room.ended_ r = true -> as2 = []) /\
    (forall l' rid', acts rid' (queue_of l' (foldl (post_reset l rid) q e)) =
       acts rid' (queue_of l' q) ++ (if decide (l' = l /\ rid' = rid) then as2 else [])) /\
    (forall l' x, x ∈ queue_of l' (foldl (post_reset l rid) q e) -> x ∈ queue_of l' q \/ l' = l /\ x.1 = rid).
Proof.
  intros He. assert (no_end e \/ Room.ended_ r = false /\ exists w, one_end (Room.id_ r) w e) as Hf.
  { assert (a = Room.AStop \/ a <> Room.AStop) as [->|Ha] by (destruct a; auto).
    - left. simpl in He. by inv He.
    - destruct (exec_fate _ _ _ _ He Ha) as [(_ & ? & _)|(? & _ & ? & _)]; [by left|right]. done. }
  destruct Hf as [[_ Hq]|(He0 & w & _ & Hq)].
  - exists []. split_and!; [done|done| |].
    + intros l' rid'. rewrite Hq. destruct (decide _); by rewrite app_nil_r.
    + intros l' x. rewrite Hq. auto.
  - exists [Room.ATickerReset]. split_and!; [by repeat constructor|congruence| |].
    + intros l' rid'. by rewrite Hq, acts_push.
    + intros l' x. rewrite Hq, queue_push. destruct (decide (l' = l)) as [->|]; [|auto].
      intros [?| ->%list_elem_of_singleton]%elem_of_app; auto.
Qed.

Lemma exec_stopped a r r1 e :
  Room.exec a r = (r1, e) -> Room.ended_ r = true -> Room.ticker_ r = false -> a = Room.ATickerReset \/ a = Room.ATick ->
  Room.ended_ r1 = true /\ Room.ticker_ r1 = false.
Proof.
  intros He Hend Htk Ha. destruct (Room.exec_ended _ _ _ _ He Hend) as (_ & -> & _).
  rewrite (exec_ticker _ _ _ _ He). split; [done|]. by destruct Ha as [->| ->].
Qed.

(** What room [rid], whose tasks go from [as0] to [as1] by the action [a], needs
    of the new state. *)
Lemma CInv_update ids P P' s rid l r r1 as1 q' s1 :
  CInv ids P s -> rooms s !! rid = Some (l, r) -> rooms s1 = <[rid := (l, r1)]> (rooms s) -> tasks s1 = q' ->
  P' = P \/ P' = P ∖ {[rid]} ->
  remain s1 = Some (Z.of_nat (size P')) ->
  acts rid (queue_of l q') = as1 ->
  (rid ∈ P' -> stopping as1) -> (rid ∈ ids -> rid ∉ P' -> stopped r1 as1) -> (rid ∉ ids -> Room.AStop ∉ as1) ->
  (forall rid' l', rid' <> rid -> acts rid' (queue_of l' q') = acts rid' (queue_of l' (tasks s))) ->
  (forall l' x, x ∈ queue_of l' q' -> x ∈ queue_of l' (tasks s) \/ l' = l /\ x.1 = rid) ->
  (gone s1 = false /\ (P' = ∅ <-> TFinish ∈ lq s1)) \/ (gone s1 = true /\ P' = ∅) ->
  CInv ids P' s1.
Proof.
  intros HI Hr Hrooms Htasks HP Hrem Has Hw Hs Ho Hoth Hsub Hd.
  assert (forall x, x <> rid -> x ∈ P' <-> x ∈ P) as HPx by (destruct HP as [->| ->]; set_solver).
  split; rewrite ?Hrooms, ?Htasks; try done.
  - pose proof (K_sub _ _ _ HI). destruct HP as [->| ->]; set_solver.
  - intros x Hx. destruct (decide (x = rid)) as [->|Hn].
    + exists l, r1. rewrite lookup_insert_eq, Has. auto.
    + apply HPx in Hx; [|done]. destruct (K_wait _ _ _ HI x Hx) as (l0 & r0 & H0 & Hst). exists l0, r0.
      by rewrite lookup_insert_ne, Hoth.
  - intros x Hid Hx. destruct (decide (x = rid)) as [->|Hn].
    + exists l, r1. rewrite lookup_insert_eq, Has. auto.
    + rewrite HPx in Hx by done. destruct (K_stop _ _ _ HI x Hid Hx) as (l0 & r0 & H0 & Hst). exists l0, r0.
      by rewrite lookup_insert_ne, Hoth.
  - intros x l0 Hx. destruct (decide (x = rid)) as [->|Hn]; [|rewrite Hoth by done; by apply (K_other _ _ _ HI)].
    intros Hin. apply elem_of_acts in Hin as Hin'. apply Hsub in Hin' as [Hin'|[-> _]].
    + apply (K_other _ _ _ HI rid l0 Hx). by apply elem_of_acts.
    + rewrite Has in Hin. by apply (Ho Hx).
  - intros l0 x a [Hin|[-> Hx]]%Hsub; [|simpl in Hx; subst x; exists r1; by rewrite lookup_insert_eq].
    destruct (K_task _ _ _ HI _ _ _ Hin) as [r0 Hr0]. destruct (decide (x = rid)) as [->|].
    + rewrite Hr in Hr0. inv Hr0. exists r1. by rewrite lookup_insert_eq.
    + exists r0. by rewrite lookup_insert_ne.
Qed.

Lemma TFinish_on_end q e : TFinish ∈ q ++ omap on_end e <-> TFinish ∈ q.
Proof.
  rewrite elem_of_app. split; [|by left]. intros [|(x & _ & Hx)%list_elem_of_omap]; [done|]. by destruct x.
Qed.

Lemma CInv_room ids P s rid l r a q' r1 e :
  CInv ids P s -> rooms s !! rid = Some (l, r) -> Room.exec a r = (r1, e) -> a <> Room.AStop ->
  takes a (acts rid (queue_of l (tasks s))) (acts rid (queue_of l q')) ->
  (forall rid' l', rid' <> rid -> acts rid' (queue_of l' q') = acts rid' (queue_of l' (tasks s))) ->
  (forall l' x, x ∈ queue_of l' q' -> x ∈ queue_of l' (tasks s)) ->
  CInv ids P (deliver_room rid l r1 e (set_tasks q' s)).
Proof.
  intros HI Hr He Hns Ht Hoth Hsub. destruct (reset_acts _ _ _ _ l rid q' He) as (as2 & Has2 & Hend & Hacts & Hin).
  eapply (CInv_update ids P P s rid l r r1 (acts rid (queue_of l q') ++ as2)); simpl; try done.
  - by left.
  - apply (K_remain _ _ _ HI).
  - by rewrite Hacts, decide_True.
  - intros (l0 & r0 & Hr0 & Hst)%(K_wait _ _ _ HI). rewrite Hr in Hr0. inv Hr0. apply stopping_app; [|done].
    destruct Ht as [[-> ->]|Ht]; [done|]. rewrite Ht in Hst. apply stopping_cons in Hst as [[? _]|[_ ?]]; done.
  - intros Hid HP. destruct (K_stop _ _ _ HI _ Hid HP) as (l0 & r0 & Hr0 & He0 & Htk & Hf). rewrite Hr in Hr0. inv Hr0.
    rewrite (Hend He0), app_nil_r. assert ((a = Room.ATickerReset \/ a = Room.ATick) /\
      Forall (fun a => a = Room.ATickerReset) (acts rid (queue_of l0 q'))) as [Ha Hf'].
    { destruct Ht as [[-> Ht]|Ht]; [rewrite Ht; auto|]. rewrite Ht in Hf. apply Forall_cons in Hf as [-> Hf]. auto. }
    destruct (exec_stopped _ _ _ _ He He0 Htk Ha). done.
  - intros Hid Hx. apply elem_of_app in Hx as [Hx|Hx].
    + apply elem_of_acts, Hsub, elem_of_acts in Hx. by apply (K_other _ _ _ HI) in Hx.
    + rewrite Forall_forall in Has2. by apply Has2 in Hx.
  - intros rid' l' Hn. rewrite Hacts, decide_False, app_nil_r by tauto. by apply Hoth.
  - intros l' x Hx. apply Hin in Hx as [?|?]; auto.
  - rewrite TFinish_on_end. apply (K_done _ _ _ HI).
Qed.

(** A room with a [stop] in its queue has not been stopped. *)
Lemma stop_pending ids P s rid l :
  CInv ids P s -> (rid, Room.AStop) ∈ queue_of l (tasks s) -> rid ∈ ids /\ rid ∈ P.
Proof.
  intros HI Hin. destruct (K_task _ _ _ HI _ _ _ Hin) as [r Hr]. apply elem_of_acts in Hin.
  assert (rid ∈ ids) as Hid by (destruct (decide (rid ∈ ids)) as [|Hn]; [done|]; by apply (K_other _ _ _ HI rid l) in Hin).
  split; [done|]. destruct (decide (rid ∈ P)) as [|Hn]; [done|]. exfalso.
  destruct (K_stop _ _ _ HI _ Hid Hn) as (l0 & r0 & Hr0 & _ & _ & Hf). rewrite Hr in Hr0. inv Hr0.
  rewrite Forall_forall in Hf. by apply Hf in Hin.
Qed.

(** Then the destructor still waits. *)
Lemma stop_waits ids P s rid : CInv ids P s -> rid ∈ P -> gone s = false /\ TFinish ∉ lq s.
Proof.
  intros HC HP. destruct (K_done _ _ _ HC) as [[? Hd]|[_ ->]]; [|set_solver]. split; [done|]. rewrite <- Hd. set_solver.
Qed.

(** [stop] and [finishOne]. *)
Lemma CInv_stop ids P s rid l rest :
  CInv ids P s -> queue_of l (tasks s) = (rid, Room.AStop) :: rest -> CInv ids (P ∖ {[rid]}) (run_task l s).1.
Proof.
  intros HI Eq. destruct (K_task _ _ _ HI l rid Room.AStop) as [r Hr]; [rewrite Eq; left|].
  destruct (stop_pending _ _ _ rid l HI) as [Hid HP]; [rewrite Eq; left|].
  assert (acts rid (queue_of l (tasks s)) = Room.AStop :: acts rid rest) as Ha.
  { rewrite Eq. unfold acts at 1. simpl. by rewrite decide_True. }
  assert (Forall (fun a => a = Room.ATickerReset) (acts rid rest)) as Hrest.
  { destruct (K_wait _ _ _ HI _ HP) as (l0 & r0 & Hr0 & Hst). rewrite Hr in Hr0. inv Hr0. rewrite Ha in Hst.
    apply stopping_cons in Hst as [[_ ?]|[? _]]; done. }
  unfold run_task. rewrite Eq. unfold run_room. cbn [set_tasks rooms]. rewrite Hr. cbn [Room.exec Room.stop fst].
  pose proof (size_difference P {[rid]} ltac:(set_solver)) as Hsz. rewrite size_singleton in Hsz.
  assert (size P <> 0)%nat as Hp0 by (apply size_non_empty_iff; set_solver).
  unfold finishOne, deliver_room. cbn [remain set_tasks]. rewrite (K_remain _ _ _ HI). cbn [omap list_omap foldl rooms tasks lob lq gone].
  assert (Z.of_nat (size P) =? 1 = true <-> P ∖ {[rid]} = ∅) as Hlast.
  { rewrite Z.eqb_eq. rewrite <- leibniz_equiv_iff, <- size_empty_iff. lia. }
  eapply (CInv_update ids P _ s rid l r _ (acts rid rest)); try done; cbn [tasks rooms remain gone lq set_tasks].
  - by right.
  - f_equal. lia.
  - by rewrite queue_insert, decide_True.
  - set_solver.
  - intros rid' l' Hn. rewrite queue_insert. destruct (decide (l' = l)) as [->|]; [|done]. rewrite Eq.
    unfold acts at 2. simpl. by rewrite decide_False.
  - intros l' x. rewrite queue_insert. destruct (decide (l' = l)) as [->|]; [|auto]. rewrite Eq. left. by right.
  - destruct (K_done _ _ _ HI) as [[Hg Hd]|[_ ->]]; [left|set_solver]. split; [done|]. rewrite app_nil_r.
    assert (TFinish ∉ lq s) as Hno by (rewrite <- Hd; set_solver).
    destruct (Z.of_nat (size P) =? 1) eqn:E.
    + rewrite elem_of_app, list_elem_of_singleton. tauto.
    + split; [|done]. intros H%Hlast. congruence.
Qed.

Lemma stop_rooms_posts g g' e rid :
  GameServer.stop_rooms g = (g', e) ->
  Forall (fun x => GameServer.starts_room x = false) e /\
  (forall l a, PostRoom l rid a ∈ e -> rooms_ g !! rid = Some l /\ a = Room.AStop) /\
  posts rid e = if decide (is_Some (rooms_ g !! rid)) then [Room.AStop] else [].
Proof.
  unfold GameServer.stop_rooms. intros [= _ <-]. pose proof (NoDup_hash_order CRooms (dom (rooms_ g))) as Hnd.
  pose proof (fun k => elem_of_hash_order_dom CRooms (rooms_ g) k) as Hin.
  rewrite (decide_ext _ _ _ _ (iff_sym (Hin rid))).
  assert (forall k, k ∈ hash_order CRooms (dom (rooms_ g)) -> is_Some (rooms_ g !! k)) as Hsome by (intros k; apply Hin).
  clear Hin. induction Hnd as [|x xs Hx Hnd IH]; simpl.
  { split_and!; [done| |done]. intros l a H. by apply not_elem_of_nil in H. }
  destruct IH as (IH1 & IH2 & IH3); [set_solver|]. rewrite posts_app, IH3.
  destruct (Hsome x) as [l0 Hl0]; [left|]. rewrite Hl0. split_and!; [by constructor| |].
  - intros l a [[= -> -> ->]|H]%elem_of_cons; [done|by apply IH2].
  - unfold posts. simpl. destruct (decide (x = rid)) as [->|].
    + rewrite decide_False, decide_True by set_solver. done.
    + destruct (decide (rid ∈ xs)); [rewrite decide_True by set_solver|rewrite decide_False by set_solver]; done.
Qed.

(** The destructor's task. *)
Lemma CInv_close s :
  SInv s -> let ids := dom (rooms_ (snd (lob s))) in CInv ids ids (close s).
Proof.
  intros HI ids. destruct (S_open s HI) as (_ & Hg & Hfin). unfold close.
  destruct (GameServer.stop_rooms (snd (lob s))) as [g e] eqn:E. pose proof (fun rid => stop_rooms_posts _ _ _ rid E) as Hp.
  assert (size (rooms_ (snd (lob s))) = size ids) as -> by (symmetry; apply size_dom).
  assert (forall rid l r, rooms s !! rid = Some (l, r) -> Room.AStop ∉ acts rid (queue_of l (tasks s))) as Hns.
  { intros rid l r Hr. eapply phase_no_stop, R_phase, (S_room s HI _ _ _ Hr). }
  assert (forall rid l, Room.AStop ∉ acts rid (queue_of l (tasks s))) as Hns'.
  { intros rid l Hin. apply elem_of_acts in Hin as Hin'. apply (S_task s HI) in Hin' as [r Hr]. by eapply Hns. }
  destruct (Z.eqb_spec (Z.of_nat (size ids)) 0) as [Hz|Hz].
  - assert (ids = ∅) as -> by (apply leibniz_equiv, size_empty_iff; lia).
    split; simpl; try done; [apply (S_task s HI)|by right].
  - unfold deliver. cbn [rooms tasks]. rewrite no_new_rooms by apply (Hp 0). split; cbn [rooms tasks remain gone lq]; try done.
    + intros rid Hin. subst ids. apply elem_of_dom in Hin as Hs. destruct Hs as [l Hl].
      destruct (S_known s HI _ _ Hl) as [r Hr]. exists l, r. split; [done|]. destruct (Hp rid) as (_ & Hl' & Hpo).
      rewrite acts_posted, Hpo, decide_True by (try (intros l' a [? _]%Hl'; congruence); by exists l).
      exists (acts rid (queue_of l (tasks s))), []. split_and!; [done|by apply (Hns _ _ _ Hr)|done].
    + intros rid l Hn. destruct (Hp rid) as (_ & Hl' & Hpo). unfold ids in Hn. rewrite not_elem_of_dom in Hn.
      rewrite acts_posted, Hpo, decide_False, app_nil_r; [apply Hns'| |].
      * rewrite Hn. by intros [].
      * intros l' a [? _]%Hl'. congruence.
    + intros l rid a [Hin|Hin]%elem_of_posted; [by apply (S_task s HI) in Hin|].
      apply (Hp rid) in Hin as [Hl _]. by apply (S_known s HI).
    + left. split; [done|]. split; [|done]. intros ->. by rewrite size_empty in Hz.
Qed.

(** The steps of the closing server: the loops, and the tasks of the rooms on
    the lobby. *)
Definition internal (x : label) : Prop := match x with LLobby _ | LClose => False | _ => True end.

Lemma exec_end_total rid w l :
  exists l' e, GameServer.exec (GameServer.EvRoomEnd rid w) l = Ok (l', e) /\
    Forall (fun x => exists j, x = GameServer.Enqueue j) e /\ existsb GameServer.starts_room e = false /\ fst l' = fst l.
Proof.
  destruct l as [w0 g0]. cbn [GameServer.exec]. unfold GameServer.call, GameServer.onRoomEnd.
  destruct (foldl _ _ _) as [[wa la] m]. cbn [TimerWheel.interp res_bind]. eexists _, _. split; [done|].
  unfold GameServer.enqueue_if. repeat dmatch; eauto.
Qed.

(** ** The last task of the lobby

    The task that releases the destructor is the last the rooms post: then every
    room has ended, and an ended room posts nothing. *)
Record Last (ids : gset Z) (s : t) : Prop := mkLast {
  F_other : forall rid l r, rooms s !! rid = Some (l, r) -> rid ∉ ids -> Room.ended_ r = true;
  F_last : TFinish ∈ lq s -> exists q, lq s = q ++ [TFinish] /\ TFinish ∉ q;
  F_gone : gone s = true -> lq s = [];
}.

Lemma TFinish_ends (e : list Room.effect) : TFinish ∉ omap on_end e.
Proof. intros (x & _ & Hx)%list_elem_of_omap. by destruct x. Qed.

Lemma ended_no_end a r r1 e : Room.exec a r = (r1, e) -> Room.ended_ r = true -> omap on_end e = [].
Proof.
  intros He Hend. destruct (Room.exec_ended _ _ _ _ He Hend) as [Hq _]. clear He.
  induction Hq as [|x e Hx _ IH]; [done|]. cbn [omap list_omap]. rewrite IH. by destruct Hx as [Hx _], x.
Qed.

Lemma Last_close s : SInv s -> Last (dom (rooms_ (snd (lob s)))) (close s).
Proof.
  intros HI. destruct (S_open s HI) as (_ & Hg & Hfin). unfold close.
  destruct (GameServer.stop_rooms (snd (lob s))) as [g e] eqn:E.
  assert (forall rid l r, rooms s !! rid = Some (l, r) -> rid ∉ dom (rooms_ (snd (lob s))) -> Room.ended_ r = true) as Ho.
  { intros rid l r Hr Hn. destruct (Room.ended_ r) eqn:He; [done|]. exfalso. apply Hn, elem_of_dom. exists l.
    by apply (R_known _ _ _ _ _ (S_room s HI _ _ _ Hr)). }
  destruct (Z.eqb_spec (Z.of_nat (size (rooms_ (snd (lob s))))) 0) as [Hz|Hz].
  - split; cbn; [done|done|]. intros _. assert (rooms_ (snd (lob s)) = ∅) as He by (apply map_size_empty_iff; lia).
    destruct (lq s) as [|[rid w|] q] eqn:Eq; [done| |exfalso; apply Hfin; left].
    assert (rid ∈ ended_ids (lq s)) as [[l Hl] _]%(S_end s HI) by (rewrite Eq; left). by rewrite He in Hl.
  - unfold deliver. cbn [rooms tasks]. rewrite no_new_rooms by apply (stop_rooms_posts _ _ _ 0 E).
    split; cbn; [done|done|congruence].
Qed.

(** When the last room has stopped, every room has ended. *)
Lemma all_ended ids P s rid l r :
  CInv ids P s -> Last ids s -> TFinish ∈ lq s \/ gone s = true -> rooms s !! rid = Some (l, r) -> Room.ended_ r = true.
Proof.
  intros HC HF Hx Hr. assert (P = ∅) as -> by (destruct (K_done _ _ _ HC) as [[? Hd]|[_ ?]]; [destruct Hx; [tauto|congruence]|done]).
  destruct (decide (rid ∈ ids)) as [Hi|Hn]; [|by apply (F_other _ _ HF _ _ _ Hr)].
  destruct (K_stop _ _ _ HC _ Hi) as (l' & r' & Hr' & He & _); [set_solver|]. rewrite Hr in Hr'. by inv Hr'.
Qed.

Lemma CInv_step ids P x s :
  CInv ids P s -> internal x -> exists s1 o P', exec x s = Ok (s1, o) /\ CInv ids P' s1.
Proof.
  intros HI Hx. destruct x as [|  |l|rid|]; try done; cbn [exec].
  - destruct (lq s) as [|[rid w|] rest] eqn:Eq; [by eexists _, _, P| |].
    + unfold run_lobby. cbn [lob rooms tasks lq remain gone].
      destruct (exec_end_total rid w (lob s)) as (l' & e & -> & He & Hno & _). cbn [res_bind]. rewrite Hno, andb_false_r.
      eexists _, _, P. split; [done|]. unfold deliver. cbn [rooms tasks lob lq remain gone].
      destruct (jobs_only e (rooms s) (tasks s) He) as [-> ->].
      destruct HI as [? ? ? ? ? ? Kd]. split; try done. simpl. rewrite Eq in Kd. destruct Kd as [[? Kd]|?]; [left|by right].
      split; [done|]. rewrite Kd, elem_of_cons. split; [|tauto]. by intros [|].
    + eexists _, _, P. split; [done|]. destruct HI as [? ? ? ? ? ? Kd]. split; try done. right. simpl. split; [done|].
      destruct Kd as [[_ Kd]|[_ ?]]; [|done]. apply Kd. rewrite Eq. left.
  - destruct (queue_of l (tasks s)) as [|[rid a] rest] eqn:Eq.
    { eexists _, _, P. split; [apply f_equal, surjective_pairing|]. unfold run_task. by rewrite Eq. }
    assert (a = Room.AStop \/ a <> Room.AStop) as [->|Ha] by (destruct a; auto).
    { eexists _, _, _. split; [apply f_equal, surjective_pairing|]. by eapply CInv_stop. }
    eexists _, _, P. split; [apply f_equal, surjective_pairing|]. unfold run_task. rewrite Eq.
    destruct (K_task _ _ _ HI l rid a) as [r Hr]; [rewrite Eq; left|]. unfold run_room. cbn [set_tasks rooms]. rewrite Hr.
    destruct (Room.exec a r) as [r1 e] eqn:He.
    assert (CInv ids P (deliver_room rid l r1 e (set_tasks (<[l := rest]> (tasks s)) s))) as H; [|by destruct a].
    destruct (popped_queue l rid a rest (tasks s) Eq) as (Ht & Hoth & Hsub). by eapply CInv_room.
  - eexists _, _, P. split; [apply f_equal, surjective_pairing|]. unfold run_room.
    destruct (rooms s !! rid) as [[l r]|] eqn:Hr; [|done]. destruct (Room.exec Room.ATick r) as [r1 e] eqn:He.
    destruct s as [lb rm tk q rem g]. simpl in *. apply (CInv_room ids P _ rid l r Room.ATick tk r1 e HI); try done. by left.
Qed.

Lemma Last_room ids P s rid l r a q' r1 e :
  CInv ids P s -> Last ids s -> rooms s !! rid = Some (l, r) -> Room.exec a r = (r1, e) ->
  Last ids (deliver_room rid l r1 e (set_tasks q' s)) /\
  (TFinish ∈ lq s \/ gone s = true -> lq (deliver_room rid l r1 e (set_tasks q' s)) = lq s).
Proof.
  intros HC HF Hr He. cbn. assert (TFinish ∈ lq s \/ gone s = true -> omap on_end e = []) as Hno.
  { intros Hx. eapply ended_no_end; [done|]. by eapply all_ended. }
  split; [|intros Hx; by rewrite (Hno Hx), app_nil_r]. split; cbn.
  - intros rid' l' r' Hr' Hn. destruct (decide (rid' = rid)) as [->|Hne].
    + rewrite lookup_insert_eq in Hr'. inv Hr'. by apply (Room.exec_ended _ _ _ _ He), (F_other _ _ HF _ _ _ Hr).
    + rewrite lookup_insert_ne in Hr' by done. by apply (F_other _ _ HF _ _ _ Hr').
  - intros Hin. pose proof (TFinish_ends e) as Hn. apply elem_of_app in Hin as [Hin|Hin]; [|done].
    rewrite (Hno (or_introl Hin)), app_nil_r. by apply (F_last _ _ HF).
  - intros Hg. rewrite (Hno (or_intror Hg)), app_nil_r. by apply (F_gone _ _ HF).
Qed.

Lemma Last_stop ids P s rid l rest :
  CInv ids P s -> Last ids s -> queue_of l (tasks s) = (rid, Room.AStop) :: rest -> Last ids (run_task l s).1.
Proof.
  intros HC HF Eq. destruct (K_task _ _ _ HC l rid Room.AStop) as [r Hr]; [rewrite Eq; left|].
  destruct (stop_pending _ _ _ rid l HC) as [_ HP]; [rewrite Eq; left|]. destruct (stop_waits _ _ _ _ HC HP) as [Hg Hn].
  unfold run_task. rewrite Eq. unfold run_room. cbn [set_tasks rooms]. rewrite Hr.
  destruct (Room.exec Room.AStop r) as [r1 e] eqn:He.
  pose proof (Last_room _ _ _ _ _ _ _ (<[l := rest]> (tasks s)) _ _ HC HF Hr He) as [[Fo Fl _] _].
  cbn [fst]. unfold finishOne. cbn [remain deliver_room set_tasks]. rewrite (K_remain _ _ _ HC).
  split; cbn; [done| |congruence]. cbn in Fl.
  destruct (_ =? 1); [|done]. intros _. eexists. split; [done|]. rewrite elem_of_app. pose proof (TFinish_ends e). tauto.
Qed.

Lemma Last_step ids P x s s1 o : CInv ids P s -> Last ids s -> internal x -> exec x s = Ok (s1, o) -> Last ids s1.
Proof.
  intros HC HF Hx H. destruct x as [|  |l|rid|]; try done; cbn [exec] in H.
  - destruct (lq s) as [|[rid w|] rest] eqn:Eq; [by inv H| |].
    + unfold run_lobby in H. cbn [lob rooms tasks lq remain gone] in H.
      destruct (exec_end_total rid w (lob s)) as (l' & e & Hex & He & Hno & _). rewrite Hex in H. cbn [res_bind] in H.
      rewrite Hno, andb_false_r in H. inv H. unfold deliver. cbn [rooms tasks lob lq remain gone].
      destruct (jobs_only e (rooms s) (tasks s) He) as [-> ->]. destruct HF as [Fo Fl Fg]. split; cbn; [done| |].
      * intros Hin. rewrite Eq in Fl. destruct Fl as ([|x q] & Hq & Hn); [by right|done|]. injection Hq as <- Hq.
        exists q. split; [done|]. set_solver.
      * intros Hg. rewrite Eq in Fg. by specialize (Fg Hg).
    + inv H. destruct HF as [Fo Fl Fg]. assert (rest = []) as ->.
      { rewrite Eq in Fl. destruct Fl as ([|x q] & Hq & Hn); [by left|by inv Hq|]. injection Hq as <- Hq. set_solver. }
      split; cbn; [done|set_solver|done].
  - apply Ok_inj in H. apply (f_equal fst) in H. cbn [fst] in H. subst s1.
    destruct (queue_of l (tasks s)) as [|[rid a] rest] eqn:Eq; [unfold run_task; by rewrite Eq|].
    assert (a = Room.AStop \/ a <> Room.AStop) as [->|Ha] by (destruct a; auto); [by eapply Last_stop|].
    destruct (K_task _ _ _ HC l rid a) as [r Hr]; [rewrite Eq; left|]. unfold run_task. rewrite Eq. unfold run_room.
    cbn [set_tasks rooms]. rewrite Hr. destruct (Room.exec a r) as [r1 e] eqn:He.
    pose proof (Last_room _ _ _ _ _ _ _ (<[l := rest]> (tasks s)) _ _ HC HF Hr He) as [H _]. by destruct a.
  - apply Ok_inj in H. apply (f_equal fst) in H. cbn [fst] in H. subst s1. unfold run_room.
    destruct (rooms s !! rid) as [[l r]|] eqn:Hr; [|done]. destruct (Room.exec Room.ATick r) as [r1 e] eqn:He.
    destruct s as [lb rm tk q rem g]. by apply (Last_room _ _ _ _ _ _ _ tk _ _ HC HF Hr He).
Qed.

(** ** The end of the wait *)

(** The loops and the lobby until the destructor is released. *)
Inductive closing : t -> list label -> t -> Prop :=
  | closing_nil s : closing s [] s
  | closing_step s x s1 o xs s2 :
      internal x -> gone s = false -> exec x s = Ok (s1, o) -> closing s1 xs s2 -> closing s (x :: xs) s2.

Lemma run_task_shift l s k x :
  queue_of l (tasks s) !! S k = Some x -> queue_of l (tasks (run_task l s).1) !! k = Some x.
Proof.
  unfold run_task. destruct (queue_of l (tasks s)) as [|[rid a] rest] eqn:Eq; [done|]. cbn [lookup list_lookup]. intros Hk.
  assert (forall s', tasks (finishOne s') = tasks s') as Hfin by (intros s'; unfold finishOne; by destruct (remain s')).
  unfold run_room. cbn [set_tasks rooms]. destruct (rooms s !! rid) as [[l0 r]|].
  - destruct (Room.exec a r) as [r1 e]. eapply prefix_lookup_Some; [exact Hk|].
    destruct a; cbn [fst]; rewrite ?Hfin; (etrans; [|apply reset_prefix]); cbn [set_tasks tasks]; by rewrite queue_insert, decide_True.
  - destruct a; cbn [fst]; rewrite ?Hfin; cbn [set_tasks tasks]; by rewrite queue_insert, decide_True.
Qed.

(** A task of a loop: a [stop] takes its room from those to wait for. *)
Lemma task_progress ids P s l rid a rest :
  CInv ids P s -> Last ids s -> queue_of l (tasks s) = (rid, a) :: rest ->
  exists P', CInv ids P' (run_task l s).1 /\ Last ids (run_task l s).1 /\
    (a = Room.AStop -> size P' < size P)%nat /\ (a <> Room.AStop -> size P' = size P).
Proof.
  intros HC HF Eq. destruct (CInv_step ids P (LTask l) s HC I) as (s1 & o & P' & He & HC').
  pose proof (Last_step ids P (LTask l) s s1 o HC HF I He) as HF'. cbn [exec] in He. apply Ok_inj in He. rewrite He.
  assert (a = Room.AStop \/ a <> Room.AStop) as [->|Ha] by (destruct a; auto).
  - exists (P ∖ {[rid]}). pose proof (CInv_stop _ _ _ _ _ _ HC Eq) as HCs. rewrite He in HCs. split_and!; [done|done| |done].
    intros _. destruct (stop_pending _ _ _ rid l HC) as [_ Hin]; [rewrite Eq; left|]. apply subset_size. set_solver.
  - exists P'. split_and!; [done|done|done|]. intros _. pose proof (K_remain _ _ _ HC) as H1. pose proof (K_remain _ _ _ HC') as H2.
    destruct (K_task _ _ _ HC l rid a) as [r Hr]; [rewrite Eq; left|].
    unfold run_task, run_room in He. rewrite Eq in He. cbn [set_tasks rooms] in He. rewrite Hr in He.
    destruct (Room.exec a r) as [r1 e]. assert (remain s1 = remain s) as Hs by (destruct a; try done; by inv He).
    rewrite Hs, H1 in H2. injection H2 as H2. lia.
Qed.

(** The next [stop] of a queue is reached. *)
Lemma stop_reached ids P s l k rid :
  CInv ids P s -> Last ids s -> queue_of l (tasks s) !! k = Some (rid, Room.AStop) ->
  exists xs s' P', closing s xs s' /\ CInv ids P' s' /\ Last ids s' /\ (size P' < size P)%nat.
Proof.
  revert s P. induction k as [|k IH]; intros s P HC HF Hk; pose proof (list_elem_of_lookup_2 _ _ _ Hk) as Hin;
    destruct (stop_pending _ _ _ _ _ HC Hin) as [_ HP]; destruct (stop_waits _ _ _ _ HC HP) as [Hg _];
    (destruct (queue_of l (tasks s)) as [|[rid0 a] rest] eqn:Eq; [done|]);
    destruct (task_progress _ _ _ _ _ _ _ HC HF Eq) as (P' & HC' & HF' & Hs & Hn);
    assert (forall xs s', closing (run_task l s).1 xs s' -> closing s (LTask l :: xs) s') as Hstep
      by (intros xs s' Hc; eapply (closing_step s (LTask l) _ (run_task l s).2); [done|done|exact (f_equal Ok (surjective_pairing _))|done]).
  - injection Hk as -> ->. eexists _, _, P'. split; [apply Hstep, closing_nil|]. auto.
  - assert (a = Room.AStop \/ a <> Room.AStop) as [Ha|Ha] by (destruct a; auto).
    { eexists _, _, P'. split; [apply Hstep, closing_nil|]. auto. }
    destruct (IH _ P' HC' HF') as (xs & s' & P2 & Hc & HC2 & HF2 & Hsz).
    { apply run_task_shift. by rewrite Eq. }
    exists (LTask l :: xs), s', P2. split; [by apply Hstep|]. rewrite Hn in Hsz by done. done.
Qed.

(** The lobby comes to the task that releases the destructor. *)
Lemma finish_reached ids P s :
  CInv ids P s -> Last ids s -> TFinish ∈ lq s -> gone s = false ->
  exists xs s', closing s xs s' /\ gone s' = true.
Proof.
  remember (length (lq s)) as n eqn:En. revert P s En. induction n as [|n IH]; intros P s En HC HF Hin Hg.
  { symmetry in En. apply nil_length_inv in En. rewrite En in Hin. by apply not_elem_of_nil in Hin. }
  destruct (CInv_step ids P LQueue s HC I) as (s1 & o & P' & He & HC1).
  pose proof (Last_step ids P LQueue s s1 o HC HF I He) as HF1.
  assert (gone s1 = true \/ gone s1 = false /\ TFinish ∈ lq s1 /\ n = length (lq s1)) as [Hg1|(Hg1 & Hin1 & En1)].
  { clear IH. cbn [exec] in He. destruct (lq s) as [|[rid w|] rest] eqn:Eq; [done| |inv He; by left].
    right. unfold run_lobby in He. cbn [lob rooms tasks lq remain gone] in He.
    destruct (exec_end_total rid w (lob s)) as (l' & e & Hex & _ & Hno & _). rewrite Hex in He. cbn [res_bind] in He.
    rewrite Hno, andb_false_r in He. inv He. cbn. split_and!; [done| |by injection En]. by apply elem_of_cons in Hin as [?|?]. }
  - exists [LQueue], s1. split; [|done]. by eapply closing_step, closing_nil.
  - destruct (IH P' s1 En1 HC1 HF1 Hin1 Hg1) as (xs & s' & Hc & Hg'). exists (LQueue :: xs), s'. split; [|done]. by eapply closing_step.
Qed.

Lemma closing_app s xs s1 ys s2 : closing s xs s1 -> closing s1 ys s2 -> closing s (xs ++ ys) s2.
Proof. induction 1; [done|]. intros Hc. eapply closing_step; eauto. Qed.

(** The wait of the destructor can always end. *)
Lemma closing_ends ids P s : CInv ids P s -> Last ids s -> exists xs s', closing s xs s' /\ gone s' = true.
Proof.
  remember (size P) as n eqn:En. revert P s En. induction (lt_wf n) as [n _ IH]. intros P s -> HC HF.
  destruct (decide (P = ∅)) as [->|Hne].
  - destruct (K_done _ _ _ HC) as [[Hg Hd]|[Hg _]]; [|exists [], s; by split; [constructor|]].
    eapply finish_reached; [done|done|by apply Hd|done].
  - apply set_choose_L in Hne as [rid Hin]. destruct (K_wait _ _ _ HC rid Hin) as (l & r & _ & as1 & as2 & Ha & _).
    assert ((rid, Room.AStop) ∈ queue_of l (tasks s)) as [k Hk]%list_elem_of_lookup_1.
    { apply elem_of_acts. rewrite Ha. set_solver. }
    destruct (stop_reached _ _ _ _ _ _ HC HF Hk) as (xs & s1 & P1 & Hc & HC1 & HF1 & Hsz).
    destruct (IH _ Hsz P1 s1 eq_refl HC1 HF1) as (ys & s2 & Hc2 & Hg). exists (xs ++ ys), s2. split; [|done]. by eapply closing_app.
Qed.

(** None of these steps moves the clock of the wheel. *)
Lemma internal_clock x s s1 o : internal x -> exec x s = Ok (s1, o) -> fst (lob s1) = fst (lob s).
Proof.
  assert (forall rid a s0, lob (run_room rid a s0).1 = lob s0) as Hroom.
  { intros rid a s0. unfold run_room. by repeat dmatch. }
  intros Hx He. destruct x as [|  |l|rid|]; try done; cbn [exec] in He.
  - destruct (lq s) as [|[rid w|] rest] eqn:Eq; [by inv He| |by inv He]. unfold run_lobby in He. cbn [lob rooms tasks lq remain gone] in He.
    destruct (exec_end_total rid w (lob s)) as (l' & e & Hex & _ & Hno & Hl). rewrite Hex in He. cbn [res_bind] in He.
    rewrite Hno, andb_false_r in He. by inv He.
  - apply Ok_inj, (f_equal fst) in He. cbn [fst] in He. subst s1. unfold run_task.
    destruct (queue_of l (tasks s)) as [|[rid a] rest]; [done|]. set (s0 := set_tasks _ s). pose proof (Hroom rid a s0) as Hr.
    destruct (run_room rid a s0) as [s2 o2]. cbn [fst] in Hr. replace (lob s) with (lob s0) by done. rewrite <- Hr.
    destruct a; try done. cbn. unfold finishOne. by destruct (remain s2).
  - apply Ok_inj, (f_equal fst) in He. cbn [fst] in He. subst s1. by rewrite Hroom.
Qed.

End Stopping.

Inductive drain : t -> list label -> t -> Prop :=
  | drain_nil s : drain s [] s
  | drain_step s x s1 o xs s2 (HO : HashOrder) (LM : Libm) :
      internal x -> exec x s = Ok (s1, o) -> drain s1 xs s2 -> drain s (x :: xs) s2.

Lemma drain_CInv ids P s xs s' :
  drain s xs s' -> CInv ids P s -> Last ids s -> exists P', CInv ids P' s' /\ Last ids s'.
Proof.
  intros Hd. revert P. induction Hd as [|s x s1 o xs s2 HO LM Hx He _ IH]; intros P HI HF; [eauto|].
  destruct (CInv_step ids P x s HI Hx) as (s1' & o' & P' & He' & HI'). pose proof (Last_step ids P x s s1 o HI HF Hx He) as HF1.
  rewrite He in He'. inv He'. eauto.
Qed.


Fixpoint drain_all (xs : list label) (s : t) : res t :=
  match xs with
  | [] => Ok s
  | x :: xs =>
      match x with
      | LLobby _ | LClose => UB
      | _ => (let! (s1, _) := exec64 x s in drain_all xs s1)%gs
      end
  end.

Lemma drain_drain_all xs s s' : drain_all xs s = Ok s' -> drain s xs s'.
Proof.
  revert s. induction xs as [|x xs IH]; intros s H; cbn [drain_all] in H; [inv H; constructor|].
  destruct x; try done; (destruct (exec64 _ s) as [[s1 o]|] eqn:E; cbn [res_bind] in H; [|done]);
    (eapply (drain_step s _ s1 o xs s' elements_order BattleSim.libm64); [done|exact E|by apply IH]).
Qed.


(** A match request after the shutdown has begun is undefined behaviour. The
    IO threads go on posting to the lobby while the destructor runs. In a
    reachable state with a waiting player and no battle, the destructor's task
    destroys [gamePool_] at once; the next match request then pairs the two
    players and calls [gamePool_->getNextLoop()] on the null pointer. *)
Theorem match_after_shutdown_undefined :
  exists s s1, reachable s /\ exec64 LClose s = Ok (s1, []) /\ gone s1 = true /\
    forall (HO : HashOrder) (LM : Libm), exec (LLobby (GameServer.EvMatch 2)) s1 = UB.
Proof.
  pose (s := after [LLobby (GameServer.EvLogin 1 "alice" 0 1 2); LLobby (GameServer.EvLogin 2 "bob" 0 3 4);
                    LLobby (GameServer.EvMatch 1)]).
  exists s. eexists. split; [apply sys_after_reachable|]. split; [reflexivity|]. split; [vm_compute; reflexivity|].
  intros HO LM. vm_compute. reflexivity.
Qed.

End Shutdown.
