(* ===== verification/Inline.v ===== *)
(** * The server without game threads ([GameServer.cc], [Room.cc], [EventLoopThreadPool.cc])

    [gamePool_->start(0)] starts no thread, [getNextLoop()] then returns the base
    loop, and the rooms live on the lobby thread. [runInLoop] from that thread
    calls the functor at once: a handler that sends a task to a room runs it in
    the middle of its own body, and a room that ends calls [onRoomEnd] before the
    call that ended it returns. Only the destruction of a room's ticker is queued
    ([queueInLoop]); its functor then holds the last [shared_ptr] to the room.

    The handlers are those of [GameServer]. All but one end with what they do to
    rooms, and no task they send makes a room call back, so that performing their
    effects in order is what the inlined calls do. The exception is
    [expireSession], which erases the session after [forceEnd] has run: it is
    written out here. Room objects are a heap; an access to a destroyed one is
    [UB]. *)

From stdpp Require Import base gmap sets list strings sorting.
From Stdlib Require Import ZArith Lia.
From S2P Require Import Prelude MatchQueue TimerWheel LoopPool Float32 Proto BattleSim Room GameServer System.

Module Inline.

Local Open Scope Z_scope.
Import TimerWheel(wprog, WRet, WAdd, WCancel).
Import GameServer(sessions_, rooms_, gamePool_, nextRoomId_, s_conn, roomId, kInRoom, PostRoom, NewRoom, Sess, LInv, in_room).
Import System(out, OSend, OShutdown, OJob, emit).

(** ** State *)

(** The lobby without its wheel, the room objects, the queued functors that
    destroy a ticker, and whether the destructor has been released. *)
Record world : Type := mkWorld {
  lob : GameServer.t;
  rooms : gmap Z Room.t;
  resets : list Z;
  closed : bool;
}.

Definition set_lob (g : GameServer.t) (s : world) : world := mkWorld g (rooms s) (resets s) (closed s).

Definition set_rooms (m : gmap Z Room.t) (s : world) : world := mkWorld (lob s) m (resets s) (closed s).

Definition t : Type := TimerWheel.t GameServer.callback * world.

Definition lobby_of (x : t) : GameServer.lobby := (fst x, lob (snd x)).

Definition boot (st : bool) : t :=
  let (w, g) := GameServer.boot 0 st in (w, mkWorld g ∅ [] false).

Section Exec.
Context {HO : HashOrder} {LM : Libm}.

(** ** Rooms *)

(** The callback given to the room in [tryMatch]: [onRoomEnd], called at once. It
    adds and cancels no timer. *)
Definition onEnd (rid winnerId : Z) (g : GameServer.t) : GameServer.t * list GameServer.effect :=
  match GameServer.onRoomEnd rid winnerId g with
  | WRet r => r
  | _ => (g, [])
  end.

(** The calls a room makes, in their order. *)
Definition room_call (rid : Z) (x : world * list out) (e : Room.effect) : world * list out :=
  let (s, o) := x in
  match e with
  | Room.Send c m => (s, o ++ [OSend c m])
  | Room.PostTickerReset => (mkWorld (lob s) (rooms s) (resets s ++ [rid]) (closed s), o)
  | Room.OnEnd r w => let (g, e) := onEnd r w (lob s) in (set_lob g s, o ++ omap emit e)
  end.

(** A task of a room, run at once. *)
Definition run_room (rid : Z) (a : Room.action) (s : world) : res (world * list out) :=
  match rooms s !! rid with
  | None => UB
  | Some r => let (r1, e) := Room.exec a r in
              Ok (foldl (room_call rid) (set_rooms (<[rid := r1]> (rooms s)) s, []) e)
  end.

(** ** Handlers *)

(** An effect of a handler; a task for a loop other than the base loop would have
    to be queued there. *)
Definition perform (x : res (world * list out)) (e : GameServer.effect) : res (world * list out) :=
  (let! (s, o) := x in
   match e with
   | NewRoom rid _ players => Ok (set_rooms (<[rid := Room.make rid players]> (rooms s)) s, o)
   | PostRoom None rid a => let! (s1, o1) := run_room rid a s in Ok (s1, o ++ o1)
   | PostRoom (Some _) _ _ => UB
   | _ => Ok (s, o ++ omap emit [e])
   end)%gs.

(** A handler of a client's event; [gamePool_->getNextLoop()] on the destroyed
    pool is undefined. *)
Definition serve (ev : GameServer.event) (x : t) : res (t * list out) :=
  let (w, s) := x in
  (let! (l, e) := GameServer.exec ev (w, lob s) in
   if closed s && existsb GameServer.starts_room e then UB
   else let! (s1, o) := foldl perform (Ok (set_lob (snd l) s, [])) e in
        Ok ((fst l, s1), o))%gs.

Definition expireSession (pid : Z) (s : world) : res (world * list out) :=
  match sessions_ (lob s) !! pid with
  | None => Ok (s, [])
  | Some ss =>
      if bool_decide (s_conn ss <> None) then Ok (s, [])
      else
        (let! (s1, o) :=
           if decide (GameServer.state ss = kInRoom) then
             match rooms_ (lob s) !! roomId ss with
             | Some _ =>
                 run_room (roomId ss) (Room.AForceEnd (GameServer.find_opponent pid (roomId ss) (lob s))) s
             | None => Ok (s, [])
             end
           else Ok (s, []) in
         Ok (set_lob (GameServer.set_sessions (delete pid (sessions_ (lob s1))) (lob s1)) s1, o))%gs
  end.

(** The bodies of the closures given to the wheel. *)
Definition callback (now : Z) (cb : GameServer.callback) (x : res (world * list out))
  : wprog GameServer.callback (res (world * list out)) :=
  match x with
  | UB => WRet UB
  | Ok (s, o) =>
      match cb with
      | GameServer.MatchTimeout pid =>
          let (g, e) := GameServer.match_timeout pid (lob s) in WRet (Ok (set_lob g s, o ++ omap emit e))
      | GameServer.Expire pid => WRet (let! (s1, o1) := expireSession pid s in Ok (s1, o ++ o1))%gs
      | GameServer.Sweep =>
          GameServer.scheduleSweep (WRet (Ok (s, o ++ omap emit (GameServer.sweepHeartbeats now (lob s)))))
      end
  end.

Definition drive (now : Z) (x : t) : res (t * list out) :=
  let (w, s) := x in
  let (w', r) := TimerWheel.advance (callback now) 100 (w, Ok (s, [])) in
  (let! (s1, o) := r in Ok ((w', s1), o))%gs.

(** The first functor [endBattle] queued: [self->ticker_.reset()]. The room is
    destroyed with the functor when nobody else has it. *)
Definition run_reset (s : world) : res world :=
  match resets s with
  | [] => Ok s
  | rid :: rest =>
      match rooms s !! rid with
      | None => UB
      | Some r =>
          let m := if bool_decide (is_Some (rooms_ (lob s) !! rid)) || bool_decide (rid ∈ rest)
                   then <[rid := fst (Room.exec Room.ATickerReset r)]> (rooms s)
                   else delete rid (rooms s) in
          Ok (mkWorld (lob s) m rest (closed s))
      end
  end.

(** The task of the destructor. One room of its loop: [room->stop(); finishOne();]
    with the counter and the number of times [done.set_value()] has been called. *)
Definition stop_one (x : res (gmap Z Room.t * Z * nat)) (rid : Z) : res (gmap Z Room.t * Z * nat) :=
  (let! (m, remain, released) := x in
   match m !! rid with
   | None => UB
   | Some r => Ok (<[rid := fst (Room.exec Room.AStop r)]> m, remain - 1,
                   if remain =? 1 then S released else released)
   end)%gs.

(** The rooms moved out of [rooms_] are destroyed at the end of the task, unless
    a queued functor has them. *)
Definition close (s : world) : res (world * nat) :=
  let ids := hash_order CRooms (dom (rooms_ (lob s))) in
  let n := Z.of_nat (size (rooms_ (lob s))) in
  let g := GameServer.set_rooms ∅ (lob s) in
  if n =? 0 then Ok (mkWorld g (rooms s) (resets s) true, 1%nat)
  else (let! (m, _, released) := foldl stop_one (Ok (rooms s, n, 0%nat)) ids in
        Ok (mkWorld g (filter (fun x => fst x ∉ ids \/ fst x ∈ resets s) m) (resets s)
                    (closed s || (0 <? Z.of_nat released)), released))%gs.

(** ** Steps of the lobby thread *)

Inductive label : Type :=
  | ILobby (ev : GameServer.event)
  | ITick (rid : Z)
  | IReset.

Definition exec (x : label) (s : t) : res (t * list out) :=
  match x with
  | ILobby (GameServer.EvWheel now) => drive now s
  | ILobby ev => serve ev s
  | ITick rid =>
      match rooms (snd s) !! rid with
      | None => Ok (s, [])
      | Some _ => (let! (s1, o) := run_room rid Room.ATick (snd s) in Ok ((fst s, s1), o))%gs
      end
  | IReset => (let! s1 := run_reset (snd s) in Ok ((fst s, s1), []))%gs
  end.

End Exec.

(** [onRoomEnd] is no event of its own here. *)
Definition label_ok (x : label) : Prop :=
  match x with ILobby (GameServer.EvRoomEnd _ _) => False | _ => True end.

Inductive reachable : t -> Prop :=
  | reach_boot st : reachable (boot st)
  | reach_step s x s1 o (HO : HashOrder) (LM : Libm) :
      reachable s -> GameServer.in_time (lobby_of s) -> label_ok x -> exec x s = Ok (s1, o) -> reachable s1.

(** ** Room actions *)

Definition is_send (e : Room.effect) : Prop := exists c m, e = Room.Send c m.

Lemma quiet_is_send e : Room.ending e = false -> is_send e.
Proof. destruct e; try done. intros _. by eexists _, _. Qed.

Section RoomActions.
Context {HO : HashOrder} {LM : Libm}.

Lemma onEnd_interp rid w g a :
  TimerWheel.spec_interp (GameServer.onRoomEnd rid w g) a = (a, onEnd rid w g).
Proof. unfold onEnd, GameServer.onRoomEnd. by destruct (foldl _ _ _) as [[wa la] m]. Qed.

Lemma onEnd_lobby rid w g :
  fst (onEnd rid w g) =
    GameServer.set_sessions (GameServer.left_room rid <$> sessions_ g) (GameServer.set_rooms (delete rid (rooms_ g)) g).
Proof.
  pose proof (onEnd_interp rid w g (TimerWheel.abs TimerWheel.init)) as H.
  destruct (onEnd rid w g) as [g' e]. by apply GameServer.onRoomEnd_sessions in H as [_ ->].
Qed.

Lemma calls_send rid s o e : Forall is_send e -> foldl (room_call rid) (s, o) e = (s, o ++ omap System.emit_room e).
Proof.
  intros H. revert o. induction H as [|x e (c & m & ->) _ IH]; intros o; [by rewrite app_nil_r|].
  simpl. by rewrite IH, <- (assoc_L (++)).
Qed.

Lemma calls_end rid s o e w :
  Forall is_send e ->
  foldl (room_call rid) (s, o) (e ++ [Room.PostTickerReset; Room.OnEnd rid w]) =
    (mkWorld (fst (onEnd rid w (lob s))) (rooms s) (resets s ++ [rid]) (closed s),
     o ++ omap System.emit_room e ++ omap emit (snd (onEnd rid w (lob s)))).
Proof.
  intros H. rewrite foldl_app, calls_send by done. cbn [foldl room_call lob].
  destruct (onEnd rid w (lob s)) as [g ej]. by rewrite (assoc_L (++)).
Qed.

(** An action either sends messages, or ends the battle and then calls [onEnd_]. *)
Lemma run_room_cases rid a s r :
  rooms s !! rid = Some r -> Room.id_ r = rid -> a <> Room.AStop ->
  exists r1, r1 = fst (Room.exec a r) /\
  ((Room.ended_ r1 = Room.ended_ r /\ (System.forces_end a = true -> Room.ended_ r = true) /\
    exists o, run_room rid a s = Ok (set_rooms (<[rid := r1]> (rooms s)) s, o)) \/
   (Room.ended_ r = false /\ Room.ended_ r1 = true /\ (a = Room.ATick \/ System.forces_end a = true) /\
    exists w e, Forall is_send e /\ snd (Room.exec a r) = e ++ [Room.PostTickerReset; Room.OnEnd rid w] /\
      run_room rid a s =
        Ok (mkWorld (fst (onEnd rid w (lob s))) (<[rid := r1]> (rooms s)) (resets s ++ [rid]) (closed s),
            omap System.emit_room e ++ omap emit (snd (onEnd rid w (lob s)))))).
Proof.
  intros Hr Hid Ha. unfold run_room. rewrite Hr. destruct (Room.exec a r) as [r1 e] eqn:He. exists r1. split; [done|].
  pose proof (System.exec_fate _ _ _ _ He Ha) as Hfate.
  assert (Forall (fun x => Room.ending x = false) e ->
          exists o, Ok (foldl (room_call rid) (set_rooms (<[rid := r1]> (rooms s)) s, []) e) =
                    Ok (set_rooms (<[rid := r1]> (rooms s)) s, o)) as Hquiet.
  { intros Hq. rewrite calls_send; [by eexists|]. eapply Forall_impl; [exact Hq|]. apply quiet_is_send. }
  destruct (Room.ended_ r) eqn:Er.
  { destruct Hfate as [(? & _ & ?)|[? _]]; [|done]. left. split_and!; [done|done|]. apply Hquiet.
    destruct (Room.exec_ended _ _ _ _ He Er) as (Hq & _). eapply Forall_impl; [exact Hq|]. by intros x []. }
  destruct (Room.exec_running _ _ _ _ He Er) as [Hq|(e1 & e2 & w & -> & Hq & (b & -> & Hb) & Hend)].
  - left. destruct Hfate as [(? & _ & ?)|(_ & _ & (w & Hone & _) & _)]; [by eauto|].
    destruct (System.no_end_quiet e Hq) as [Hnone _]. congruence.
  - right. destruct Hfate as [(? & _)|(_ & _ & _ & Hwhy)]; [congruence|]. split_and!; [done|done|done|].
    assert (Forall is_send (e1 ++ b)) as Hs.
    { apply Forall_app. split; (eapply Forall_impl; [eassumption|]); [apply quiet_is_send|]. intros x [c ->]. by eexists _, _. }
    rewrite (assoc_L (++)), Hid. exists w, (e1 ++ b). split_and!; [done|done|]. by rewrite calls_end.
Qed.

End RoomActions.

(** ** Invariant *)

(** The simulation of a room is that of the players it has connections for. *)
Definition staffed (r : Room.t) : Prop :=
  BattleSim.wf (Room.sim_ r) /\
  forall p, is_Some (BattleSim.players_ (Room.sim_ r) !! p) <-> is_Some (Room.conns_ r !! p).

Lemma make_staffed rid p1 c1 p2 c2 : staffed (Room.make rid [(p1, c1); (p2, c2)]).
Proof.
  split; [apply BattleSim.wf_add, BattleSim.wf_add, BattleSim.wf_init|]. intros p. cbn.
  rewrite !lookup_insert_is_Some', !lookup_empty. unfold is_Some. naive_solver.
Qed.

Section Staff.
Context {HO : HashOrder} {LM : Libm}.

Lemma tick_staffed r : staffed r -> staffed (fst (Room.onTick r)).
Proof.
  intros [Hwf Hp]. unfold Room.onTick. destruct (Room.ended_ r); [done|].
  destruct (BattleSim.step _ _) as [ch s1] eqn:Es. pose proof (BattleSim.wf_step _ _ _ _ Es Hwf) as Hwf1.
  assert (forall p, is_Some (BattleSim.players_ s1 !! p) <-> is_Some (BattleSim.players_ (Room.sim_ r) !! p)) as Hsame.
  { intros p. pose proof (BattleSim.step_players _ _ _ _ p Es Hwf) as H. destruct (BattleSim.players_ (Room.sim_ r) !! p).
    - destruct H as (h & -> & _). split; by eexists.
    - by destruct H as [-> _]. }
  destruct (BattleSim.takeRemovedProjectileIds s1) as [rm s2] eqn:Et. pose proof (BattleSim.wf_take _ Hwf1) as Hwf2.
  rewrite Et in Hwf2. assert (BattleSim.players_ s2 = BattleSim.players_ s1) as Hpl by (by inv Et).
  cbv zeta. destruct (_ =? 0); (split; [done|]); intros p; cbn; by rewrite Hpl, Hsame.
Qed.

Lemma exec_staffed a r : staffed r -> staffed (fst (Room.exec a r)).
Proof.
  intros Hs. destruct a; simpl; unfold Room.start, Room.onInput, Room.rebind, Room.dropConn, Room.forceEnd, Room.endBattle; try done.
  - destruct (Room.ended_ r); [done|]. destruct Hs as [Hwf Hp]. split; [by apply BattleSim.wf_input|].
    intros p. rewrite <- Hp. cbn. unfold BattleSim.applyInput. repeat dmatch; try done. cbn.
    rewrite lookup_insert_is_Some'. naive_solver.
  - destruct (Room.conns_ r !! pid) eqn:E; [|done]. destruct Hs as [Hwf Hp]. split; [done|]. intros p. cbn.
    rewrite Hp, lookup_insert_is_Some'. naive_solver.
  - destruct (Room.conns_ r !! pid) eqn:E; [|done]. destruct Hs as [Hwf Hp]. split; [done|]. intros p. cbn.
    rewrite Hp, lookup_insert_is_Some'. naive_solver.
  - by destruct (Room.ended_ r).
  - destruct (Room.ticker_ r); [by apply tick_staffed|done].
Qed.

(** A battle that ends by a tick is won by one of its players. *)
Lemma winner_plays s : BattleSim.winnerOrZero s <> 0 -> is_Some (BattleSim.players_ s !! BattleSim.winnerOrZero s).
Proof.
  rewrite BattleSim.winner_fold. intros Hw. destruct (filter _ _) as [|x [|y l]] eqn:E; try done.
  assert (x ∈ [x]) as Hx by left. rewrite <- E in Hx. apply list_elem_of_filter in Hx as [_ Hx].
  by apply elem_of_hash_order_dom in Hx.
Qed.

Lemma tick_output_sends ch ps rm r : Forall is_send (Room.tick_output ch ps rm r).
Proof.
  unfold Room.tick_output. repeat dmatch; try done; apply Room.Forall_broadcast; intros c; by eexists _, _.
Qed.

(** What a room does last: it tells every connection the winner, who is the one
    it was told or, after a tick, one of its players. *)
Lemma ending_effects a r e w rid :
  staffed r -> snd (Room.exec a r) = e ++ [Room.PostTickerReset; Room.OnEnd rid w] ->
  (a = Room.ATick /\ is_Some (Room.conns_ r !! w) \/ a = Room.AForceEnd w) /\
  exists e0 r', e = e0 ++ Room.broadcast (MBattleEnd w) r' /\ Room.conns_ r' = Room.conns_ r.
Proof.
  intros Hs Hex. assert (Forall is_send (snd (Room.exec a r)) -> False) as Hno.
  { rewrite Hex. intros [_ Hf]%Forall_app. apply Forall_cons in Hf as [(c & m & ?) _]. done. }
  destruct a; cbn [Room.exec] in Hex, Hno.
  - exfalso. apply Hno. apply Forall_app. split; apply Room.Forall_broadcast; intros c; by eexists _, _.
  - exfalso. apply Hno. unfold Room.onInput. by destruct (Room.ended_ r).
  - exfalso. apply Hno. unfold Room.rebind. destruct (Room.conns_ r !! pid); [|done].
    apply Forall_cons. split; [by eexists _, _|]. apply Forall_singleton. by eexists _, _.
  - exfalso. apply Hno. unfold Room.dropConn. by destruct (Room.conns_ r !! pid).
  - unfold Room.forceEnd in Hex. destruct (Room.ended_ r); [by destruct e|]. cbn [Room.endBattle snd] in Hex.
    apply app_inj_2 in Hex as [<- [= _ ->]]; [|done]. split; [by right|]. by exists [], (Room.set_ended true r).
  - by exfalso; apply Hno.
  - pose proof (tick_staffed r Hs) as Hs1. destruct (Room.ticker_ r); [|by destruct e]. unfold Room.onTick in Hex, Hs1.
    destruct (Room.ended_ r); [by destruct e|]. destruct (BattleSim.step _ _) as [ch s1].
    destruct (BattleSim.takeRemovedProjectileIds s1) as [rm s2]. cbv zeta in Hex, Hs1.
    set (r1 := Room.set_sim s2 _) in *.
    destruct (Z.eqb_spec (BattleSim.winnerOrZero s2) 0) as [|Hw]; cbn [snd fst Room.endBattle] in Hex, Hs1.
    + pose proof (tick_output_sends ch (BattleSim.projectileIds s1) rm r1) as Hf. rewrite Hex in Hf.
      apply Forall_app in Hf as [_ Hf]. apply Forall_cons in Hf as [(c & m & ?) _]. done.
    + rewrite (assoc_L (++)) in Hex. apply app_inj_2 in Hex as [<- [= _ <-]]; [|done]. split.
      * left. split; [done|]. by apply (proj2 Hs1), winner_plays.
      * by eexists _, (Room.set_ended true r1).
  - by exfalso; apply Hno.
Qed.

Lemma broadcast_told p c m r : Room.conns_ r !! p = Some (Some c) -> Room.Send c m ∈ Room.broadcast m r.
Proof.
  intros Hp. unfold Room.broadcast. apply list_elem_of_In, in_flat_map. exists p. split.
  - apply list_elem_of_In, elem_of_hash_order_dom. by eexists.
  - rewrite Hp. by left.
Qed.

End Staff.

(** Lobby and room objects agree at once: the rooms in the table are those that
    run, every player of a running room has his session in it, with the same
    connection, and the ended rooms are those whose ticker waits to be destroyed. *)
Record Rooms (s : world) : Prop := mkRooms {
  R_pool : EventLoopThreadPool.loops_ (gamePool_ (lob s)) = [];
  R_open : closed s = false;
  R_known : forall rid l, rooms_ (lob s) !! rid = Some l ->
    l = None /\ exists r, rooms s !! rid = Some r /\ Room.ended_ r = false;
  R_id : forall rid r, rooms s !! rid = Some r -> Room.id_ r = rid /\ 1 <= rid < nextRoomId_ (lob s);
  R_two : forall rid r, rooms s !! rid = Some r ->
    exists p1 p2, p1 <> p2 /\ forall p, is_Some (Room.conns_ r !! p) <-> p = p1 \/ p = p2;
  R_staffed : forall rid r, rooms s !! rid = Some r -> staffed r;
  R_runs : forall rid r, rooms s !! rid = Some r -> Room.ended_ r = false ->
    is_Some (rooms_ (lob s) !! rid) /\ Room.ticker_ r = true /\
    forall pid, is_Some (Room.conns_ r !! pid) -> in_room rid pid (lob s);
  R_nodup : NoDup (resets s);
  R_ended : forall rid, rid ∈ resets s <-> exists r, rooms s !! rid = Some r /\ Room.ended_ r = true;
  R_bind : forall pid ss, sessions_ (lob s) !! pid = Some ss -> roomId ss <> 0 ->
    exists r, rooms s !! roomId ss = Some r /\ Room.conns_ r !! pid = Some (s_conn ss : option Room.conn);
}.

(** A room after tasks [as'] that do not end it. *)
Record kept (as' : list Room.action) (r r1 : Room.t) : Prop := mkKept {
  K_id : Room.id_ r1 = Room.id_ r;
  K_ended : Room.ended_ r1 = Room.ended_ r;
  K_ticker : Room.ticker_ r1 = Room.ticker_ r;
  K_staffed : staffed r -> staffed r1;
  K_conns : forall pid, Room.conns_ r1 !! pid = System.rebound pid as' <$> Room.conns_ r !! pid;
}.

Lemma kept_refl r : kept [] r r.
Proof. split; try done. intros pid. by destruct (Room.conns_ r !! pid). Qed.

Lemma kept_trans as1 as2 r r1 r2 : kept as1 r r1 -> kept as2 r1 r2 -> kept (as1 ++ as2) r r2.
Proof.
  intros [I1 E1 T1 S1 C1] [I2 E2 T2 S2 C2]. split; try congruence; [by auto|]. intros pid. rewrite C2, C1.
  destruct (Room.conns_ r !! pid) as [oc|]; [|done]. simpl. by rewrite System.rebound_app.
Qed.

Lemma kept_some as' r r1 pid : kept as' r r1 -> is_Some (Room.conns_ r1 !! pid) <-> is_Some (Room.conns_ r !! pid).
Proof. intros [_ _ _ _ ->]. apply fmap_is_Some. Qed.

(** The rooms of two heaps, room by room. *)
Definition heap_kept (acts : Z -> list Room.action) (m m1 : gmap Z Room.t) : Prop :=
  forall rid, match m !! rid, m1 !! rid with
              | Some r, Some r1 => kept (acts rid) r r1
              | None, None => True
              | _, _ => False
              end.

Lemma heap_kept_trans a1 a2 a3 m m1 m2 :
  heap_kept a1 m m1 -> heap_kept a2 m1 m2 -> (forall rid, a3 rid = a1 rid ++ a2 rid) -> heap_kept a3 m m2.
Proof.
  intros H1 H2 Ha rid. specialize (H1 rid). specialize (H2 rid). rewrite Ha.
  destruct (m !! rid), (m1 !! rid), (m2 !! rid); try done. by eapply kept_trans.
Qed.

Lemma heap_kept_back acts m m1 rid r1 :
  heap_kept acts m m1 -> m1 !! rid = Some r1 -> exists r, m !! rid = Some r /\ kept (acts rid) r r1.
Proof. intros H Hr. specialize (H rid). rewrite Hr in H. destruct (m !! rid); [eauto|done]. Qed.

Lemma heap_kept_fw acts m m1 rid r :
  heap_kept acts m m1 -> m !! rid = Some r -> exists r1, m1 !! rid = Some r1 /\ kept (acts rid) r r1.
Proof. intros H Hr. specialize (H rid). rewrite Hr in H. destruct (m1 !! rid); [eauto|done]. Qed.

(** What the clients' handlers send to rooms. *)
Definition plain (s : world) (e : list GameServer.effect) : Prop :=
  Forall (fun x => GameServer.starts_room x = false) e /\
  forall l rid a, PostRoom l rid a ∈ e ->
    l = None /\ System.lobby_action a /\ System.forces_end a = false /\
    exists r, rooms s !! rid = Some r /\ Room.id_ r = rid.

Section Performing.
Context {HO : HashOrder} {LM : Libm}.

Lemma perform_plain e s o :
  plain s e ->
  exists m o1, foldl perform (Ok (s, o)) e = Ok (set_rooms m s, o ++ o1) /\
    heap_kept (fun rid => System.posts rid e) (rooms s) m.
Proof.
  revert s o. induction e as [|x e IH]; intros s o [Hn Hp].
  { exists (rooms s), []. rewrite app_nil_r. destruct s. split; [done|]. intros rid. simpl.
    destruct (_ !! rid); [apply kept_refl|done]. }
  apply Forall_cons in Hn as [Hx Hn].
  assert (forall s1 o1, perform (Ok (s, o)) x = Ok (s1, o ++ o1) -> lob s1 = lob s -> resets s1 = resets s -> closed s1 = closed s ->
    heap_kept (fun rid => System.posts rid [x]) (rooms s) (rooms s1) ->
    exists m o1, foldl perform (Ok (s, o)) (x :: e) = Ok (set_rooms m s, o ++ o1) /\
      heap_kept (fun rid => System.posts rid (x :: e)) (rooms s) m) as Hstep.
  { intros s1 o1 E El Er Ec Hk. cbn [foldl]. rewrite E. destruct (IH s1 (o ++ o1)) as (m & o2 & -> & Hk2).
    - split; [done|]. intros l rid a Hin. destruct (Hp l rid a) as (? & ? & ? & r & Hr & Hid); [by right|].
      split_and!; try done. destruct (heap_kept_fw _ _ _ _ _ Hk Hr) as (r1 & ? & Hkr). exists r1. split; [done|].
      rewrite (K_id _ _ _ Hkr). done.
    - exists m, (o1 ++ o2). rewrite (assoc_L (++)). split; [unfold set_rooms; congruence|].
      eapply heap_kept_trans; [exact Hk|exact Hk2|]. intros rid. apply (System.posts_app rid [x]). }
  assert ((forall l rid a, x <> PostRoom l rid a) -> heap_kept (fun rid => System.posts rid [x]) (rooms s) (rooms s)) as Hsame.
  { intros Hne rid. destruct (rooms s !! rid); [|done]. assert (System.posts rid [x] = []) as ->.
    { destruct x; try done. by edestruct Hne. } apply kept_refl. }
  destruct x as [c m|c|rid l ps|l rid a|j]; try done; try (by eapply Hstep; [done..|apply Hsame]).
  destruct (Hp l rid a) as (-> & Hla & Hf & r & Hr & Hid); [left|].
  assert (a <> Room.AStop) as Hns by (by intros ->).
  destruct (run_room_cases rid a s r Hr Hid Hns) as (r1 & Hr1 & [(He & _ & o1 & Heq)|(_ & _ & [->|?] & _)]); [|done|congruence].
  eapply (Hstep _ o1); [cbn [perform res_bind]; by rewrite Heq|done..|].
  intros rid'. cbn [rooms set_rooms]. destruct (decide (rid' = rid)) as [->|Hne].
  - rewrite Hr, lookup_insert_eq. assert (System.posts rid [PostRoom None rid a] = [a]) as ->.
    { unfold System.posts. simpl. by rewrite decide_True. }
    pose proof (exec_staffed a r) as Hst. destruct (Room.exec a r) as [r1' e'] eqn:Hex. simpl in Hr1. subst r1'.
    split; [by eapply Room.exec_id|done| |done|].
    + rewrite (System.exec_ticker _ _ _ _ Hex). by destruct a.
    + intros pid. by eapply System.exec_conns.
  - rewrite lookup_insert_ne by done. destruct (rooms s !! rid'); [|done].
    assert (System.posts rid' [PostRoom None rid a] = []) as ->; [|apply kept_refl].
    unfold System.posts. simpl. by rewrite decide_False.
Qed.

End Performing.

(** ** The handlers keep the invariant *)

(** A change of the lobby that rooms follow. *)
Lemma Rooms_follow s g m e :
  Rooms s -> System.handled (lob s) g e -> EventLoopThreadPool.loops_ (gamePool_ g) = [] ->
  (forall rid, Forall (fun a => System.forces_end a = false) (System.posts rid e)) ->
  heap_kept (fun rid => System.posts rid e) (rooms s) m -> Rooms (set_rooms m (set_lob g s)).
Proof.
  intros [] HH Hpool Hnf Hk. split; cbn [lob rooms resets closed set_rooms set_lob]; try done.
  - intros rid l. rewrite (System.H_rooms _ _ _ HH). intros Hl. destruct (R_known0 _ _ Hl) as (-> & r & Hr & He).
    destruct (heap_kept_fw _ _ _ _ _ Hk Hr) as (r1 & Hr1 & K). split; [done|]. exists r1. rewrite (K_ended _ _ _ K). done.
  - intros rid r1 Hr1. destruct (heap_kept_back _ _ _ _ _ Hk Hr1) as (r & Hr & K).
    rewrite (K_id _ _ _ K), (System.H_next _ _ _ HH). auto.
  - intros rid r1 Hr1. destruct (heap_kept_back _ _ _ _ _ Hk Hr1) as (r & Hr & K).
    destruct (R_two0 _ _ Hr) as (p1 & p2 & Hne & Hp). exists p1, p2. split; [done|]. intros p. rewrite <- Hp.
    by eapply kept_some.
  - intros rid r1 Hr1. destruct (heap_kept_back _ _ _ _ _ Hk Hr1) as (r & Hr & K). eapply K_staffed; eauto.
  - intros rid r1 Hr1 He1. destruct (heap_kept_back _ _ _ _ _ Hk Hr1) as (r & Hr & K).
    rewrite (K_ended _ _ _ K) in He1. destruct (R_runs0 _ _ Hr He1) as (Hl & Ht & Hin).
    rewrite (System.H_rooms _ _ _ HH), (K_ticker _ _ _ K). split_and!; [done|done|]. intros pid Hp.
    destruct (Hin pid) as (ss & Hss & Hrs); [by apply (kept_some _ _ _ pid K)|].
    destruct (System.H_leave _ _ _ HH _ _ Hss) as [|Hx]; rewrite Hrs in *; [destruct (R_id0 _ _ Hr); lia|done|].
    exfalso. apply Exists_exists in Hx as (a & Ha & Hfa). specialize (Hnf rid). rewrite Forall_forall in Hnf.
    rewrite Hnf in Hfa; done.
  - intros rid. rewrite R_ended0. split.
    + intros (r & Hr & He). destruct (heap_kept_fw _ _ _ _ _ Hk Hr) as (r1 & Hr1 & K). exists r1.
      rewrite (K_ended _ _ _ K). done.
    + intros (r1 & Hr1 & He). destruct (heap_kept_back _ _ _ _ _ Hk Hr1) as (r & Hr & K). exists r.
      rewrite <- (K_ended _ _ _ K). done.
  - intros pid ss' Hp Hr. destruct (System.H_bind _ _ _ HH _ _ Hp Hr) as (ss & Hss & Hrs & Hb). rewrite <- Hrs in Hr |- *.
    destruct (R_bind0 _ _ Hss Hr) as (r & Hro & Hc). destruct (heap_kept_fw _ _ _ _ _ Hk Hro) as (r1 & Hr1 & K).
    exists r1. split; [done|]. by rewrite (K_conns _ _ _ K), Hc, <- Hb.
Qed.

Section Handlers.
Context {HO : HashOrder} {LM : Libm}.

(** What handlers of clients do to rooms: none is ended, and new ones are on the
    lobby's loop. *)
Definition harmless (e : list GameServer.effect) : Prop :=
  (forall l rid x, PostRoom l rid x ∈ e -> System.forces_end x = false) /\
  (forall rid l ps, NewRoom rid l ps ∈ e -> l = None).

Lemma harmless_silent e : Forall System.silent e -> harmless e.
Proof. intros Hs. rewrite Forall_forall in Hs. split; intros *; intros Hin; by apply Hs in Hin. Qed.

Lemma harmless_room g ss x pre suf :
  System.forces_end x = false -> Forall System.silent pre -> Forall System.silent suf ->
  harmless (pre ++ System.to_room g ss x ++ suf).
Proof.
  intros Hx [Hp1 Hp2]%harmless_silent [Hs1 Hs2]%harmless_silent. split; intros *; rewrite !elem_of_app.
  - intros [|[[_ ->]%System.to_room_elem|]]; eauto.
  - intros [|[Hin|]]; eauto. pose proof (System.to_room_none g ss x) as Hn. rewrite Forall_forall in Hn. by apply Hn in Hin.
Qed.

(** What the events of clients send to rooms and take from the pool. *)
Lemma client_effects ev a g a' g' e :
  LInv a g -> GameServer.sstep ev a g a' g' e -> (forall now, ev <> GameServer.EvWheel now) ->
  (forall rid w, ev <> GameServer.EvRoomEnd rid w) -> EventLoopThreadPool.loops_ (gamePool_ g) = [] ->
  EventLoopThreadPool.loops_ (gamePool_ g') = [] /\
  harmless e.
Proof.
  intros HI H Hw He Hpool. pose proof HI as [HS HT].
  destruct ev as [c acc now r1 r2|c q tok now|c|c i|c ms now|c|r wn|now]; cbn [GameServer.sstep] in H;
    [| | | | | |by edestruct He|by edestruct Hw].
  - cbn [GameServer.onLogin TimerWheel.spec_interp] in H. inv H. split; [done|]. apply harmless_silent.
    constructor; [done|by apply System.silent_enqueue].
  - destruct (GameServer.onReconnect_inv c q tok now a g HI) as [(sq & Hq & _ & Hnull & Heq)|[_ Heq]]; cbn zeta in Heq;
      rewrite Heq in H; apply pair_equal_spec in H as [_ H]; apply pair_equal_spec in H as [<- <-]; (split; [done|]).
    + apply (harmless_room g sq (Room.ARebind q c) [_]); [done|by constructor|by apply System.silent_enqueue].
    + apply harmless_silent. by repeat constructor.
  - destruct (GameServer.onMatch_inv c a g HS) as [(q & sq & Hso & Hl & Heq)|[_ Heq]]; rewrite Heq in H.
    2: { inv H. split; [done|]. by apply harmless_silent. }
    apply GameServer.sessionOf_inv in Hso as (Hq & Hc & _); [|done].
    pose proof (GameServer.LInv_queued q sq c a g HI Hq Hc Hl) as HI1.
    destruct (GameServer.tryMatch_inv _ _ HI1) as [(q' & _ & _ & _ & Heq')|
      (p1 & p2 & s1 & s2 & c1 & c2 & t1 & t2 & q' & l & pool & _ & _ & _ & _ & _ & _ & _ & _ & _ & _ & _ & Hl' & Heq')];
      rewrite Heq' in H; apply pair_equal_spec in H as [_ H]; apply Ok_inj, pair_equal_spec in H as [<- <-].
    + split; [done|]. by apply harmless_silent.
    + unfold EventLoopThreadPool.getNextLoop in Hl'. change (gamePool_ (GameServer.queued _ _ _ _)) with (gamePool_ g) in Hl'.
      rewrite Hpool in Hl'. injection Hl' as <- <-. split; [done|].
      split; intros *; rewrite !elem_of_cons, elem_of_nil; intros [?|[?|[]]]; naive_solver.
  - unfold GameServer.onInput in H. destruct (GameServer.sessionOf c g) as [[q sq]|] eqn:Es.
    2: { cbn in H. inv H. split; [done|]. by apply harmless_silent. }
    destruct (bool_decide_reflect (GameServer.state sq = kInRoom)) as [Hst|]; cbn in H; [|inv H; split; [done|]; by apply harmless_silent].
    destruct (rooms_ g !! roomId sq) as [l|] eqn:El; cbn in H; inv H; (split; [done|]); [|by apply harmless_silent].
    split; intros *; rewrite list_elem_of_singleton; naive_solver.
  - simpl in H. inv H. split; [by destruct (GameServer.sessionOf c g) as [[]|]|]. apply harmless_silent. by repeat constructor.
  - destruct (GameServer.onDisconnect_inv (GameServer.connName c) a g HS) as [(q & sq & _ & Hq & Heq)|[_ Heq]];
      [|rewrite Heq in H; inv H; split; [done|]; by apply harmless_silent].
    destruct (GameServer.parted _ _ _ _) as [ss' qu] eqn:Ep. rewrite Heq in H.
    apply pair_equal_spec in H as [_ H]; apply pair_equal_spec in H as [<- <-]. split; [done|].
    apply (harmless_room g sq (Room.ADrop q) []); [done|done|by apply System.silent_enqueue].
Qed.

(** A new room, which starts at once. *)
Lemma Rooms_created s g p1 c1 p2 c2 :
  Rooms s -> Sess g -> System.created (lob s) g None p1 c1 p2 c2 -> EventLoopThreadPool.loops_ (gamePool_ g) = [] ->
  let rid := nextRoomId_ (lob s) in
  1 <= rid ->
  exists s1 o, foldl perform (Ok (set_lob g s, []))
                 [NewRoom rid None [(p1, Some c1); (p2, Some c2)]; PostRoom None rid Room.AStart] = Ok (s1, o) /\
    lob s1 = g /\ Rooms s1.
Proof.
  intros HI HS [HR HN Hne HB HV [Hin1 Hin2]] Hpool rid Hrid.
  destruct (System.make_two rid p1 c1 p2 c2 Hne) as (Hm1 & Hm2 & Hm & Hid & Hend & _).
  set (r0 := Room.make rid _) in *. cbn [foldl perform res_bind app].
  destruct (run_room_cases rid Room.AStart (set_rooms (<[rid := r0]> (rooms (set_lob g s))) (set_lob g s)) r0)
    as (r1 & Hr1 & [(He & _ & o & Heq)|(_ & _ & [?|?] & _)]); [apply lookup_insert_eq|done|done| |done|done].
  change (Room.make rid _) with r0. rewrite Heq. cbn [res_bind rooms lob set_lob set_rooms resets closed]. rewrite insert_insert_eq.
  eexists _, _. split; [done|]. split; [done|].
  assert (Room.conns_ r1 = Room.conns_ r0 /\ Room.ticker_ r1 = true /\ Room.id_ r1 = rid /\ Room.ended_ r1 = false)
    as (Hc1 & Ht1 & Hid1 & He1) by (rewrite Hr1; split_and!; done).
  assert (forall rid' r, rooms s !! rid' = Some r -> rid' <> rid) as Hfresh.
  { intros rid' r Hr. destruct (R_id s HI _ _ Hr). unfold rid. lia. }
  destruct HI. split; cbn [lob rooms resets closed set_rooms set_lob]; try done.
  - intros rid' l. rewrite HR. intros [[<- <-]|[Hn Hl]]%lookup_insert_Some.
    + split; [done|]. exists r1. by rewrite lookup_insert_eq.
    + destruct (R_known0 _ _ Hl) as (-> & r & Hr & He'). split; [done|]. exists r. by rewrite lookup_insert_ne.
  - intros rid' r [[<- <-]|[_ Hr]]%lookup_insert_Some; rewrite HN; [split; [done|unfold rid; lia]|].
    destruct (R_id0 _ _ Hr). split; [done|lia].
  - intros rid' r [[<- <-]|[_ Hr]]%lookup_insert_Some; [|eauto]. exists p1, p2. split; [done|]. rewrite Hc1.
    intros p. split; [apply Hm|]. intros [->| ->]; rewrite ?Hm1, ?Hm2; by eexists.
  - intros rid' r [[<- <-]|[_ Hr]]%lookup_insert_Some; [|eauto]. rewrite Hr1. apply exec_staffed, make_staffed.
  - intros rid' r [[<- <-]|[Hn Hr]]%lookup_insert_Some He'.
    + rewrite HR, lookup_insert_eq, Hc1. split_and!; [by eexists|done|]. by intros p [->| ->]%Hm.
    + destruct (R_runs0 _ _ Hr He') as (? & ? & Hin). rewrite HR, lookup_insert_ne by done. split_and!; [done|done|].
      intros pid (ss & Hss & Hrs)%Hin. rewrite <- Hrs. apply (HV _ _ Hss). destruct (R_id0 _ _ Hr). lia.
  - intros rid'. rewrite R_ended0. split.
    + intros (r & Hr & ?). exists r. rewrite lookup_insert_ne; [done|]. apply not_eq_sym. eauto.
    + intros (r & [[<- <-]|[_ Hr]]%lookup_insert_Some & ?); [congruence|eauto].
  - intros pid ss' Hp Hr. destruct (HB _ _ Hp Hr) as [(Hrid' & Hc)|(ss & Hss & Hrs & Hc)].
    + change (roomId ss' = rid) in Hrid'. rewrite Hrid'. exists r1. rewrite lookup_insert_eq, Hc1. split; [done|].
      by destruct Hc as [[-> ->]|[-> ->]].
    + rewrite <- Hrs in Hr |- *. destruct (R_bind0 _ _ Hss Hr) as (r & Hro & Hcr). exists r. rewrite <- Hc.
      rewrite lookup_insert_ne; [done|]. apply not_eq_sym. eauto.
Qed.

(** A room ends and the lobby handles it. *)
Lemma Rooms_end s rid r a w :
  Rooms s -> rooms s !! rid = Some r -> Room.ended_ r = false -> Room.ended_ (fst (Room.exec a r)) = true ->
  (a = Room.ATick \/ System.forces_end a = true) ->
  Rooms (mkWorld (fst (onEnd rid w (lob s))) (<[rid := fst (Room.exec a r)]> (rooms s)) (resets s ++ [rid]) (closed s)).
Proof.
  intros HI Hr He He1 Ha. destruct (Room.exec a r) as [r1 e] eqn:Hex. cbn [fst] in *. rewrite onEnd_lobby.
  pose proof (Room.exec_id _ _ _ _ Hex) as Hid.
  assert (forall p, Room.conns_ r1 !! p = Room.conns_ r !! p) as Hc.
  { intros p. rewrite (System.exec_conns _ _ _ _ p Hex). destruct Ha as [->|Ha]; [by destruct (_ !! p)|].
    destruct a; try done. by destruct (_ !! p). }
  destruct HI. destruct (R_id0 _ _ Hr) as [Hidr Hpos].
  split; cbn [lob rooms resets closed GameServer.set_sessions GameServer.set_rooms sessions_ rooms_ gamePool_ nextRoomId_]; try done.
  - intros rid' l [Hn Hl]%lookup_delete_Some. destruct (R_known0 _ _ Hl) as (-> & r' & Hr' & ?). split; [done|].
    exists r'. by rewrite lookup_insert_ne.
  - intros rid' r' [[<- <-]|[_ Hr']]%lookup_insert_Some; [split; [congruence|done]|eauto].
  - intros rid' r' [[<- <-]|[_ Hr']]%lookup_insert_Some; [|eauto]. destruct (R_two0 _ _ Hr) as (p1 & p2 & ? & Hp).
    exists p1, p2. split; [done|]. intros p. by rewrite Hc.
  - intros rid' r' [[<- <-]|[_ Hr']]%lookup_insert_Some; [|eauto]. pose proof (exec_staffed a r (R_staffed0 _ _ Hr)) as Hst.
    by rewrite Hex in Hst.
  - intros rid' r' [[<- <-]|[Hn Hr']]%lookup_insert_Some He'; [congruence|].
    destruct (R_runs0 _ _ Hr' He') as (? & ? & Hin). rewrite lookup_delete_ne by done. split_and!; [done|done|].
    intros pid (ss & Hss & Hrs)%Hin. exists ss. cbn. rewrite lookup_fmap, Hss. split; [|done]. simpl. f_equal.
    unfold GameServer.left_room. destruct (Z.eqb_spec (roomId ss) rid); [congruence|done].
  - apply NoDup_app. split_and!; [done| |apply NoDup_singleton]. intros x Hx ->%list_elem_of_singleton.
    apply R_ended0 in Hx as (r' & Hr' & ?). congruence.
  - intros rid'. rewrite elem_of_app, list_elem_of_singleton, R_ended0. destruct (decide (rid' = rid)) as [->|Hn].
    + rewrite lookup_insert_eq. split; [|by right]. intros _. by exists r1.
    + rewrite lookup_insert_ne by done. naive_solver.
  - intros pid ss Hp Hro. rewrite lookup_fmap in Hp. destruct (sessions_ (lob s) !! pid) as [y|] eqn:Ey; [|done].
    injection Hp as <-. unfold GameServer.left_room in Hro |- *. destruct (Z.eqb_spec (roomId y) rid) as [|Hn]; [done|].
    destruct (R_bind0 _ _ Ey Hro) as (r' & ? & ?). exists r'. by rewrite lookup_insert_ne.
Qed.

(** A session outside rooms disappears. *)
Lemma Rooms_forget s pid ss :
  Rooms s -> sessions_ (lob s) !! pid = Some ss -> roomId ss = 0 ->
  Rooms (set_lob (GameServer.set_sessions (delete pid (sessions_ (lob s))) (lob s)) s).
Proof.
  intros [] Hp H0. split; cbn [lob rooms resets closed set_lob GameServer.set_sessions sessions_ rooms_ gamePool_ nextRoomId_]; try done.
  - intros rid r Hr He. destruct (R_runs0 _ _ Hr He) as (? & ? & Hin). split_and!; [done|done|].
    intros p (x & Hx & Hrx)%Hin. exists x. cbn. rewrite lookup_delete_ne; [done|]. intros <-.
    destruct (R_id0 _ _ Hr). rewrite Hp in Hx. injection Hx as <-. lia.
  - intros p x [_ Hx]%lookup_delete_Some. eauto.
Qed.

End Handlers.

(** ** The clock *)

Section Clock.
Context {HO : HashOrder} {LM : Libm}.

Lemma in_room_rid g pid ss l :
  Sess g -> sessions_ g !! pid = Some ss -> rooms_ g !! roomId ss = Some l -> 1 <= roomId ss.
Proof. intros HS _ Hl. apply (proj2 (GameServer.I_rid g HS)) in Hl. lia. Qed.

(** The end of a session in a battle: the room ends first, [onRoomEnd] sends both
    players back to the lobby, then the session is erased. *)
Lemma expire_in_room s pid ss :
  Rooms s -> Sess (lob s) -> sessions_ (lob s) !! pid = Some ss -> s_conn ss = None -> GameServer.state ss = kInRoom ->
  let rid := roomId ss in let w := GameServer.find_opponent pid rid (lob s) in
  exists r e g ej, rooms s !! rid = Some r /\ Room.ended_ r = false /\
    Forall is_send e /\ snd (Room.exec (Room.AForceEnd w) r) = e ++ [Room.PostTickerReset; Room.OnEnd rid w] /\
    onEnd rid w (lob s) = (g, ej) /\
    let s1 := mkWorld g (<[rid := Room.set_ended true r]> (rooms s)) (resets s ++ [rid]) (closed s) in
    Rooms s1 /\
    expireSession pid s =
      Ok (set_lob (GameServer.set_sessions (delete pid (sessions_ g)) g) s1,
          omap System.emit_room e ++ omap emit ej).
Proof.
  intros HR HS Hp Hc Hst rid w.
  destruct (GameServer.I_room _ HS _ _ Hp) as [[_ [l Hl]]|[? _]]; [|done].
  destruct (R_known s HR _ _ Hl) as (_ & r & Hr & He). fold rid in Hr, Hl.
  destruct (R_id s HR _ _ Hr) as [Hid _].
  assert (fst (Room.exec (Room.AForceEnd w) r) = Room.set_ended true r) as Hf.
  { simpl. unfold Room.forceEnd. by rewrite He. }
  destruct (run_room_cases rid (Room.AForceEnd w) s r Hr Hid) as (r1 & Hr1 & [(_ & Hx & _)|(_ & He1 & _ & w' & e & Hs & Hex & Heq)]);
    [done|by rewrite Hx in He|].
  destruct (ending_effects _ _ _ _ _ (R_staffed s HR _ _ Hr) Hex) as [[[? _]|[= <-]] _]; [done|].
  rewrite Hf in Hr1. subst r1. pose proof (Rooms_end s rid r (Room.AForceEnd w) w HR Hr He) as HR1. rewrite Hf in HR1.
  specialize (HR1 He1 (or_intror eq_refl)).
  destruct (onEnd rid w (lob s)) as [g ej] eqn:Eo. cbn [fst snd] in HR1, Heq.
  exists r, e, g, ej. split_and!; try done. cbn zeta. split; [done|].
  unfold expireSession. rewrite Hp, bool_decide_eq_false_2 by (rewrite Hc; tauto).
  rewrite decide_True by done. fold rid. rewrite Hl. fold w. rewrite Heq. done.
Qed.

(** What is left of the session of [pid] when the room has ended. *)
Lemma onEnd_member g rid w p ss :
  sessions_ g !! p = Some ss -> roomId ss = rid ->
  sessions_ (fst (onEnd rid w g)) !! p = Some (GameServer.set_room 0 GameServer.kLobby ss).
Proof.
  intros Hp Hr. rewrite onEnd_lobby. cbn. rewrite lookup_fmap, Hp. simpl. unfold GameServer.left_room.
  by rewrite Hr, Z.eqb_refl.
Qed.

Lemma LInv_onEnd rid w a g : LInv a g -> rid <> 0 -> LInv a (fst (onEnd rid w g)).
Proof.
  intros HI Hrid. pose proof (onEnd_interp rid w g a) as H. destruct (onEnd rid w g) as [g' e].
  by eapply GameServer.LInv_onRoomEnd in H.
Qed.

(** Outside rooms the session is only erased, as in [GameServer]. *)
Lemma LInv_forget tid d pid a g ss :
  LInv a g -> TimerWheel.t_due a !! tid = Some (d, GameServer.Expire pid) -> sessions_ g !! pid = Some ss ->
  LInv (TimerWheel.spec_cancel tid a) (GameServer.set_sessions (delete pid (sessions_ g)) g).
Proof.
  intros HI Ht Hp. pose proof (GameServer.LInv_expireSession tid d pid a g HI Ht) as H.
  destruct (GameServer.I_expire a g (proj2 HI) _ _ _ Ht) as (ss' & Hp' & Hc & _). unfold GameServer.expireSession in H.
  by rewrite Hp', bool_decide_eq_false_2 in H by (rewrite Hc; tauto).
Qed.

Lemma expire_inv tid d pid a s :
  Rooms s -> LInv a (lob s) -> TimerWheel.t_due a !! tid = Some (d, GameServer.Expire pid) ->
  exists s1 o, expireSession pid s = Ok (s1, o) /\ Rooms s1 /\ LInv (TimerWheel.spec_cancel tid a) (lob s1).
Proof.
  intros HR HI Ht. pose proof HI as [HS HT].
  destruct (GameServer.I_expire _ _ HT _ _ _ Ht) as (ss & Hp & Hc & _).
  destruct (GameServer.I_room _ HS _ _ Hp) as [[Hst [l Hl]]|[Hst H0]].
  - destruct (expire_in_room s pid ss HR HS Hp Hc Hst) as (r & e & g & ej & Hr & He & _ & _ & Eo & HR1 & Heq).
    pose proof (in_room_rid _ _ _ _ HS Hp Hl) as Hrid. eexists _, _. split; [exact Heq|].
    pose proof (onEnd_member (lob s) _ (GameServer.find_opponent pid (roomId ss) (lob s)) _ _ Hp eq_refl) as Hm.
    pose proof (LInv_onEnd (roomId ss) (GameServer.find_opponent pid (roomId ss) (lob s)) _ _ HI ltac:(lia)) as HI1.
    rewrite Eo in Hm, HI1. cbn [fst] in Hm, HI1. split; [|by eapply LInv_forget].
    by eapply (Rooms_forget _ _ _ HR1).
  - unfold expireSession. rewrite Hp, bool_decide_eq_false_2, decide_False by (try done; rewrite Hc; tauto).
    eexists _, _. split; [done|]. split; [by eapply Rooms_forget|by eapply LInv_forget].
Qed.

(** Timeouts and sweeps do nothing to rooms. *)
Lemma Rooms_same s g e :
  Rooms s -> System.handled (lob s) g e -> gamePool_ g = gamePool_ (lob s) -> Forall System.silent e ->
  Rooms (set_lob g s).
Proof.
  intros HR HH Hpool Hs. pose proof (Rooms_follow s g (rooms s) e HR HH) as H. destruct s. apply H.
  - rewrite Hpool. apply (R_pool _ HR).
  - intros rid. by rewrite System.posts_silent.
  - intros rid. rewrite System.posts_silent by done. destruct (_ !! rid); [apply kept_refl|done].
Qed.

Lemma match_timeout_silent pid g : Forall System.silent (snd (GameServer.match_timeout pid g)).
Proof. unfold GameServer.match_timeout. repeat dmatch; by repeat constructor. Qed.

Lemma match_timeout_pool pid g : gamePool_ (fst (GameServer.match_timeout pid g)) = gamePool_ g.
Proof. unfold GameServer.match_timeout. by repeat dmatch. Qed.

Lemma callback_inv now tid d cb a s o :
  Rooms s -> LInv a (lob s) -> TimerWheel.t_due a !! tid = Some (d, cb) ->
  exists a1 s1 o1, TimerWheel.spec_interp (callback now cb (Ok (s, o))) (TimerWheel.spec_cancel tid a) = (a1, Ok (s1, o1)) /\
    Rooms s1 /\ LInv a1 (lob s1).
Proof.
  intros HR HI Ht. destruct cb as [pid|pid|]; cbn [callback].
  - destruct (GameServer.match_timeout pid (lob s)) as [g e] eqn:E. eexists _, _, _. split; [done|].
    pose proof (GameServer.LInv_match_timeout tid d pid a (lob s) HI Ht) as Hm. rewrite E in Hm. split; [|done].
    destruct (System.callback_handled now tid d (GameServer.MatchTimeout pid) a (lob s) [] (TimerWheel.spec_cancel tid a) g e HI Ht)
      as (e' & -> & Hh); [simpl; by rewrite E|].
    pose proof (match_timeout_silent pid (lob s)) as Hs. pose proof (match_timeout_pool pid (lob s)) as Hpo.
    rewrite E in Hs, Hpo. by eapply Rooms_same.
  - destruct (expire_inv tid d pid a s HR HI Ht) as (s1 & o1 & -> & HR1 & HI1). cbn [res_bind TimerWheel.spec_interp].
    by eexists _, _, _.
  - cbn [GameServer.scheduleSweep TimerWheel.spec_interp]. rewrite GameServer.spec_add_timer by done.
    cbn [TimerWheel.spec_interp]. eexists _, _, _. split; [done|]. split; [done|]. by eapply GameServer.LInv_sweep.
Qed.

Lemma fire_inv now l a s o :
  Rooms s -> LInv a (lob s) ->
  exists a1 s1 o1, TimerWheel.spec_fire (callback now) l (a, Ok (s, o)) = (a1, Ok (s1, o1)) /\
    Rooms s1 /\ LInv a1 (lob s1).
Proof.
  revert a s o. induction l as [|tid l IH]; intros a s o HR HI; cbn [TimerWheel.spec_fire]; [by eauto 10|].
  destruct (TimerWheel.t_due a !! tid) as [[d cb]|] eqn:E; [|by apply IH].
  destruct (callback_inv now tid d cb a s o HR HI E) as (a1 & s1 & o1 & -> & HR1 & HI1). by apply IH.
Qed.

(** A wheel event fires the timers that are due at the next tick. *)
Lemma drive_fires now w s :
  GameServer.Lobby (w, lob s) -> GameServer.in_time (w, lob s) ->
  let a := TimerWheel.abs w in
  exists l w1 x, TimerWheel.advance (callback now) 100 (w, Ok (s, [])) = (w1, x) /\
    TimerWheel.Inv w1 /\ TimerWheel.remainderMs_ w1 = 0 /\
    TimerWheel.spec_fire (callback now) l
      (TimerWheel.mkTimers (TimerWheel.t_now a + 1) (TimerWheel.t_next a) (TimerWheel.t_due a), Ok (s, [])) = (TimerWheel.abs w1, x).
Proof.
  intros [HW Hrem HI] Ht. unfold GameServer.in_time in Ht. cbn [fst snd] in *.
  destruct (TimerWheel.advance_refines (callback now) 100 w (Ok (s, []))) as (HW1 & Hs & _ & Hr);
    [done|lia|rewrite Hrem; lia|rewrite Hrem; change ((0 + 100) / 100) with 1; lia|].
  rewrite Hrem in Hs, Hr. change (Z.to_nat ((0 + 100) / 100)) with 1%nat in Hs.
  destruct (TimerWheel.advance _ _ _) as [w1 x]. cbn [fst snd] in *. apply nsteps_once_inv in Hs as (l & _ & _ & Hs).
  by exists l, w1, x.
Qed.

Lemma drive_inv now w s :
  Rooms s -> GameServer.Lobby (w, lob s) -> GameServer.in_time (w, lob s) ->
  exists w1 s1 o, drive now (w, s) = Ok ((w1, s1), o) /\ Rooms s1 /\ GameServer.Lobby (w1, lob s1).
Proof.
  intros HR HL Ht. destruct (drive_fires now w s HL Ht) as (l & w1 & x & Had & HW1 & Hr & Hs). cbn [fst snd] in *.
  unfold drive. rewrite Had. pose proof (GameServer.LInv_later _ _ (GameServer.L_inv _ HL)) as HI.
  destruct (fire_inv now l _ s [] HR HI) as (a1 & s1 & o1 & Hf & HR1 & HI1). cbn [fst snd] in Hf.
  rewrite Hf in Hs. apply pair_equal_spec in Hs as [-> <-]. cbn [res_bind].
  eexists _, _, _. split; [done|]. split; [done|]. by split.
Qed.

End Clock.

(** ** Every step keeps the invariant *)

Section Steps.
Context {HO : HashOrder} {LM : Libm}.

Lemma serve_inv ev w s :
  Rooms s -> GameServer.Lobby (w, lob s) -> GameServer.in_time (w, lob s) -> label_ok (ILobby ev) ->
  (forall now, ev <> GameServer.EvWheel now) ->
  exists w1 s1 o, serve ev (w, s) = Ok ((w1, s1), o) /\ Rooms s1 /\ GameServer.Lobby (w1, lob s1) /\
    rooms_ (lob s) ⊆ rooms_ (lob s1).
Proof.
  intros HR HL Ht Hok Hw.
  assert (GameServer.event_ok ev /\ forall rid wn, ev <> GameServer.EvRoomEnd rid wn) as [Hev Hne] by by destruct ev.
  destruct (GameServer.exec_Lobby ev _ HL Ht Hev) as ([w1 g] & e & Hex & HL1 & _).
  destruct (GameServer.exec_sstep _ _ _ _ HL Ht Hev Hex) as (_ & _ & Hs). cbn [fst snd] in Hs.
  destruct (client_effects _ _ _ _ _ _ (GameServer.L_inv _ HL) Hs Hw Hne (R_pool s HR)) as (Hpool & Hnf & Hnew).
  unfold serve. rewrite Hex. cbn [res_bind fst snd]. rewrite (R_open s HR). cbn [andb].
  destruct (System.sstep_handled _ _ _ _ _ _ (GameServer.L_inv _ HL) Hs Hne) as [Hh|(l & p1 & c1 & p2 & c2 & Hc & ->)].
  - destruct (perform_plain e (set_lob g s) []) as (m & o & -> & Hk).
    { split; [apply Hh|]. intros l rid x Hin. destruct (System.H_posts _ _ _ Hh _ _ _ Hin) as [Hl Ha]. cbn [lob fst snd] in Hl.
      destruct (R_known s HR _ _ Hl) as (-> & r & Hr & _). split_and!; [done|done|by eapply Hnf|]. exists r.
      split; [done|]. by apply (R_id s HR). }
    cbn [res_bind]. eexists _, _, _. split; [done|]. split_and!; [|done|cbn [lob set_lob set_rooms]; by rewrite (System.H_rooms _ _ _ Hh)].
    apply (Rooms_follow s g m e HR Hh Hpool); [|done].
    intros rid. apply Forall_forall. intros a (x & Hx & Ha)%list_elem_of_omap. destruct x as [| | |l r b|]; try done.
    destruct (decide (r = rid)); [|done]. injection Ha as <-. by eapply Hnf.
  - assert (l = None) as -> by (eapply Hnew; left).
    destruct (Rooms_created s g p1 c1 p2 c2 HR (proj1 (GameServer.L_inv _ HL1)) Hc Hpool) as (s1 & o & Heq & <- & HR1).
    { apply (GameServer.I_rid _ (proj1 (GameServer.L_inv _ HL))). }
    replace (foldl perform _ _) with (Ok (s1, o)) by (symmetry; exact Heq). cbn [res_bind]. eexists _, _, _. split; [done|]. split_and!; [done|done|].
    rewrite (System.C_rooms _ _ _ _ _ _ _ Hc). cbn [snd]. apply insert_subseteq, eq_None_not_Some.
    intros [l Hl]. apply (proj2 (GameServer.I_rid _ (proj1 (GameServer.L_inv _ HL)))) in Hl. cbn [snd] in Hl. lia.
Qed.

Lemma tick_inv rid r a s :
  Rooms s -> LInv a (lob s) -> rooms s !! rid = Some r ->
  exists s1 o, run_room rid Room.ATick s = Ok (s1, o) /\ Rooms s1 /\ LInv a (lob s1).
Proof.
  intros HR HI Hr. destruct (R_id s HR _ _ Hr) as [Hid Hpos].
  destruct (run_room_cases rid Room.ATick s r Hr Hid) as (r1 & Hr1 & [(He & _ & o & Heq)|(He & He1 & _ & w & e & _ & _ & Heq)]); [done| |].
  - eexists _, _. split; [exact Heq|]. split; [|done].
    apply (Rooms_follow s (lob s) _ [] HR (System.handled_refl _) (R_pool s HR)); [done|]. intros rid'.
    destruct (decide (rid' = rid)) as [->|]; [|rewrite lookup_insert_ne by done; destruct (_ !! rid'); [apply kept_refl|done]].
    rewrite Hr, lookup_insert_eq. pose proof (exec_staffed Room.ATick r) as Hst.
    destruct (Room.exec Room.ATick r) as [r1' e] eqn:Ex. simpl in Hr1. subst r1'.
    split; [by eapply Room.exec_id|done|by rewrite (System.exec_ticker _ _ _ _ Ex)|done|].
    intros pid. rewrite (System.exec_conns _ _ _ _ _ Ex). by destruct (_ !! pid).
  - subst r1. eexists _, _. split; [exact Heq|]. split; [apply Rooms_end; auto|]. apply LInv_onEnd; [done|lia].
Qed.

Lemma reset_inv s : Rooms s -> Sess (lob s) -> exists s1, run_reset s = Ok s1 /\ Rooms s1 /\ lob s1 = lob s.
Proof.
  intros HR HS. unfold run_reset. destruct (resets s) as [|rid rest] eqn:E; [by eexists|].
  pose proof (R_ended s HR) as Hen. pose proof (R_nodup s HR) as Hnd. rewrite E in Hen, Hnd.
  apply NoDup_cons in Hnd as [Hnin Hnd]. destruct (proj1 (Hen rid)) as (r & Hr & He); [left|]. rewrite Hr.
  assert (rooms_ (lob s) !! rid = None) as Hno.
  { destruct (rooms_ (lob s) !! rid) as [l|] eqn:El; [|done]. destruct (R_known s HR _ _ El) as (_ & r' & ? & ?). congruence. }
  rewrite bool_decide_eq_false_2, bool_decide_eq_false_2 by (try done; rewrite Hno; by intros []). cbn [orb].
  eexists. split; [done|]. split; [|done]. destruct HR. split; cbn [lob rooms resets closed]; try done.
  - intros rid' l Hl. destruct (R_known0 _ _ Hl) as (-> & r' & Hr' & He'). split; [done|]. exists r'.
    rewrite lookup_delete_ne; [done|]. intros <-. congruence.
  - intros rid' r' [_ Hr']%lookup_delete_Some. eauto.
  - intros rid' r' [_ Hr']%lookup_delete_Some. eauto.
  - intros rid' r' [_ Hr']%lookup_delete_Some. eauto.
  - intros rid' r' [_ Hr']%lookup_delete_Some. eauto.
  - intros rid'. destruct (decide (rid' = rid)) as [->|Hn].
    + rewrite lookup_delete_eq. split; [done|]. by intros (? & ? & _).
    + rewrite lookup_delete_ne by done. rewrite <- Hen, elem_of_cons. naive_solver.
  - intros pid ss Hp Hr'. destruct (R_bind0 _ _ Hp Hr') as (r' & Hr1 & Hc). exists r'. split; [|done].
    rewrite lookup_delete_ne; [done|]. intros ->. destruct (GameServer.I_room _ HS _ _ Hp) as [[_ [l Hl]]|[_ ?]]; congruence.
Qed.

Lemma exec_inv x s :
  Rooms (snd s) -> GameServer.Lobby (lobby_of s) -> GameServer.in_time (lobby_of s) -> label_ok x ->
  exists s1 o, exec x s = Ok (s1, o) /\ Rooms (snd s1) /\ GameServer.Lobby (lobby_of s1).
Proof.
  destruct s as [w s]. unfold lobby_of. cbn [fst snd]. intros HR HL Ht Hok.
  assert (forall s1, LInv (TimerWheel.abs w) (lob s1) -> GameServer.Lobby (w, lob s1)) as HL1.
  { intros s1 HI1. destruct HL. by split. }
  pose proof (GameServer.L_inv _ HL) as HI. cbn [fst snd] in HI.
  destruct x as [ev|rid|]; cbn [exec fst snd].
  - assert ((exists now, ev = GameServer.EvWheel now) \/ forall now, ev <> GameServer.EvWheel now) as [[now ->]|Hw]
      by (destruct ev; eauto).
    + destruct (drive_inv now w s HR HL Ht) as (w1 & s1 & o & -> & ? & ?). by eexists _, _.
    + destruct (serve_inv ev w s HR HL Ht Hok) as (w1 & s1 & o & Heq & ? & ? & _); [done|].
      exists (w1, s1), o. split; [|done]. destruct ev; try exact Heq. by destruct (Hw now).
  - destruct (rooms s !! rid) as [r|] eqn:Hr; [|by eexists _, _].
    destruct (tick_inv rid r _ s HR HI Hr) as (s1 & o & -> & ? & ?). cbn [res_bind]. eexists _, _. split; [done|]. auto.
  - destruct (reset_inv s HR (proj1 HI)) as (s1 & -> & ? & Hl). cbn [res_bind]. eexists _, _. split; [done|].
    cbn [fst snd]. by rewrite Hl.
Qed.

End Steps.

Lemma boot_inv st : Rooms (snd (boot st)) /\ GameServer.Lobby (lobby_of (boot st)).
Proof.
  pose proof (GameServer.Lobby_boot 0 st ltac:(lia)) as HL. unfold boot, lobby_of.
  assert (snd (GameServer.boot 0 st) = GameServer.init 0 st) as Hs by done.
  destruct (GameServer.boot 0 st) as [w g]. simpl in Hs. subst g. split; [|done]. cbn [fst snd].
  split; cbn [lob rooms resets closed]; try done; try (intros *; by rewrite ?lookup_empty).
  - constructor.
  - intros rid. split; [by intros ?%not_elem_of_nil|]. intros (r & Hr & _). by rewrite lookup_empty in Hr.
Qed.

Lemma reachable_inv s : reachable s -> Rooms (snd s) /\ GameServer.Lobby (lobby_of s).
Proof.
  induction 1 as [st|s x s1 o HO LM _ [HR HL] Ht Hok Hex]; [apply boot_inv|].
  destruct (exec_inv x s HR HL Ht Hok) as (s2 & o2 & Hex2 & ? & ?). rewrite Hex in Hex2. by inv Hex2.
Qed.

(** ** Results *)

(** Two sessions as they were when the battle was looked at. *)
Definition like (ss x : GameServer.Session) : Prop :=
  roomId x = roomId ss /\ GameServer.account x = GameServer.account ss /\ s_conn x = s_conn ss.

(** The result of the battle of [p1] and [p2] has gone to the storage, and those
    who are connected have been told the same winner. *)
Definition settled (p1 p2 : Z) (ss1 ss2 : GameServer.Session) (o : list out) : Prop :=
  exists w,
    (w = p1 /\ OJob (GameServer.JRecord (GameServer.account ss1) (GameServer.account ss2)) ∈ o \/
     w = p2 /\ OJob (GameServer.JRecord (GameServer.account ss2) (GameServer.account ss1)) ∈ o) /\
    forall c, s_conn ss1 = Some c \/ s_conn ss2 = Some c -> OSend c (MBattleEnd w) ∈ o.

Lemma settled_app p1 p2 ss1 ss2 o o1 : settled p1 p2 ss1 ss2 o -> settled p1 p2 ss1 ss2 (o ++ o1).
Proof. intros (w & Hw & Hc). exists w. split; [|intros c ?]; rewrite ?elem_of_app; naive_solver. Qed.

Lemma settled_app_r p1 p2 ss1 ss2 o o1 : settled p1 p2 ss1 ss2 o1 -> settled p1 p2 ss1 ss2 (o ++ o1).
Proof. intros (w & Hw & Hc). exists w. split; [|intros c ?]; rewrite ?elem_of_app; naive_solver. Qed.

Section Results.
Context {HO : HashOrder} {LM : Libm}.
Context (rid p1 p2 : Z) (ss1 ss2 : GameServer.Session).
Context (Hrid : rid <> 0) (Hne : p1 <> p2) (Hr1 : roomId ss1 = rid) (Hr2 : roomId ss2 = rid).
Context (Ha1 : GameServer.account ss1 <> EmptyString) (Ha2 : GameServer.account ss2 <> EmptyString).

(** The battle of the two is going on. *)
Definition fighting (g : GameServer.t) : Prop :=
  is_Some (rooms_ g !! rid) /\ GameServer.storage g = true /\
  exists x1 x2, sessions_ g !! p1 = Some x1 /\ like ss1 x1 /\ sessions_ g !! p2 = Some x2 /\ like ss2 x2.

Lemma opponent_found q p g x y :
  Sess g -> sessions_ g !! q = Some x -> sessions_ g !! p = Some y -> roomId x = rid -> roomId y = rid -> q <> p ->
  GameServer.find_opponent q rid g = p.
Proof.
  intros HS Hq Hp Hx Hy Hqp. unfold GameServer.find_opponent.
  assert (p ∈ GameServer.session_order g) as Hin by (apply elem_of_hash_order_dom; eauto).
  assert (forall k z, sessions_ g !! k = Some z -> roomId z = rid -> k <> q -> k = p) as Hother.
  { intros k z Hk Hz Hkq. destruct (GameServer.I_two g HS q p k x y z) as [|[|]]; congruence. }
  induction (GameServer.session_order g) as [|k l IH] using rev_ind; [by apply not_elem_of_nil in Hin|].
  rewrite foldl_app. cbn [foldl]. apply elem_of_app in Hin as [Hin|<-%list_elem_of_singleton].
  - rewrite IH by done. destruct (sessions_ g !! k) as [z|] eqn:Ek; [|done].
    destruct (Z.eqb_spec (roomId z) rid), (Z.eqb_spec k q); try done. cbn [andb negb]. by eapply Hother.
  - rewrite Hp, Hy, Z.eqb_refl, (proj2 (Z.eqb_neq p q)) by done. done.
Qed.

Lemma onEnd_recorded w g :
  Sess g -> fighting g -> w = p1 \/ w = p2 ->
  (w = p1 /\ OJob (GameServer.JRecord (GameServer.account ss1) (GameServer.account ss2)) ∈ omap emit (snd (onEnd rid w g)) \/
   w = p2 /\ OJob (GameServer.JRecord (GameServer.account ss2) (GameServer.account ss1)) ∈ omap emit (snd (onEnd rid w g))).
Proof.
  intros HS (_ & Hst & x1 & x2 & H1 & (Hx1 & Hx1a & _) & H2 & (Hx2 & Hx2a & _)) Hw.
  pose proof (onEnd_interp rid w g (TimerWheel.abs TimerWheel.init)) as Ho. destruct (onEnd rid w g) as [g1 e].
  rewrite <- Hx1a, <- Hx2a. destruct Hw as [->| ->]; [left|right]; (split; [done|]).
  - apply (GameServer.onRoomEnd_records rid p1 p2 x1 x2) in Ho as ->; try done; try congruence; left.
  - apply (GameServer.onRoomEnd_records rid p2 p1 x2 x1) in Ho as ->; try done; try congruence; left.
Qed.

(** A room that ends settles the battle. *)
Lemma room_end_settles a s r w e :
  Rooms s -> Sess (lob s) -> fighting (lob s) -> rooms s !! rid = Some r -> Forall is_send e ->
  snd (Room.exec a r) = e ++ [Room.PostTickerReset; Room.OnEnd rid w] -> (a = Room.AForceEnd w -> w = p1 \/ w = p2) ->
  settled p1 p2 ss1 ss2 (omap System.emit_room e ++ omap emit (snd (onEnd rid w (lob s)))).
Proof.
  intros HR HS Hf Hr Hse Hex Hw. pose proof Hf as (_ & Hst & x1 & x2 & H1 & (Hx1 & _ & Hc1) & H2 & (Hx2 & _ & Hc2)).
  destruct (ending_effects _ _ _ _ _ (R_staffed s HR _ _ Hr) Hex) as [Hwhy (e0 & r' & -> & Hcs)].
  assert (forall p x, sessions_ (lob s) !! p = Some x -> roomId x = rid -> Room.conns_ r !! p = Some (s_conn x : option Room.conn)) as Hb.
  { intros p x Hp Hx. destruct (R_bind s HR _ _ Hp) as (r0 & Hr0 & Hc); [congruence|]. rewrite Hx, Hr in Hr0. by injection Hr0 as <-. }
  pose proof (Hb _ _ H1 ltac:(congruence)) as Hb1. pose proof (Hb _ _ H2 ltac:(congruence)) as Hb2.
  assert (w = p1 \/ w = p2) as Hw'.
  { destruct Hwhy as [[_ Hp]|Hp]; [|by apply Hw]. destruct (R_two s HR _ _ Hr) as (q1 & q2 & _ & Hq).
    apply Hq in Hp. assert (p1 = q1 \/ p1 = q2) by (apply Hq; by eexists). assert (p2 = q1 \/ p2 = q2) by (apply Hq; by eexists).
    naive_solver. }
  exists w. split.
  - destruct (onEnd_recorded w (lob s) HS Hf Hw') as [[? ?]|[? ?]]; [left|right]; (split; [done|]); apply elem_of_app; by right.
  - intros c Hc. apply elem_of_app. left. apply list_elem_of_omap. exists (Room.Send c (MBattleEnd w)). split; [|done].
    apply elem_of_app. right. destruct Hc as [Hc|Hc]; [apply (broadcast_told p1)|apply (broadcast_told p2)]; rewrite Hcs.
    + rewrite Hb1. exact (f_equal Some (eq_trans Hc1 Hc)).
    + rewrite Hb2. exact (f_equal Some (eq_trans Hc2 Hc)).
Qed.

Definition fate (s : world) (o : list out) : Prop := fighting (lob s) \/ settled p1 p2 ss1 ss2 o.

Lemma fate_app s o o1 : fate s o -> fate s (o ++ o1).
Proof. intros [|]; [by left|right; by apply settled_app]. Qed.

(** What keeps the two sessions keeps the battle. *)
Lemma fighting_same g g' :
  fighting g -> rooms_ g' !! rid = rooms_ g !! rid -> GameServer.storage g' = GameServer.storage g ->
  (forall p x, p = p1 \/ p = p2 -> sessions_ g !! p = Some x -> roomId x = rid ->
     exists x', sessions_ g' !! p = Some x' /\ like x x') -> fighting g'.
Proof.
  intros (Hl & Hst & x1 & x2 & H1 & (Hx1 & ? & ?) & H2 & (Hx2 & ? & ?)) Hr Hs Hp. split; [by rewrite Hr|]. split; [congruence|].
  destruct (Hp p1 x1) as (y1 & ? & ? & ? & ?); [by left|done|congruence|].
  destruct (Hp p2 x2) as (y2 & ? & ? & ? & ?); [by right|done|congruence|].
  exists y1, y2. unfold like. split_and!; congruence.
Qed.

(** The other session of the room. *)
Lemma fighting_members g q x :
  Sess g -> fighting g -> sessions_ g !! q = Some x -> roomId x = rid ->
  (q = p1 /\ GameServer.find_opponent q rid g = p2) \/ (q = p2 /\ GameServer.find_opponent q rid g = p1).
Proof.
  intros HS (_ & _ & x1 & x2 & H1 & (Hx1 & _) & H2 & (Hx2 & _)) Hq Hx.
  destruct (GameServer.I_two g HS p1 p2 q x1 x2 x) as [|[<-|<-]]; try congruence.
  - left. split; [done|]. eapply opponent_found; try done; congruence.
  - right. split; [done|]. eapply opponent_found; try done; congruence.
Qed.

Lemma expire_fate tid d pid a s :
  Rooms s -> LInv a (lob s) -> TimerWheel.t_due a !! tid = Some (d, GameServer.Expire pid) -> fighting (lob s) ->
  exists s1 o, expireSession pid s = Ok (s1, o) /\ fate s1 o.
Proof.
  intros HR HI Ht Hf. pose proof HI as [HS HT]. destruct (GameServer.I_expire _ _ HT _ _ _ Ht) as (ss & Hp & Hc & _).
  assert (roomId ss <> rid -> forall p x, p = p1 \/ p = p2 -> sessions_ (lob s) !! p = Some x -> roomId x = rid -> p <> pid) as Hother.
  { intros Hn p x _ Hx Hrx ->. congruence. }
  destruct (GameServer.I_room _ HS _ _ Hp) as [[Hst [l Hl]]|[Hst H0]].
  - destruct (expire_in_room s pid ss HR HS Hp Hc Hst) as (r & e & g & ej & Hr & He & Hse & Hex & Eo & _ & Heq).
    eexists _, _. split; [exact Heq|]. destruct (decide (roomId ss = rid)) as [Hrr|Hrn].
    + right. rewrite Hrr in Hr, Hex, Eo. replace ej with (snd (onEnd rid (GameServer.find_opponent pid rid (lob s)) (lob s))) by (by rewrite Eo).
      eapply room_end_settles; try done. intros _. destruct (fighting_members _ _ _ HS Hf Hp Hrr) as [[_ ->]|[_ ->]]; tauto.
    + left. pose proof (onEnd_lobby (roomId ss) (GameServer.find_opponent pid (roomId ss) (lob s)) (lob s)) as Hg.
      rewrite Eo in Hg. cbn [fst] in Hg. subst g. apply (fighting_same (lob s)); [done| |done|].
      * cbn. by rewrite lookup_delete_ne.
      * intros p x Hpp Hx Hrx. exists x. cbn. rewrite lookup_delete_ne by (by apply not_eq_sym; eapply Hother).
        rewrite lookup_fmap, Hx. simpl. unfold GameServer.left_room. rewrite Hrx, (proj2 (Z.eqb_neq rid (roomId ss))) by done. done.
  - unfold expireSession. rewrite Hp, bool_decide_eq_false_2, decide_False by (try done; rewrite Hc; tauto).
    eexists _, _. split; [done|]. left. apply (fighting_same (lob s)); try done.
    intros p x Hpp Hx Hrx. exists x. cbn. rewrite lookup_delete_ne by (apply not_eq_sym; eapply Hother; [congruence|done..]). done.
Qed.

Lemma callback_settles now tid d cb a s o a1 s1 o1 :
  Rooms s -> LInv a (lob s) -> TimerWheel.t_due a !! tid = Some (d, cb) -> fate s o ->
  TimerWheel.spec_interp (callback now cb (Ok (s, o))) (TimerWheel.spec_cancel tid a) = (a1, Ok (s1, o1)) -> fate s1 o1.
Proof.
  intros HR HI Ht Hf H. destruct cb as [pid|pid|]; cbn [callback] in H.
  - destruct (GameServer.match_timeout pid (lob s)) as [g e] eqn:E. cbn [TimerWheel.spec_interp] in H. inv H.
    destruct Hf as [Hf|Hf]; [left|right; by apply settled_app].
    destruct (System.callback_handled now tid d (GameServer.MatchTimeout pid) a (lob s) [] (TimerWheel.spec_cancel tid a) g e HI Ht)
      as (e' & -> & Hh); [simpl; by rewrite E|].
    pose proof (match_timeout_silent pid (lob s)) as Hs. rewrite E in Hs. cbn [snd app] in Hs.
    apply (fighting_same (lob s)); [done|cbn [lob set_lob]; by rewrite (System.H_rooms _ _ _ Hh)| |].
    + cbn. unfold GameServer.match_timeout in E. revert E. repeat dmatch; intros [= <- _]; done.
    + intros p x _ Hx Hrx. destruct (GameServer.match_timeout_sessions pid (lob s) p x Hx) as (x' & Hx' & (? & _ & ? & _) & _).
      rewrite E in Hx'. cbn [fst] in Hx'. exists x'. split; [done|]. split; [|done].
      destruct (System.H_leave _ _ _ Hh _ _ Hx) as [(y & Hy & ?)|Hy]; [congruence|congruence|].
      rewrite System.posts_silent in Hy by done. by apply Exists_nil in Hy.
  - cbn [TimerWheel.spec_interp] in H. apply pair_equal_spec in H as [_ H]. destruct Hf as [Hf|Hf].
    + destruct (expire_fate tid d pid a s HR HI Ht Hf) as (s2 & o2 & Heq & Hf2). rewrite Heq in H. cbn [res_bind] in H. inv H.
      destruct Hf2; [by left|right; by apply settled_app_r].
    + destruct (expireSession pid s) as [[s2 o2]|]; [|done]. cbn [res_bind] in H. inv H. right. by apply settled_app.
  - cbn [GameServer.scheduleSweep TimerWheel.spec_interp] in H. rewrite GameServer.spec_add_timer in H by done.
    cbn [TimerWheel.spec_interp] in H. inv H. by apply fate_app.
Qed.

Lemma fire_settles now l a s o a1 s1 o1 :
  Rooms s -> LInv a (lob s) -> fate s o ->
  TimerWheel.spec_fire (callback now) l (a, Ok (s, o)) = (a1, Ok (s1, o1)) -> fate s1 o1.
Proof.
  revert a s o. induction l as [|tid l IH]; intros a s o HR HI Hf H; cbn [TimerWheel.spec_fire] in H; [by inv H|].
  destruct (TimerWheel.t_due a !! tid) as [[d cb]|] eqn:E; [|by eapply IH].
  destruct (callback_inv now tid d cb a s o HR HI E) as (a2 & s2 & o2 & Heq & HR2 & HI2). rewrite Heq in H.
  eapply (IH _ _ _ HR2 HI2); [|exact H]. exact (callback_settles _ _ _ _ _ _ _ _ _ _ HR HI E Hf Heq).
Qed.

Lemma drive_settles now w s w1 s1 o :
  Rooms s -> GameServer.Lobby (w, lob s) -> GameServer.in_time (w, lob s) -> fighting (lob s) ->
  drive now (w, s) = Ok ((w1, s1), o) -> fate s1 o.
Proof.
  intros HR HL Ht Hf H. destruct (drive_fires now w s HL Ht) as (l & w2 & x & Had & _ & _ & Hs).
  unfold drive in H. rewrite Had in H. destruct x as [[s2 o2]|]; [|done]. cbn [res_bind] in H. inv H.
  eapply fire_settles; [exact HR|apply GameServer.LInv_later, (GameServer.L_inv _ HL)|by left|exact Hs].
Qed.

End Results.

(** ** Theorems *)

(** C11: Lobby and rooms on one thread. In every reachable state of a server
    without game threads (1) the rooms in the lobby's table are exactly the room
    objects that run, all on the base loop and with a ticker; (2) a running room
    has two players, both with a session in it, and for each of them the
    connection of that session: disconnections, reconnections, forfeits and
    victories reach room and lobby in the same step; (3) the other room objects
    have ended, and are alive only through the one functor that destroys their
    ticker; (4) every step is defined: no task, tick or functor runs on a
    destroyed room, and no task is meant for another loop. *)
Theorem inline_consistent s (Hreach : reachable s) :
  (forall rid, is_Some (rooms_ (lob (snd s)) !! rid) <->
     exists r, rooms (snd s) !! rid = Some r /\ Room.ended_ r = false) /\
  (forall rid r, rooms (snd s) !! rid = Some r -> Room.ended_ r = false ->
     rooms_ (lob (snd s)) !! rid = Some None /\ Room.ticker_ r = true /\
     exists p1 p2 s1 s2, p1 <> p2 /\ dom (Room.conns_ r) = {[p1; p2]} /\
       sessions_ (lob (snd s)) !! p1 = Some s1 /\ roomId s1 = rid /\ Room.conns_ r !! p1 = Some (s_conn s1 : option Room.conn) /\
       sessions_ (lob (snd s)) !! p2 = Some s2 /\ roomId s2 = rid /\ Room.conns_ r !! p2 = Some (s_conn s2 : option Room.conn)) /\
  (NoDup (resets (snd s)) /\
   forall rid, rid ∈ resets (snd s) <-> exists r, rooms (snd s) !! rid = Some r /\ Room.ended_ r = true) /\
  (forall (HO : HashOrder) (LM : Libm) x, GameServer.in_time (lobby_of s) -> label_ok x -> exec x s <> UB).
Proof.
  destruct (reachable_inv s Hreach) as [HR HL]. split_and!.
  - intros rid. split.
    + intros [l Hl]. by destruct (R_known _ HR _ _ Hl) as (_ & r & ?); eauto.
    + intros (r & Hr & He). by apply (R_runs _ HR _ _ Hr He).
  - intros rid r Hr He. destruct (R_runs _ HR _ _ Hr He) as ([l Hl] & Htk & Hin).
    destruct (R_known _ HR _ _ Hl) as (-> & _). split_and!; [done|done|].
    destruct (R_two _ HR _ _ Hr) as (p1 & p2 & Hne & Hp). destruct (R_id _ HR _ _ Hr) as [_ Hpos].
    assert (forall p, is_Some (Room.conns_ r !! p) -> exists ss, sessions_ (lob (snd s)) !! p = Some ss /\ roomId ss = rid /\
              Room.conns_ r !! p = Some (s_conn ss : option Room.conn)) as Hss.
    { intros p (ss & Hss & Hrs)%Hin. exists ss. destruct (R_bind _ HR _ _ Hss) as (r' & Hr' & Hc); [lia|].
      rewrite Hrs, Hr in Hr'. injection Hr' as <-. done. }
    destruct (Hss p1) as (s1 & ? & ? & ?); [apply Hp; by left|]. destruct (Hss p2) as (s2 & ? & ? & ?); [apply Hp; by right|].
    exists p1, p2, s1, s2. split_and!; try done. apply set_eq. intros p. rewrite elem_of_dom, Hp. set_solver.
  - apply (R_nodup _ HR).
  - apply (R_ended _ HR).
  - intros HO LM x Ht Hok. destruct (exec_inv x s HR HL Ht Hok) as (s1 & o & -> & _). done.
Qed.


(** ** The destructor *)

Lemma stop_all ids m n released :
  forall {HO : HashOrder} {LM : Libm},
  NoDup ids -> (forall rid, rid ∈ ids -> is_Some (m !! rid)) -> ids <> [] -> n = Z.of_nat (length ids) ->
  exists m1, foldl stop_one (Ok (m, n, released)) ids = Ok (m1, 0, S released) /\
    forall rid, m1 !! rid = if bool_decide (rid ∈ ids) then (fun r => fst (Room.stop r)) <$> m !! rid else m !! rid.
Proof.
  intros HO LM. revert m n released. induction ids as [|x ids IH]; intros m n rel Hnd Hm Hne Hn; [done|].
  apply NoDup_cons in Hnd as [Hx Hnd]. destruct (Hm x) as [r Hr]; [left|]. cbn [foldl stop_one res_bind]. rewrite Hr.
  cbn [Room.exec]. assert (forall rid, rid ∈ ids -> is_Some (<[x := fst (Room.stop r)]> m !! rid)) as Hm1.
  { intros rid Hin. rewrite lookup_insert_ne by (intros ->; done). apply Hm. by right. }
  destruct ids as [|y ids].
  - subst n. cbn [foldl length]. change (Z.of_nat 1 =? 1) with true. eexists. split; [done|]. intros rid.
    destruct (decide (rid = x)) as [->|].
    + rewrite lookup_insert_eq, bool_decide_eq_true_2, Hr by left. done.
    + rewrite lookup_insert_ne, bool_decide_eq_false_2 by (try done; by intros ?%list_elem_of_singleton). done.
  - rewrite (proj2 (Z.eqb_neq n 1)) by (subst n; simpl; lia).
    destruct (IH (<[x := fst (Room.stop r)]> m) (n - 1) rel Hnd Hm1) as (m1 & -> & Hl); [done|subst n; simpl; lia|].
    exists m1. split; [done|]. intros rid. rewrite Hl. destruct (decide (rid = x)) as [->|].
    + rewrite bool_decide_eq_false_2, bool_decide_eq_true_2, lookup_insert_eq, Hr by (try done; left). done.
    + rewrite lookup_insert_ne by done. rewrite (bool_decide_ext (rid ∈ x :: y :: ids) (rid ∈ y :: ids)); [done|].
      rewrite elem_of_cons. naive_solver.
Qed.

(** The destructor without game threads. Its task on the lobby stops every
    running room and destroys it, tickers first, lets the destructor go exactly
    once and leaves no room but those whose ticker a queued functor still has to
    destroy. Nothing has to be waited for. *)
Theorem inline_close_releases (HO : HashOrder) (LM : Libm) s (Hreach : reachable s) :
  exists s1, close (snd s) = Ok (s1, 1%nat) /\ closed s1 = true /\ rooms_ (lob s1) = ∅ /\ resets s1 = resets (snd s) /\
    forall rid r, rooms s1 !! rid = Some r <-> rid ∈ resets s1 /\ rooms (snd s) !! rid = Some r.
Proof.
  destruct (reachable_inv s Hreach) as [HR HL]. destruct s as [w s]. cbn [snd] in *. unfold close.
  assert (forall rid r, rooms s !! rid = Some r -> rid ∈ resets s \/ is_Some (rooms_ (lob s) !! rid)) as Hall.
  { intros rid r Hr. destruct (Room.ended_ r) eqn:E; [left; apply (R_ended s HR); eauto|right; by apply (R_runs s HR _ _ Hr)]. }
  assert (forall rid, rid ∈ resets s -> rooms_ (lob s) !! rid = None) as Hdis.
  { intros rid (r & Hr & He)%(R_ended s HR). destruct (rooms_ (lob s) !! rid) eqn:El; [|done].
    destruct (R_known s HR _ _ El) as (_ & r' & ? & ?). congruence. }
  destruct (Z.eqb_spec (Z.of_nat (size (rooms_ (lob s)))) 0) as [H0|H0].
  { eexists. split; [done|]. split_and!; try done. intros rid r. cbn [rooms resets]. split; [|tauto].
    intros Hr. split; [|done]. destruct (Hall _ _ Hr) as [|[l Hl]]; [done|].
    assert (rooms_ (lob s) = ∅) as He by (apply map_size_empty_inv; lia). rewrite He, lookup_empty in Hl. done. }
  set (ids := hash_order CRooms (dom (rooms_ (lob s)))).
  assert (forall rid, rid ∈ ids <-> is_Some (rooms_ (lob s) !! rid)) as Hids by (intros rid; apply elem_of_hash_order_dom).
  assert (length ids = size (rooms_ (lob s))) as Hlen by (unfold ids; by rewrite length_hash_order, size_dom).
  destruct (stop_all ids (rooms s) (Z.of_nat (size (rooms_ (lob s)))) 0) as (m1 & -> & Hm1).
  { apply NoDup_hash_order. }
  { intros rid [l Hl]%Hids. destruct (R_known s HR _ _ Hl) as (_ & r & ? & _). eauto. }
  { intros E. rewrite E in Hlen. simpl in Hlen. lia. }
  { by rewrite Hlen. }
  cbn [res_bind]. eexists. split; [done|]. split_and!; try done; [cbn; by rewrite orb_true_r|].
  intros rid r. cbn [rooms resets]. rewrite map_lookup_filter_Some, Hm1. cbn [fst]. split.
  - intros [Hr [Hn|Hin]].
    + rewrite bool_decide_eq_false_2 in Hr by done. rewrite Hids in Hn. destruct (Hall _ _ Hr); [done|tauto].
    + rewrite bool_decide_eq_false_2 in Hr by (rewrite Hids, Hdis by done; by intros []). done.
  - intros [Hin Hr]. rewrite bool_decide_eq_false_2 by (rewrite Hids, Hdis by done; by intros []). tauto.
Qed.

(** ** Runs *)

Notation exec64 := (@exec elements_order BattleSim.libm64).

Definition label_okb (x : label) : bool := match x with ILobby (GameServer.EvRoomEnd _ _) => false | _ => true end.

Fixpoint exec_all (xs : list label) (s : t) : res (t * list out) :=
  match xs with
  | [] => Ok (s, [])
  | x :: xs =>
      if (TimerWheel.nowTick_ (fst s) <? 2 ^ 62) && label_okb x then
        (let! (s1, o) := exec64 x s in let! (s2, os) := exec_all xs s1 in Ok (s2, o ++ os))%gs
      else UB
  end.

Lemma inline_exec_all xs s s1 o : reachable s -> exec_all xs s = Ok (s1, o) -> reachable s1.
Proof.
  revert s o. induction xs as [|x xs IH]; intros s o Hr H; cbn [exec_all] in H; [by inv H|].
  destruct (_ && _) eqn:E; [|done]. apply andb_true_iff in E as [Et%Z.ltb_lt Ex].
  destruct (exec64 x s) as [[s2 o2]|] eqn:E1; cbn [res_bind] in H; [|done].
  destruct (exec_all xs s2) as [[s3 o3]|] eqn:E2; cbn [res_bind] in H; [|done]. inv H.
  eapply (IH s2); [|exact E2]. eapply (reach_step s x s2 o2 elements_order BattleSim.libm64); try done.
  by destruct x as [[]| |].
Qed.

(** The state after a scenario on a server with storage. *)
Definition after (xs : list label) : t :=
  match exec_all xs (boot true) with Ok (s, _) => s | UB => boot true end.

Lemma inline_after_reachable xs : reachable (after xs).
Proof.
  unfold after. destruct (exec_all xs (boot true)) as [[s o]|] eqn:E; [|constructor].
  eapply inline_exec_all; [|exact E]. constructor.
Qed.

Definition ticks (n : nat) : list label := replicate n (ILobby (GameServer.EvWheel 1)).

(** Alice and Bob meet in room 1; Bob leaves. *)
Definition bob_leaves : list label :=
  [ILobby (GameServer.EvLogin 1 "alice" 0 1 2); ILobby (GameServer.EvLogin 2 "bob" 0 3 4);
   ILobby (GameServer.EvMatch 1); ILobby (GameServer.EvMatch 2); ITick 1; ILobby (GameServer.EvDisconnect 2)].

(** Bob's session is about to expire. *)
Definition bob_away : t := after (bob_leaves ++ ticks 299).

Definition conns_of (rid : Z) (s : t) : list (option (option Room.conn)) :=
  match rooms (snd s) !! rid with Some r => [Room.conns_ r !! 1; Room.conns_ r !! 2] | None => [] end.

Lemma inline_consistent_witness :
  conns_of 1 bob_away = [Some (Some 1); Some None] /\
  (is_Some (rooms_ (lob (snd bob_away)) !! 1) <-> exists r, rooms (snd bob_away) !! 1 = Some r /\ Room.ended_ r = false) /\
  @exec elements_order BattleSim.libm64 (ITick 1) bob_away <> UB.
Proof.
  split; [vm_compute; reflexivity|].
  destruct (inline_consistent bob_away (inline_after_reachable _)) as (H1 & _ & _ & H4).
  split; [exact (H1 1)|]. apply H4; [vm_compute; reflexivity|exact I].
Defined.

Definition expiry : res (t * list out) := exec64 (ILobby (GameServer.EvWheel 1)) bob_away.

Definition session_of (p : Z) (s : t) : option GameServer.Session := sessions_ (lob (snd s)) !! p.


Lemma inline_close_releases_witness :
  exists s1, @close elements_order BattleSim.libm64 (snd bob_away) = Ok (s1, 1%nat) /\ closed s1 = true /\ rooms s1 !! 1 = None.
Proof.
  destruct (inline_close_releases elements_order BattleSim.libm64 bob_away (inline_after_reachable _))
    as (s1 & Hc & Hcl & _ & Hr & Hl).
  exists s1. split_and!; [exact Hc|exact Hcl|]. destruct (rooms s1 !! 1) as [r|] eqn:E; [|reflexivity].
  apply Hl in E as [Hin _]. rewrite Hr in Hin. assert (resets (snd bob_away) = []) as H0 by (vm_compute; reflexivity).
  rewrite H0 in Hin. apply not_elem_of_nil in Hin as [].
Defined.

End Inline.
