(* ===== verification/Storage.v ===== *)
(** * The storage clients and the storage thread
    ([src/src/storage/RedisClient.cc], [MySqlStore.cc]; the closures of
    [GameServer.cc] that run on the storage thread)

    [RedisClient] wraps hiredis and [MySqlStore] wraps libmysqlclient. Both
    libraries, with the servers behind them, are parameters: their functions
    take and return a state [W] of the outside world, a null pointer is [None],
    and the format strings and SQL texts are those of the source. What the
    theorems use of the libraries is stated in the class [StorageSpec], as the
    manuals document it; [MemDB] is an implementation in memory that satisfies
    it. Dereferencing a null context or handle is [UB].

    The storage thread owns the two clients and [storageReady_]; it runs the
    connection task and then the jobs in the order of the queue
    ([AsyncWriter.v]). *)

From Stdlib Require Import Strings.Ascii.
From stdpp Require Import base gmap sets list strings pretty.
From Stdlib Require Import ZArith Lia.
From Stdlib Require Import Floats.SpecFloat.
From S2P Require Import Prelude LoopPool Float32 Proto BattleSim Room GameServer.

Module Storage.

Local Open Scope string_scope.
Local Open Scope Z_scope.

(** ** C library *)

(** [std::string::c_str] read as a C string: it ends at the first NUL. *)
Fixpoint c_str (s : string) : string :=
  match s with
  | EmptyString => EmptyString
  | String a s => if bool_decide (a = Ascii.zero) then EmptyString else String a (c_str s)
  end.

Definition is_space (a : Ascii.ascii) : bool :=
  let n := Ascii.nat_of_ascii a in (n =? 32)%nat || ((9 <=? n) && (n <=? 13))%nat.

Fixpoint skip_space (s : string) : string :=
  match s with
  | String a s' => if is_space a then skip_space s' else s
  | EmptyString => s
  end.

Definition digit (a : Ascii.ascii) : option Z :=
  let n := Z.of_nat (Ascii.nat_of_ascii a) in if (48 <=? n) && (n <=? 57) then Some (n - 48) else None.

(** The digits at the front of [s]: their value after [acc], how many there are,
    and the rest. *)
Fixpoint digits (s : string) (acc : Z) (n : Z) : Z * Z * string :=
  match s with
  | String a s' => match digit a with Some d => digits s' (10 * acc + d) (n + 1) | None => (acc, n, s) end
  | EmptyString => (acc, n, s)
  end.

(** An optional sign. *)
Definition sign (s : string) : bool * string :=
  match s with
  | String "-"%char s' => (true, s')
  | String "+"%char s' => (false, s')
  | _ => (false, s)
  end.

(** [atoi]: undefined when the value does not fit an [int]. *)
Definition atoi (s : string) : res Z :=
  let (neg, s1) := sign (skip_space s) in
  let '(v, _, _) := digits s1 0 0 in
  let z := if neg : bool then - v else v in
  if (- 2 ^ 31 <=? z) && (z <? 2 ^ 31) then Ok z else UB.

(** The double nearest to [m * 10^e]. *)
Definition decimal (neg : bool) (m e : Z) : spec_float :=
  let sg (z : Z) := if neg then - z else z in
  if m =? 0 then S754_zero neg
  else if 0 <=? e then binary_normalize 53 1024 (sg (m * 10 ^ e)) 0 neg
  else
    let d := 10 ^ (- e) in
    let k := Z.max 0 (64 + Z.log2 d - Z.log2 m) in
    let q := m * 2 ^ k / d in
    let sticky := if m * 2 ^ k mod d =? 0 then 0 else 1 in
    binary_normalize 53 1024 (sg (2 * q + sticky)) (- k - 1) neg.

(** [atof] on decimal numbers and infinities, as Redis prints scores: sign,
    digits with an optional fraction, optional exponent. *)
Definition atof (s : string) : spec_float :=
  let (neg, s1) := sign (skip_space s) in
  match s1 with
  | String "i"%char (String "n"%char (String "f"%char _)) => S754_infinity neg
  | _ =>
      let '(m0, n0, s2) := digits s1 0 0 in
      let '(m, nf, s3) := match s2 with String "."%char s' => digits s' m0 0 | _ => (m0, 0, s2) end in
      let ex := match s3 with
                | String "e"%char s' | String "E"%char s' =>
                    let (eneg, s4) := sign s' in
                    let '(v, _, _) := digits s4 0 0 in if eneg : bool then - v else v
                | _ => 0
                end in
      decimal neg m (ex - nf)
  end.

(** ** The libraries *)

Inductive redisReply : Type :=
  | RStatus (s : string)
  | RError (s : string)
  | RInteger (n : Z)
  | RString (s : string)
  | RArray (l : list redisReply)
  | RNil.

(** Arguments of a formatted command: [%s], [%f], [%d]. *)
Inductive arg : Type :=
  | ArgS (s : string)
  | ArgF (d : spec_float)
  | ArgD (n : Z).

Class Hiredis (W : Type) : Type := {
  redisConnectWithTimeout : string -> Z -> W -> option Z * W;
  redis_err : Z -> W -> bool;
  redisCommand : Z -> string -> list arg -> W -> option redisReply * W;
  redisFree : Z -> W -> W;
}.

Class LibMysql (W : Type) : Type := {
  mysql_init : W -> option Z * W;
  mysql_connect_timeout : Z -> Z -> W -> W;
  mysql_real_connect : Z -> string -> string -> string -> string -> Z -> W -> bool * W;
  mysql_close : Z -> W -> W;
  mysql_real_escape_string : Z -> string -> string;
  mysql_query : Z -> string -> W -> Z * W;
  mysql_store_result : Z -> W -> option Z * W;
  mysql_fetch_row : Z -> W -> option (list (option string)) * W;
  mysql_free_result : Z -> W -> W;
}.

Section Clients.
Context {W : Type} `{HR : Hiredis W} `{HM : LibMysql W}.

(** ** RedisClient *)

Record RedisClient : Type := mkRedis { ctx_ : option Z }.

Definition redis_destroy (r : RedisClient) (w : W) : W :=
  match ctx_ r with Some c => redisFree c w | None => w end.

Definition redis_connect (host : string) (port : Z) (r : RedisClient) (w : W) : bool * RedisClient * W :=
  let w1 := redis_destroy r w in
  let (c, w2) := redisConnectWithTimeout (c_str host) port w1 in
  (match c with Some c => negb (redis_err c w2) | None => false end, mkRedis c, w2).

(** [redisCommand(ctx_, ...)] *)
Definition command (fmt : string) (args : list arg) (r : RedisClient) (w : W) : res (option redisReply * W) :=
  match ctx_ r with
  | None => UB
  | Some c => Ok (redisCommand c fmt args w)
  end.

Definition ping (r : RedisClient) (w : W) : res (bool * W) :=
  match ctx_ r with
  | None => Ok (false, w)
  | Some _ =>
      (let! (rep, w1) := command "PING" [] r w in
       Ok (match rep with Some (RStatus _) => true | _ => false end, w1))%gs
  end.

Definition zincrby (key member : string) (delta : spec_float) (r : RedisClient) (w : W) : res (bool * W) :=
  (let! (rep, w1) := command "ZINCRBY %s %f %s" [ArgS (c_str key); ArgF delta; ArgS (c_str member)] r w in
   Ok (match rep with None | Some (RError _) => false | Some _ => true end, w1))%gs.

(** [r->str], null when the reply carries no string. *)
Definition reply_str (r : redisReply) : res string :=
  match r with RString s | RStatus s | RError s => Ok s | _ => UB end.

(** The loop of [ztopN] over pairs of elements; a [std::string] made from
    [r->str] ends at the first NUL. *)
Fixpoint reply_pairs (l : list redisReply) : res (list (string * spec_float)) :=
  match l with
  | m :: s :: l =>
      (let! ms := reply_str m in
       let! ss := reply_str s in
       let! rest := reply_pairs l in
       Ok ((c_str ms, atof ss) :: rest))%gs
  | _ => Ok []
  end.

Definition ztopN (key : string) (n : Z) (r : RedisClient) (w : W) : res (list (string * spec_float) * W) :=
  (let! (rep, w1) := command "ZREVRANGE %s 0 %d WITHSCORES" [ArgS (c_str key); ArgD (n - 1)] r w in
   match rep with
   | Some (RArray l) => let! out := reply_pairs l in Ok (out, w1)
   | _ => Ok ([], w1)
   end)%gs.

Definition redis_set (key val : string) (r : RedisClient) (w : W) : res (bool * W) :=
  (let! (rep, w1) := command "SET %s %s" [ArgS (c_str key); ArgS (c_str val)] r w in
   Ok (match rep with Some (RStatus _) => true | _ => false end, w1))%gs.

Definition redis_del (key : string) (r : RedisClient) (w : W) : res (bool * W) :=
  (let! (rep, w1) := command "DEL %s" [ArgS (c_str key)] r w in
   Ok (match rep with Some (RInteger _) => true | _ => false end, w1))%gs.

Definition redis_exists (key : string) (r : RedisClient) (w : W) : res (bool * W) :=
  (let! (rep, w1) := command "EXISTS %s" [ArgS (c_str key)] r w in
   Ok (match rep with Some (RInteger n) => n =? 1 | _ => false end, w1))%gs.

(** ** MySqlStore *)

Record MySqlStore : Type := mkMySql { conn_ : option Z }.

Definition mysql_destroy (m : MySqlStore) (w : W) : W :=
  match conn_ m with Some c => mysql_close c w | None => w end.

(** [mysql_options] on a null handle is undefined. *)
Definition mysql_connect (host user pass db : string) (m : MySqlStore) (w : W) : res (bool * MySqlStore * W) :=
  let w1 := mysql_destroy m w in
  match mysql_init w1 with
  | (None, _) => UB
  | (Some c, w2) =>
      let w3 := mysql_connect_timeout c 2 w2 in
      let (ok, w4) := mysql_real_connect c (c_str host) (c_str user) (c_str pass) (c_str db) 3306 w3 in
      if ok : bool then Ok (true, mkMySql (Some c), w4) else Ok (false, mkMySql None, mysql_close c w4)
  end.

Definition mysql_exec (sql : string) (m : MySqlStore) (w : W) : bool * W :=
  match conn_ m with
  | None => (false, w)
  | Some c => let (rc, w1) := mysql_query c (c_str sql) w in (rc =? 0, w1)
  end.

Definition schema_sql : string :=
  "CREATE TABLE IF NOT EXISTS players (" +:+
  "  account VARCHAR(64) PRIMARY KEY," +:+
  "  wins INT NOT NULL DEFAULT 0," +:+
  "  losses INT NOT NULL DEFAULT 0," +:+
  "  updated_at TIMESTAMP DEFAULT CURRENT_TIMESTAMP " +:+
  "    ON UPDATE CURRENT_TIMESTAMP)".

Definition ensureSchema (m : MySqlStore) (w : W) : bool * W := mysql_exec schema_sql m w.

(** The buffer has room for twice the length of [s] and the final NUL. *)
Definition escape (s : string) (m : MySqlStore) : res string :=
  match conn_ m with
  | None => UB
  | Some c =>
      let e := mysql_real_escape_string c s in
      if (String.length e + 1 <=? String.length s * 2 + 1)%nat then Ok e else UB
  end.

(** The SQL texts, from the escaped account. *)
Definition win_sql (e : string) : string :=
  "INSERT INTO players(account, wins) VALUES('" +:+ e +:+ "', 1) ON DUPLICATE KEY UPDATE wins = wins + 1".

Definition loss_sql (e : string) : string :=
  "INSERT INTO players(account, losses) VALUES('" +:+ e +:+ "', 1) ON DUPLICATE KEY UPDATE losses = losses + 1".

Definition select_sql (e : string) : string := "SELECT wins, losses FROM players WHERE account='" +:+ e +:+ "'".

Definition delete_sql (e : string) : string := "DELETE FROM players WHERE account='" +:+ e +:+ "'".

Definition recordResult (winnerAcc loserAcc : string) (m : MySqlStore) (w : W) : res (bool * W) :=
  (let! e1 := escape winnerAcc m in
   let (ok1, w1) := mysql_exec (win_sql e1) m w in
   let! e2 := escape loserAcc m in
   let (ok2, w2) := mysql_exec (loss_sql e2) m w1 in
   Ok (ok2 && ok1, w2))%gs.

(** [atoi(row[i])] *)
Definition column (i : nat) (row : list (option string)) : res Z :=
  match row !! i with Some (Some s) => atoi s | _ => UB end.

Definition getRecord (account : string) (m : MySqlStore) (w : W) : res (option (Z * Z) * W) :=
  (let! e := escape account m in
   let (ok, w1) := mysql_exec (select_sql e) m w in
   if negb ok then Ok (None, w1)
   else
     match conn_ m with
     | None => UB
     | Some c =>
         match mysql_store_result c w1 with
         | (None, w2) => Ok (None, w2)
         | (Some r, w2) =>
             let (row, w3) := mysql_fetch_row r w2 in
             let! out := match row with
                         | None => Ok None
                         | Some row => let! a := column 0 row in let! b := column 1 row in Ok (Some (a, b))
                         end in
             Ok (out, mysql_free_result r w3)
         end
     end)%gs.

Definition removeAccount (account : string) (m : MySqlStore) (w : W) : res (bool * W) :=
  (let! e := escape account m in Ok (mysql_exec (delete_sql e) m w))%gs.

(** ** The storage thread *)

Record StorageOptions : Type := mkOptions {
  enabled : bool;
  redisHost : string;
  redisPort : Z;
  mysqlHost : string;
  mysqlUser : string;
  mysqlPass : string;
  mysqlDb : string;
  leaderboardKey : string;
}.

Definition default_options : StorageOptions :=
  mkOptions false "127.0.0.1" 6379 "127.0.0.1" "gs" "gs123" "gs" "leaderboard".

(** The members of [GameServer] that only the storage thread touches. *)
Record thread : Type := mkThread {
  storageReady_ : bool;
  redis_ : RedisClient;
  mysql_ : MySqlStore;
}.

Definition init : thread := mkThread false (mkRedis None) (mkMySql None).

(** The closures of the storage queue: the one of [start], and the jobs. *)
Inductive task : Type :=
  | TConnect
  | TJob (j : GameServer.job).

(** The queue after [start]; without storage there is no queue. *)
Definition start (o : StorageOptions) : option (list task) := if enabled o then Some [TConnect] else None.

(** The connection task; [&&] stops at the first failure. *)
Definition connect_all (o : StorageOptions) (t : thread) (w : W) : res (thread * W) :=
  let '(ok1, r1, w1) := redis_connect (redisHost o) (redisPort o) (redis_ t) w in
  if negb ok1 then Ok (mkThread false r1 (mysql_ t), w1)
  else
    (let! (ok2, w2) := ping r1 w1 in
     if negb ok2 then Ok (mkThread false r1 (mysql_ t), w2)
     else
       let! (ok3, m1, w3) := mysql_connect (mysqlHost o) (mysqlUser o) (mysqlPass o) (mysqlDb o) (mysql_ t) w2 in
       if negb ok3 then Ok (mkThread false r1 m1, w3)
       else let (ok4, w4) := ensureSchema m1 w3 in Ok (mkThread ok4 r1 m1, w4))%gs.

Definition f64_of_Z (z : Z) : spec_float := binary_normalize 53 1024 z 0 false.

Definition run_task (o : StorageOptions) (tk : task) (t : thread) (w : W)
  : res (thread * W * list GameServer.effect) :=
  match tk with
  | TConnect => (let! (t', w') := connect_all o t w in Ok (t', w', []))%gs
  | TJob (GameServer.JSetOnline acc) =>
      if storageReady_ t then (let! (_, w1) := redis_set ("online:" +:+ acc) "1" (redis_ t) w in Ok (t, w1, []))%gs
      else Ok (t, w, [])
  | TJob (GameServer.JDelOnline acc) =>
      if storageReady_ t then (let! (_, w1) := redis_del ("online:" +:+ acc) (redis_ t) w in Ok (t, w1, []))%gs
      else Ok (t, w, [])
  | TJob (GameServer.JRecord winnerAcc loserAcc) =>
      if negb (storageReady_ t) then Ok (t, w, [])
      else
        (let! (_, w1) := recordResult winnerAcc loserAcc (mysql_ t) w in
         let! (_, w2) := zincrby (leaderboardKey o) winnerAcc (f64_of_Z 1) (redis_ t) w1 in
         Ok (t, w2, []))%gs
  | TJob (GameServer.JLeaderboard c n) =>
      (let! (entries, w1) := if storageReady_ t then ztopN (leaderboardKey o) n (redis_ t) w else Ok ([], w) in
       Ok (t, w1, [GameServer.Send c (MLeaderboardResp entries)]))%gs
  end.

Fixpoint run_tasks (o : StorageOptions) (tks : list task) (t : thread) (w : W)
  : res (thread * W * list GameServer.effect) :=
  match tks with
  | [] => Ok (t, w, [])
  | tk :: tks =>
      (let! (t1, w1, e1) := run_task o tk t w in
       let! (t2, w2, e2) := run_tasks o tks t1 w1 in
       Ok (t2, w2, (e1 ++ e2)%list))%gs
  end.

(** *** The jobs as [GameServer.run_job] lists their calls *)

Definition do_call (c : GameServer.store_call) (t : thread) (w : W) : res W :=
  match c with
  | GameServer.RedisSet key val => (let! (_, w1) := redis_set key val (redis_ t) w in Ok w1)%gs
  | GameServer.RedisDel key => (let! (_, w1) := redis_del key (redis_ t) w in Ok w1)%gs
  | GameServer.MySqlRecordResult a b => (let! (_, w1) := recordResult a b (mysql_ t) w in Ok w1)%gs
  | GameServer.RedisZincrby key m d => (let! (_, w1) := zincrby key m (f64_of_Z d) (redis_ t) w in Ok w1)%gs
  end.

Fixpoint do_calls (cs : list GameServer.store_call) (t : thread) (w : W) : res W :=
  match cs with [] => Ok w | c :: cs => (let! w1 := do_call c t w in do_calls cs t w1)%gs end.

(** A task sends at most the answer to a leaderboard request. *)
Lemma run_task_sends o tk t w t' w' e :
  run_task o tk t w = Ok (t', w', e) ->
  e = [] \/ exists c n es, tk = TJob (GameServer.JLeaderboard c n) /\ e = [GameServer.Send c (MLeaderboardResp es)].
Proof.
  destruct tk as [|[acc|acc|a b|c n]]; cbn [run_task]; intros H; ok_inv H; try (apply Ok_inj in H; inv H); eauto 10.
Qed.

End Clients.

(** ** What the code relies on *)

(** A row of the table [players], as wins and losses. *)
Definition with_win (r : option (Z * Z)) : Z * Z := match r with Some (a, b) => (a + 1, b) | None => (1, 0) end.

Definition with_loss (r : option (Z * Z)) : Z * Z := match r with Some (a, b) => (a, b + 1) | None => (0, 1) end.

Definition record_of (r : option (Z * Z)) : Z * Z := default (0, 0) r.

Definition f64_add : spec_float -> spec_float -> spec_float := SFadd 53 1024.

(** Accounts are compared by the collation of the column ([collate]) and must
    fit it ([fits]); [serving c m w] says that Redis answers on context [c] and
    MySQL on handle [m]. *)
Class StorageSpec (W : Type) `{HR : Hiredis W} `{HM : LibMysql W} : Type := {
  K : Type;
  #[global] K_dec :: EqDecision K;
  collate : string -> K;
  fits : string -> Prop;
  serving : Z -> Z -> W -> Prop;
  table : W -> K -> option (Z * Z);
  board : W -> string -> string -> spec_float;
  (** [mysql_real_escape_string]: at most two bytes per byte, and no NUL. *)
  escape_length m s : (String.length (mysql_real_escape_string m s) <= String.length s * 2)%nat;
  escape_nul m s : c_str (mysql_real_escape_string m s) = mysql_real_escape_string m s;
  (** [INT] columns. *)
  table_range w k a b : table w k = Some (a, b) -> - 2 ^ 31 <= a < 2 ^ 31 /\ - 2 ^ 31 <= b < 2 ^ 31;
  (** [INSERT ... ON DUPLICATE KEY UPDATE] with the escaped account as a literal. *)
  win_law c m w s : serving c m w -> fits s -> fst (record_of (table w (collate s))) < 2 ^ 31 - 1 ->
    exists w', mysql_query m (win_sql (mysql_real_escape_string m s)) w = (0, w') /\ serving c m w' /\
      (forall k, table w' k = if decide (k = collate s) then Some (with_win (table w k)) else table w k) /\
      (forall key mem, board w' key mem = board w key mem);
  loss_law c m w s : serving c m w -> fits s -> snd (record_of (table w (collate s))) < 2 ^ 31 - 1 ->
    exists w', mysql_query m (loss_sql (mysql_real_escape_string m s)) w = (0, w') /\ serving c m w' /\
      (forall k, table w' k = if decide (k = collate s) then Some (with_loss (table w k)) else table w k) /\
      (forall key mem, board w' key mem = board w key mem);
  (** [SELECT]: at most one row, numbers as decimal text. *)
  select_law c m w s : serving c m w -> fits s ->
    exists w1 r w2 w3, mysql_query m (select_sql (mysql_real_escape_string m s)) w = (0, w1) /\
      mysql_store_result m w1 = (Some r, w2) /\
      mysql_fetch_row r w2 =
        ((fun '(a, b) => [Some (pretty (a : Z)); Some (pretty (b : Z))]) <$> table w (collate s), w3) /\
      serving c m (mysql_free_result r w3);
  (** [ZINCRBY] on the members as C strings. *)
  zincrby_law c m w key mem d : serving c m w ->
    exists rep w', redisCommand c "ZINCRBY %s %f %s" [ArgS key; ArgF d; ArgS mem] w = (Some (RString rep), w') /\
      serving c m w' /\ (forall k, table w' k = table w k) /\
      (forall key' mem', board w' key' mem' =
         if decide (key' = key /\ mem' = mem) then f64_add (board w key mem) d else board w key' mem');
  (** [ZREVRANGE] answers with bulk strings. *)
  zrevrange_law c key n w l w' :
    redisCommand c "ZREVRANGE %s 0 %d WITHSCORES" [ArgS key; ArgD n] w = (Some (RArray l), w') ->
    Forall (fun r => exists s, r = RString s) l;
}.

(** ** Lemmas *)

Lemma c_str_app p e : c_str p = p -> c_str (p +:+ e) = p +:+ c_str e.
Proof.
  induction p as [|a p IH]; simpl; [done|]. case_bool_decide; [done|]. intros [= Hp]. by rewrite (IH Hp).
Qed.

Lemma c_str_idem s : c_str (c_str s) = c_str s.
Proof. induction s as [|a s IH]; simpl; [done|]. case_bool_decide; simpl; [done|]. rewrite bool_decide_eq_false_2 by done. by rewrite IH. Qed.

(** An SQL text around an escaped account is passed on in full. *)
Lemma c_str_sql p e q : c_str p = p -> c_str e = e -> c_str q = q -> c_str (p +:+ e +:+ q) = p +:+ e +:+ q.
Proof. intros Hp He Hq. by rewrite !c_str_app, Hq. Qed.

(** *** Numbers *)

Lemma digit_char d : (d < 10)%N -> digit (pretty_N_char d) = Some (Z.of_N d).
Proof.
  intros H. assert (d = 0 \/ d = 1 \/ d = 2 \/ d = 3 \/ d = 4 \/ d = 5 \/ d = 6 \/ d = 7 \/ d = 8 \/ d = 9)%N as Hd by lia.
  destruct_or! Hd; by subst.
Qed.

Lemma digits_pretty_go x s : exists k, 0 <= k /\ forall acc n, digits (pretty_N_go x s) acc n = digits s (acc * 10 ^ k + Z.of_N x) (n + k).
Proof.
  revert s. induction (N.lt_wf_0 x) as [x _ IH]. intros s. destruct (decide (x = 0)%N) as [->|Hx].
  { exists 0. split; [done|]. intros acc n. rewrite pretty_N_go_0. f_equal; lia. }
  rewrite pretty_N_go_step by lia. destruct (IH (x `div` 10)%N) with (s := String (pretty_N_char (x `mod` 10)) s) as (k & Hk & H).
  { apply N.div_lt; lia. }
  exists (k + 1). split; [lia|]. intros acc n. rewrite H. cbn [digits]. rewrite digit_char by (apply N.mod_lt; done).
  f_equal; [|lia]. rewrite N2Z.inj_div, N2Z.inj_mod. rewrite Z.pow_add_r by lia.
  pose proof (Z.div_mod (Z.of_N x) 10). lia.
Qed.

Lemma digits_pretty (x : N) : exists n, digits (pretty x) 0 0 = (Z.of_N x, n, EmptyString).
Proof.
  unfold pretty, pretty_N. case_decide as Hx; [subst; by eexists|].
  destruct (digits_pretty_go x EmptyString) as (k & Hk & H). rewrite H. by eexists.
Qed.

Definition starts_digit (s : string) : Prop := exists a s' d, s = String a s' /\ digit a = Some d.

Lemma pretty_go_first x s : starts_digit s \/ (0 < x)%N -> starts_digit (pretty_N_go x s).
Proof.
  revert s. induction (N.lt_wf_0 x) as [x _ IH]. intros s H. destruct (decide (x = 0)%N) as [->|Hx].
  - rewrite pretty_N_go_0. destruct H; [done|lia].
  - rewrite pretty_N_go_step by lia. apply IH; [apply N.div_lt; lia|]. left. eexists _, _, _. split; [done|].
    apply digit_char, N.mod_lt. done.
Qed.

Lemma pretty_N_first (x : N) : starts_digit (pretty x).
Proof. unfold pretty, pretty_N. case_decide as Hx; [by eexists _, _, _|]. apply pretty_go_first. right. lia. Qed.

Lemma digit_plain a d : digit a = Some d -> is_space a = false /\ a <> "-"%char /\ a <> "+"%char.
Proof.
  destruct a as [[] [] [] [] [] [] [] []]; intros H; vm_compute in H; try discriminate H;
    (split; [reflexivity|split; discriminate]).
Qed.

(** Decimal text of an [int] is read back. *)
Lemma atoi_pretty z : - 2 ^ 31 <= z < 2 ^ 31 -> atoi (pretty z) = Ok z.
Proof.
  intros Hz. assert (forall p : positive, sign (skip_space (pretty (Npos p))) = (false, pretty (Npos p))) as Hs.
  { intros p. destruct (pretty_N_first (Npos p)) as (a & s & d & -> & Ha). apply digit_plain in Ha as (H1 & H2 & H3). simpl.
    rewrite H1. unfold sign. destruct a as [[] [] [] [] [] [] [] []]; done. }
  unfold atoi. destruct z as [|p|p]; [done| |].
  - change (pretty (Z.pos p)) with (pretty (Npos p)). rewrite Hs. destruct (digits_pretty (Npos p)) as [n ->].
    change (Z.of_N (Npos p)) with (Z.pos p). rewrite (proj2 (andb_true_iff _ _)); [done|].
    split; [apply Z.leb_le|apply Z.ltb_lt]; lia.
  - change (pretty (Z.neg p)) with (String "-"%char (pretty (Npos p))). simpl. destruct (digits_pretty (Npos p)) as [n ->].
    change (Z.of_N (Npos p)) with (Z.pos p). rewrite (proj2 (andb_true_iff _ _)); [done|].
    split; [apply Z.leb_le|apply Z.ltb_lt]; lia.
Qed.

(** ** The storage thread does what its callers expect *)

Section Theorems.
Context {W : Type} `{SP : StorageSpec W}.

(** The clients are connected. *)
Definition connected (t : thread) (c m : Z) : Prop := ctx_ (redis_ t) = Some c /\ conn_ (mysql_ t) = Some m.

Lemma escape_ok m c s : conn_ m = Some c -> escape s m = Ok (mysql_real_escape_string c s).
Proof.
  intros Hm. unfold escape. rewrite Hm. rewrite (proj2 (Nat.leb_le _ _)); [done|]. pose proof (escape_length c s). lia.
Qed.

Lemma mysql_exec_ok p s q st m w w' :
  conn_ st = Some m -> c_str p = p -> c_str q = q ->
  mysql_query m (p +:+ mysql_real_escape_string m s +:+ q) w = (0, w') ->
  mysql_exec (p +:+ mysql_real_escape_string m s +:+ q) st w = (true, w').
Proof.
  intros Hm Hp Hq He. unfold mysql_exec. rewrite Hm, c_str_sql by (try done; apply escape_nul). by rewrite He.
Qed.

Lemma recordResult_effect c m w a b st :
  conn_ st = Some m -> serving c m w -> fits a -> fits b ->
  fst (record_of (table w (collate a))) < 2 ^ 31 - 1 -> snd (record_of (table w (collate b))) < 2 ^ 31 - 1 ->
  exists w', recordResult a b st w = Ok (true, w') /\ serving c m w' /\ is_Some (table w' (collate a)) /\
    (forall k, record_of (table w' k) =
       (fst (record_of (table w k)) + (if decide (k = collate a) then 1 else 0),
        snd (record_of (table w k)) + (if decide (k = collate b) then 1 else 0))) /\
    (forall key mem, board w' key mem = board w key mem).
Proof.
  intros Hst Hs Ha Hb Hwin Hloss.
  destruct (win_law c m w a Hs Ha Hwin) as (w1 & Hq1 & Hs1 & Ht1 & Hb1).
  assert (snd (record_of (table w1 (collate b))) < 2 ^ 31 - 1) as Hloss1.
  { rewrite Ht1. destruct (decide _); [|done]. destruct (table w (collate b)) as [[x y]|]; simpl in *; lia. }
  destruct (loss_law c m w1 b Hs1 Hb Hloss1) as (w2 & Hq2 & Hs2 & Ht2 & Hb2).
  exists w2. unfold recordResult. rewrite !(escape_ok st m) by done. cbn [res_bind].
  unfold win_sql in *. rewrite (mysql_exec_ok _ _ _ st m _ _ Hst eq_refl eq_refl Hq1). cbn [res_bind].
  unfold loss_sql in *. rewrite (mysql_exec_ok _ _ _ st m _ _ Hst eq_refl eq_refl Hq2).
  split_and!; [done|done| | |].
  - rewrite Ht2, Ht1, (decide_True (P := collate a = collate a)) by done. destruct (decide _); by eexists.
  - intros k. rewrite Ht2. rewrite Ht1. unfold record_of.
    destruct (decide (k = collate b)), (decide (k = collate a)), (table w k) as [[x y]|]; simpl; f_equal; lia.
  - intros key mem. by rewrite Hb2, Hb1.
Qed.


(** [getRecord] reads what [recordResult] wrote. *)
Theorem record_roundtrip c m w a b st
  (Hst : conn_ st = Some m) (Hserv : serving c m w) (Ha : fits a) (Hb : fits b) (Hne : collate a <> collate b)
  (Hwins : fst (record_of (table w (collate a))) < 2 ^ 31 - 1)
  (Hlosses : snd (record_of (table w (collate b))) < 2 ^ 31 - 1) :
  exists w1 w2, recordResult a b st w = Ok (true, w1) /\
    getRecord a st w1 = Ok (Some (fst (record_of (table w (collate a))) + 1, snd (record_of (table w (collate a)))), w2).
Proof.
  destruct (recordResult_effect c m w a b st Hst Hserv Ha Hb Hwins Hlosses) as (w1 & Hr & Hs1 & [[x y] Hx] & Ht1 & _).
  destruct (select_law c m w1 a Hs1 Ha) as (w2 & r & w3 & w4 & Hq & Hres & Hrow & _). exists w1. eexists. split; [exact Hr|].
  specialize (Ht1 (collate a)). rewrite Hx, decide_True, decide_False in Ht1 by done. cbn [record_of default fst snd] in Ht1.
  injection Ht1 as -> ->. pose proof (table_range w1 _ _ _ Hx) as [Hrx Hry].
  unfold getRecord. rewrite (escape_ok st m) by done. cbn [res_bind]. unfold select_sql in *.
  rewrite (mysql_exec_ok _ _ _ st m _ _ Hst eq_refl eq_refl Hq). cbn [negb]. rewrite Hst, Hres, Hrow, Hx. cbn [fmap option_fmap option_map].
  unfold column. cbn [lookup list_lookup]. rewrite !atoi_pretty by done. cbn [res_bind]. by rewrite Z.add_0_r.
Qed.

(** Without the servers the game goes on. When the connection task fails,
    every later job leaves the outside world alone and is defined, whatever the
    jobs are, and every leaderboard request is answered with an empty list. *)
Theorem degraded_storage_is_silent o w t1 w1 js
  (Hconn : connect_all o init w = Ok (t1, w1)) (Hfail : storageReady_ t1 = false) :
  run_tasks o (TConnect :: map TJob js) init w =
    Ok (t1, w1, omap (fun j => match j with
                               | GameServer.JLeaderboard c _ => Some (GameServer.Send c (MLeaderboardResp []))
                               | _ => None
                               end) js).
Proof.
  cbn [run_tasks run_task]. rewrite Hconn. cbn [res_bind]. clear Hconn.
  enough (run_tasks o (map TJob js) t1 w1 = Ok (t1, w1, omap (fun j => match j with
            | GameServer.JLeaderboard c _ => Some (GameServer.Send c (MLeaderboardResp [])) | _ => None end) js)) as ->
    by done.
  induction js as [|j js IH]; [done|]. cbn [map run_tasks].
  assert (run_task o (TJob j) t1 w1 = Ok (t1, w1, match j with
            | GameServer.JLeaderboard c _ => [GameServer.Send c (MLeaderboardResp [])] | _ => [] end)) as ->
    by (destruct j; cbn [run_task]; by rewrite Hfail).
  cbn [res_bind]. rewrite IH. by destruct j.
Qed.

(** Recording a result is not idempotent: the job executed twice counts two
    wins, two losses and two points, although the upsert is described as
    friendly to repetition. *)
Theorem recording_twice_counts_twice c m w a b st
  (Hst : conn_ st = Some m) (Hserv : serving c m w) (Ha : fits a) (Hb : fits b)
  (Hwins : fst (record_of (table w (collate a))) < 2 ^ 31 - 2)
  (Hlosses : snd (record_of (table w (collate b))) < 2 ^ 31 - 2) :
  exists w1 w2, recordResult a b st w = Ok (true, w1) /\ recordResult a b st w1 = Ok (true, w2) /\
    fst (record_of (table w2 (collate a))) = fst (record_of (table w (collate a))) + 2 /\
    snd (record_of (table w2 (collate b))) = snd (record_of (table w (collate b))) + 2.
Proof.
  destruct (recordResult_effect c m w a b st Hst Hserv Ha Hb) as (w1 & Hr1 & Hs1 & _ & Ht1 & _); [lia|lia|].
  assert (fst (record_of (table w1 (collate a))) = fst (record_of (table w (collate a))) + 1 /\
          snd (record_of (table w1 (collate b))) = snd (record_of (table w (collate b))) + 1) as [H1 H2].
  { rewrite !Ht1. cbn [fst snd]. by rewrite !(decide_True (P := _ = _)). }
  destruct (recordResult_effect c m w1 a b st Hst Hs1 Ha Hb) as (w2 & Hr2 & _ & _ & Ht2 & _); [lia|lia|].
  exists w1, w2. rewrite !Ht2. cbn [fst snd]. rewrite !(decide_True (P := _ = _)) by done. split_and!; [done|done|lia|lia].
Qed.

(** An account with a NUL scores for another account. Redis is given the
    account as a C string, MySQL with its full length: when two accounts differ
    only after a NUL, the win of one is recorded in its own row and its point on
    the leaderboard goes to the other. *)
Theorem account_with_nul_scores_for_another o t c m w a a' b
  (Hready : storageReady_ t = true) (Hconn : connected t c m) (Hserv : serving c m w)
  (Ha : fits a) (Hb : fits b)
  (Hwins : fst (record_of (table w (collate a))) < 2 ^ 31 - 1)
  (Hlosses : snd (record_of (table w (collate b))) < 2 ^ 31 - 1)
  (Hnul : c_str a = a') (Hne : collate a' <> collate a) (Hnb : collate a' <> collate b) :
  exists w', run_task o (TJob (GameServer.JRecord a b)) t w = Ok (t, w', []) /\
    record_of (table w' (collate a')) = record_of (table w (collate a')) /\
    board w' (c_str (leaderboardKey o)) a' = f64_add (board w (c_str (leaderboardKey o)) a') (f64_of_Z 1).
Proof.
  destruct Hconn as [Hc Hm].
  destruct (recordResult_effect c m w a b (mysql_ t) Hm Hserv Ha Hb Hwins Hlosses) as (w1 & Hr & Hs1 & _ & Ht1 & Hb1).
  destruct (zincrby_law c m w1 (c_str (leaderboardKey o)) (c_str a) (f64_of_Z 1) Hs1) as (rep & w2 & Hz & _ & Ht2 & Hb2).
  exists w2. cbn [run_task]. rewrite Hready, Hr. cbn [negb res_bind]. unfold zincrby, command. rewrite Hc. cbn [res_bind].
  rewrite Hz. split_and!; [done| |].
  - rewrite Ht2, Ht1, !decide_False by done. rewrite !Z.add_0_r. by rewrite <- surjective_pairing.
  - rewrite Hb2, !Hb1, Hnul, decide_True by done. done.
Qed.

(** *** Null pointers *)

(** [storageReady_] is set only with both clients connected. *)
Definition wf (t : thread) : Prop := storageReady_ t = true -> exists c m, connected t c m.

Lemma reply_pairs_ok l : Forall (fun r => exists s, r = RString s) l -> exists out, reply_pairs l = Ok out.
Proof.
  assert (forall n l, (length l <= n)%nat -> Forall (fun r => exists s, r = RString s) l -> exists out, reply_pairs l = Ok out) as H.
  { intros n. induction n as [|n IH]; intros l' Hn Hf; [destruct l'; [eauto|simpl in Hn; lia]|].
    destruct l' as [|x [|y l']]; [eauto|eauto|]. apply Forall_cons in Hf as [[sx ->] Hf]. apply Forall_cons in Hf as [[sy ->] Hf].
    destruct (IH l') as [out Hout]; [simpl in Hn; lia|done|]. simpl. rewrite Hout. simpl. eauto. }
  by apply (H (length l)).
Qed.

Lemma connect_all_wf o t w :
  (forall w, is_Some (fst (mysql_init w))) -> exists t' w', connect_all o t w = Ok (t', w') /\ wf t'.
Proof.
  intros Hinit. unfold connect_all. destruct (redis_connect _ _ _ _) as [[ok1 r1] w1] eqn:E1.
  assert (ok1 = true -> exists c, ctx_ r1 = Some c) as Hr1.
  { unfold redis_connect in E1. destruct (redisConnectWithTimeout _ _ _) as [[c|] w2]; inv E1; [|done]. eauto. }
  destruct ok1; cbn [negb]; [|by eexists _, _]. destruct Hr1 as [c Hc]; [done|].
  unfold ping, command. rewrite Hc. cbn [res_bind]. destruct (redisCommand _ _ _ _) as [rep w2]. cbn [res_bind].
  destruct (match rep with Some (RStatus _) => true | _ => false end); cbn [negb]; [|by eexists _, _].
  unfold mysql_connect. destruct (Hinit (mysql_destroy (mysql_ t) w2)) as [m Hm].
  destruct (mysql_init _) as [m' w3]. simpl in Hm. subst m'. destruct (mysql_real_connect _ _ _ _ _ _ _) as [[] w4]; cbn [res_bind negb].
  - destruct (ensureSchema _ _) as [ok4 w5]. eexists _, _. split; [done|]. intros _. by exists c, m.
  - by eexists _, _.
Qed.

Lemma run_task_wf o tk t w t' w' e : run_task o tk t w = Ok (t', w', e) -> wf t -> wf t'.
Proof.
  destruct tk as [|[acc|acc|a b|c n]]; cbn [run_task]; intros H Hwf; ok_inv H; try (apply Ok_inj in H; by inv H).
  apply Ok_inj in H. inv H. match goal with H : connect_all _ _ _ = Ok _ |- _ => rename H into Hc end. unfold connect_all in Hc.
  destruct (redis_connect _ _ _ _) as [[ok1 r1] w1] eqn:E1. destruct ok1; cbn [negb] in Hc; [|apply Ok_inj in Hc; by inv Hc].
  assert (exists c, ctx_ r1 = Some c) as [c Hctx].
  { unfold redis_connect in E1. destruct (redisConnectWithTimeout _ _ _) as [[c|] w2]; inv E1. eauto. }
  ok_inv Hc; try (apply Ok_inj in Hc; by inv Hc).
  all: apply Ok_inj in Hc; inv Hc; intros Hready; try done.
  match goal with H : mysql_connect _ _ _ _ _ _ = Ok _ |- _ => rename H into Hm end. unfold mysql_connect in Hm.
  destruct (mysql_init _) as [[h|] w3]; [|done]. destruct (mysql_real_connect _ _ _ _ _ _ _) as [[] w4]; apply Ok_inj in Hm; inv Hm.
  by exists c, h.
Qed.

(** A task of the storage thread is defined. *)
Lemma run_task_ok o tk t w :
  (forall w, is_Some (fst (mysql_init w))) -> wf t -> exists t' w' e, run_task o tk t w = Ok (t', w', e) /\ wf t'.
Proof.
  intros Hinit Hwf. destruct tk as [|j]; cbn [run_task].
  { destruct (connect_all_wf o t w Hinit) as (t' & w' & -> & Hwf'). cbn [res_bind]. by eexists _, _, _. }
  pose proof Hwf as Hwf0. unfold wf in Hwf. destruct (storageReady_ t) eqn:Er.
  2: { destruct j; cbn [run_task]; rewrite ?Er; cbn [negb res_bind]; eexists _, _, _; split_and!; eauto. }
  destruct Hwf as (c & m & Hc & Hm); [done|].
  destruct j as [acc|acc|a b|cl n]; rewrite ?Er; cbn [negb res_bind];
    unfold redis_set, redis_del, recordResult, zincrby, ztopN, command; rewrite ?Hc, ?(escape_ok (mysql_ t) m) by done; cbn [res_bind].
  - destruct (redisCommand _ _ _ _). cbn [res_bind]. eexists _, _, _; eauto.
  - destruct (redisCommand _ _ _ _). cbn [res_bind]. eexists _, _, _; eauto.
  - destruct (mysql_exec _ _ _) as [ok1 w2]. cbn [res_bind].
    destruct (mysql_exec _ _ _) as [ok2 w3]. cbn [res_bind]. destruct (redisCommand _ _ _ _). cbn [res_bind]. eexists _, _, _; eauto.
  - destruct (redisCommand _ _ _ _) as [rep w2] eqn:E. cbn [res_bind].
    destruct rep as [[]|]; cbn [res_bind]; try (eexists _, _, _; split_and!; eauto; fail).
    destruct (reply_pairs_ok l) as [out ->]; [by eapply zrevrange_law|]. cbn [res_bind]. eexists _, _, _; eauto.
Qed.

(** The storage thread never touches a null pointer. Whatever the servers
    answer, the connection task and any jobs after it are defined: the clients
    are used only after both connections were made, the escape buffer is large
    enough, and the elements of a leaderboard reply are strings. [mysql_init]
    fails only when memory is exhausted, which is excluded. *)
Theorem storage_thread_defined o js w (Hinit : forall w, is_Some (fst (mysql_init w))) :
  exists t w' e, run_tasks o (TConnect :: map TJob js) init w = Ok (t, w', e).
Proof.
  assert (wf init) as Hwf by done. revert Hwf. generalize init. generalize (TConnect :: map TJob js). intros tks. revert w.
  induction tks as [|tk tks IH]; intros w t Hwf; cbn [run_tasks]; [eauto|].
  destruct (run_task_ok o tk t w Hinit Hwf) as (t1 & w1 & e1 & -> & Hwf1). cbn [res_bind].
  destruct (IH w1 t1 Hwf1) as (t2 & w2 & e2 & ->). cbn [res_bind]. eauto.
Qed.

(** A job runs the calls [GameServer.run_job] lists for it: the model of the
    lobby and that of the storage thread agree on what a job is. *)
Theorem jobs_are_run_job o t w j :
  run_task o (TJob j) t w =
  (let! (entries, w1) := match j with
                         | GameServer.JLeaderboard _ n =>
                             if storageReady_ t then ztopN (leaderboardKey o) n (redis_ t) w else Ok ([], w)
                         | _ => Ok ([], w)
                         end in
   let (calls, effects) := GameServer.run_job (storageReady_ t) (leaderboardKey o) (fun _ _ => entries) j in
   let! w2 := do_calls calls t w1 in
   Ok (t, w2, effects))%gs.
Proof.
  destruct j as [acc|acc|a b|c n]; cbn [run_task GameServer.run_job res_bind]; destruct (storageReady_ t);
    cbn [negb do_calls do_call res_bind]; try done.
  - by destruct (redis_set _ _ _ _) as [[]|].
  - by destruct (redis_del _ _ _) as [[]|].
  - destruct (recordResult _ _ _ _) as [[ok w1]|]; cbn [res_bind]; [|done]. by destruct (zincrby _ _ _ _ _) as [[]|].
Qed.

End Theorems.

(** ** Storage in memory

    A Redis and a MySQL that satisfy [StorageSpec]. The SQL interpreter reads the
    account as a quoted literal with backslash escapes. *)

Module MemDB.

Record db : Type := mkDb {
  d_up : bool;
  d_players : gmap string (Z * Z);
  d_scores : gmap (string * string) spec_float;
  d_keys : gmap string string;
  d_result : option (option (Z * Z));
}.

Definition set_players (p : gmap string (Z * Z)) (w : db) : db :=
  mkDb (d_up w) p (d_scores w) (d_keys w) (d_result w).

Definition set_scores (z : gmap (string * string) spec_float) (w : db) : db :=
  mkDb (d_up w) (d_players w) z (d_keys w) (d_result w).

Definition set_keys (k : gmap string string) (w : db) : db :=
  mkDb (d_up w) (d_players w) (d_scores w) k (d_result w).

Definition set_result (r : option (option (Z * Z))) (w : db) : db :=
  mkDb (d_up w) (d_players w) (d_scores w) (d_keys w) r.

Definition quote : ascii := "'"%char.
Definition backslash : ascii := ascii_of_nat 92.

(** The letter after the backslash, for the characters that are escaped. *)
Definition escape_letter (a : ascii) : option ascii :=
  match nat_of_ascii a with
  | 0%nat => Some "0"%char
  | 10%nat => Some "n"%char
  | 13%nat => Some "r"%char
  | 26%nat => Some "Z"%char
  | 34%nat => Some (ascii_of_nat 34)
  | 39%nat => Some quote
  | 92%nat => Some backslash
  | _ => None
  end.

Definition unescape_letter (a : ascii) : ascii :=
  if bool_decide (a = "0"%char) then zero
  else if bool_decide (a = "n"%char) then ascii_of_nat 10
  else if bool_decide (a = "r"%char) then ascii_of_nat 13
  else if bool_decide (a = "Z"%char) then ascii_of_nat 26
  else a.

Fixpoint esc (s : string) : string :=
  match s with
  | EmptyString => EmptyString
  | String a s => match escape_letter a with
                  | Some b => String backslash (String b (esc s))
                  | None => String a (esc s)
                  end
  end.

(** A literal up to its closing quote, and what follows. *)
Fixpoint literal (s : string) : option (string * string) :=
  match s with
  | EmptyString => None
  | String a s' =>
      if bool_decide (a = quote) then Some (EmptyString, s')
      else if bool_decide (a = backslash) then
        match s' with
        | String b s'' => match literal s'' with Some (v, r) => Some (String (unescape_letter b) v, r) | None => None end
        | EmptyString => None
        end
      else match literal s' with Some (v, r) => Some (String a v, r) | None => None end
  end.

Fixpoint strip (p s : string) : option string :=
  match p, s with
  | EmptyString, _ => Some s
  | String a p, String b s => if bool_decide (a = b) then strip p s else None
  | _, _ => None
  end.

(** The account of a statement [p 'account q]. *)
Definition statement (p q sql : string) : option string :=
  match strip p sql with
  | None => None
  | Some r => match literal r with Some (v, rest) => if bool_decide (rest = q) then Some v else None | None => None end
  end.

(** The values of an [INT] column. *)
Definition in_int (z : Z) : bool := (- 2 ^ 31 <=? z) && (z <? 2 ^ 31).

Definition in_ints (r : Z * Z) : bool := in_int (fst r) && in_int (snd r).

Definition row (w : db) (acc : string) : option (Z * Z) :=
  match d_players w !! acc with Some r => if in_ints r then Some r else None | None => None end.

Definition upsert (f : option (Z * Z) -> Z * Z) (acc : string) (w : db) : Z * db :=
  let r := f (row w acc) in
  if (String.length acc <=? 64)%nat && in_ints r
  then (0, set_players (<[acc := r]> (d_players w)) w) else (1, w).

Definition query (sql : string) (w : db) : Z * db :=
  if negb (d_up w) then (1, w)
  else if bool_decide (sql = schema_sql) then (0, w)
  else
    match statement "INSERT INTO players(account, wins) VALUES('" ", 1) ON DUPLICATE KEY UPDATE wins = wins + 1" sql with
    | Some acc => upsert with_win acc w
    | None =>
    match statement "INSERT INTO players(account, losses) VALUES('" ", 1) ON DUPLICATE KEY UPDATE losses = losses + 1" sql with
    | Some acc => upsert with_loss acc w
    | None =>
    match statement "SELECT wins, losses FROM players WHERE account='" EmptyString sql with
    | Some acc => (0, set_result (Some (row w acc)) w)
    | None =>
    match statement "DELETE FROM players WHERE account='" EmptyString sql with
    | Some acc => (0, set_players (delete acc (d_players w)) w)
    | None => (1, w)
    end end end end.

Definition row_text (r : Z * Z) : list (option string) := let '(a, b) := r in [Some (pretty a); Some (pretty b)].

#[export] Instance mem_mysql : LibMysql db := {|
  mysql_init := fun w => (Some 1, w);
  mysql_connect_timeout := fun _ _ w => w;
  mysql_real_connect := fun _ _ _ _ _ _ w => (d_up w, w);
  mysql_close := fun _ w => w;
  mysql_real_escape_string := fun _ s => esc s;
  mysql_query := fun _ sql w => query sql w;
  mysql_store_result := fun _ w => (match d_result w with Some _ => Some 1 | None => None end, w);
  mysql_fetch_row := fun _ w => (match d_result w with Some (Some r) => Some (row_text r) | _ => None end, w);
  mysql_free_result := fun _ w => set_result None w;
|}.

Definition redis (fmt : string) (args : list arg) (w : db) : option redisReply * db :=
  if negb (d_up w) then (None, w)
  else
    match args with
    | [] => (Some (RStatus "PONG"), w)
    | [ArgS key; ArgF d; ArgS m] =>
        (Some (RString "score"),
         set_scores (<[(key, m) := f64_add (default (S754_zero false) (d_scores w !! (key, m))) d]> (d_scores w)) w)
    | [ArgS key; ArgD n] => (Some (RArray []), w)
    | [ArgS key; ArgS v] => (Some (RStatus "OK"), set_keys (<[key := v]> (d_keys w)) w)
    | [ArgS key] => (Some (RInteger (if decide (is_Some (d_keys w !! key)) then 1 else 0)),
                     if bool_decide (fmt = "DEL %s") then set_keys (delete key (d_keys w)) w else w)
    | _ => (Some (RError "ERR"), w)
    end.

#[export] Instance mem_redis : Hiredis db := {|
  redisConnectWithTimeout := fun _ _ w => (Some 1, w);
  redis_err := fun _ w => negb (d_up w);
  redisCommand := fun _ fmt args w => redis fmt args w;
  redisFree := fun _ w => w;
|}.

(** *** It satisfies the specification *)

Lemma literal_esc s r : literal (esc s +:+ String quote r) = Some (s, r).
Proof.
  induction s as [|a s IH]; [done|].
  destruct a as [[] [] [] [] [] [] [] []]; cbn -[literal]; simpl; rewrite IH; reflexivity.
Qed.

Lemma strip_app p s : strip p (p +:+ s) = Some s.
Proof. induction p as [|a p IH]; [done|]. simpl. by rewrite bool_decide_eq_true_2. Qed.

Lemma statement_esc p q q' s : q' = String quote q -> statement p q (p +:+ esc s +:+ q') = Some s.
Proof. intros ->. unfold statement. by rewrite strip_app, literal_esc, bool_decide_eq_true_2. Qed.

Lemma esc_length s : (String.length (esc s) <= String.length s * 2)%nat.
Proof. induction s as [|a s IH]; [done|]. simpl. destruct (escape_letter a); simpl; lia. Qed.

Lemma esc_nul s : c_str (esc s) = esc s.
Proof.
  induction s as [|a s IH]; [done|]. destruct a as [[] [] [] [] [] [] [] []]; cbn -[c_str]; simpl; rewrite IH; reflexivity.
Qed.

Lemma query_win s w : d_up w = true -> query (win_sql (esc s)) w = upsert with_win s w.
Proof.
  intros Hup. unfold query. rewrite Hup. cbn [negb]. rewrite bool_decide_eq_false_2 by done. unfold win_sql.
  by rewrite (statement_esc _ ", 1) ON DUPLICATE KEY UPDATE wins = wins + 1" _ s eq_refl).
Qed.

Lemma query_loss s w : d_up w = true -> query (loss_sql (esc s)) w = upsert with_loss s w.
Proof.
  intros Hup. unfold query. rewrite Hup. cbn [negb]. rewrite bool_decide_eq_false_2 by done. unfold loss_sql.
  by rewrite (statement_esc _ ", 1) ON DUPLICATE KEY UPDATE losses = losses + 1" _ s eq_refl).
Qed.

Lemma query_select s w : d_up w = true -> query (select_sql (esc s)) w = (0, set_result (Some (row w s)) w).
Proof.
  intros Hup. unfold query. rewrite Hup. cbn [negb]. rewrite bool_decide_eq_false_2 by done. unfold select_sql.
  by rewrite (statement_esc _ EmptyString _ s eq_refl).
Qed.

Lemma row_upsert f acc w :
  (String.length acc <= 64)%nat -> in_ints (f (row w acc)) = true ->
  upsert f acc w = (0, set_players (<[acc := f (row w acc)]> (d_players w)) w) /\
  forall k, row (set_players (<[acc := f (row w acc)]> (d_players w)) w) k =
    if decide (k = acc) then Some (f (row w k)) else row w k.
Proof.
  intros Hl Hi. unfold upsert. rewrite Hi, (proj2 (Nat.leb_le _ _)) by done. split; [done|]. intros k. unfold row at 1. simpl.
  destruct (decide (k = acc)) as [->|]; [by rewrite lookup_insert_eq, Hi|by rewrite lookup_insert_ne].
Qed.

Lemma row_range w k a b : row w k = Some (a, b) -> - 2 ^ 31 <= a < 2 ^ 31 /\ - 2 ^ 31 <= b < 2 ^ 31.
Proof.
  unfold row, in_ints, in_int. destruct (d_players w !! k) as [r|]; [|done]. destruct (_ && _) eqn:E; [|done].
  intros [= ->]. simpl in E. b2p. lia.
Qed.

Lemma in_ints_bumped w s f :
  (f = with_win /\ fst (record_of (row w s)) < 2 ^ 31 - 1) \/ (f = with_loss /\ snd (record_of (row w s)) < 2 ^ 31 - 1) ->
  in_ints (f (row w s)) = true.
Proof.
  intros H. pose proof (row_range w s) as Hr. unfold in_ints, in_int. destruct (row w s) as [[x y]|].
  - specialize (Hr x y eq_refl). destruct H as [[-> H]|[-> H]]; simpl in *;
      rewrite !andb_true_iff, !Z.leb_le, !Z.ltb_lt; lia.
  - by destruct H as [[-> _]|[-> _]].
Qed.

Definition score (w : db) (key mem : string) : spec_float := default (S754_zero false) (d_scores w !! (key, mem)).

#[export] Program Instance mem_spec : StorageSpec db := {|
  K := string;
  collate := fun s => s;
  fits := fun s => (String.length s <= 64)%nat;
  serving := fun _ _ w => d_up w = true;
  table := row;
  board := score;
|}.
Next Obligation. intros. apply esc_length. Qed.
Next Obligation. intros. apply esc_nul. Qed.
Next Obligation. intros. by eapply row_range. Qed.
Next Obligation.
  intros c m w s Hup Hf Hw. destruct (row_upsert with_win s w Hf) as [He Hk]; [apply in_ints_bumped; by left|].
  eexists. split; [simpl; rewrite query_win by done; exact He|]. split_and!; [done|exact Hk|done].
Qed.
Next Obligation.
  intros c m w s Hup Hf Hw. destruct (row_upsert with_loss s w Hf) as [He Hk]; [apply in_ints_bumped; by right|].
  eexists. split; [simpl; rewrite query_loss by done; exact He|]. split_and!; [done|exact Hk|done].
Qed.
Next Obligation.
  intros c m w s Hup Hf. exists (set_result (Some (row w s)) w), 1, (set_result (Some (row w s)) w), (set_result (Some (row w s)) w). split; [simpl; rewrite query_select by done; reflexivity|].
  split; [done|]. split; [simpl; destruct (row w s) as [[a b]|]; reflexivity|]. exact Hup.
Qed.
Next Obligation.
  intros c m w key mem d Hup. eexists _, _. split; [simpl; unfold redis; rewrite Hup; reflexivity|]. split_and!; [done|done|].
  intros key' mem'. unfold score. simpl. destruct (decide (key' = key /\ mem' = mem)) as [[-> ->]|Hn].
  - by rewrite lookup_insert_eq.
  - rewrite lookup_insert_ne; [done|]. intros [= <- <-]. tauto.
Qed.
Next Obligation.
  intros c key n w l w'. simpl. unfold redis. destruct (d_up w); [|done]. simpl. intros [= <- _]. constructor.
Qed.

End MemDB.

(** ** Scenarios in memory *)

Import MemDB.

Definition fresh (up : bool) : db := mkDb up ∅ ∅ ∅ None.

Definition ready_thread : thread := mkThread true (mkRedis (Some 1)) (mkMySql (Some 1)).

Definition options : StorageOptions := default_options.

(** An account with a quote and one with a NUL. *)
Definition ohara : string := "o'hara".

Definition fake_alice : string := "alice" +:+ String zero "x".


Lemma record_roundtrip_witness :
  exists w1 w2, recordResult ohara "bob" (mkMySql (Some 1)) (fresh true) = Ok (true, w1) /\
    getRecord ohara (mkMySql (Some 1)) w1 = Ok (Some (1, 0), w2).
Proof.
  destruct (record_roundtrip 1 1 (fresh true) ohara "bob" (mkMySql (Some 1))) as (w1 & w2 & H1 & H2);
    [reflexivity|reflexivity|vm_compute; lia|vm_compute; lia|discriminate|vm_compute; reflexivity|vm_compute; reflexivity|].
  exists w1, w2. split; [exact H1|]. rewrite H2. vm_compute. reflexivity.
Defined.

Lemma degraded_storage_is_silent_witness :
  let js := [GameServer.JSetOnline "alice"; GameServer.JLeaderboard 7 10; GameServer.JRecord "alice" "bob"] in
  exists t, run_tasks options (TConnect :: map TJob js) init (fresh false) =
    Ok (t, fresh false, [GameServer.Send 7 (MLeaderboardResp [])]).
Proof.
  cbn zeta. exists (mkThread false (mkRedis (Some 1)) (mkMySql None)).
  apply (degraded_storage_is_silent options (fresh false) (mkThread false (mkRedis (Some 1)) (mkMySql None)) (fresh false)
           [GameServer.JSetOnline "alice"; GameServer.JLeaderboard 7 10; GameServer.JRecord "alice" "bob"]).
  - vm_compute. reflexivity.
  - reflexivity.
Defined.

Lemma storage_thread_defined_witness :
  exists t w' e, run_tasks options (TConnect :: map TJob [GameServer.JRecord "alice" "bob"; GameServer.JLeaderboard 7 10]) init
    (fresh true) = Ok (t, w', e).
Proof.
  apply (storage_thread_defined options [GameServer.JRecord "alice" "bob"; GameServer.JLeaderboard 7 10] (fresh true)).
  intros w. exists 1. reflexivity.
Defined.

Lemma recording_twice_counts_twice_witness :
  exists w1 w2, recordResult "alice" "bob" (mkMySql (Some 1)) (fresh true) = Ok (true, w1) /\
    recordResult "alice" "bob" (mkMySql (Some 1)) w1 = Ok (true, w2) /\ fst (record_of (table w2 "alice")) = 2.
Proof.
  destruct (recording_twice_counts_twice 1 1 (fresh true) "alice" "bob" (mkMySql (Some 1))) as (w1 & w2 & H1 & H2 & H3 & _);
    [reflexivity|reflexivity|vm_compute; lia|vm_compute; lia|vm_compute; reflexivity|vm_compute; reflexivity|].
  exists w1, w2. split_and!; [exact H1|exact H2|]. etransitivity; [exact H3|]. vm_compute. reflexivity.
Defined.

Lemma account_with_nul_scores_for_another_witness :
  exists w', run_task options (TJob (GameServer.JRecord fake_alice "bob")) ready_thread (fresh true) = Ok (ready_thread, w', []) /\
    record_of (table w' "alice") = (0, 0) /\ board w' "leaderboard" "alice" = f64_of_Z 1.
Proof.
  destruct (account_with_nul_scores_for_another options ready_thread 1 1 (fresh true) fake_alice "alice" "bob")
    as (w' & Hrun & Ht & Hb);
    [reflexivity|split; reflexivity|reflexivity|vm_compute; lia|vm_compute; lia|vm_compute; reflexivity|vm_compute; reflexivity
    |vm_compute; reflexivity|vm_compute; discriminate|vm_compute; discriminate|].
  exists w'. split_and!; [exact Hrun|etransitivity; [exact Ht|vm_compute; reflexivity]|].
  etransitivity; [exact Hb|]. vm_compute. reflexivity.
Defined.

End Storage.
