(* ===== verification/Gateway.v ===== *)
(** * From a socket to the handlers ([GameServer.cc], the constructor)

    The constructor of [GameServer] joins the network library to the game: the
    message callback of every connection is the codec, the codec's callback is
    the dispatcher, and each handler of the dispatcher posts its typed message
    to the lobby, except the leaderboard's, which stays on the IO thread. This
    file has that table, the message callback it makes of a connection, and what
    the connection then does with the messages of both directions, at the level
    of whole messages: which are handed to [sendInLoop], in which order. *)

From stdpp Require Import base gmap sets list strings.
From Stdlib Require Import ZArith Lia.
From Stdlib Require Import Init.Byte.
From S2P Require Import Prelude Poller Buffer Codec TcpConnection Float32 Proto Room GameServer.

Local Open Scope Z_scope.

(** [ParseFromArray] of the requests and the serialisation of both sides. *)
Class ServerProtobuf : Type := {
  parse_LoginReq : list byte -> option string;
  parse_ReconnectReq : list byte -> option (Z * string);
  parse_MatchReq : list byte -> option Z;
  parse_PlayerInput : list byte -> option PlayerInput;
  parse_Heartbeat : list byte -> option Z;
  parse_LeaderboardReq : list byte -> option Z;
  client_bytes : client_msg -> list byte;
  server_bytes : server_msg -> list byte;
}.

(** A message parses back from its serialisation. *)
Class ServerProtobufLaws `{ServerProtobuf} : Prop := {
  login_law acc : parse_LoginReq (client_bytes (MLoginReq acc)) = Some acc;
  reconnect_law p tok : parse_ReconnectReq (client_bytes (MReconnectReq p tok)) = Some (p, tok);
  match_law p : parse_MatchReq (client_bytes (MMatchReq p)) = Some p;
  input_law i : parse_PlayerInput (client_bytes (MPlayerInput i)) = Some i;
  heartbeat_law ms : parse_Heartbeat (client_bytes (MHeartbeatReq ms)) = Some ms;
  leaderboard_law n : parse_LeaderboardReq (client_bytes (MLeaderboardReq n)) = Some n;
}.

Module Gateway.

Import TcpConnection(call, CallSend, CallShutdown, effect, SendInLoop, MessageCb, Post,
  state_, kConnected, kDisconnected, write_result, task, TSend, TShutdown, TDestroy).

Section Gateway.
Context {SP : ServerProtobuf}.

(** ** The dispatcher *)

(** The handlers in the order of their registration. A handler is named by the
    message it is given; [lobby_event] and [GameServer.onLeaderboard] say what
    it does. *)
Definition dispatcher_ : Dispatcher.t client_msg :=
  let d1 := Dispatcher.registerHandler MsgId.kLoginReq parse_LoginReq MLoginReq Dispatcher.empty in
  let d2 := Dispatcher.registerHandler MsgId.kReconnectReq parse_ReconnectReq (fun x => MReconnectReq (fst x) (snd x)) d1 in
  let d3 := Dispatcher.registerHandler MsgId.kMatchReq parse_MatchReq MMatchReq d2 in
  let d4 := Dispatcher.registerHandler MsgId.kPlayerInput parse_PlayerInput MPlayerInput d3 in
  let d5 := Dispatcher.registerHandler MsgId.kHeartbeat parse_Heartbeat MHeartbeatReq d4 in
  Dispatcher.registerHandler MsgId.kLeaderboardReq parse_LeaderboardReq MLeaderboardReq d5.

(** The functor a handler posts to the lobby, as the lobby runs it; the clock
    and the random numbers are read there. *)
Definition lobby_event (now rnd1 rnd2 : Z) (c : GameServer.conn) (m : client_msg) : option GameServer.event :=
  match m with
  | MLoginReq acc => Some (GameServer.EvLogin c acc now rnd1 rnd2)
  | MReconnectReq pid tok => Some (GameServer.EvReconnect c pid tok now)
  | MMatchReq _ => Some (GameServer.EvMatch c)
  | MPlayerInput i => Some (GameServer.EvInput c i)
  | MHeartbeatReq ms => Some (GameServer.EvHeartbeat c ms now)
  | MLeaderboardReq _ => None
  end.

Definition to_lobby (m : client_msg) : bool := match m with MLeaderboardReq _ => false | _ => true end.

(** What [onLeaderboard] does on the IO thread: a job for the storage thread,
    or an answer at once. *)
Definition leaderboard_effects (st : bool) (c : GameServer.conn) (m : client_msg) : list GameServer.effect :=
  match m with MLeaderboardReq n => GameServer.onLeaderboard st c n | _ => [] end.

Definition answer (e : GameServer.effect) : option server_msg :=
  match e with GameServer.Send _ m => Some m | _ => None end.

Definition job_of (e : GameServer.effect) : option GameServer.job :=
  match e with GameServer.Enqueue j => Some j | _ => None end.

(** [codec_.send(conn, id, msg)] gives [conn->send] these bytes. *)
Definition frame_of (m : server_msg) : Codec.frame := (server_msg_id m, server_bytes m).

Definition enc (m : server_msg) : list byte := Codec.encode (server_msg_id m) (server_bytes m).

Definition client_enc (m : client_msg) : list byte := Codec.encode (client_msg_id m) (client_bytes m).

(** ** The message callback *)

(** The answers sent on the IO thread for the frames of one [onMessage]. *)
Definition answers (st : bool) (c : GameServer.conn) (fs : list Codec.frame) : list server_msg :=
  flat_map (fun m => omap answer (leaderboard_effects st c m)) (Dispatcher.dispatch_all dispatcher_ fs).

(** Calls of [send], with what the kernel answers to the writes. *)
Fixpoint sends (ms : list server_msg) (ans : list write_result) : list call :=
  match ms with
  | [] => []
  | m :: ms' =>
      CallSend (enc m) (match ans with r :: _ => r | [] => (-1, Buffer.EAGAIN) end) :: sends ms' (tl ans)
  end.

Definition messageCb (st : bool) (c : GameServer.conn) (ans : list write_result) (b : Buffer.t) : Buffer.t * list call :=
  match Codec.onMessage b with
  | Ok o => (Codec.rest o, sends (answers st c (Codec.dispatched o)) ans ++ if Codec.shut o then [CallShutdown] else [])
  | UB => (b, [])
  end.

Lemma messageCb_consumes st c ans : TcpConnection.consumes_frames (messageCb st c ans).
Proof. intros b. unfold messageCb, TcpConnection.codecCb. by destruct (Codec.onMessage b). Qed.

(** With storage nothing is answered on the IO thread. *)
Lemma answers_storage c fs : answers true c fs = [].
Proof.
  unfold answers. induction (Dispatcher.dispatch_all dispatcher_ fs) as [|m ms IH]; [done|]. cbn [flat_map]. rewrite IH.
  by destruct m.
Qed.

(** ** Requests of a client *)

Section Laws.
Context {SL : ServerProtobufLaws}.

(** The handler registered for a message gets it. *)
Lemma dispatch_request m : Dispatcher.onRawMessage dispatcher_ (client_msg_id m) (client_bytes m) = Some m.
Proof.
  unfold Dispatcher.onRawMessage, dispatcher_, Dispatcher.registerHandler. cbn [Dispatcher.handlers_ Dispatcher.defaultHandler_].
  destruct m; cbn [client_msg_id]; repeat (rewrite lookup_insert_ne by done); rewrite lookup_insert_eq.
  - by rewrite login_law.
  - by rewrite reconnect_law.
  - by rewrite match_law.
  - by rewrite input_law.
  - by rewrite heartbeat_law.
  - by rewrite leaderboard_law.
Qed.

Lemma dispatch_requests ms :
  Dispatcher.dispatch_all dispatcher_ (map (fun m => (client_msg_id m, client_bytes m)) ms) = ms.
Proof.
  unfold Dispatcher.dispatch_all. induction ms as [|m ms IH]; [done|]. cbn [map list_omap omap fst snd].
  rewrite dispatch_request. by f_equal.
Qed.

Lemma client_msg_id_range m : 0 <= client_msg_id m < 2 ^ 16.
Proof. destruct m; by vm_compute. Qed.

Definition fits (m : client_msg) : Prop := Z.of_nat (length (client_bytes m)) <= 65534.

(** A stream of requests, cut anywhere: the frames that are complete are those
    of the first requests. *)
Lemma decode_requests ms bs :
  Forall fits ms -> bs `prefix_of` concat (map client_enc ms) ->
  exists ms1 rest, ms1 `prefix_of` ms /\
    Codec.decode bs = (map (fun m => (client_msg_id m, client_bytes m)) ms1, false, rest) /\
    (bs = concat (map client_enc ms) -> ms1 = ms).
Proof.
  intros Hf [tail Ht].
  assert (Codec.decode (concat (map client_enc ms)) = (map (fun m => (client_msg_id m, client_bytes m)) ms, false, [])) as Hd.
  { replace (map client_enc ms) with
      (map (fun f => Codec.encode (fst f) (snd f)) (map (fun m => (client_msg_id m, client_bytes m)) ms)) by (by rewrite map_map).
    rewrite <- (app_nil_r (concat _)), Codec.decode_encode_all; [simpl; by rewrite app_nil_r|].
    apply Forall_map. eapply Forall_impl; [exact Hf|]. intros m Hm. split; [apply client_msg_id_range|exact Hm]. }
  destruct tail as [|x tail].
  { rewrite app_nil_r in Ht. rewrite <- Ht. exists ms, []. by split_and!. }
  rewrite Ht, Codec.decode_app in Hd. destruct (Codec.decode bs) as [[f1 []] r1]; [by inv Hd|].
  destruct (Codec.decode (r1 ++ x :: tail)) as [[f2 s2] r2]. injection Hd as Hd _ _. symmetry in Hd.
  apply map_eq_app in Hd as (ms1 & ms2 & Hms & <- & _). exists ms1, r1. split_and!; [by exists ms2|done|].
  intros Hb. rewrite Ht in Hb. apply (f_equal length) in Hb. rewrite length_app in Hb. simpl in Hb. lia.
Qed.

End Laws.

(** What the server sends, cut anywhere: the complete frames are those of the
    first messages. *)
Definition server_fits (m : server_msg) : Prop := Z.of_nat (length (server_bytes m)) <= 65534.

Lemma server_msg_id_range m : 0 <= server_msg_id m < 2 ^ 16.
Proof. destruct m; by vm_compute. Qed.

Lemma decode_replies ms bs :
  Forall server_fits ms -> bs `prefix_of` concat (map enc ms) ->
  exists ms1 rest, ms1 `prefix_of` ms /\ Codec.decode bs = (map frame_of ms1, false, rest).
Proof.
  intros Hf [tail Ht]. assert (Codec.decode (concat (map enc ms)) = (map frame_of ms, false, [])) as Hd.
  { replace (map enc ms) with (map (fun f => Codec.encode (fst f) (snd f)) (map frame_of ms)) by (by rewrite map_map).
    rewrite <- (app_nil_r (concat _)), Codec.decode_encode_all; [simpl; by rewrite app_nil_r|].
    apply Forall_map. eapply Forall_impl; [exact Hf|]. intros m Hm. split; [apply server_msg_id_range|exact Hm]. }
  rewrite Ht, Codec.decode_app in Hd. destruct (Codec.decode bs) as [[f1 []] r1]; [by inv Hd|].
  destruct (Codec.decode (r1 ++ tail)) as [[f2 s2] r2]. injection Hd as Hd _ _. symmetry in Hd.
  apply map_eq_app in Hd as (ms1 & ms2 & -> & <- & _). exists ms1, r1. split; [by exists ms2|done].
Qed.

(** ** Messages handed to [sendInLoop] *)

Definition sent_msgs (e : list effect) : list (list byte) :=
  omap (fun x => match x with SendInLoop msg => Some msg | _ => None end) e.

Definition pending_msgs (ts : list task) : list (list byte) :=
  omap (fun x => match x with TSend msg => Some msg | _ => None end) ts.

Lemma sent_msgs_app e1 e2 : sent_msgs (e1 ++ e2) = sent_msgs e1 ++ sent_msgs e2.
Proof. apply omap_app. Qed.

Lemma pending_msgs_app ts1 ts2 : pending_msgs (ts1 ++ ts2) = pending_msgs ts1 ++ pending_msgs ts2.
Proof. apply omap_app. Qed.

Lemma concat_sent_msgs e : concat (sent_msgs e) = TcpConnection.sent e.
Proof. induction e as [|x e IH]; [done|]. destruct x; try exact IH. exact (f_equal (app msg) IH). Qed.

Lemma concat_pending_msgs ts : concat (pending_msgs ts) = TcpConnection.pending ts.
Proof. induction ts as [|x ts IH]; [done|]. destruct x; try exact IH. exact (f_equal (app msg) IH). Qed.

Lemma sent_msgs_nil e : (forall msg, SendInLoop msg ∉ e) -> sent_msgs e = [].
Proof.
  induction e as [|x e IH]; intros H; [done|]. assert (sent_msgs e = []) as He.
  { apply IH. intros msg Hin. apply (H msg). by constructor. }
  destruct x; try exact He. destruct (H msg). by constructor.
Qed.

Lemma answers_app st c fs1 fs2 : answers st c (fs1 ++ fs2) = answers st c fs1 ++ answers st c fs2.
Proof. unfold answers, Dispatcher.dispatch_all. by rewrite omap_app, flat_map_app. Qed.

Lemma queue_output_quiet rem c :
  sent_msgs (snd (TcpConnection.queue_output rem c)) = [] /\
  state_ (fst (TcpConnection.queue_output rem c)) = state_ c.
Proof. destruct rem; simpl; [done|]. by destruct (TcpConnection.isWriting _). Qed.

Lemma sendInLoop_msgs msg r c :
  state_ c <> kDisconnected ->
  sent_msgs (snd (TcpConnection.sendInLoop msg r c)) = [msg] /\
  (state_ (fst (TcpConnection.sendInLoop msg r c)) = state_ c \/
   state_ (fst (TcpConnection.sendInLoop msg r c)) = kDisconnected).
Proof.
  intros Hd. unfold TcpConnection.sendInLoop. rewrite decide_False by done.
  destruct (queue_output_quiet msg c) as [H1 H2].
  destruct (queue_output_quiet (drop (Z.to_nat (TcpConnection.returned r msg)) msg) c) as [H3 H4].
  unfold sent_msgs in *. destruct (negb _ && _); [destruct (0 <=? _); [|destruct (snd r)]|].
  all: repeat (destruct (TcpConnection.queue_output _ c)); cbn in *; rewrite ?H1, ?H3; auto.
Qed.

(** A piece of execution on the IO loop: [A] are the answers it owes; all of
    them are handed over while the connection stays connected, and none once it
    is not. *)
Definition answering (A : list (list byte)) (c : TcpConnection.t) (e : list effect) (c' : TcpConnection.t) : Prop :=
  sent_msgs e `prefix_of` A /\
  (state_ c' = kConnected -> state_ c = kConnected /\ sent_msgs e = A) /\
  (state_ c <> kConnected -> sent_msgs e = []) /\
  (state_ c = kDisconnected -> state_ c' = kDisconnected).

Lemma answering_nil c e c' :
  sent_msgs e = [] -> (state_ c' = state_ c \/ state_ c' = kDisconnected) -> answering [] c e c'.
Proof. intros He Hs. unfold answering. rewrite He. split_and!; [done| |done|]; intuition congruence. Qed.

Lemma answering_trans A1 A2 c1 e1 c2 e2 c3 :
  answering A1 c1 e1 c2 -> answering A2 c2 e2 c3 -> answering (A1 ++ A2) c1 (e1 ++ e2) c3.
Proof.
  intros (P1 & C1 & N1 & D1) (P2 & C2 & N2 & D2). unfold answering. rewrite sent_msgs_app. split_and!.
  - destruct (decide (state_ c2 = kConnected)) as [E|E].
    + destruct (C1 E) as [_ ->]. by apply prefix_app.
    + rewrite (N2 E), app_nil_r. etrans; [exact P1|]. by eexists.
  - intros E3. destruct (C2 E3) as [E2 ->]. destruct (C1 E2) as [E1 ->]. done.
  - intros E1. rewrite (N1 E1). destruct (decide (state_ c2 = kConnected)) as [E2|E2]; [by destruct (C1 E2)|]. by apply N2.
  - auto.
Qed.

Lemma answering_handleClose c :
  answering [] c (snd (TcpConnection.handleClose c)) (fst (TcpConnection.handleClose c)).
Proof. apply answering_nil; [done|by right]. Qed.

Lemma answering_calls ms ans (shut : bool) c :
  answering (map enc ms) c
    (snd (TcpConnection.exec_calls (sends ms ans ++ if shut then [CallShutdown] else []) c))
    (fst (TcpConnection.exec_calls (sends ms ans ++ if shut then [CallShutdown] else []) c)).
Proof.
  revert ans c. induction ms as [|m ms IH]; intros ans c.
  - destruct shut; simpl; [|apply answering_nil; [done|by left]].
    destruct (decide (state_ c = kConnected)) as [E|E]; [|apply answering_nil; [done|by left]].
    unfold TcpConnection.shutdownInLoop. simpl. unfold answering. rewrite app_nil_r, E.
    assert (sent_msgs (if TcpConnection.isWriting (TcpConnection.set_state TcpConnection.kDisconnecting c) then [] else [TcpConnection.ShutWr]) = [])
      as -> by by destruct (TcpConnection.isWriting _).
    by split_and!.
  - cbn [sends map app TcpConnection.exec_calls]. set (r := match ans with r :: _ => r | [] => _ end).
    assert (answering [enc m] c (snd (TcpConnection.exec_call (CallSend (enc m) r) c))
              (fst (TcpConnection.exec_call (CallSend (enc m) r) c))) as H1.
    { cbn [TcpConnection.exec_call]. destruct (decide (state_ c = kConnected)) as [E|E].
      - destruct (sendInLoop_msgs (enc m) r c) as [Hm Hs]; [congruence|]. unfold answering. rewrite Hm, E.
        split_and!; [done|done|done|done].
      - unfold answering. simpl. split_and!; [apply prefix_nil|intros; contradiction|done|done]. }
    specialize (IH (tl ans) (fst (TcpConnection.exec_call (CallSend (enc m) r) c))).
    destruct (TcpConnection.exec_call (CallSend (enc m) r) c) as [c1 e1]. cbn [fst snd] in *.
    destruct (TcpConnection.exec_calls _ c1) as [c2 e2]. cbn [fst snd] in *. by apply (answering_trans [enc m] _ c e1 c1).
Qed.

Lemma read_loop_msgs rs b : sent_msgs (snd (TcpConnection.read_loop rs b)) = [].
Proof.
  revert b. induction rs as [|r rs IH]; intros b; simpl; [done|]. destruct (Buffer.readFd r b) as [[n er] b1].
  specialize (IH b1). destruct (0 <? n).
  - destruct (TcpConnection.read_loop rs b1) as [[en b2] e]. destruct r; exact IH.
  - destruct (n =? 0); [done|]. destruct er as [[]|]; done.
Qed.

Lemma write_loop_msgs ws b en b' e : TcpConnection.write_loop ws b = Ok (en, b', e) -> sent_msgs e = [].
Proof.
  revert b en b' e. induction ws as [|r ws IH]; intros b en b' e; cbn [TcpConnection.write_loop]; destruct (_ =? _)%nat;
    try (intros H; apply Ok_inj in H; by inv H).
  cbv zeta. destruct (0 <? _).
  - destruct (Buffer.retrieve _ b) as [b1|]; cbn [res_bind]; [|done].
    destruct (TcpConnection.write_loop ws b1) as [[[en1 b2] e1]|] eqn:E; cbn [res_bind]; [|done]. intros H. apply Ok_inj in H.
    inv H. apply IH in E. exact E.
  - destruct (snd r); try (intros H; apply Ok_inj in H; by inv H).
    destruct (TcpConnection.write_loop ws b) as [[[en1 b2] e1]|] eqn:E; cbn [res_bind]; [|done]. intros H. apply Ok_inj in H.
    inv H. apply IH in E. exact E.
Qed.

Section Ready.
Context (st : bool) (cid : GameServer.conn) (ans : list write_result).

(** The answers a trace owes. *)
Definition owed (e : list effect) : list (list byte) := map enc (answers st cid (TcpConnection.frames e)).

Lemma owed_app e1 e2 : owed (e1 ++ e2) = owed e1 ++ owed e2.
Proof. unfold owed. by rewrite TcpConnection.frames_app, answers_app, map_app. Qed.

Lemma owed_quiet c e c' : TcpConnection.same_input c e c' -> owed e = [].
Proof. intros (_ & _ & H). unfold owed. by rewrite H. Qed.

Lemma answering_deliver c :
  answering (owed (snd (TcpConnection.deliver (messageCb st cid ans) c))) c
    (snd (TcpConnection.deliver (messageCb st cid ans) c)) (fst (TcpConnection.deliver (messageCb st cid ans) c)).
Proof.
  unfold TcpConnection.deliver. destruct (_ <? _)%nat; [|apply answering_nil; [done|by left]].
  unfold messageCb. destruct (Codec.onMessage _) as [o|] eqn:Eo.
  - pose proof (answering_calls (answers st cid (Codec.dispatched o)) ans (Codec.shut o)
                  (TcpConnection.set_input (Codec.rest o) c)) as H.
    pose proof (TcpConnection.same_input_exec_calls (sends (answers st cid (Codec.dispatched o)) ans ++
       if Codec.shut o then [CallShutdown] else []) (TcpConnection.set_input (Codec.rest o) c)) as Hi.
    destruct (TcpConnection.exec_calls _ _) as [c1 e1]. cbn [fst snd] in *.
    replace (owed (MessageCb (TcpConnection.inputBuffer_ c) :: e1)) with (map enc (answers st cid (Codec.dispatched o))); [exact H|].
    change (MessageCb (TcpConnection.inputBuffer_ c) :: e1) with ([MessageCb (TcpConnection.inputBuffer_ c)] ++ e1).
    rewrite owed_app, (owed_quiet _ _ _ Hi), app_nil_r. unfold owed, TcpConnection.frames. cbn [flat_map]. by rewrite Eo, app_nil_r.
  - cbn [TcpConnection.exec_calls]. unfold owed, TcpConnection.frames. cbn [flat_map snd]. rewrite Eo.
    apply answering_nil; [done|by left].
Qed.

Lemma answering_handleRead rs c :
  answering (owed (snd (TcpConnection.handleRead (messageCb st cid ans) rs c))) c
    (snd (TcpConnection.handleRead (messageCb st cid ans) rs c)) (fst (TcpConnection.handleRead (messageCb st cid ans) rs c)).
Proof.
  unfold TcpConnection.handleRead. pose proof (read_loop_msgs rs (TcpConnection.inputBuffer_ c)) as Hr.
  pose proof (TcpConnection.read_loop_frames rs (TcpConnection.inputBuffer_ c)) as Hf.
  destruct (TcpConnection.read_loop rs _) as [[en b] e1]. cbn [snd] in Hr, Hf.
  assert (answering (owed e1) c e1 (TcpConnection.set_input b c)) as H1.
  { unfold owed. rewrite Hf. apply answering_nil; [done|by left]. }
  pose proof (answering_deliver (TcpConnection.set_input b c)) as H2.
  assert (forall c, answering (owed (snd (TcpConnection.handleClose c))) c (snd (TcpConnection.handleClose c))
            (fst (TcpConnection.handleClose c))) as H3 by apply answering_handleClose.
  unfold TcpConnection.handleError. destruct en.
  - destruct (TcpConnection.deliver _ _) as [c2 e2]. cbn [fst snd] in *. rewrite owed_app. by eapply answering_trans.
  - destruct (TcpConnection.deliver _ _) as [c2 e2]. specialize (H3 c2). destruct (TcpConnection.handleClose c2) as [c3 e3].
    cbn [fst snd] in *. rewrite !owed_app. eapply answering_trans; [exact H1|]. by eapply answering_trans.
  - specialize (H3 (TcpConnection.set_input b c)). destruct (TcpConnection.handleClose _) as [c3 e3].
    cbn [fst snd] in *. rewrite owed_app. by eapply answering_trans.
Qed.

Lemma answering_handleWrite ws c c' e : TcpConnection.handleWrite ws c = Ok (c', e) -> answering [] c e c'.
Proof.
  unfold TcpConnection.handleWrite. destruct (TcpConnection.isWriting c); simpl; [|intros H; apply Ok_inj in H; inv H; by apply answering_nil; auto].
  destruct (TcpConnection.write_loop ws _) as [[[en b] ew]|] eqn:Ew; simpl; [|done]. apply write_loop_msgs in Ew.
  intros H. apply Ok_inj in H. destruct en; simpl in H; try destruct (decide _); inv H;
    (apply answering_nil; [rewrite ?sent_msgs_app, ?Ew; try done|simpl; auto]).
  by destruct (TcpConnection.isWriting _).
Qed.

Lemma answering_callbacks rs ws cbs c c' e :
  TcpConnection.run_callbacks (messageCb st cid ans) rs ws cbs c = Ok (c', e) -> answering (owed e) c e c'.
Proof.
  revert c e. induction cbs as [|cb cbs IH]; intros c e; cbn [TcpConnection.run_callbacks].
  { intros H. apply Ok_inj in H. inv H. apply answering_nil; [done|by left]. }
  destruct (TcpConnection.run_callback (messageCb st cid ans) rs ws cb c) as [[c1 e1]|] eqn:E1; cbn [res_bind]; [|done].
  destruct (TcpConnection.run_callbacks (messageCb st cid ans) rs ws cbs c1) as [[c2 e2]|] eqn:E2; cbn [res_bind]; [|done].
  intros H. apply Ok_inj in H. inv H. rewrite owed_app. eapply answering_trans; [|by apply IH].
  destruct cb; cbn [TcpConnection.run_callback] in E1.
  - apply Ok_inj in E1. inv E1. apply answering_handleClose.
  - apply Ok_inj in E1. inv E1. apply answering_handleClose.
  - apply Ok_inj in E1. pose proof (answering_handleRead rs c) as H. rewrite E1 in H. exact H.
  - pose proof (TcpConnection.same_input_handleWrite ws c _ _ E1) as Hi. rewrite (owed_quiet _ _ _ Hi).
    by eapply answering_handleWrite.
Qed.

End Ready.

(** ** The messages of a connection, in order

    [S] are the messages handed to [sendInLoop], [P] those other threads gave to
    [send], [D] the answers owed on the IO thread. *)
Definition Sends (c : TcpConnection.t) (ts : list task) (S P D : list (list byte)) : Prop :=
  exists p d, interleaving p d S /\ p `prefix_of` P /\ d `prefix_of` D /\
    (state_ c <> kDisconnected -> (p ++ pending_msgs ts) `prefix_of` P) /\
    (state_ c = kConnected -> p ++ pending_msgs ts = P /\ d = D).

(** What an event gives to [send]. *)
Definition given (ev : TcpConnection.event) : list (list byte) :=
  match ev with TcpConnection.EvSend msg => [msg] | _ => [] end.

Lemma Sends_init c : Sends c [] [] [] [].
Proof. exists [], []. split_and!; auto with gs. Qed.

(** A step that hands nothing over and at most ends the sending. *)
Lemma Sends_quiet c ts c' ts' S P D P' D' :
  Sends c ts S P D -> pending_msgs ts' = pending_msgs ts -> P `prefix_of` P' -> D `prefix_of` D' ->
  (state_ c' <> kDisconnected -> state_ c <> kDisconnected) ->
  (state_ c' = kConnected -> state_ c = kConnected /\ P' = P /\ D' = D) -> Sends c' ts' S P' D'.
Proof.
  intros (p & d & Hm & Hp & Hd & Ho & Hc) Ht HP HD H1 H2. exists p, d. rewrite Ht. split_and!; [done|by etrans..| |].
  - intros E. etrans; [by apply Ho, H1|done].
  - intros E. destruct (H2 E) as (E' & -> & ->). by apply Hc.
Qed.

Lemma Sends_task st cid tk r c ts c' e S P D :
  Sends c (tk :: ts) S P D -> TcpConnection.exec_task tk r c = (c', e) ->
  Sends c' ts (S ++ sent_msgs e) P (D ++ owed st cid e).
Proof.
  intros HS E. assert (owed st cid e = []) as ->.
  { apply (owed_quiet st cid c e c'). destruct tk; simpl in E.
    - pose proof (TcpConnection.same_input_sendInLoop msg r c) as H. rewrite E in H. exact H.
    - unfold TcpConnection.shutdownInLoop in E. inv E. by destruct (TcpConnection.isWriting _).
    - unfold TcpConnection.connectDestroyed in E. destruct (decide _); by inv E. }
  rewrite app_nil_r. destruct tk as [msg| |]; simpl in E.
  - destruct (decide (state_ c = kDisconnected)) as [Ed|Ed].
    + unfold TcpConnection.sendInLoop in E. rewrite decide_True in E by done. inv E. simpl. rewrite app_nil_r.
      destruct HS as (p & d & Hm & Hp & Hd & Ho & Hc). exists p, d. split_and!; [done..| |]; congruence.
    + destruct (sendInLoop_msgs msg r c Ed) as [Hs Hst]. rewrite E in Hs, Hst. cbn [fst snd] in Hs, Hst. rewrite Hs.
      destruct HS as (p & d & Hm & Hp & Hd & Ho & Hc). exists (p ++ [msg]), d.
      change (pending_msgs (TSend msg :: ts)) with (msg :: pending_msgs ts) in *. rewrite <- (assoc_L (++)). cbn [app].
      split_and!.
      * rewrite <- (app_nil_r d). apply interleaving_app; auto with gs.
      * etrans; [|by apply Ho]. exists (pending_msgs ts). by rewrite <- (assoc_L (++)).
      * done.
      * intros _. by apply Ho.
      * intros E'. apply Hc. destruct Hst; congruence.
  - unfold TcpConnection.shutdownInLoop in E. inv E.
    assert (sent_msgs (if TcpConnection.isWriting c' then [] else [TcpConnection.ShutWr]) = []) as -> by by destruct (TcpConnection.isWriting c').
    rewrite app_nil_r. eapply Sends_quiet; [exact HS|done..].
  - unfold TcpConnection.connectDestroyed in E. destruct (decide _) as [E'|E']; inv E; simpl; rewrite app_nil_r;
      (eapply Sends_quiet; [exact HS|done..]).
Qed.

Lemma Sends_callbacks st cid ans rs ws cbs c ts c' e S P D :
  Sends c ts S P D -> TcpConnection.run_callbacks (messageCb st cid ans) rs ws cbs c = Ok (c', e) ->
  Sends c' ts (S ++ sent_msgs e) P (D ++ owed st cid e).
Proof.
  intros (p & d & Hm & Hp & Hd & Ho & Hc) E. apply answering_callbacks in E as (Hpre & Hconn & Hnot & Hdis).
  destruct (decide (state_ c = kConnected)) as [Es|Es].
  - destruct (Hc Es) as [HP HD]. exists p, (d ++ sent_msgs e). split_and!.
    + rewrite <- (app_nil_r p). apply interleaving_app; [done|apply interleaving_right].
    + done.
    + subst D. by apply prefix_app.
    + intros _. apply Ho. congruence.
    + intros E'. destruct (Hconn E') as [_ ->]. by subst.
  - rewrite (Hnot Es), app_nil_r. exists p, d. split_and!; [done|done| | |].
    + etrans; [exact Hd|by eexists].
    + intros E'. apply Ho. tauto.
    + intros E'. by destruct (Hconn E').
Qed.

Lemma Sends_exec st cid ans ev c ts c' ts' e S P D :
  Sends c ts S P D -> TcpConnection.exec (messageCb st cid ans) ev (c, ts) = Ok ((c', ts'), e) ->
  Sends c' ts' (S ++ sent_msgs e) (P ++ given ev) (D ++ owed st cid e).
Proof.
  intros HS. destruct ev as [msg| | |r|rev rs ws]; cbn [TcpConnection.exec given]; rewrite ?app_nil_r.
  - destruct (decide _) as [E|E]; intros H; apply Ok_inj in H; inv H; simpl; rewrite !app_nil_r.
    + destruct HS as (p & d & Hm & Hp & Hd & Ho & Hc). exists p, d. destruct (Hc E) as [HP HD].
      rewrite pending_msgs_app. cbn [pending_msgs omap list_omap]. rewrite (assoc_L (++)), HP.
      split_and!; [done| |done|done|done]. etrans; [exact Hp|by eexists].
    + eapply Sends_quiet; [exact HS|done|by eexists|done|done|done].
  - destruct (decide _) as [E|E]; intros H; apply Ok_inj in H; inv H; simpl; rewrite !app_nil_r; [|done].
    eapply Sends_quiet; [exact HS| |done|done|congruence|done].
    rewrite pending_msgs_app. apply app_nil_r.
  - intros H; apply Ok_inj in H; inv H; simpl; rewrite !app_nil_r. eapply Sends_quiet; [exact HS| |done..].
    rewrite pending_msgs_app. apply app_nil_r.
  - destruct ts as [|tk ts]; [intros H; apply Ok_inj in H; inv H; simpl; by rewrite !app_nil_r|].
    destruct (TcpConnection.exec_task tk r c) as [c1 e1] eqn:E. intros H. apply Ok_inj in H. inv H. by eapply Sends_task.
  - destruct (TcpConnection.run_callbacks _ rs ws _ c) as [[c1 e1]|] eqn:E; cbn [res_bind]; [|done].
    intros H. apply Ok_inj in H. inv H. by eapply Sends_callbacks.
Qed.

End Gateway.
End Gateway.
