(* ===== verification/Bot.v ===== *)
(** * The bot client ([src/examples/bot_client.cc])

    A bot logs in, asks for a match, and in a battle walks towards the nearest
    enemy and fires when it is near. Its socket blocks with a time-out of 100 ms,
    which is also its clock: every iteration of its loop tries to read one frame
    and then does what is due.

    The module has the reading of frames over a kernel given by the laws of
    recv(2) ([RecvLaws]), the loop's body ([iteration]) with its three parts
    (message, reconnection, heartbeat and input), and what ties the bot to the
    server: it knows the battle ([bot_knows_the_battle]) and is not kicked
    ([heartbeats_keep_the_bot_alive]). *)

From stdpp Require Import base gmap list strings relations.
From Stdlib Require Import ZArith Lia.
From Stdlib Require Import Init.Byte.
From S2P Require Import Prelude Float32 Codec Proto BattleSim Room GameServer.

Local Open Scope Z_scope.

(** ** The kernel and protobuf *)

(** [recv] with a buffer of [n] bytes: the bytes it stored, or none when it
    timed out, failed, or the peer has closed; [incoming] is what the peer has
    sent and the program has not read yet. *)
Class RecvKernel (K : Type) : Type := {
  recv : nat -> K -> option (list byte) * K;
  incoming : K -> list byte;
}.

Class RecvLaws (K : Type) `{RecvKernel K} : Prop := {
  recv_data n k bs k' : recv n k = (Some bs, k') ->
    bs <> [] /\ (length bs <= n)%nat /\ incoming k = bs ++ incoming k';
  recv_none n k k' : recv n k = (None, k') -> incoming k' = incoming k;
}.

(** [ParseFromString] of the messages the bot reads (its result is not looked
    at: whatever was parsed is used), and the serialisation by the server. *)
Class Protobuf : Type := {
  parse_LoginResp : list byte -> Z * Z * string;
  parse_EnterRoom : list byte -> Z * list Z;
  parse_StateSnapshot : list byte -> StateSnapshot;
  parse_BattleEnd : list byte -> Z;
  serialize : server_msg -> list byte;
}.

Class ProtobufLaws `{Protobuf} : Prop := {
  parse_login c p t : parse_LoginResp (serialize (MLoginResp c p t)) = (c, p, t);
  parse_enter r l : parse_EnterRoom (serialize (MEnterRoom r l)) = (r, l);
  parse_snapshot s : parse_StateSnapshot (serialize (MStateSnapshot s)) = s;
  parse_end w : parse_BattleEnd (serialize (MBattleEnd w)) = w;
}.

Module Bot.

(** ** Reading frames *)

Section Recv.
Context {K : Type} {RK : RecvKernel K}.

(** The loop of [recvN] with [n] bytes still missing; [None] is the end of the
    fuel. A failure keeps nothing of what was read. *)
Fixpoint recvN_loop (fuel n : nat) (acc : list byte) (k : K) : option (option (list byte) * K) :=
  match n with
  | O => Some (Some acc, k)
  | S _ =>
      match fuel with
      | O => None
      | S fuel' =>
          match recv n k with
          | (None, k') => Some (None, k')
          | (Some bs, k') => recvN_loop fuel' (n - length bs) (acc ++ bs) k'
          end
      end
  end.

(** Every [recv] returns a byte at least. *)
Definition recvN (n : nat) (k : K) : option (option (list byte) * K) := recvN_loop n n [] k.

Definition recvFrame (k : K) : option (option (Z * list byte) * K) :=
  match recvN 6 k with
  | None => None
  | Some (None, k1) => Some (None, k1)
  | Some (Some head, k1) =>
      let len := Codec.be_load (take 4 head) in
      let id := Codec.be_load (take 2 (drop 4 head)) in
      if len =? 2 then Some (Some (id, []), k1)
      else
        match recvN (Z.to_nat (u32 (len - 2))) k1 with
        | None => None
        | Some (None, k2) => Some (None, k2)
        | Some (Some body, k2) => Some (Some (id, body), k2)
        end
  end.

(** [n] calls of [recvFrame]: the frames of those that succeeded. *)
Fixpoint recvFrames (n : nat) (k : K) : option (list (Z * list byte) * K) :=
  match n with
  | O => Some ([], k)
  | S n' =>
      match recvFrame k with
      | None => None
      | Some (f, k1) =>
          match recvFrames n' k1 with
          | None => None
          | Some (fs, k2) => Some (option_list f ++ fs, k2)
          end
      end
  end.

(** The states of the kernel after any calls of [recv]. *)
Definition reads : K -> K -> Prop := rtc (fun k k' => exists n r, recv (S n) k = (r, k')).

Context {RL : RecvLaws K}.

(** With enough fuel the loop returns: everything, or nothing and a proper part
    of the bytes is gone. *)
Lemma recvN_loop_spec fuel n acc k :
  (n <= fuel)%nat ->
  exists r k', recvN_loop fuel n acc k = Some (r, k') /\ reads k k' /\
    exists lost, incoming k = lost ++ incoming k' /\
      ((r = Some (acc ++ lost) /\ length lost = n) \/
       (r = None /\ (length lost < n)%nat /\ exists m k0, reads k k0 /\ recv (S m) k0 = (None, k'))).
Proof.
  revert n acc k. induction fuel as [|fuel IH]; intros [|n] acc k Hf; simpl; [|lia| |].
  1, 2: eexists _, _; split; [done|]; split; [constructor|]; exists []; rewrite app_nil_r; by split; [|left].
  destruct (recv (S n) k) as [[bs|] k1] eqn:E.
  - assert (forall k2, reads k1 k2 -> reads k k2) as Hst by (intros k2; apply rtc_l; eauto).
    apply recv_data in E as (Hne & Hle & Hk). assert (0 < length bs)%nat by (destruct bs; [done|simpl; lia]).
    destruct (IH (S n - length bs)%nat (acc ++ bs) k1) as (r & k' & Hr & Hrd & lost & Hl & Hc); [lia|].
    exists r, k'. split; [exact Hr|]. split; [by apply Hst|].
    exists (bs ++ lost). rewrite Hk, Hl, <- !app_assoc, length_app. split; [done|].
    rewrite <- app_assoc in Hc. destruct Hc as [[-> Hc]|(-> & Hc & m & k0 & Hr0 & Hf0)]; [left; split; [done|lia]|right].
    split_and!; [done|lia|eauto].
  - pose proof (recv_none _ _ _ E) as E'. eexists _, _. split; [done|]. split; [apply rtc_once; eauto|].
    exists []. rewrite E'. simpl. split; [done|right]. split_and!; [done|lia|]. exists n, k. split; [constructor|done].
Qed.

Lemma recvN_spec n k :
  exists r k', recvN n k = Some (r, k') /\ reads k k' /\
    exists lost, incoming k = lost ++ incoming k' /\
      ((r = Some lost /\ length lost = n) \/
       (r = None /\ (length lost < n)%nat /\ exists m k0, reads k k0 /\ recv (S m) k0 = (None, k'))).
Proof. by apply (recvN_loop_spec n n [] k). Qed.

Lemma encode_parts id body :
  0 <= id < 2 ^ 16 -> Z.of_nat (length body) < 2 ^ 32 - 2 ->
  exists h, Codec.encode id body = h ++ body /\ length h = 6%nat /\
    Codec.be_load (take 4 h) = Z.of_nat (length body) + 2 /\ Codec.be_load (take 2 (drop 4 h)) = id.
Proof.
  intros Hid Hlen. unfold Codec.encode, Codec.kIdLen.
  exists (Codec.be_store 4 (u32 (Z.of_nat (2 + length body))) ++ Codec.be_store 2 (u16 id)).
  rewrite <- app_assoc. split; [done|]. rewrite length_app, !Codec.length_be_store. split; [done|].
  rewrite take_app_length', drop_app_length' by (by rewrite Codec.length_be_store).
  rewrite take_ge by (rewrite Codec.length_be_store; lia). rewrite !Codec.be_load_store.
  rewrite u32_small by lia. unfold u16. change (Z.of_nat 4) with 4. change (Z.of_nat 2) with 2.
  split; [rewrite Z.mod_small by lia; lia|]. change (256 ^ 2) with (2 ^ 16). by rewrite Zmod_mod, Z.mod_small.
Qed.

(** The first of two equal concatenations reaches further. *)
Lemma app_shorter {A} (a b c d : list A) :
  a ++ b = c ++ d -> (length c <= length a)%nat -> exists r, a = c ++ r /\ d = r ++ b.
Proof.
  intros [(r & -> & ->)|(r & -> & ->)]%app_eq_inv Hle; [eauto|]. rewrite length_app in Hle.
  destruct r; [|simpl in Hle; lia]. exists []. by rewrite !app_nil_r.
Qed.

(** One call on a stream that goes on with a frame: the frame, or nothing and a
    proper prefix of the frame is gone. *)
Lemma recvFrame_spec id body rest k :
  0 <= id < 2 ^ 16 -> Z.of_nat (length body) < 2 ^ 32 - 2 ->
  incoming k = Codec.encode id body ++ rest ->
  exists r k', recvFrame k = Some (r, k') /\ reads k k' /\
    ((r = Some (id, body) /\ incoming k' = rest) \/
     (r = None /\ (exists lost kept, Codec.encode id body = lost ++ kept /\ kept <> [] /\ incoming k' = kept ++ rest) /\
      exists m k0, reads k k0 /\ recv (S m) k0 = (None, k'))).
Proof.
  intros Hid Hlen Hin. destruct (encode_parts id body Hid Hlen) as (h & He & Hh & Hl & Hi). unfold recvFrame.
  rewrite He, <- app_assoc in Hin.
  destruct (recvN_spec 6 k) as (r1 & k1 & -> & Hr1 & l1 & Hk1 & Hc1).
  rewrite Hin in Hk1. destruct Hc1 as [[-> Hc1]|(-> & Hc1 & Hfail)].
  - apply app_inj_1 in Hk1 as [<- Hk1]; [|lia]. rewrite Hl, Hi. destruct (Z.eqb_spec (Z.of_nat (length body) + 2) 2) as [Hz|Hz].
    + assert (body = []) as -> by (destruct body; [done|simpl in Hz; lia]). eexists _, _. split; [done|]. split; [done|left].
      by rewrite <- Hk1.
    + replace (Z.of_nat (length body) + 2 - 2) with (Z.of_nat (length body)) by lia. rewrite u32_small, Nat2Z.id by lia.
      destruct (recvN_spec (length body) k1) as (r2 & k2 & -> & Hr2 & l2 & Hk2 & Hc2).
      assert (reads k k2) as Hr by (by etrans).
      rewrite <- Hk1 in Hk2. destruct Hc2 as [[-> Hc2]|(-> & Hc2 & m & k0 & Hr0 & Hfail)].
      * apply app_inj_1 in Hk2 as [<- Hk2]; [|lia]. eexists _, _. split; [done|]. split; [done|by left].
      * eexists _, _. split; [done|]. split; [done|right]. split_and!; [done| |exists m, k0; split; [etrans; [exact Hr1|exact Hr0]|done]].
        destruct (app_shorter _ _ _ _ Hk2) as (kept & -> & ->); [lia|]. rewrite length_app in Hc2.
        exists (h ++ l2), kept. rewrite He, <- app_assoc. split_and!; [done| |done]. intros ->. simpl in Hc2. lia.
  - eexists _, _. split; [done|]. split; [done|right]. split_and!; [done| |exact Hfail].
    destruct (app_shorter _ _ _ _ Hk1) as (kept & -> & ->); [lia|]. rewrite length_app in Hh.
    exists l1, (kept ++ body). rewrite He, <- !app_assoc. split_and!; [done| |done]. intros [-> _]%app_nil. simpl in Hh. lia.
Qed.

(** *** Whole streams *)

Definition stream (fs : list (Z * list byte)) : list byte := mjoin (map (fun f => Codec.encode (fst f) (snd f)) fs).

Definition legal (f : Z * list byte) : Prop := 0 <= fst f < 2 ^ 16 /\ Z.of_nat (length (snd f)) < 2 ^ 32 - 2.

Lemma stream_cons f fs : stream (f :: fs) = Codec.encode (fst f) (snd f) ++ stream fs.
Proof. reflexivity. Qed.

Lemma stream_app fs fs' : stream (fs ++ fs') = stream fs ++ stream fs'.
Proof. induction fs as [|f fs IH]; [done|]. simpl. rewrite !stream_cons, IH. by rewrite app_assoc. Qed.

(** No end of a stream that begins inside a frame is the stream of the last
    frames. *)
Lemma no_boundary_inside pre f fs fs1 fs2 lost kept :
  Codec.encode (fst f) (snd f) = lost ++ kept -> kept <> [] ->
  pre ++ f :: fs = fs1 ++ fs2 -> kept ++ stream fs = stream fs2 -> lost = [].
Proof.
  intros He Hk Hs Hst. apply (f_equal length) in Hst. rewrite length_app in Hst.
  assert (0 < length kept)%nat by (destruct kept; [done|simpl; lia]).
  apply app_eq_inv in Hs as [(l & _ & ->)|(l & -> & Hs)].
  - rewrite stream_app, stream_cons, He, !length_app in Hst. destruct lost; [done|simpl in Hst; lia].
  - destruct l as [|x l]; simpl in Hs; [subst fs2|injection Hs as <- ->].
    + rewrite stream_cons, He, !length_app in Hst. destruct lost; [done|simpl in Hst; lia].
    + rewrite stream_app, length_app in Hst. lia.
Qed.

(** From [k] on, the kernel lets [recv] fail only between two frames of [fs]. *)
Definition pauses_between (fs : list (Z * list byte)) (k : K) : Prop :=
  forall m k0 k1, reads k k0 -> recv (S m) k0 = (None, k1) ->
    exists fs1 fs2, fs = fs1 ++ fs2 /\ incoming k1 = stream fs2.

(** From [k] on, [recv] fails only when nothing is left. *)
Definition never_pauses (k : K) : Prop :=
  forall m k0 k1, reads k k0 -> recv (S m) k0 = (None, k1) -> incoming k1 = [].

Lemma recvFrame_between pre fs k :
  Forall legal fs -> incoming k = stream fs -> pauses_between (pre ++ fs) k ->
  exists f k1 fs', recvFrame k = Some (f, k1) /\ fs = option_list f ++ fs' /\ incoming k1 = stream fs' /\
    (f = None -> exists m k0, reads k k0 /\ recv (S m) k0 = (None, k1)) /\ reads k k1.
Proof.
  intros Hl Hin Hb. destruct fs as [|f fs].
  { unfold recvFrame. destruct (recvN_spec 6 k) as (r & k1 & -> & Hrd & lost & Hk & Hc). rewrite Hin in Hk.
    symmetry in Hk. apply app_nil in Hk as [-> Hk]. destruct Hc as [[_ Hc]|(-> & _ & Hf)]; [done|].
    by exists None, k1, []. }
  apply Forall_cons in Hl as [[Hid Hlen] Hl]. rewrite stream_cons in Hin. destruct f as [id body]. simpl in *.
  destruct (recvFrame_spec id body _ k Hid Hlen Hin) as (r & k' & Hr & Hrd & [[-> Hc]|(-> & (lost & kept & He & Hk & Hi) & m & k0 & Hr0 & Hf)]).
  - by exists (Some (id, body)), k', fs.
  - exists None, k', ((id, body) :: fs). split_and!; [done|done| |eauto|done].
    destruct (Hb m k0 k' Hr0 Hf) as (fs1 & fs2 & Hs & Hi2). rewrite Hi in Hi2 |- *.
    rewrite stream_cons. cbn [fst snd]. by rewrite He, (no_boundary_inside pre (id, body) fs fs1 fs2 lost kept He Hk Hs Hi2).
Qed.

Lemma recvFrames_between n pre fs k :
  Forall legal fs -> incoming k = stream fs -> pauses_between (pre ++ fs) k ->
  exists got k1 fs', recvFrames n k = Some (got, k1) /\ fs = got ++ fs' /\ incoming k1 = stream fs' /\
    (never_pauses k -> got = take n fs).
Proof.
  revert pre fs k. induction n as [|n IH]; intros pre fs k Hl Hin Hb; [by exists [], k, fs|]. simpl.
  destruct (recvFrame_between pre fs k Hl Hin Hb) as (f & k1 & fs1 & -> & -> & Hin1 & Hf & Hrd).
  apply Forall_app in Hl as [_ Hl]. rewrite app_assoc in Hb.
  assert (forall k2, reads k1 k2 -> reads k k2) as Hst by (intros k2 H2; by etrans).
  destruct (IH (pre ++ option_list f) fs1 k1 Hl Hin1) as (got & k2 & fs2 & -> & -> & Hin2 & Hall).
  { intros m k0 k3 Hk0. by apply Hb, Hst. }
  exists (option_list f ++ got), k2, fs2. split_and!; [done|by rewrite app_assoc|done|].
  intros Hp. rewrite Hall at 1 by (intros m k0 k3 Hk0; by apply Hp, Hst). destruct f as [f|]; [done|].
  destruct (Hf eq_refl) as (m & k0 & Hk0 & Hr). rewrite (Hp m k0 k1 Hk0 Hr) in Hin1. destruct (got ++ fs2) as [|x l]; [by rewrite take_nil|].
  rewrite stream_cons in Hin1. by apply (f_equal length) in Hin1.
Qed.

End Recv.

(** ** The client *)

Record Me : Type := mkMe {
  pid : Z;
  token : string;
  me_x : f32;
  me_y : f32;
  me_hp : Z;
}.

(** The variables of [main]. *)
Record bot : Type := mkBot {
  me : Me;
  inRoom : bool;
  dropped : bool;
  enterMs : Z;
  lastInputMs : Z;
  lastHbMs : Z;
  seq : Z;
  world : StateSnapshot;
}.

Definition init : bot :=
  mkBot (mkMe 0 "" (f32_of_Z 0) (f32_of_Z 0) 100) false false 0 0 0 0 (mkStateSnapshot 0 false [] [] []).

(** What the bot does to its socket; [ESend] is [sendMsg]. *)
Inductive effect : Type :=
  | ESend (m : client_msg)
  | EClose
  | ESleep (ms : Z)
  | EConnect.

(** The end of an iteration: [return] from [main], or the next one. *)
Inductive outcome : Type :=
  | Exit (code : Z)
  | Next (b : bot) (e : list effect).

Definition set_me (m : Me) (b : bot) : bot :=
  mkBot m (inRoom b) (dropped b) (enterMs b) (lastInputMs b) (lastHbMs b) (seq b) (world b).

Definition set_world (w : StateSnapshot) (b : bot) : bot :=
  mkBot (me b) (inRoom b) (dropped b) (enterMs b) (lastInputMs b) (lastHbMs b) (seq b) w.

(** The connection is made and the login sent before the loop. *)
Definition start (account : string) : bot * list effect := (init, [EConnect; ESend (MLoginReq account)]).

(** *** Snapshots *)

(** One player of an increment: every entry of the same player is replaced, a
    new player is added. *)
Definition merge_player (ws : list PlayerState) (p : PlayerState) : list PlayerState :=
  let found := existsb (fun w => ps_player_id w =? ps_player_id p) ws in
  let ws' := map (fun w => if ps_player_id w =? ps_player_id p then p else w) ws in
  if found then ws' else ws' ++ [p].

Definition mergeSnapshot (w s : StateSnapshot) : StateSnapshot :=
  if ss_full s then s
  else mkStateSnapshot (ss_tick w) (ss_full w) (foldl merge_player (ss_players w) (ss_players s))
         (ss_projectiles w) (ss_removed_projectile_ids w).

(** The loop over [world.players()] that updates the bot's own entry. *)
Definition update_me (m : Me) (ps : list PlayerState) : Me :=
  foldl (fun m p => if ps_player_id p =? pid m then mkMe (pid m) (token m) (ps_x p) (ps_y p) (ps_hp p) else m) m ps.

Section Client.
Context {LM : Libm} {PB : Protobuf}.

(** *** A message; [t] is the clock read when a room is entered *)

Definition on_message (t : Z) (id : Z) (body : list byte) (b : bot) : outcome :=
  if id =? MsgId.kLoginResp then
    let '(code, player_id, session_token) := parse_LoginResp body in
    if negb (code =? 0) then Exit 1
    else if pid (me b) =? 0 then
      let m := mkMe player_id session_token (me_x (me b)) (me_y (me b)) (me_hp (me b)) in
      Next (set_me m b) [ESend (MMatchReq player_id)]
    else Next b []
  else if id =? MsgId.kEnterRoom then
    let '(room_id, _) := parse_EnterRoom body in
    if room_id =? 0 then Exit 1
    else Next (mkBot (me b) true (dropped b) t (lastInputMs b) (lastHbMs b) (seq b) (world b)) []
  else if id =? MsgId.kStateSnapshot then
    let w := mergeSnapshot (world b) (parse_StateSnapshot body) in
    Next (set_me (update_me (me b) (ss_players w)) (set_world w b)) []
  else if id =? MsgId.kBattleEnd then Exit 0
  else Next b [].

(** *** The drill of a lost connection *)

Definition drop_due (dropAfterMs now : Z) (b : bot) : bool :=
  inRoom b && negb (dropped b) && (0 <=? dropAfterMs) && (dropAfterMs <? u64 (now - enterMs b)).

Definition reconnect (b : bot) : bot * list effect :=
  (mkBot (me b) (inRoom b) true (enterMs b) (lastInputMs b) (lastHbMs b) (seq b) (world b),
   [EClose; ESleep 500; EConnect; ESend (MReconnectReq (pid (me b)) (token (me b)))]).

(** *** Heartbeat and input *)

Definition heartbeat (now : Z) (b : bot) : bot * list effect :=
  if 2000 <? u64 (now - lastHbMs b) then
    (mkBot (me b) (inRoom b) (dropped b) (enterMs b) (lastInputMs b) now (seq b) (world b), [ESend (MHeartbeatReq now)])
  else (b, []).

(** The literal [1e9f]. *)
Definition f_1e9 : f32 := f32_of_Z 1000000000.

Definition distance (m : Me) (p : PlayerState) : f32 := hypotf (ps_x p - me_x m)%f32 (ps_y p - me_y m)%f32.

(** The nearest living enemy with its distance. *)
Definition nearest (m : Me) (ps : list PlayerState) : option PlayerState * f32 :=
  foldl (fun '(enemy, best) p =>
           if (ps_player_id p =? pid m) || (ps_hp p <=? 0) then (enemy, best)
           else let d := distance m p in if fltb d best then (Some p, d) else (enemy, best))
        (None, f_1e9) ps.

(** The input against [enemy]; fields that are not set are zero. *)
Definition input_against (m : Me) (enemy : PlayerState) (best : f32) (n : Z) : PlayerInput :=
  let dx := (ps_x enemy - me_x m)%f32 in
  let dy := (ps_y enemy - me_y m)%f32 in
  let len := hypotf dx dy in
  let move := fltb (f32_of_Z 1) len in
  mkPlayerInput n (if move then (dx / len)%f32 else f32_of_Z 0) (if move then (dy / len)%f32 else f32_of_Z 0)
    (fleb best (f32_of_Z 14)).

Definition decide_input (now : Z) (b : bot) : bot * list effect :=
  if inRoom b && (0 <? me_hp (me b)) && (100 <? u64 (now - lastInputMs b)) then
    let b1 := mkBot (me b) (inRoom b) (dropped b) (enterMs b) now (lastHbMs b) (seq b) (world b) in
    match nearest (me b) (ss_players (world b)) with
    | (Some enemy, best) =>
        let n := u32 (seq b + 1) in
        (mkBot (me b) (inRoom b) (dropped b) (enterMs b) now (lastHbMs b) n (world b),
         [ESend (MPlayerInput (input_against (me b) enemy best n))])
    | (None, _) => (b1, [])
    end
  else (b, []).

(** *** The body of the loop

    [f] is what [recvFrame] gave, [t] the clock during the message, [now] the
    clock after it. *)

Definition timers (dropAfterMs now : Z) (b : bot) : bot * list effect :=
  if drop_due dropAfterMs now b then reconnect b
  else
    let (b1, e1) := heartbeat now b in
    let (b2, e2) := decide_input now b1 in
    (b2, e1 ++ e2).

Definition iteration (dropAfterMs : Z) (f : option (Z * list byte)) (t now : Z) (b : bot) : outcome :=
  match match f with Some (id, body) => on_message t id body b | None => Next b [] end with
  | Exit code => Exit code
  | Next b1 e1 => let (b2, e2) := timers dropAfterMs now b1 in Next b2 (e1 ++ e2)
  end.

(** ** Runs

    An entry of a trace: the time of the iteration, the frame it read and what
    it did. The clock does not go back. *)

Record entry : Type := mkEntry {
  at_ms : Z;
  got : option (Z * list byte);
  did : list effect;
}.

Inductive run (dropAfterMs : Z) : Z -> bot -> list entry -> Z -> bot -> Prop :=
  | run_nil now b : run dropAfterMs now b [] now b
  | run_step now b f t now1 b1 e tr now2 b2 :
      now <= t <= now1 -> now1 < 2 ^ 64 ->
      iteration dropAfterMs f t now1 b = Next b1 e ->
      run dropAfterMs now1 b1 tr now2 b2 ->
      run dropAfterMs now b (mkEntry now1 f e :: tr) now2 b2.

Definition received (tr : list entry) : list (Z * list byte) := omap got tr.

Definition sent (e : list effect) : list client_msg :=
  omap (fun e => match e with ESend m => Some m | _ => None end) e.

Definition sends (tr : list entry) : list client_msg := sent (mjoin (map did tr)).

(** *** What the parts of an iteration leave alone *)

Lemma timers_keeps d now b b' e :
  timers d now b = (b', e) -> me b' = me b /\ world b' = world b /\ enterMs b' = enterMs b /\ inRoom b' = inRoom b.
Proof.
  unfold timers, reconnect, heartbeat, decide_input. intros H.
  destruct (drop_due d now b); [by inv H|].
  destruct (2000 <? u64 (now - lastHbMs b)); cbn [me inRoom lastInputMs world dropped enterMs lastHbMs seq] in H;
    (destruct (_ && _ && _); [destruct (nearest _ _) as [[en|] best]|]); by inv H.
Qed.

Lemma iteration_inv d f t now b b' e :
  iteration d f t now b = Next b' e ->
  exists b1 e1 e2, match f with Some (id, body) => on_message t id body b | None => Next b [] end = Next b1 e1 /\
    timers d now b1 = (b', e2) /\ e = e1 ++ e2.
Proof.
  unfold iteration. destruct (match f with Some _ => _ | None => _ end) as [|b1 e1]; [done|].
  destruct (timers d now b1) as [b2 e2] eqn:E. intros [= <- <-]. eauto 10.
Qed.

(** *** What the bot knows of the players *)

Definition pos (p : PlayerState) : f32 * f32 * Z := (ps_x p, ps_y p, ps_hp p).

Definition add_pos (m : gmap Z (f32 * f32 * Z)) (p : PlayerState) : gmap Z (f32 * f32 * Z) := <[ps_player_id p := pos p]> m.

Definition players_of (ps : list PlayerState) : gmap Z (f32 * f32 * Z) := foldl add_pos ∅ ps.

Lemma players_of_snoc ps p : players_of (ps ++ [p]) = <[ps_player_id p := pos p]> (players_of ps).
Proof. unfold players_of. by rewrite foldl_app. Qed.

Lemma merge_player_map ws p : players_of (merge_player ws p) = <[ps_player_id p := pos p]> (players_of ws).
Proof.
  set (f := fun w => if ps_player_id w =? ps_player_id p then p else w).
  assert (forall w, ps_player_id (f w) = ps_player_id w) as Hf.
  { intros w. unfold f. by destruct (Z.eqb_spec (ps_player_id w) (ps_player_id p)). }
  assert (<[ps_player_id p := pos p]> (players_of (map f ws)) = <[ps_player_id p := pos p]> (players_of ws)) as Hins.
  { induction ws as [|w ws IH] using rev_ind; [done|]. rewrite map_app. cbn [map]. rewrite !players_of_snoc, Hf. unfold f at 1.
    destruct (Z.eqb_spec (ps_player_id w) (ps_player_id p)) as [->|Hne]; [by rewrite !insert_insert_eq|].
    by rewrite !(insert_insert_ne _ (ps_player_id p)), IH by done. }
  unfold merge_player. fold f. destruct (existsb _ ws) eqn:E; [|by rewrite players_of_snoc].
  rewrite <- Hins. symmetry. apply insert_id. clear Hins. induction ws as [|w ws IH] using rev_ind; [done|].
  rewrite existsb_app in E. rewrite map_app. cbn [map]. rewrite players_of_snoc, Hf. unfold f at 1.
  destruct (Z.eqb_spec (ps_player_id w) (ps_player_id p)) as [->|Hne]; [apply lookup_insert_eq|].
  rewrite lookup_insert_ne by done. apply IH. simpl in E. destruct (Z.eqb_spec (ps_player_id w) (ps_player_id p)); [done|].
  by rewrite !orb_false_r in E.
Qed.

Lemma mergeSnapshot_map w s v :
  Room.v_players v = players_of (ss_players w) ->
  players_of (ss_players (mergeSnapshot w s)) = Room.v_players (Room.apply_snapshot v s).
Proof.
  intros Hv. unfold mergeSnapshot, Room.apply_snapshot. destruct (ss_full s); [done|]. simpl. rewrite Hv. generalize (ss_players w).
  induction (ss_players s) as [|p ps IH]; intros ws; [done|]. simpl. by rewrite IH, merge_player_map.
Qed.

(** The bot's own entry agrees with the table it came from. *)
Definition knows_self (b : bot) : Prop :=
  forall x y h, players_of (ss_players (world b)) !! pid (me b) = Some (x, y, h) -> (me_x (me b), me_y (me b), me_hp (me b)) = (x, y, h).

Lemma update_me_spec m ps :
  pid (update_me m ps) = pid m /\
  forall x y h, players_of ps !! pid m = Some (x, y, h) ->
    (me_x (update_me m ps), me_y (update_me m ps), me_hp (update_me m ps)) = (x, y, h).
Proof.
  induction ps as [|p ps [IHp IH]] using rev_ind; [done|]. unfold update_me in *. rewrite foldl_app, players_of_snoc. simpl.
  rewrite IHp. destruct (Z.eqb_spec (ps_player_id p) (pid m)) as [Heq|Hne]; simpl.
  - split; [done|]. intros x y h. rewrite Heq, lookup_insert_eq. by intros [= <- <- <-].
  - split; [done|]. intros x y h. rewrite lookup_insert_ne by done. apply IH.
Qed.

(** The frame under which the server sends a message. *)
Definition frame_of (m : server_msg) : Z * list byte := (server_msg_id m, serialize m).

Context {PL : ProtobufLaws}.

Lemma iteration_knows d m t now b b' e v :
  iteration d (Some (frame_of m)) t now b = Next b' e -> pid (me b) <> 0 -> knows_self b ->
  Room.v_players v = players_of (ss_players (world b)) ->
  pid (me b') = pid (me b) /\ knows_self b' /\
  Room.v_players (Room.client_recv v m) = players_of (ss_players (world b')).
Proof.
  intros (b1 & e1 & e2 & Hm & (Hme & Hw & _)%timers_keeps & _)%iteration_inv Hp Hs Hv.
  unfold knows_self. rewrite Hme, Hw. clear Hme Hw. unfold frame_of, on_message in Hm.
  destruct m as [code p tok|r l|s|w|ms|en]; cbn in Hm.
  - rewrite parse_login in Hm. destruct (code =? 0); [|done]. cbn in Hm. rewrite (proj2 (Z.eqb_neq _ _) Hp) in Hm. by inv Hm.
  - rewrite parse_enter in Hm. destruct (r =? 0); by inv Hm.
  - rewrite parse_snapshot in Hm. inv Hm. simpl.
    destruct (update_me_spec (me b) (ss_players (mergeSnapshot (world b) s))) as [Hid Hu]. rewrite Hid.
    split; [done|]. split; [done|]. symmetry. by apply mergeSnapshot_map.
  - done.
  - by inv Hm.
  - by inv Hm.
Qed.

Lemma iteration_quiet d t now b b' e :
  iteration d None t now b = Next b' e -> me b' = me b /\ world b' = world b.
Proof. intros (b1 & e1 & e2 & [= <- <-] & (Hme & Hw & _)%timers_keeps & _)%iteration_inv. done. Qed.

(** A run that read the messages [ms], among any time-outs. *)
Lemma run_knows d now b tr now' b' ms v :
  run d now b tr now' b' -> received tr = map frame_of ms -> pid (me b) <> 0 -> knows_self b ->
  Room.v_players v = players_of (ss_players (world b)) ->
  pid (me b') = pid (me b) /\ knows_self b' /\
  Room.v_players (foldl Room.client_recv v ms) = players_of (ss_players (world b')).
Proof.
  intros Hr. revert ms v. induction Hr as [now b|now b f t now1 b1 e tr now2 b2 Ht Hn Hi Hr IH];
    intros ms v Hrec Hp Hs Hv.
  - destruct ms; [done|discriminate Hrec].
  - destruct f as [f|]; cbn in Hrec.
    + destruct ms as [|m ms]; [discriminate Hrec|]. injection Hrec as -> Hrec.
      destruct (iteration_knows d m t now1 b b1 e v Hi Hp Hs Hv) as (Hp1 & Hs1 & Hv1).
      destruct (IH ms _ Hrec ltac:(by rewrite Hp1) Hs1 Hv1) as (Hp2 & Hs2 & Hv2). rewrite Hp2, Hp1. done.
    + destruct (iteration_quiet _ _ _ _ _ _ Hi) as [Hm Hw]. rewrite <- Hm, <- Hw in *.
      unfold knows_self in Hs. rewrite <- Hm, <- Hw in Hs. by apply IH.
Qed.

(** *** Heartbeats *)

Lemma on_message_keeps t id body b b' e :
  on_message t id body b = Next b' e ->
  lastHbMs b' = lastHbMs b /\ dropped b' = dropped b /\ seq b' = seq b.
Proof.
  unfold on_message. destruct (parse_LoginResp body) as [[c p] tok], (parse_EnterRoom body) as [r l].
  intros H. repeat (dmatch_in H); by inv H.
Qed.

Lemma timers_heartbeat d now b b' e :
  timers d now b = (b', e) ->
  (drop_due d now b = true /\ dropped b' = true /\ lastHbMs b' = lastHbMs b) \/
  (dropped b' = dropped b /\
   (u64 (now - lastHbMs b) <= 2000 /\ lastHbMs b' = lastHbMs b \/ lastHbMs b' = now /\ ESend (MHeartbeatReq now) ∈ e)).
Proof.
  unfold timers, reconnect, heartbeat, decide_input. intros H. destruct (drop_due d now b); [left; by inv H|right].
  destruct (Z.ltb_spec 2000 (u64 (now - lastHbMs b))) as [Hlt|Hge]; cbn [me inRoom lastInputMs world dropped enterMs lastHbMs seq] in H;
    (destruct (_ && _ && _); [destruct (nearest _ _) as [[en|] best]|]); inv H; cbn [dropped lastHbMs app]; (split; [done|]);
    [right|right|right|left..]; (split; [done|try done]); by left.
Qed.

(** The time since the last heartbeat is at most 2 s, or a step longer once
    after the drill. *)
Definition beating (G now : Z) (b : bot) : Prop :=
  0 <= lastHbMs b <= now /\ (now - lastHbMs b <= 2000 \/ dropped b = true /\ now - lastHbMs b <= 2000 + G).

(** The iterations of a trace that began at [now] follow each other within [G]
    milliseconds. *)
Fixpoint paced (G now : Z) (tr : list entry) : Prop :=
  match tr with [] => True | x :: tr' => at_ms x <= now + G /\ paced G (at_ms x) tr' end.

Lemma iteration_beating G d f t now now1 b b1 e :
  iteration d f t now1 b = Next b1 e -> now <= now1 <= now + G -> now1 < 2 ^ 64 -> beating G now b ->
  beating G now1 b1 /\ (lastHbMs b1 = lastHbMs b \/ lastHbMs b1 = now1 /\ ESend (MHeartbeatReq now1) ∈ e).
Proof.
  intros (b0 & e1 & e2 & Hm & Ht%timers_heartbeat & ->)%iteration_inv Hn Hlt [Hhb Hb].
  assert (lastHbMs b0 = lastHbMs b /\ dropped b0 = dropped b) as [E1 E2].
  { destruct f as [[id body]|]; [|by inv Hm]. by apply on_message_keeps in Hm as (-> & -> & _). }
  unfold beating. rewrite E1, E2 in Ht. rewrite u64_small in Ht by lia.
  destruct Ht as [(Hdue & -> & ->)|(Hd & [[Hle ->]|[-> Hin]])].
  - split; [|by left]. split; [lia|right; split; [done|]]. destruct Hb as [|[Hdr _]]; [lia|].
    unfold drop_due in Hdue. rewrite E2, Hdr in Hdue. by destruct (inRoom b0).
  - split; [split; [lia|by left]|by left].
  - split; [split; lia|right]. split; [done|]. apply elem_of_app. by right.
Qed.

Lemma run_beating G d now b tr now' b' :
  run d now b tr now' b' -> paced G now tr -> beating G now b ->
  beating G now' b' /\
  (lastHbMs b' = lastHbMs b \/
   exists x, x ∈ tr /\ at_ms x = lastHbMs b' /\ ESend (MHeartbeatReq (lastHbMs b')) ∈ did x).
Proof.
  induction 1 as [now b|now b f t now1 b1 e tr now2 b2 Ht Hn Hi Hr IH]; intros Hp Hb; [by split; [|left]|].
  destruct Hp as [Hg Hp]. simpl in Hg, Hp.
  destruct (iteration_beating G d f t now now1 b b1 e Hi ltac:(lia) Hn Hb) as [Hb1 Hl1].
  destruct (IH Hp Hb1) as [Hb2 [Hl2|(x & Hx & Hat & Hin)]]; (split; [done|]).
  - rewrite Hl2. destruct Hl1 as [->|[Hl1 Hin]]; [by left|right]. exists (mkEntry now1 f e). rewrite Hl1.
    split_and!; [by left|done|done].
  - right. exists x. split_and!; [by right|done|done].
Qed.

(** *** The target *)

Definition enemy_of (m : Me) (p : PlayerState) : Prop := ps_player_id p <> pid m /\ 0 < ps_hp p.

Lemma fltb_keeps_best d d' best : fltb d' best = true -> fltb d best = false -> fltb d d' = false.
Proof.
  intros H1 H2. destruct (is_nan d) eqn:En; [destruct (fltb d d') eqn:E; [|done]; apply fltb_nan_l in E; congruence|].
  apply (fltb_false_trans d best d'); [done|by eapply fltb_nan_r|by eapply fltb_nan_l|done|by apply fltb_asym].
Qed.

Lemma nearest_spec m ps :
  let '(enemy, best) := nearest m ps in
  match enemy with
  | Some p => p ∈ ps /\ enemy_of m p /\ best = distance m p /\ fltb best f_1e9 = true
  | None => best = f_1e9
  end /\
  forall p, p ∈ ps -> enemy_of m p -> fltb (distance m p) best = false.
Proof.
  induction ps as [|q ps IH] using rev_ind; [split; [done|by intros p ?%elem_of_nil]|].
  unfold nearest in *. rewrite foldl_app. cbn [foldl].
  destruct (foldl _ _ ps) as [enemy best]. destruct IH as [IH1 IH2].
  destruct ((ps_player_id q =? pid m) || (ps_hp q <=? 0)) eqn:Eq.
  - split; [destruct enemy; [rewrite elem_of_app; intuition|done]|].
    intros p [Hp| ->%list_elem_of_singleton]%elem_of_app Hen; [by apply IH2|].
    exfalso. destruct Hen as [H1 H2]. apply orb_true_iff in Eq as [?%Z.eqb_eq|?%Z.leb_le]; [done|lia].
  - assert (enemy_of m q) as Hq by (apply orb_false_iff in Eq as [?%Z.eqb_neq ?%Z.leb_gt]; done).
    destruct (fltb (distance m q) best) eqn:El.
    + split.
      * split_and!; [rewrite elem_of_app, list_elem_of_singleton; by right|apply Hq..|done|].
        destruct enemy as [p0|]; [|by subst best].
        destruct IH1 as (_ & _ & _ & Hlt). destruct (fltb (distance m q) f_1e9) eqn:E; [done|].
        pose proof (fltb_keeps_best _ _ _ Hlt E). congruence.
      * intros p [Hp| ->%list_elem_of_singleton]%elem_of_app Hen; [|apply fltb_irrefl].
        eapply fltb_keeps_best; [exact El|by apply IH2].
    + split; [destruct enemy; [rewrite elem_of_app; intuition|done]|].
      intros p [Hp| ->%list_elem_of_singleton]%elem_of_app Hen; [by apply IH2|done].
Qed.

(** *** The messages of a session *)

Definition is_match (m : client_msg) : bool := match m with MMatchReq _ => true | _ => false end.

Definition is_reconnect (m : client_msg) : bool := match m with MReconnectReq _ _ => true | _ => false end.

Definition count (f : client_msg -> bool) (ms : list client_msg) : nat := length (List.filter f ms).

Definition inputs (ms : list client_msg) : list PlayerInput :=
  omap (fun m => match m with MPlayerInput i => Some i | _ => None end) ms.

(** Inputs are numbered from 1, modulo the width of the field. *)
Definition numbered (n : nat) : list Z := map u32 (seqZ 1 (Z.of_nat n)).

Record Session (b : bot) (ms : list client_msg) : Prop := mkSession {
  ses_match : (count is_match ms <= if (pid (me b) =? 0)%Z then 0 else 1)%nat;
  ses_rec : (count is_reconnect ms <= if dropped b then 1 else 0)%nat;
  ses_tok : forall p t, MReconnectReq p t ∈ ms -> p <> 0 -> p = pid (me b) /\ t = token (me b);
  ses_seq : map in_seq (inputs ms) = numbered (length (inputs ms)) /\ seq b = u32 (Z.of_nat (length (inputs ms)));
}.

(** The server's player ids are positive. *)
Definition good_login (f : option (Z * list byte)) : Prop :=
  match f with
  | Some (id, body) => id = MsgId.kLoginResp -> snd (fst (parse_LoginResp body)) <> 0
  | None => True
  end.

Lemma count_app f ms ms' : count f (ms ++ ms') = (count f ms + count f ms')%nat.
Proof. unfold count. by rewrite List.filter_app, length_app. Qed.

Lemma sent_app_bot e e' : sent (e ++ e') = sent e ++ sent e'.
Proof. apply omap_app. Qed.

Lemma inputs_app ms ms' : inputs (ms ++ ms') = inputs ms ++ inputs ms'.
Proof. apply omap_app. Qed.

Lemma numbered_S n : numbered (S n) = numbered n ++ [u32 (Z.of_nat n + 1)].
Proof.
  unfold numbered. replace (Z.of_nat (S n)) with (Z.of_nat n + 1) by lia. rewrite seqZ_app by lia.
  rewrite map_app. f_equal. rewrite seqZ_cons by lia. replace (1 + Z.of_nat n) with (Z.of_nat n + 1) by lia. done.
Qed.

Lemma u32_succ n : u32 (u32 n + 1) = u32 (n + 1).
Proof. unfold u32. by rewrite Zplus_mod_idemp_l. Qed.

(** A step that sends neither input nor reconnection nor match request, or
    nothing at all. *)
Lemma Session_quiet b b' ms ms' :
  Session b ms -> pid (me b') = pid (me b) -> token (me b') = token (me b) -> dropped b' = dropped b -> seq b' = seq b ->
  (forall m, m ∈ ms' -> is_match m = false /\ is_reconnect m = false /\ inputs [m] = []) -> Session b' (ms ++ ms').
Proof.
  intros [H1 H2 H3 H4] Hm Ht Hd Hs Hq.
  assert (count is_match ms' = 0%nat /\ count is_reconnect ms' = 0%nat /\ inputs ms' = []) as (C1 & C2 & C3).
  { clear - Hq. induction ms' as [|m ms' IH]; [done|]. destruct (Hq m) as (E1 & E2 & E3); [by left|].
    destruct IH as (C1 & C2 & C3); [intros m' Hm'; apply Hq; by right|]. unfold count in *. cbn [List.filter].
    rewrite E1, E2. split_and!; [done|done|]. change (m :: ms') with ([m] ++ ms'). by rewrite inputs_app, E3, C3. }
  constructor; rewrite ?count_app, ?inputs_app, ?C1, ?C2, ?C3, ?app_nil_r, ?Nat.add_0_r, ?Hm, ?Ht, ?Hd, ?Hs; try done.
  intros p t [Hin|Hin]%elem_of_app Hp; [by apply H3|]. by destruct (Hq _ Hin) as (_ & ? & _).
Qed.

Lemma Session_same b b' ms :
  Session b ms -> pid (me b') = pid (me b) -> token (me b') = token (me b) -> dropped b' = dropped b -> seq b' = seq b ->
  Session b' (ms ++ []).
Proof. intros HS Hp Ht Hd Hs. apply (Session_quiet b); try done. by intros m ?%elem_of_nil. Qed.

Lemma update_me_token m ps : token (update_me m ps) = token m.
Proof.
  unfold update_me. revert m. induction ps as [|p ps IH]; intros m; [done|]. simpl. rewrite IH.
  by destruct (ps_player_id p =? pid m).
Qed.

Lemma Session_message t id body b b1 e ms :
  good_login (Some (id, body)) -> on_message t id body b = Next b1 e -> Session b ms -> Session b1 (ms ++ sent e).
Proof.
  unfold on_message. intros Hg H HS. destruct (Z.eqb_spec id MsgId.kLoginResp) as [->|].
  - specialize (Hg eq_refl). destruct (parse_LoginResp body) as [[c p] tok]. simpl in Hg.
    destruct (c =? 0); [|done]. cbn [negb] in H. destruct (pid (me b) =? 0) eqn:Ep; inv H; [|by apply (Session_same b1)].
    destruct HS as [H1 H2 H3 H4]. rewrite Ep in H1. constructor; rewrite ?count_app, ?inputs_app; simpl.
    + rewrite (proj2 (Z.eqb_neq p 0) Hg). unfold count in *. simpl. lia.
    + unfold count in *. simpl. lia.
    + intros p' t' [Hin|Hin%list_elem_of_singleton]%elem_of_app Hp'; [|done].
      destruct (H3 _ _ Hin Hp') as [-> _]. by apply Z.eqb_eq in Ep.
    + by rewrite app_nil_r.
  - destruct (parse_EnterRoom body) as [r l].
    destruct (id =? MsgId.kEnterRoom); [destruct (r =? 0); inv H; by apply (Session_same b)|].
    destruct (id =? MsgId.kStateSnapshot); [inv H|destruct (id =? MsgId.kBattleEnd); inv H; by apply (Session_same b1)].
    apply (Session_same b); try done; [apply update_me_spec|apply update_me_token].
Qed.

Lemma Session_timers d now b b1 e ms : timers d now b = (b1, e) -> Session b ms -> Session b1 (ms ++ sent e).
Proof.
  unfold timers. intros H HS. destruct (drop_due d now b) eqn:Ed.
  - inv H. assert (dropped b = false) as Hd.
    { unfold drop_due in Ed. by destruct (inRoom b), (dropped b). }
    destruct HS as [H1 H2 H3 H4]. rewrite Hd in H2. constructor; rewrite ?count_app, ?inputs_app; simpl.
    + unfold count in *. simpl. lia.
    + unfold count in *. simpl. lia.
    + intros p t [Hin|Hin%list_elem_of_singleton]%elem_of_app Hp; [by apply H3|by inv Hin].
    + by rewrite app_nil_r.
  - destruct (heartbeat now b) as [b0 e1] eqn:Eh. destruct (decide_input now b0) as [b2 e2] eqn:Ei. inv H.
    assert (Session b0 (ms ++ sent e1)) as HS0.
    { unfold heartbeat in Eh. destruct (2000 <? _); inv Eh; [|by apply (Session_same b0)].
      apply (Session_quiet b); try done. by intros m ->%list_elem_of_singleton. }
    rewrite sent_app_bot, app_assoc. revert HS0. generalize (ms ++ sent e1). clear HS Eh Ed. intros ms' HS.
    unfold decide_input in Ei. destruct (_ && _ && _); [|inv Ei; by apply (Session_same b1)].
    destruct (nearest _ _) as [[en|] best]; inv Ei; [|by apply (Session_same b0)].
    destruct HS as [H1 H2 H3 [H4 H5]]. constructor; rewrite ?count_app, ?inputs_app; simpl.
    + unfold count in *. simpl. lia.
    + unfold count in *. simpl. lia.
    + intros p t [Hin|Hin%list_elem_of_singleton]%elem_of_app Hp; [by apply H3|done].
    + rewrite map_app, H4, length_app, Nat.add_1_r, numbered_S, H5, u32_succ. simpl. split; [done|]. f_equal. lia.
Qed.

Lemma run_session d now b tr now' b' ms :
  run d now b tr now' b' -> Forall (fun x => good_login (got x)) tr -> Session b ms -> Session b' (ms ++ sends tr).
Proof.
  intros Hr. revert ms. induction Hr as [now b|now b f t now1 b1 e tr now2 b2 Ht Hn Hi Hr IH]; intros ms Hg HS.
  - by apply (Session_same b).
  - apply Forall_cons in Hg as [Hg Hgs]. apply iteration_inv in Hi as (b0 & e1 & e2 & Hm & Htm & ->).
    change (sends (mkEntry now1 f (e1 ++ e2) :: tr)) with (sent ((e1 ++ e2) ++ mjoin (map did tr))).
    rewrite !sent_app_bot, !app_assoc.
    apply (IH (_ ++ _)); [done|]. apply (Session_timers _ _ _ _ _ _ Htm).
    destruct f as [[id body]|]; [by eapply Session_message|]. inv Hm. by apply (Session_same b0).
Qed.

Lemma Session_init : Session init [].
Proof. constructor; try done. by intros p t ?%elem_of_nil. Qed.

End Client.

(** ** Theorems *)

(** The bot reads the server's frames in order. When the peer sends a
    sequence of frames, in pieces of any size, and [recv] fails only between
    two frames (a time-out while nothing is on its way), every number of calls
    of [recvFrame] returns, yields exactly the next frames, and loses no byte;
    and when [recv] does not fail before the end, every call yields a frame. *)
Theorem frames_read_in_order {K} `{RecvLaws K} n fs (k : K)
    (Hlegal : Forall legal fs) (Hin : incoming k = stream fs) (Hpause : pauses_between fs k) :
  exists got k1 rest, recvFrames n k = Some (got, k1) /\ fs = got ++ rest /\ incoming k1 = stream rest /\
    (never_pauses k -> got = take n fs).
Proof. destruct (recvFrames_between n [] fs k Hlegal Hin Hpause) as (got & k1 & rest & H1 & H2 & H3 & H4). eauto 10. Qed.

(** C9: The bot knows the battle it plays. From the moment its player is bound
    to its connection in a room, after any run of the bot that has read exactly
    the messages the room sent on the connection so far, among time-outs and
    whatever else it did: the players it knows, with positions and health, are
    those of the server's simulation, and its own entry is among them. *)
Theorem bot_knows_the_battle (HO : HashOrder) (LM LM' : Libm) `{ProtobufLaws} p c a r0 r1 e as' rtr r2 d now b tr now' b'
    (Hwf : BattleSim.wf (Room.sim_ r0)) (Ha : a = Room.AStart \/ a = Room.ARebind p c)
    (Hexec : Room.exec a r0 = (r1, e)) (Hbound : Room.bound p c r1)
    (Hroom : Room.run r1 as' rtr r2) (Hkeeps : Forall (Room.keeps p c) as')
    (Hp : pid (me b) = p) (Hp0 : p <> 0) (Hself : knows_self b)
    (Hrun : @run LM' _ d now b tr now' b') (Hrec : received tr = map frame_of (Room.msgs_to c (e ++ rtr))) :
  players_of (ss_players (world b')) = Room.v_players (Room.view_of (Room.sim_ r2)) /\
  forall x y h, Room.v_players (Room.view_of (Room.sim_ r2)) !! p = Some (x, y, h) ->
    (me_x (me b'), me_y (me b'), me_hp (me b')) = (x, y, h).
Proof.
  subst p. set (v := Room.mkView (players_of (ss_players (world b))) ∅).
  destruct (run_knows d now b tr now' b' _ v Hrun Hrec Hp0 Hself eq_refl) as (Hp' & Hs' & Hv').
  fold (Room.replay c (e ++ rtr) v) in Hv'.
  destruct (Room.sync_first _ c a r0 r1 e v Hwf Ha Hexec Hbound) as [Hv Hwf1].
  rewrite Room.replay_app, Hv, (Room.sync_run _ c r1 as' rtr r2 Hroom Hbound Hkeeps Hwf1) in Hv'.
  split; [done|]. intros x y h. rewrite Hv', <- Hp'. apply Hs'.
Qed.

(** The server does not lose the bot. In every run whose iterations follow
    each other within [G] milliseconds, at every moment the last heartbeat was
    sent at most [2000 + G] milliseconds ago: less than the 10 s after which
    the lobby kicks, if an iteration takes less than 8 s. *)
Theorem heartbeats_keep_the_bot_alive {LM : Libm} `{Protobuf} G d now b tr now' b'
    (Hrun : run d now b tr now' b') (Hpace : paced G now tr) (HG : 0 <= G < GameServer.kHeartbeatTimeoutMs - 2000)
    (Hbeat : 0 <= lastHbMs b <= now) (Hlast : now - lastHbMs b <= 2000) :
  exists h, (h = lastHbMs b \/ exists x, x ∈ tr /\ at_ms x = h /\ ESend (MHeartbeatReq h) ∈ did x) /\
    0 <= now' - h <= 2000 + G /\ now' - h < GameServer.kHeartbeatTimeoutMs.
Proof.
  destruct (run_beating G d now b tr now' b' Hrun Hpace) as [[Hb1 Hb2] Hl]; [by split; [|left]|].
  exists (lastHbMs b'). split; [exact Hl|]. split; [destruct Hb2 as [|[_ ?]]; lia|]. destruct Hb2 as [|[_ ?]]; lia.
Qed.

(** The bot fights the nearest living enemy. When an input is due and the bot
    knows a living enemy nearer than [1e9], it sends exactly one input, with
    the next number, that goes towards an enemy than which none is nearer, and
    fires exactly when he is within 14; if it knows none it sends nothing. *)
Theorem nearest_enemy_is_targeted {LM : Libm} now b
    (Hroom : inRoom b = true) (Halive : 0 < me_hp (me b)) (Hdue : 100 < u64 (now - lastInputMs b)) :
  let ps := ss_players (world b) in
  let (b', e) := decide_input now b in
  (exists p, p ∈ ps /\ enemy_of (me b) p /\
     (forall q, q ∈ ps -> enemy_of (me b) q -> fltb (distance (me b) q) (distance (me b) p) = false) /\
     seq b' = u32 (seq b + 1) /\
     e = [ESend (MPlayerInput (input_against (me b) p (distance (me b) p) (seq b')))] /\
     attack (input_against (me b) p (distance (me b) p) (seq b')) = fleb (distance (me b) p) (f32_of_Z 14)) \/
  (e = [] /\ seq b' = seq b /\ forall q, q ∈ ps -> enemy_of (me b) q -> fltb (distance (me b) q) f_1e9 = false).
Proof.
  cbn zeta. unfold decide_input. rewrite Hroom, (proj2 (Z.ltb_lt _ _) Halive), (proj2 (Z.ltb_lt _ _) Hdue). cbn [andb].
  pose proof (nearest_spec (me b) (ss_players (world b))) as Hn.
  destruct (nearest (me b) (ss_players (world b))) as [[p|] best].
  - left. destruct Hn as [(Hin & Hen & -> & _) Hmin]. exists p. split_and!; [done|apply Hen..|done|done|done|done].
  - right. destruct Hn as [-> Hmin]. done.
Qed.

(** The bot's session. In every run from the start, against a server whose
    player ids are positive: it asks for a match at most once, it reconnects at
    most once, with the id and token of its login, and its inputs are numbered
    1, 2, 3, ... modulo [2^32], so that the server can acknowledge them. *)
Theorem bot_session {LM : Libm} `{Protobuf} d now tr now' b'
    (Hrun : run d now init tr now' b') (Hids : Forall (fun x => good_login (got x)) tr) :
  (count is_match (sends tr) <= 1)%nat /\ (count is_reconnect (sends tr) <= 1)%nat /\
  (forall p t, MReconnectReq p t ∈ sends tr -> p <> 0 -> p = pid (me b') /\ t = token (me b')) /\
  map in_seq (inputs (sends tr)) = numbered (length (inputs (sends tr))).
Proof.
  destruct (run_session d now init tr now' b' [] Hrun Hids Session_init) as [H1 H2 H3 [H4 _]]. simpl in *.
  split_and!; [destruct (pid (me b') =? 0); lia|destruct (dropped b'); lia|done|done].
Qed.

(** ** Instances and witnesses *)

(** A kernel that delivers one byte at a time, with pauses. *)
Definition tape : Type := list (option byte).

#[export] Instance tape_kernel : RecvKernel tape := {|
  recv n k :=
    match n, k with
    | O, _ => (None, k)
    | S _, [] => (None, [])
    | S _, Some b :: k' => (Some [b], k')
    | S _, None :: k' => (None, k')
    end;
  incoming k := omap id k;
|}.

#[export] Instance tape_laws : RecvLaws tape.
Proof.
  split.
  - intros [|n] [|[b|] k] bs k'; simpl; try done. intros [= <- <-]. split_and!; [done|simpl; lia|done].
  - intros [|n] [|[b|] k] k'; simpl; try done; by intros [= <-].
Qed.

Lemma tape_reads k k0 : reads (K := tape) k k0 -> exists k1, k = k1 ++ k0.
Proof.
  induction 1 as [|k k' k0 (n & r & E) _ [k1 ->]]; [by exists []|].
  destruct k as [|[b|] k]; simpl in E; inv E; [by exists k1|by exists (Some b :: k1)|by exists (None :: k1)].
Qed.

Definition bytes (bs : list byte) : tape := map Some bs.

(** Two frames with pauses before, between and after them. *)
Definition two_frames : list (Z * list byte) := [(MsgId.kEnterRoom, [x01; x02]); (MsgId.kBattleEnd, [])].

Definition polite : tape :=
  None :: bytes (Codec.encode MsgId.kEnterRoom [x01; x02]) ++ None :: bytes (Codec.encode MsgId.kBattleEnd []) ++ [None].

Lemma polite_pauses : pauses_between two_frames polite.
Proof.
  intros m k0 k1 [k2 E]%tape_reads Hr. unfold polite in E. vm_compute in E.
  repeat (destruct k2 as [|? k2]; cbn [app] in E;
    [subst k0; cbn in Hr; try discriminate Hr; injection Hr as <-;
     first [by exists [], two_frames | by exists (take 1 two_frames), (drop 1 two_frames) | by exists two_frames, []]
    |try (injection E as _ E)]).
  discriminate E.
Qed.

Lemma frames_read_in_order_witness :
  exists k1, recvFrames 4 polite = Some (two_frames, k1) /\ incoming k1 = [].
Proof.
  destruct (frames_read_in_order 4 two_frames polite) as (got & k1 & rest & E & Hs & Hi & _).
  - repeat constructor; simpl; try discriminate; lia.
  - vm_compute. reflexivity.
  - exact polite_pauses.
  - vm_compute in E. injection E as <- <-. by eexists _.
Defined.

(** A time-out inside a frame loses what was read of it, and the rest is taken
    for a new frame: of two frames of which the first is interrupted after its
    header, the bot reads neither. *)
Theorem time_out_desynchronises :
  let k := bytes (take 6 (Codec.encode MsgId.kBattleEnd [x00; x00; x00; x02; x00; x14])) ++ None ::
           bytes (drop 6 (Codec.encode MsgId.kBattleEnd [x00; x00; x00; x02; x00; x14])) in
  exists k1, recvFrames 2 k = Some ([(MsgId.kPlayerInput, [])], k1) /\
    incoming k = Codec.encode MsgId.kBattleEnd [x00; x00; x00; x02; x00; x14].
Proof. eexists _. split; vm_compute; reflexivity. Qed.

(** A serialisation of messages: the bits of an injective numbering. *)

Fixpoint to_bits (p : positive) : list byte :=
  match p with xH => [] | xO p => x00 :: to_bits p | xI p => x01 :: to_bits p end.

Fixpoint of_bits (bs : list byte) : positive :=
  match bs with [] => xH | b :: bs => if Byte.eqb b x00 then xO (of_bits bs) else xI (of_bits bs) end.

Lemma of_to_bits p : of_bits (to_bits p) = p.
Proof. induction p; simpl; congruence. Qed.

Definition float_Zs (x : f32) : list Z :=
  match x with
  | SpecFloat.S754_zero b => [if b then 1 else 0; 0; 0]
  | SpecFloat.S754_infinity b => [if b then 3 else 2; 0; 0]
  | SpecFloat.S754_nan => [4; 0; 0]
  | SpecFloat.S754_finite b m e => [if b then 6 else 5; Zpos m; e]
  end.

Definition Zs_float (t m e : Z) : f32 :=
  if t =? 0 then SpecFloat.S754_zero false else if t =? 1 then SpecFloat.S754_zero true
  else if t =? 2 then SpecFloat.S754_infinity false else if t =? 3 then SpecFloat.S754_infinity true
  else if t =? 4 then SpecFloat.S754_nan else SpecFloat.S754_finite (t =? 6) (Z.to_pos m) e.

Definition player_Zs (p : PlayerState) : list Z :=
  ps_player_id p :: ps_hp p :: ps_last_input_seq p :: float_Zs (ps_x p) ++ float_Zs (ps_y p).

Fixpoint Zs_players (n : nat) (zs : list Z) : list PlayerState * list Z :=
  match n, zs with
  | S n', i :: h :: s :: a1 :: a2 :: a3 :: b1 :: b2 :: b3 :: zs' =>
      let (ps, r) := Zs_players n' zs' in (mkPlayerState i (Zs_float a1 a2 a3) (Zs_float b1 b2 b3) h s :: ps, r)
  | _, _ => ([], zs)
  end.

Definition projectile_Zs (p : ProjectileState) : list Z :=
  pj_projectile_id p :: pj_owner_id p ::
  float_Zs (pj_x p) ++ float_Zs (pj_y p) ++ float_Zs (pj_velocity_x p) ++ float_Zs (pj_velocity_y p).

Fixpoint Zs_projectiles (n : nat) (zs : list Z) : list ProjectileState * list Z :=
  match n, zs with
  | S n', i :: o :: a1 :: a2 :: a3 :: b1 :: b2 :: b3 :: c1 :: c2 :: c3 :: d1 :: d2 :: d3 :: zs' =>
      let (ps, r) := Zs_projectiles n' zs' in
      (mkProjectileState i o (Zs_float a1 a2 a3) (Zs_float b1 b2 b3) (Zs_float c1 c2 c3) (Zs_float d1 d2 d3) :: ps, r)
  | _, _ => ([], zs)
  end.

Definition snapshot_Zs (s : StateSnapshot) : list Z :=
  ss_tick s :: (if ss_full s then 1 else 0) :: Z.of_nat (length (ss_players s)) :: Z.of_nat (length (ss_projectiles s)) ::
  mjoin (map player_Zs (ss_players s)) ++ mjoin (map projectile_Zs (ss_projectiles s)) ++ ss_removed_projectile_ids s.

Definition Zs_snapshot (zs : list Z) : StateSnapshot :=
  match zs with
  | t :: f :: n :: m :: zs' =>
      let (ps, r1) := Zs_players (Z.to_nat n) zs' in
      let (qs, r2) := Zs_projectiles (Z.to_nat m) r1 in
      mkStateSnapshot t (f =? 1) ps qs r2
  | _ => mkStateSnapshot 0 false [] [] []
  end.

Lemma float_roundtrip x : exists t m e, float_Zs x = [t; m; e] /\ Zs_float t m e = x.
Proof. destruct x as [[]|[]| |[]]; by eexists _, _, _. Qed.

Lemma players_roundtrip ps r : Zs_players (length ps) (mjoin (map player_Zs ps) ++ r) = (ps, r).
Proof.
  induction ps as [|p ps IH]; [done|]. destruct p as [i x y h s]. cbn [map mjoin length]. unfold player_Zs.
  cbn [ps_player_id ps_hp ps_last_input_seq ps_x ps_y].
  destruct (float_roundtrip x) as (a1 & a2 & a3 & -> & Hx), (float_roundtrip y) as (b1 & b2 & b3 & -> & Hy).
  cbn. change (mjoin _) with (mjoin (map player_Zs ps)). by rewrite IH, Hx, Hy.
Qed.

Lemma projectiles_roundtrip ps r : Zs_projectiles (length ps) (mjoin (map projectile_Zs ps) ++ r) = (ps, r).
Proof.
  induction ps as [|p ps IH]; [done|]. destruct p as [i o x y u v]. cbn [map mjoin length]. unfold projectile_Zs.
  cbn [pj_projectile_id pj_owner_id pj_x pj_y pj_velocity_x pj_velocity_y].
  destruct (float_roundtrip x) as (a1 & a2 & a3 & -> & Hx), (float_roundtrip y) as (b1 & b2 & b3 & -> & Hy),
    (float_roundtrip u) as (c1 & c2 & c3 & -> & Hu), (float_roundtrip v) as (d1 & d2 & d3 & -> & Hv).
  cbn. change (mjoin _) with (mjoin (map projectile_Zs ps)). by rewrite IH, Hx, Hy, Hu, Hv.
Qed.

Lemma snapshot_roundtrip s : Zs_snapshot (snapshot_Zs s) = s.
Proof.
  destruct s as [t f ps qs rm]. unfold snapshot_Zs, Zs_snapshot. cbn [ss_tick ss_full ss_players ss_projectiles ss_removed_projectile_ids].
  rewrite !Nat2Z.id, players_roundtrip, projectiles_roundtrip. by destruct f.
Qed.

Definition unpack {A} `{Countable A} (a : A) (bs : list byte) : A := default a (decode (of_bits bs)).

Lemma unpack_pack {A} `{Countable A} (a x : A) : unpack a (to_bits (encode x)) = x.
Proof. unfold unpack. by rewrite of_to_bits, decode_encode. Qed.

#[export] Instance bits_protobuf : Protobuf := {|
  parse_LoginResp := unpack (0, 0, "");
  parse_EnterRoom := unpack (0, []);
  parse_StateSnapshot bs := Zs_snapshot (unpack [] bs);
  parse_BattleEnd := unpack 0;
  serialize m :=
    match m with
    | MLoginResp c p t => to_bits (encode (c, p, t))
    | MEnterRoom r l => to_bits (encode (r, l))
    | MStateSnapshot s => to_bits (encode (snapshot_Zs s))
    | MBattleEnd w => to_bits (encode w)
    | MHeartbeat t => to_bits (encode t)
    | MLeaderboardResp es => to_bits (encode (map fst es, mjoin (map (fun x => float_Zs (snd x)) es)))
    end;
|}.

#[export] Instance bits_laws : ProtobufLaws.
Proof.
  split; intros; cbn [parse_LoginResp parse_EnterRoom parse_StateSnapshot parse_BattleEnd serialize bits_protobuf];
    rewrite unpack_pack; try done. apply snapshot_roundtrip.
Qed.

(** *** Evaluating runs *)

Notation iteration64 := (@iteration BattleSim.libm64 bits_protobuf).

Notation run64 := (@run BattleSim.libm64 bits_protobuf).

(** The frames read (or time-outs), with the time of each iteration. *)
Fixpoint exec_run (d : Z) (steps : list (option (Z * list byte) * Z)) (now : Z) (b : bot) : option (list entry * Z * bot) :=
  match steps with
  | [] => Some ([], now, b)
  | (f, now1) :: steps' =>
      if (now <=? now1) && (now1 <? 2 ^ 64) then
        match iteration64 d f now1 now1 b with
        | Exit _ => None
        | Next b1 e =>
            match exec_run d steps' now1 b1 with
            | Some (tr, now2, b2) => Some (mkEntry now1 f e :: tr, now2, b2)
            | None => None
            end
        end
      else None
  end.

Lemma run_exec_run d steps now b tr now' b' : exec_run d steps now b = Some (tr, now', b') -> run64 d now b tr now' b'.
Proof.
  revert now b tr. induction steps as [|[f now1] steps IH]; intros now b tr; cbn [exec_run]; [intros [= <- <- <-]; constructor|].
  destruct (Z.leb_spec now now1), (Z.ltb_spec now1 (2 ^ 64)); cbn [andb]; try discriminate.
  destruct (iteration64 d f now1 now1 b) as [|b1 e] eqn:E; [discriminate|].
  destruct (exec_run d steps now1 b1) as [[[tr1 now2] b2]|] eqn:E'; [|discriminate]. intros [= <- <- <-].
  eapply run_step; [split; [exact H|apply Z.le_refl]|done|exact E|by apply IH].
Qed.

(** A step every 60 ms, with a time-out after every frame. *)
Fixpoint paced_steps (now : Z) (ms : list server_msg) : list (option (Z * list byte) * Z) :=
  match ms with
  | [] => []
  | m :: ms => (Some (frame_of m), now + 60) :: (None, now + 120) :: paced_steps (now + 120) ms
  end.

(** A battle of two bots' players; the first one's connection is 10. *)
Definition duel_msgs : list server_msg :=
  Room.msgs_to 10 (snd (Room.exec64 Room.AStart Room.duel_room) ++
                   snd (Room.exec_all Room.duel_actions (Room.set_ticker true Room.duel_room))).

Definition hello : list server_msg := [MLoginResp 0 1 "secret"].

Definition after_run (d : Z) (now : Z) (ms : list server_msg) (b : bot) : option (list entry * Z * bot) :=
  exec_run d (paced_steps now ms) now b.

Definition logged_in : bot :=
  match after_run (-1) 5000 hello init with Some (_, _, b) => b | None => init end.

Lemma bot_knows_the_battle_witness :
  exists tr now' b', after_run (-1) 6000 duel_msgs logged_in = Some (tr, now', b') /\
    players_of (ss_players (world b')) =
      Room.v_players (Room.view_of (Room.sim_ (fst (Room.exec_all Room.duel_actions (Room.set_ticker true Room.duel_room))))).
Proof.
  destruct (after_run (-1) 6000 duel_msgs logged_in) as [[[tr now'] b']|] eqn:E; [|vm_compute in E; discriminate E].
  exists tr, now', b'. split; [reflexivity|].
  apply (bot_knows_the_battle elements_order BattleSim.libm64 BattleSim.libm64 1 10 Room.AStart Room.duel_room
           (Room.set_ticker true Room.duel_room) (snd (Room.exec64 Room.AStart Room.duel_room)) Room.duel_actions
           (snd (Room.exec_all Room.duel_actions (Room.set_ticker true Room.duel_room))) _ (-1) 6000 logged_in tr now' b').
  - exact Room.wf_duel_room.
  - left. reflexivity.
  - reflexivity.
  - exact Room.bound_duel_room.
  - apply Room.room_run_exec_all.
  - repeat constructor; discriminate.
  - vm_compute. reflexivity.
  - discriminate.
  - intros x y h. vm_compute. discriminate.
  - exact (run_exec_run _ _ _ _ _ _ _ E).
  - vm_compute in E. injection E as <- <- <-. vm_compute. reflexivity.
Defined.

Lemma heartbeats_keep_the_bot_alive_witness :
  exists tr now' b', after_run (-1) 6000 duel_msgs logged_in = Some (tr, now', b') /\
    exists h, (h = lastHbMs logged_in \/ exists x, x ∈ tr /\ at_ms x = h /\ ESend (MHeartbeatReq h) ∈ did x) /\
      0 <= now' - h <= 2100.
Proof.
  destruct (after_run (-1) 6000 duel_msgs logged_in) as [[[tr now'] b']|] eqn:E; [|vm_compute in E; discriminate E].
  exists tr, now', b'. split; [reflexivity|].
  destruct (heartbeats_keep_the_bot_alive (LM := BattleSim.libm64) 100 (-1) 6000 logged_in tr now' b') as (h & H1 & H2 & _).
  - exact (run_exec_run _ _ _ _ _ _ _ E).
  - vm_compute in E. injection E as <- <- <-. vm_compute. repeat split; discriminate.
  - vm_compute. split; [discriminate|reflexivity].
  - vm_compute. split; discriminate.
  - vm_compute. discriminate.
  - exists h. split; [exact H1|exact H2].
Defined.

(** The bot in the battle, with one enemy. *)
Definition in_battle : bot :=
  match after_run (-1) 6000 duel_msgs logged_in with Some (_, _, b) => b | None => init end.

Lemma nearest_enemy_is_targeted_witness :
  exists p, p ∈ ss_players (world in_battle) /\ ps_player_id p = 2 /\
    snd (@decide_input BattleSim.libm64 9000 in_battle) =
      [ESend (MPlayerInput (@input_against BattleSim.libm64 (me in_battle) p (@distance BattleSim.libm64 (me in_battle) p)
         (seq (fst (@decide_input BattleSim.libm64 9000 in_battle)))))].
Proof.
  pose proof (@nearest_enemy_is_targeted BattleSim.libm64 9000 in_battle) as H.
  destruct (@decide_input BattleSim.libm64 9000 in_battle) as [b' e] eqn:E.
  destruct H as [(p & Hin & [Hne _] & _ & _ & He & _)|(He & _)].
  - vm_compute. reflexivity.
  - vm_compute. reflexivity.
  - vm_compute. reflexivity.
  - exists p. split; [exact Hin|]. split; [|exact He]. clear He E. revert Hin Hne. vm_compute.
    intros Hin Hne. repeat (apply elem_of_cons in Hin as [->|Hin]; [first [reflexivity|congruence]|]). by apply elem_of_nil in Hin.
  - exfalso. clear - E He. subst e. vm_compute in E. discriminate E.
Defined.

Lemma bot_session_witness :
  exists tr now' b', after_run 300 5000 (hello ++ duel_msgs) init = Some (tr, now', b') /\
    count is_reconnect (sends tr) = 1%nat /\ (count is_match (sends tr) <= 1)%nat /\
    map in_seq (inputs (sends tr)) = numbered (length (inputs (sends tr))).
Proof.
  destruct (after_run 300 5000 (hello ++ duel_msgs) init) as [[[tr now'] b']|] eqn:E; [|vm_compute in E; discriminate E].
  exists tr, now', b'. split; [reflexivity|].
  destruct (bot_session (LM := BattleSim.libm64) 300 5000 tr now' b') as (H1 & H2 & H3 & H4).
  - exact (run_exec_run _ _ _ _ _ _ _ E).
  - vm_compute in E. injection E as <- <- <-. repeat constructor; intros H; vm_compute in H |- *; first [discriminate H|discriminate].
  - split; [|split; [exact H1|exact H4]]. clear H1 H2 H3 H4. vm_compute in E. injection E as <- <- <-. vm_compute. reflexivity.
Defined.

End Bot.
