(* ===== verification/Bench.v ===== *)
(** * The benchmark client ([src/examples/bench_client.cc])

    Worker threads drive many connections through one epoll instance each: they
    connect, log in, ask for matches or idle, send heartbeats and inputs, and
    measure how long the answers take. A connection has an input buffer, from
    which frames are cut, and a string of bytes that could not be written yet.

    The kernel is a class parameter ([BenchKernel]): the answers of [send] and
    the clock. The answers of [readv] come with the event that leads to them, as
    in [TcpConnection]. A read beyond the memory of the buffer is [UB]; a loop
    that does not end is [None]. *)

From stdpp Require Import base list strings pretty.
From Stdlib Require Import ZArith Lia.
From Stdlib Require Import Init.Byte.
From S2P Require Import Prelude Float32 Buffer Codec Proto.

Local Open Scope Z_scope.

(** ** The kernel and protobuf *)

(** [send] answers the bytes it took, or an error; [sent_bytes] is what a
    socket has taken so far. *)
Inductive send_answer : Type := Wrote (n : nat) | Again | SendFailed.

Class BenchKernel (K : Type) : Type := {
  send : Z -> list byte -> K -> send_answer * K;
  nowMs : K -> Z * K;
  sent_bytes : K -> Z -> list byte;
}.

Class BenchLaws (K : Type) `{BenchKernel K} : Prop := {
  send_wrote fd bs k n k' : send fd bs k = (Wrote n, k') ->
    (0 < n <= length bs)%nat /\ sent_bytes k' fd = sent_bytes k fd ++ take n bs /\
    forall fd', fd' <> fd -> sent_bytes k' fd' = sent_bytes k fd';
  send_nothing fd bs k k' a : send fd bs k = (a, k') -> (forall n, a <> Wrote n) ->
    forall fd', sent_bytes k' fd' = sent_bytes k fd';
  now_nothing k fd : sent_bytes (snd (nowMs k)) fd = sent_bytes k fd;
}.

(** [ParseFromArray] of the messages the client reads and the serialisation of
    those it sends. *)
Class BenchProtobuf : Type := {
  parse_LoginResp : list byte -> option (Z * Z * string);
  parse_Heartbeat : list byte -> option Z;
  parse_StateSnapshot : list byte -> option StateSnapshot;
  serialize : client_msg -> list byte;
}.

Module Bench.

(** ** Data *)

Record Options : Type := mkOptions {
  port : Z;
  conns : Z;
  threads : Z;
  battle : bool;
  durationSec : Z;
  rampUs : Z;
}.

Definition default_options : Options := mkOptions 9100 100 2 false 10 200.

Inductive State : Type := kConnecting | kWaitLogin | kIdle | kMatching | kBattle | kDead.

#[export] Instance State_eq_dec : EqDecision State.
Proof. solve_decision. Defined.

Record Conn : Type := mkConn {
  fd : Z;
  state : State;
  c_in : Buffer.t;
  out : list byte;
  playerId : Z;
  nextHbMs : Z;
  nextInputMs : Z;
  seq : Z;
  pendingSeq : Z;
  pendingSentMs : Z;
}.

Definition new_conn : Conn := mkConn (-1) kConnecting Buffer.init [] 0 0 0 0 0 0.

(** The samples are differences of the millisecond clock, as [uint64_t]. *)
Record Stats : Type := mkStats {
  established : nat;
  failed : nat;
  dead : nat;
  n_sent : nat;
  recvd : nat;
  hbRtt : list Z;
  inputRtt : list Z;
}.

Definition no_stats : Stats := mkStats 0 0 0 0 0 [] [].

Definition set_fd (x : Z) (c : Conn) : Conn :=
  mkConn x (state c) (c_in c) (out c) (playerId c) (nextHbMs c) (nextInputMs c) (seq c) (pendingSeq c) (pendingSentMs c).
Definition set_state (x : State) (c : Conn) : Conn :=
  mkConn (fd c) x (c_in c) (out c) (playerId c) (nextHbMs c) (nextInputMs c) (seq c) (pendingSeq c) (pendingSentMs c).
Definition set_in (x : Buffer.t) (c : Conn) : Conn :=
  mkConn (fd c) (state c) x (out c) (playerId c) (nextHbMs c) (nextInputMs c) (seq c) (pendingSeq c) (pendingSentMs c).
Definition set_out (x : list byte) (c : Conn) : Conn :=
  mkConn (fd c) (state c) (c_in c) x (playerId c) (nextHbMs c) (nextInputMs c) (seq c) (pendingSeq c) (pendingSentMs c).
Definition set_playerId (x : Z) (c : Conn) : Conn :=
  mkConn (fd c) (state c) (c_in c) (out c) x (nextHbMs c) (nextInputMs c) (seq c) (pendingSeq c) (pendingSentMs c).
Definition set_nextHb (x : Z) (c : Conn) : Conn :=
  mkConn (fd c) (state c) (c_in c) (out c) (playerId c) x (nextInputMs c) (seq c) (pendingSeq c) (pendingSentMs c).
Definition set_input (next s : Z) (c : Conn) : Conn :=
  mkConn (fd c) (state c) (c_in c) (out c) (playerId c) (nextHbMs c) next s (pendingSeq c) (pendingSentMs c).
Definition set_pending (s t : Z) (c : Conn) : Conn :=
  mkConn (fd c) (state c) (c_in c) (out c) (playerId c) (nextHbMs c) (nextInputMs c) (seq c) s t.

Definition bump_established (s : Stats) : Stats :=
  mkStats (S (established s)) (failed s) (dead s) (n_sent s) (recvd s) (hbRtt s) (inputRtt s).
Definition bump_failed (s : Stats) : Stats :=
  mkStats (established s) (S (failed s)) (dead s) (n_sent s) (recvd s) (hbRtt s) (inputRtt s).
Definition bump_dead (s : Stats) : Stats :=
  mkStats (established s) (failed s) (S (dead s)) (n_sent s) (recvd s) (hbRtt s) (inputRtt s).
Definition bump_sent (s : Stats) : Stats :=
  mkStats (established s) (failed s) (dead s) (S (n_sent s)) (recvd s) (hbRtt s) (inputRtt s).
Definition bump_recvd (s : Stats) : Stats :=
  mkStats (established s) (failed s) (dead s) (n_sent s) (S (recvd s)) (hbRtt s) (inputRtt s).
Definition push_hb (x : Z) (s : Stats) : Stats :=
  mkStats (established s) (failed s) (dead s) (n_sent s) (recvd s) (hbRtt s ++ [x]) (inputRtt s).
Definition push_input (x : Z) (s : Stats) : Stats :=
  mkStats (established s) (failed s) (dead s) (n_sent s) (recvd s) (hbRtt s) (inputRtt s ++ [x]).

(** What a worker asks of epoll: [wantOut] of [setEvents], registration. *)
Inductive ctl : Type := CtlAdd (fd : Z) | CtlMod (fd : Z) (wantOut : bool).

(** What the functions of a worker share: the kernel, the statistics, and the
    calls of [epoll_ctl] so far. *)
Record World (K : Type) : Type := mkWorld {
  kern : K;
  stats : Stats;
  ctls : list ctl;
}.
Arguments mkWorld {K} kern stats ctls.
Arguments kern {K} w.
Arguments stats {K} w.
Arguments ctls {K} w.

Section Worker.
Context {K : Type} {BK : BenchKernel K} {PB : BenchProtobuf}.

Definition with_kern (k : K) (w : World K) : World K := mkWorld k (stats w) (ctls w).
Definition with_stats (f : Stats -> Stats) (w : World K) : World K := mkWorld (kern w) (f (stats w)) (ctls w).

Definition setEvents (c : Conn) (wantOut : bool) (w : World K) : World K :=
  mkWorld (kern w) (stats w) (ctls w ++ [CtlMod (fd c) wantOut]).

(** ** Sending *)

(** The loop of [sendMsg]; the result says whether the connection survived.
    Every [send] takes a byte at least, so the length of [out] is fuel enough. *)
Fixpoint send_loop (fuel : nat) (c : Conn) (k : K) : Conn * K * bool :=
  match out c, fuel with
  | [], _ | _, O => (c, k, true)
  | _, S fuel' =>
      match send (fd c) (out c) k with
      | (Wrote n, k') => send_loop fuel' (set_out (drop n (out c)) c) k'
      | (Again, k') => (c, k', true)
      | (SendFailed, k') => (set_state kDead c, k', false)
      end
  end.

Definition is_nil {A} (l : list A) : bool := match l with [] => true | _ => false end.

Definition sendMsg (c : Conn) (m : client_msg) (w : World K) : Conn * World K :=
  let c1 := set_out (out c ++ Codec.encode (client_msg_id m) (serialize m)) c in
  let '(c2, k2, ok) := send_loop (length (out c1)) c1 (kern w) in
  if ok then (c2, setEvents c2 (negb (is_nil (out c2))) (with_stats bump_sent (with_kern k2 w)))
  else (c2, with_kern k2 w).

(** The branch of the worker for [EPOLLOUT]: a failure only ends the loop. *)
Fixpoint flush_loop (fuel : nat) (c : Conn) (k : K) : Conn * K :=
  match out c, fuel with
  | [], _ | _, O => (c, k)
  | _, S fuel' =>
      match send (fd c) (out c) k with
      | (Wrote n, k') => flush_loop fuel' (set_out (drop n (out c)) c) k'
      | (_, k') => (c, k')
      end
  end.

Definition flush (c : Conn) (w : World K) : Conn * World K :=
  let (c1, k1) := flush_loop (length (out c)) c (kern w) in
  (c1, setEvents c1 (negb (is_nil (out c1))) (with_kern k1 w)).

(** ** Receiving *)

(** The player of a snapshot that acknowledges the measured input. *)
Definition acknowledges (c : Conn) (p : PlayerState) : bool :=
  (ps_player_id p =? playerId c) && (pendingSeq c <=? ps_last_input_seq p).

(** [d] is the memory given to [ParseFromArray], or none when it reaches past
    the buffer. *)
Definition handleFrame (opt : Options) (id : Z) (d : option (list byte)) (c : Conn) (w : World K) : res (Conn * World K) :=
  if id =? MsgId.kLoginResp then
    match d with
    | None => UB
    | Some bs =>
        match parse_LoginResp bs with
        | Some (code, player_id, _) =>
            if negb (code =? 0) then Ok (c, w)
            else
              let c1 := set_playerId player_id c in
              if battle opt then
                let (c2, w2) := sendMsg c1 (MMatchReq player_id) w in
                Ok (set_state kMatching c2, w2)
              else Ok (set_state kIdle c1, w)
        | None => Ok (c, w)
        end
    end
  else if id =? MsgId.kHeartbeat then
    match d with
    | None => UB
    | Some bs =>
        match parse_Heartbeat bs with
        | Some client_ms =>
            let (now, k') := nowMs (kern w) in
            Ok (c, with_stats (push_hb (u64 (now - client_ms))) (with_kern k' w))
        | None => Ok (c, w)
        end
    end
  else if id =? MsgId.kEnterRoom then Ok (set_state kBattle c, w)
  else if id =? MsgId.kStateSnapshot then
    if pendingSeq c =? 0 then Ok (c, w)
    else
      match d with
      | None => UB
      | Some bs =>
          match parse_StateSnapshot bs with
          | Some snap =>
              if existsb (acknowledges c) (ss_players snap) then
                let (now, k') := nowMs (kern w) in
                Ok (set_pending 0 (pendingSentMs c) c,
                    with_stats (push_input (u64 (now - pendingSentMs c))) (with_kern k' w))
              else Ok (c, w)
          | None => Ok (c, w)
          end
      end
  else Ok (c, w).

Inductive read_end : Type := Drained | Died.

(** The loop over the answers of [readv]. *)
Fixpoint read_loop (rs : list Buffer.read_result) (b : Buffer.t) : read_end * Buffer.t :=
  match rs with
  | [] => (Drained, b)
  | r :: rs' =>
      let '(n, savedErrno, b1) := Buffer.readFd r b in
      if n =? 0 then (Died, b1)
      else if n <? 0 then
        match savedErrno with
        | Some Buffer.EAGAIN => (Drained, b1)
        | Some Buffer.EINTR => read_loop rs' b1
        | _ => (Died, b1)
        end
      else read_loop rs' b1
  end.

(** The memory from [p] on, [n] bytes of it. *)
Definition memory (p : list byte) (n : Z) : option (list byte) :=
  if n <=? Z.of_nat (length p) then Some (take (Z.to_nat n) p) else None.

(** The loop that cuts frames; [4 + len] and [len - 2] are computed in
    [uint32_t]. *)
Fixpoint frame_loop (fuel : nat) (opt : Options) (c : Conn) (w : World K) : option (res (Conn * World K)) :=
  let b := c_in c in
  if (Buffer.readableBytes b <? 6)%nat then Some (Ok (c, w))
  else
    let len := Codec.be_load (take 4 (Buffer.peek b)) in
    if Z.of_nat (Buffer.readableBytes b) <? u32 (4 + len) then Some (Ok (c, w))
    else
      match fuel with
      | O => None
      | S fuel' =>
          let id := Codec.be_load (take 2 (drop 4 (Buffer.peek b))) in
          match handleFrame opt id (memory (drop 6 (Buffer.peek b)) (u32 (len - 2))) c (with_stats bump_recvd w) with
          | UB => Some UB
          | Ok (c1, w1) =>
              match Buffer.retrieve (Z.to_nat (u32 (4 + len))) (c_in c1) with
              | UB => Some UB
              | Ok b1 => frame_loop fuel' opt (set_in b1 c1) w1
              end
          end
      end.

Definition onReadable (opt : Options) (rs : list Buffer.read_result) (c : Conn) (w : World K) : option (res (Conn * World K)) :=
  match read_loop rs (c_in c) with
  | (Died, b) => Some (Ok (set_state kDead (set_in b c), w))
  | (Drained, b) => frame_loop (Buffer.readableBytes b) opt (set_in b c) w
  end.

(** ** The worker *)

(** The connections of thread [tid]; [/] and [%] on [int]. *)
Definition share (opt : Options) (tid : Z) : Z :=
  Z.quot (conns opt) (threads opt) + (if tid <? Z.rem (conns opt) (threads opt) then 1 else 0).

(** The answers of [socket] and [connect]. *)
Inductive connect_answer : Type :=
  | NoSocket
  | Refused
  | Pending (newfd : Z).

Definition connect_one (a : connect_answer) (c : Conn) (w : World K) : Conn * World K :=
  match a with
  | NoSocket | Refused => (set_state kDead (set_fd (-1) c), with_stats bump_failed w)
  | Pending newfd => (set_fd newfd c, mkWorld (kern w) (stats w) (ctls w ++ [CtlAdd newfd]))
  end.

(** The ramp-up: one answer for each connection. *)
Fixpoint connect_all (ans : list connect_answer) (w : World K) : list Conn * World K :=
  match ans with
  | [] => ([], w)
  | a :: ans' =>
      let (c, w1) := connect_one a new_conn w in
      let (cs, w2) := connect_all ans' w1 in
      (c :: cs, w2)
  end.

Definition account (tid : Z) (i : nat) : string := "bench_" +:+ pretty tid +:+ "_" +:+ pretty (Z.of_nat i).

(** A ready connection: [so_error] is what [getsockopt] answers. *)
Record event : Type := mkEvent {
  ev_in : bool;
  ev_out : bool;
  so_error : Z;
  reads : list Buffer.read_result;
}.

(** The first part of the branch: the end of a connect. The result says whether
    the event is done ([continue]). *)
Definition on_connected (tid : Z) (i : nat) (ev : event) (stagger : Z) (c : Conn) (w : World K)
  : bool * Z * Conn * World K :=
  if bool_decide (state c = kConnecting) && ev_out ev then
    if negb (so_error ev =? 0) then (true, stagger, set_state kDead c, with_stats bump_failed w)
    else
      let (c1, w1) := sendMsg (set_state kWaitLogin c) (MLoginReq (account tid i)) (with_stats bump_established w) in
      let (now, k2) := nowMs (kern w1) in
      (false, u64 (stagger + 1), set_nextHb (u64 (now + 500 + stagger mod 2000)) c1, with_kern k2 w1)
  else (false, stagger, c, w).

(** The last part: what could not be written before. *)
Definition on_writable (ev : event) (c : Conn) (w : World K) : Conn * World K :=
  if negb (bool_decide (state c = kDead)) && negb (bool_decide (state c = kConnecting)) && ev_out ev &&
     negb (is_nil (out c))
  then flush c w else (c, w).

Definition on_event (opt : Options) (tid : Z) (i : nat) (ev : event) (stagger : Z) (c : Conn) (w : World K)
  : option (res (Z * Conn * World K)) :=
  if bool_decide (state c = kDead) then Some (Ok (stagger, c, w))
  else
    let '(done, stagger1, c1, w1) := on_connected tid i ev stagger c w in
    if done then Some (Ok (stagger1, c1, w1))
    else
      match (if ev_in ev then onReadable opt (reads ev) c1 w1 else Some (Ok (c1, w1))) with
      | None => None
      | Some UB => Some UB
      | Some (Ok (c2, w2)) => let (c3, w3) := on_writable ev c2 w2 in Some (Ok (stagger1, c3, w3))
      end.

(** The table [dir] of eight directions. *)
Definition f_07 : f32 := fdiv (f32_of_Z 7) (f32_of_Z 10).
Definition f_m07 : f32 := fdiv (f32_of_Z (-7)) (f32_of_Z 10).

Definition dir : list (f32 * f32) :=
  [(f32_of_Z 1, f32_of_Z 0); (f_07, f_07); (f32_of_Z 0, f32_of_Z 1); (f_m07, f_07);
   (f32_of_Z (-1), f32_of_Z 0); (f_m07, f_m07); (f32_of_Z 0, f32_of_Z (-1)); (f_07, f_m07)].

Definition cruise (now : Z) (c : Conn) : PlayerInput :=
  let (x, y) := default (f32_of_Z 0, f32_of_Z 0) (dir !! Z.to_nat (u64 (now / 1000 + fd c) mod 8)) in
  mkPlayerInput (u32 (seq c + 1)) x y false.

Definition heartbeat (now : Z) (c : Conn) (w : World K) : Conn * World K :=
  if nextHbMs c <=? now then sendMsg (set_nextHb (u64 (now + 2000)) c) (MHeartbeatReq now) w else (c, w).

Definition input (now : Z) (c : Conn) (w : World K) : Conn * World K :=
  if bool_decide (state c = kBattle) && (nextInputMs c <=? now) then
    let (c1, w1) := sendMsg (set_input (u64 (now + 100)) (u32 (seq c + 1)) c) (MPlayerInput (cruise now c)) w in
    (if pendingSeq c1 =? 0 then set_pending (seq c1) now c1 else c1, w1)
  else (c, w).

(** What is due on one connection. *)
Definition tick_conn (now : Z) (c : Conn) (w : World K) : Conn * World K :=
  match state c with
  | kDead | kConnecting | kWaitLogin => (c, w)
  | _ => let (c1, w1) := heartbeat now c w in input now c1 w1
  end.

Fixpoint tick_all (now : Z) (cs : list Conn) (w : World K) : list Conn * World K :=
  match cs with
  | [] => ([], w)
  | c :: cs' =>
      let (c1, w1) := tick_conn now c w in
      let (cs2, w2) := tick_all now cs' w1 in
      (c1 :: cs2, w2)
  end.

(** The events of one [epoll_wait], by the index of their connection. *)
Fixpoint handle_events (opt : Options) (tid : Z) (evs : list (nat * event)) (stagger : Z) (cs : list Conn) (w : World K)
  : option (res (Z * list Conn * World K)) :=
  match evs with
  | [] => Some (Ok (stagger, cs, w))
  | (i, ev) :: evs' =>
      match cs !! i with
      | None => Some UB
      | Some c =>
          match on_event opt tid i ev stagger c w with
          | None => None
          | Some UB => Some UB
          | Some (Ok (stagger1, c1, w1)) => handle_events opt tid evs' stagger1 (<[i := c1]> cs) w1
          end
      end
  end.

(** One turn of the worker's loop. *)
Definition turn (opt : Options) (tid : Z) (evs : list (nat * event)) (stagger : Z) (cs : list Conn) (w : World K)
  : option (res (Z * list Conn * World K)) :=
  match handle_events opt tid evs stagger cs w with
  | Some (Ok (stagger1, cs1, w1)) =>
      let (now, k2) := nowMs (kern w1) in
      let (cs2, w2) := tick_all now cs1 (with_kern k2 w1) in
      Some (Ok (stagger1, cs2, w2))
  | r => r
  end.

(** The end of the worker. *)
Definition count_dead (cs : list Conn) (s : Stats) : Stats :=
  foldl (fun s c => if bool_decide (state c = kDead) then bump_dead s else s) s cs.

Definition add_stats (o st : Stats) : Stats :=
  mkStats (established o + established st) (failed o + failed st) (dead o + dead st) (n_sent o + n_sent st)
    (recvd o + recvd st) (hbRtt o ++ hbRtt st) (inputRtt o ++ inputRtt st).

(** ** Frames

    The reference is [Codec.decode], the parser of the server's codec. *)

(** What a frame does to a connection. *)
Definition handle (opt : Options) (x : Conn * World K) (f : Codec.frame) : Conn * World K :=
  match handleFrame opt (fst f) (Some (snd f)) (fst x) (with_stats bump_recvd (snd x)) with
  | Ok x' => x'
  | UB => x
  end.

Lemma send_loop_set_in fuel b c k :
  send_loop fuel (set_in b c) k = let '(c1, k1, ok) := send_loop fuel c k in (set_in b c1, k1, ok).
Proof.
  revert c k. induction fuel as [|fuel IH]; intros c k; simpl; destruct (out c) as [|x l]; try done.
  destruct (send (fd c) (x :: l) k) as [[n| |] k']; [|done|done].
  exact (IH (set_out (drop n (x :: l)) c) k').
Qed.

Lemma sendMsg_set_in b c m w : sendMsg (set_in b c) m w = let (c1, w1) := sendMsg c m w in (set_in b c1, w1).
Proof.
  unfold sendMsg. cbn zeta. change (set_out ?x (set_in b c)) with (set_in b (set_out x c)).
  change (out (set_in b ?c)) with (out c). rewrite send_loop_set_in.
  destruct (send_loop _ _ _) as [[c2 k2] []]; done.
Qed.

Lemma handleFrame_set_in opt id bs b c w :
  handleFrame opt id (Some bs) (set_in b c) w =
  match handleFrame opt id (Some bs) c w with Ok (c1, w1) => Ok (set_in b c1, w1) | UB => UB end.
Proof.
  unfold handleFrame. destruct (id =? MsgId.kLoginResp).
  { destruct (parse_LoginResp bs) as [[[code p] tok]|]; [|done]. destruct (negb _); [done|]. destruct (battle opt); [|done].
    cbn zeta. change (set_playerId p (set_in b c)) with (set_in b (set_playerId p c)). rewrite sendMsg_set_in.
    by destruct (sendMsg _ _ _). }
  destruct (id =? MsgId.kHeartbeat); [destruct (parse_Heartbeat bs); [|done]; by destruct (nowMs (kern w))|].
  destruct (id =? MsgId.kEnterRoom); [done|]. destruct (id =? MsgId.kStateSnapshot); [|done].
  change (pendingSeq (set_in b c)) with (pendingSeq c). destruct (pendingSeq c =? 0); [done|].
  destruct (parse_StateSnapshot bs) as [snap|]; [|done].
  change (existsb (acknowledges (set_in b c))) with (existsb (acknowledges c)).
  destruct (existsb _ _); [|done]. by destruct (nowMs (kern w)).
Qed.

Lemma sendMsg_in c m w : c_in (fst (sendMsg c m w)) = c_in c.
Proof.
  assert (forall fuel c k, c_in (fst (fst (send_loop fuel c k))) = c_in c) as H.
  { clear. induction fuel as [|fuel IH]; intros c k; simpl; destruct (out c) as [|x l]; try done.
    destruct (send (fd c) (x :: l) k) as [[n| |] k']; [|done|done]. by rewrite IH. }
  unfold sendMsg. specialize (H (length (out (set_out (out c ++ Codec.encode (client_msg_id m) (serialize m)) c)))
    (set_out (out c ++ Codec.encode (client_msg_id m) (serialize m)) c) (kern w)).
  destruct (send_loop _ _ _) as [[c2 k2] []]; simpl in *; done.
Qed.

Lemma handleFrame_ok opt id bs c w :
  exists c1 w1, handleFrame opt id (Some bs) c w = Ok (c1, w1) /\ c_in c1 = c_in c.
Proof.
  unfold handleFrame. destruct (id =? MsgId.kLoginResp).
  { destruct (parse_LoginResp bs) as [[[code p] tok]|]; [|eauto]. destruct (negb _); [eauto|]. destruct (battle opt); [|eauto].
    pose proof (sendMsg_in (set_playerId p c) (MMatchReq p) w). destruct (sendMsg _ _ _). eauto. }
  destruct (id =? MsgId.kHeartbeat); [destruct (parse_Heartbeat bs); [|eauto]; destruct (nowMs (kern w)); eauto|].
  destruct (id =? MsgId.kEnterRoom); [eauto|]. destruct (id =? MsgId.kStateSnapshot); [|eauto].
  destruct (pendingSeq c =? 0); [eauto|]. destruct (parse_StateSnapshot bs) as [snap|]; [|eauto].
  destruct (existsb _ _); [|eauto]. destruct (nowMs (kern w)). eauto.
Qed.

Lemma set_in_in b b' c : set_in b (set_in b' c) = set_in b c.
Proof. reflexivity. Qed.

Lemma set_in_id c : set_in (c_in c) c = c.
Proof. by destruct c. Qed.

(** One turn of the loop on a complete legal frame. *)
Lemma frame_loop_frame fuel opt b c w len :
  Buffer.wf b -> len = Codec.be_load (take 4 (Buffer.readable b)) -> 2 <= len <= 65536 ->
  (4 + Z.to_nat len <= Buffer.readableBytes b)%nat ->
  exists b', Buffer.wf b' /\ Buffer.readable b' = drop (4 + Z.to_nat len) (Buffer.readable b) /\
    frame_loop (S fuel) opt (set_in b c) w =
    let (c1, w1) := handle opt (c, w) (Codec.be_load (take 2 (drop 4 (Buffer.readable b))),
                                       take (Z.to_nat len - 2) (drop 6 (Buffer.readable b))) in
    frame_loop fuel opt (set_in b' c1) w1.
Proof.
  intros Hwf Hlen Hr Hb. destruct (Buffer.retrieve_spec _ _ Hwf Hb) as (b' & Hret & Hwf' & Hrd').
  exists b'. split; [done|]. split; [done|]. cbn [frame_loop]. change (c_in (set_in b c)) with b.
  destruct (Nat.ltb_spec (Buffer.readableBytes b) 6) as [|_]; [lia|].
  pose proof (Codec.peek_slice b 0 4 ltac:(lia)) as H4. rewrite !drop_0 in H4.
  rewrite H4, <- Hlen, !u32_small by lia.
  destruct (Z.ltb_spec (Z.of_nat (Buffer.readableBytes b)) (4 + len)) as [|_]; [lia|].
  pose proof (Codec.peek_slice b 4 2 ltac:(lia)) as H2.
  assert (memory (drop 6 (Buffer.peek b)) (len - 2) = Some (take (Z.to_nat len - 2) (drop 6 (Buffer.readable b)))) as Hm.
  { unfold memory, Buffer.readable. rewrite length_drop.
    assert (Buffer.readableBytes b <= length (Buffer.peek b))%nat.
    { destruct Hwf as [H1 H3]. unfold Buffer.readableBytes, Buffer.peek. rewrite length_drop. lia. }
    destruct (Z.leb_spec (len - 2) (Z.of_nat (length (Buffer.peek b) - 6))) as [_|]; [|lia].
    f_equal. rewrite skipn_firstn_comm, take_take, Nat.min_l by lia. f_equal. lia. }
  rewrite H2, Hm, handleFrame_set_in. unfold handle. cbn [fst snd].
  destruct (handleFrame_ok opt (Codec.be_load (take 2 (drop 4 (Buffer.readable b))))
              (take (Z.to_nat len - 2) (drop 6 (Buffer.readable b))) c (with_stats bump_recvd w)) as (c1 & w1 & -> & _).
  change (c_in (set_in b c1)) with b. replace (Z.to_nat (4 + len)) with (4 + Z.to_nat len)%nat by lia.
  by rewrite Hret, set_in_in.
Qed.

Lemma frame_loop_decode fuel opt b c w fs r :
  Buffer.wf b -> (Buffer.readableBytes b <= fuel)%nat -> Codec.decode (Buffer.readable b) = (fs, false, r) ->
  exists b', Buffer.wf b' /\ Buffer.readable b' = r /\
    frame_loop fuel opt (set_in b c) w =
    let (c1, w1) := foldl (handle opt) (c, w) fs in Some (Ok (set_in b' c1, w1)).
Proof.
  revert b c w fs. induction fuel as [|fuel IH]; intros b c w fs Hwf Hf Hd.
  { rewrite Codec.decode_eq, Buffer.length_readable in Hd by done. destruct (Nat.ltb_spec (Buffer.readableBytes b) 4); [|lia].
    injection Hd as <- <-. exists b. split_and!; [done|done|]. simpl. destruct (Nat.ltb_spec (Buffer.readableBytes b) 6); [done|lia]. }
  rewrite Codec.decode_eq, Buffer.length_readable in Hd by done. destruct (Nat.ltb_spec (Buffer.readableBytes b) 4) as [H4|H4].
  { injection Hd as <- <-. exists b. split_and!; [done|done|]. cbn [frame_loop foldl]. change (c_in (set_in b c)) with b.
    destruct (Nat.ltb_spec (Buffer.readableBytes b) 6); [done|lia]. }
  cbn zeta in Hd. set (len := Codec.be_load (take 4 (Buffer.readable b))) in *.
  destruct (Z.ltb_spec len 2), (Z.ltb_spec 65536 len); cbn [orb] in Hd; try discriminate Hd.
  destruct (Nat.ltb_spec (Buffer.readableBytes b) (4 + Z.to_nat len)) as [Hlt|Hge].
  - injection Hd as <- <-. exists b. split_and!; [done|done|]. cbn [frame_loop foldl]. change (c_in (set_in b c)) with b.
    destruct (Nat.ltb_spec (Buffer.readableBytes b) 6); [done|].
    pose proof (Codec.peek_slice b 0 4 ltac:(lia)) as Hp. rewrite !drop_0 in Hp. rewrite Hp. fold len. rewrite u32_small by lia. destruct (Z.ltb_spec (Z.of_nat (Buffer.readableBytes b)) (4 + len)); [done|lia].
  - destruct (frame_loop_frame fuel opt b c w len Hwf eq_refl ltac:(lia) Hge) as (b1 & Hwf1 & Hr1 & ->).
    destruct (Codec.decode (drop (4 + Z.to_nat len) (Buffer.readable b))) as [[fs' s'] r'] eqn:Ed.
    injection Hd as <- -> ->. cbn [foldl]. destruct (handle opt (c, w) _) as [c1 w1]. apply IH; [done| |by rewrite Hr1].
    rewrite <- Buffer.length_readable, Hr1, length_drop, Buffer.length_readable by done. lia.
Qed.

(** The answers of [readv] that let the loop go on. *)
Definition data_of (r : Buffer.read_result) : list byte := match r with Buffer.ReadOk d => d | Buffer.ReadErr _ => [] end.

Definition goes_on (r : Buffer.read_result) : Prop :=
  match r with Buffer.ReadOk d => d <> [] | Buffer.ReadErr e => e = Buffer.EINTR end.

Lemma read_loop_data rs b :
  Buffer.wf b -> Forall goes_on rs ->
  exists b', read_loop rs b = (Drained, b') /\ Buffer.wf b' /\ Buffer.readable b' = Buffer.readable b ++ mjoin (map data_of rs).
Proof.
  intros Hwf Hg. revert b Hwf. induction Hg as [|r rs Hr Hrs IH]; intros b Hwf; [exists b; by rewrite app_nil_r|].
  cbn [read_loop]. pose proof (Buffer.readFd_spec r b Hwf) as Hs. destruct (Buffer.readFd r b) as [[n e] b1].
  destruct Hs as [Hwf1 Hs]. destruct r as [en|d].
  - destruct Hs as (-> & -> & ->). simpl in Hr. subst en. cbn. by apply IH.
  - destruct Hs as (-> & -> & Hr1). simpl in Hr. destruct d as [|x d]; [done|].
    destruct (Z.eqb_spec (Z.of_nat (length (x :: d))) 0); [simpl in *; lia|].
    destruct (Z.ltb_spec (Z.of_nat (length (x :: d))) 0); [lia|].
    destruct (IH b1 Hwf1) as (b' & -> & Hwf' & Hr'). exists b'. split_and!; [done|done|].
    rewrite Hr', Hr1, <- app_assoc. done.
Qed.

(** ** What an operation does to the counters and to the wire *)

Definition stream (ms : list client_msg) : list byte :=
  mjoin (map (fun m => Codec.encode (client_msg_id m) (serialize m)) ms).

Lemma stream_app_bench ms ms' : stream (ms ++ ms') = stream ms ++ stream ms'.
Proof. unfold stream. by rewrite map_app, join_app. Qed.

(** Decided connections, and those decided or still open. *)
Definition counted (w : World K) : nat := established (stats w) + failed (stats w).

Definition connecting (c : Conn) : nat := if bool_decide (state c = kConnecting) then 1 else 0.

(** The bytes of a connection that were given to the kernel or wait in [out]. *)
Definition written (c : Conn) (k : K) : list byte := sent_bytes k (fd c) ++ out c.

(** Nothing is counted, a connection that is not connecting does not become so,
    whole frames are appended to its bytes, other sockets are left alone. *)
Record good (c : Conn) (w : World K) (c' : Conn) (w' : World K) : Prop := mkGood {
  g_counted : counted w' = counted w;
  g_dead : dead (stats w') = dead (stats w);
  g_state : state c <> kConnecting -> state c' <> kConnecting;
  g_fd : fd c' = fd c;
  g_written : exists ms, written c' (kern w') = written c (kern w) ++ stream ms;
  g_other : forall x, x <> fd c -> sent_bytes (kern w') x = sent_bytes (kern w) x;
}.

Context {BL : BenchLaws K}.

Lemma op_quiet c w c' w' :
  counted w' = counted w -> dead (stats w') = dead (stats w) ->
  (state c <> kConnecting -> state c' <> kConnecting) -> fd c' = fd c -> out c' = out c ->
  (forall x, sent_bytes (kern w') x = sent_bytes (kern w) x) -> good c w c' w'.
Proof.
  intros H1 H0 H2 H3 H4 H5. constructor; [done|done|done|done| |done]. exists []. unfold written. by rewrite H3, H4, H5, app_nil_r.
Qed.

Lemma op_refl c w : good c w c w.
Proof. by apply op_quiet. Qed.

Lemma op_trans c w c1 w1 c2 w2 : good c w c1 w1 -> good c1 w1 c2 w2 -> good c w c2 w2.
Proof.
  intros [A1 A0 A2 A3 [ms A4] A5] [B1 B0 B2 B3 [ms' B4] B5]. constructor; [congruence|congruence|auto|congruence| |].
  - exists (ms ++ ms'). by rewrite B4, A4, stream_app_bench, app_assoc.
  - intros x Hx. rewrite B5 by congruence. by apply A5.
Qed.

(** The loops only move bytes from [out] to the wire. *)
Definition moves (c : Conn) (k : K) (c' : Conn) (k' : K) : Prop :=
  fd c' = fd c /\ (state c' = state c \/ state c' = kDead) /\ written c' k' = written c k /\
  forall x, x <> fd c -> sent_bytes k' x = sent_bytes k x.

Lemma moves_wrote c k n k' c' k'' :
  send (fd c) (out c) k = (Wrote n, k') -> moves (set_out (drop n (out c)) c) k' c' k'' -> moves c k c' k''.
Proof.
  intros (Hn & Hw & Ho)%send_wrote (H1 & H2 & H3 & H4). unfold moves, written in *. simpl in *.
  split_and!; [done|done| |intros x Hx; rewrite H4 by done; by apply Ho].
  by rewrite H3, Hw, <- app_assoc, take_drop.
Qed.

Lemma moves_stop c k a k' c' :
  send (fd c) (out c) k = (a, k') -> (forall n, a <> Wrote n) -> c' = c \/ c' = set_state kDead c -> moves c k c' k'.
Proof.
  intros Hs Ha Hc. pose proof (send_nothing _ _ _ _ _ Hs Ha) as Hn. unfold moves, written.
  destruct Hc as [->| ->]; simpl; rewrite Hn; split_and!; auto.
Qed.

Lemma send_loop_moves fuel c k :
  let '(c', k', ok) := send_loop fuel c k in moves c k c' k' /\ (ok = true -> state c' = state c).
Proof.
  revert c k. induction fuel as [|fuel IH]; intros c k; simpl.
  { destruct (out c); by split; [split_and!; auto|]. }
  destruct (out c) as [|x l] eqn:Eo; [by split; [split_and!; auto|]|]. rewrite <- Eo.
  destruct (send (fd c) (out c) k) as [[n| |] k'] eqn:E.
  - specialize (IH (set_out (drop n (out c)) c) k'). destruct (send_loop _ _ _) as [[c' k''] ok].
    destruct IH as [IH1 IH2]. split; [by eapply moves_wrote|done].
  - split; [|done]. eapply moves_stop; [done|by intros|by left].
  - split; [|done]. eapply moves_stop; [done|by intros|by right].
Qed.

Lemma flush_loop_moves fuel c k :
  let '(c', k') := flush_loop fuel c k in moves c k c' k' /\ state c' = state c.
Proof.
  revert c k. induction fuel as [|fuel IH]; intros c k; simpl.
  { destruct (out c); by split; [split_and!; auto|]. }
  destruct (out c) as [|x l] eqn:Eo; [by split; [split_and!; auto|]|]. rewrite <- Eo.
  destruct (send (fd c) (out c) k) as [[n| |] k'] eqn:E.
  - specialize (IH (set_out (drop n (out c)) c) k'). destruct (flush_loop _ _ _) as [c' k''].
    destruct IH as [IH1 IH2]. split; [by eapply moves_wrote|done].
  - split; [|done]. eapply moves_stop; [done|by intros|by left].
  - split; [|done]. eapply moves_stop; [done|by intros|by left].
Qed.

Lemma good_sendMsg c m w : let (c', w') := sendMsg c m w in good c w c' w'.
Proof.
  unfold sendMsg. set (c1 := set_out (out c ++ Codec.encode (client_msg_id m) (serialize m)) c). cbn zeta.
  pose proof (send_loop_moves (length (out c1)) c1 (kern w)) as H.
  destruct (send_loop _ _ _) as [[c2 k2] ok]. destruct H as [(H1 & H2 & H3 & H4) _].
  assert (exists ms, written c2 k2 = written c (kern w) ++ stream ms) as Hw.
  { exists [m]. rewrite H3. unfold written, c1, stream. simpl. by rewrite app_nil_r, app_assoc. }
  assert (state c <> kConnecting -> state c2 <> kConnecting) as Hs by (destruct H2 as [->| ->]; done).
  destruct ok; by constructor.
Qed.

Lemma op_flush c w : let (c', w') := flush c w in good c w c' w'.
Proof.
  unfold flush. pose proof (flush_loop_moves (length (out c)) c (kern w)) as H.
  destruct (flush_loop _ _ _) as [c1 k1]. destruct H as [(H1 & H2 & H3 & H4) H5].
  constructor; [done|done|by rewrite H5|done| |done]. exists []. by rewrite app_nil_r.
Qed.

Lemma good_handleFrame opt id d c w c' w' : handleFrame opt id d c w = Ok (c', w') -> good c w c' w'.
Proof.
  unfold handleFrame. intros H. destruct (id =? MsgId.kLoginResp).
  { destruct d as [bs|]; [|done]. destruct (parse_LoginResp bs) as [[[code p] tok]|]; [|inv H; apply op_refl].
    destruct (negb _); [inv H; apply op_refl|]. destruct (battle opt).
    - pose proof (good_sendMsg (set_playerId p c) (MMatchReq p) w) as Hg. destruct (sendMsg _ _ _) as [c2 w2]. inv H.
      eapply op_trans; [|eapply op_trans; [exact Hg|]]; by apply op_quiet.
    - inv H. by apply op_quiet. }
  destruct (id =? MsgId.kHeartbeat).
  { destruct d as [bs|]; [|done]. destruct (parse_Heartbeat bs) as [t|]; [|inv H; apply op_refl].
    pose proof (now_nothing (kern w)) as Hn. destruct (nowMs (kern w)) as [now k']. inv H. by apply op_quiet. }
  destruct (id =? MsgId.kEnterRoom); [inv H; by apply op_quiet|].
  destruct (id =? MsgId.kStateSnapshot); [|inv H; apply op_refl].
  destruct (pendingSeq c =? 0); [inv H; apply op_refl|]. destruct d as [bs|]; [|done].
  destruct (parse_StateSnapshot bs) as [snap|]; [|inv H; apply op_refl].
  destruct (existsb _ _); [|inv H; apply op_refl].
  pose proof (now_nothing (kern w)) as Hn. destruct (nowMs (kern w)) as [now k']. inv H. by apply op_quiet.
Qed.

Lemma good_frame_loop fuel opt c w c' w' : frame_loop fuel opt c w = Some (Ok (c', w')) -> good c w c' w'.
Proof.
  revert c w. induction fuel as [|fuel IH]; intros c w; cbn [frame_loop]; cbn zeta;
    (destruct (_ <? 6)%nat; [intros [= <- <-]; apply op_refl|]);
    (destruct (_ <? _); [intros [= <- <-]; apply op_refl|]); [done|].
  destruct (handleFrame _ _ _ _ _) as [[c1 w1]|] eqn:E; [|done]. apply good_handleFrame in E.
  destruct (Buffer.retrieve _ _) as [b1|]; [|done]. intros H%IH.
  eapply op_trans; [|eapply op_trans; [exact E|eapply op_trans; [|exact H]]]; by apply op_quiet.
Qed.

Lemma good_onReadable opt rs c w c' w' : onReadable opt rs c w = Some (Ok (c', w')) -> good c w c' w'.
Proof.
  unfold onReadable. destruct (read_loop rs (c_in c)) as [[] b]; [|intros [= <- <-]; by apply op_quiet].
  intros H%good_frame_loop. eapply op_trans; [|exact H]. by apply op_quiet.
Qed.

(** A socket that is still connecting becomes readable only together with
    writable. *)
Definition plausible (ev : event) (c : Conn) : Prop := state c = kConnecting -> ev_in ev = true -> ev_out ev = true.

(** As [good], with the connection counted when its connect has ended. *)
Record handled (p : Prop) (c : Conn) (w : World K) (c' : Conn) (w' : World K) : Prop := mkHandled {
  h_counted : p -> (counted w' + connecting c' = counted w + connecting c)%nat;
  h_dead : dead (stats w') = dead (stats w);
  h_fd : fd c' = fd c;
  h_written : exists ms, written c' (kern w') = written c (kern w) ++ stream ms;
  h_other : forall x, x <> fd c -> sent_bytes (kern w') x = sent_bytes (kern w) x;
}.

Lemma connecting_no c : state c <> kConnecting -> connecting c = 0%nat.
Proof. intros H. unfold connecting. by rewrite bool_decide_eq_false_2. Qed.

Lemma good_handled p c w c' w' : good c w c' w' -> (p -> state c <> kConnecting \/ c' = c) -> handled p c w c' w'.
Proof.
  intros [H1 H0 H2 H3 H4 H5] Hp. constructor; [|done|done|done|done]. intros [Hs| ->]%Hp; [|by rewrite H1].
  rewrite H1, !connecting_no by auto. done.
Qed.

Lemma ev_trans (p : Prop) c w c1 w1 c2 w2 : handled p c w c1 w1 -> handled p c1 w1 c2 w2 -> handled p c w c2 w2.
Proof.
  intros [A1 A0 A2 [ms A4] A5] [B1 B0 B2 [ms' B4] B5].
  constructor; [intros Hp; rewrite B1, A1 by done; done|congruence|congruence| |].
  - exists (ms ++ ms'). by rewrite B4, A4, stream_app_bench, app_assoc.
  - intros x Hx. rewrite B5 by congruence. by apply A5.
Qed.

Lemma on_connected_handled tid i ev stg c w d stg' c' w' (p : Prop) :
  on_connected tid i ev stg c w = (d, stg', c', w') ->
  handled p c w c' w' /\ (state c = kConnecting -> ev_out ev = true -> state c' <> kConnecting) /\
  (state c <> kConnecting -> state c' <> kConnecting) /\ (ev_out ev = false -> c' = c).
Proof.
  unfold on_connected. case_bool_decide as Hs; cbn [andb]; [|intros [= <- <- <- <-]; split_and!; [|done..]].
  2: { apply good_handled; [apply op_refl|by right]. }
  destruct (ev_out ev); [|intros [= <- <- <- <-]; split_and!; [|done..]; apply good_handled; [apply op_refl|by right]].
  destruct (negb _).
  - intros [= <- <- <- <-]. split_and!; [|done..]. constructor; [|done|done| |done].
    + intros _. unfold counted, connecting. simpl. rewrite Hs. simpl. lia.
    + exists []. by rewrite app_nil_r.
  - pose proof (good_sendMsg (set_state kWaitLogin c) (MLoginReq (account tid i)) (with_stats bump_established w)) as Hg.
    destruct (sendMsg _ _ _) as [c1 w1]. pose proof (now_nothing (kern w1)) as Hn.
    destruct (nowMs (kern w1)) as [now k2]. intros [= <- <- <- <-]. destruct Hg as [G1 G0 G2 G3 [ms G4] G5]. simpl in *.
    split_and!; [|intros; by apply G2|intros; by apply G2|done]. constructor; simpl.
    + intros _. rewrite (connecting_no (set_nextHb _ c1)) by (simpl; by apply G2).
      unfold counted in *. simpl in *. unfold connecting. rewrite Hs. simpl. lia.
    + done.
    + done.
    + exists ms. unfold written in *. simpl in *. by rewrite Hn, G4.
    + intros x Hx. rewrite Hn. by apply G5.
Qed.

Lemma on_event_handled opt tid i ev stg c w stg' c' w' :
  on_event opt tid i ev stg c w = Some (Ok (stg', c', w')) -> handled (plausible ev c) c w c' w'.
Proof.
  unfold on_event. case_bool_decide as Hd; [intros [= <- <- <-]; apply good_handled; [apply op_refl|by right]|].
  destruct (on_connected tid i ev stg c w) as [[[d stg1] c1] w1] eqn:E.
  apply (on_connected_handled _ _ _ _ _ _ _ _ _ _ (plausible ev c)) in E as (H1 & H2 & H3 & H4).
  destruct d; [by intros [= <- <- <-]|].
  destruct (if ev_in ev then onReadable opt (reads ev) c1 w1 else Some (Ok (c1, w1))) as [[[c2 w2]|]|] eqn:Er; [|done|done].
  assert (handled (plausible ev c) c1 w1 c2 w2 /\ (state c1 <> kConnecting -> state c2 <> kConnecting)) as [Hr Hs2].
  { destruct (ev_in ev) eqn:Ei; [|injection Er as <- <-; split; [|done]; apply good_handled; [apply op_refl|by right]].
    apply good_onReadable in Er. split; [|apply (g_state _ _ _ _ Er)]. apply good_handled; [done|]. intros Hp. left.
    destruct (decide (state c = kConnecting)) as [Hc|Hc]; [by apply H2, Hp|by apply H3]. }
  unfold on_writable. case_bool_decide as Hd2; cbn [negb andb]; [intros [= <- <- <-]; by eapply ev_trans|].
  case_bool_decide as Hc2; cbn [negb andb]; [intros [= <- <- <-]; by eapply ev_trans|].
  destruct (ev_out ev && negb (is_nil (out c2))); [|intros [= <- <- <-]; by eapply ev_trans].
  pose proof (op_flush c2 w2) as Hf. destruct (flush c2 w2) as [c3 w3]. intros [= <- <- <-].
  eapply ev_trans; [exact H1|]. eapply ev_trans; [exact Hr|]. apply good_handled; [done|by left].
Qed.

Lemma tick_conn_handled now c w : let (c', w') := tick_conn now c w in handled True c w c' w'.
Proof.
  assert (state c <> kConnecting -> let (c', w') := (let (c1, w1) := heartbeat now c w in input now c1 w1) in handled True c w c' w').
  { intros Hc. assert (let (c1, w1) := heartbeat now c w in good c w c1 w1) as Hh.
    { unfold heartbeat. destruct (_ <=? _); [|apply op_refl].
      pose proof (good_sendMsg (set_nextHb (u64 (now + 2000)) c) (MHeartbeatReq now) w) as Hg.
      destruct (sendMsg _ _ _). eapply op_trans; [|exact Hg]. by apply op_quiet. }
    destruct (heartbeat now c w) as [c1 w1].
    assert (let (c2, w2) := input now c1 w1 in good c1 w1 c2 w2) as Hi.
    { unfold input. destruct (_ && _); [|apply op_refl].
      pose proof (good_sendMsg (set_input (u64 (now + 100)) (u32 (seq c1 + 1)) c1) (MPlayerInput (cruise now c1)) w1) as Hg.
      destruct (sendMsg _ _ _) as [c2 w2]. eapply op_trans; [by apply (op_quiet _ w1 (set_input (u64 (now + 100)) (u32 (seq c1 + 1)) c1) w1)|].
      eapply op_trans; [exact Hg|]. destruct (pendingSeq c2 =? 0); [by apply op_quiet|apply op_refl]. }
    destruct (input now c1 w1) as [c2 w2]. apply good_handled; [by eapply op_trans|by left]. }
  unfold tick_conn. destruct (state c) eqn:E; try (by apply H); apply good_handled; try apply op_refl; by right.
Qed.

(** ** The connections of a worker *)

(** The invariant of a worker: every connection is counted exactly once when its
    connect has ended, sockets are distinct, and the bytes of a socket are whole
    frames. *)
Record WInv (cs : list Conn) (w : World K) : Prop := mkWInv {
  W_counted : (counted w + sum_list_with connecting cs = length cs)%nat;
  W_dead : dead (stats w) = 0%nat;
  W_fds : forall i j ci cj, cs !! i = Some ci -> cs !! j = Some cj -> fd ci = fd cj -> i = j \/ fd ci = -1;
  W_framed : forall i c, cs !! i = Some c -> fd c <> -1 -> exists ms, written c (kern w) = stream ms;
  W_closed : forall i c, cs !! i = Some c -> fd c = -1 -> state c = kDead;
}.

Lemma sum_connecting_insert cs i c c' :
  cs !! i = Some c ->
  (sum_list_with connecting (<[i := c']> cs) + connecting c = sum_list_with connecting cs + connecting c')%nat.
Proof.
  revert i. induction cs as [|x cs IH]; intros [|i] Hi; simpl in *; [done|done|injection Hi as ->; lia|].
  specialize (IH i Hi). lia.
Qed.

Lemma WInv_handled (p : Prop) cs w i c c' w' :
  WInv cs w -> cs !! i = Some c -> handled p c w c' w' -> p -> (fd c = -1 -> c' = c /\ w' = w) -> WInv (<[i := c']> cs) w'.
Proof.
  intros [W1 W0 W2 W3 W4] Hi [H1 H0 H2 [ms H3] H4] Hp Hcl. pose proof (lookup_lt_Some _ _ _ Hi) as Hlt.
  assert (forall j cj, <[i := c']> cs !! j = Some cj -> exists cj0, cs !! j = Some cj0 /\ fd cj0 = fd cj /\
            (j = i /\ cj = c' \/ j <> i /\ cj0 = cj)) as Hold.
  { intros j cj Hj. destruct (decide (j = i)) as [->|Hne].
    - rewrite list_lookup_insert_eq in Hj by done. injection Hj as <-. exists c. split_and!; [done|done|by left].
    - rewrite list_lookup_insert_ne in Hj by done. exists cj. split_and!; [done|done|by right]. }
  constructor.
  - pose proof (sum_connecting_insert cs i c c' Hi). specialize (H1 Hp). rewrite length_insert. lia.
  - congruence.
  - intros a b ca cb Ha Hb Hf. destruct (Hold _ _ Ha) as (ca0 & Ha0 & Hfa & _), (Hold _ _ Hb) as (cb0 & Hb0 & Hfb & _).
    rewrite <- Hfa, <- Hfb in Hf. destruct (W2 _ _ _ _ Ha0 Hb0 Hf) as [->|Hm]; [by left|right; congruence].
  - intros j cj Hj Hf. destruct (Hold _ _ Hj) as (cj0 & Hj0 & Hfd & [[-> ->]|[Hne ->]]).
    + rewrite H2 in Hf. destruct (W3 _ _ Hi Hf) as [ms0 Hms]. exists (ms0 ++ ms). by rewrite H3, Hms, stream_app_bench.
    + destruct (W3 _ _ Hj0 Hf) as [ms0 Hms]. exists ms0. rewrite <- Hms. unfold written. rewrite H4; [done|].
      intros Heq. destruct (W2 _ _ _ _ Hj0 Hi Heq) as [->|]; done.
  - intros j cj Hj Hf. destruct (Hold _ _ Hj) as (cj0 & Hj0 & Hfd & [[-> ->]|[Hne ->]]); [|by apply (W4 _ _ Hj0)].
    rewrite H2 in Hf. destruct (Hcl Hf) as [-> _]. by apply (W4 _ _ Hi).
Qed.

(** Every event of a batch is plausible when it is handled. *)
Fixpoint plausible_events (opt : Options) (tid : Z) (evs : list (nat * event)) (stg : Z) (cs : list Conn) (w : World K) : Prop :=
  match evs with
  | [] => True
  | (i, ev) :: evs' =>
      match cs !! i with
      | None => True
      | Some c =>
          plausible ev c /\
          match on_event opt tid i ev stg c w with
          | Some (Ok (stg1, c1, w1)) => plausible_events opt tid evs' stg1 (<[i := c1]> cs) w1
          | _ => True
          end
      end
  end.

Lemma on_event_dead opt tid i ev stg c w : state c = kDead -> on_event opt tid i ev stg c w = Some (Ok (stg, c, w)).
Proof. intros H. unfold on_event. by rewrite bool_decide_eq_true_2. Qed.

Lemma WInv_events opt tid evs stg cs w stg' cs' w' :
  WInv cs w -> plausible_events opt tid evs stg cs w ->
  handle_events opt tid evs stg cs w = Some (Ok (stg', cs', w')) -> WInv cs' w' /\ length cs' = length cs.
Proof.
  revert stg cs w. induction evs as [|[i ev] evs IH]; intros stg cs w HW Hp; cbn [handle_events].
  { by intros [= <- <- <-]. }
  cbn [plausible_events] in Hp. destruct (cs !! i) as [c|] eqn:Ei; [|done]. destruct Hp as [Hp Hps].
  destruct (on_event opt tid i ev stg c w) as [[[[stg1 c1] w1]|]|] eqn:E; [|done|done]. intros H.
  destruct (IH stg1 (<[i := c1]> cs) w1) as [IH1 IH2]; [|done|done|rewrite length_insert in IH2; done].
  eapply WInv_handled; [done|done|by eapply on_event_handled|done|]. intros Hf.
  rewrite (on_event_dead _ _ _ _ _ _ _ (W_closed _ _ HW _ _ Ei Hf)) in E. by injection E as _ <- <-.
Qed.

Lemma tick_conn_dead now c w : state c = kDead -> tick_conn now c w = (c, w).
Proof. intros H. unfold tick_conn. by rewrite H. Qed.

Lemma WInv_tick now pre cs w :
  WInv (pre ++ cs) w -> let (cs', w') := tick_all now cs w in WInv (pre ++ cs') w' /\ length cs' = length cs.
Proof.
  revert pre w. induction cs as [|c cs IH]; intros pre w HW; [done|]. cbn [tick_all].
  pose proof (tick_conn_handled now c w) as Hh. pose proof (tick_conn_dead now c w) as Hd.
  destruct (tick_conn now c w) as [c1 w1].
  assert ((pre ++ c :: cs) !! length pre = Some c) as Hi by (by rewrite lookup_app_r, Nat.sub_diag by lia).
  assert (WInv ((pre ++ [c1]) ++ cs) w1) as HW1.
  { rewrite <- app_assoc. simpl.
    replace (pre ++ c1 :: cs) with (<[length pre := c1]> (pre ++ c :: cs))
      by (rewrite insert_app_r_alt, Nat.sub_diag by lia; done).
    eapply (WInv_handled True); [done|done|exact Hh|done|].
    intros Hf. pose proof (Hd (W_closed _ _ HW _ _ Hi Hf)) as [= -> ->]. done. }
  specialize (IH (pre ++ [c1]) w1 HW1). destruct (tick_all now cs w1) as [cs2 w2]. rewrite <- app_assoc in IH. simpl in IH.
  split; [apply IH|simpl; f_equal; apply IH].
Qed.

(** The turns of a worker. *)
Inductive wrun (opt : Options) (tid : Z) : Z -> list Conn -> World K -> list Conn -> World K -> Prop :=
  | wrun_nil stg cs w : wrun opt tid stg cs w cs w
  | wrun_turn stg cs w evs stg1 cs1 w1 cs2 w2 :
      plausible_events opt tid evs stg cs w -> turn opt tid evs stg cs w = Some (Ok (stg1, cs1, w1)) ->
      wrun opt tid stg1 cs1 w1 cs2 w2 -> wrun opt tid stg cs w cs2 w2.

Lemma WInv_same cs w w' :
  WInv cs w -> counted w' = counted w -> dead (stats w') = dead (stats w) -> (forall x, sent_bytes (kern w') x = sent_bytes (kern w) x) -> WInv cs w'.
Proof.
  intros [W1 W0 W2 W3 W4] Hc Hd Hk. constructor; [by rewrite Hc|congruence|done| |done]. intros i c Hi Hf.
  destruct (W3 i c Hi Hf) as [ms Hms]. exists ms. rewrite <- Hms. unfold written. by rewrite Hk.
Qed.

Lemma WInv_turn opt tid evs stg cs w stg' cs' w' :
  WInv cs w -> plausible_events opt tid evs stg cs w -> turn opt tid evs stg cs w = Some (Ok (stg', cs', w')) ->
  WInv cs' w' /\ length cs' = length cs.
Proof.
  intros HW Hp. unfold turn. destruct (handle_events opt tid evs stg cs w) as [[[[stg1 cs1] w1]|]|] eqn:E; [|done|done].
  destruct (WInv_events _ _ _ _ _ _ _ _ _ HW Hp E) as [HW1 Hl1].
  pose proof (now_nothing (kern w1)) as Hn. destruct (nowMs (kern w1)) as [now k2].
  pose proof (WInv_tick now [] cs1 (with_kern k2 w1) (WInv_same cs1 w1 (with_kern k2 w1) HW1 eq_refl eq_refl Hn)) as Ht. simpl in Ht.
  destruct (tick_all now cs1 (with_kern k2 w1)) as [cs2 w2]. intros [= <- <- <-]. destruct Ht as [Ht1 Ht2]. by rewrite Ht2.
Qed.

Lemma WInv_run opt tid stg cs w cs' w' : wrun opt tid stg cs w cs' w' -> WInv cs w -> WInv cs' w' /\ length cs' = length cs.
Proof.
  induction 1 as [|stg cs w evs stg1 cs1 w1 cs2 w2 Hp Ht _ IH]; intros HW; [done|].
  destruct (WInv_turn _ _ _ _ _ _ _ _ _ HW Hp Ht) as [HW1 Hl]. destruct (IH HW1) as [HW2 Hl2]. by rewrite Hl2, Hl.
Qed.

(** *** The ramp-up *)

(** The descriptors the kernel gave out. *)
Definition opened (ans : list connect_answer) : list Z :=
  omap (fun a => match a with Pending x => Some x | _ => None end) ans.

Lemma connect_all_spec ans w :
  let (cs, w') := connect_all ans w in
  kern w' = kern w /\ length cs = length ans /\ dead (stats w') = dead (stats w) /\
  (counted w' + sum_list_with connecting cs = counted w + length ans)%nat /\
  (forall i c, cs !! i = Some c -> out c = [] /\ (fd c = -1 /\ state c = kDead \/ ans !! i = Some (Pending (fd c)))).
Proof.
  revert w. induction ans as [|a ans IH]; intros w; cbn [connect_all]; [split_and!; done|].
  destruct (connect_one a new_conn w) as [c w1] eqn:E. specialize (IH w1). destruct (connect_all ans w1) as [cs w2].
  destruct IH as (H1 & H2 & H0 & H3 & H4).
  assert (kern w1 = kern w /\ dead (stats w1) = dead (stats w) /\ (counted w1 + connecting c = S (counted w))%nat /\ out c = [] /\
          (fd c = -1 /\ state c = kDead \/ a = Pending (fd c))) as (E1 & E0 & E2 & E3 & E4).
  { destruct a; inv E; unfold counted, connecting; simpl; split_and!; try done; try lia; [by left|by left|by right]. }
  split_and!; [congruence|simpl; lia|congruence|simpl; lia|]. intros [|i] c'; simpl; [|apply H4]. intros [= <-].
  split; [done|]. destruct E4 as [| ->]; [by left|by right].
Qed.

Lemma opened_inj ans i j x :
  NoDup (opened ans) -> ans !! i = Some (Pending x) -> ans !! j = Some (Pending x) -> i = j.
Proof.
  assert (forall ans j, ans !! j = Some (Pending x) -> x ∈ opened ans) as Hin.
  { clear. intros ans j H. apply list_elem_of_omap. exists (Pending x). split; [by eapply list_elem_of_lookup_2|done]. }
  revert i j. induction ans as [|a ans IH]; intros i j Hnd Hi Hj; [done|].
  destruct i as [|i], j as [|j]; simpl in Hi, Hj; [done| | |].
  - injection Hi as ->. apply NoDup_cons in Hnd as [Hx _]. destruct Hx. by eapply Hin.
  - injection Hj as ->. apply NoDup_cons in Hnd as [Hx _]. destruct Hx. by eapply Hin.
  - f_equal. apply IH; [|done|done]. destruct a; simpl in Hnd; [done|done|by apply NoDup_cons in Hnd as [_ ?]].
Qed.

Lemma WInv_start ans (k : K) :
  NoDup (opened ans) -> Forall (fun x => x <> -1 /\ sent_bytes k x = []) (opened ans) ->
  let (cs, w) := connect_all ans (mkWorld k no_stats []) in WInv cs w /\ length cs = length ans.
Proof.
  intros Hnd Hk. pose proof (connect_all_spec ans (mkWorld k no_stats [])) as H.
  destruct (connect_all ans _) as [cs w]. destruct H as (H1 & H2 & H0 & H3 & H4). simpl in H1. split; [|done].
  assert (forall i c, cs !! i = Some c -> fd c <> -1 -> ans !! i = Some (Pending (fd c)) /\ fd c ∈ opened ans) as Hp.
  { intros i c Hi Hf. destruct (H4 i c Hi) as [_ [[? _]|Ha]]; [done|]. split; [done|]. apply list_elem_of_omap.
    exists (Pending (fd c)). split; [by eapply list_elem_of_lookup_2|done]. }
  constructor.
  - rewrite H3, H2. unfold counted. simpl. done.
  - done.
  - intros i j ci cj Hi Hj Hf. destruct (decide (fd ci = -1)) as [|Hne]; [by right|left].
    destruct (Hp i ci Hi Hne) as [Ha _], (Hp j cj Hj) as [Hb _]; [congruence|]. rewrite <- Hf in Hb. by eapply opened_inj.
  - intros i c Hi Hf. exists []. destruct (H4 i c Hi) as [Ho _]. destruct (Hp i c Hi Hf) as [_ Hin].
    rewrite Forall_forall in Hk. destruct (Hk _ Hin) as [_ Hs]. unfold written. by rewrite H1, Ho, Hs.
  - intros i c Hi Hf. destruct (H4 i c Hi) as [_ [[_ ?]|Ha]]; [done|]. exfalso. rewrite Forall_forall in Hk.
    destruct (Hk (fd c)) as [? _]; [|done]. apply list_elem_of_omap. exists (Pending (fd c)).
    split; [by eapply list_elem_of_lookup_2|done].
Qed.

(** *** All workers *)

(** What a worker was given, and what it ended with: the answers to its connects,
    its connections and its world. *)
Record worker : Type := mkWorker {
  w_ans : list connect_answer;
  w_conns : list Conn;
  w_world : World K;
}.

(** A complete run of worker [tid]. *)
Definition worked (opt : Options) (tid : nat) (x : worker) : Prop :=
  Z.of_nat (length (w_ans x)) = share opt (Z.of_nat tid) /\ NoDup (opened (w_ans x)) /\
  exists k, Forall (fun y => y <> -1 /\ sent_bytes k y = []) (opened (w_ans x)) /\
    let (cs, w) := connect_all (w_ans x) (mkWorld k no_stats []) in wrun opt (Z.of_nat tid) 0 cs w (w_conns x) (w_world x).

(** The statistics a worker adds to the total at its end. *)
Definition final_stats (x : worker) : Stats := count_dead (w_conns x) (stats (w_world x)).

Definition total (ws : list worker) : Stats := foldl add_stats no_stats (map final_stats ws).

Lemma count_dead_spec cs s :
  established (count_dead cs s) = established s /\ failed (count_dead cs s) = failed s /\
  dead (count_dead cs s) = (dead s + length (filter (fun c => state c = kDead) cs))%nat.
Proof.
  revert s. induction cs as [|c cs IH]; intros s; [simpl; split_and!; lia|]. unfold count_dead in *. cbn [foldl].
  destruct (IH (if bool_decide (state c = kDead) then bump_dead s else s)) as (-> & -> & ->).
  rewrite filter_cons. case_bool_decide; [rewrite decide_True by done|rewrite decide_False by done]; simpl; split_and!; lia.
Qed.

Lemma total_sums (f : Stats -> nat) ws :
  f no_stats = 0%nat -> (forall a b, f (add_stats a b) = f a + f b)%nat ->
  f (total ws) = sum_list_with (fun x => f (final_stats x)) ws.
Proof.
  intros H0 Ha. unfold total.
  assert (forall s, f (foldl add_stats s (map final_stats ws)) = f s + sum_list_with (fun x => f (final_stats x)) ws)%nat as H.
  { induction ws as [|x ws IH]; intros s; [simpl; lia|]. cbn [map foldl sum_list_with]. rewrite IH, Ha. lia. }
  rewrite H, H0. done.
Qed.

Lemma share_sum opt n :
  0 <= conns opt -> 0 < threads opt ->
  foldr Z.add 0 (map (fun t => share opt (Z.of_nat t)) (List.seq 0 n)) =
  Z.of_nat n * (conns opt / threads opt) + Z.min (Z.of_nat n) (conns opt mod threads opt).
Proof.
  intros Hc Ht. pose proof (Z.mod_pos_bound (conns opt) (threads opt) Ht).
  assert (forall l z, foldr Z.add z l = foldr Z.add 0 l + z) as Hz by (intros l z; induction l; simpl; lia).
  induction n as [|n IH]; [simpl; lia|]. rewrite seq_S, map_app, foldr_app. cbn [map foldr].
  rewrite Hz, IH. unfold share. rewrite Z.quot_div_nonneg, Z.rem_mod_nonneg by lia. simpl (0 + n)%nat.
  destruct (Z.ltb_spec (Z.of_nat n) (conns opt mod threads opt)); lia.
Qed.

Lemma worked_counts opt tid x :
  worked opt tid x ->
  Z.of_nat (established (final_stats x) + failed (final_stats x) + sum_list_with connecting (w_conns x)) = share opt (Z.of_nat tid) /\
  dead (final_stats x) = length (filter (fun c => state c = kDead) (w_conns x)).
Proof.
  intros (Hl & Hnd & k & Hk & Hr). pose proof (WInv_start (w_ans x) k Hnd Hk) as Hs.
  destruct (connect_all (w_ans x) _) as [cs w]. destruct Hs as [HW Hlc].
  destruct (WInv_run _ _ _ _ _ _ _ Hr HW) as [HW' Hl']. pose proof (W_counted _ _ HW') as Hc.
  unfold final_stats. destruct (count_dead_spec (w_conns x) (stats (w_world x))) as (-> & -> & ->).
  rewrite (W_dead _ _ HW'). unfold counted in Hc. rewrite <- Hl. split; [f_equal; lia|done].
Qed.

Lemma workers_count opt ws :
  (forall tid x, ws !! tid = Some x -> worked opt tid x) ->
  Z.of_nat (sum_list_with (fun x => established (final_stats x) + failed (final_stats x) + sum_list_with connecting (w_conns x))%nat ws)
  = foldr Z.add 0 (map (fun t => share opt (Z.of_nat t)) (List.seq 0 (length ws))).
Proof.
  assert (forall l z, foldr Z.add z l = foldr Z.add 0 l + z) as Hz by (intros l z; induction l; simpl; lia).
  induction ws as [|x ws IH] using rev_ind; intros Hw; [done|].
  rewrite sum_list_with_app, length_app, Nat.add_1_r, seq_S, map_app, foldr_app. cbn [map foldr sum_list_with].
  rewrite Hz, <- IH, Nat2Z.inj_add, Nat.add_0_r.
  - rewrite (proj1 (worked_counts opt (length ws) x ltac:(apply Hw; by rewrite lookup_app_r, Nat.sub_diag by lia))).
    simpl (0 + length ws)%nat. lia.
  - intros tid y Hy. apply Hw. by apply lookup_app_l_Some.
Qed.

Lemma sum_split ws :
  sum_list_with (fun x => established (final_stats x) + failed (final_stats x) + sum_list_with connecting (w_conns x))%nat ws =
  (sum_list_with (fun x => established (final_stats x)) ws + sum_list_with (fun x => failed (final_stats x)) ws +
   sum_list_with (fun x => sum_list_with connecting (w_conns x)) ws)%nat.
Proof. induction ws; simpl; lia. Qed.

End Worker.

(** ** Theorems *)

(** C37: The benchmark reads the stream as the server's codec writes it. On any
    event whose reads bring data (in pieces of any size, with interruptions),
    if what is buffered and what arrived parses without an illegal frame, the
    client handles exactly the frames the codec's reference parser finds, in
    order, stays within its buffer, keeps the incomplete rest, and its loop
    ends. *)
Theorem bench_frames_are_the_codecs {K} `{BenchLaws K} `{BenchProtobuf} opt rs c (w : World K) fs r
    (Hwf : Buffer.wf (c_in c)) (Hrs : Forall goes_on rs)
    (Hdec : Codec.decode (Buffer.readable (c_in c) ++ mjoin (map data_of rs)) = (fs, false, r)) :
  exists b, Buffer.wf b /\ Buffer.readable b = r /\
    onReadable opt rs c w = let (c', w') := foldl (handle opt) (c, w) fs in Some (Ok (set_in b c', w')).
Proof.
  destruct (read_loop_data rs (c_in c) Hwf Hrs) as (b1 & Hr1 & Hwf1 & Hrd1). rewrite <- Hrd1 in Hdec.
  destruct (frame_loop_decode (Buffer.readableBytes b1) opt b1 c w fs r Hwf1 (le_n _) Hdec) as (b & Hwf' & Hrd & E).
  exists b. split_and!; [done|done|]. unfold onReadable. by rewrite Hr1.
Qed.

(** The summary accounts for every connection. When [threads] workers have
    run, on any events (a connecting socket becomes readable only together with
    writable), [established] and [failed] of the summary and the connections
    still connecting add up to [conns], and [dead] is the number of connections
    that ended dead: none is lost or counted twice, and the workers' shares
    divide [conns] without rest. *)
Theorem bench_counts_every_connection {K} `{BenchLaws K} `{BenchProtobuf} opt (ws : list (worker (K := K)))
    (Hconns : 0 <= conns opt) (Hthreads : 0 < threads opt) (Hlen : Z.of_nat (length ws) = threads opt)
    (Hws : forall tid x, ws !! tid = Some x -> worked opt tid x) :
  Z.of_nat (established (total ws) + failed (total ws) + sum_list_with (fun x => sum_list_with connecting (w_conns x)) ws)
    = conns opt /\
  dead (total ws) = sum_list_with (fun x => length (filter (fun c => state c = kDead) (w_conns x))) ws.
Proof.
  split.
  - rewrite (total_sums established ws eq_refl (fun _ _ => eq_refl)), (total_sums failed ws eq_refl (fun _ _ => eq_refl)), <- sum_split.
    rewrite (workers_count opt ws Hws), share_sum, Hlen by done.
    pose proof (Z.mod_pos_bound (conns opt) (threads opt) Hthreads).
    rewrite Z.min_r by lia. pose proof (Z.div_mod (conns opt) (threads opt)). lia.
  - rewrite (total_sums dead ws eq_refl (fun _ _ => eq_refl)). clear Hlen.
    induction ws as [|x ws IH] using rev_ind; [done|]. rewrite !sum_list_with_app, IH.
    + simpl. f_equal. f_equal. apply (worked_counts opt (length ws)), Hws. by rewrite lookup_app_r, Nat.sub_diag by lia.
    + intros tid y Hy. by apply Hws, lookup_app_l_Some.
Qed.

(** What a connection has written is whole frames. In every run of a worker,
    whatever [send] takes or refuses, the bytes the kernel has taken on a socket
    and those that still wait are together the encodings of messages, one after
    the other: nothing is lost, repeated or interleaved by partial writes. *)
Theorem bench_writes_whole_frames {K} `{BenchLaws K} `{BenchProtobuf} opt tid ans (k : K) cs w cs' w' i c
    (Hnd : NoDup (opened ans)) (Hk : Forall (fun x => x <> -1 /\ sent_bytes k x = []) (opened ans))
    (Hstart : connect_all ans (mkWorld k no_stats []) = (cs, w))
    (Hrun : wrun opt tid 0 cs w cs' w') (Hi : cs' !! i = Some c) (Hfd : fd c <> -1) :
  exists ms, sent_bytes (kern w') (fd c) ++ out c = stream ms.
Proof.
  pose proof (WInv_start ans k Hnd Hk) as Hs. rewrite Hstart in Hs. destruct Hs as [HW _].
  destruct (WInv_run _ _ _ _ _ _ _ Hrun HW) as [HW' _]. by apply (W_framed _ _ HW' i).
Qed.

(** ** Deviations *)

(** A failed send is forgotten: when the match request after a login cannot be
    sent, [sendMsg] declares the connection dead and [handleFrame] revives it as
    matching, so that it is neither counted as dead nor used. *)
Theorem failed_send_is_forgotten {K} `{BenchKernel K} `{BenchProtobuf} opt bs p tok c (w : World K) k'
    (Hbattle : battle opt = true) (Hlogin : parse_LoginResp bs = Some (0, p, tok)) (Hout : out c = [])
    (Hsend : send (fd c) (Codec.encode MsgId.kMatchReq (serialize (MMatchReq p))) (kern w) = (SendFailed, k')) :
  state (fst (sendMsg (set_playerId p c) (MMatchReq p) w)) = kDead /\
  exists c1 w1, handleFrame opt MsgId.kLoginResp (Some bs) c w = Ok (c1, w1) /\ state c1 = kMatching.
Proof.
  assert (exists c2 w2, sendMsg (set_playerId p c) (MMatchReq p) w = (c2, w2) /\ state c2 = kDead) as (c2 & w2 & E & Hs).
  { unfold sendMsg. cbn zeta. change (out (set_playerId p c)) with (out c). rewrite Hout. cbn [app client_msg_id].
    destruct (Codec.encode MsgId.kMatchReq (serialize (MMatchReq p))) as [|x l] eqn:El; [done|].
    cbn [out set_out length send_loop]. change (fd (set_out _ _)) with (fd c). rewrite Hsend. eauto. }
  rewrite E. split; [done|]. unfold handleFrame. rewrite Z.eqb_refl, Hlogin. cbn [Z.eqb negb]. rewrite Hbattle, E. eauto.
Qed.

(** The length field is not checked. A frame whose length is [2^32 - 4] makes
    [4 + len] zero: the loop handles it, removes nothing, and never ends. *)
Theorem wrapped_length_never_ends {K} `{BenchKernel K} `{BenchProtobuf} opt fuel c (w : World K)
    (Hwf : Buffer.wf (c_in c)) (Hlen : (6 <= Buffer.readableBytes (c_in c))%nat)
    (Hlong : take 4 (Buffer.peek (c_in c)) = [xff; xff; xff; xfc])
    (Hid : take 2 (drop 4 (Buffer.peek (c_in c))) = [x00; x63]) :
  frame_loop fuel opt c w = None.
Proof.
  assert (forall d w, handleFrame opt (Codec.be_load [x00; x63]) d c w = Ok (c, w)) as Hskip by reflexivity.
  assert (Buffer.retrieve 0 (c_in c) = Ok (c_in c)) as Hret.
  { unfold Buffer.retrieve. destruct (Nat.ltb_spec 0 (Buffer.readableBytes (c_in c))) as [_|]; [|lia].
    rewrite Nat.add_0_r. by destruct (c_in c). }
  revert w. induction fuel as [|fuel IH]; intros w; cbn [frame_loop]; cbn zeta; rewrite Hlong;
    (destruct (Nat.ltb_spec (Buffer.readableBytes (c_in c)) 6) as [|_]; [lia|]);
    change (u32 (4 + Codec.be_load [xff; xff; xff; xfc])) with 0;
    (destruct (Z.ltb_spec (Z.of_nat (Buffer.readableBytes (c_in c))) 0) as [|_]; [lia|]); [done|].
  rewrite Hid, Hskip. change (Z.to_nat 0) with 0%nat. rewrite Hret, set_in_id. apply IH.
Qed.

(** ** Instances and witnesses *)

(** A kernel that takes five bytes at a time, refuses socket 7, and whose clock
    advances by a millisecond when it is read. *)
Record mem : Type := mkMem { clock : Z; wire : list (Z * list byte) }.

Definition wire_of (k : mem) (x : Z) : list byte := mjoin (map (fun p => if fst p =? x then snd p else []) (wire k)).

#[export] Instance mem_kernel : BenchKernel mem := {|
  send x bs k :=
    if x =? 7 then (SendFailed, k)
    else match bs with
         | [] => (Again, k)
         | _ => (Wrote (Nat.min 5 (length bs)), mkMem (clock k) (wire k ++ [(x, take (Nat.min 5 (length bs)) bs)]))
         end;
  nowMs k := (clock k, mkMem (clock k + 1) (wire k));
  sent_bytes k x := wire_of k x;
|}.

#[export] Instance mem_laws : BenchLaws mem.
Proof.
  assert (forall k x bs y, wire_of (mkMem (clock k) (wire k ++ [(x, bs)])) y = wire_of k y ++ (if x =? y then bs else [])) as Hw.
  { intros k x bs y. unfold wire_of. simpl. rewrite map_app, join_app. simpl. by rewrite app_nil_r. }
  split.
  - intros x bs k n k'. cbn [send sent_bytes mem_kernel]. destruct (x =? 7); [done|]. destruct bs as [|b bs]; [done|].
    assert (0 < Nat.min 5 (length (b :: bs)) <= length (b :: bs))%nat as Hm by (cbn [length]; lia).
    revert Hm. generalize (Nat.min 5 (length (b :: bs))). intros m Hm [= <- <-]. split; [exact Hm|]. split.
    + by rewrite Hw, Z.eqb_refl.
    + intros y Hy. rewrite Hw, (proj2 (Z.eqb_neq x y)) by congruence. by rewrite app_nil_r.
  - intros x bs k k' a. cbn [send sent_bytes mem_kernel]. destruct (x =? 7); [by intros [= <- <-]|]. destruct bs; [by intros [= <- <-]|].
    intros [= <- <-] Ha. by destruct (Ha (Nat.min 5 (length (b :: bs)))).
  - done.
Qed.

(** Messages of a byte or two. *)
#[export] Instance tiny_protobuf : BenchProtobuf := {|
  parse_LoginResp bs := match bs with [c; p] => Some (Codec.byte_val c, Codec.byte_val p, "") | _ => None end;
  parse_Heartbeat bs := match bs with [t] => Some (Codec.byte_val t) | _ => None end;
  parse_StateSnapshot bs := None;
  serialize m := match m with MLoginReq _ => [x2a; x2b; x2c] | _ => [x2a] end;
|}.

Definition opts : Options := mkOptions 9100 3 2 true 10 200.

Definition k0 : mem := mkMem 5000 [].

Lemma bench_frames_are_the_codecs_witness :
  exists b, Buffer.readable b = [x00; x00] /\
    onReadable opts [Buffer.ReadOk [x00; x00; x00; x04; x00]; Buffer.ReadErr Buffer.EINTR; Buffer.ReadOk [x04; x00; x09; x00; x00]]
      (set_state kWaitLogin (set_fd 5 new_conn)) (mkWorld k0 no_stats []) =
    let (c', w') := foldl (handle opts) (set_state kWaitLogin (set_fd 5 new_conn), mkWorld k0 no_stats [])
                      [(MsgId.kLoginResp, [x00; x09])] in
    Some (Ok (set_in b c', w')).
Proof.
  destruct (bench_frames_are_the_codecs opts
    [Buffer.ReadOk [x00; x00; x00; x04; x00]; Buffer.ReadErr Buffer.EINTR; Buffer.ReadOk [x04; x00; x09; x00; x00]]
    (set_state kWaitLogin (set_fd 5 new_conn)) (mkWorld k0 no_stats []) [(MsgId.kLoginResp, [x00; x09])] [x00; x00])
    as (b & _ & H1 & H2).
  - exact Buffer.wf_init_buffer.
  - repeat constructor; discriminate.
  - vm_compute. reflexivity.
  - exists b. split; [exact H1|exact H2].
Defined.

(** *** Evaluating workers *)

Fixpoint exec_turns (opt : Options) (tid : Z) (evss : list (list (nat * event))) (stg : Z) (cs : list Conn) (w : World mem)
  : option (list Conn * World mem) :=
  match evss with
  | [] => Some (cs, w)
  | evs :: evss' =>
      match turn opt tid evs stg cs w with
      | Some (Ok (stg1, cs1, w1)) => exec_turns opt tid evss' stg1 cs1 w1
      | _ => None
      end
  end.

(** Events that are plausible in every state: readable only with writable. *)
Definition always_plausible (evs : list (nat * event)) : Prop :=
  Forall (fun x => ev_in (snd x) = true -> ev_out (snd x) = true) evs.

Lemma plausible_always opt tid evs stg cs (w : World mem) : always_plausible evs -> plausible_events opt tid evs stg cs w.
Proof.
  intros Hp. revert stg cs w. induction Hp as [|[i ev] evs Hx _ IH]; intros stg cs w; [done|]. simpl.
  destruct (cs !! i) as [c|]; [|done]. split; [intros _; exact Hx|].
  destruct (on_event _ _ _ _ _ _ _) as [[[[stg1 c1] w1]|]|]; [apply IH|done|done].
Qed.

Lemma wrun_exec opt tid evss stg cs w cs' w' :
  Forall always_plausible evss -> exec_turns opt tid evss stg cs w = Some (cs', w') -> wrun opt tid stg cs w cs' w'.
Proof.
  intros Hp. revert stg cs w. induction Hp as [|evs evss Hx _ IH]; intros stg cs w; simpl; [intros [= <- <-]; constructor|].
  destruct (turn opt tid evs stg cs w) as [[[[stg1 cs1] w1]|]|] eqn:E; [|done|done]. intros H%IH.
  eapply wrun_turn; [by apply plausible_always|exact E|exact H].
Qed.

(** Two workers for three connections: one connects, logs in and asks for a
    match, one is refused, one is still connecting. *)
Definition ready : event := mkEvent true true 0 [Buffer.ReadOk [x00; x00; x00; x04; x00; x04; x00; x09]].

Definition ans0 : list connect_answer := [Pending 10; Refused].

Definition ans1 : list connect_answer := [Pending 11].

Definition turns0 : list (list (nat * event)) := [[(0%nat, mkEvent false true 0 [])]; [(0%nat, ready)]; []].

Definition work (tid : Z) (ans : list connect_answer) (evss : list (list (nat * event))) : worker :=
  let (cs, w) := connect_all ans (mkWorld k0 no_stats []) in
  match exec_turns opts tid evss 0 cs w with
  | Some (cs', w') => mkWorker ans cs' w'
  | None => mkWorker ans [] w
  end.

Lemma turns0_plausible : Forall always_plausible turns0.
Proof. repeat constructor. Qed.

Lemma worked0 : worked opts 0 (work 0 ans0 turns0).
Proof.
  split; [reflexivity|]. split; [apply NoDup_singleton|]. exists k0. split; [repeat constructor; discriminate|].
  apply (wrun_exec opts 0 turns0 0); [exact turns0_plausible|vm_compute; reflexivity].
Qed.

Lemma worked1 : worked opts 1 (work 1 ans1 []).
Proof.
  split; [reflexivity|]. split; [apply NoDup_singleton|]. exists k0. split; [repeat constructor; discriminate|].
  constructor.
Qed.

Lemma bench_counts_every_connection_witness :
  let ws := [work 0 ans0 turns0; work 1 ans1 []] in
  established (total ws) = 1%nat /\ failed (total ws) = 1%nat /\ dead (total ws) = 1%nat /\
  Z.of_nat (established (total ws) + failed (total ws) + sum_list_with (fun x => sum_list_with connecting (w_conns x)) ws) = 3.
Proof.
  split; [vm_compute; reflexivity|]. split; [vm_compute; reflexivity|]. split; [vm_compute; reflexivity|].
  apply (bench_counts_every_connection opts [work 0 ans0 turns0; work 1 ans1 []]).
  - discriminate.
  - reflexivity.
  - reflexivity.
  - intros [|[|tid]] x Hx; [| |discriminate Hx].
    + rewrite <- (Some_inj _ _ Hx). exact worked0.
    + rewrite <- (Some_inj _ _ Hx). exact worked1.
Defined.

Lemma bench_writes_whole_frames_witness :
  exists ms, sent_bytes (kern (w_world (work 0 ans0 turns0))) 10 = stream ms /\
    sent_bytes (kern (w_world (work 0 ans0 turns0))) 10 <> [].
Proof.
  destruct (connect_all ans0 (mkWorld k0 no_stats [])) as [cs w] eqn:E.
  destruct (w_conns (work 0 ans0 turns0) !! 0%nat) as [c|] eqn:Ec; [|vm_compute in Ec; discriminate Ec].
  destruct (bench_writes_whole_frames opts 0 ans0 k0 cs w (w_conns (work 0 ans0 turns0)) (w_world (work 0 ans0 turns0)) 0 c)
    as [ms Hms].
  - apply NoDup_singleton.
  - repeat constructor; discriminate.
  - exact E.
  - apply (wrun_exec opts 0 turns0 0); [exact turns0_plausible|]. vm_compute in E. injection E as <- <-. vm_compute. reflexivity.
  - exact Ec.
  - vm_compute in Ec. injection Ec as <-. discriminate.
  - exists ms. split; [|vm_compute; discriminate]. rewrite <- Hms. vm_compute in Ec. injection Ec as <-. vm_compute. reflexivity.
Defined.

End Bench.
