(* ===== verification/Cli.v ===== *)
(** * The command lines of the programs ([src/examples/game_server.cc],
    [echo_server.cc], [bot_client.cc], [bench_client.cc])

    What the four [main] functions make of their arguments. [argv] is the list
    after the program's name. [std::atoi] is that of the C standard, for which a
    number that does not fit its type is [UB]. *)

From stdpp Require Import base sets list strings pretty.
From Stdlib Require Import ZArith Lia.
From S2P Require Import Prelude Socket Storage Bench.

Local Open Scope Z_scope.

Module Cli.

(** [std::atoi] is that of [Storage]; [std::atoll] is the same for 64 bits. *)
Definition atoi : string -> res Z := Storage.atoi.

Definition atoll (s : string) : res Z :=
  let (neg, s1) := Storage.sign (Storage.skip_space s) in
  let '(v, _, _) := Storage.digits s1 0 0 in
  let z := if neg : bool then - v else v in
  if (- 2 ^ 63 <=? z) && (z <? 2 ^ 63) then Ok z else UB.

(** [static_cast<uint16_t>] *)
Definition u16 (z : Z) : Z := z mod 2 ^ 16.

(** [argc > i ? std::atoi(argv[i]) : d] *)
Definition arg_or (argv : list string) (i : nat) (d : Z) : res Z :=
  match argv !! i with Some s => atoi s | None => Ok d end.

(** ** The servers *)

Definition game_server_args (argv : list string) : res (Z * Z * Z) :=
  (let! port := arg_or argv 0 9100 in
   let! io := arg_or argv 1 2 in
   let! game := arg_or argv 2 2 in
   Ok (u16 port, io, game))%gs.

Definition echo_server_args (argv : list string) : res (Z * Z) :=
  (let! port := arg_or argv 0 9000 in
   let! threads := arg_or argv 1 4 in
   Ok (u16 port, threads))%gs.

(** ** The clients *)

(** [None]: the usage is printed and the program returns 1. *)
Definition bot_args (argv : list string) : option (res (Z * string * Z)) :=
  match argv with
  | port :: account :: rest =>
      Some (let! port := atoi port in
            let! dropAfterMs :=
              (match rest with
               | flag :: v :: _ => if bool_decide (flag = "--drop-after-ms"%string) then atoll v else Ok (-1)
               | _ => Ok (-1)
               end) in
            Ok (u16 port, account, dropAfterMs))%gs
  | _ => None
  end.

Definition set_option (k v : string) (o : Bench.Options) : res Bench.Options :=
  match o with
  | Bench.mkOptions port conns threads battle dur ramp =>
      if bool_decide (k = "--port"%string) then
        (let! n := atoi v in Ok (Bench.mkOptions (u16 n) conns threads battle dur ramp))%gs
      else if bool_decide (k = "--conns"%string) then
        (let! n := atoi v in Ok (Bench.mkOptions port n threads battle dur ramp))%gs
      else if bool_decide (k = "--threads"%string) then
        (let! n := atoi v in Ok (Bench.mkOptions port conns n battle dur ramp))%gs
      else if bool_decide (k = "--mode"%string) then
        Ok (Bench.mkOptions port conns threads (bool_decide (v = "battle"%string)) dur ramp)
      else if bool_decide (k = "--duration"%string) then
        (let! n := atoi v in Ok (Bench.mkOptions port conns threads battle n ramp))%gs
      else if bool_decide (k = "--ramp-us"%string) then
        (let! n := atoi v in Ok (Bench.mkOptions port conns threads battle dur n))%gs
      else Ok o
  end.

(** The loop over pairs; an argument without a partner is left out. *)
Fixpoint bench_loop (argv : list string) (o : Bench.Options) : res Bench.Options :=
  match argv with
  | k :: v :: rest => (let! o1 := set_option k v o in bench_loop rest o1)%gs
  | _ => Ok o
  end.

Definition bench_args (argv : list string) : res Bench.Options := bench_loop argv Bench.default_options.

Lemma atoi_show n : 0 <= n < 2 ^ 31 -> atoi (InetAddress.show n) = Ok n.
Proof.
  intros Hn. unfold atoi. replace (InetAddress.show n) with (pretty n) by (destruct n; [done|done|lia]). apply Storage.atoi_pretty. lia.
Qed.

(** ** Options round trip *)

Definition print_options (o : Bench.Options) : list string :=
  ["--port"; InetAddress.show (Bench.port o); "--conns"; InetAddress.show (Bench.conns o);
   "--threads"; InetAddress.show (Bench.threads o); "--mode"; if Bench.battle o then "battle" else "idle";
   "--duration"; InetAddress.show (Bench.durationSec o); "--ramp-us"; InetAddress.show (Bench.rampUs o)]%string.

Definition options_ok (o : Bench.Options) : Prop :=
  0 <= Bench.port o < 2 ^ 16 /\ 0 <= Bench.conns o < 2 ^ 31 /\ 0 <= Bench.threads o < 2 ^ 31 /\
  0 <= Bench.durationSec o < 2 ^ 31 /\ 0 <= Bench.rampUs o < 2 ^ 31.

Lemma set_unknown k v o :
  k ∉ ["--port"; "--conns"; "--threads"; "--mode"; "--duration"; "--ramp-us"]%string -> set_option k v o = Ok o.
Proof. intros Hk. unfold set_option. destruct o. rewrite !bool_decide_eq_false_2 by (intros ->; apply Hk; set_solver). done. Qed.

Section Setting.
Context (v : string) (p c t : Z) (b : bool) (d r : Z).
Notation opts := (Bench.mkOptions p c t b d r).

Lemma set_port : set_option "--port" v opts = (let! n := atoi v in Ok (Bench.mkOptions (u16 n) c t b d r))%gs.
Proof. reflexivity. Qed.
Lemma set_conns : set_option "--conns" v opts = (let! n := atoi v in Ok (Bench.mkOptions p n t b d r))%gs.
Proof. reflexivity. Qed.
Lemma set_threads : set_option "--threads" v opts = (let! n := atoi v in Ok (Bench.mkOptions p c n b d r))%gs.
Proof. reflexivity. Qed.
Lemma set_mode : set_option "--mode" v opts = Ok (Bench.mkOptions p c t (bool_decide (v = "battle"%string)) d r).
Proof. reflexivity. Qed.
Lemma set_duration : set_option "--duration" v opts = (let! n := atoi v in Ok (Bench.mkOptions p c t b n r))%gs.
Proof. reflexivity. Qed.
Lemma set_ramp : set_option "--ramp-us" v opts = (let! n := atoi v in Ok (Bench.mkOptions p c t b d n))%gs.
Proof. reflexivity. Qed.

End Setting.

(** The argument list of the options read back, whatever was set before. *)
Lemma bench_loop_print o o0 rest : options_ok o -> bench_loop (print_options o ++ rest) o0 = bench_loop rest o.
Proof.
  intros (Hp & Hc & Ht & Hd & Hr). destruct o as [port conns threads battle dur ramp], o0.
  cbn [Bench.port Bench.conns Bench.threads Bench.durationSec Bench.rampUs] in *.
  unfold print_options. cbn [app bench_loop Bench.port Bench.conns Bench.threads Bench.battle Bench.durationSec Bench.rampUs].
  rewrite set_port, atoi_show by lia. cbn [res_bind]. rewrite set_conns, atoi_show by lia. cbn [res_bind].
  rewrite set_threads, atoi_show by lia. cbn [res_bind]. rewrite set_mode. cbn [res_bind].
  rewrite set_duration, atoi_show by lia. cbn [res_bind]. rewrite set_ramp, atoi_show by lia. cbn [res_bind].
  unfold u16. rewrite Z.mod_small by lia. by destruct battle.
Qed.

(** Pairs with unknown names. *)
Inductive unknown_pairs : list string -> Prop :=
  | unknown_nil : unknown_pairs []
  | unknown_odd k : unknown_pairs [k]
  | unknown_cons k v l :
      k ∉ ["--port"; "--conns"; "--threads"; "--mode"; "--duration"; "--ramp-us"]%string -> unknown_pairs l ->
      unknown_pairs (k :: v :: l).

Lemma bench_loop_unknown l o : unknown_pairs l -> bench_loop l o = Ok o.
Proof. induction 1 as [|k|k v l Hk _ IH]; [done|done|]. cbn [bench_loop]. by rewrite set_unknown. Qed.

(** The benchmark reads its options back: a command line that gives every option
    is understood exactly, and pairs with unknown names and a last argument
    without a partner change nothing; the same numbers given to the game server
    and the echo server are its port and thread counts. *)
Theorem options_roundtrip (o : Bench.Options) (l : list string)
  (Ho : options_ok o) (Hl : unknown_pairs l) :
  bench_args (print_options o ++ l) = Ok o /\
  game_server_args [InetAddress.show (Bench.port o); InetAddress.show (Bench.conns o); InetAddress.show (Bench.threads o)] =
    Ok (Bench.port o, Bench.conns o, Bench.threads o) /\
  echo_server_args [InetAddress.show (Bench.port o); InetAddress.show (Bench.threads o)] = Ok (Bench.port o, Bench.threads o).
Proof.
  split; [unfold bench_args; by rewrite bench_loop_print, bench_loop_unknown|].
  destruct Ho as (Hp & Hc & Ht & _). unfold game_server_args, echo_server_args, arg_or. cbn [lookup list_lookup].
  rewrite !atoi_show by lia. cbn [res_bind]. unfold u16. by rewrite Z.mod_small by lia.
Qed.

Lemma options_roundtrip_witness :
  bench_args ["--port"; "9100"; "--conns"; "5000"; "--threads"; "4"; "--mode"; "battle"; "--duration"; "60"; "--ramp-us"; "50"; "--verbose"]%string =
    Ok (Bench.mkOptions 9100 5000 4 true 60 50).
Proof.
  refine (proj1 (options_roundtrip (Bench.mkOptions 9100 5000 4 true 60 50) ["--verbose"%string] _ _)); [vm_compute; intuition discriminate|constructor].
Defined.

End Cli.
