(* ===== verification/Report.v ===== *)
(** * The report of the benchmark ([src/examples/bench_client.cc], [pct] and [main])

    [pct(v, p)] sorts the samples and takes the one at
    [static_cast<size_t>(p / 100.0 * (v.size() - 1))]: an index computed in
    binary64 arithmetic. The model computes it with the executable IEEE
    arithmetic of the standard library, and an index outside the vector is [UB].
    The lemmas bound the rounding error of one product. *)

From stdpp Require Import base sets list sorting.
From Stdlib Require Import ZArith Lia.
From Stdlib Require Import Floats.SpecFloat.
From S2P Require Import Prelude Float32 Bench.

Local Open Scope Z_scope.

Module Report.

Definition prec64 : Z := 53.

Definition emax64 : Z := 1024.

(** A [size_t] or an [int] converted to [double]. *)
Definition f64_of_Z (z : Z) : spec_float := binary_normalize prec64 emax64 z 0 false.

(** [static_cast<size_t>]: undefined for negative numbers, infinities and NaN. *)
Definition to_size (x : spec_float) : res Z :=
  match x with
  | S754_zero _ => Ok 0
  | S754_finite false m e => Ok (if 0 <=? e then Zpos m * 2 ^ e else Zpos m / 2 ^ (- e))
  | _ => UB
  end.

Definition index (p : Z) (size : nat) : res Z :=
  to_size (SFmul prec64 emax64 (SFdiv prec64 emax64 (f64_of_Z p) (f64_of_Z 100)) (f64_of_Z (Z.of_nat size - 1))).

Definition pct (v : list Z) (p : Z) : res Z :=
  match v with
  | [] => Ok 0
  | _ =>
      let s := merge_sort Z.le v in
      (let! i := index p (length s) in
       match s !! Z.to_nat i with Some x => Ok x | None => UB end)%gs
  end.

(** The percentiles [main] prints of a vector of samples. *)
Definition percentiles (v : list Z) : res (Z * Z * Z * Z) :=
  (let! p50 := pct v 50 in
   let! p90 := pct v 90 in
   let! p99 := pct v 99 in
   let! p100 := pct v 100 in
   Ok (p50, p90, p99, p100))%gs.

(** ** One rounding *)

Lemma shr_1_div mrs : 0 <= shr_m mrs -> shr_m (shr_1 mrs) = shr_m mrs / 2.
Proof.
  destruct mrs as [[|[p|p|]|p] r s]; cbn [shr_1 shr_m]; intros H; try done.
  - apply (Z.div_unique _ _ (Zpos p) 1); lia.
  - apply (Z.div_unique _ _ (Zpos p) 0); lia.
Qed.

Lemma iter_shr_1 p mrs :
  0 <= shr_m mrs -> shr_m (iter_pos shr_1 p mrs) = shr_m mrs / 2 ^ Zpos p /\ 0 <= shr_m (iter_pos shr_1 p mrs).
Proof.
  revert mrs. induction p as [p IH|p IH|]; intros mrs H; cbn [iter_pos].
  - pose proof (shr_1_nonneg mrs H) as H0. destruct (IH _ H0) as [E1 H1], (IH _ H1) as [E2 H2]. split; [|exact H2].
    rewrite E2, E1, shr_1_div, !Z.div_div by lia. f_equal.
    replace (Zpos p~1) with (1 + (Zpos p + Zpos p)) by lia. rewrite !Z.pow_add_r by lia. lia.
  - destruct (IH _ H) as [E1 H1], (IH _ H1) as [E2 H2]. split; [|exact H2].
    rewrite E2, E1, Z.div_div by lia. f_equal. rewrite <- Z.pow_add_r by lia. f_equal. lia.
  - split; [by rewrite shr_1_div|by apply shr_1_nonneg].
Qed.

Lemma digits_log2 m : Zpos (digits2_pos m) = Z.log2 (Zpos m) + 1.
Proof.
  induction m as [m IH|m IH|]; [| |reflexivity]; cbn [digits2_pos]; rewrite Pos2Z.inj_succ, IH.
  - change (Zpos m~1) with (2 * Zpos m + 1). rewrite Z.log2_succ_double by lia. lia.
  - change (Zpos m~0) with (2 * Zpos m). rewrite Z.log2_double by lia. lia.
Qed.

Lemma Zdigits2_log2 m : 0 < m -> Zdigits2 m = Z.log2 m + 1.
Proof. intros H. destruct m as [|m|m]; try lia. apply digits_log2. Qed.

(** How far a mantissa is shifted. *)
Definition excess (m : Z) : Z := Z.max 0 (Z.log2 m - 52).

Lemma shr_fexp_spec m e :
  0 < m -> -1000 <= Z.log2 m + e ->
  let (mrs, e') := shr_fexp prec64 emax64 m e loc_Exact in
  shr_m mrs = m / 2 ^ excess m /\ e' = e + excess m /\ (excess m = 0 -> loc_of_shr_record mrs = loc_Exact).
Proof.
  intros Hm He. unfold shr_fexp. rewrite Zdigits2_log2 by done. unfold fexp, prec64, emax64, emin. cbn [shr_record_of_loc].
  rewrite Z.max_l by lia. replace (Z.log2 m + 1 + e - 53 - e) with (Z.log2 m - 52) by lia. unfold excess.
  destruct (Z.log2 m - 52) as [|k|k] eqn:Ek; cbn [shr].
  - rewrite Z.max_id, Z.pow_0_r, Z.div_1_r, Z.add_0_r. done.
  - rewrite Z.max_r by lia. destruct (iter_shr_1 k (Build_shr_record m false false)) as [E _]; [simpl; lia|].
    split_and!; [exact E|done|done].
  - rewrite Z.max_l, Z.pow_0_r, Z.div_1_r, Z.add_0_r by lia. done.
Qed.

Lemma round_up_one m l : m <= round_nearest_even m l <= m + 1.
Proof. destruct l as [|[]]; cbn; try lia. destruct (Z.even m); lia. Qed.

(** The rounding of a positive number [m * 2 ^ e]. *)
Lemma round_spec m e :
  0 < m -> -900 <= Z.log2 m + e <= 900 ->
  exists m2, m / 2 ^ excess m <= m2 <= m / 2 ^ excess m + 1 /\ (excess m = 0 -> m2 = m) /\ 0 < m2 /\ excess m2 <= 1 /\
    binary_round_aux prec64 emax64 false m e loc_Exact =
      S754_finite false (Z.to_pos (m2 / 2 ^ excess m2)) (e + excess m + excess m2).
Proof.
  intros Hm He. unfold binary_round_aux. pose proof (shr_fexp_spec m e Hm ltac:(lia)) as H1.
  destruct (shr_fexp _ _ m e loc_Exact) as [mrs e'] eqn:E1. clear E1. destruct H1 as (Hs & -> & Hx).
  pose proof (round_up_one (shr_m mrs) (loc_of_shr_record mrs)) as Hr. rewrite Hs in Hr.
  assert (0 < m / 2 ^ excess m) as Hpos.
  { apply Z.div_str_pos. split; [apply Z.pow_pos_nonneg; unfold excess; lia|].
    transitivity (2 ^ Z.log2 m); [apply Z.pow_le_mono_r; unfold excess; pose proof (Z.log2_nonneg m); lia|apply Z.log2_spec; lia]. }
  rewrite Hs in *. set (q := m / 2 ^ excess m) in *. set (m2 := round_nearest_even q _) in *.
  assert (excess m = 0 -> m2 = m) as Hex.
  { intros H0. unfold m2, q. rewrite Hx, H0, Z.pow_0_r, Z.div_1_r by done. reflexivity. }
  assert (Z.log2 m <= Z.log2 q + excess m <= Z.log2 m) as Hlog.
  { unfold q. rewrite <- Z.shiftr_div_pow2 by (unfold excess; lia). rewrite Z.log2_shiftr by lia. unfold excess.
    pose proof (Z.log2_nonneg m). lia. }
  assert (Z.log2 q <= Z.log2 m2 <= Z.log2 q + 1) as Hl2.
  { split; [apply Z.log2_le_mono; lia|]. transitivity (Z.log2 (2 * q)); [apply Z.log2_le_mono; lia|rewrite Z.log2_double; lia]. }
  pose proof (shr_fexp_spec m2 (e + excess m) ltac:(lia) ltac:(lia)) as H2.
  destruct (shr_fexp _ _ m2 _ loc_Exact) as [mrs2 e2]. destruct H2 as (Hs2 & -> & _). rewrite Hs2.
  assert (Z.log2 q <= 52) as Hq52 by (unfold excess in Hlog; lia).
  exists m2. split; [lia|]. split; [exact Hex|]. split; [lia|]. split; [unfold excess; lia|].
  assert (0 < m2 / 2 ^ excess m2) as Hpos2.
  { apply Z.div_str_pos. split; [apply Z.pow_pos_nonneg; unfold excess; lia|].
    transitivity (2 ^ Z.log2 m2); [apply Z.pow_le_mono_r; unfold excess; pose proof (Z.log2_nonneg m2); lia|apply Z.log2_spec; lia]. }
  destruct (m2 / 2 ^ excess m2) as [|pz|pz] eqn:Ez; [lia| |lia]. cbn [Z.to_pos].
  pose proof (Z.log2_nonneg m). rewrite (proj2 (Z.leb_le _ _)); [done|]. unfold emax64, prec64, excess in *. lia.
Qed.

Lemma iter_xO d p : Zpos (Pos.iter xO p d) = Zpos p * 2 ^ Zpos d.
Proof.
  induction d as [|d IH] using Pos.peano_ind; [change (Pos.iter xO p 1) with (p~0)%positive; lia|].
  rewrite Pos.iter_succ, Pos2Z.inj_succ, Z.pow_succ_r by lia. change (Zpos (Pos.iter xO p d)~0) with (2 * Zpos (Pos.iter xO p d)). rewrite IH. lia.
Qed.

(** A [size_t] below 2^52 is represented exactly. *)
Lemma f64_of_Z_exact n :
  0 < n < 2 ^ 52 -> exists m e, f64_of_Z n = S754_finite false m e /\ Zpos m = n * 2 ^ (- e) /\ e = Z.log2 n - 52.
Proof.
  intros Hn. destruct n as [|p|p]; try lia. unfold f64_of_Z. cbn [binary_normalize]. unfold binary_round.
  rewrite digits_log2. assert (0 <= Z.log2 (Zpos p) < 52) as Hl.
  { split; [apply Z.log2_nonneg|]. apply Z.log2_lt_pow2; lia. }
  assert (fexp prec64 emax64 (Z.log2 (Zpos p) + 1 + 0) = Z.log2 (Zpos p) - 52) as ->.
  { unfold fexp, prec64, emax64, emin. rewrite Z.max_l; lia. }
  unfold shl_align. replace (Z.log2 (Zpos p) - 52 - 0) with (- (52 - Z.log2 (Zpos p))) by lia.
  destruct (52 - Z.log2 (Zpos p)) as [|d|d] eqn:Ed; try lia.
  change (- Zpos d) with (Zneg d). cbv beta iota.
  pose proof (iter_xO d p) as Hsh. set (m := Pos.iter xO p d) in *.
  assert (Z.log2 (Zpos m) = 52) as Hm by (rewrite Hsh, Z.log2_mul_pow2 by lia; lia).
  assert (excess (Zpos m) = 0) as Hex by (unfold excess; lia).
  destruct (round_spec (Zpos m) (Z.log2 (Zpos p) - 52)) as (m2 & _ & Heq & _ & _ & ->); [lia|lia|]. specialize (Heq Hex). subst m2.
  rewrite Hex, Z.pow_0_r, Z.div_1_r, !Z.add_0_r. exists m, (Z.log2 (Zpos p) - 52). cbn [Z.to_pos]. split_and!; [done| |done].
  rewrite Hsh. f_equal. f_equal. lia.
Qed.

(** The conversion of a rounded number: the second shift does not change it. *)
Lemma to_size_small m2 e : 0 < m2 -> e < 0 -> excess m2 <= 1 ->
  to_size (S754_finite false (Z.to_pos (m2 / 2 ^ excess m2)) (e + excess m2)) = Ok (m2 / 2 ^ (- e)).
Proof.
  intros Hm He He1. assert (0 <= excess m2) as H0 by (unfold excess; lia).
  assert (0 < m2 / 2 ^ excess m2) as Hpos.
  { apply Z.div_str_pos. split; [apply Z.pow_pos_nonneg; lia|].
    transitivity (2 ^ Z.log2 m2); [apply Z.pow_le_mono_r; unfold excess; pose proof (Z.log2_nonneg m2); lia|apply Z.log2_spec; lia]. }
  cbn [to_size]. rewrite Z2Pos.id by done. destruct (Z.leb_spec 0 (e + excess m2)) as [Hle|Hlt].
  - assert (e + excess m2 = 0) as -> by lia. rewrite Z.pow_0_r, Z.mul_1_r. do 2 f_equal. f_equal. lia.
  - rewrite Z.div_div by (apply Z.pow_nonzero || apply Z.pow_pos_nonneg; lia). rewrite <- Z.pow_add_r by lia. do 2 f_equal. f_equal. lia.
Qed.

(** The index for the quotient [a / 2 ^ 53], [a <= 2 ^ 53]: between the floor of
    the exact product and the floor of the product with [a + 2]. *)
Lemma product_index q m e n a :
  q = S754_finite false m e -> -53 <= e <= -52 -> a = Zpos m * 2 ^ (e + 53) -> a <= 2 ^ 53 -> 0 < n < 2 ^ 52 ->
  exists x, to_size (SFmul prec64 emax64 q (f64_of_Z n)) = Ok x /\ a * n / 2 ^ 53 <= x /\ x * 2 ^ 53 <= (a + 2) * n.
Proof.
  intros -> He Ha Ha53 Hn. destruct (f64_of_Z_exact n Hn) as (my & ey & -> & Hmy & Hey). cbn [SFmul xorb].
  assert (0 <= Z.log2 n < 52) as Hl by (split; [apply Z.log2_nonneg|apply Z.log2_lt_pow2; lia]).
  pose proof (Z.log2_spec n ltac:(lia)) as [Hlog _].
  set (P := Zpos (m * my)). assert (P * 2 ^ (e + 53) = a * n * 2 ^ (- ey)) as HP.
  { unfold P. rewrite Pos2Z.inj_mul, Hmy, Ha. lia. }
  set (N := - e - ey). assert (2 ^ N * 2 ^ (e + 53) = 2 ^ 53 * 2 ^ (- ey)) as HN by (rewrite <- !Z.pow_add_r by lia; f_equal; lia).
  assert (0 < 2 ^ (e + 53)) as Hp1 by (apply Z.pow_pos_nonneg; lia). assert (0 < 2 ^ (- ey)) as Hp2 by (apply Z.pow_pos_nonneg; lia).
  assert (0 < 2 ^ N) as Hp3 by (apply Z.pow_pos_nonneg; lia).
  assert (P <= n * 2 ^ N) as HPn by nia.
  assert (Z.log2 P <= Z.log2 n + N) as HlP by (rewrite Z.add_comm, <- Z.log2_mul_pow2 by lia; by apply Z.log2_le_mono).
  pose proof (Z.log2_nonneg P) as HlP0.
  destruct (round_spec P (e + ey)) as (m2 & Hm2 & Heq & Hpos & Hex2 & ->); [unfold P; lia|lia|].
  set (k := excess P) in *. assert (0 <= k < N) as Hk by (unfold k, excess; lia).
  rewrite to_size_small by lia. eexists. split; [reflexivity|]. replace (- (e + ey + k)) with (N - k) by lia.
  assert (2 ^ N = 2 ^ k * 2 ^ (N - k)) as HNk by (rewrite <- Z.pow_add_r by lia; f_equal; lia).
  assert (0 < 2 ^ k) as Hp4 by (apply Z.pow_pos_nonneg; lia). assert (0 < 2 ^ (N - k)) as Hp5 by (apply Z.pow_pos_nonneg; lia). split.
  - transitivity (P / 2 ^ N).
    + apply Z.eq_le_incl. rewrite <- (Z.div_mul_cancel_r P (2 ^ N) (2 ^ (e + 53))), HP, HN, Z.div_mul_cancel_r by lia. done.
    + rewrite HNk, <- Z.div_div by lia. apply Z.div_le_mono; lia.
  - set (x := m2 / 2 ^ (N - k)). assert (x * 2 ^ (N - k) <= m2) as Hx by (unfold x; rewrite Z.mul_comm; apply Z.mul_div_le; lia).
    assert (m2 * 2 ^ k <= P + 2 ^ k) as Hm by (pose proof (Z.mul_div_le P (2 ^ k) Hp4); nia).
    assert (x * 2 ^ N <= P + 2 ^ k) as HxN by (rewrite HNk; nia).
    assert (2 ^ k * 2 ^ (e + 53) <= 2 * n * 2 ^ (- ey)) as Hsmall.
    { rewrite <- Z.pow_add_r by lia. transitivity (2 ^ (Z.log2 n - ey + 1)); [apply Z.pow_le_mono_r; unfold k, excess; lia|].
      replace (Z.log2 n - ey + 1) with (1 + (Z.log2 n + - ey)) by lia. rewrite !Z.pow_add_r by lia. nia. }
    assert (x * 2 ^ 53 * 2 ^ (- ey) <= (a + 2) * n * 2 ^ (- ey)) as Hall; [|by apply Z.mul_le_mono_pos_r in Hall].
    replace (x * 2 ^ 53 * 2 ^ (- ey)) with (x * 2 ^ N * 2 ^ (e + 53)) by (rewrite <- !Z.mul_assoc, HN; done). nia.
Qed.

(** ** The percentiles *)

(** [p / 100.0] as a multiple of [2 ^ -53], for the percentages of [main]. *)
Definition ratio (p : Z) : Z :=
  match SFdiv prec64 emax64 (f64_of_Z p) (f64_of_Z 100) with
  | S754_finite false m e => Zpos m * 2 ^ (e + 53)
  | _ => 0
  end.

Definition printed (p : Z) : Prop := p ∈ [50; 90; 99; 100].

Lemma index_spec p n :
  printed p -> Z.of_nat n < 2 ^ 52 ->
  exists x, index p (S n) = Ok x /\ ratio p * Z.of_nat n / 2 ^ 53 <= x /\ x * 2 ^ 53 <= (ratio p + 2) * Z.of_nat n.
Proof.
  intros Hp Hn. unfold index. replace (Z.of_nat (S n) - 1) with (Z.of_nat n) by lia.
  assert (exists m e, SFdiv prec64 emax64 (f64_of_Z p) (f64_of_Z 100) = S754_finite false m e /\ -53 <= e <= -52 /\
            ratio p = Zpos m * 2 ^ (e + 53) /\ ratio p <= 2 ^ 53) as (m & e & Hq & He & Hr & Hle).
  { unfold printed in Hp. rewrite !elem_of_cons, elem_of_nil in Hp. destruct Hp as [->|[->|[->|[->|[]]]]];
      (eexists _, _; split; [vm_compute; reflexivity|]; split; [lia|]; split; [vm_compute; reflexivity|vm_compute; discriminate]). }
  rewrite Hq. destruct n as [|n].
  - exists 0. rewrite !Z.mul_0_r. split_and!; [done|done|done].
  - by apply (product_index _ m e).
Qed.

Lemma ratios : ratio 50 + 2 <= ratio 90 /\ ratio 90 + 2 <= ratio 99 /\ ratio 99 + 2 <= ratio 100 /\ ratio 100 = 2 ^ 53.
Proof. vm_compute. intuition discriminate. Qed.

Lemma index_in_bounds p n x :
  printed p -> Z.of_nat n < 2 ^ 52 -> index p (S n) = Ok x -> 0 <= x <= Z.of_nat n /\ (p = 100 -> x = Z.of_nat n).
Proof.
  intros Hp Hn Hx. destruct (index_spec p n Hp Hn) as (x' & Hx' & H1 & H2). assert (x' = x) as -> by congruence.
  assert (0 <= ratio p <= 2 ^ 53) as Hr.
  { unfold printed in Hp. rewrite !elem_of_cons, elem_of_nil in Hp. destruct Hp as [->|[->|[->|[->|[]]]]]; vm_compute; intuition discriminate. }
  assert (0 <= ratio p * Z.of_nat n / 2 ^ 53) by (apply Z.div_pos; lia). split; [split; [lia|nia]|].
  intros ->. destruct ratios as (_ & _ & _ & E). rewrite E in H1, H2. rewrite Z.mul_comm, Z.div_mul in H1 by lia. nia.
Qed.

Lemma index_mono p p' n x x' :
  printed p -> printed p' -> ratio p + 2 <= ratio p' -> Z.of_nat n < 2 ^ 52 ->
  index p (S n) = Ok x -> index p' (S n) = Ok x' -> x <= x'.
Proof.
  intros Hp Hp' Hr Hn Hx Hx'. destruct (index_spec p n Hp Hn) as (y & Hy & _ & Hu), (index_spec p' n Hp' Hn) as (y' & Hy' & Hl & _).
  assert (y = x) as -> by congruence. assert (y' = x') as -> by congruence.
  transitivity (ratio p' * Z.of_nat n / 2 ^ 53); [|exact Hl]. apply Z.div_le_lower_bound; [lia|]. nia.
Qed.

Lemma sorted_lookup_le (s : list Z) i j x y :
  StronglySorted Z.le s -> s !! i = Some x -> s !! j = Some y -> (i <= j)%nat -> x <= y.
Proof.
  intros Hs. revert i j. induction Hs as [|z s _ IH Hf]; intros i j Hi Hj Hij; [done|].
  destruct i as [|i], j as [|j]; [by simplify_eq/=| |lia|].
  - simplify_eq/=. rewrite Forall_forall in Hf. by eapply Hf, list_elem_of_lookup_2.
  - simpl in Hi, Hj. apply (IH i j Hi Hj). lia.
Qed.

Lemma pct_spec v p :
  v <> [] -> Z.of_nat (length v) <= 2 ^ 52 -> printed p ->
  exists i x, index p (length v) = Ok i /\ 0 <= i < Z.of_nat (length v) /\ pct v p = Ok x /\ merge_sort Z.le v !! Z.to_nat i = Some x.
Proof.
  intros Hv Hlen Hp. assert (length (merge_sort Z.le v) = length v) as Hl by apply Permutation_length, merge_sort_Permutation.
  destruct (length v) as [|n] eqn:En; [by destruct v|]. destruct (index_spec p n Hp ltac:(lia)) as (i & Hi & _).
  destruct (index_in_bounds p n i Hp ltac:(lia) Hi) as [Hb _].
  destruct (lookup_lt_is_Some_2 (merge_sort Z.le v) (Z.to_nat i)) as [x Hx]; [lia|]. exists i, x. split_and!; [done|lia|lia| |done].
  unfold pct. destruct v as [|y v]; [done|]. rewrite Hl, Hi. cbn [res_bind]. by rewrite Hx.
Qed.

(** C39: The percentiles of the report are defined and ordered: for any samples (fewer
    than 2^52 of them) the index computed in floating point is inside the
    vector, each printed number is one of the samples (or 0 without samples),
    [p50 <= p90 <= p99 <= max], and the last one, printed as [max], is the
    largest sample. *)
Theorem percentiles_in_bounds (v : list Z) (Hlen : Z.of_nat (length v) <= 2 ^ 52) :
  exists a b c d, percentiles v = Ok (a, b, c, d) /\
    (v = [] -> a = 0 /\ b = 0 /\ c = 0 /\ d = 0) /\
    (v <> [] -> a ∈ v /\ b ∈ v /\ c ∈ v /\ d ∈ v /\ a <= b <= c /\ c <= d /\ forall x, x ∈ v -> x <= d).
Proof.
  destruct (decide (v = [])) as [->|Hv]; [exists 0, 0, 0, 0; by split_and!|].
  assert (printed 50 /\ printed 90 /\ printed 99 /\ printed 100) as (P1 & P2 & P3 & P4) by (unfold printed; set_solver).
  destruct (pct_spec v 50 Hv Hlen P1) as (i1 & a & Hi1 & B1 & Ha & La). destruct (pct_spec v 90 Hv Hlen P2) as (i2 & b & Hi2 & B2 & Hb & Lb).
  destruct (pct_spec v 99 Hv Hlen P3) as (i3 & c & Hi3 & B3 & Hc & Lc). destruct (pct_spec v 100 Hv Hlen P4) as (i4 & d & Hi4 & B4 & Hd & Ld).
  exists a, b, c, d. unfold percentiles. rewrite Ha, Hb, Hc, Hd. split; [done|]. split; [done|]. intros _.
  pose proof (StronglySorted_merge_sort Z.le v) as Hs. pose proof (merge_sort_Permutation Z.le v) as Hperm.
  assert (forall i x, merge_sort Z.le v !! i = Some x -> x ∈ v) as Hin by (intros i x Hx; rewrite <- Hperm; by eapply list_elem_of_lookup_2).
  destruct (length v) as [|n] eqn:En; [by destruct v|]. destruct ratios as (R1 & R2 & R3 & _).
  pose proof (index_mono _ _ n _ _ P1 P2 R1 ltac:(lia) Hi1 Hi2). pose proof (index_mono _ _ n _ _ P2 P3 R2 ltac:(lia) Hi2 Hi3).
  pose proof (index_mono _ _ n _ _ P3 P4 R3 ltac:(lia) Hi3 Hi4). destruct (index_in_bounds 100 n i4 P4 ltac:(lia) Hi4) as [_ Hmax].
  split_and!; eauto; try (by eapply (sorted_lookup_le _ _ _ _ _ Hs); [eassumption|eassumption|lia]).
  intros x Hx. rewrite <- Hperm in Hx. apply list_elem_of_lookup_1 in Hx as [j Hj]. eapply (sorted_lookup_le _ _ _ _ _ Hs Hj Ld).
  apply lookup_lt_Some in Hj. rewrite Hperm, En in Hj. rewrite (Hmax eq_refl). lia.
Qed.

Lemma percentiles_in_bounds_witness :
  exists a b c d, percentiles [31; 4; 15; 9; 26; 5; 35; 8; 97; 93] = Ok (a, b, c, d) /\ (a, b, c, d) = (15, 93, 93, 97) /\ a <= b <= c.
Proof.
  destruct (percentiles_in_bounds [31; 4; 15; 9; 26; 5; 35; 8; 97; 93] ltac:(simpl; lia)) as (a & b & c & d & H & _ & Hr).
  exists a, b, c, d. split; [exact H|]. split; [|apply Hr; discriminate].
  assert (percentiles [31; 4; 15; 9; 26; 5; 35; 8; 97; 93] = Ok (15, 93, 93, 97)) as E by (vm_compute; reflexivity).
  rewrite H in E. injection E as -> -> -> ->. reflexivity.
Defined.

End Report.
