(* ===== verification/Server.v ===== *)
(** * The whole server, byte by byte

    The threads of the program and everything that passes between them: the
    base loop accepts connections and keeps their table ([TcpServer]); the IO
    loops read and write their sockets ([TcpConnection] with the message
    callback of [Gateway]) and post the requests to the lobby; the lobby, the
    rooms and the game loops are [System]; their messages are posted back to the
    connections as bytes; the storage thread ([Storage]) runs its queue and
    answers the leaderboard requests. A step is a step of one of the threads,
    and the steps interleave in any way. The kernel's answers to [read] and
    [write] are in the labels; hiredis, MySQL and protobuf are the parameters of
    the parts.

    The main theorem says that this machine implements [System] over reliable
    ordered channels: a run of the server is a run of the lobby and the rooms in
    which the requests of every client are handled in the order in which its
    bytes encode them, and what a client reads is a prefix of what the lobby, the
    rooms and the storage thread sent to it, in order. *)

From stdpp Require Import base gmap sets list strings pretty.
From Stdlib Require Import ZArith Lia.
From Stdlib Require Import Init.Byte.
From S2P Require Import Prelude TimerWheel Poller Buffer Codec TcpConnection LoopPool TcpServer Float32 Proto BattleSim Room GameServer System Flow Storage Gateway Bot.

Module Server.

Local Open Scope Z_scope.
Import EventLoopThreadPool(loop).
Import Gateway(dispatcher_, messageCb, enc).

(** ** State *)

(** The functors the IO threads post to the lobby. *)
Inductive ltask : Type :=
  | FMsg (c : Z) (m : client_msg)
  | FGone (c : Z).

(** [conns] holds the connection objects with their IO loop, [fresh] those whose
    [connectEstablished] still waits in the IO loop; [baseq] are the tasks of
    [removeConnection] in the base loop, [lobq] the functors of the IO threads
    in the lobby's loop, [stq] the storage queue. *)
Record t (W : Type) : Type := mk {
  sys : System.t;
  srv : TcpServer.t;
  conns : gmap Z (loop * TcpConnection.conn);
  fresh : gset Z;
  baseq : list Z;
  lobq : list ltask;
  stq : list Storage.task;
  sth : Storage.thread;
  world : W;
}.
Arguments mk {W}.
Arguments sys {W}.
Arguments srv {W}.
Arguments conns {W}.
Arguments fresh {W}.
Arguments baseq {W}.
Arguments lobq {W}.
Arguments stq {W}.
Arguments sth {W}.
Arguments world {W}.

(** What a run leaves behind: the effects of the connections, the steps of
    [System] and of the storage thread with their output, the functors the lobby
    ran, and the calls of [codec_.send] that carry the output to connections. *)
Inductive entry : Type :=
  | GIo (c : Z) (e : TcpConnection.effect)
  | GSys (x : System.label) (os : list System.out)
  | GStore (os : list System.out)
  | GTake (f : ltask)
  | GSend (c : Z) (m : server_msg).

Inductive label : Type :=
  | SAccept
  | SEstablish (c : Z)
  | SReady (c : Z) (revents : Z) (rs : list Buffer.read_result) (ws ans : list TcpConnection.write_result)
  | STask (c : Z) (r : TcpConnection.write_result)
  | SRemove
  | SLobby (now rnd1 rnd2 : Z)
  | SWheel (now : Z)
  | SQueue
  | SRoomTask (l : loop)
  | STick (rid : Z)
  | SStore.

#[global] Instance label_eq_store (x : label) : Decision (x = SStore).
Proof. destruct x; (left; reflexivity) || (right; discriminate). Defined.

Section Machine.
Context {W : Type} {HR : Storage.Hiredis W} {HM : Storage.LibMysql W} {SP : ServerProtobuf}.
Context (o : Storage.StorageOptions).

Notation t := (t W).

Definition set_sys (y : System.t) (s : t) : t :=
  mk y (srv s) (conns s) (fresh s) (baseq s) (lobq s) (stq s) (sth s) (world s).

Definition set_lobq (q : list ltask) (s : t) : t :=
  mk (sys s) (srv s) (conns s) (fresh s) (baseq s) q (stq s) (sth s) (world s).

Definition set_stq (q : list Storage.task) (s : t) : t :=
  mk (sys s) (srv s) (conns s) (fresh s) (baseq s) (lobq s) q (sth s) (world s).

(** ** What the callbacks of a connection post *)

(** The requests among the frames of a trace, in order. *)
Definition requests (e : list TcpConnection.effect) : list client_msg :=
  Dispatcher.dispatch_all dispatcher_ (TcpConnection.frames e).

(** The connection callback and the handlers of the dispatcher, on the lobby. *)
Definition lobby_posts1 (c : Z) (e : TcpConnection.effect) : list ltask :=
  match e with
  | TcpConnection.ConnectionCb false => [FGone c]
  | _ => map (FMsg c) (filter (fun m => Gateway.to_lobby m = true) (requests [e]))
  end.

Definition lobby_posts (c : Z) (e : list TcpConnection.effect) : list ltask := flat_map (lobby_posts1 c) e.

(** The jobs of [onLeaderboard]. *)
Definition storage_posts (c : Z) (e : list TcpConnection.effect) : list Storage.task :=
  map Storage.TJob (omap Gateway.job_of (flat_map (Gateway.leaderboard_effects (Storage.enabled o) c) (requests e))).

(** The close callback, [TcpServer::removeConnection]. *)
Definition removals (c : Z) (e : list TcpConnection.effect) : list Z :=
  omap (fun x => match x with TcpConnection.CloseCb => Some c | _ => None end) e.

(** The connection [c] after a call or an event, and what its callbacks posted. *)
Definition after_conn (c : Z) (l : loop) (k : TcpConnection.conn) (e : list TcpConnection.effect) (s : t) : t :=
  mk (sys s) (srv s) (<[c := (l, k)]> (conns s)) (fresh s) (baseq s ++ removals c e) (lobq s ++ lobby_posts c e)
     (stq s ++ storage_posts c e) (sth s) (world s).

(** An event of connection [c]; [ans] are the answers of [write] to the sends of
    the message callback. *)
Definition conn_event (c : Z) (ans : list TcpConnection.write_result) (ev : TcpConnection.event) (s : t)
  : res (t * list entry) :=
  match conns s !! c with
  | None => Ok (s, [])
  | Some (l, k) =>
      (let! (k', e) := TcpConnection.exec (messageCb (Storage.enabled o) c ans) ev k in
       Ok (after_conn c l k' e s, map (GIo c) e))%gs
  end.

(** ** The output of the lobby, the rooms and the storage thread *)

Definition send_out (x : System.out) (s : t) : res (t * list entry) :=
  match x with
  | System.OSend c m =>
      (let! (s1, e) := conn_event c [] (TcpConnection.EvSend (enc m)) s in Ok (s1, GSend c m :: e))%gs
  | System.OShutdown c => conn_event c [] TcpConnection.EvShutdown s
  | System.OJob j => Ok (set_stq (stq s ++ [Storage.TJob j]) s, [])
  end.

Fixpoint send_outs (os : list System.out) (s : t) : res (t * list entry) :=
  match os with
  | [] => Ok (s, [])
  | x :: os' =>
      (let! (s1, e1) := send_out x s in
       let! (s2, e2) := send_outs os' s1 in
       Ok (s2, e1 ++ e2))%gs
  end.

Section Exec.
Context {HO : HashOrder} {LM : Libm}.

Definition sys_step (x : System.label) (s : t) : res (t * list entry) :=
  (let! (y, os) := System.exec x (sys s) in
   let! (s1, e) := send_outs os (set_sys y s) in
   Ok (s1, GSys x os :: e))%gs.

(** ** Steps *)

(** [TcpServer::newConnection] *)
Definition accept (s : t) : res (t * list entry) :=
  let c := TcpServer.nextConnId_ (srv s) in
  (let! (sv, e) := TcpServer.newConnection (srv s) in
   Ok (match e with
       | TcpServer.PostEstablish l _ :: _ =>
           mk (sys s) sv (<[c := (l, (TcpConnection.init, []))]> (conns s)) ({[c]} ∪ fresh s) (baseq s) (lobq s)
              (stq s) (sth s) (world s)
       | _ => s
       end, []))%gs.

Definition establish (c : Z) (s : t) : t * list entry :=
  match conns s !! c with
  | Some (l, (k, ts)) =>
      if decide (c ∈ fresh s) then
        let (k', e) := TcpConnection.connectEstablished k in
        (mk (sys s) (srv s) (<[c := (l, (k', ts))]> (conns s)) (fresh s ∖ {[c]}) (baseq s) (lobq s) (stq s) (sth s) (world s),
         map (GIo c) e)
      else (s, [])
  | None => (s, [])
  end.

(** The task of [removeConnection] on the base loop. *)
Definition remove (s : t) : res (t * list entry) :=
  match baseq s with
  | [] => Ok (s, [])
  | c :: rest =>
      let l := match conns s !! c with Some (l, _) => l | None => None end in
      let (sv, _) := TcpServer.removeConnection (GameServer.connName c, l) (srv s) in
      conn_event c [] TcpConnection.EvDestroy
        (mk (sys s) sv (conns s) (fresh s) rest (lobq s) (stq s) (sth s) (world s))
  end.

(** The lobby runs the first functor of the IO threads. *)
Definition run_functor (now rnd1 rnd2 : Z) (s : t) : res (t * list entry) :=
  match lobq s with
  | [] => Ok (s, [])
  | f :: rest =>
      match match f with
            | FMsg c m => Gateway.lobby_event now rnd1 rnd2 c m
            | FGone c => Some (GameServer.EvDisconnect c)
            end with
      | None => Ok (set_lobq rest s, [GTake f])
      | Some ev => (let! (s1, e) := sys_step (System.LLobby ev) (set_lobq rest s) in Ok (s1, GTake f :: e))%gs
      end
  end.

(** The storage thread runs the first task of its queue. *)
Definition run_storage (s : t) : res (t * list entry) :=
  match stq s with
  | [] => Ok (s, [])
  | tk :: rest =>
      (let! (th, w, e) := Storage.run_task o tk (sth s) (world s) in
       let os := omap System.emit e in
       let! (s1, e1) := send_outs os (mk (sys s) (srv s) (conns s) (fresh s) (baseq s) (lobq s) rest th w) in
       Ok (s1, GStore os :: e1))%gs
  end.

(** A connection gets events and tasks once it is established. *)
Definition exec (x : label) (s : t) : res (t * list entry) :=
  match x with
  | SAccept => accept s
  | SEstablish c => Ok (establish c s)
  | SReady c rev rs ws ans => if decide (c ∈ fresh s) then Ok (s, []) else conn_event c ans (TcpConnection.EvReady rev rs ws) s
  | STask c r => if decide (c ∈ fresh s) then Ok (s, []) else conn_event c [] (TcpConnection.EvTask r) s
  | SRemove => remove s
  | SLobby now r1 r2 => run_functor now r1 r2 s
  | SWheel now => sys_step (System.LLobby (GameServer.EvWheel now)) s
  | SQueue => sys_step System.LQueue s
  | SRoomTask l => sys_step (System.LTask l) s
  | STick rid => sys_step (System.LTick rid) s
  | SStore => run_storage s
  end.

End Exec.

(** The server after [start]. *)
Definition boot (ioThreads gameThreads : Z) (w : W) : t :=
  mk (System.boot gameThreads (Storage.enabled o)) (TcpServer.started "gameserver" ioThreads) ∅ ∅ [] []
     (default [] (Storage.start o)) Storage.init w.

(** Fewer than [INT_MAX] connections and [2^62] ticks. *)
Definition in_range (s : t) : Prop :=
  GameServer.in_time (System.lob (sys s)) /\ TcpServer.nextConnId_ (srv s) < 2 ^ 31 - 1.

Inductive run : t -> list label -> list entry -> t -> Prop :=
  | run_nil s : run s [] [] s
  | run_step s xs tr s1 x s2 e (HO : HashOrder) (LM : Libm) :
      run s xs tr s1 -> in_range s1 -> exec x s1 = Ok (s2, e) -> run s (xs ++ [x]) (tr ++ e) s2.

(** ** Reading a trace *)

(** The effects of connection [c]. *)
Definition io (c : Z) (tr : list entry) : list TcpConnection.effect :=
  omap (fun g => match g with GIo c' e => if decide (c' = c) then Some e else None | _ => None end) tr.

(** The messages given to [codec_.send] for [c]. *)
Definition sends_to (c : Z) (tr : list entry) : list server_msg :=
  omap (fun g => match g with GSend c' m => if decide (c' = c) then Some m else None | _ => None end) tr.

Definition request_of (c : Z) (f : ltask) : option client_msg :=
  match f with FMsg c' m => if decide (c' = c) then Some m else None | FGone _ => None end.

(** The requests of [c] the lobby has handled. *)
Definition handled (c : Z) (tr : list entry) : list client_msg :=
  omap (fun g => match g with GTake f => request_of c f | _ => None end) tr.

Definition sys_labels (tr : list entry) : list System.label :=
  omap (fun g => match g with GSys x _ => Some x | _ => None end) tr.

Definition sys_outs (tr : list entry) : list System.out :=
  flat_map (fun g => match g with GSys _ os => os | _ => [] end) tr.

(** The messages for [c] among the output of the lobby, the rooms and the
    storage thread. *)
Definition outs_to (c : Z) (os : list System.out) : list server_msg :=
  omap (fun x => match x with System.OSend c' m => if decide (@eq Z c' c) then Some m else None | _ => None end) os.

Definition outs (tr : list entry) : list System.out :=
  flat_map (fun g => match g with GSys _ os | GStore os => os | _ => [] end) tr.

(** ** Lemmas on traces *)

Lemma io_app c tr1 tr2 : io c (tr1 ++ tr2) = io c tr1 ++ io c tr2.
Proof. apply omap_app. Qed.

Lemma sends_to_app c tr1 tr2 : sends_to c (tr1 ++ tr2) = sends_to c tr1 ++ sends_to c tr2.
Proof. apply omap_app. Qed.

Lemma handled_app c tr1 tr2 : handled c (tr1 ++ tr2) = handled c tr1 ++ handled c tr2.
Proof. apply omap_app. Qed.

Lemma sys_labels_app tr1 tr2 : sys_labels (tr1 ++ tr2) = sys_labels tr1 ++ sys_labels tr2.
Proof. apply omap_app. Qed.

Lemma sys_outs_app tr1 tr2 : sys_outs (tr1 ++ tr2) = sys_outs tr1 ++ sys_outs tr2.
Proof. apply flat_map_app. Qed.

Lemma requests_app e1 e2 : requests (e1 ++ e2) = requests e1 ++ requests e2.
Proof. unfold requests, Dispatcher.dispatch_all. by rewrite TcpConnection.frames_app, omap_app. Qed.

Lemma io_map c c' e : io c (map (GIo c') e) = if decide (c' = c) then e else [].
Proof.
  unfold io. induction e as [|x e IH]; cbn [map omap list_omap]; [by destruct (decide _)|].
  destruct (decide (c' = c)); [by rewrite IH|exact IH].
Qed.

Lemma lobby_requests c c' e :
  omap (request_of c') (lobby_posts c e) =
  if decide (c = c') then filter (fun m => Gateway.to_lobby m = true) (requests e) else [].
Proof.
  assert (forall ms, omap (request_of c') (map (FMsg c) ms) = if decide (c = c') then ms else []) as Hm.
  { induction ms as [|m ms IH]; cbn [map omap list_omap]; [by destruct (decide _)|]. cbn [request_of].
    destruct (decide (c = c')); [by rewrite IH|exact IH]. }
  induction e as [|x e IH]; [by destruct (decide _)|].
  change (lobby_posts c (x :: e)) with (lobby_posts1 c x ++ lobby_posts c e).
  change (requests (x :: e)) with (requests ([x] ++ e)). rewrite requests_app, filter_app, omap_app, IH. unfold lobby_posts1.
  destruct x; try (rewrite Hm; destruct (decide _); [done|by rewrite ?app_nil_r]).
  destruct connected; [rewrite Hm|]; by destruct (decide _).
Qed.

Lemma lobby_posts_from c e f :
  f ∈ lobby_posts c e -> f = FGone c \/ exists m, f = FMsg c m /\ Gateway.to_lobby m = true.
Proof.
  unfold lobby_posts. rewrite list_elem_of_In, in_flat_map. intros (x & _ & Hf). rewrite <- list_elem_of_In in Hf.
  unfold lobby_posts1 in Hf.
  assert (forall ms, f ∈ map (FMsg c) (filter (fun m => Gateway.to_lobby m = true) ms) ->
    f = FGone c \/ exists m, f = FMsg c m /\ Gateway.to_lobby m = true) as Hm.
  { intros ms H. apply list_elem_of_fmap in H as (m & -> & [H _]%list_elem_of_filter). eauto. }
  destruct x; try by eapply Hm. destruct connected; [by eapply Hm|]. apply list_elem_of_singleton in Hf. by left.
Qed.

Lemma storage_posts_from c e c' n : Storage.TJob (GameServer.JLeaderboard c' n) ∈ storage_posts c e -> c' = c.
Proof.
  unfold storage_posts. intros H. apply list_elem_of_fmap in H as (j & Hj & H). injection Hj as <-.
  apply list_elem_of_omap in H as (x & Hx & Hj). rewrite list_elem_of_In, in_flat_map in Hx. destruct Hx as (m & _ & Hx).
  rewrite <- list_elem_of_In in Hx. unfold Gateway.leaderboard_effects, GameServer.onLeaderboard in Hx.
  destruct m; try by apply not_elem_of_nil in Hx.
  destruct (Storage.enabled o); apply list_elem_of_singleton in Hx; subst x; by inv Hj.
Qed.

(** ** One connection *)

(** The state of a connection against its trace [e] and the messages [P] given
    to [send] for it. *)
Record Link (c : Z) (k : TcpConnection.t) (ts : list TcpConnection.task) (e : list TcpConnection.effect)
    (P : list server_msg) : Prop := mkLink {
  Lk_out : TcpConnection.Out k (TcpConnection.wire e) (TcpConnection.sent e);
  Lk_sends : Gateway.Sends k ts (Gateway.sent_msgs e) (map enc P) (Gateway.owed (Storage.enabled o) c e);
  Lk_in : TcpConnection.ReadFailed ∉ e -> snd (fst (Codec.decode (TcpConnection.received e))) = false ->
    TcpConnection.Inp k (TcpConnection.received e) (TcpConnection.frames e);
}.

Lemma Link_exec (c : Z) ans ev k ts e P pre :
  Link c k ts e P -> Gateway.given ev = map enc pre ->
  exists k' ts' e', TcpConnection.exec (messageCb (Storage.enabled o) c ans) ev (k, ts) = Ok ((k', ts'), e') /\
    Link c k' ts' (e ++ e') (P ++ pre).
Proof.
  intros [HO HS HI] Hpre.
  destruct (TcpConnection.good_exec (messageCb (Storage.enabled o) c ans) ev k ts _ _ HO) as (k' & ts' & e' & Hex & Hg).
  exists k', ts', e'. split; [done|]. split.
  - rewrite TcpConnection.wire_app, TcpConnection.sent_app. by apply Hg.
  - rewrite Gateway.sent_msgs_app, map_app, <- Hpre, Gateway.owed_app. by eapply Gateway.Sends_exec.
  - rewrite not_elem_of_app. intros [Hf1 Hf2] Hl. rewrite TcpConnection.received_app, TcpConnection.frames_app in *.
    eapply (TcpConnection.good_in_exec _ (Gateway.messageCb_consumes _ _ _)); [exact Hex| |done|done].
    apply HI; [done|]. by eapply TcpConnection.legal_prefix.
Qed.

Lemma Link_init c : Link c TcpConnection.init [] [] [].
Proof.
  split.
  - split; [apply Buffer.wf_init_buffer|]. exists []. split; [done|]. simpl. rewrite Buffer.readable_init. split; [done|].
    by vm_compute.
  - apply Gateway.Sends_init.
  - intros _ _. split; [apply Buffer.wf_init_buffer|by vm_compute].
Qed.

Lemma Link_established c :
  Link c (fst (TcpConnection.connectEstablished TcpConnection.init)) []
    (snd (TcpConnection.connectEstablished TcpConnection.init)) [].
Proof.
  split.
  - split; [apply Buffer.wf_init_buffer|]. exists []. split; [done|]. simpl. rewrite Buffer.readable_init. split; [done|].
    by vm_compute.
  - apply Gateway.Sends_init.
  - intros _ _. split; [apply Buffer.wf_init_buffer|by vm_compute].
Qed.

(** A posted [connectDestroyed] stays until it has run. *)
Lemma destroy_kept cb ev k ts k' ts' e :
  TcpConnection.exec cb ev (k, ts) = Ok ((k', ts'), e) -> TcpConnection.TDestroy ∈ ts ->
  TcpConnection.TDestroy ∈ ts' \/ TcpConnection.RemoveChannel ∈ e.
Proof.
  destruct ev as [msg| | |r|rev rs ws]; cbn [TcpConnection.exec].
  - destruct (decide _); intros H; apply Ok_inj in H; inv H; [|by left]. intros H. left. apply elem_of_app. by left.
  - destruct (decide _); intros H; apply Ok_inj in H; inv H; [|by left]. intros H. left. apply elem_of_app. by left.
  - intros H; apply Ok_inj in H; inv H. intros _. left. apply elem_of_app. right. by constructor.
  - destruct ts as [|tk ts]; [intros H; apply Ok_inj in H; inv H; by left|].
    destruct (TcpConnection.exec_task tk r k) as [k1 e1] eqn:E. intros H. apply Ok_inj in H. inv H.
    intros [<-|H]%elem_of_cons; [right|by left]. simpl in E. unfold TcpConnection.connectDestroyed in E.
    destruct (decide _); inv E; [|by constructor]. do 2 right. by constructor.
  - destruct (TcpConnection.run_callbacks _ _ _ _ _) as [[k1 e1]|]; cbn [res_bind]; [|done].
    intros H. apply Ok_inj in H. inv H. by left.
Qed.

(** ** The invariant *)

Context (gameThreads : Z) (Hgt : 0 < gameThreads < 2 ^ 31).

(** Connections that have been established. *)
Definition live (s : t) (c : Z) : Prop := is_Some (conns s !! c) /\ c ∉ fresh s.

Definition lobby_task (f : ltask) : Prop := match f with FMsg _ m => Gateway.to_lobby m = true | FGone _ => True end.

Definition task_conn (f : ltask) : Z := match f with FMsg c _ | FGone c => c end.

Record Inv (s : t) (tr : list entry) : Prop := mkInv {
  V_sys : exists ends, System.run (System.boot gameThreads (Storage.enabled o)) (sys_labels tr) ends (sys_outs tr) (sys s);
  V_in : Origin.sys_in (live s) (sys s);
  V_link : forall c l k ts, conns s !! c = Some (l, (k, ts)) -> Link c k ts (io c tr) (sends_to c tr);
  V_none : forall c, conns s !! c = None -> io c tr = [] /\ sends_to c tr = [];
  V_fresh : forall c, c ∈ fresh s ->
    (exists l, conns s !! c = Some (l, (TcpConnection.init, []))) /\ io c tr = [] /\ sends_to c tr = [];
  V_reqs : forall c, handled c tr ++ omap (request_of c) (lobq s) =
    filter (fun m => Gateway.to_lobby m = true) (requests (io c tr));
  V_lobq : forall f, f ∈ lobq s -> live s (task_conn f) /\ lobby_task f;
  V_stq : forall c n, Storage.TJob (GameServer.JLeaderboard c n) ∈ stq s -> live s c;
  V_base : forall c, c ∈ baseq s -> live s c;
  V_ids : forall c, is_Some (conns s !! c) -> 0 < c < TcpServer.nextConnId_ (srv s);
  V_srv : TcpServer.name_ (srv s) = "gameserver"%string /\ EventLoopThreadPool.wf (TcpServer.threadPool_ (srv s)) /\
    0 < TcpServer.nextConnId_ (srv s);
  V_sto : Storage.wf (sth s);
}.

(** Who keeps a connection object alive and who takes it down: as long as its
    channel is registered, the table or the posted [connectDestroyed] holds the
    object; a connection that reported its end is being removed. *)
Record Own (s : t) (tr : list entry) : Prop := mkOwn {
  W_own : forall c l k ts, conns s !! c = Some (l, (k, ts)) ->
    TcpConnection.RemoveChannel ∈ io c tr \/ TcpConnection.TDestroy ∈ ts \/
    TcpServer.connections_ (srv s) !! GameServer.connName c = Some l;
  W_close : forall c, TcpConnection.CloseCb ∈ io c tr ->
    c ∈ baseq s \/ TcpConnection.RemoveChannel ∈ io c tr \/
    exists l k ts, conns s !! c = Some (l, (k, ts)) /\ TcpConnection.TDestroy ∈ ts;
}.

Lemma removals_close c e : TcpConnection.CloseCb ∈ e -> c ∈ removals c e.
Proof. intros H. apply list_elem_of_omap. by exists TcpConnection.CloseCb. Qed.

Lemma removals_from c e c' : c' ∈ removals c e -> c' = c.
Proof. unfold removals. intros (x & _ & H)%list_elem_of_omap. by destruct x; inv H. Qed.

(** The trace of a step of connection [c] that carries out the sends [pre]. *)
Definition conn_trace (c : Z) (pre : list server_msg) (e : list TcpConnection.effect) : list entry :=
  map (GSend c) pre ++ map (GIo c) e.

Lemma conn_trace_reads c pre e :
  (forall c', io c' (conn_trace c pre e) = if decide (c = c') then e else []) /\
  (forall c', sends_to c' (conn_trace c pre e) = if decide (c = c') then pre else []) /\
  (forall c', handled c' (conn_trace c pre e) = []) /\
  sys_labels (conn_trace c pre e) = [] /\ sys_outs (conn_trace c pre e) = [] /\ outs (conn_trace c pre e) = [].
Proof.
  unfold conn_trace. induction pre as [|m pre (H1 & H2 & H3 & H4 & H5 & H6)].
  - cbn [map app]. split; [intros c'; apply io_map|]. induction e as [|x e (H2 & H3 & H4 & H5 & H6)];
      [split_and!; try done; intros c'; by destruct (decide _)|]. by split_and!.
  - split_and!; [exact H1| |exact H3|exact H4|exact H5|exact H6]. intros c'. specialize (H2 c').
    unfold sends_to in *. cbn [map app omap list_omap]. destruct (decide (c = c')); [by rewrite H2|exact H2].
Qed.

Lemma live_after_conn c l k e s c' : live s c' -> live (after_conn c l k e s) c'.
Proof.
  intros [[x Hx] Hf]. split; [|exact Hf]. cbn [after_conn conns].
  destruct (decide (c = c')) as [->|]; [rewrite lookup_insert_eq; by eexists|rewrite lookup_insert_ne by done; by eexists].
Qed.

(** A step of an established connection. *)
Lemma Inv_conn s tr (c : Z) l k ts ans ev pre :
  Inv s tr -> conns s !! c = Some (l, (k, ts)) -> c ∉ fresh s -> Gateway.given ev = map enc pre ->
  exists k' e, TcpConnection.exec (messageCb (Storage.enabled o) c ans) ev (k, ts) = Ok (k', e) /\
    Inv (after_conn c l k' e s) (tr ++ conn_trace c pre e).
Proof.
  intros HV Hc Hnf Hpre. destruct (Link_exec c ans ev k ts _ _ pre (V_link s tr HV _ _ _ _ Hc) Hpre)
    as (k' & ts' & e & Hex & HL). exists (k', ts'), e. split; [done|].
  destruct (conn_trace_reads c pre e) as (Hio & Hst & Hh & Hl & Ho & _).
  assert (live s c) as Hlc by (by split; [eexists|]).
  destruct HV as [Hsys Hin Hlink Hnone Hfresh Hreqs Hlob Hstq Hbase Hids Hsrv Hsto].
  split; try (intros c'; rewrite ?io_app, ?Hio, ?sends_to_app, ?Hst, ?handled_app, ?Hh).
  - by rewrite sys_labels_app, sys_outs_app, Hl, Ho, !app_nil_r.
  - eapply Origin.sys_in_mono; [intros c'; by apply live_after_conn|exact Hin].
  - intros l' k0 ts0 H. cbn [after_conn conns] in H. apply lookup_insert_Some in H as [[<- [= <- <- <-]]|[Hne H]].
    + rewrite !decide_True by done. exact HL.
    + rewrite !decide_False, !app_nil_r by done. by eapply Hlink.
  - intros H. cbn [after_conn conns] in H. apply lookup_insert_None in H as [H Hne]. rewrite !decide_False, !app_nil_r by done.
    by apply Hnone.
  - intros H. cbn [after_conn fresh conns] in *. destruct (decide (c = c')) as [->|Hne]; [done|].
    rewrite lookup_insert_ne, !app_nil_r by done. by apply Hfresh.
  - cbn [after_conn lobq]. rewrite app_nil_r, omap_app, (assoc_L (++)), Hreqs, requests_app, filter_app, lobby_requests.
    by destruct (decide _).
  - intros [H|H]%elem_of_app; [destruct (Hlob _ H); split; [by apply live_after_conn|done]|].
    apply lobby_posts_from in H as [->|(m & -> & Hm)]; split; try done; by apply live_after_conn.
  - intros n [H|H]%elem_of_app; apply live_after_conn; [by eapply Hstq|]. by apply storage_posts_from in H as ->.
  - intros [H|H]%elem_of_app; apply live_after_conn; [by apply Hbase|]. by apply removals_from in H as ->.
  - intros [x Hx]. cbn [after_conn conns srv] in *. apply Hids. apply lookup_insert_Some in Hx as [[<- _]|[_ Hx]]; by eexists.
  - exact Hsrv.
  - exact (Hsto c').
Qed.

Lemma Own_conn s tr (c : Z) l k ts ans ev pre k' e :
  Own s tr -> conns s !! c = Some (l, (k, ts)) ->
  TcpConnection.exec (messageCb (Storage.enabled o) c ans) ev (k, ts) = Ok (k', e) ->
  Own (after_conn c l k' e s) (tr ++ conn_trace c pre e).
Proof.
  intros [Hown Hclose] Hc Hex. destruct (conn_trace_reads c pre e) as (Hio & _). destruct k' as [k' ts'].
  split; intros c'; rewrite io_app, Hio; cbn [after_conn conns srv baseq].
  - intros l' k0 ts0 [[<- [= <- <- <-]]|[Hne H]]%lookup_insert_Some; rewrite elem_of_app.
    + rewrite decide_True by done. destruct (Hown _ _ _ _ Hc) as [?|[Hd|?]]; [tauto| |tauto].
      destruct (destroy_kept _ _ _ _ _ _ _ Hex Hd); tauto.
    + destruct (Hown _ _ _ _ H) as [?|[?|?]]; tauto.
  - rewrite !elem_of_app. intros [[H|[H|(l0 & k0 & ts0 & H & Hd)]]%Hclose|H]; [tauto|tauto| |].
    + destruct (decide (c = c')) as [<-|Hne].
      * pose proof (eq_trans (eq_sym Hc) H) as Heq. injection Heq as <- <- <-.
        destruct (destroy_kept _ _ _ _ _ _ _ Hex Hd); [|tauto]. right. right. rewrite lookup_insert_eq. by eexists _, _, _.
      * right. right. rewrite lookup_insert_ne by done. by eexists _, _, _.
    + destruct (decide (c = c')) as [<-|Hne]; [|by apply not_elem_of_nil in H]. left. right. by apply removals_close.
Qed.

Definition Good (s : t) (tr : list entry) : Prop := Inv s tr /\ Own s tr.

(** From [s] to [s'] with trace [e], on behalf of the output [os]: the game's
    state is the same, established connections stay, and the sends of the trace
    are those of [os]. *)
Record carries (os : list System.out) (s : t) (e : list entry) (s' : t) : Prop := mkCarries {
  Y_sys : sys s' = sys s;
  Y_live : forall c, live s c -> live s' c;
  Y_sends : forall c, sends_to c e = outs_to c os;
  Y_handled : forall c, handled c e = [];
  Y_outs : outs e = [];
  Y_labels : sys_labels e = [];
}.

Definition out_live (s : t) (x : System.out) : Prop :=
  match x with
  | System.OSend c _ | System.OShutdown c | System.OJob (GameServer.JLeaderboard c _) => live s c
  | System.OJob _ => True
  end.

Lemma Good_conn_event s tr (c : Z) ans ev pre :
  Good s tr -> live s c -> Gateway.given ev = map enc pre ->
  exists s' e, conn_event c ans ev s = Ok (s', map (GIo c) e) /\ Good s' (tr ++ conn_trace c pre e) /\
    sys s' = sys s /\ (forall c', live s c' -> live s' c').
Proof.
  intros [HV HW] [[[l [k ts]] Hc] Hf] Hpre. destruct (Inv_conn s tr c l k ts ans ev pre HV Hc Hf Hpre) as (k' & e & Hex & HV').
  unfold conn_event. rewrite Hc. rewrite Hex. cbn [res_bind]. eexists _, e. split; [done|]. split_and!; [|done|].
  - split; [done|by eapply Own_conn].
  - intros c'. apply live_after_conn.
Qed.

Lemma Good_send_out s tr x :
  Good s tr -> out_live s x ->
  exists s' e, send_out x s = Ok (s', e) /\ Good s' (tr ++ e) /\ carries [x] s e s'.
Proof.
  intros HG Hx. destruct x as [c m|c|j]; cbn [send_out out_live] in *.
  - destruct (Good_conn_event s tr c [] (TcpConnection.EvSend (enc m)) [m] HG Hx eq_refl) as (s' & e & -> & HG' & Hs & Hl).
    cbn [res_bind]. eexists _, _. split; [done|]. split; [exact HG'|].
    destruct (conn_trace_reads c [m] e) as (_ & H2 & H3 & H4 & _ & H6). split; try done.
    intros c'. etrans; [apply H2|]. cbn. by destruct (decide _).
  - destruct (Good_conn_event s tr c [] TcpConnection.EvShutdown [] HG Hx eq_refl) as (s' & e & -> & HG' & Hs & Hl).
    eexists _, _. split; [done|]. split; [exact HG'|]. destruct (conn_trace_reads c [] e) as (_ & H2 & H3 & H4 & _ & H6).
    split; try done. intros c'. specialize (H2 c'). by destruct (decide _).
  - eexists _, _. split; [done|]. rewrite app_nil_r. split; [|by split].
    destruct HG as [[Hsys Hin Hlink Hnone Hfresh Hreqs Hlob Hstq Hbase Hids Hsrv Hsto] HW]. split; [|by destruct HW]. split; try done.
    intros c n [H|H]%elem_of_app; [by eapply Hstq|]. apply list_elem_of_singleton in H. by inv H.
Qed.

Lemma carries_trans x os s e1 s1 e2 s2 :
  carries [x] s e1 s1 -> carries os s1 e2 s2 -> carries (x :: os) s (e1 ++ e2) s2.
Proof.
  intros [H1 H2 H3 H4 H5 H5'] [H6 H7 H8 H9 H10 H11]. split.
  - congruence.
  - auto.
  - intros c. rewrite sends_to_app, H3, H8. unfold outs_to. by rewrite <- (omap_app _ [x]).
  - intros c. by rewrite handled_app, H4, H9.
  - unfold outs in *. by rewrite flat_map_app, H5, H10.
  - by rewrite sys_labels_app, H5', H11.
Qed.

Lemma Good_send_outs os s tr :
  Good s tr -> Forall (out_live s) os ->
  exists s' e, send_outs os s = Ok (s', e) /\ Good s' (tr ++ e) /\ carries os s e s'.
Proof.
  revert s tr. induction os as [|x os IH]; intros s tr HG Hos; cbn [send_outs].
  { eexists _, _. split; [done|]. rewrite app_nil_r. by split. }
  apply Forall_cons in Hos as [Hx Hos]. destruct (Good_send_out s tr x HG Hx) as (s1 & e1 & -> & HG1 & Hc1). cbn [res_bind].
  destruct (IH s1 (tr ++ e1) HG1) as (s2 & e2 & -> & HG2 & Hc2).
  { eapply Forall_impl; [exact Hos|]. intros [c m|c|[]]; cbn [out_live]; try done; apply Hc1. }
  cbn [res_bind]. eexists _, _. split; [done|]. rewrite (assoc_L (++)). split; [exact HG2|]. by eapply carries_trans.
Qed.

(** The heartbeats among messages. *)
Definition beats (ms : list server_msg) : list Z :=
  omap (fun m => match m with MHeartbeat ms => Some ms | _ => None end) ms.

(** What a step of the system may send: heartbeats only for a heartbeat. *)
Definition label_beats (c : Z) (x : System.label) : list Z :=
  match x with
  | System.LLobby (GameServer.EvHeartbeat c' ms _) => if decide (@eq Z c' c) then [ms] else []
  | _ => []
  end.

Lemma no_beats c os K : Forall (Origin.out_in K) os -> beats (outs_to c os) = [].
Proof.
  induction 1 as [|x os Hx _ IH]; [done|]. destruct x as [c' m| |]; cbn [outs_to omap list_omap]; try exact IH.
  destruct (decide (@eq Z c' c)); [|exact IH]. destruct m; try exact IH. by destruct Hx.
Qed.

(** A step that touches no connection and leaves the entry [g]. *)
Lemma Good_entry g s s' tr :
  Good s tr -> (forall c, io c [g] = []) -> (forall c, sends_to c [g] = []) ->
  conns s' = conns s -> fresh s' = fresh s -> srv s' = srv s -> baseq s' = baseq s ->
  (exists ends, System.run (System.boot gameThreads (Storage.enabled o)) (sys_labels (tr ++ [g])) ends (sys_outs (tr ++ [g])) (sys s')) ->
  Origin.sys_in (live s) (sys s') -> Storage.wf (sth s') ->
  (forall c, handled c [g] ++ omap (request_of c) (lobq s') = omap (request_of c) (lobq s)) ->
  (forall f, f ∈ lobq s' -> f ∈ lobq s) -> (forall tk, tk ∈ stq s' -> tk ∈ stq s) -> Good s' (tr ++ [g]).
Proof.
  intros [[_ _ Hlink Hnone Hfresh Hreqs Hlob Hstq Hbase Hids Hsrv Hsto] [Hown Hclose]] Hio Hse Ec Ef Ev Eb Hsys Hin Hsto' Hq Hf Ht.
  assert (forall c, io c (tr ++ [g]) = io c tr) as Hio' by (intros c; by rewrite io_app, Hio, app_nil_r).
  assert (forall c, sends_to c (tr ++ [g]) = sends_to c tr) as Hse' by (intros c; by rewrite sends_to_app, Hse, app_nil_r).
  assert (forall c, live s c -> live s' c) as Hlive by (intros c; unfold live; by rewrite Ec, Ef).
  split; split; try done; try (intros c; rewrite ?Hio', ?Hse', ?Ec, ?Ef, ?Ev, ?Eb; auto; fail).
  - by eapply Origin.sys_in_mono.
  - intros c l k ts. rewrite Hio', Hse', Ec. apply Hlink.
  - intros c. by rewrite handled_app, <- (assoc_L (++)), Hq, Hio'.
  - intros f H. destruct (Hlob f (Hf f H)). auto.
  - intros c n H. by eapply Hlive, Hstq, Ht.
  - by rewrite Ev.
  - intros c l k ts. rewrite Hio', Ec, Ev. apply Hown.
Qed.

Lemma Good_sys_step {HO : HashOrder} {LM : Libm} x s tr :
  Good s tr -> GameServer.in_time (System.lob (sys s)) -> System.label_ok x -> Origin.label_in (live s) x ->
  exists s' os e, sys_step x s = Ok (s', GSys x os :: e) /\ Good s' (tr ++ GSys x os :: e) /\
    (forall c, sends_to c e = outs_to c os) /\ (forall c, handled c e = []) /\ outs e = [] /\ sys_labels e = [] /\
    (forall c, beats (outs_to c os) = label_beats c x).
Proof.
  intros [HV HW] Ht Hx Hl. destruct (V_sys s tr HV) as [ends Hrun].
  pose proof (System.run_SInv _ _ _ _ _ Hrun (System.SInv_boot _ _ Hgt)) as HI.
  destruct (System.exec_SInv x (sys s) HI Ht Hx) as (y & os & Hex & _).
  destruct (Origin.sys_in_step (live s) x (sys s) y os HI Ht Hx Hex (V_in s tr HV) Hl) as [Hin Hos].
  assert (Good (set_sys y s) (tr ++ [GSys x os])) as HG1.
  { apply (Good_entry (GSys x os) s); try done; [|apply (V_sto s tr HV)]. exists (ends ++ System.handles_end x (sys s)).
    rewrite sys_labels_app, sys_outs_app. cbn. rewrite app_nil_r. by apply System.sys_run_snoc. }
  assert (Forall (out_live (set_sys y s)) os /\ forall c, beats (outs_to c os) = label_beats c x) as [Hlv Hb].
  { assert (Forall (Origin.out_in (live s)) os -> Forall (out_live (set_sys y s)) os) as H0.
    { intros H. eapply Forall_impl; [exact H|]. intros [c m|c|[]]; cbn; try done. by intros []. }
    destruct x as [[]| | | |]; try (split; [by apply H0|intros c'; by eapply no_beats]).
    subst os. split; [constructor; [exact Hl|constructor]|]. intros c'. cbn [outs_to omap list_omap label_beats]. by destruct (decide (@eq Z c c')). }
  destruct (Good_send_outs os _ _ HG1 Hlv) as (s' & e & He & HG & [_ _ Hs Hh Ho Hla]).
  exists s', os, e. unfold sys_step. rewrite Hex. cbn [res_bind]. rewrite He. cbn [res_bind]. split; [done|].
  rewrite <- (assoc_L (++)) in HG. split_and!; [exact HG|done..].
Qed.

(** ** The steps keep the invariant *)

Lemma name_of (c : Z) : TcpServer.conn_name "gameserver" c = GameServer.connName c.
Proof. done. Qed.

Lemma connName_inj (c c' : Z) : GameServer.connName c = GameServer.connName c' -> c = c'.
Proof. rewrite <- !name_of. apply (inj (TcpServer.conn_name "gameserver")). Qed.

Lemma Good_accept s tr :
  Good s tr -> TcpServer.nextConnId_ (srv s) < 2 ^ 31 - 1 -> exists s', accept s = Ok (s', []) /\ Good s' tr.
Proof.
  intros [[Hsys Hin Hlink Hnone Hfresh Hreqs Hlob Hstq Hbase Hids (Hname & Hwf & Hpos) Hsto] [Hown Hclose]] Hmax. unfold accept, TcpServer.newConnection.
  destruct (EventLoopThreadPool.getNextLoop_wf _ Hwf) as (l & pool & -> & Hwf' & _). cbn [res_bind].
  destruct (Z.ltb_spec (TcpServer.nextConnId_ (srv s)) (2 ^ 31 - 1)); [|lia]. cbn [res_bind]. eexists. split; [done|].
  set (n := TcpServer.nextConnId_ (srv s)) in *. clearbody n. rewrite Hname, name_of.
  assert (conns s !! n = None) as Hn.
  { destruct (conns s !! n) eqn:E; [|done]. exfalso. destruct (Hids n); [by eexists|]. lia. }
  assert (forall c, live s c -> c <> n) as Hne by (intros c [[x Hx] _] ->; congruence).
  set (s' := mk _ _ _ _ _ _ _ _ _).
  assert (forall c, live s c -> live s' c) as Hlive.
  { intros c Hc. pose proof (Hne c Hc). destruct Hc as [Hc Hf]. split; subst s'; cbn [conns fresh];
      [by rewrite lookup_insert_ne|set_solver]. }
  split; split; subst s'; cbn [sys srv conns fresh baseq lobq stq TcpServer.nextConnId_ TcpServer.name_ TcpServer.threadPool_ TcpServer.connections_]; try done.
  - by eapply Origin.sys_in_mono.
  - intros c l' k ts [[<- [= <- <- <-]]|[_ Hc]]%lookup_insert_Some; [|by eapply Hlink].
    destruct (Hnone n Hn) as [-> ->]. apply Link_init.
  - intros c [Hc _]%lookup_insert_None. by apply Hnone.
  - intros c [->%elem_of_singleton|Hc]%elem_of_union; [rewrite lookup_insert_eq; split; [by eexists|by apply Hnone]|].
    destruct (Hfresh c Hc) as [[l' Hl] H']. rewrite lookup_insert_ne by congruence. split; [by eexists|done].
  - intros f Hf. destruct (Hlob f Hf). auto.
  - intros c m Hc. by eapply Hlive, Hstq.
  - intros c Hc. by apply Hlive, Hbase.
  - intros c [x [[<- _]|[_ Hx]]%lookup_insert_Some]; [lia|]. destruct (Hids c); [by eexists|]. lia.
  - split_and!; [done|done|lia].
  - intros c l' k ts [[<- [= <- <- <-]]|[Hc' Hc]]%lookup_insert_Some; [right; right; by rewrite lookup_insert_eq|].
    rewrite lookup_insert_ne by (intros ?%connName_inj; done). by eapply Hown.
  - intros c Hc. destruct (Hclose c Hc) as [?|[?|(l' & k & ts & Hl & Hd)]]; [tauto|tauto|]. right. right.
    rewrite lookup_insert_ne by congruence. by eexists _, _, _.
Qed.

Lemma Good_establish s tr (c : Z) :
  Good s tr -> exists e, (establish c s).2 = conn_trace c [] e /\ Good (establish c s).1 (tr ++ conn_trace c [] e).
Proof.
  intros HG. assert (forall c, Good s (tr ++ conn_trace c [] [])) as Hstay by (intros; by rewrite app_nil_r).
  unfold establish. destruct (conns s !! c) as [[l [k ts]]|] eqn:Hc; [|by exists []]. destruct (decide _) as [Hf|]; [|by exists []].
  destruct HG as [[Hsys Hin Hlink Hnone Hfresh Hreqs Hlob Hstq Hbase Hids Hsrv Hsto] [Hown Hclose]].
  destruct (Hfresh c Hf) as ([l0 Hl] & Hio0 & Hs0). rewrite Hc in Hl. injection Hl as <- -> ->.
  pose proof (Link_established c) as HL. set (e := snd (TcpConnection.connectEstablished TcpConnection.init)) in *.
  set (k' := fst (TcpConnection.connectEstablished TcpConnection.init)) in *. exists e.
  change (TcpConnection.connectEstablished TcpConnection.init) with (k', e). cbn [fst snd]. split; [done|].
  destruct (conn_trace_reads c [] e) as (Hio & Hst & Hh & Hla & Ho & _).
  set (s' := mk _ _ _ _ _ _ _ _ _).
  assert (forall c', live s c' -> live s' c') as Hlive.
  { intros c' [Hc' Hf']. split; subst s'; cbn [conns fresh]; [|set_solver]. rewrite lookup_insert_ne; [done|]. by intros <-. }
  assert (forall c', io c' (tr ++ conn_trace c [] e) = if decide (c = c') then e else io c' tr) as Hio1.
  { intros c'. rewrite io_app, Hio. destruct (decide (c = c')) as [<-|]; [by rewrite Hio0|by rewrite app_nil_r]. }
  assert (forall c', sends_to c' (tr ++ conn_trace c [] e) = sends_to c' tr) as Hst1.
  { intros c'. rewrite sends_to_app, Hst. by destruct (decide _); rewrite app_nil_r. }
  split; split; try (intros c'; rewrite ?Hio1, ?Hst1, ?handled_app, ?Hh); subst s'; cbn [sys srv conns fresh baseq lobq stq]; try done.
  - by rewrite sys_labels_app, sys_outs_app, Hla, Ho, !app_nil_r.
  - by eapply Origin.sys_in_mono.
  - intros l' k0 ts0 [[<- [= <- <- <-]]|[Hn Hc']]%lookup_insert_Some; [|rewrite decide_False by done; by eapply Hlink].
    rewrite decide_True, Hs0 by done. exact HL.
  - intros [Hc' Hn]%lookup_insert_None. rewrite decide_False by done. by apply Hnone.
  - intros [Hc' Hn]%elem_of_difference. rewrite lookup_insert_ne, decide_False by set_solver. by apply Hfresh.
  - rewrite app_nil_r, Hreqs. destruct (decide (c = c')) as [<-|]; [by rewrite Hio0|done].
  - intros Hc'. destruct (Hlob _ Hc'). auto.
  - intros n Hc'. by eapply Hlive, Hstq.
  - intros Hc'. by apply Hlive, Hbase.
  - intros [x [[<- _]|[_ Hx]]%lookup_insert_Some]; apply Hids; by eexists.
  - exact (Hsto c').
  - intros l' k0 ts0 [[<- [= <- <- <-]]|[Hn Hc']]%lookup_insert_Some; [|rewrite decide_False by done; by eapply Hown].
    destruct (Hown _ _ _ _ Hc) as [H|[H|H]]; [rewrite Hio0 in H|..|tauto]; by apply not_elem_of_nil in H.
  - destruct (decide (c = c')) as [<-|Hn]; [intros H; by apply list_elem_of_In in H; repeat destruct H as [H|H]|].
    rewrite lookup_insert_ne by done. apply Hclose.
Qed.

Lemma Good_remove s tr : Good s tr -> exists s', remove s = Ok (s', []) /\ Good s' tr.
Proof.
  intros HG. unfold remove. destruct (baseq s) as [|c rest] eqn:Eb; [by exists s|].
  destruct HG as [[Hsys Hin Hlink Hnone Hfresh Hreqs Hlob Hstq Hbase Hids Hsrv Hsto] [Hown Hclose]]. 
  destruct (Hbase c) as [[[l [k ts]] Hc] Hnf]; [rewrite Eb; by left|]. unfold conn_event.
  cbn [TcpServer.removeConnection conns]. rewrite Hc. cbn [TcpConnection.exec res_bind map].
  eexists. split; [done|].
  assert (forall c', live s c' -> is_Some (<[c := (l, (k, ts ++ [TcpConnection.TDestroy]))]> (conns s) !! c') /\ c' ∉ fresh s) as Hlive.
  { intros c' [[x Hx] Hf]. split; [|exact Hf]. destruct (decide (c = c')) as [->|];
      [rewrite lookup_insert_eq; by eexists|rewrite lookup_insert_ne by done; by eexists]. }
  split; split; cbn [after_conn sys srv conns fresh baseq lobq stq TcpServer.nextConnId_ TcpServer.name_ TcpServer.threadPool_
      TcpServer.connections_ lobby_posts flat_map removals omap list_omap]; rewrite ?app_nil_r; try done.
  - by eapply Origin.sys_in_mono.
  - intros c' l' k' ts' [[<- [= <- <- <-]]|[Hn H]]%lookup_insert_Some; [|by eapply Hlink].
      destruct (Hlink _ _ _ _ Hc) as [H1 H2 H3]. split; [exact H1| |exact H3].
      eapply Gateway.Sends_quiet; [exact H2| |done|done|done|done]. rewrite Gateway.pending_msgs_app. apply app_nil_r.
  - intros c' [H _]%lookup_insert_None. by apply Hnone.
  - intros c' H. destruct (Hfresh c' H) as ([l' Hl'] & Hio & Hs0). rewrite lookup_insert_ne by (by intros ->).
      split; [by exists l'|done].
  - intros f Hf. destruct (Hlob f Hf). split; [by apply Hlive|done].
  - intros c' n H. by eapply Hlive, Hstq.
  - intros c' H. apply Hlive, Hbase. rewrite Eb. by right.
  - intros c' [x [[<- _]|[_ Hx]]%lookup_insert_Some]; apply Hids; by eexists.
  - intros c' l' k' ts' [[<- [= <- <- <-]]|[Hn H]]%lookup_insert_Some.
    + right. left. apply elem_of_app. right. by constructor.
    + destruct (Hown _ _ _ _ H) as [?|[?|?]]; [tauto|tauto|]. right. right.
      rewrite lookup_delete_ne; [done|]. by intros ?%connName_inj.
  - intros c' H. destruct (Hclose c' H) as [H1|[?|(l' & k' & ts' & Hl & Hd)]]; [|tauto|].
    + rewrite Eb in H1. apply elem_of_cons in H1 as [->|H1]; [|by left]. right. right. rewrite lookup_insert_eq.
      eexists _, _, _. split; [done|]. apply elem_of_app. right. by constructor.
    + right. right. destruct (decide (c = c')) as [<-|]; [rewrite lookup_insert_eq|rewrite lookup_insert_ne by done; by eauto].
      rewrite Hc in Hl. injection Hl as -> -> ->. eexists _, _, _. split; [done|]. apply elem_of_app. by left.
Qed.

(** The heartbeats among requests. *)
Definition req_beats (ms : list client_msg) : list Z :=
  omap (fun m => match m with MHeartbeatReq ms => Some ms | _ => None end) ms.

(** The requests of [c] among the steps of the lobby. *)
Definition event_of (c : Z) (x : System.label) : option GameServer.event :=
  match x with
  | System.LLobby ev =>
      match ev with
      | GameServer.EvLogin c' _ _ _ _ | GameServer.EvReconnect c' _ _ _ | GameServer.EvMatch c' | GameServer.EvInput c' _
      | GameServer.EvHeartbeat c' _ _ => if decide (@eq Z c' c) then Some ev else None
      | _ => None
      end
  | _ => None
  end.

Definition events_of (c : Z) (xs : list System.label) : list GameServer.event := omap (event_of c) xs.

(** A request as the lobby handles it at some time. *)
Definition handled_as (c : Z) (m : client_msg) (ev : GameServer.event) : Prop :=
  exists now r1 r2, Gateway.lobby_event now r1 r2 c m = Some ev.

(** The sends of a step are its output, its heartbeats answer requests, and the
    requests it takes are the events of the lobby. *)
Record logs (e : list entry) : Prop := mkLogs {
  G_events : forall c, Forall2 (handled_as c) (handled c e) (events_of c (sys_labels e));
  G_sends : forall c, sends_to c e = outs_to c (outs e);
  G_beats : forall c, beats (sends_to c e) = req_beats (handled c e);
}.

Lemma logs_app e1 e2 : logs e1 -> logs e2 -> logs (e1 ++ e2).
Proof.
  intros [H0 H1 H2] [H5 H3 H4]. split; intros c.
  - unfold events_of in *. rewrite handled_app, sys_labels_app, omap_app. by apply Forall2_app.
  - unfold outs, outs_to in *. by rewrite sends_to_app, flat_map_app, omap_app, H1, H3.
  - unfold beats, req_beats in *. by rewrite sends_to_app, handled_app, !omap_app, H2, H4.
Qed.

Lemma logs_conn c e : logs (conn_trace c [] e).
Proof.
  destruct (conn_trace_reads c [] e) as (_ & H2 & H3 & H4 & _ & H6).
  split; intros c'; rewrite ?H2, ?H3, ?H4, ?H6; try constructor; by destruct (decide _).
Qed.

(** A step of the game for the functor [f], or for none. *)
Lemma logs_sys x os e (f : option ltask) :
  (forall c, sends_to c e = outs_to c os) -> (forall c, handled c e = []) -> outs e = [] ->
  (forall c, beats (outs_to c os) = label_beats c x) ->
  (forall c, label_beats c x = match f with Some f => req_beats (option_list (request_of c f)) | None => [] end) ->
  sys_labels e = [] ->
  (forall c, Forall2 (handled_as c) (match f with Some f => option_list (request_of c f) | None => [] end) (option_list (event_of c x))) ->
  logs (match f with Some f => [GTake f] | None => [] end ++ GSys x os :: e).
Proof.
  intros Hs Hh Ho Hb Hf Hl He. split; intros c.
  - specialize (He c). specialize (Hh c). unfold events_of, handled, sys_labels in *.
    destruct f as [f|]; cbn [app omap list_omap]; rewrite Hl; [destruct (request_of c f)|]; rewrite ?Hh; exact He.
  - assert (outs (GSys x os :: e) = os) as Hos by (cbn; fold (outs e); by rewrite Ho, app_nil_r).
    destruct f; cbn [app]; [change (outs (GTake l :: ?es)) with (outs es)|]; etrans; [apply Hs|by rewrite <- Hos at 1|apply Hs|by rewrite <- Hos at 1].
  - transitivity (label_beats c x); [rewrite <- Hb, <- Hs; by destruct f|]. rewrite Hf. specialize (Hh c). unfold handled in *.
    destruct f as [f|]; cbn [app omap list_omap]; [|by rewrite Hh]. destruct (request_of c f); by rewrite Hh.
Qed.

Section Steps.
Context {HO : HashOrder} {LM : Libm}.

Lemma Good_functor now r1 r2 s tr :
  Good s tr -> GameServer.in_time (System.lob (sys s)) ->
  exists s' e, run_functor now r1 r2 s = Ok (s', e) /\ Good s' (tr ++ e) /\ logs e.
Proof.
  intros HG Ht. unfold run_functor. destruct (lobq s) as [|f rest] eqn:Eq.
  { exists s, []. rewrite app_nil_r. by split_and!. }
  assert (live s (task_conn f) /\ lobby_task f) as [Hl Hlt] by (apply (V_lobq s tr (proj1 HG)); rewrite Eq; left).
  assert (Good (set_lobq rest s) (tr ++ [GTake f])) as HG1.
  { apply (Good_entry (GTake f) s); try done.
    - rewrite sys_labels_app, sys_outs_app. cbn. rewrite !app_nil_r. apply (V_sys s tr (proj1 HG)).
    - apply (V_in s tr (proj1 HG)).
    - apply (V_sto s tr (proj1 HG)).
    - intros c. rewrite Eq. unfold handled. cbn [omap list_omap set_lobq lobq]. by destruct (request_of c f).
    - intros g Hg. rewrite Eq. by right. }
  destruct (match f with FMsg c m => _ | FGone c => _ end) as [ev|] eqn:Eev.
  - assert (System.label_ok (System.LLobby ev) /\ Origin.label_in (live (set_lobq rest s)) (System.LLobby ev) /\
      (forall c, label_beats c (System.LLobby ev) = req_beats (option_list (request_of c f))) /\
      (forall c, Forall2 (handled_as c) (option_list (request_of c f)) (option_list (event_of c (System.LLobby ev)))))
      as (Hok & Hin & Hb & He).
    { destruct f as [c m|c]; [destruct m; inv Eev|inv Eev]; split_and!; try done; intros c'; cbn;
        try (by destruct (decide _)); try constructor;
        (destruct (decide (c = c')) as [<-|]; constructor; [by exists now, r1, r2|constructor]). }
    destruct (Good_sys_step _ _ _ HG1 Ht Hok Hin) as (s' & os & e & -> & HG' & H1 & H2 & H3 & H5 & H4). cbn [res_bind].
    eexists _, _. split; [done|]. rewrite <- (assoc_L (++)) in HG'. split; [exact HG'|].
    by apply (logs_sys _ os e (Some f)).
  - eexists _, _. split; [done|]. split; [exact HG1|]. by destruct f as [c []|c].
Qed.

Lemma Good_storage s tr tk rest th w e :
  Good s tr -> stq s = tk :: rest -> Storage.run_task o tk (sth s) (world s) = Ok (th, w, e) ->
  exists s' e', run_storage s = Ok (s', e') /\ Good s' (tr ++ e') /\ logs e'.
Proof.
  intros HG Eq Hrun. unfold run_storage. rewrite Eq, Hrun. cbn [res_bind]. set (os := omap System.emit e).
  set (s0 := mk _ _ _ _ _ _ rest th w).
  assert (Good s0 (tr ++ [GStore os])) as HG1.
  { apply (Good_entry (GStore os) s); try done.
    - rewrite sys_labels_app, sys_outs_app. cbn. rewrite !app_nil_r. apply (V_sys s tr (proj1 HG)).
    - apply (V_in s tr (proj1 HG)).
    - eapply Storage.run_task_wf; [exact Hrun|]. apply (V_sto s tr (proj1 HG)).
    - intros x Hx. rewrite Eq. by right. }
  assert (Forall (out_live s0) os /\ forall c, beats (outs_to c os) = []) as [Hl Hb].
  { subst os. destruct (Storage.run_task_sends _ _ _ _ _ _ _ Hrun) as [->|(c & n & es & -> & ->)]; cbn; [done|]. split.
    - constructor; [|done]. apply (V_stq s tr (proj1 HG) c n). rewrite Eq. left.
    - intros c'. by destruct (decide _). }
  destruct (Good_send_outs os s0 _ HG1 Hl) as (s' & e' & He & HG' & [_ _ Hs Hh Ho Hla]). rewrite He. cbn [res_bind].
  eexists _, _. split; [done|]. rewrite <- (assoc_L (++)) in HG'. split; [exact HG'|].
  assert (outs (GStore os :: e') = os) as Hos by (cbn; fold (outs e'); by rewrite Ho, app_nil_r).
  split; intros c; cbn [app].
  - change (handled c (GStore os :: e')) with (handled c e'). change (sys_labels (GStore os :: e')) with (sys_labels e').
    rewrite Hh, Hla. constructor.
  - etrans; [apply Hs|by rewrite <- Hos at 1].
  - etrans; [etrans; [apply f_equal, Hs|apply Hb]|]. change (handled c (GStore os :: e')) with (handled c e'). by rewrite Hh.
Qed.

(** A step of any thread but the storage thread. *)
Lemma Good_exec x s tr :
  Good s tr -> in_range s -> x <> SStore -> exists s' e, exec x s = Ok (s', e) /\ Good s' (tr ++ e) /\ logs e.
Proof.
  intros HG [Ht Hn] Hx.
  assert (forall c ans ev, Gateway.given ev = [] ->
    exists s' e, (if decide (c ∈ fresh s) then Ok (s, []) else conn_event c ans ev s) = Ok (s', e) /\ Good s' (tr ++ e) /\ logs e) as Hconn.
  { intros c ans ev Hev. destruct (decide (c ∈ fresh s)) as [Hf|Hf].
    { exists s, []. rewrite app_nil_r. by split_and!. }
    destruct (conns s !! c) as [lk|] eqn:Hc.
    - destruct (Good_conn_event s tr c ans ev [] HG (conj (mk_is_Some _ _ Hc) Hf) Hev) as (s' & e & -> & HG' & _).
      eexists _, _. split; [done|]. split; [exact HG'|apply (logs_conn c e)].
    - unfold conn_event. rewrite Hc. exists s, []. rewrite app_nil_r. by split_and!. }
  assert (forall y, System.label_ok y -> Origin.label_in (live s) y -> (forall c, label_beats c y = []) -> (forall c, event_of c y = None) ->
    exists s' e, sys_step y s = Ok (s', e) /\ Good s' (tr ++ e) /\ logs e) as Hsys.
  { intros y Hok Hin Hb He. destruct (Good_sys_step _ _ _ HG Ht Hok Hin) as (s' & os & e & -> & HG' & H1 & H2 & H3 & H5 & H4).
    eexists _, _. split; [done|]. split; [exact HG'|]. apply (logs_sys y os e None); try done. intros c. rewrite He. constructor. }
  destruct x as [|c|c rev rs ws ans|c r| |now r1 r2|now| |l|rid|]; cbn [exec].
  - destruct (Good_accept s tr HG Hn) as (s' & -> & HG'). exists s', []. rewrite app_nil_r. by split_and!.
  - destruct (Good_establish s tr c HG) as (e & He & HG'). eexists _, _. split; [apply f_equal, surjective_pairing|].
    rewrite He. split; [exact HG'|apply logs_conn].
  - by apply Hconn.
  - by apply Hconn.
  - destruct (Good_remove s tr HG) as (s' & -> & HG'). exists s', []. rewrite app_nil_r. by split_and!.
  - by apply Good_functor.
  - by apply Hsys.
  - by apply Hsys.
  - by apply Hsys.
  - by apply Hsys.
  - done.
Qed.

Lemma Good_step x s tr s' e :
  Good s tr -> in_range s -> exec x s = Ok (s', e) -> Good s' (tr ++ e) /\ logs e.
Proof.
  intros HG Hr Hex. assert (exists s' e, exec x s = Ok (s', e) /\ Good s' (tr ++ e) /\ logs e) as (s1 & e1 & Hex1 & H).
  2: { rewrite Hex in Hex1. by inv Hex1. }
  destruct (decide (x = SStore)) as [->|Hx]; [|by apply Good_exec]. cbn [exec] in *.
  destruct (stq s) as [|tk rest] eqn:Eq.
  { unfold run_storage. rewrite Eq. exists s, []. rewrite app_nil_r. by split_and!. }
  unfold run_storage in Hex. rewrite Eq in Hex. ok_inv Hex. by eapply Good_storage.
Qed.

End Steps.

(** ** Runs *)

Section Runs.
Context (ioThreads : Z) (Hio : 0 <= ioThreads < 2 ^ 31) (w : W).

Lemma Good_boot : Good (boot ioThreads gameThreads w) [].
Proof.
  assert (forall m, Storage.TJob m ∉ default [] (Storage.start o)) as Hst.
  { intros m. unfold Storage.start. destruct (Storage.enabled o); cbn; [|apply not_elem_of_nil].
    intros H. by apply list_elem_of_singleton in H. }
  split; split; cbn [boot sys srv conns fresh baseq lobq stq sth]; try done.
  - exists []. constructor.
  - apply Origin.sys_in_boot.
  - intros f H. by apply not_elem_of_nil in H.
  - intros c n H. by apply Hst in H.
  - intros c H. by apply not_elem_of_nil in H.
  - intros c [x Hx]. by rewrite lookup_empty in Hx.
  - split_and!; [done| |by cbn]. unfold EventLoopThreadPool.wf, TcpServer.started. cbn. rewrite length_map, length_seq.
    destruct (decide (ioThreads = 0)) as [->|]; [by split; [|left]|]. split; [lia|right; lia].
  - intros c H. by apply not_elem_of_nil in H.
Qed.

Lemma run_Good xs tr s : run (boot ioThreads gameThreads w) xs tr s -> Good s tr /\ logs tr.
Proof.
  remember (boot ioThreads gameThreads w) as s0. induction 1 as [|s0 xs tr s1 x s2 e HO LM Hr IH Hrange Hex]; subst.
  - split; [apply Good_boot|done].
  - destruct IH as [HG HL]; [done|]. destruct (Good_step _ _ _ _ _ HG Hrange Hex) as [HG' HL']. split; [done|by apply logs_app].
Qed.

End Runs.

Lemma io_requests s tr (c : Z) :
  Inv s tr -> TcpConnection.ReadFailed ∉ io c tr -> snd (fst (Codec.decode (TcpConnection.received (io c tr)))) = false ->
  requests (io c tr) = Dispatcher.dispatch_all dispatcher_ (fst (fst (Codec.decode (TcpConnection.received (io c tr))))).
Proof.
  intros HV Hf Hl. unfold requests. destruct (conns s !! c) as [[l [k ts]]|] eqn:Hc.
  - destruct (Lk_in _ _ _ _ _ (V_link s tr HV _ _ _ _ Hc) Hf Hl) as [_ Hd]. by rewrite Hd.
  - destruct (V_none s tr HV c Hc) as [-> _]. done.
Qed.

(** What the peer of connection [c] is sent: [p] of the messages of the other
    threads and [d] of the answers of the IO thread, in some order [ms]; the
    wire is a prefix of them. *)
Lemma link_output s tr (c : Z) l k ts :
  Inv s tr -> conns s !! c = Some (l, (k, ts)) ->
  exists p d ms, interleaving p d ms /\ p `prefix_of` sends_to c tr /\
    d `prefix_of` Gateway.answers (Storage.enabled o) c (TcpConnection.frames (io c tr)) /\
    TcpConnection.wire (io c tr) `prefix_of` concat (map enc ms) /\
    (TcpConnection.state_ k = TcpConnection.kConnected ->
       d = Gateway.answers (Storage.enabled o) c (TcpConnection.frames (io c tr)) /\
       concat (map enc ms) = TcpConnection.wire (io c tr) ++ Buffer.readable (TcpConnection.outputBuffer_ k) /\
       concat (map enc (sends_to c tr)) = concat (map enc p) ++ TcpConnection.pending ts).
Proof.
  intros HV Hc. destruct (V_link s tr HV _ _ _ _ Hc) as [(_ & rest & Hs & Ho) (p & d & Hm & Hp & Hd & _ & Hcon) _].
  apply prefix_map_inv in Hp as (p' & Hp' & ->). unfold Gateway.owed in *. apply prefix_map_inv in Hd as (d' & Hd' & ->).
  apply interleaving_map_inv in Hm as (ms & Hsent & Hm). exists p', d', ms.
  assert (concat (map enc ms) = TcpConnection.wire (io c tr) ++ rest) as Hw by (by rewrite <- Hsent, Gateway.concat_sent_msgs).
  split_and!; [done|done|done|by exists rest|]. intros E. destruct (Hcon E) as [HP HD]. rewrite decide_False in Ho by congruence.
  destruct Ho as [-> _]. split_and!; [|done|].
  - destruct Hd' as [tl Htl]. rewrite Htl, map_app in HD. apply (f_equal length) in HD. rewrite length_app, length_map in HD.
    destruct tl; [by rewrite app_nil_r in Htl|]. simpl in HD. lia.
  - by rewrite <- HP, concat_app, Gateway.concat_pending_msgs.
Qed.

Lemma Forall_prefix_of {A} (P : A -> Prop) (l1 l2 : list A) : l1 `prefix_of` l2 -> Forall P l2 -> Forall P l1.
Proof. by intros [l ->] [H _]%Forall_app. Qed.

Lemma beats_app ms1 ms2 : beats (ms1 ++ ms2) = beats ms1 ++ beats ms2.
Proof. apply omap_app. Qed.

Lemma beats_prefix ms1 ms2 : ms1 `prefix_of` ms2 -> beats ms1 `prefix_of` beats ms2.
Proof. intros [ms ->]. rewrite beats_app. by eexists. Qed.

Lemma beats_interleaving p d ms : interleaving p d ms -> beats d = [] -> beats ms = beats p.
Proof.
  induction 1 as [|x xs ys zs _ IH|y xs ys zs _ IH]; intros Hd; [done| |].
  - destruct x; try exact (IH Hd). exact (f_equal (cons _) (IH Hd)).
  - destruct y; try exact (IH Hd). discriminate Hd.
Qed.

Lemma beats_answers c fs : beats (Gateway.answers (Storage.enabled o) c fs) = [].
Proof.
  unfold Gateway.answers. induction (Dispatcher.dispatch_all dispatcher_ fs) as [|m ms IH]; [done|]. cbn [flat_map].
  rewrite beats_app, IH, app_nil_r. destruct m; try done. cbn. unfold GameServer.onLeaderboard. by destruct (Storage.enabled o).
Qed.

Lemma req_beats_app ms1 ms2 : req_beats (ms1 ++ ms2) = req_beats ms1 ++ req_beats ms2.
Proof. apply omap_app. Qed.

Lemma req_beats_lobby ms : req_beats (filter (fun m => Gateway.to_lobby m = true) ms) = req_beats ms.
Proof.
  unfold req_beats in *. induction ms as [|m ms IH]; [done|]. rewrite filter_cons.
  destruct m; cbn [Gateway.to_lobby omap list_omap]; first [rewrite decide_True by done|rewrite decide_False by done];
    cbn [omap list_omap]; first [exact IH|exact (f_equal (cons _) IH)].
Qed.

(** ** Properties *)

(** C2: The server implements the game over its sockets. Every run of the
    whole server, with any number of IO threads and any interleaving of its
    threads, is a run of the lobby and the rooms ([System]) in which the events
    of every connection are the requests the lobby took from it, and these,
    with those that still wait, are exactly the requests for the lobby in the
    frames the connection has dispatched, in their order. *)
Theorem server_implements_system ioThreads (Hio : 0 <= ioThreads < 2 ^ 31) w xs tr s
  (Hrun : run (boot ioThreads gameThreads w) xs tr s) :
  (exists ends, System.run (System.boot gameThreads (Storage.enabled o)) (sys_labels tr) ends (sys_outs tr) (sys s)) /\
  (forall c, Forall2 (handled_as c) (handled c tr) (events_of c (sys_labels tr)) /\
     handled c tr ++ omap (request_of c) (lobq s) = filter (fun m => Gateway.to_lobby m = true) (requests (io c tr))).
Proof.
  destruct (run_Good ioThreads Hio w xs tr s Hrun) as [[HV _] HL]. split; [apply (V_sys s tr HV)|]. intros c.
  split; [apply (G_events tr HL)|apply (V_reqs s tr HV)].
Qed.

(** C6: Messages reach the client in order. The bytes written to the socket of a
    connection are a prefix of the encodings of messages [ms], which are, in
    order, a prefix [p] of those the lobby, the rooms and the storage thread
    sent to it, interleaved with a prefix [d] of the answers the IO thread owes;
    with storage there are no such answers. While the connection is connected
    nothing is lost: what was sent is on the wire, in the output buffer or
    posted to the IO loop. *)
Theorem replies_reach_client ioThreads (Hio : 0 <= ioThreads < 2 ^ 31) w xs tr s (c : Z) l k ts
  (Hrun : run (boot ioThreads gameThreads w) xs tr s) (Hc : conns s !! c = Some (l, (k, ts))) :
  exists p d ms, interleaving p d ms /\ p `prefix_of` outs_to c (outs tr) /\
    d `prefix_of` Gateway.answers (Storage.enabled o) c (TcpConnection.frames (io c tr)) /\
    TcpConnection.wire (io c tr) `prefix_of` concat (map enc ms) /\
    (Storage.enabled o = true -> ms = p) /\
    (TcpConnection.state_ k = TcpConnection.kConnected ->
       concat (map enc ms) = TcpConnection.wire (io c tr) ++ Buffer.readable (TcpConnection.outputBuffer_ k) /\
       concat (map enc (outs_to c (outs tr))) = concat (map enc p) ++ TcpConnection.pending ts).
Proof.
  destruct (run_Good ioThreads Hio w xs tr s Hrun) as [[HV _] HL].
  destruct (link_output s tr c l k ts HV Hc) as (p & d & ms & Hm & Hp & Hd & Hw & Hcon). exists p, d, ms.
  rewrite <- (G_sends tr HL). split_and!; [done..| |naive_solver].
  intros E. rewrite E, Gateway.answers_storage in Hd. apply prefix_nil_inv in Hd as ->. by apply interleaving_only_left.
Qed.

(** C36: The channel of a connection never outlives its owner, and no connection
    is forgotten. As long as the channel of a connection is registered
    ([removeChannel] was not called), the table of the server or the posted
    [connectDestroyed] holds the connection object; and a connection that
    reported its end waits to be removed from the table, or has
    [connectDestroyed] posted, or has been taken down. *)
Theorem connection_outlives_channel ioThreads (Hio : 0 <= ioThreads < 2 ^ 31) w xs tr s (c : Z) l k ts
  (Hrun : run (boot ioThreads gameThreads w) xs tr s) (Hc : conns s !! c = Some (l, (k, ts))) :
  (TcpConnection.RemoveChannel ∉ io c tr ->
     TcpConnection.TDestroy ∈ ts \/ TcpServer.connections_ (srv s) !! GameServer.connName c = Some l) /\
  (TcpConnection.CloseCb ∈ io c tr ->
     c ∈ baseq s \/ TcpConnection.TDestroy ∈ ts \/ TcpConnection.RemoveChannel ∈ io c tr).
Proof.
  destruct (run_Good ioThreads Hio w xs tr s Hrun) as [[_ HW] _]. split.
  - intros Hn. destruct (W_own s tr HW _ _ _ _ Hc) as [?|?]; tauto.
  - intros Hcl. destruct (W_close s tr HW _ Hcl) as [?|[?|(l' & k' & ts' & Hc' & ?)]]; [tauto|tauto|].
    rewrite Hc in Hc'. injection Hc' as -> -> ->. tauto.
Qed.

Section WithLaws.
Context {SL : ServerProtobufLaws}.

(** The requests of a client whose bytes arrive in any pieces. *)
Lemma client_requests s tr (c : Z) ms :
  Inv s tr -> Forall Gateway.fits ms -> TcpConnection.ReadFailed ∉ io c tr ->
  TcpConnection.received (io c tr) `prefix_of` concat (map Gateway.client_enc ms) ->
  exists ms1, ms1 `prefix_of` ms /\ requests (io c tr) = ms1 /\
    (TcpConnection.received (io c tr) = concat (map Gateway.client_enc ms) -> ms1 = ms).
Proof.
  intros HV Hf Hnf Hpre. destruct (Gateway.decode_requests ms _ Hf Hpre) as (ms1 & rest & Hms & Hd & Hall).
  exists ms1. split_and!; [done| |done]. rewrite (io_requests s tr c HV Hnf) by (by rewrite Hd). rewrite Hd. cbn [fst].
  apply Gateway.dispatch_requests.
Qed.

(** C7: Requests reach the lobby in order. When what a connection has read is a
    prefix of the encodings of requests [ms], cut in any way, then the requests
    the lobby took from it and those that wait for the lobby are those of a
    prefix of [ms]; once everything is read, of all of [ms]. *)
Theorem requests_reach_lobby ioThreads (Hio : 0 <= ioThreads < 2 ^ 31) w xs tr s (c : Z) ms
  (Hrun : run (boot ioThreads gameThreads w) xs tr s) (Hfits : Forall Gateway.fits ms)
  (Hnf : TcpConnection.ReadFailed ∉ io c tr)
  (Hread : TcpConnection.received (io c tr) `prefix_of` concat (map Gateway.client_enc ms)) :
  exists ms1, ms1 `prefix_of` ms /\
    handled c tr ++ omap (request_of c) (lobq s) = filter (fun m => Gateway.to_lobby m = true) ms1 /\
    (TcpConnection.received (io c tr) = concat (map Gateway.client_enc ms) -> ms1 = ms).
Proof.
  destruct (run_Good ioThreads Hio w xs tr s Hrun) as [[HV _] _].
  destruct (client_requests s tr c ms HV Hfits Hnf Hread) as (ms1 & Hp & Hr & Hall). exists ms1. split_and!; [done| |done].
  rewrite <- Hr. apply (V_reqs s tr HV).
Qed.

(** Heartbeats come back. The heartbeats a client decodes from what the
    server wrote to its connection are, in order, a prefix of the heartbeats it
    sent, whatever else both sides send and however the bytes are cut. *)
Theorem heartbeats_come_back ioThreads (Hio : 0 <= ioThreads < 2 ^ 31) w xs tr s (c : Z) ms
  (Hrun : run (boot ioThreads gameThreads w) xs tr s) (Hfits : Forall Gateway.fits ms)
  (Hnf : TcpConnection.ReadFailed ∉ io c tr)
  (Hread : TcpConnection.received (io c tr) `prefix_of` concat (map Gateway.client_enc ms))
  (Hout : Forall Gateway.server_fits (outs_to c (outs tr)))
  (Hans : Forall Gateway.server_fits (Gateway.answers (Storage.enabled o) c (TcpConnection.frames (io c tr)))) :
  exists got rest, Codec.decode (TcpConnection.wire (io c tr)) = (map Gateway.frame_of got, false, rest) /\
    beats got `prefix_of` req_beats ms.
Proof.
  destruct (run_Good ioThreads Hio w xs tr s Hrun) as [[HV _] HL].
  destruct (conns s !! c) as [[l [k ts]]|] eqn:Hc.
  2: { destruct (V_none s tr HV c Hc) as [-> _]. exists [], []. split; [done|apply prefix_nil]. }
  destruct (client_requests s tr c ms HV Hfits Hnf Hread) as (ms1 & [ms2 ->] & Hr & _).
  destruct (link_output s tr c l k ts HV Hc) as (p & d & out & Hm & Hp & Hd & Hw & _). rewrite (G_sends tr HL) in Hp.
  assert (Forall Gateway.server_fits out) as Hfo.
  { apply (Forall_prefix_of _ _ _ Hp) in Hout. apply (Forall_prefix_of _ _ _ Hd) in Hans. clear -Hm Hout Hans.
    induction Hm; [done|apply Forall_cons in Hout as [? ?]|apply Forall_cons in Hans as [? ?]]; constructor; auto. }
  destruct (Gateway.decode_replies out _ Hfo Hw) as (got & rest & Hgot & Hdec). exists got, rest. split; [done|].
  etrans; [by apply beats_prefix|]. rewrite (beats_interleaving p d) by
    (exact Hm || (apply prefix_nil_inv; rewrite <- (beats_answers c (TcpConnection.frames (io c tr))); by apply beats_prefix)).
  etrans; [by apply beats_prefix|]. rewrite <- (G_sends tr HL), (G_beats tr HL).
  exists (req_beats (omap (request_of c) (lobq s)) ++ req_beats ms2).
  by rewrite (assoc_L (++)), <- req_beats_app, (V_reqs s tr HV), req_beats_lobby, Hr, req_beats_app.
Qed.

End WithLaws.


End Machine.

(** ** Instances and scenarios *)

Definition input_Zs (i : PlayerInput) : list Z :=
  in_seq i :: (if attack i then 1 else 0) :: Bot.float_Zs (move_x i) ++ Bot.float_Zs (move_y i).

Definition Zs_input (zs : list Z) : option PlayerInput :=
  match zs with
  | [q; a; x1; x2; x3; y1; y2; y3] => Some (mkPlayerInput q (Bot.Zs_float x1 x2 x3) (Bot.Zs_float y1 y2 y3) (a =? 1))
  | _ => None
  end.

Lemma input_roundtrip i : Zs_input (input_Zs i) = Some i.
Proof.
  destruct i as [q x y a]. unfold input_Zs. cbn [in_seq attack move_x move_y].
  destruct (Bot.float_roundtrip x) as (a1 & a2 & a3 & -> & Hx), (Bot.float_roundtrip y) as (b1 & b2 & b3 & -> & Hy).
  cbn. rewrite Hx, Hy. by destruct a.
Qed.

#[export] Instance bits_server : ServerProtobuf := {|
  parse_LoginReq bs := Some (Bot.unpack EmptyString bs);
  parse_ReconnectReq bs := Some (Bot.unpack (0, EmptyString) bs);
  parse_MatchReq bs := Some (Bot.unpack 0 bs);
  parse_PlayerInput bs := Zs_input (Bot.unpack [] bs);
  parse_Heartbeat bs := Some (Bot.unpack 0 bs);
  parse_LeaderboardReq bs := Some (Bot.unpack 0 bs);
  client_bytes m :=
    match m with
    | MLoginReq acc => Bot.to_bits (encode acc)
    | MReconnectReq p tok => Bot.to_bits (encode (p, tok))
    | MMatchReq p => Bot.to_bits (encode p)
    | MPlayerInput i => Bot.to_bits (encode (input_Zs i))
    | MHeartbeatReq ms => Bot.to_bits (encode ms)
    | MLeaderboardReq n => Bot.to_bits (encode n)
    end;
  server_bytes := @serialize Bot.bits_protobuf;
|}.

#[export] Instance bits_server_laws : ServerProtobufLaws.
Proof.
  split; intros; cbn [parse_LoginReq parse_ReconnectReq parse_MatchReq parse_PlayerInput parse_Heartbeat
    parse_LeaderboardReq client_bytes bits_server]; rewrite Bot.unpack_pack; try done. apply input_roundtrip.
Qed.

Import Storage.MemDB(db).
#[local] Existing Instances Storage.MemDB.mem_mysql Storage.MemDB.mem_redis Storage.MemDB.mem_spec.

Definition storing : Storage.StorageOptions :=
  Storage.mkOptions true "127.0.0.1" 6379 "127.0.0.1" "gs" "gs123" "gs" "leaderboard".

Definition in_rangeb (s : t db) : bool :=
  (TimerWheel.nowTick_ (fst (System.lob (sys s))) <? 2 ^ 62) && (TcpServer.nextConnId_ (srv s) <? 2 ^ 31 - 1).

Notation exec64 := (@exec db _ _ bits_server storing elements_order BattleSim.libm64).

Fixpoint exec_all (xs : list label) (s : t db) : res (t db * list entry) :=
  match xs with
  | [] => Ok (s, [])
  | x :: xs =>
      if in_rangeb s then
        (let! (s1, e1) := exec64 x s in
         let! (s2, e2) := exec_all xs s1 in
         Ok (s2, e1 ++ e2))%gs
      else UB
  end.

Lemma whole_run_exec_all s0 xs0 tr0 s xs s' tr :
  run storing s0 xs0 tr0 s -> exec_all xs s = Ok (s', tr) -> run storing s0 (xs0 ++ xs) (tr0 ++ tr) s'.
Proof.
  revert xs0 tr0 s tr. induction xs as [|x xs IH]; intros xs0 tr0 s tr Hr; cbn [exec_all].
  { intros H. apply Ok_inj, pair_equal_spec in H as [<- <-]. by rewrite !app_nil_r. }
  destruct (in_rangeb s) eqn:Er; [|done]. destruct (exec64 x s) as [[s1 e1]|] eqn:E1; cbn [res_bind]; [|done].
  destruct (exec_all xs s1) as [[s2 e2]|] eqn:E2; cbn [res_bind]; [|done]. intros H. apply Ok_inj, pair_equal_spec in H as [<- <-].
  rewrite (cons_middle x xs0 xs), !(assoc_L (++)). apply (IH _ _ s1 e2); [|exact E2].
  apply (run_step storing _ _ _ s x s1 e1 elements_order BattleSim.libm64); [exact Hr| |exact E1].
  unfold in_rangeb in Er. apply andb_true_iff in Er as [E3 E4]. apply Z.ltb_lt in E3, E4. by split.
Qed.

(** A client sends a heartbeat, a login and a leaderboard request; its bytes
    arrive in two pieces, the answers are written in several. *)
Definition hello_msgs : list client_msg := [MHeartbeatReq 7; MLoginReq "alice"; MLeaderboardReq 3].

Definition hello_bytes : list byte := concat (map Gateway.client_enc hello_msgs).

Definition hello_labels : list label :=
  [SAccept; SEstablish 1; SReady 1 Channel.EPOLLIN [Buffer.ReadOk (take 9 hello_bytes)] [] [];
   SReady 1 Channel.EPOLLIN [Buffer.ReadOk (drop 9 hello_bytes)] [] []; SLobby 5 1 2; STask 1 (4, Buffer.EAGAIN);
   SLobby 6 1 2; SStore; SStore; STask 1 (0, Buffer.EAGAIN); STask 1 (0, Buffer.EAGAIN);
   SReady 1 Channel.EPOLLOUT [] [(20, Buffer.EAGAIN); (-1, Buffer.EAGAIN)] []].

Definition hello_boot : t db := boot storing 2 2 (Storage.fresh true).

Definition hello : t db * list entry :=
  match exec_all hello_labels hello_boot with Ok x => x | UB => (hello_boot, []) end.

Lemma not_in_trace (f : TcpConnection.effect -> bool) x e : f x = true -> existsb f e = false -> x ∉ e.
Proof.
  intros Hx He Hin. assert (existsb f e = true) as Ht; [|congruence]. apply existsb_exists. exists x.
  split; [by apply list_elem_of_In|done].
Qed.

Lemma hello_run : run storing hello_boot hello_labels (snd hello) (fst hello).
Proof.
  assert (exec_all hello_labels hello_boot = Ok hello) as H.
  { unfold hello. destruct (GameServer.is_ok (exec_all hello_labels hello_boot)) as [x ->]; [vm_compute; reflexivity|reflexivity]. }
  rewrite (surjective_pairing hello) in H. exact (whole_run_exec_all _ [] [] _ _ _ _ (run_nil storing hello_boot) H).
Qed.

Lemma server_implements_system_witness :
  Forall2 (handled_as 1) [MHeartbeatReq 7; MLoginReq "alice"] (events_of 1 (sys_labels (snd hello))).
Proof.
  destruct (server_implements_system storing 2 ltac:(lia) 2 ltac:(lia) _ _ _ _ hello_run) as [_ H]. destruct (H 1) as [H1 _].
  replace [MHeartbeatReq 7; MLoginReq "alice"] with (handled 1 (snd hello)) by (vm_compute; reflexivity). exact H1.
Defined.

Lemma requests_reach_lobby_witness :
  TcpConnection.received (io 1 (snd hello)) = hello_bytes /\
  exists ms1, ms1 `prefix_of` hello_msgs /\
    handled 1 (snd hello) ++ omap (request_of 1) (lobq (fst hello)) = filter (fun m => Gateway.to_lobby m = true) ms1 /\
    (TcpConnection.received (io 1 (snd hello)) = hello_bytes -> ms1 = hello_msgs).
Proof.
  assert (TcpConnection.received (io 1 (snd hello)) = hello_bytes) as H by (vm_compute; reflexivity). split; [exact H|].
  apply (requests_reach_lobby storing 2 ltac:(lia) 2 ltac:(lia) _ _ _ _ 1 hello_msgs hello_run).
  - repeat constructor; vm_compute; discriminate.
  - apply (not_in_trace (fun y => match y with TcpConnection.ReadFailed => true | _ => false end)); vm_compute; reflexivity.
  - rewrite H. by exists [].
Defined.

Lemma heartbeats_come_back_witness :
  exists got rest, Codec.decode (TcpConnection.wire (io 1 (snd hello))) = (map Gateway.frame_of got, false, rest) /\
    beats got `prefix_of` [7].
Proof.
  apply (heartbeats_come_back storing 2 ltac:(lia) 2 ltac:(lia) _ _ _ _ 1 hello_msgs hello_run).
  - repeat constructor; vm_compute; discriminate.
  - apply (not_in_trace (fun y => match y with TcpConnection.ReadFailed => true | _ => false end)); vm_compute; reflexivity.
  - exists []. vm_compute. reflexivity.
  - assert (outs_to 1 (outs (snd hello)) = [MHeartbeat 7; MLoginResp 0 1 (GameServer.genToken 1 2); MLeaderboardResp []]) as ->
      by (vm_compute; reflexivity). repeat constructor; vm_compute; discriminate.
  - rewrite Gateway.answers_storage. constructor.
Defined.

Lemma replies_reach_client_witness :
  exists l k ts p d ms, conns (fst hello) !! 1 = Some (l, (k, ts)) /\ interleaving p d ms /\
    p `prefix_of` outs_to 1 (outs (snd hello)) /\ TcpConnection.wire (io 1 (snd hello)) `prefix_of` concat (map enc ms) /\
    (Storage.enabled storing = true -> ms = p).
Proof.
  destruct (conns (fst hello) !! 1) as [[l [k ts]]|] eqn:Hc; [|vm_compute in Hc; discriminate Hc].
  destruct (replies_reach_client storing 2 ltac:(lia) 2 ltac:(lia) _ _ _ _ 1 l k ts hello_run Hc)
    as (p & d & ms & H1 & H2 & _ & H3 & H4 & _).
  exists l, k, ts, p, d, ms. split_and!; [reflexivity|exact H1|exact H2|exact H3|exact H4].
Defined.

(** The client closes its side; the connection is taken down. *)
Definition bye_labels : list label := hello_labels ++ [SReady 1 Channel.EPOLLIN [Buffer.ReadOk []] [] []; SRemove; SLobby 9 1 2].

Definition bye : t db * list entry :=
  match exec_all bye_labels hello_boot with Ok x => x | UB => (hello_boot, []) end.

Lemma bye_run : run storing hello_boot bye_labels (snd bye) (fst bye).
Proof.
  assert (exec_all bye_labels hello_boot = Ok bye) as H.
  { unfold bye. destruct (GameServer.is_ok (exec_all bye_labels hello_boot)) as [x ->]; [vm_compute; reflexivity|reflexivity]. }
  rewrite (surjective_pairing bye) in H. exact (whole_run_exec_all _ [] [] _ _ _ _ (run_nil storing hello_boot) H).
Qed.

Lemma connection_outlives_channel_witness :
  exists l k ts, conns (fst bye) !! 1 = Some (l, (k, ts)) /\ TcpServer.connections_ (srv (fst bye)) !! GameServer.connName 1 = None /\
    TcpConnection.TDestroy ∈ ts.
Proof.
  destruct (conns (fst bye) !! 1) as [[l [k ts]]|] eqn:Hc; [|vm_compute in Hc; discriminate Hc].
  assert (TcpServer.connections_ (srv (fst bye)) !! GameServer.connName 1 = None) as Hn by (vm_compute; reflexivity).
  exists l, k, ts. split_and!; [reflexivity|exact Hn|].
  destruct (connection_outlives_channel storing 2 ltac:(lia) 2 ltac:(lia) _ _ _ _ 1 l k ts bye_run Hc) as [H _].
  destruct H as [H|H]; [|exact H|rewrite Hn in H; discriminate H].
  apply (not_in_trace (fun y => match y with TcpConnection.RemoveChannel => true | _ => false end)); vm_compute; reflexivity.
Defined.


End Server.
