(* ===== verification/Process.v ===== *)
(** * The life of the process ([src/examples/game_server.cc], [GameServer.h])

    [main] serves until a signal makes the base loop end; then [GameServer] is
    destroyed: the body of its destructor first ([System.close]), then its members
    in the reverse order of their declaration. Three of them have threads: the
    destructor of [writer_] ends and joins the storage thread, that of
    [lobbyThread_] the lobby, that of [server_] the IO threads. All other threads
    run on meanwhile, and a step of theirs that uses a member that no longer
    exists is [UB], as is a call on the lobby's loop after its thread has ended.

    The threads are those of [Server], restricted to the time they exist. The
    functor of the destructor waits in the lobby's queue behind those that are
    there when it is posted ([ahead]); the other queues are those of [Server]. *)

From stdpp Require Import base gmap sets list strings pretty.
From Stdlib Require Import ZArith Lia.
From Stdlib Require Import Init.Byte.
From S2P Require Import Prelude TimerWheel Poller Buffer Codec TcpConnection LoopPool TcpServer Float32 Proto BattleSim Room GameServer System Shutdown Storage Gateway Server.

Module Process.

Local Open Scope Z_scope.
Import EventLoopThreadPool(loop).

(** ** The members of [GameServer] *)

Inductive member : Type :=
  | GameThreads_ | Server_ | LobbyThread_ | Lobby_ | GamePool_ | Dispatcher_ | Codec_
  | ConnToPlayer_ | Sessions_ | Rooms_ | MatchQueue_ | MatchTimer_ | Wheel_ | WheelDriver_
  | NextPlayerId_ | NextRoomId_ | Rng_ | StoreOpts_ | StorageReady_ | Redis_ | Mysql_ | Writer_.

#[global] Instance member_eq_dec : EqDecision member.
Proof. solve_decision. Defined.

(** In the order of their declaration. *)
Definition members : list member :=
  [GameThreads_; Server_; LobbyThread_; Lobby_; GamePool_; Dispatcher_; Codec_;
   ConnToPlayer_; Sessions_; Rooms_; MatchQueue_; MatchTimer_; Wheel_; WheelDriver_;
   NextPlayerId_; NextRoomId_; Rng_; StoreOpts_; StorageReady_; Redis_; Mysql_; Writer_].

(** ** State *)

(** Where [main] is: in [loop.loop()]; in the destructor, waiting for the lobby to
    run its task; waiting for [done]; destroying the members [ms], of which the
    first is being destroyed ([begun]: its destructor waits for a thread); at the
    end. *)
Inductive pc : Type :=
  | Serving
  | Waiting
  | Closing
  | Destroying (ms : list member) (begun : bool)
  | Exited.

(** [quit_] is the flag of the base loop; [wend], [lend] and [ioend] are the
    threads that have ended; [ran] are the storage tasks that have been run. *)
Record t (W : Type) : Type := mk {
  core : Server.t W;
  main : pc;
  quit_ : bool;
  ahead : nat;
  wend : bool;
  lend : bool;
  ioend : gset Z;
  ran : list Storage.task;
}.
Arguments mk {W}.
Arguments core {W}.
Arguments main {W}.
Arguments quit_ {W}.
Arguments ahead {W}.
Arguments wend {W}.
Arguments lend {W}.
Arguments ioend {W}.
Arguments ran {W}.

(** What a step uses: a member, or the lobby's loop, to which [lobby_] points. *)
Inductive need : Type :=
  | NMember (m : member)
  | NLobbyLoop.

Inductive label : Type :=
  | PSignal                       (* SIGINT or SIGTERM *)
  | PMain                         (* the main thread *)
  | PClose                        (* the lobby runs the task of the destructor *)
  | PWriterEnd                    (* the storage thread leaves its loop *)
  | PLobbyEnd                     (* the lobby's loop ends *)
  | PIoEnd (l : Z)                (* the loop of an IO thread ends *)
  | PServer (x : Server.label).   (* a step of one of the threads *)

Section Machine.
Context {W : Type} {HR : Storage.Hiredis W} {HM : Storage.LibMysql W} {SP : ServerProtobuf}.
Context (o : Storage.StorageOptions).

Notation t := (t W).

Definition set_core (s : Server.t W) (p : t) : t := mk s (main p) (quit_ p) (ahead p) (wend p) (lend p) (ioend p) (ran p).

Definition set_main (m : pc) (p : t) : t := mk (core p) m (quit_ p) (ahead p) (wend p) (lend p) (ioend p) (ran p).

Definition set_world (w : W) (s : Server.t W) : Server.t W :=
  Server.mk (Server.sys s) (Server.srv s) (Server.conns s) (Server.fresh s) (Server.baseq s) (Server.lobq s)
            (Server.stq s) (Server.sth s) w.

Definition member_alive (p : t) (m : member) : bool :=
  match main p with
  | Destroying ms _ => bool_decide (m ∈ ms)
  | Exited => false
  | _ => true
  end.

Definition available (p : t) (n : need) : bool :=
  match n with
  | NMember m => member_alive p m
  | NLobbyLoop => negb (lend p)
  end.

(** ** What the steps of the threads use *)

(** The callbacks of a connection: the codec and, for whole frames, the dispatcher
    and the handlers, which use the lobby's loop or [writer_]; the close callback
    uses the [TcpServer]. The pointer [lobby_] itself is not counted. *)
Definition io_needs (c : Z) (e : TcpConnection.effect) : list need :=
  match e with
  | TcpConnection.MessageCb _ => [NMember Codec_]
  | TcpConnection.CloseCb => [NMember Server_]
  | _ => []
  end ++
  match TcpConnection.frames [e] with [] => [] | _ => [NMember Dispatcher_] end ++
  match Server.lobby_posts1 c e with [] => [] | _ => [NLobbyLoop] end ++
  (if existsb (fun m => negb (Gateway.to_lobby m)) (Server.requests [e]) then [NMember Writer_] else []).

Definition entry_needs (g : Server.entry) : list need :=
  match g with Server.GIo c e => io_needs c e | _ => [] end.

(** [sessionOf], and what the handler uses when it finds the session. *)
Definition session_needs (g : GameServer.t) (c : Z) (found : GameServer.Session -> list need) : list need :=
  NMember ConnToPlayer_ ::
  match GameServer.connToPlayer_ g !! GameServer.connName c with
  | None => []
  | Some pid => NMember Sessions_ :: match GameServer.sessions_ g !! pid with Some ss => found ss | None => [] end
  end.

Definition when (b : bool) (m : member) : list need := if b then [NMember m] else [].

Definition in_state (st : GameServer.State) (ss : GameServer.Session) : bool := bool_decide (GameServer.state ss = st).

(** What a functor of the lobby uses on the way its handler takes. What [tryMatch]
    uses for a pair is left out: [gamePool_] is gone before any other member, and
    a pair is [UB] in [System] then. *)
Definition functor_needs (g : GameServer.t) (f : Server.ltask) : list need :=
  match f with
  | Server.FMsg _ (MLoginReq _) =>
      [NMember NextPlayerId_; NMember Rng_; NMember Sessions_; NMember ConnToPlayer_; NMember Codec_; NMember Writer_]
  | Server.FMsg _ (MReconnectReq pid tok) =>
      [NMember Sessions_; NMember Codec_] ++
      match GameServer.sessions_ g !! pid with
      | Some ss =>
          if bool_decide (GameServer.token ss = tok /\ GameServer.s_conn ss = None)
          then when (negb (GameServer.expireTimerId ss =? 0)) Wheel_ ++ [NMember ConnToPlayer_] ++
               when (in_state GameServer.kInRoom ss) Rooms_ ++ [NMember Writer_]
          else []
      | None => []
      end
  | Server.FMsg c (MMatchReq _) =>
      session_needs g c (fun ss => when (in_state GameServer.kLobby ss) MatchQueue_ ++
        when (in_state GameServer.kLobby ss) Wheel_ ++ when (in_state GameServer.kLobby ss) MatchTimer_)
  | Server.FMsg c (MPlayerInput _) => session_needs g c (fun ss => when (in_state GameServer.kInRoom ss) Rooms_)
  | Server.FMsg c (MHeartbeatReq _) => session_needs g c (fun _ => []) ++ [NMember Codec_]
  | Server.FMsg _ (MLeaderboardReq _) => []
  | Server.FGone c =>
      session_needs g c (fun ss => when (in_state GameServer.kMatching ss) MatchQueue_ ++
        when (in_state GameServer.kInRoom ss) Rooms_ ++ [NMember Wheel_; NMember Writer_])
  end.

(** What the thread of a step uses of [GameServer] before its connections do. *)
Definition label_needs (x : Server.label) (s : Server.t W) : list need :=
  match x with
  | Server.SLobby _ _ _ =>
      match Server.lobq s with
      | f :: _ => functor_needs (snd (System.lob (Server.sys s))) f
      | [] => []
      end
  | Server.SWheel _ => [NMember Wheel_; NMember Sessions_]
  | Server.SQueue =>
      match System.lq (Server.sys s) with
      | System.TEnd _ _ :: _ => [NMember Rooms_; NMember Sessions_; NMember Writer_]
      | System.TFinish :: _ => [NMember GamePool_]
      | [] => []
      end
  | Server.SRoomTask _ | Server.STick _ => [NMember Codec_]
  | Server.SStore =>
      match Server.stq s with
      | [] => []
      | _ => [NMember StorageReady_; NMember Redis_; NMember Mysql_; NMember StoreOpts_; NMember Codec_]
      end
  | _ => []
  end.

(** ** Which threads exist *)

Definition serving (p : t) : bool := match main p with Serving => true | _ => false end.

(** The thread of a loop: the base loop is run by [main]. *)
Definition loop_runs (p : t) (l : loop) : bool :=
  match l with None => serving p | Some k => bool_decide (k ∉ ioend p) end.

Definition conn_runs (p : t) (c : Z) : bool :=
  match Server.conns (core p) !! c with Some (l, _) => loop_runs p l | None => true end.

(** The game loops go with [gamePool_], the driver of the wheel with the task of
    the destructor. *)
Definition runs (p : t) (x : Server.label) : bool :=
  match x with
  | Server.SAccept | Server.SRemove => serving p
  | Server.SEstablish c | Server.SReady c _ _ _ _ | Server.STask c _ => conn_runs p c
  | Server.SLobby _ _ _ | Server.SQueue => negb (lend p)
  | Server.SWheel _ => negb (lend p) && bool_decide (System.remain (Server.sys (core p)) = None)
  | Server.SRoomTask _ | Server.STick _ => negb (System.gone (Server.sys (core p)))
  | Server.SStore => negb (wend p)
  end.

Section Exec.
Context {HO : HashOrder} {LM : Libm}.

(** ** The main thread *)

(** [connectDestroyed], posted to the loop of a connection by the destructor of
    [TcpServer], or run at once when that is the base loop. *)
Definition destroy_conn (x : res t) (c : Z) : res t :=
  (let! p := x in
   match Server.conns (core p) !! c with
   | None => Ok p
   | Some (l, (k, ts)) =>
       match TcpServer.connections_ (Server.srv (core p)) !! GameServer.connName c, l with
       | None, _ => Ok p
       | Some _, Some _ =>
           let! (s, _) := Server.conn_event o c [] TcpConnection.EvDestroy (core p) in Ok (set_core s p)
       | Some _, None =>
           let (k', e) := TcpConnection.connectDestroyed k in
           if forallb (available p) (flat_map (io_needs c) e)
           then Ok (set_core (Server.after_conn o c l (k', ts) e (core p)) p)
           else UB
       end
   end)%gs.

(** The threads of [threadPool_]. *)
Definition io_loops (p : t) : list Z := EventLoopThreadPool.loops_ (TcpServer.threadPool_ (Server.srv (core p))).

(** The destructor of a member: a thread is told to stop, and [main_step] goes on
    when it has ended ([joined]). Other members are gone at once. *)
Definition begin_member (m : member) (ms : list member) (p : t) : res t :=
  match m with
  | Writer_ => Ok (set_main (if Storage.enabled o then Destroying (m :: ms) true else Destroying ms false) p)
  | LobbyThread_ => Ok (set_main (Destroying (m :: ms) true) p)
  | Server_ =>
      (let! p1 := foldl destroy_conn (Ok p) (elements (dom (Server.conns (core p)))) in
       Ok (set_main (Destroying (m :: ms) true) p1))%gs
  | Redis_ => Ok (set_main (Destroying ms false)
                 (set_core (set_world (Storage.redis_destroy (Storage.redis_ (Server.sth (core p))) (Server.world (core p))) (core p)) p))
  | Mysql_ => Ok (set_main (Destroying ms false)
                 (set_core (set_world (Storage.mysql_destroy (Storage.mysql_ (Server.sth (core p))) (Server.world (core p))) (core p)) p))
  | _ => Ok (set_main (Destroying ms false) p)
  end.

Definition joined (m : member) (p : t) : bool :=
  match m with
  | Writer_ => wend p
  | LobbyThread_ => lend p
  | Server_ => forallb (fun l => bool_decide (l ∈ ioend p)) (io_loops p)
  | _ => true
  end.

Definition main_step (p : t) : res t :=
  match main p with
  | Serving =>
      Ok (if quit_ p
          then mk (core p) Waiting (quit_ p) (length (Server.lobq (core p))) (wend p) (lend p) (ioend p) (ran p)
          else p)
  | Waiting => Ok p
  | Closing => Ok (if System.gone (Server.sys (core p)) then set_main (Destroying (rev members) false) p else p)
  | Destroying [] _ => Ok (set_main Exited p)
  | Destroying (m :: ms) false => begin_member m ms p
  | Destroying (m :: ms) true => Ok (if joined m p then set_main (Destroying ms false) p else p)
  | Exited => Ok p
  end.

(** ** Steps *)

Definition stepped (x : Server.label) (s : Server.t W) (p : t) : t :=
  mk s (main p) (quit_ p)
     (match x with Server.SLobby _ _ _ => pred (ahead p) | _ => ahead p end)
     (wend p) (lend p) (ioend p)
     (match x, Server.stq (core p) with Server.SStore, tk :: _ => ran p ++ [tk] | _, _ => ran p end).

(** A step of one of the threads, and what it uses. *)
Definition server_step (x : Server.label) (p : t) : res t :=
  if negb (runs p x) then Ok p
  else
    (let! (s, e) := Server.exec o x (core p) in
     if forallb (available p) (label_needs x (core p) ++ flat_map entry_needs e) then Ok (stepped x s p) else UB)%gs.

Definition close (p : t) : res t :=
  match main p, ahead p with
  | Waiting, O =>
      (let! (s, _) := Server.sys_step o System.LClose (core p) in
       Ok (mk s Closing (quit_ p) O (wend p) (lend p) (ioend p) (ran p)))%gs
  | _, _ => Ok p
  end.

Definition exec (x : label) (p : t) : res t :=
  match x with
  | PSignal => Ok (mk (core p) (main p) true (ahead p) (wend p) (lend p) (ioend p) (ran p))
  | PMain => main_step p
  | PClose => close p
  | PWriterEnd =>
      Ok (match main p, Server.stq (core p) with
          | Destroying (Writer_ :: _) true, [] =>
              mk (core p) (main p) (quit_ p) (ahead p) true (lend p) (ioend p) (ran p)
          | _, _ => p
          end)
  | PLobbyEnd =>
      Ok (match main p with
          | Destroying (LobbyThread_ :: _) true =>
              mk (core p) (main p) (quit_ p) (ahead p) (wend p) true (ioend p) (ran p)
          | _ => p
          end)
  | PIoEnd l =>
      Ok (match main p with
          | Destroying (Server_ :: _) true =>
              if bool_decide (l ∈ io_loops p)
              then mk (core p) (main p) (quit_ p) (ahead p) (wend p) (lend p) ({[l]} ∪ ioend p) (ran p)
              else p
          | _ => p
          end)
  | PServer x => server_step x p
  end.

End Exec.

(** [main] up to [loop.loop()]. *)
Definition boot (io game : Z) (w : W) : t :=
  mk (Server.boot o io game w) Serving false 0 false false ∅ [].

Inductive run : t -> list label -> t -> Prop :=
  | run_nil p : run p [] p
  | run_step p x p1 xs p2 (HO : HashOrder) (LM : Libm) :
      Server.in_range (core p) -> exec x p = Ok p1 -> run p1 xs p2 -> run p (x :: xs) p2.

(** ** Storage *)

Lemma conn_event_stq c ans ev (s s' : Server.t W) e :
  Server.conn_event o c ans ev s = Ok (s', e) -> exists new, Server.stq s' = Server.stq s ++ new.
Proof.
  unfold Server.conn_event. destruct (Server.conns s !! c) as [[l k]|]; [|intros H; inv H; exists []; by rewrite app_nil_r].
  destruct (TcpConnection.exec _ _ _) as [[k' e']|]; [|done]. cbn [res_bind]. intros H. inv H. by eexists.
Qed.

Lemma send_outs_stq os (s s' : Server.t W) e : Server.send_outs o os s = Ok (s', e) -> exists new, Server.stq s' = Server.stq s ++ new.
Proof.
  revert s s' e. induction os as [|x os IH]; intros s s' e H; cbn [Server.send_outs] in H.
  { inv H. exists []. by rewrite app_nil_r. }
  destruct (Server.send_out o x s) as [[s1 e1]|] eqn:E1; [|done]. cbn [res_bind] in H.
  destruct (Server.send_outs o os s1) as [[s2 e2]|] eqn:E2; [|done]. cbn [res_bind] in H. inv H.
  apply IH in E2 as [n2 ->]. assert (exists n1, Server.stq s1 = Server.stq s ++ n1) as [n1 ->].
  { destruct x as [c m|c|j]; cbn [Server.send_out] in E1.
    - destruct (Server.conn_event _ _ _ _ _) as [[s3 e3]|] eqn:E3; [|done]. cbn [res_bind] in E1. inv E1. by eapply conn_event_stq.
    - by eapply conn_event_stq.
    - inv E1. by eexists. }
  exists (n1 ++ n2). by rewrite (assoc_L (++)).
Qed.

Section Steps.
Context {HO : HashOrder} {LM : Libm}.

Lemma sys_step_stq x (s s' : Server.t W) e : Server.sys_step o x s = Ok (s', e) -> exists new, Server.stq s' = Server.stq s ++ new.
Proof.
  unfold Server.sys_step. destruct (System.exec x _) as [[y os]|]; [|done]. cbn [res_bind].
  destruct (Server.send_outs o os _) as [[s1 e1]|] eqn:E; [|done]. cbn [res_bind]. intros H. inv H.
  by apply send_outs_stq in E.
Qed.

(** The queue of the storage thread grows at its end; the thread takes its head. *)
Lemma server_exec_stq x (s s' : Server.t W) e :
  Server.exec o x s = Ok (s', e) ->
  exists new, Server.stq s' = (match x with Server.SStore => tail (Server.stq s) | _ => Server.stq s end) ++ new.
Proof.
  assert (forall s0 : Server.t W, exists new, Server.stq s0 = Server.stq s0 ++ new) as Hsame
    by (intros s0; exists []; by rewrite app_nil_r).
  destruct x; cbn [Server.exec]; intros H.
  - unfold Server.accept in H. destruct (TcpServer.newConnection _) as [[sv v]|]; [|done]. cbn [res_bind] in H.
    apply Ok_inj in H. apply (f_equal fst) in H. cbn [fst] in H. subst s'. destruct v as [|[] ?]; exact (Hsame s).
  - apply Ok_inj in H. unfold Server.establish in H. destruct (Server.conns s !! c) as [[l [k ts]]|]; [|inv H; exact (Hsame _)].
    destruct (decide _); [|inv H; exact (Hsame _)]. destruct (TcpConnection.connectEstablished k). inv H. exact (Hsame s).
  - destruct (decide _); [inv H; exact (Hsame _)|]. by eapply conn_event_stq.
  - destruct (decide _); [inv H; exact (Hsame _)|]. by eapply conn_event_stq.
  - unfold Server.remove in H. destruct (Server.baseq s) as [|c rest]; [inv H; exact (Hsame _)|].
    destruct (TcpServer.removeConnection _ _). by apply conn_event_stq in H.
  - unfold Server.run_functor in H. destruct (Server.lobq s) as [|f rest]; [inv H; exact (Hsame _)|].
    destruct (match f with Server.FMsg _ _ => _ | Server.FGone _ => _ end); [|inv H; exact (Hsame _)].
    destruct (Server.sys_step _ _ _) as [[s1 e1]|] eqn:E; [|done]. cbn [res_bind] in H. inv H. by apply sys_step_stq in E.
  - by eapply sys_step_stq.
  - by eapply sys_step_stq.
  - by eapply sys_step_stq.
  - by eapply sys_step_stq.
  - unfold Server.run_storage in H. destruct (Server.stq s) as [|tk rest] eqn:Eq.
    { inv H. exists []. by rewrite Eq. }
    destruct (Storage.run_task _ _ _ _) as [[[th w1] e1]|]; [|done]. cbn [res_bind] in H.
    destruct (Server.send_outs o _ _) as [[s1 e2]|] eqn:E; [|done]. cbn [res_bind] in H. inv H. by apply send_outs_stq in E.
Qed.


(** ** The destructor of [writer_] *)

Definition rest_of (p : t) : list member :=
  match main p with Destroying ms _ => ms | Exited => [] | _ => rev members end.

(** What the destructor has left is an end of the list of members, and the thread
    of a member has ended before the member goes. *)
Record Order (p : t) : Prop := mkOrder {
  Or_rest : exists done_, rev members = done_ ++ rest_of p;
  Or_wend : Storage.enabled o = true -> Writer_ ∉ rest_of p -> wend p = true;
  Or_lend : LobbyThread_ ∉ rest_of p -> lend p = true;
}.

(** A step on the queue of the storage thread: until the thread ends, tasks are
    added at the end and run in order. *)
Record Flush (p p' : t) : Prop := mkFlush {
  Fl_mono : wend p = true -> wend p' = true /\ ran p' = ran p;
  Fl_grow : wend p = false -> exists new, ran p' ++ Server.stq (core p') = ran p ++ Server.stq (core p) ++ new;
  Fl_end : wend p = false -> wend p' = true -> exists new, ran p' = ran p ++ Server.stq (core p) ++ new;
}.

Lemma Flush_new p p' new :
  wend p' = wend p -> ran p' = ran p -> Server.stq (core p') = Server.stq (core p) ++ new -> Flush p p'.
Proof.
  intros Hw Hr Hq. split; [by rewrite Hw|intros _; exists new; by rewrite Hr, Hq|congruence].
Qed.

Lemma Flush_refl p p' : wend p' = wend p -> ran p' = ran p -> Server.stq (core p') = Server.stq (core p) -> Flush p p'.
Proof. intros Hw Hr Hq. apply (Flush_new _ _ []); [done|done|by rewrite app_nil_r]. Qed.

Lemma Flush_trans p p1 p' : Flush p p1 -> Flush p1 p' -> Flush p p'.
Proof.
  intros [Hm Hg He] [Hm' Hg' He']. split.
  - intros Hw. destruct (Hm Hw) as [Hw1 <-]. by apply Hm'.
  - intros Hw. destruct (wend p1) eqn:E1.
    + destruct (Hm' eq_refl) as [_ ->], (He Hw eq_refl) as [new ->]. exists (new ++ Server.stq (core p')).
      by rewrite <- !(assoc_L (++)).
    + destruct (Hg' eq_refl) as [n2 ->], (Hg Hw) as [n1 H1]. exists (n1 ++ n2).
      by rewrite (assoc_L (++)), H1, <- !(assoc_L (++)).
  - intros Hw Hw'. destruct (wend p1) eqn:E1.
    + destruct (Hm' eq_refl) as [_ ->]. by apply He.
    + destruct (He' eq_refl Hw') as [n2 ->], (Hg Hw) as [n1 H1]. exists (n1 ++ n2).
      by rewrite (assoc_L (++)), H1, <- !(assoc_L (++)).
Qed.

Lemma destroy_conns_flush cs p p' :
  foldl destroy_conn (Ok p) cs = Ok p' ->
  main p' = main p /\ wend p' = wend p /\ lend p' = lend p /\ ran p' = ran p /\ exists new, Server.stq (core p') = Server.stq (core p) ++ new.
Proof.
  revert p. induction cs as [|c cs IH]; intros p H; cbn [foldl] in H.
  { inv H. eauto 7 using app_nil_r. }
  destruct (destroy_conn (Ok p) c) as [p1|] eqn:E.
  2:{ exfalso. clear -H. induction cs as [|c' cs IH]; [done|]. by apply IH. }
  apply IH in H as (-> & -> & -> & -> & new & ->). clear IH. unfold destroy_conn in E. cbn [res_bind] in E.
  destruct (Server.conns (core p) !! c) as [[l [k ts]]|]; [|inv E; eauto 7].
  destruct (TcpServer.connections_ _ !! _) as [?|]; [|inv E; eauto 7].
  destruct l as [l|].
  - destruct (Server.conn_event _ _ _ _ _) as [[s e]|] eqn:Ec; [|done]. cbn [res_bind] in E. inv E.
    apply conn_event_stq in Ec as [n1 Hn]. cbn. rewrite Hn. repeat split. exists (n1 ++ new). by rewrite (assoc_L (++)).
  - destruct (TcpConnection.connectDestroyed k) as [k' e]. destruct (forallb _ _); [|done]. inv E. cbn.
    repeat split. eexists. by rewrite <- (assoc_L (++)).
Qed.

Lemma server_step_flush x p p' : server_step x p = Ok p' -> Flush p p' /\ main p' = main p /\ wend p' = wend p /\ lend p' = lend p.
Proof.
  unfold server_step. destruct (runs p x) eqn:Hr; cbn [negb]; [|intros H; inv H; by split; [apply Flush_refl|]].
  destruct (Server.exec o x (core p)) as [[s e]|] eqn:E; [|done]. cbn [res_bind].
  destruct (forallb _ _); [|done]. intros H. apply Ok_inj in H. subst p'. split; [|done].
  apply server_exec_stq in E as [new Hq].
  destruct (decide (x = Server.SStore)) as [->|Hx].
  - cbn [runs] in Hr. apply negb_true_iff in Hr. split; cbn; try congruence. intros _. rewrite Hq. exists new.
    destruct (Server.stq (core p)) as [|tk rest]; cbn [tail]; [done|]. by rewrite <- !(assoc_L (++)).
  - apply (Flush_new _ _ new); [done| |by destruct x]. cbn. by destruct x.
Qed.

Lemma begin_member_flush m ms p p' :
  begin_member m ms p = Ok p' ->
  Flush p p' /\ wend p' = wend p /\ lend p' = lend p /\
  (main p' = Destroying (m :: ms) true \/
   main p' = Destroying ms false /\ (m = Writer_ -> Storage.enabled o = false) /\ m <> LobbyThread_).
Proof.
  intros H. destruct m; cbn [begin_member] in H;
    try (apply Ok_inj in H; subst p'; split; [by apply Flush_refl|by split_and!; [..|by right]]).
  - destruct (foldl _ _ _) as [p1|] eqn:E; [|done]. cbn [res_bind] in H. inv H.
    apply destroy_conns_flush in E as (Hm & Hw & Hl & Hr & new & Hq). split; [by apply (Flush_new _ _ new)|]. split_and!; [done|done|by left].
  - apply Ok_inj in H. subst p'. split; [by apply Flush_refl|]. split_and!; [done|done|by left].
  - apply Ok_inj in H. subst p'. split; [by apply Flush_refl|]. split_and!; [done|done|]. destruct (Storage.enabled o); [by left|by right].
Qed.

(** A member is destroyed only when the one declared after it is gone. *)
Lemma Order_next m ms p p' :
  Order p -> rest_of p = m :: ms -> rest_of p' = ms -> wend p' = wend p -> lend p' = lend p ->
  (m = Writer_ -> Storage.enabled o = true -> wend p = true) -> (m = LobbyThread_ -> lend p = true) -> Order p'.
Proof.
  intros [[d Hd] Hw Hl] Hr Hr' Hwe Hle Hm Hm'. split.
  - exists (d ++ [m]). by rewrite Hr', <- (assoc_L (++)), Hd, Hr.
  - rewrite Hr', Hwe. intros He Hn. destruct (decide (m = Writer_)) as [->|Hne]; [by apply Hm|]. apply Hw; [done|]. rewrite Hr. set_solver.
  - rewrite Hr', Hle. intros Hn. destruct (decide (m = LobbyThread_)) as [->|Hne]; [by apply Hm'|]. apply Hl. rewrite Hr. set_solver.
Qed.

Lemma Order_same p p' :
  Order p -> rest_of p' = rest_of p -> (wend p = true -> wend p' = true) -> (lend p = true -> lend p' = true) -> Order p'.
Proof. intros [Hd Hw Hl] Hr He Hle. split; rewrite Hr; auto. Qed.

(** A step that leaves the members, or one that changes nothing of the storage. *)
Ltac keep Em :=
  split; [first [done | eapply Order_same; [eassumption|unfold rest_of; cbn; by rewrite ?Em|by cbn|by cbn]]|by apply Flush_refl].

Lemma main_step_flush p p' : Order p -> main_step p = Ok p' -> Order p' /\ Flush p p'.
Proof.
  intros HO1 H. unfold main_step in H. destruct (main p) as [| | |[|m ms] [|]|] eqn:Em.
  7:{ apply begin_member_flush in H as (HF & Hw & Hl & Hm). split; [|done]. destruct Hm as [Hm|(Hm & He & Hne)].
      - eapply Order_same; [done|unfold rest_of; by rewrite Em, Hm|by rewrite Hw|by rewrite Hl].
      - eapply (Order_next m ms); [done|unfold rest_of; by rewrite Em|unfold rest_of; by rewrite Hm|done|done| |done].
        intros Hx. specialize (He Hx). congruence. }
  6:{ apply Ok_inj in H. subst p'. destruct (joined m p) eqn:Ej; [|keep Em].
      split; [|by apply Flush_refl]. eapply (Order_next m ms); [done|unfold rest_of; by rewrite Em|done|done|done| |]; by intros ->. }
  all: apply Ok_inj in H; subst p'.
  - destruct (quit_ p); keep Em.
  - keep Em.
  - destruct (System.gone _); keep Em.
  - keep Em.
  - keep Em.
  - keep Em.
Qed.

Lemma exec_flush x p p' : Order p -> exec x p = Ok p' -> Order p' /\ Flush p p'.
Proof.
  intros HO1 H. destruct x as [| | | | |l|x]; cbn [exec] in H.
  - apply Ok_inj in H. subst p'. keep H.
  - by apply main_step_flush.
  - unfold close in H. destruct (main p) eqn:Em; try (apply Ok_inj in H; subst p'; keep Em).
    destruct (ahead p); [|apply Ok_inj in H; subst p'; keep Em].
    destruct (Server.sys_step _ _ _) as [[s e]|] eqn:E; [|done]. cbn [res_bind] in H. inv H.
    apply sys_step_stq in E as [new Hq]. split; [|by apply (Flush_new _ _ new)].
    eapply Order_same; [done| |done|done]. unfold rest_of. by rewrite Em.
  - apply Ok_inj in H. subst p'. destruct (main p) as [| | |[|[] ms] [|]|] eqn:Em; try keep Em.
    destruct (Server.stq (core p)) eqn:Eq; [|keep Em].
    split; [eapply Order_same; [done|unfold rest_of; cbn; by rewrite Em|done|done]|].
    split; cbn; try done; intros; exists []; by rewrite Eq, ?app_nil_r.
  - apply Ok_inj in H. subst p'. destruct (main p) as [| | |[|[] ms] [|]|] eqn:Em; keep Em.
  - apply Ok_inj in H. subst p'. destruct (main p) as [| | |[|[] ms] [|]|] eqn:Em; try keep Em.
    destruct (bool_decide _); keep Em.
  - apply server_step_flush in H as (HF & Hm & Hw & Hl). split; [|done].
    eapply Order_same; [done|unfold rest_of; by rewrite Hm|by rewrite Hw|by rewrite Hl].
Qed.

End Steps.

Lemma boot_Order io game w : Order (boot io game w).
Proof.
  split; [by exists []|intros _|]; intros Hn; exfalso; apply Hn; apply (bool_decide_unpack _); by vm_compute.
Qed.

Lemma run_flush p xs p' : Order p -> run p xs p' -> Order p' /\ Flush p p'.
Proof.
  intros HO1 Hr. induction Hr as [p|p x p1 xs p2 HO LM _ Hx _ IH]; [by split; [|apply Flush_refl]|].
  destruct (exec_flush x p p1 HO1 Hx) as [H1 F1]. destruct (IH H1) as [H2 F2].
  split; [done|by eapply Flush_trans].
Qed.

Lemma members_NoDup : NoDup (rev members).
Proof. apply (bool_decide_unpack _). by vm_compute. Qed.

(** While the storage thread runs, no member is gone. *)
Lemma Order_alive p m :
  Storage.enabled o = true -> Order p -> wend p = false -> member_alive p m = true.
Proof.
  intros Hen [[d Hd] Hw _] He.
  assert (rest_of p = rev members) as Hr.
  { destruct d as [|x d]; [done|]. exfalso. destruct (decide (Writer_ ∈ rest_of p)) as [Hin|Hn]; [|by rewrite Hw in He].
    pose proof members_NoDup as Hnd. rewrite Hd in Hnd. cbn [members rev app] in Hd. injection Hd as <- Hd.
    apply NoDup_cons in Hnd as [Hnd _]. apply Hnd, elem_of_app. by right. }
  assert (m ∈ rest_of p) as Hin by (rewrite Hr; destruct m; apply (bool_decide_unpack _); by vm_compute).
  unfold rest_of in Hin, Hr. unfold member_alive. destruct (main p); try done. by rewrite bool_decide_true.
Qed.

(** C16: Once the signal has come, the process ends only after the storage thread
    has run every task that was in its queue while it ran, in their order: no
    write that was queued is lost. All members of [GameServer], the two clients
    among them, exist as long as that thread does, since [writer_] is declared
    last. *)
Theorem exit_flushes_storage io game w xs p xs' p' :
  Storage.enabled o = true ->
  run (boot io game w) xs p -> run p xs' p' -> wend p = false -> main p' = Exited ->
  ran p ++ Server.stq (core p) `prefix_of` ran p' /\ forall m, member_alive p m = true.
Proof.
  intros Hen Hr Hr' Hw Hx. destruct (run_flush _ _ _ (boot_Order io game w) Hr) as [HO1 _].
  destruct (run_flush _ _ _ HO1 Hr') as [HO2 HF]. split; [|intros m; by apply Order_alive].
  assert (wend p' = true) as Hw'. { apply (Or_wend _ HO2); [done|]. unfold rest_of. rewrite Hx. apply not_elem_of_nil. }
  destruct (Fl_end _ _ HF Hw Hw') as [new ->]. exists new. by rewrite (assoc_L (++)).
Qed.

(** ** The end of the lobby *)

Section Late.
Context {HO : HashOrder} {LM : Libm}.

Lemma split_unique {A} (x : A) xs d ms d' ms' :
  NoDup xs -> xs = d ++ x :: ms -> xs = d' ++ x :: ms' -> ms = ms'.
Proof.
  intros Hnd H1 H2. revert xs d' Hnd H1 H2. induction d as [|y d IH]; intros xs [|y' d'] Hnd H1 H2; subst xs; cbn [app] in *.
  - congruence.
  - injection H2 as -> H2. exfalso. apply NoDup_cons in Hnd as [Hn _]. apply Hn. rewrite H2. set_solver.
  - injection H2 as -> H2. exfalso. apply NoDup_cons in Hnd as [Hn _]. apply Hn. set_solver.
  - injection H2 as -> H2. apply NoDup_cons in Hnd as [_ Hnd]. by eapply IH.
Qed.

(** What is left when a member is destroyed: those declared before it. *)
Lemma rest_at p m d ms ms' :
  Order p -> rest_of p = m :: ms -> rev members = d ++ m :: ms' -> ms = ms'.
Proof. intros [[d' Hd] _ _] Hr He. rewrite Hr in Hd. by eapply split_unique; [apply members_NoDup|..]. Qed.

Lemma rest_lobby p ms : Order p -> rest_of p = LobbyThread_ :: ms -> ms = [Server_; GameThreads_].
Proof. intros HO1 Hr. by apply (rest_at p LobbyThread_ (take 19 (rev members)) _ _ HO1 Hr). Qed.

Lemma rest_server p ms : Order p -> rest_of p = Server_ :: ms -> ms = [GameThreads_].
Proof. intros HO1 Hr. by apply (rest_at p Server_ (take 20 (rev members)) _ _ HO1 Hr). Qed.

(** Every functor of the lobby uses a member declared after the lobby's thread. *)
Lemma functor_needs_late g f :
  Server.lobby_task f ->
  exists m, NMember m ∈ functor_needs g f /\ m ∉ [LobbyThread_; Server_; GameThreads_].
Proof.
  destruct f as [c m|c]; cbn [Server.lobby_task functor_needs]; intros H.
  - destruct m; try done.
    + exists Codec_. set_solver.
    + exists Codec_. set_solver.
    + exists ConnToPlayer_. unfold session_needs. set_solver.
    + exists ConnToPlayer_. unfold session_needs. set_solver.
    + exists ConnToPlayer_. unfold session_needs. set_solver.
  - exists ConnToPlayer_. unfold session_needs. set_solver.
Qed.

(** While the destructor waits for the lobby's thread to end, every member
    declared after that thread is gone, but the thread still runs what is in its
    queue: any request or disconnection there uses a destroyed member. *)
Theorem late_request_uses_destroyed io game w xs p ms f rest now r1 r2 :
  run (boot io game w) xs p ->
  main p = Destroying (LobbyThread_ :: ms) true -> lend p = false ->
  Server.lobq (core p) = f :: rest -> Server.lobby_task f ->
  exec (PServer (Server.SLobby now r1 r2)) p = UB.
Proof.
  intros Hr Hm Hl Hq Hf. destruct (run_flush _ _ _ (boot_Order io game w) Hr) as [HO1 _].
  assert (ms = [Server_; GameThreads_]) as -> by (apply (rest_lobby p); [done|unfold rest_of; by rewrite Hm]).
  cbn [exec]. unfold server_step. cbn [runs]. rewrite Hl. cbn [negb].
  destruct (Server.exec _ _ _) as [[s e]|]; [|done]. cbn [res_bind label_needs]. rewrite Hq.
  destruct (functor_needs_late (snd (System.lob (Server.sys (core p)))) f Hf) as (m & Hin & Hout).
  destruct (forallb _ _) eqn:Ha; [|done]. exfalso. rewrite forallb_forall in Ha.
  specialize (Ha (NMember m)). cbn [available] in Ha. unfold member_alive in Ha. rewrite Hm in Ha.
  apply Hout. apply (bool_decide_unpack _). rewrite Ha; [done|]. apply in_or_app. left. by apply list_elem_of_In.
Qed.

(** ** The connections *)

Lemma conn_event_at (c : Z) ans ev l k (s : Server.t W) :
  Server.conns s !! c = Some (l, k) ->
  Server.conn_event o c ans ev s =
    (let! (k', e) := TcpConnection.exec (Gateway.messageCb (Storage.enabled o) c ans) ev k in
     Ok (Server.after_conn o c l k' e s, map (Server.GIo c) e))%gs.
Proof.
  intros H. unfold Server.conn_event.
  match goal with |- context [match ?x with _ => _ end] => replace x with (Some (l, k)) by (symmetry; exact H) end.
  done.
Qed.

Lemma conn_event_none (c : Z) ans ev (s : Server.t W) :
  Server.conns s !! c = None -> Server.conn_event o c ans ev s = Ok (s, []).
Proof.
  intros H. unfold Server.conn_event.
  match goal with |- context [match ?x with _ => _ end] => replace x with (@None (loop * TcpConnection.conn)) by (symmetry; exact H) end.
  done.
Qed.

Lemma conn_runs_at (c : Z) l k p : Server.conns (core p) !! c = Some (l, k) -> conn_runs p c = loop_runs p l.
Proof.
  intros H. unfold conn_runs.
  match goal with |- context [match ?x with _ => _ end] => replace x with (Some (l, k)) by (symmetry; exact H) end.
  done.
Qed.

Lemma conn_event_destroy (c : Z) l k ts (s : Server.t W) :
  Server.conns s !! c = Some (l, (k, ts)) ->
  Server.conn_event o c [] TcpConnection.EvDestroy s =
    Ok (Server.after_conn o c l (k, ts ++ [TcpConnection.TDestroy]) [] s, []).
Proof. intros H. by rewrite (conn_event_at _ _ _ _ _ _ H). Qed.

Lemma destroy_UB cs : foldl destroy_conn UB cs = UB.
Proof. by induction cs. Qed.

(** One connection of the table is told to go; the others stay as they are. *)
Lemma destroy_conn_frame c1 p p1 :
  destroy_conn (Ok p) c1 = Ok p1 ->
  main p1 = main p /\ lend p1 = lend p /\ ioend p1 = ioend p /\ Server.fresh (core p1) = Server.fresh (core p) /\
  Server.srv (core p1) = Server.srv (core p) /\
  forall c : Z, c <> c1 -> Server.conns (core p1) !! c = Server.conns (core p) !! c.
Proof.
  unfold destroy_conn. cbn [res_bind].
  destruct (Server.conns (core p) !! c1) as [[l1 [k1 ts1]]|] eqn:Ec1; [|intros E; by inv E].
  destruct (TcpServer.connections_ _ !! GameServer.connName c1); [|intros E; by inv E]. destruct l1 as [l1|].
  - rewrite (conn_event_destroy _ _ _ _ _ Ec1). cbn [res_bind]. intros E. inv E. split_and!; try done.
    intros c Hne. cbn. by rewrite lookup_insert_ne by done.
  - destruct (TcpConnection.connectDestroyed k1). destruct (forallb _ _); [|done]. intros E. inv E. split_and!; try done.
    intros c Hne. cbn. by rewrite lookup_insert_ne by done.
Qed.

(** A live connection of the base loop calls the lobby, which is gone. *)
Lemma destroy_conn_base (c : Z) k ts p :
  Server.conns (core p) !! c = Some (None, (k, ts)) -> TcpConnection.state_ k = TcpConnection.kConnected ->
  is_Some (TcpServer.connections_ (Server.srv (core p)) !! GameServer.connName c) -> lend p = true ->
  destroy_conn (Ok p) c = UB.
Proof.
  intros Hc Hk [l Ht] Hl. unfold destroy_conn. cbn [res_bind]. rewrite Hc, Ht. unfold TcpConnection.connectDestroyed.
  rewrite decide_True by done. cbn. by rewrite Hl.
Qed.

Lemma destroy_conn_posts (c : Z) n k ts p :
  Server.conns (core p) !! c = Some (Some n, (k, ts)) ->
  is_Some (TcpServer.connections_ (Server.srv (core p)) !! GameServer.connName c) ->
  exists p1, destroy_conn (Ok p) c = Ok p1 /\
    Server.conns (core p1) !! c = Some (Some n, (k, ts ++ [TcpConnection.TDestroy])).
Proof.
  intros Hc [l Ht]. unfold destroy_conn. cbn [res_bind]. rewrite Hc, Ht, (conn_event_destroy _ _ _ _ _ Hc).
  cbn [res_bind]. eexists. split; [done|]. cbn. by rewrite lookup_insert_eq.
Qed.

(** The destructor of [TcpServer], on a live connection of the table. *)
Lemma destroy_conns_live (c : Z) l k ts cs p p' :
  foldl destroy_conn (Ok p) cs = Ok p' -> Server.conns (core p) !! c = Some (l, (k, ts)) ->
  TcpConnection.state_ k = TcpConnection.kConnected ->
  is_Some (TcpServer.connections_ (Server.srv (core p)) !! GameServer.connName c) -> lend p = true ->
  exists ts', Server.conns (core p') !! c = Some (l, (k, ts ++ ts')) /\
    (c ∈ cs -> is_Some l /\ exists ts'', ts' = TcpConnection.TDestroy :: ts'') /\
    main p' = main p /\ lend p' = lend p /\ ioend p' = ioend p /\ Server.fresh (core p') = Server.fresh (core p).
Proof.
  revert p ts. induction cs as [|c1 cs IH]; intros p ts H Hc Hk Ht Hl; cbn [foldl] in H.
  { inv H. exists []. rewrite app_nil_r. set_solver. }
  destruct (destroy_conn (Ok p) c1) as [p1|] eqn:E; [|by rewrite destroy_UB in H].
  destruct (destroy_conn_frame _ _ _ E) as (Hm1 & Hl1 & Hi1 & Hf1 & Hs1 & Hne).
  assert (exists ts1, Server.conns (core p1) !! c = Some (l, (k, ts ++ ts1)) /\
    (if decide (c = c1) then is_Some l /\ ts1 = [TcpConnection.TDestroy] else ts1 = [])) as (ts1 & Hc1 & Hts1).
  { destruct (decide (c = c1)) as [<-|Hn]; [|exists []; rewrite app_nil_r; split; [by rewrite Hne|done]].
    destruct l as [n|]; [|by rewrite (destroy_conn_base _ _ _ _ Hc) in E].
    destruct (destroy_conn_posts _ _ _ _ _ Hc Ht) as (p2 & E2 & Hc2). rewrite E in E2. inv E2. eauto. }
  destruct (IH p1 _ H Hc1 Hk ltac:(by rewrite Hs1) ltac:(by rewrite Hl1)) as (ts2 & Hc2 & Hin & Hm2 & Hl2 & Hi2 & Hf2).
  exists (ts1 ++ ts2). rewrite (assoc_L (++)). split; [done|]. split; [|split_and!; congruence].
  intros [->|Hin']%elem_of_cons.
  - rewrite decide_True in Hts1 by done. destruct Hts1 as [Hs ->]. split; [done|]. by exists ts2.
  - destruct (Hin Hin') as [Hs [ts3 ->]]. split; [done|]. destruct (decide (c = c1)); [destruct Hts1 as [_ ->]|subst ts1]; by eexists.
Qed.

(** C40: The destructor of [TcpServer] makes every connection that is still open
    run [connectDestroyed]. Its connection callback calls [lobby_->runInLoop], but
    the lobby's thread, and the loop on its stack, are already gone: the task uses
    a loop that does not exist. On the base loop it is the destructor itself. *)
Theorem shutdown_uses_dead_loop io game w xs p ms (c : Z) l k r p1 :
  run (boot io game w) xs p ->
  main p = Destroying (Server_ :: ms) false ->
  Server.conns (core p) !! c = Some (l, (k, [])) -> TcpConnection.state_ k = TcpConnection.kConnected ->
  is_Some (TcpServer.connections_ (Server.srv (core p)) !! GameServer.connName c) ->
  c ∉ Server.fresh (core p) -> (forall n, l = Some n -> n ∉ ioend p) ->
  exec PMain p = Ok p1 -> is_Some l /\ exec (PServer (Server.STask c r)) p1 = UB.
Proof.
  intros Hr Hm Hc Hk Ht Hf Hio Hx. destruct (run_flush _ _ _ (boot_Order io game w) Hr) as [HO1 _].
  assert (lend p = true) as Hl.
  { apply (Or_lend _ HO1). assert (rest_of p = Server_ :: ms) as Hr' by (unfold rest_of; by rewrite Hm).
    rewrite Hr', (rest_server p ms HO1 Hr'). set_solver. }
  cbn [exec] in Hx. unfold main_step in Hx. rewrite Hm in Hx. cbn [begin_member] in Hx.
  destruct (foldl _ _ _) as [p2|] eqn:E; [|done]. cbn [res_bind] in Hx. apply Ok_inj in Hx. subst p1.
  destruct (destroy_conns_live c l k [] _ p p2 E Hc Hk Ht Hl) as (ts & Hc2 & Hin & Hm2 & Hl2 & Hi2 & Hf2).
  destruct Hin as [[n ->] [ts' ->]]; [apply elem_of_elements, elem_of_dom; by eexists|]. split; [done|].
  cbn [exec]. unfold server_step. cbn [runs]. rewrite (conn_runs_at c _ _ (set_main _ p2) Hc2). cbn [loop_runs ioend set_main].
  rewrite Hi2, bool_decide_true by (by apply Hio). cbn [negb Server.exec]. cbn [core set_main].
  rewrite Hf2, decide_False by done. rewrite (conn_event_at _ _ _ _ _ _ Hc2). cbn [TcpConnection.exec TcpConnection.exec_task].
  cbn [app TcpConnection.exec_task]. unfold TcpConnection.connectDestroyed. rewrite decide_True by done. cbn. by rewrite Hl2, Hl.
Qed.

(** ** Connections that are down *)

(** Every connection is closed. *)
Definition quiet (s : Server.t W) : Prop :=
  forall (c : Z) l k ts, Server.conns s !! c = Some (l, (k, ts)) ->
    TcpConnection.state_ k = TcpConnection.kDisconnected /\ c ∉ Server.fresh s.

(** The step left the connections closed and used nothing. *)
Record Still (s s' : Server.t W) (e : list Server.entry) : Prop := mkStill {
  St_quiet : quiet s';
  St_sys : Server.sys s' = Server.sys s;
  St_srv : Server.srv s' = Server.srv s;
  St_lobq : Server.lobq s' = Server.lobq s;
  St_sth : Server.sth s' = Server.sth s;
  St_needs : flat_map entry_needs e = [];
}.

Lemma Still_refl s : quiet s -> Still s s [].
Proof. done. Qed.

Lemma Still_trans s s1 s2 e1 e2 : Still s s1 e1 -> Still s1 s2 e2 -> Still s s2 (e1 ++ e2).
Proof.
  intros [_ Hy Hv Hl Hs Hn] [Hq Hy2 Hv2 Hl2 Hs2 Hn2]. split; try congruence; [done|]. by rewrite flat_map_app, Hn, Hn2.
Qed.

Lemma Still_cons g s s1 e : entry_needs g = [] -> Still s s1 e -> Still s s1 (g :: e).
Proof. intros Hg [Hq Hy Hv Hl Hs Hn]. split; try done. cbn [flat_map]. by rewrite Hg, Hn. Qed.

Definition not_ready (ev : TcpConnection.event) : Prop := match ev with TcpConnection.EvReady _ _ _ => False | _ => True end.

(** On a closed connection a call or a task only takes down the channel. *)
Lemma exec_down cb ev k ts :
  TcpConnection.state_ k = TcpConnection.kDisconnected -> not_ready ev ->
  exists ts' e, TcpConnection.exec cb ev (k, ts) = Ok ((k, ts'), e) /\
    (e = [] \/ e = [TcpConnection.ShutWr] \/ e = [TcpConnection.RemoveChannel]).
Proof.
  intros Hk Hev. destruct ev as [msg| | |r|]; try done; cbn [TcpConnection.exec].
  - rewrite decide_False by congruence. eauto 6.
  - rewrite decide_False by congruence. eauto 6.
  - eauto 6.
  - destruct ts as [|[msg| |] ts]; cbn [TcpConnection.exec_task]; [eauto 6| | |].
    + unfold TcpConnection.sendInLoop. rewrite decide_True by done. eauto 6.
    + unfold TcpConnection.shutdownInLoop. destruct (TcpConnection.isWriting k); eauto 6.
    + unfold TcpConnection.connectDestroyed. rewrite decide_False by congruence. eauto 6.
Qed.

Lemma still_after (c : Z) l k ts ts' e s :
  quiet s -> Server.conns s !! c = Some (l, (k, ts)) ->
  e = [] \/ e = [TcpConnection.ShutWr] \/ e = [TcpConnection.RemoveChannel] ->
  Still s (Server.after_conn o c l (k, ts') e s) (map (Server.GIo c) e).
Proof.
  intros Hq Hc He. destruct (Hq _ _ _ _ Hc) as [Hk Hf]. split; try done.
  - intros c' l' k' ts1. cbn. destruct (decide (c' = c)) as [->|Hn].
    + rewrite lookup_insert_eq. intros H. by inv H.
    + rewrite lookup_insert_ne by done. apply Hq.
  - cbn. destruct He as [->|[->| ->]]; apply app_nil_r.
  - destruct He as [->|[->| ->]]; done.
Qed.

Lemma still_conn_event (c : Z) ans ev s :
  quiet s -> not_ready ev -> exists s' e, Server.conn_event o c ans ev s = Ok (s', e) /\ Still s s' e.
Proof.
  intros Hq Hev. destruct (Server.conns s !! c) as [[l [k ts]]|] eqn:Hc.
  - rewrite (conn_event_at _ _ _ _ _ _ Hc). destruct (Hq _ _ _ _ Hc) as [Hk _].
    destruct (exec_down (Gateway.messageCb (Storage.enabled o) c ans) ev k ts Hk Hev) as (ts' & e & -> & He).
    cbn [res_bind]. eexists _, _. split; [done|]. by eapply still_after.
  - exists s, []. split; [by apply conn_event_none|by apply Still_refl].
Qed.

Lemma still_send_out x s : quiet s -> exists s' e, Server.send_out o x s = Ok (s', e) /\ Still s s' e.
Proof.
  intros Hq. destruct x as [c m|c|j]; cbn [Server.send_out].
  - destruct (still_conn_event c [] (TcpConnection.EvSend (Gateway.enc m)) s Hq I) as (s' & e & -> & Hs). cbn [res_bind].
    eexists _, _. split; [done|]. by apply Still_cons.
  - by apply still_conn_event.
  - eexists _, _. split; [done|]. by split.
Qed.

Lemma still_send_outs os s : quiet s -> exists s' e, Server.send_outs o os s = Ok (s', e) /\ Still s s' e.
Proof.
  revert s. induction os as [|x os IH]; intros s Hq; cbn [Server.send_outs]; [eexists _, _; by split; [|apply Still_refl]|].
  destruct (still_send_out x s Hq) as (s1 & e1 & -> & H1). cbn [res_bind].
  destruct (IH s1 (St_quiet _ _ _ H1)) as (s2 & e2 & -> & H2). cbn [res_bind]. eexists _, _. split; [done|]. by eapply Still_trans.
Qed.

Lemma still_sys_step x s y os :
  quiet s -> System.exec x (Server.sys s) = Ok (y, os) ->
  exists s' e, Server.sys_step o x s = Ok (s', e) /\ Still (Server.set_sys y s) s' e.
Proof.
  intros Hq Hx. unfold Server.sys_step. rewrite Hx. cbn [res_bind].
  destruct (still_send_outs os (Server.set_sys y s) Hq) as (s' & e & -> & H). cbn [res_bind].
  eexists _, _. split; [done|]. by apply Still_cons.
Qed.

(** ** A shutdown without clients *)

(** The rooms and the lobby's tasks for them, by the place of [main]. *)
Definition sys_phase (m : pc) (y : System.t) : Prop :=
  match m with
  | Serving | Waiting => System.SInv y
  | Closing => exists ids P, Shutdown.CInv ids P y /\ Shutdown.Last ids y
  | Destroying _ _ | Exited => System.lq y = [] /\ System.gone y = true /\ System.remain y <> None
  end.

Record Ready (m : pc) (s : Server.t W) : Prop := mkReady {
  Re_quiet : quiet s;
  Re_sto : Storage.wf (Server.sth s);
  Re_sys : sys_phase m (Server.sys s);
}.

Lemma Ready_still m s s' e : Ready m s -> Still s s' e -> Ready m s'.
Proof. intros [_ Hs Hy] [Hq' Hy' _ _ Hs' _]. split; [done|by rewrite Hs'|by rewrite Hy']. Qed.

(** The steps of [System] that are left in a phase. *)
Definition step_left (m : pc) (x : System.label) (y : System.t) : Prop :=
  match x with
  | System.LLobby ev => (m = Serving \/ m = Waiting) /\ System.label_ok x
  | System.LTask _ | System.LTick _ => System.gone y = false
  | System.LQueue => True
  | System.LClose => False
  end.

Lemma sys_phase_step m x y :
  sys_phase m y -> GameServer.in_time (System.lob y) -> step_left m x y ->
  exists y' os, System.exec x y = Ok (y', os) /\ sys_phase m y'.
Proof.
  intros Hy Ht Hx. assert (System.label_ok x) as Hlx by (destruct x; cbn in *; tauto).
  destruct m as [| | |ms b|]; cbn [sys_phase] in *.
  - by apply System.exec_SInv.
  - by apply System.exec_SInv.
  - destruct Hy as (ids & P & HC & HL). assert (Shutdown.internal x) as Hi.
    { destruct x; cbn in *; try done. by destruct Hx as [[|] _]. }
    destruct (Shutdown.CInv_step ids P x y HC Hi) as (y' & os & P' & He & HC'). eexists _, _. split; [done|].
    exists ids, P'. split; [done|]. by eapply (Shutdown.Last_step ids P x y).
  - destruct Hy as (Hq & Hg & Hr). assert (x = System.LQueue) as -> by (destruct x; cbn in *; intuition congruence).
    cbn [System.exec]. rewrite Hq. by exists y, [].
  - destruct Hy as (Hq & Hg & Hr). assert (x = System.LQueue) as -> by (destruct x; cbn in *; intuition congruence).
    cbn [System.exec]. rewrite Hq. by exists y, [].
Qed.

Lemma ready_sys_step m x s :
  Ready m s -> GameServer.in_time (System.lob (Server.sys s)) -> step_left m x (Server.sys s) ->
  exists s' e, Server.sys_step o x s = Ok (s', e) /\ Ready m s' /\ Server.lobq s' = Server.lobq s /\ flat_map entry_needs e = [].
Proof.
  intros [Hq Hs Hy] Ht Hx. destruct (sys_phase_step m x _ Hy Ht Hx) as (y & os & He & Hy').
  destruct (still_sys_step x s y os Hq He) as (s' & e & Hse & HS). exists s', e. split; [done|].
  split; [|split; apply HS]. apply (Ready_still m (Server.set_sys y s) s' e); [by split|done].
Qed.

(** The lobby's functors from the connections: once [main] waits, those before
    the task of the destructor; then none. *)
Definition lobby_phase (p : t) : Prop :=
  match main p with
  | Serving => True
  | Waiting => (length (Server.lobq (core p)) <= ahead p)%nat
  | _ => Server.lobq (core p) = []
  end.

Record Calm (p : t) : Prop := mkCalm {
  Ca_order : Order p;
  Ca_ready : Ready (main p) (core p);
  Ca_lobq : lobby_phase p;
}.

(** No client connects, and no event of a connection: the channel of a closed
    connection is disabled. *)
Definition no_clients (x : Server.label) : Prop :=
  match x with Server.SAccept | Server.SReady _ _ _ _ _ => False | _ => True end.

Definition silent (x : label) : Prop := match x with PServer x => no_clients x | _ => True end.

Definition up (m : pc) : bool := match m with Destroying _ _ | Exited => false | _ => true end.

Lemma up_alive p m : up (main p) = true -> member_alive p m = true.
Proof. unfold up, member_alive. by destruct (main p). Qed.

(** The threads use members only. *)
Lemma label_needs_members x s n : n ∈ label_needs x s -> exists m, n = NMember m.
Proof.
  assert (forall g c f, (forall ss, Forall (fun n => exists m, n = NMember m) (f ss)) ->
    Forall (fun n => exists m, n = NMember m) (session_needs g c f)) as Hsn.
  { intros g c f Hf. unfold session_needs. constructor; [eauto|]. repeat dmatch; repeat constructor; eauto. }
  assert (forall b m, Forall (fun n => exists m, n = NMember m) (when b m)) as Hw by (intros [] m; repeat constructor; eauto).
  assert (Forall (fun n => exists m, n = NMember m) (label_needs x s)) as H; [|rewrite Forall_forall in H; apply H].
  destruct x; cbn [label_needs]; repeat dmatch; repeat constructor; eauto. unfold functor_needs.
  repeat dmatch; repeat first [apply Forall_app; split | apply Hsn; intros | apply Hw | constructor; eauto].
Qed.

Lemma needs_available x p :
  (forall m, NMember m ∈ label_needs x (core p) -> member_alive p m = true) ->
  forallb (available p) (label_needs x (core p)) = true.
Proof.
  intros H. apply forallb_forall. intros n Hn%list_elem_of_In. destruct (label_needs_members _ _ _ Hn) as [m ->]. by apply H.
Qed.

(** The lobby's functors from the connections. *)
Lemma ready_functor p now r1 r2 :
  Calm p -> Server.in_range (core p) -> Server.lobq (core p) <> [] ->
  exists s e, Server.run_functor o now r1 r2 (core p) = Ok (s, e) /\ Ready (main p) s /\
    Server.lobq s = tail (Server.lobq (core p)) /\ flat_map entry_needs e = [].
Proof.
  intros [_ HRe Hl] [Ht _] Hne. unfold lobby_phase in Hl. assert (main p = Serving \/ main p = Waiting) as Hm by (destruct (main p); auto; done).
  unfold Server.run_functor. destruct (Server.lobq (core p)) as [|f rest]; [done|].
  assert (Ready (main p) (Server.set_lobq rest (core p))) as HR1 by (destruct HRe; by split).
  destruct (match f with Server.FMsg _ _ => _ | Server.FGone _ => _ end) as [ev|] eqn:Eev; [|by eexists _, _].
  destruct (ready_sys_step (main p) (System.LLobby ev) (Server.set_lobq rest (core p)) HR1 Ht) as (s & e & -> & HR2 & Hq & Hn).
  { split; [done|]. destruct f as [c [] |c]; cbn in Eev; by inv Eev. }
  cbn [res_bind]. eexists _, _. split; [done|]. by rewrite Hq.
Qed.

Context `{SPEC : !Storage.StorageSpec W}.
Hypothesis Hinit : forall w, is_Some (fst (Storage.mysql_init w)).
Hypothesis Hen : Storage.enabled o = true.

Lemma ready_storage m s :
  Ready m s -> exists s' e, Server.run_storage o s = Ok (s', e) /\ Ready m s' /\
    Server.lobq s' = Server.lobq s /\ flat_map entry_needs e = [].
Proof.
  intros [Hq Hs Hy]. unfold Server.run_storage. destruct (Server.stq s) as [|tk rest]; [by eexists _, _|].
  destruct (Storage.run_task_ok o tk (Server.sth s) (Server.world s) Hinit Hs) as (th & w & e & -> & Hwf). cbn [res_bind].
  set (s0 := Server.mk _ _ _ _ _ _ rest th w).
  destruct (still_send_outs (omap System.emit e) s0 Hq) as (s' & e' & -> & HS). cbn [res_bind]. eexists _, _. split; [done|].
  split; [by apply (Ready_still m s0 s' e')|]. split; [apply HS|]. apply (St_needs _ _ _ HS).
Qed.

Lemma ready_remove m s :
  Ready m s -> exists s' e, Server.remove o s = Ok (s', e) /\ Ready m s' /\
    Server.lobq s' = Server.lobq s /\ flat_map entry_needs e = [].
Proof.
  intros [Hq Hs Hy]. unfold Server.remove. destruct (Server.baseq s) as [|c rest]; [by eexists _, _|].
  destruct (TcpServer.removeConnection _ _) as [sv ?]. set (s0 := Server.mk _ sv _ _ rest _ _ _ _).
  destruct (still_conn_event c [] TcpConnection.EvDestroy s0 Hq I) as (s' & e' & -> & HS). eexists _, _. split; [done|].
  split; [by apply (Ready_still m s0 s' e')|]. split; apply HS.
Qed.

Lemma quiet_establish c s : quiet s -> Server.establish c s = (s, []).
Proof.
  intros Hq. unfold Server.establish. destruct (Server.conns s !! c) as [[l [k ts]]|] eqn:Hc; [|done].
  rewrite decide_False; [done|]. by destruct (Hq _ _ _ _ Hc).
Qed.

(** Every step the threads take is defined. *)
Lemma calm_server x p :
  Calm p -> Server.in_range (core p) -> no_clients x -> runs p x = true ->
  exists s e, Server.exec o x (core p) = Ok (s, e) /\ Ready (main p) s /\
    Server.lobq s = (match x with Server.SLobby _ _ _ => tail | _ => id end) (Server.lobq (core p)) /\
    flat_map entry_needs e = [].
Proof.
  intros HC Hr Hx Hruns. pose proof (Ca_ready _ HC) as HRe. pose proof (Re_quiet _ _ HRe) as Hq.
  assert (exists s e, Ok (core p, []) = Ok (s, e) /\ Ready (main p) s /\ Server.lobq s = Server.lobq (core p) /\
    flat_map entry_needs e = []) as Hno by by eexists _, _.
  assert (forall c ans ev, not_ready ev -> exists s e, Server.conn_event o c ans ev (core p) = Ok (s, e) /\ Ready (main p) s /\
    Server.lobq s = Server.lobq (core p) /\ flat_map entry_needs e = []) as Hconn.
  { intros c ans ev Hev. destruct (still_conn_event c ans ev _ Hq Hev) as (s & e & -> & HS). eexists _, _. split; [done|].
    split; [by eapply Ready_still|]. split; apply HS. }
  pose proof (fun y => ready_sys_step (main p) y (core p) HRe (proj1 Hr)) as Hsys.
  destruct x as [|c| |c r| |now r1 r2|now| |l|rid|]; try done; cbn [Server.exec id runs] in *.
  - by rewrite quiet_establish.
  - destruct (decide _); [done|by apply Hconn].
  - by apply ready_remove.
  - destruct (Server.lobq (core p)) as [|f q] eqn:Eq.
    + unfold Server.run_functor. rewrite Eq. eexists _, _. split; [done|]. by split.
    + destruct (ready_functor p now r1 r2 HC Hr) as (s & e & He & HR1 & Hl & Hn); [by rewrite Eq|].
      exists s, e. by rewrite Hl, Eq.
  - apply Hsys. split; [|done]. apply andb_true_iff in Hruns as [_ Hrem]. apply bool_decide_eq_true in Hrem.
    pose proof (Re_sys _ _ HRe) as Hy. destruct (main p); auto; cbn [sys_phase] in Hy; exfalso.
    + destruct Hy as (ids & P & HC' & _). by rewrite (Shutdown.K_remain _ _ _ HC') in Hrem.
    + by destruct Hy as (_ & _ & ?).
    + by destruct Hy as (_ & _ & ?).
  - by apply Hsys.
  - apply Hsys. by apply negb_true_iff in Hruns.
  - apply Hsys. by apply negb_true_iff in Hruns.
  - by apply ready_storage.
Qed.

(** And uses members that exist. *)
Lemma calm_needs x p :
  Calm p -> no_clients x -> runs p x = true -> forallb (available p) (label_needs x (core p)) = true.
Proof.
  intros [HOr [_ _ Hy] Hl] Hx Hruns. unfold lobby_phase in Hl. apply needs_available. intros m Hm. destruct (up (main p)) eqn:Hu; [by apply up_alive|].
  destruct x; try by apply not_elem_of_nil in Hm.
  - cbn [label_needs] in Hm. replace (Server.lobq (core p)) with (@nil Server.ltask) in Hm by (by destruct (main p)).
    by apply not_elem_of_nil in Hm.
  - cbn [runs] in Hruns. apply andb_true_iff in Hruns as [_ Hrem]. apply bool_decide_eq_true in Hrem.
    destruct (main p); try done; by destruct Hy as (_ & _ & ?).
  - cbn [label_needs] in Hm. replace (System.lq (Server.sys (core p))) with (@nil System.ltask) in Hm
      by (destruct (main p); try done; by destruct Hy as [-> _]). by apply not_elem_of_nil in Hm.
  - cbn [runs] in Hruns. apply negb_true_iff in Hruns. destruct (main p); try done; destruct Hy as (_ & ? & _); congruence.
  - cbn [runs] in Hruns. apply negb_true_iff in Hruns. destruct (main p); try done; destruct Hy as (_ & ? & _); congruence.
  - cbn [runs] in Hruns. apply negb_true_iff in Hruns. by apply Order_alive.
Qed.

(** The destructor of [TcpServer] on closed connections. *)
Lemma still_destroy c p :
  quiet (core p) -> exists p', destroy_conn (Ok p) c = Ok p' /\ p' = set_core (core p') p /\ Still (core p) (core p') [].
Proof.
  intros Hq. unfold destroy_conn. cbn [res_bind].
  assert (exists p', Ok p = Ok p' /\ p' = set_core (core p') p /\ Still (core p) (core p') []) as Hno.
  { exists p. split; [done|]. split; [by destruct p|by apply Still_refl]. }
  destruct (Server.conns (core p) !! c) as [[l [k ts]]|] eqn:Hc; [|done].
  destruct (TcpServer.connections_ _ !! _) as [?|]; [|done]. destruct l as [l|].
  - rewrite (conn_event_destroy _ _ _ _ _ Hc). cbn [res_bind]. eexists. split; [done|]. split; [done|].
    eapply still_after; [done|exact Hc|by left].
  - unfold TcpConnection.connectDestroyed. destruct (Hq _ _ _ _ Hc) as [Hk _]. rewrite decide_False by congruence. cbn.
    eexists. split; [done|]. split; [done|]. cbn [core set_core].
    destruct (still_after c None k ts ts [TcpConnection.RemoveChannel] (core p) Hq Hc) as [H1 H2 H3 H4 H5 _]; [by right; right|]. by split.
Qed.

Lemma still_destroys cs p :
  quiet (core p) -> exists p', foldl destroy_conn (Ok p) cs = Ok p' /\ p' = set_core (core p') p /\ Still (core p) (core p') [].
Proof.
  revert p. induction cs as [|c cs IH]; intros p Hq; cbn [foldl].
  { exists p. split; [done|]. split; [by destruct p|by apply Still_refl]. }
  destruct (still_destroy c p Hq) as (p1 & -> & Hp1 & HS1). destruct (IH p1 (St_quiet _ _ _ HS1)) as (p2 & -> & Hp2 & HS2).
  exists p2. split; [done|]. split; [|exact (Still_trans _ _ _ [] [] HS1 HS2)]. rewrite Hp2 at 1. by rewrite Hp1.
Qed.

(** The phases of [main] after the rooms are gone. *)
Lemma phase_over m m' y : up m = false -> up m' = false -> sys_phase m y -> sys_phase m' y.
Proof. by destruct m, m'. Qed.

Lemma calm_main p : Calm p -> exists p', main_step p = Ok p' /\ Ready (main p') (core p') /\ lobby_phase p'.
Proof.
  intros [_ HRe Hl]. unfold lobby_phase in *.
  assert (forall ms b s, up (main p) = false -> Server.lobq s = [] -> Still (core p) s [] ->
    Ready (Destroying ms b) s /\ Server.lobq s = []) as Hover.
  { intros ms b s Hu Hl' HS. split; [|done]. destruct (Ready_still _ _ _ _ HRe HS) as [? ? Hy]. split; try done. by apply (phase_over (main p)). }
  assert (Still (core p) (core p) []) as Hsame by apply Still_refl, HRe.
  unfold main_step. destruct (main p) as [| | |[|m ms] b|] eqn:Em.
  - eexists. split; [done|]. destruct (quit_ p); cbn; [|by rewrite Em]. split; [by destruct HRe|lia].
  - exists p. by rewrite Em.
  - eexists. split; [done|]. destruct (System.gone _) eqn:Hg; cbn; [|by rewrite Em]. split; [|done].
    destruct HRe as [? ? (ids & P & HC & HF)]. split; try done. split_and!; [by apply (Shutdown.F_gone _ _ HF)|done|].
    by rewrite (Shutdown.K_remain _ _ _ HC).
  - eexists. split; [done|]. cbn. split; [|done]. by destruct HRe.
  - destruct b; [eexists; split; [done|]; destruct (joined m p); cbn; [by apply Hover|by rewrite Em]|].
    destruct m; cbn [begin_member]; try (eexists; split; [done|]; cbn; by apply Hover).
    + destruct (still_destroys (elements (dom (Server.conns (core p)))) p (Re_quiet _ _ HRe)) as (p1 & -> & Hp1 & HS).
      cbn [res_bind]. eexists. split; [done|]. cbn. apply Hover; [done| |done]. by rewrite (St_lobq _ _ _ HS).
    + eexists; split; [reflexivity|]. apply (Hover ms false); [done|exact Hl|]. destruct Hsame. by split.
    + eexists; split; [reflexivity|]. apply (Hover ms false); [done|exact Hl|]. destruct Hsame. by split.
    + rewrite Hen. eexists; split; [done|]. cbn. by apply Hover.
  - exists p. by rewrite Em.
Qed.

Lemma calm_close p : Calm p -> exists p', close p = Ok p' /\ Ready (main p') (core p') /\ lobby_phase p'.
Proof.
  intros [_ HRe Hl]. unfold close, lobby_phase in *. destruct (main p) eqn:Em; try (exists p; by rewrite Em).
  destruct (ahead p) eqn:Ea; [|exists p; rewrite Em, Ea; by split].
  assert (Server.lobq (core p) = []) as Hq by (apply nil_length_inv; lia).
  destruct (still_sys_step System.LClose (core p) (System.close (Server.sys (core p))) [] (Re_quiet _ _ HRe) eq_refl) as (s & e & -> & HS).
  cbn [res_bind]. eexists. split; [done|]. cbn. rewrite (St_lobq _ _ _ HS). split; [|done].
  apply (Ready_still Closing _ s e) in HS; [done|]. destruct HRe as [? ? Hy]. split; try done.
  eexists _, _. split; [by apply Shutdown.CInv_close|by apply Shutdown.Last_close].
Qed.

(** The signal and the ends of the threads. *)
Definition outside (x : label) : Prop := match x with PSignal | PWriterEnd | PLobbyEnd | PIoEnd _ => True | _ => False end.

Lemma exec_outside x p p' : outside x -> exec x p = Ok p' -> main p' = main p /\ core p' = core p /\ ahead p' = ahead p.
Proof. intros Hx He. destruct x; try done; apply Ok_inj in He; subst p'; by repeat dmatch. Qed.

Lemma calm_exec x p :
  Calm p -> Server.in_range (core p) -> silent x -> exists p', exec x p = Ok p' /\ Calm p'.
Proof.
  intros HC Hr Hx.
  assert (exists p', exec x p = Ok p' /\ Ready (main p') (core p') /\ lobby_phase p')
    as (p' & He & HRe & Hl).
  { pose proof HC as [_ HRe Hl].
    assert (outside x -> exists p', exec x p = Ok p' /\ Ready (main p') (core p') /\ lobby_phase p') as Hout.
    { intros Ho. destruct (exec x p) as [p'|] eqn:He; [|by destruct x]. exists p'. split; [done|].
      destruct (exec_outside x p p' Ho He) as (Hm & Hc & Ha). unfold lobby_phase. by rewrite Hm, Hc, Ha. }
    destruct x as [| | | | |l|x]; try (by apply Hout); cbn [exec]; clear Hout.
    - by apply calm_main.
    - by apply calm_close.
    - unfold server_step. destruct (runs p x) eqn:Hruns; cbn [negb]; [|by eexists].
      destruct (calm_server x p HC Hr Hx Hruns) as (s & e & -> & HR1 & Hq & Hn). cbn [res_bind].
      rewrite Hn, app_nil_r, (calm_needs x p HC Hx Hruns). eexists. split; [done|]. split; [done|]. unfold lobby_phase in *. cbn. rewrite Hq.
      destruct x, (main p); cbn [id]; try done; try (by rewrite Hl). destruct (Server.lobq (core p)); cbn in *; lia. }
  exists p'. split; [done|]. split; [|done|done]. by eapply exec_flush; [apply HC|exact He].
Qed.

End Late.

(** While [main] serves or waits, the threads are those of [Server]. *)
Definition serves (io game : Z) (w : W) (p : t) : Prop :=
  main p = Serving \/ main p = Waiting ->
  exists ys tr, Server.run o (Server.boot o io game w) ys tr (core p).

Lemma exec_serves {HO : HashOrder} {LM : Libm} io game w x p p' :
  serves io game w p -> Server.in_range (core p) -> exec x p = Ok p' -> serves io game w p'.
Proof.
  unfold serves. intros Hs Hr He Hm. destruct x as [| | | | |l|x]; cbn [exec] in He.
  - apply Ok_inj in He. subst p'. by apply Hs.
  - unfold main_step in He. destruct (main p) as [| | |[|m ms] [|]|] eqn:Em.
    7:{ destruct (begin_member_flush _ _ _ _ He) as (_ & _ & _ & [Hm'|[Hm' _]]); rewrite Hm' in Hm; by destruct Hm. }
    all: apply Ok_inj in He; subst p'; repeat dmatch; cbn in *; try (by destruct Hm); try (rewrite Em in Hm; by destruct Hm);
      apply Hs; auto.
  - unfold close in He. destruct (main p) eqn:Em; try (apply Ok_inj in He; subst p'; apply Hs; by rewrite Em in Hm).
    destruct (ahead p); [|apply Ok_inj in He; subst p'; apply Hs; by rewrite Em in Hm].
    destruct (Server.sys_step _ _ _) as [[s e]|]; [|done]. cbn [res_bind] in He. inv He. by destruct Hm.
  - apply (exec_outside PWriterEnd) in He as (Hm' & -> & _); [|done]. apply Hs. by rewrite <- Hm'.
  - apply (exec_outside PLobbyEnd) in He as (Hm' & -> & _); [|done]. apply Hs. by rewrite <- Hm'.
  - apply (exec_outside (PIoEnd l)) in He as (Hm' & -> & _); [|done]. apply Hs. by rewrite <- Hm'.
  - unfold server_step in He. destruct (runs p x); cbn [negb] in He; [|apply Ok_inj in He; subst p'; by apply Hs].
    destruct (Server.exec o x (core p)) as [[s e]|] eqn:E; [|done]. cbn [res_bind] in He. destruct (forallb _ _); [|done].
    apply Ok_inj in He. subst p'. destruct (Hs Hm) as (ys & tr & Hrun). eexists _, _. by eapply Server.run_step.
Qed.

Lemma run_serves io game w p xs p' : serves io game w p -> run p xs p' -> serves io game w p'.
Proof. intros Hs Hr. induction Hr as [|p x p1 xs p2 HO LM Hi Hx _ IH]; [done|]. by eapply IH, exec_serves. Qed.

Lemma boot_serves io game w : serves io game w (boot io game w).
Proof. intros _. eexists _, _. apply Server.run_nil. Qed.

(** ** The end of the process *)

Section Ends.
Context {HO : HashOrder} {LM : Libm}.

Lemma conn_event_frame c ans ev (s s' : Server.t W) e :
  Server.conn_event o c ans ev s = Ok (s', e) -> Server.sys s' = Server.sys s /\ Server.srv s' = Server.srv s.
Proof.
  unfold Server.conn_event. destruct (Server.conns s !! c) as [[l k]|]; [|intros H; by inv H].
  destruct (TcpConnection.exec _ _ _) as [[k' e']|]; [|done]. cbn [res_bind]. intros H. by inv H.
Qed.

Lemma send_outs_frame os (s s' : Server.t W) e :
  Server.send_outs o os s = Ok (s', e) -> Server.sys s' = Server.sys s /\ Server.srv s' = Server.srv s.
Proof.
  revert s s' e. induction os as [|x os IH]; intros s s' e H; cbn [Server.send_outs] in H; [by inv H|].
  destruct (Server.send_out o x s) as [[s1 e1]|] eqn:E1; [|done]. cbn [res_bind] in H.
  destruct (Server.send_outs o os s1) as [[s2 e2]|] eqn:E2; [|done]. cbn [res_bind] in H. inv H.
  apply IH in E2 as [-> ->]. destruct x as [c m|c|j]; cbn [Server.send_out] in E1.
  - destruct (Server.conn_event _ _ _ _ _) as [[s3 e3]|] eqn:E3; [|done]. cbn [res_bind] in E1. inv E1. by eapply conn_event_frame.
  - by eapply conn_event_frame.
  - by inv E1.
Qed.

Lemma sys_step_frame x (s s' : Server.t W) e :
  Server.sys_step o x s = Ok (s', e) ->
  exists os, System.exec x (Server.sys s) = Ok (Server.sys s', os) /\ Server.srv s' = Server.srv s.
Proof.
  unfold Server.sys_step. destruct (System.exec x _) as [[y os]|]; [|done]. cbn [res_bind].
  destruct (Server.send_outs o os _) as [[s1 e1]|] eqn:E; [|done]. cbn [res_bind]. intros H. inv H.
  apply send_outs_frame in E as [-> ->]. eauto.
Qed.

Lemma in_range_clock (s s' : Server.t W) :
  TimerWheel.nowTick_ (fst (System.lob (Server.sys s'))) = TimerWheel.nowTick_ (fst (System.lob (Server.sys s))) ->
  Server.srv s' = Server.srv s -> Server.in_range s -> Server.in_range s'.
Proof. intros Hn Hs [H1 H2]. split; [unfold GameServer.in_time in *; by rewrite Hn|by rewrite Hs]. Qed.

Lemma in_range_same (s s' : Server.t W) :
  Server.sys s' = Server.sys s -> Server.srv s' = Server.srv s -> Server.in_range s -> Server.in_range s'.
Proof. intros Hy. apply in_range_clock. by rewrite Hy. Qed.

(** A destructor that has begun does not go back, and while it has not the lobby
    runs on. *)
Lemma exec_up x p p' : exec x p = Ok p' -> up (main p') = true -> up (main p) = true /\ lend p' = lend p /\ wend p' = wend p.
Proof.
  intros He Hu. destruct x as [| | | | |l|x]; cbn [exec] in He.
  - apply Ok_inj in He. by subst p'.
  - unfold main_step in He. destruct (main p) as [| | |[|m ms] [|]|] eqn:Em.
    7:{ destruct (begin_member_flush _ _ _ _ He) as (_ & _ & _ & [Hm'|[Hm' _]]); by rewrite Hm' in Hu. }
    all: apply Ok_inj in He; subst p'; repeat dmatch; cbn in *; try done; by rewrite Em in Hu.
  - unfold close in He. destruct (main p) eqn:Em; try (apply Ok_inj in He; subst p'; by rewrite Em in Hu).
    destruct (ahead p); [|apply Ok_inj in He; by subst p'].
    destruct (Server.sys_step _ _ _) as [[s e]|]; [|done]. cbn [res_bind] in He. by inv He.
  - apply (exec_outside PWriterEnd) in He as Ho; [|done]. destruct Ho as [Hm _]. rewrite Hm in Hu. split; [done|].
    apply Ok_inj in He. subst p'. by destruct (main p).
  - apply (exec_outside PLobbyEnd) in He as Ho; [|done]. destruct Ho as [Hm _]. rewrite Hm in Hu. split; [done|].
    apply Ok_inj in He. subst p'. by destruct (main p).
  - apply (exec_outside (PIoEnd l)) in He as Ho; [|done]. destruct Ho as [Hm _]. rewrite Hm in Hu. split; [done|].
    apply Ok_inj in He. subst p'. by repeat dmatch.
  - apply server_step_flush in He as (_ & Hm & Hw & Hl). by rewrite Hm in Hu.
Qed.

(** The functors of the lobby do not move the clock of the wheel. *)
Lemma functor_clock now r1 r2 (s s' : Server.t W) e :
  System.SInv (Server.sys s) -> Server.in_range s -> Server.run_functor o now r1 r2 s = Ok (s', e) -> Server.in_range s'.
Proof.
  intros HI Hr H. unfold Server.run_functor in H. destruct (Server.lobq s) as [|f rest]; [by inv H|].
  destruct (match f with Server.FMsg _ _ => _ | Server.FGone _ => _ end) as [ev|] eqn:Eev; [|inv H; by apply (in_range_same s)].
  destruct (Server.sys_step _ _ _) as [[s1 e1]|] eqn:E; [|done]. cbn [res_bind] in H. inv H.
  apply sys_step_frame in E as (os & Hx & Hsrv). cbn [Server.set_lobq Server.sys Server.srv] in *.
  apply (in_range_clock s); [|done|done]. cbn [System.exec] in Hx. unfold System.run_lobby in Hx.
  assert (GameServer.event_ok ev /\ GameServer.wheel_ticks ev = 0) as [Hev Hw] by (destruct f as [c []|c]; cbn in Eev; by inv Eev).
  destruct (GameServer.exec_Lobby ev _ (System.S_lobby _ HI) (proj1 Hr) Hev) as (l' & e & Hex & _ & Hn).
  rewrite Hex in Hx. cbn [res_bind] in Hx. destruct (_ && _); [done|]. apply Ok_inj, (f_equal fst) in Hx. cbn [fst] in Hx. rewrite <- Hx.
  cbn. lia.
Qed.

End Ends.

Lemma boot_up io game w xs p : run (boot io game w) xs p -> up (main p) = true -> lend p = false /\ wend p = false.
Proof.
  assert (forall q, run q xs p -> (up (main q) = true -> lend q = false /\ wend q = false) ->
    up (main p) = true -> lend p = false /\ wend p = false) as H; [|intros Hr; by apply (H _ Hr)].
  intros q Hr. induction Hr as [|q x q1 xs p HO1 LM1 _ Hx _ IH]; [done|]. intros Hq. apply IH. intros Hu.
  destruct (exec_up x q q1 Hx Hu) as (Hu0 & -> & ->). by apply Hq.
Qed.

Section Orderly.
Context `{SPEC : !Storage.StorageSpec W}.
Hypothesis Hinit : forall w, is_Some (fst (Storage.mysql_init w)).
Hypothesis Hen : Storage.enabled o = true.
Context (io game : Z) (Hio : 0 <= io < 2 ^ 31) (Hgame : 0 < game < 2 ^ 31).

Lemma serving_calm w xs p :
  run (boot io game w) xs p -> main p = Serving -> quiet (core p) -> Calm p.
Proof.
  intros Hr Hm Hq. destruct (run_serves _ _ _ _ _ _ (boot_serves io game w) Hr) as (ys & tr & Hs); [by left|].
  destruct (Server.run_Good o game Hgame io Hio w ys tr (core p) Hs) as [[HV _] _].
  split; [apply (run_flush _ _ _ (boot_Order io game w) Hr)| |unfold lobby_phase; by rewrite Hm].
  split; [done|apply (Server.V_sto _ _ _ _ HV)|]. rewrite Hm. destruct (Server.V_sys _ _ _ _ HV) as [ends Hy].
  by eapply System.run_SInv, System.SInv_boot.
Qed.

Lemma run_calm p xs p' : Calm p -> run p xs p' -> Forall silent xs -> Calm p'.
Proof.
  intros HC Hr. induction Hr as [|p x p1 xs p2 HO LM Hi Hx _ IH]; intros Hs; [done|]. apply Forall_cons in Hs as [Hs1 Hs].
  destruct (calm_exec Hinit Hen x p HC Hi Hs1) as (p1' & He & HC1). rewrite Hx in He. inv He. by apply IH.
Qed.

(** C18: A shutdown without clients is safe. From any state a run reaches in
    which [main] still serves and every connection is closed, with no client
    coming: every step of every thread, and every step of [main] through the
    destructor of [GameServer] and of its members to the end, is defined. No
    thread uses a member that is gone, the lobby runs nothing after its members
    are, and the storage thread has its clients to the last write. *)
Theorem orderly_shutdown_safe w xs p xs' p' x :
  run (boot io game w) xs p -> main p = Serving -> quiet (core p) ->
  run p xs' p' -> Forall silent xs' -> Server.in_range (core p') -> silent x ->
  forall (HO : HashOrder) (LM : Libm), exec x p' <> UB.
Proof.
  intros Hr Hm Hq Hr' Hs Hi Hx HO LM. pose proof (run_calm _ _ _ (serving_calm _ _ _ Hr Hm Hq) Hr' Hs) as HC.
  destruct (calm_exec Hinit Hen x p' HC Hi Hx) as (p1 & -> & _). done.
Qed.

Section Exit.
Context {HO : HashOrder} {LM : Libm}.

Record Going (p : t) : Prop := mkGoing {
  Go_calm : Calm p;
  Go_range : Server.in_range (core p);
  Go_lobby : up (main p) = true -> lend p = false;
}.

Definition reaches (p : t) (Q : t -> Prop) : Prop := exists xs p', run p xs p' /\ Forall silent xs /\ Q p'.

Lemma reaches_here p (Q : t -> Prop) : Q p -> reaches p Q.
Proof. intros HQ. exists [], p. split; [constructor|done]. Qed.

Lemma reaches_step x p p1 Q : Going p -> silent x -> exec x p = Ok p1 -> reaches p1 Q -> reaches p Q.
Proof.
  intros HG Hx He (xs & p' & Hr & Hs & HQ). exists (x :: xs), p'. split; [|split; [by constructor|done]].
  by apply (run_step _ _ p1 _ _ HO LM (Go_range _ HG)).
Qed.

Lemma process_run_app p xs p1 ys p2 : run p xs p1 -> run p1 ys p2 -> run p (xs ++ ys) p2.
Proof. induction 1; [done|]. intros Hr. eapply run_step; eauto. Qed.

Lemma reaches_trans p (Q R : t -> Prop) : reaches p Q -> (forall p', Q p' -> reaches p' R) -> reaches p R.
Proof.
  intros (xs & p1 & Hr & Hs & HQ) HQR. destruct (HQR p1 HQ) as (ys & p2 & Hr2 & Hs2 & HR2).
  exists (xs ++ ys), p2. split; [by eapply process_run_app|]. split; [by apply Forall_app|done].
Qed.

Lemma going_exec x p :
  Going p -> silent x -> (forall p1, exec x p = Ok p1 -> Server.in_range (core p1)) -> exists p1, exec x p = Ok p1 /\ Going p1.
Proof.
  intros [HC Hi Hl] Hx Hn. destruct (calm_exec Hinit Hen x p HC Hi Hx) as (p1 & He & HC1). exists p1. split; [done|].
  split; [done|by apply Hn|]. intros Hu. destruct (exec_up x p p1 He Hu) as (Hu0 & -> & _). by apply Hl.
Qed.

(** The steps of [main] and the ends of threads keep the clock. *)
Lemma main_range p p1 : Going p -> main_step p = Ok p1 -> Server.in_range (core p1).
Proof.
  intros [HC Hi _] He. apply (in_range_same (core p)); [..|done]; unfold main_step in He;
    (destruct (main p) as [| | |[|m ms] [|]|]; try (apply Ok_inj in He; subst p1; by repeat dmatch));
    (destruct m; try (apply Ok_inj in He; subst p1; by repeat dmatch));
    cbn [begin_member] in He;
    (destruct (still_destroys (elements (dom (Server.conns (core p)))) p (Re_quiet _ _ (Ca_ready _ HC))) as (p2 & Hd & _ & HS));
    rewrite Hd in He; cbn [res_bind] in He; apply Ok_inj in He; subst p1; apply HS.
Qed.

Lemma going_main p : Going p -> exists p1, main_step p = Ok p1 /\ Going p1.
Proof. intros HG. apply (going_exec PMain p HG I). intros p1. by apply main_range. Qed.

Lemma going_outside x p : outside x -> Going p -> exists p1, exec x p = Ok p1 /\ Going p1 /\ main p1 = main p /\ core p1 = core p.
Proof.
  intros Ho HG. assert (silent x) as Hs by by destruct x.
  destruct (going_exec x p HG Hs) as (p1 & He & HG1).
  { intros p1 He. destruct (exec_outside x p p1 Ho He) as (_ & -> & _). apply HG. }
  exists p1. destruct (exec_outside x p p1 Ho He) as (Hm & Hc & _). done.
Qed.

(** The storage thread takes its tasks one by one; on closed connections none
    of them leads to another. *)
Lemma storage_takes (s s' : Server.t W) e :
  quiet s -> Server.run_storage o s = Ok (s', e) ->
  Server.stq s' = tail (Server.stq s) /\ Server.sys s' = Server.sys s /\ Server.srv s' = Server.srv s.
Proof.
  intros Hq H. unfold Server.run_storage in H. destruct (Server.stq s) as [|tk rest] eqn:Eq; [inv H; by rewrite Eq|].
  destruct (Storage.run_task _ _ _ _) as [[[th w] es]|] eqn:Er; [|done]. cbn [res_bind] in H.
  destruct (Server.send_outs _ _ _) as [[s1 e1]|] eqn:Es; [|done]. cbn [res_bind] in H. inv H.
  destruct (send_outs_frame _ _ _ _ Es) as [-> ->]. split_and!; try done. cbn [tail].
  destruct (Storage.run_task_sends _ _ _ _ _ _ _ Er) as [->|(c & n & ents & _ & ->)]; cbn [omap list_omap System.emit Server.send_outs] in Es.
  { by inv Es. }
  cbn [Server.send_out] in Es. set (s0 := Server.mk _ _ _ _ _ _ rest th w) in Es.
  destruct (Server.conns s !! c) as [[l [k ts]]|] eqn:Hc.
  - rewrite (conn_event_at c [] _ l (k, ts) s0 Hc) in Es. destruct (Hq _ _ _ _ Hc) as [Hk _]. cbn [TcpConnection.exec] in Es.
    rewrite decide_False in Es by congruence. cbn [res_bind] in Es. inv Es. cbn. by rewrite app_nil_r.
  - rewrite (conn_event_none c [] _ s0 Hc) in Es. cbn [res_bind] in Es. by inv Es.
Qed.

Lemma going_store p :
  Going p -> wend p = false -> exists p1, exec (PServer Server.SStore) p = Ok p1 /\ Going p1 /\
    main p1 = main p /\ wend p1 = false /\ Server.stq (core p1) = tail (Server.stq (core p)).
Proof.
  intros HG Hw. pose proof (Re_quiet _ _ (Ca_ready _ (Go_calm _ HG))) as Hq.
  assert (forall p1, exec (PServer Server.SStore) p = Ok p1 -> main p1 = main p /\ wend p1 = false /\
    Server.stq (core p1) = tail (Server.stq (core p)) /\ Server.sys (core p1) = Server.sys (core p) /\
    Server.srv (core p1) = Server.srv (core p)) as Hst.
  { intros p1 He. cbn [exec] in He. unfold server_step in He. cbn [runs] in He. rewrite Hw in He. cbn [negb Server.exec] in He.
    destruct (Server.run_storage o (core p)) as [[s e]|] eqn:Er; [|done]. cbn [res_bind] in He.
    destruct (forallb _ _); [|done]. inv He. split; [done|]. split; [done|]. by eapply storage_takes. }
  destruct (going_exec (PServer Server.SStore) p HG I) as (p1 & He & HG1).
  { intros p1 He. destruct (Hst p1 He) as (_ & _ & _ & Hy & Hv). apply (in_range_same (core p)); [done|done|apply HG]. }
  exists p1. destruct (Hst p1 He) as (Hm & Hw1 & Hs & _). done.
Qed.

(** [~AsyncWriter] joins its thread when the queue is empty. *)
Lemma writer_ends n p ms :
  length (Server.stq (core p)) = n -> Going p -> main p = Destroying (Writer_ :: ms) true ->
  reaches p (fun p' => Going p' /\ main p' = Destroying (Writer_ :: ms) true /\ wend p' = true).
Proof.
  revert p. induction n as [|n IH]; intros p Hn HG Hm; (destruct (wend p) eqn:Hw; [by apply reaches_here|]).
  - destruct (going_outside PWriterEnd p I HG) as (p1 & He & HG1 & Hm1 & _).
    apply (reaches_step PWriterEnd p p1); [done|done|done|]. apply reaches_here. split; [done|]. split; [by rewrite Hm1|].
    cbn [exec] in He. apply Ok_inj in He. subst p1. rewrite Hm. apply nil_length_inv in Hn. by rewrite Hn.
  - destruct (going_store p HG Hw) as (p1 & He & HG1 & Hm1 & Hw1 & Hs).
    apply (reaches_step (PServer Server.SStore) p p1); [done|done|done|]. apply IH; [|done|by rewrite Hm1].
    rewrite Hs. destruct (Server.stq (core p)); [done|]. cbn in *. lia.
Qed.

Lemma io_ends (ls : list Z) p ms :
  (forall l, l ∈ ls -> l ∈ io_loops p) -> Going p -> main p = Destroying (Server_ :: ms) true ->
  reaches p (fun p' => Going p' /\ main p' = Destroying (Server_ :: ms) true /\ io_loops p' = io_loops p /\
    ioend p ⊆ ioend p' /\ forall l, l ∈ ls -> l ∈ ioend p').
Proof.
  revert p. induction ls as [|l ls IH]; intros p Hin HG Hm; [apply reaches_here; set_solver|].
  destruct (going_outside (PIoEnd l) p I HG) as (p1 & He & HG1 & Hm1 & Hc1).
  assert (ioend p1 = {[l]} ∪ ioend p) as Hends.
  { cbn [exec] in He. apply Ok_inj in He. subst p1. rewrite Hm. rewrite bool_decide_true; [done|]. apply Hin. left. }
  assert (io_loops p1 = io_loops p) as Hl by (unfold io_loops; by rewrite Hc1).
  apply (reaches_step (PIoEnd l) p p1); [done|done|done|].
  eapply reaches_trans; [apply IH; [|done|by rewrite Hm1]|].
  { intros l' Hl'. rewrite Hl. apply Hin. by right. }
  intros p2 (HG2 & Hm2 & Hl2 & Hsub & Hall). apply reaches_here. split_and!; [done|done|congruence|set_solver|].
  intros l' [->|Hl']%elem_of_cons; [set_solver|by apply Hall].
Qed.

(** A member whose destructor waits for a thread goes. *)
Lemma member_joined m ms p :
  Going p -> main p = Destroying (m :: ms) true ->
  reaches p (fun p' => Going p' /\ main p' = Destroying ms false).
Proof.
  intros HG Hm.
  assert (reaches p (fun p' => Going p' /\ main p' = Destroying (m :: ms) true /\ joined m p' = true)) as Hj.
  { destruct m; try (apply reaches_here; by split_and!).
    - eapply reaches_trans; [by apply (io_ends (io_loops p) p ms)|]. intros p1 (HG1 & Hm1 & Hl & _ & Hall). apply reaches_here.
      split_and!; [done|done|]. cbn [joined]. rewrite Hl. apply forallb_forall. intros l Hin%list_elem_of_In.
      apply bool_decide_eq_true. by apply Hall.
    - destruct (going_outside PLobbyEnd p I HG) as (p1 & He & HG1 & Hm1 & _).
      apply (reaches_step PLobbyEnd p p1); [done|done|done|]. apply reaches_here. split_and!; [done|by rewrite Hm1|].
      cbn [exec] in He. apply Ok_inj in He. subst p1. by rewrite Hm.
    - by eapply writer_ends. }
  eapply reaches_trans; [exact Hj|]. intros p1 (HG1 & Hm1 & Hj1). destruct (going_main p1 HG1) as (p2 & He & HG2).
  apply (reaches_step PMain p1 p2); [done|done|done|]. apply reaches_here. split; [done|].
  unfold main_step in He. rewrite Hm1, Hj1 in He. by inv He.
Qed.

Lemma exit_from ms p : Going p -> main p = Destroying ms false -> reaches p (fun p' => main p' = Exited).
Proof.
  revert p. induction ms as [|m ms IH]; intros p HG Hm; destruct (going_main p HG) as (p1 & He & HG1);
    apply (reaches_step PMain p p1); try done; unfold main_step in He; rewrite Hm in He.
  - inv He. by apply reaches_here.
  - destruct (begin_member_flush _ _ _ _ He) as (_ & _ & _ & [Hm1|[Hm1 _]]); [|by apply IH].
    eapply reaches_trans; [by eapply member_joined|]. intros p2 [HG2 Hm2]. by apply IH.
Qed.

(** The step of a thread that is a step of the rooms or of the lobby's tasks for them. *)
Definition room_step (x : System.label) : Server.label :=
  match x with System.LTask l => Server.SRoomTask l | System.LTick rid => Server.STick rid | _ => Server.SQueue end.

Lemma going_room x p y os :
  Going p -> main p = Closing -> Shutdown.internal x -> System.gone (Server.sys (core p)) = false ->
  System.exec x (Server.sys (core p)) = Ok (y, os) ->
  exists p1, exec (PServer (room_step x)) p = Ok p1 /\ Going p1 /\ main p1 = Closing /\ Server.sys (core p1) = y.
Proof.
  intros HG Hm Hx Hg He.
  assert (forall p1, exec (PServer (room_step x)) p = Ok p1 -> main p1 = Closing /\ Server.sys (core p1) = y /\
    Server.srv (core p1) = Server.srv (core p)) as Hst.
  { intros p1 H. cbn [exec] in H. unfold server_step in H.
    assert (runs p (room_step x) = true) as Hr by (destruct x; cbn; rewrite ?Hg; try done; by rewrite (Go_lobby p HG) by (by rewrite Hm)).
    rewrite Hr in H. cbn [negb] in H. assert (Server.exec o (room_step x) (core p) = Server.sys_step o x (core p)) as Hex by by destruct x.
    rewrite Hex in H. destruct (Server.sys_step o x (core p)) as [[s e]|] eqn:Es; [|done]. cbn [res_bind] in H.
    destruct (forallb _ _); [|done]. inv H. apply sys_step_frame in Es as (os' & Hx' & Hv). rewrite He in Hx'. inv Hx'. done. }
  destruct (going_exec (PServer (room_step x)) p HG) as (p1 & Hp & HG1); [by destruct x| |].
  { intros p1 H. destruct (Hst p1 H) as (_ & Hy & Hv). apply (in_range_clock (core p)); [|done|apply HG].
    rewrite Hy. by rewrite (Shutdown.internal_clock x _ _ _ Hx He). }
  exists p1. destruct (Hst p1 Hp) as (Hm1 & Hy & _). done.
Qed.

Lemma closing_lift y xs y' p :
  Shutdown.closing y xs y' -> Going p -> main p = Closing -> Server.sys (core p) = y ->
  reaches p (fun p' => Going p' /\ main p' = Closing /\ Server.sys (core p') = y').
Proof.
  intros Hc. revert p. induction Hc as [y|y x y1 os xs y2 Hx Hg He _ IH]; intros p HG Hm Hy; [by apply reaches_here|].
  subst y. destruct (going_room x p y1 os HG Hm Hx Hg He) as (p1 & Hp & HG1 & Hm1 & Hy1).
  apply (reaches_step (PServer (room_step x)) p p1); [done|by destruct x|done|]. by apply IH.
Qed.

Lemma exit_from_closing p : Going p -> main p = Closing -> reaches p (fun p' => main p' = Exited).
Proof.
  intros HG Hm. pose proof (Re_sys _ _ (Ca_ready _ (Go_calm _ HG))) as Hy. rewrite Hm in Hy. destruct Hy as (ids & P & HC & HF).
  destruct (Shutdown.closing_ends ids P _ HC HF) as (xs & y & Hc & Hg).
  eapply reaches_trans; [by eapply closing_lift|]. intros p1 (HG1 & Hm1 & Hy1). destruct (going_main p1 HG1) as (p2 & He & HG2).
  apply (reaches_step PMain p1 p2); [done|done|done|]. apply (exit_from (rev members)); [done|].
  unfold main_step in He. rewrite Hm1, Hy1, Hg in He. by inv He.
Qed.

(** The lobby comes to the task of the destructor. *)
Lemma exit_from_waiting n p : ahead p = n -> Going p -> main p = Waiting -> reaches p (fun p' => main p' = Exited).
Proof.
  revert p. induction n as [|n IH]; intros p Hn HG Hm; pose proof (Re_sys _ _ (Ca_ready _ (Go_calm _ HG))) as Hy; rewrite Hm in Hy.
  - assert (forall p1, close p = Ok p1 -> main p1 = Closing /\ Server.in_range (core p1)) as Hst.
    { intros p1 He. unfold close in He. rewrite Hm, Hn in He. destruct (Server.sys_step _ _ _) as [[s e]|] eqn:Es; [|done].
      cbn [res_bind] in He. inv He. split; [done|]. cbn [core]. apply sys_step_frame in Es as (os & Hx & Hv).
      apply (in_range_clock (core p)); [|done|apply HG]. cbn [System.exec] in Hx. apply Ok_inj, (f_equal fst) in Hx. cbn [fst] in Hx.
      rewrite <- Hx. unfold System.close. destruct (GameServer.stop_rooms _). by destruct (_ =? 0). }
    destruct (going_exec PClose p HG I) as (p1 & He & HG1); [intros p1 He; by apply Hst|].
    apply (reaches_step PClose p p1); [done|done|done|]. apply exit_from_closing; [done|]. by apply (Hst p1).
  - assert (forall p1, exec (PServer (Server.SLobby 0 0 0)) p = Ok p1 -> main p1 = Waiting /\ ahead p1 = n /\ Server.in_range (core p1)) as Hst.
    { intros p1 He. cbn [exec] in He. unfold server_step in He. cbn [runs] in He. rewrite (Go_lobby p HG) in He by by rewrite Hm.
      cbn [negb Server.exec] in He. destruct (Server.run_functor _ _ _ _ _) as [[s e]|] eqn:Er; [|done]. cbn [res_bind] in He.
      destruct (forallb _ _); [|done]. inv He. cbn. rewrite Hn. split_and!; [done|done|]. eapply functor_clock; [done|apply HG|done]. }
    destruct (going_exec (PServer (Server.SLobby 0 0 0)) p HG I) as (p1 & He & HG1); [intros p1 He; by apply Hst|].
    apply (reaches_step (PServer (Server.SLobby 0 0 0)) p p1); [done|done|done|]. destruct (Hst p1 He) as (Hm1 & Ha & _). by apply IH.
Qed.

Lemma exit_from_any p : Going p -> reaches p (fun p' => main p' = Exited).
Proof.
  intros HG. destruct (main p) as [| | |ms [|]|] eqn:Hm.
  - destruct (going_outside PSignal p I HG) as (p1 & He & HG1 & Hm1 & _). apply (reaches_step PSignal p p1); [done|done|done|].
    destruct (going_main p1 HG1) as (p2 & He2 & HG2). apply (reaches_step PMain p1 p2); [done|done|done|].
    apply (exit_from_waiting (ahead p2)); [done|done|]. cbn [exec] in He. apply Ok_inj in He. subst p1.
    unfold main_step in He2. cbn in He2. rewrite Hm in He2. by inv He2.
  - by eapply exit_from_waiting.
  - by apply exit_from_closing.
  - destruct ms as [|m ms].
    + destruct (going_main p HG) as (p1 & He & HG1). apply (reaches_step PMain p p1); [done|done|done|]. apply reaches_here.
      unfold main_step in He. rewrite Hm in He. by inv He.
    + eapply reaches_trans; [by eapply member_joined|]. intros p1 [HG1 Hm1]. by eapply exit_from.
  - by eapply exit_from.
  - by apply reaches_here.
Qed.

End Exit.


End Orderly.

End Machine.

(** ** Scenarios *)

Import Storage.MemDB(db).
#[local] Existing Instances Storage.MemDB.mem_mysql Storage.MemDB.mem_redis Storage.MemDB.mem_spec Server.bits_server.

Notation exec64 := (@exec db _ _ Server.bits_server Server.storing elements_order BattleSim.libm64).

Fixpoint exec_all (xs : list label) (p : t db) : res (t db) :=
  match xs with
  | [] => Ok p
  | x :: xs => if Server.in_rangeb (core p) then (let! p1 := exec64 x p in exec_all xs p1)%gs else UB
  end.

Lemma process_run_exec_all xs p p' : exec_all xs p = Ok p' -> run Server.storing p xs p'.
Proof.
  revert p. induction xs as [|x xs IH]; intros p; cbn [exec_all]; [intros H; inv H; constructor|].
  destruct (Server.in_rangeb (core p)) eqn:Er; [|done]. destruct (exec64 x p) as [p1|] eqn:E1; cbn [res_bind]; [|done].
  intros H. apply (run_step Server.storing p x p1 xs p' elements_order BattleSim.libm64); [|exact E1|by apply IH].
  unfold Server.in_rangeb in Er. apply andb_true_iff in Er as [E3 E4]. apply Z.ltb_lt in E3, E4. by split.
Qed.

Definition start : t db := boot Server.storing 2 2 (Storage.fresh true).

Definition after (xs : list label) : t db := match exec_all xs start with Ok p => p | UB => start end.

Definition okb (xs : list label) : bool := match exec_all xs start with Ok _ => true | UB => false end.

Lemma after_run xs : okb xs = true -> run Server.storing start xs (after xs).
Proof.
  unfold okb, after. intros H. destruct (exec_all xs start) eqn:E; [|done]. by apply process_run_exec_all.
Qed.

Definition quietb (s : Server.t db) : bool :=
  forallb (fun x => match x with
                    | (c, (_, (k, _))) => bool_decide (TcpConnection.state_ k = TcpConnection.kDisconnected) && bool_decide (c ∉ Server.fresh s)
                    end) (map_to_list (Server.conns s)).

Lemma quietb_quiet s : quietb s = true -> quiet s.
Proof.
  unfold quietb, quiet. rewrite forallb_forall. intros H c l k ts Hc. apply elem_of_map_to_list, list_elem_of_In, H in Hc.
  apply andb_true_iff in Hc as [H1 H2]. by apply bool_decide_eq_true in H1, H2.
Qed.

(** A client says hello and leaves. *)
Definition visit : list label := map PServer Server.bye_labels.

(** The process is told to end, and its destructors run up to the join of the
    lobby's thread. *)
Definition leave (stores : nat) : list label :=
  [PSignal; PMain; PClose; PMain; PMain] ++ replicate stores (PServer Server.SStore) ++ [PWriterEnd] ++ replicate 20 PMain.

Definition end_ : list label :=
  [PLobbyEnd; PMain; PMain; PServer (Server.STask 1 (0, Buffer.EAGAIN)); PIoEnd 0; PIoEnd 1; PMain; PMain; PMain].

Lemma exit_flushes_storage_witness :
  Server.stq (core (after visit)) =
    [Storage.TJob (GameServer.JSetOnline "alice"); Storage.TJob (GameServer.JDelOnline "alice")] /\
  exists p', exec_all (leave 2 ++ end_) (after visit) = Ok p' /\ main p' = Exited /\
    ran (after visit) ++ Server.stq (core (after visit)) `prefix_of` ran p'.
Proof.
  split; [vm_compute; reflexivity|].
  destruct (GameServer.is_ok (exec_all (leave 2 ++ end_) (after visit))) as [p' Hp]; [vm_compute; reflexivity|].
  exists p'. split; [exact Hp|].
  assert (main p' = Exited) as Hx.
  { assert (match exec_all (leave 2 ++ end_) (after visit) with Ok p => main p | UB => Serving end = Exited) as H
      by (vm_compute; reflexivity). rewrite Hp in H. exact H. }
  split; [exact Hx|].
  apply (exit_flushes_storage Server.storing 2 2 (Storage.fresh true) visit (after visit) (leave 2 ++ end_) p' eq_refl
    (after_run visit ltac:(vm_compute; reflexivity)) (process_run_exec_all _ _ _ Hp) ltac:(vm_compute; reflexivity) Hx).
Defined.

(** A heartbeat arrives when the destructor has begun. *)
Definition knock : list label :=
  map PServer [Server.SAccept; Server.SEstablish 1; Server.SStore] ++ [PSignal; PMain; PClose; PMain;
    PServer (Server.SReady 1 Channel.EPOLLIN [Buffer.ReadOk (Gateway.client_enc (MHeartbeatReq 7))] [] []); PMain; PWriterEnd] ++
  replicate 20 PMain.

Lemma late_request_uses_destroyed_witness :
  Server.lobq (core (after knock)) = [Server.FMsg 1 (MHeartbeatReq 7)] /\ exec64 (PServer (Server.SLobby 8 1 2)) (after knock) = UB.
Proof.
  assert (Server.lobq (core (after knock)) = [Server.FMsg 1 (MHeartbeatReq 7)]) as Hq by (vm_compute; reflexivity).
  split; [exact Hq|].
  apply (late_request_uses_destroyed (HO := elements_order) (LM := BattleSim.libm64) Server.storing 2 2 (Storage.fresh true) knock (after knock) [Server_; GameThreads_]
    (Server.FMsg 1 (MHeartbeatReq 7)) [] 8 1 2 (after_run knock ltac:(vm_compute; reflexivity))
    ltac:(vm_compute; reflexivity) ltac:(vm_compute; reflexivity) Hq eq_refl).
Defined.

(** The client of the greeting stays connected. *)
Definition stay : list label := map PServer Server.hello_labels ++ leave 2 ++ [PLobbyEnd; PMain].

Lemma stay_connected :
  exists k, Server.conns (core (after stay)) !! 1 = Some (Some 0, (k, [])) /\ TcpConnection.state_ k = TcpConnection.kConnected.
Proof. eexists. split; [vm_compute; reflexivity|reflexivity]. Qed.

Lemma shutdown_uses_dead_loop_witness :
  exists p1, exec64 PMain (after stay) = Ok p1 /\ exec64 (PServer (Server.STask 1 (0, Buffer.EAGAIN))) p1 = UB.
Proof.
  destruct (GameServer.is_ok (exec64 PMain (after stay))) as [p1 Hp]; [vm_compute; reflexivity|]. exists p1. split; [exact Hp|].
  destruct stay_connected as (k & Hc & Hk).
  refine (proj2 (shutdown_uses_dead_loop (HO := elements_order) (LM := BattleSim.libm64) Server.storing 2 2 (Storage.fresh true) stay
    (after stay) [GameThreads_] 1 (Some 0) k (0, Buffer.EAGAIN) p1 (after_run stay ltac:(vm_compute; reflexivity)) ltac:(vm_compute; reflexivity) Hc Hk _ _ _ Hp)).
  - vm_compute. eexists. reflexivity.
  - apply (bool_decide_unpack _). vm_compute. reflexivity.
  - intros n _. assert (ioend (after stay) = ∅) as -> by (vm_compute; reflexivity). apply not_elem_of_empty.
Defined.

Lemma orderly_shutdown_safe_witness :
  exists p1, exec64 (PServer Server.SStore) (after (visit ++ [PSignal; PMain; PClose; PMain; PMain])) = Ok p1.
Proof.
  assert (exists p', exec_all [PSignal; PMain; PClose; PMain; PMain] (after visit) = Ok p' /\
    p' = after (visit ++ [PSignal; PMain; PClose; PMain; PMain])) as (p' & Hp & Heq).
  { destruct (GameServer.is_ok (exec_all [PSignal; PMain; PClose; PMain; PMain] (after visit))) as [p' Hp]; [vm_compute; reflexivity|].
    exists p'. split; [exact Hp|].
    assert (match exec_all [PSignal; PMain; PClose; PMain; PMain] (after visit) with Ok p => p | UB => start end =
      after (visit ++ [PSignal; PMain; PClose; PMain; PMain])) as H by (vm_compute; reflexivity). rewrite Hp in H. exact H. }
  rewrite <- Heq.
  pose proof (orderly_shutdown_safe Server.storing (fun w => ltac:(by eexists)) eq_refl 2 2 ltac:(lia) ltac:(lia) (Storage.fresh true)
    visit (after visit) [PSignal; PMain; PClose; PMain; PMain] p' (PServer Server.SStore)
    (after_run visit ltac:(vm_compute; reflexivity)) ltac:(vm_compute; reflexivity) (quietb_quiet (core (after visit)) ltac:(vm_compute; reflexivity))
    (process_run_exec_all _ _ _ Hp) ltac:(repeat constructor) ltac:(rewrite Heq; split; vm_compute; reflexivity) I
    elements_order BattleSim.libm64) as H.
  destruct (exec64 (PServer Server.SStore) p') as [r|]; [exists r; reflexivity|destruct (H eq_refl)].
Defined.


End Process.
