(* ===== verification/Dial.v ===== *)
(** * The connections of the bot ([connectTo] and [sendMsg] of
    [src/examples/bot_client.cc])

    [Bot] says what the bot does to its socket ([Bot.effect]); here the socket
    itself: a blocking one with a receive time-out of 100 ms, connected to the
    local host. The descriptors are a class parameter with the laws of socket(2),
    setsockopt(2), connect(2) and send(2). What the server reads from a connection
    of the bot is then the encoding of its requests in order, whole frames
    ([bot_sends_whole_requests]), which is what [Server.requests_reach_lobby]
    asks of a client. *)

From stdpp Require Import base gmap list strings.
From Stdlib Require Import ZArith Lia.
From Stdlib Require Import Init.Byte.
From S2P Require Import Prelude Socket Float32 Codec Proto BattleSim Room GameServer Gateway Bot Server.

Local Open Scope Z_scope.

(** ** The kernel *)

(** [sys_socket] and [sys_send] return -1 on an error. [is_open], [rcvtimeo],
    [peer] and [wire] say what the kernel has of a descriptor: that it is a
    socket, its time-out in seconds and microseconds, whom it is connected to and
    the bytes it has taken for that connection. *)
Class DialKernel (K : Type) : Type := {
  sys_socket : K -> Z * K;
  sys_rcvtimeo : Z -> Z * Z -> K -> K;
  sys_connect : Z -> InetAddress.sockaddr_in -> K -> bool * K;
  sys_send : Z -> list byte -> K -> Z * K;
  sys_close : Z -> K -> K;
  is_open : K -> Z -> bool;
  rcvtimeo : K -> Z -> option (Z * Z);
  peer : K -> Z -> option InetAddress.sockaddr_in;
  wire : K -> Z -> list byte;
}.

(** A blocking [send] without a time-out takes all bytes or fails. *)
Class DialLaws (K : Type) `{DialKernel K} : Prop := {
  timeo_law fd tv k : is_open (sys_rcvtimeo fd tv k) fd = is_open k fd /\
    (is_open k fd = true -> rcvtimeo (sys_rcvtimeo fd tv k) fd = Some tv);
  connect_law fd a k k' : sys_connect fd a k = (true, k') ->
    is_open k fd = true /\ peer k' fd = Some a /\ wire k' fd = [] /\ rcvtimeo k' fd = rcvtimeo k fd;
  send_law fd bs k n k' : peer k fd <> None -> sys_send fd bs k = (n, k') ->
    peer k' fd = peer k fd /\ rcvtimeo k' fd = rcvtimeo k fd /\
    ((n = Z.of_nat (length bs) /\ wire k' fd = wire k fd ++ bs) \/ (n = -1 /\ wire k' fd = wire k fd));
}.

Module Dial.

Section Dial.
Context {K : Type} {DK : DialKernel K} {SP : ServerProtobuf}.

(** ** Operations *)

Definition local_host (port : Z) : InetAddress.sockaddr_in :=
  InetAddress.mkAddr InetAddress.AF_INET (InetAddress.htons port)
    (default (0, 0, 0, 0) (InetAddress.inet_pton "127.0.0.1")).

(** The descriptor, or [exit(1)]; the results of [socket] and [setsockopt] are not
    looked at. *)
Definition connectTo (port : Z) (k : K) : option (Z * K) :=
  let (fd, k1) := sys_socket k in
  let k2 := sys_rcvtimeo fd (0, 100 * 1000) k1 in
  match sys_connect fd (local_host port) k2 with
  | (true, k3) => Some (fd, k3)
  | (false, _) => None
  end.

(** The result of [send] is not looked at. *)
Definition sendMsg (fd : Z) (m : client_msg) (k : K) : K := snd (sys_send fd (Gateway.client_enc m) k).

(** What [main] does to its descriptor. *)
Definition perform (port : Z) (x : Bot.effect) (st : Z * K) : option (Z * K) :=
  let (fd, k) := st in
  match x with
  | Bot.ESend m => Some (fd, sendMsg fd m k)
  | Bot.EClose => Some (fd, sys_close fd k)
  | Bot.ESleep _ => Some (fd, k)
  | Bot.EConnect => connectTo port k
  end.

Fixpoint perform_all (port : Z) (xs : list Bot.effect) (st : Z * K) : option (Z * K) :=
  match xs with
  | [] => Some st
  | x :: xs => match perform port x st with Some st1 => perform_all port xs st1 | None => None end
  end.

Lemma perform_all_app port xs ys st :
  perform_all port (xs ++ ys) st = match perform_all port xs st with Some st1 => perform_all port ys st1 | None => None end.
Proof. revert st. induction xs as [|x xs IH]; intros st; cbn; [done|]. destruct (perform port x st); [apply IH|done]. Qed.

(** ** The messages of a connection *)

(** The messages sent since the last [connectTo]; [ms] were before. *)
Fixpoint since (ms : list client_msg) (xs : list Bot.effect) : list client_msg :=
  match xs with
  | [] => ms
  | Bot.ESend m :: xs => since (ms ++ [m]) xs
  | Bot.EConnect :: xs => since [] xs
  | _ :: xs => since ms xs
  end.

Lemma since_app ms xs ys : since ms (xs ++ ys) = since (since ms xs) ys.
Proof. revert ms. induction xs as [|x xs IH]; intros ms; [done|]. destruct x; cbn; apply IH. Qed.

(** A connected descriptor, and what has been sent on it of [ms]. *)
Record Connected (port : Z) (ms : list client_msg) (st : Z * K) : Prop := mkConnected {
  Co_peer : peer (snd st) (fst st) = Some (local_host port);
  Co_time : rcvtimeo (snd st) (fst st) = Some (0, 100000);
  Co_wire : exists got, sublist got ms /\ wire (snd st) (fst st) = concat (map Gateway.client_enc got) /\
    ((forall fd bs k, fst (sys_send fd bs k) <> -1) -> got = ms);
}.

Context {DL : DialLaws K}.

Lemma connectTo_ok port k st : connectTo port k = Some st -> Connected port [] st.
Proof.
  unfold connectTo. destruct (sys_socket k) as [fd k1]. destruct (sys_connect fd _ _) as [[|] k3] eqn:E; [|done].
  intros [= <-]. apply connect_law in E as (Ho & Hp & Hw & Ht). destruct (timeo_law fd (0, 100 * 1000) k1) as [Ho' Ht'].
  rewrite Ho' in Ho. split; cbn [fst snd]; [done|by rewrite Ht, Ht'|]. exists []. by rewrite Hw.
Qed.

Lemma sendMsg_ok port ms fd m k : Connected port ms (fd, k) -> Connected port (ms ++ [m]) (fd, sendMsg fd m k).
Proof.
  intros [Hp Ht (got & Hs & Hw & Ha)]. cbn [fst snd] in *. unfold sendMsg.
  destruct (sys_send fd (Gateway.client_enc m) k) as [n k'] eqn:E.
  destruct (send_law fd _ k n k' ltac:(by rewrite Hp) E) as (Hp' & Ht' & Hc). split; cbn [fst snd]; [by rewrite Hp'|by rewrite Ht'|].
  destruct Hc as [[_ Hc]|[-> Hc]].
  - exists (got ++ [m]). rewrite Hc, Hw, map_app, concat_app. cbn. rewrite app_nil_r. split; [by apply sublist_app|].
    split; [done|]. intros Hf. by rewrite (Ha Hf).
  - exists got. rewrite Hc. split; [by apply sublist_inserts_r|]. split; [done|]. intros Hf. destruct (Hf fd (Gateway.client_enc m) k).
    by rewrite E.
Qed.

Definition sends_only (xs : list Bot.effect) : Prop := Forall (fun x => exists m, x = Bot.ESend m) xs.

Lemma perform_sends port xs ms st st' :
  sends_only xs -> Connected port ms st -> perform_all port xs st = Some st' -> Connected port (since ms xs) st'.
Proof.
  intros Hx. revert ms st. induction Hx as [|x xs [m ->] _ IH]; intros ms [fd k] HC H; cbn in *; [by inv H|].
  eapply IH; [|exact H]. by apply sendMsg_ok.
Qed.

Lemma since_sends ms xs : sends_only xs -> since ms xs = ms ++ Bot.sent xs.
Proof.
  intros Hx. revert ms. induction Hx as [|x xs [m ->] _ IH]; intros ms; cbn; [by rewrite app_nil_r|].
  by rewrite IH, <- (assoc_L (++)).
Qed.

Section Client.
Context {LM : Libm} {PB : Protobuf}.

(** An iteration sends, and at its end may play the drill of a lost connection. *)
Lemma iteration_effects d f t now b b' e :
  Bot.iteration d f t now b = Bot.Next b' e ->
  exists e1 e2, e = e1 ++ e2 /\ sends_only e1 /\
    (sends_only e2 \/ exists p tok, e2 = [Bot.EClose; Bot.ESleep 500; Bot.EConnect; Bot.ESend (MReconnectReq p tok)]).
Proof.
  intros (b1 & e1 & e2 & H1 & H2 & ->)%Bot.iteration_inv. exists e1, e2. split; [done|]. split.
  { destruct f as [[id body]|]; [|inv H1; constructor]. unfold Bot.on_message in H1.
    repeat (dmatch_in H1); inv H1; repeat constructor; eauto. }
  unfold Bot.timers in H2. destruct (Bot.drop_due d now b1); [injection H2 as <- <-; right; by eexists _, _|left].
  destruct (Bot.heartbeat now b1) as [b2 h] eqn:Eh. destruct (Bot.decide_input now b2) as [b3 i] eqn:Ei.
  injection H2 as <- <-. apply Forall_app. unfold Bot.heartbeat in Eh. unfold Bot.decide_input in Ei.
  split; [destruct (2000 <? _); inv Eh; repeat constructor; eauto|].
  destruct (_ && _); [destruct (Bot.nearest _ _) as [[en|] best]|]; inv Ei; repeat constructor; eauto.
Qed.

(** A connection of the bot begins with its login or its token. *)
Definition introduced (account : string) (ms : list client_msg) : Prop :=
  match ms with MLoginReq acc :: _ => acc = account | MReconnectReq _ _ :: _ => True | _ => False end.

Lemma introduced_app account ms ms' : introduced account ms -> introduced account (ms ++ ms').
Proof. by destruct ms as [|[] ?]. Qed.

Lemma perform_iteration account d f t now b b' e port ms st st' :
  Bot.iteration d f t now b = Bot.Next b' e -> Connected port ms st -> introduced account ms ->
  perform_all port e st = Some st' -> Connected port (since ms e) st' /\ introduced account (since ms e).
Proof.
  intros (e1 & e2 & -> & He1 & He2)%iteration_effects HC Hi. rewrite perform_all_app, since_app.
  destruct (perform_all port e1 st) as [st1|] eqn:E1; [|done]. pose proof (perform_sends _ _ _ _ _ He1 HC E1) as HC1.
  destruct He2 as [He2|(p & tok & ->)].
  - intros H. split; [by eapply perform_sends|]. rewrite !since_sends by done. by apply introduced_app, introduced_app.
  - destruct st1 as [fd k]. cbn. destruct (connectTo port _) as [[fd2 k2]|] eqn:Ec; [|done].
    intros [= <-]. apply connectTo_ok in Ec. split; [exact (sendMsg_ok port [] fd2 _ k2 Ec)|done].
Qed.

Lemma perform_run account d now b tr now' b' port ms st st' :
  Bot.run d now b tr now' b' -> Connected port ms st -> introduced account ms ->
  perform_all port (mjoin (map Bot.did tr)) st = Some st' ->
  Connected port (since ms (mjoin (map Bot.did tr))) st' /\ introduced account (since ms (mjoin (map Bot.did tr))).
Proof.
  intros Hr. revert ms st. induction Hr as [|now b f t now1 b1 e tr now2 b2 _ _ Hi _ IH]; intros ms st HC Hin H; [by inv H|].
  change (mjoin (map Bot.did (Bot.mkEntry now1 f e :: tr))) with (e ++ mjoin (map Bot.did tr)) in *.
  rewrite perform_all_app in H. rewrite since_app. destruct (perform_all port e st) as [st1|] eqn:E; [|done].
  destruct (perform_iteration account _ _ _ _ _ _ _ _ _ _ _ Hi HC Hin E) as [HC1 Hi1]. by eapply IH.
Qed.

(** The requests of the bot reach the wire. Whatever the server sends and
    however often the bot plays its drill, its descriptor is connected to the port
    on the local host with the time-out its clock needs; the bytes on that
    connection are whole frames of the requests it has sent on it, in order, all of
    them unless a [send] failed; and the first of these requests is the login or
    the token. *)
Theorem bot_sends_whole_requests account d now tr now' b port k st :
  Bot.run d now (fst (Bot.start account)) tr now' b ->
  perform_all port (snd (Bot.start account) ++ mjoin (map Bot.did tr)) (-1, k) = Some st ->
  let ms := since [] (snd (Bot.start account) ++ mjoin (map Bot.did tr)) in
  Connected port ms st /\ introduced account ms.
Proof.
  intros Hr H ms. subst ms. rewrite perform_all_app in H. rewrite since_app. cbn [Bot.start snd] in *. cbn in H |- *.
  destruct (connectTo port k) as [[fd k1]|] eqn:Ec; [|done]. apply connectTo_ok in Ec.
  eapply perform_run; [exact Hr|exact (sendMsg_ok port [] fd _ k1 Ec)|done|exact H].
Qed.

End Client.

End Dial.

(** ** An instance *)

Module Host.

Record sock : Type := mkSock {
  s_peer : option InetAddress.sockaddr_in;
  s_time : option (Z * Z);
  s_wire : list byte;
}.

Record t : Type := mk { next : Z; socks : gmap Z sock }.

#[global] Instance host_kernel : DialKernel t := {
  sys_socket k := (next k, mk (next k + 1) (<[next k := mkSock None None []]> (socks k)));
  sys_rcvtimeo fd tv k := mk (next k) (alter (fun s => mkSock (s_peer s) (Some tv) (s_wire s)) fd (socks k));
  sys_connect fd a k :=
    match socks k !! fd with
    | Some (mkSock None tv _) => (true, mk (next k) (<[fd := mkSock (Some a) tv []]> (socks k)))
    | _ => (false, k)
    end;
  sys_send fd bs k :=
    match socks k !! fd with
    | Some (mkSock (Some a) tv w) => (Z.of_nat (length bs), mk (next k) (<[fd := mkSock (Some a) tv (w ++ bs)]> (socks k)))
    | _ => (-1, k)
    end;
  sys_close fd k := mk (next k) (delete fd (socks k));
  is_open k fd := bool_decide (is_Some (socks k !! fd));
  rcvtimeo k fd := socks k !! fd ≫= s_time;
  peer k fd := socks k !! fd ≫= s_peer;
  wire k fd := default [] (s_wire <$> socks k !! fd);
}.

#[global] Instance host_laws : DialLaws t.
Proof.
  split.
  - intros fd tv k. cbn. rewrite lookup_alter_eq. destruct (socks k !! fd); by split.
  - intros fd a k k'. cbn. destruct (socks k !! fd) as [[[x|] tv w]|] eqn:E; intros H; inv H. cbn.
    rewrite lookup_insert_eq. by split_and!.
  - intros fd bs k n k'. cbn. destruct (socks k !! fd) as [[[x|] tv w]|] eqn:E; cbn; [|done|done].
    intros _ H. inv H. cbn. rewrite lookup_insert_eq. cbn. split_and!; [done|done|by left].
Qed.

End Host.

Lemma bot_sends_whole_requests_witness :
  exists tr now' b' st, Bot.after_run 300 5000 (Bot.hello ++ Bot.duel_msgs) Bot.init = Some (tr, now', b') /\
    @perform_all Host.t _ Server.bits_server 9100 (snd (Bot.start "alice") ++ mjoin (map Bot.did tr)) (-1, Host.mk 3 ∅) = Some st /\
    peer (snd st) (fst st) = Some (InetAddress.make 9100 "127.0.0.1").
Proof.
  destruct (Bot.after_run 300 5000 (Bot.hello ++ Bot.duel_msgs) Bot.init) as [[[tr now'] b']|] eqn:E; [|vm_compute in E; discriminate E].
  assert (exists st, @perform_all Host.t _ Server.bits_server 9100 (snd (Bot.start "alice") ++ mjoin (map Bot.did tr)) (-1, Host.mk 3 ∅) = Some st)
    as [st Hst].
  { vm_compute in E. injection E as <- <- <-. eexists. vm_compute. reflexivity. }
  exists tr, now', b', st. split; [reflexivity|]. split; [exact Hst|].
  exact (Co_peer _ _ _ (proj1 (bot_sends_whole_requests (SP := Server.bits_server) "alice" 300 5000 tr now' b' 9100 (Host.mk 3 ∅) st
    (Bot.run_exec_run _ _ _ _ _ _ _ E) Hst))).
Defined.

End Dial.
